(* ===== verification/_CoqProject ===== *)
-Q . S2P
Prelude.v
Wire.v
Varint.v
FrameCodec.v
RustStd.v
Endpoint.v
Probe.v
TargetCodec.v
RelayPayload.v
Settings.v
FrameIo.v
Duplex.v
Socks5.v
Auth.v
Policy.v
Mask.v
MaskReplay.v
MaskStream.v
MaskUdp.v
RateLimit.v
ServerConfig.v
ClientConfig.v
Security.v
Masking.v
Budget.v
Dialer.v
RelayState.v
RelayHandlers.v
RelaySession.v
RelayEdits.v
RelayTotal.v
RelaySim.v
RelayInv.v
RelayBudgets.v
RelayStreams.v
RelaySafety.v
RelayTheorems.v
ServerRuntime.v
Handshake.v
ClientConnect.v
ClientSession.v
ClientFlows.v
ClientFlowsTheorems.v
ClientOwnership.v
ClientRelay.v
ClientDrain.v
ClientPool.v
ClientPoolTheorems.v
ClientPlacement.v
ClientListener.v
ClientUdp.v
HandshakeTheorems.v
