(* ===== verification/Prelude.v ===== *)
(** * Uncrowned King: a verification development

    Uncrowned King is a relay: a client offers SOCKS5 to local applications and
    carries their TCP and UDP flows, as frames of an authenticated carrier (TLS
    over TCP, or QUIC), to a server that dials the targets its policy allows.  The
    development models both ends, the protocol, authentication, policy and masking
    they share, and proves what their users rely on.

    ** How the program is modelled

    - A fallible function returns [result E A]: [Ok], [Err], or [Panic] for what
      Rust's types do not show (an index out of range, a failed debug assertion).
      So "never panics" is a theorem and not a convention of the model.
    - A w-bit integer is a [Z] with its wrap-around, saturation or check written
      out.  The width of [usize] is the class [Platform], with 32- and 64-bit
      instances; bytes are lists of [Z] with [bytes_ok].
    - A hash map is a [gmap]; where the program iterates over one, the order of
      iteration is an argument that any permutation may instantiate.
    - The network, the resolver, the clock and the scheduler are arguments: a
      script of outcomes, or a rule of a step relation that takes any outcome.
      HMAC-SHA-256 and ChaCha20 are classes of operations with the laws the code
      relies on, each with an instance that shows the laws can hold.
    - An asynchronous task is a machine suspended where the code awaits; what lies
      between two awaits, or under one lock, is one step.  Tasks interleave in any
      order, and a task may be cancelled where the code allows it.

    ** Files

    The prelude and the libraries:
    - [Prelude]: results, machine integers, big-endian bytes, buffers.
    - [Wire]: the protocol errors and the interfaces [StreamDecoder],
      [PrefixCodec] and [PayloadCodec] that the codecs instantiate and the readers
      are proved against.
    - [RustStd]: what the sources use of std (IP addresses and their parser,
      socket addresses, ASCII case, decimal numbers).
    - [Duplex]: a carrier as a script of transport events and a log of what was
      written, shared by the handshake and the SOCKS5 front end.

    The protocol crate (crates/uk-proto/src):
    - [Varint] (varint.rs), [FrameCodec] (frame.rs), [TargetCodec] (target.rs),
      [RelayPayload] (tcp.rs, udp.rs, status.rs, datagram.rs, flow.rs),
      [Settings] (settings.rs): each encoder and decoder, with the theorem that
      the decoder accepts exactly what the encoder writes, and never panics.
    - [FrameIo] (io.rs): the cancellation-safe frame reader over any chunking of
      the stream, and the writers.
    - [Endpoint] (endpoint.rs): the validation of listen and dial addresses.
    - [Probe] (observability.rs): requests and responses of the health and metrics
      endpoint.

    Authentication, policy, masking:
    - [Auth] (crates/uk-auth/src/lib.rs): a response is accepted exactly when it
      is an honest one for the challenge, in time, and not seen before.
    - [Policy] (crates/uk-policy/src/lib.rs): which targets the rules allow;
      private, embedded and metadata addresses.
    - [Mask], [MaskReplay], [MaskStream], [MaskUdp] (crates/uk-mask/src): preludes,
      the replay registry, masked streams and datagrams.

    The server (crates/uk-server/src):
    - [RateLimit] (rate_limit.rs), [Security] (security.rs), [Masking]
      (masking.rs): bans, reloads, the admission of masked connections.
    - [ServerConfig] (config.rs), [ServerRuntime] (lib.rs): what a configuration is
      refused for, start-up, reloads that are all or nothing, the admission of
      connections and their deadlines.
    - [Budget] (relay/context.rs): the shared counters under any interleaving of
      their atomic operations.
    - [Dialer] (relay/dialer.rs): policy, resolution and the race of connection
      attempts.
    - [RelayState], [RelayHandlers], [RelaySession] (relay/context.rs, tcp.rs,
      udp.rs, session.rs, tasks.rs): a session's state, one function per handler
      and per task, and the relation [Session.step] that interleaves the loop, the
      tasks, the teardown and the rest of the world.
    - [RelayEdits], [RelaySim]: every handler and every task is a sequence of
      elementary [edit]s.  [RelayTotal]: no handler panics.
    - [RelayInv], [RelayBudgets], [RelayStreams]: the invariants, each preserved
      by an edit.  [RelaySafety] lifts them to every reachable state, and
      [RelayTheorems] states what follows.

    The client (crates/uk-client/src):
    - [ClientConfig] (config.rs, config_state.rs), [Socks5] (socks5.rs): the
      configuration, and the negotiation with local applications, which accepts
      exactly the requests of RFC 1928 the client supports.
    - [ClientConnect] (session.rs): dialling, failover between endpoints and the
      penalties of degraded ones.
    - [ClientSession] (relay/context.rs, carrier.rs, session_manager.rs): one
      carrier, its flow table, budgets, admission, keepalive and reader.
      [ClientFlows] (relay/tcp.rs, udp.rs): the tasks of its flows and their
      interleaving.
    - [ClientFlowsTheorems]: budgets and ceilings; [ClientOwnership]: permits,
      routes and bytes never leak; [ClientRelay]: both byte streams of a SOCKS
      connection are relayed exactly; [ClientDrain]: a drained session closes.
    - [ClientPool] (relay/session_manager.rs, context.rs): the pool of carriers,
      whose members are the systems of [ClientFlows]; [ClientPoolTheorems]: its
      bound, its generations, the ownership of carriers, the cooldown;
      [ClientPlacement]: flows go to the least loaded carrier.
    - [ClientUdp] (relay/udp.rs): a UDP association serves one client only.
    - [ClientListener] (relay/listener.rs, tcp.rs): the accept loop and its slots,
      the states of a SOCKS connection and what it tells the application.

    Both ends together:
    - [Handshake] (uk-server lib.rs, uk-client session.rs) and
      [HandshakeTheorems]: holders of a credential get through, nobody else does.

    ** Bounds and fuel

    Loops over a buffer recurse on fuel that is the length of the buffer or of the
    script plus one, and the theorems show that it does not run out: the decoders
    are total, and the connection race ends within its script.  The relay, the
    client's tasks and the pool are step relations and need no fuel; the end of
    the server's teardown is proved with a measure.  A server session is assumed to
    allocate fewer than 2^64 flow tokens.

    ** Not modelled


    - TLS and QUIC (rustls, quinn): a carrier is a byte stream with write outcomes
      and an optional datagram channel.  TOML and the file system are inputs.
    - Binding of sockets, the server's accept loops, signal handlers and command
      lines: socket and process calls around the modelled parts.
    - Logging and metrics rendering; the relay's metrics are a list of what was
      recorded.
    - On the client, the join sets of background tasks and the deadline of a
      carrier write; timers fire at any step.
    - Tests, benchmarks and fuzz targets. *)

From Stdlib Require Export ZArith Lia.
From stdpp Require Export prelude gmap strings list fin_maps.

#[global] Open Scope Z_scope.

(** ** Results

    A Rust [Result] plus the outcome the type system of Rust does not show:
    a panic (an out-of-range index, a [Buf::get_*] past the end of the buffer,
    an arithmetic overflow in a debug build).  Modelling it as a third value
    makes "this routine never panics on hostile input" a theorem. *)
Inductive result (E A : Type) : Type :=
  | Ok (a : A)
  | Err (e : E)
  | Panic.
Arguments Ok {E A} a.
Arguments Err {E A} e.
Arguments Panic {E A}.

#[global] Instance result_eq_dec {E A} `{EqDecision E, EqDecision A} :
  EqDecision (result E A).
Proof. solve_decision. Defined.

(** The [?] operator. *)
Definition rbind {E A B} (r : result E A) (k : A → result E B) : result E B :=
  match r with
  | Ok a => k a
  | Err e => Err e
  | Panic => Panic
  end.

(** [Result::map_err]. *)
Definition map_err {E F A} (f : E → F) (r : result E A) : result F A :=
  match r with
  | Ok a => Ok a
  | Err e => Err (f e)
  | Panic => Panic
  end.

Definition is_ok {E A} (r : result E A) : bool :=
  match r with Ok _ => true | _ => false end.

Declare Scope uk_scope.
Delimit Scope uk_scope with uk.
Notation "'let?' x := c 'in' k" := (rbind c (fun x => k))
  (at level 10, x binder, c at level 200, k at level 200) : uk_scope.
Notation "'check' b 'else' e 'in' k" := (if b : bool then k else Err e)
  (at level 10, b at level 100, e at level 100, k at level 200) : uk_scope.
#[global] Open Scope uk_scope.

(** Inversion of a chain of [?]s: what a successful, or a failed, bind says. *)
Lemma rbind_Ok {E A B} (r : result E A) (k : A → result E B) b :
  rbind r k = Ok b ↔ ∃ a, r = Ok a ∧ k a = Ok b.
Proof. destruct r; naive_solver. Qed.

Lemma rbind_Err {E A B} (r : result E A) (k : A → result E B) e :
  rbind r k = Err e ↔ r = Err e ∨ ∃ a, r = Ok a ∧ k a = Err e.
Proof. destruct r; naive_solver. Qed.

Lemma rbind_Panic {E A B} (r : result E A) (k : A → result E B) :
  rbind r k = Panic ↔ r = Panic ∨ ∃ a, r = Ok a ∧ k a = Panic.
Proof. destruct r; naive_solver. Qed.

Lemma map_err_Ok {E F A} (f : E → F) (r : result E A) a :
  map_err f r = Ok a ↔ r = Ok a.
Proof. destruct r; naive_solver. Qed.

Lemma map_err_Panic {E F A} (f : E → F) (r : result E A) :
  map_err f r = Panic ↔ r = Panic.
Proof. destruct r; naive_solver. Qed.

(** ** Machine integers *)
Abbreviation Bytes := (list Z).

Definition in_width (w z : Z) : Prop := 0 ≤ z < 2 ^ w.
Abbreviation is_u8 := (in_width 8).
Abbreviation is_u16 := (in_width 16).
Abbreviation is_u32 := (in_width 32).
Abbreviation is_u64 := (in_width 64).
Abbreviation is_u128 := (in_width 128).

#[global] Instance in_width_dec w z : Decision (in_width w z).
Proof. unfold in_width. apply _. Defined.

Abbreviation bytes_ok := (Forall is_u8).

Definition U64_MAX : Z := 2 ^ 64 - 1.

(** [x as uN] on an unsigned [x]: truncation. *)
Definition truncate (w z : Z) : Z := z mod 2 ^ w.

(** The width of [usize] is the platform's: 32 or 64 bits. *)
Class Platform : Set := {
  usize_bits : Z;
  usize_bits_ok : usize_bits = 32 ∨ usize_bits = 64
}.

Definition platform64 : Platform :=
  {| usize_bits := 64; usize_bits_ok := or_intror eq_refl |}.
Definition platform32 : Platform :=
  {| usize_bits := 32; usize_bits_ok := or_introl eq_refl |}.

Section Usize.
Context {P : Platform}.

Definition USIZE_MAX : Z := 2 ^ usize_bits - 1.

(** [usize::try_from(x : u64)]. *)
Definition usize_try_from (z : Z) : option Z :=
  if decide (z ≤ USIZE_MAX) then Some z else None.

(** [usize::saturating_add]. *)
Definition usize_saturating_add (a b : Z) : Z := Z.min (a + b) USIZE_MAX.

(** [usize::checked_add]. *)
Definition usize_checked_add (a b : Z) : option Z := usize_try_from (a + b).

Lemma USIZE_MAX_cases : USIZE_MAX = 4294967295 ∨ USIZE_MAX = 18446744073709551615.
Proof. unfold USIZE_MAX. destruct usize_bits_ok as [-> | ->]; [left|right]; reflexivity. Qed.

Lemma usize_try_from_Some z n : usize_try_from z = Some n ↔ n = z ∧ z ≤ USIZE_MAX.
Proof. unfold usize_try_from. case_decide; naive_solver. Qed.
End Usize.

(** A list's length as an integer; every [len()] of the sources. *)
Abbreviation zlen l := (Z.of_nat (length l)).

Lemma zlen_nonneg {A} (l : list A) : 0 ≤ zlen l.
Proof. lia. Qed.

(** Case analysis on the shape of a result computation in a hypothesis. *)
Ltac res_step :=
  match goal with
  | H : rbind _ _ = Ok _ |- _ => apply rbind_Ok in H as (? & ? & ?)
  | H : rbind _ _ = Err _ |- _ => apply rbind_Err in H as [?|(? & ? & ?)]
  | H : rbind _ _ = Panic |- _ => apply rbind_Panic in H as [?|(? & ? & ?)]
  | H : map_err _ _ = Ok _ |- _ => apply map_err_Ok in H
  | H : map_err _ _ = Panic |- _ => apply map_err_Panic in H
  | H : (if ?b then _ else _) = Ok _ |- _ => destruct b eqn:?
  | H : (if ?b then _ else _) = Err _ |- _ => destruct b eqn:?
  | H : (if ?b then _ else _) = Panic |- _ => destruct b eqn:?
  | H : match ?x with _ => _ end = Ok _ |- _ => destruct x eqn:?
  | H : match ?x with _ => _ end = Err _ |- _ => destruct x eqn:?
  | H : match ?x with _ => _ end = Panic |- _ => destruct x eqn:?
  end.
Ltac res_inv := repeat (res_step; simplify_eq/=).

(** Computations that cannot panic, one rule per combinator. *)
Create HintDb no_panic.

Lemma rbind_no_panic {E A B} (r : result E A) (k : A → result E B) :
  r ≠ Panic → (∀ a, r = Ok a → k a ≠ Panic) → rbind r k ≠ Panic.
Proof. destruct r; naive_solver. Qed.

Lemma map_err_no_panic {E F A} (f : E → F) (r : result E A) : r ≠ Panic → map_err f r ≠ Panic.
Proof. by destruct r. Qed.

#[export] Hint Resolve map_err_no_panic : no_panic.
#[export] Hint Extern 1 (Ok _ ≠ Panic) => discriminate : no_panic.
#[export] Hint Extern 1 (Err _ ≠ Panic) => discriminate : no_panic.

Ltac no_panic :=
  repeat first
    [ assumption
    | discriminate
    | apply rbind_no_panic; [|intros ? ?]
    | apply map_err_no_panic
    | match goal with
      | |- (if ?b then _ else _) ≠ Panic => destruct b eqn:?
      | |- match ?x with _ => _ end ≠ Panic => destruct x eqn:?
      end
    | solve [auto with no_panic] ].

(** Turn boolean tests on integers into propositions. *)
Ltac bool_to_prop :=
  repeat match goal with
  | H : (_ <? _) = true |- _ => apply Z.ltb_lt in H
  | H : (_ <? _) = false |- _ => apply Z.ltb_ge in H
  | H : (_ <=? _) = true |- _ => apply Z.leb_le in H
  | H : (_ <=? _) = false |- _ => apply Z.leb_gt in H
  | H : (_ =? _) = true |- _ => apply Z.eqb_eq in H
  | H : (_ =? _) = false |- _ => apply Z.eqb_neq in H
  | H : (_ && _) = true |- _ => apply andb_true_iff in H as [? ?]
  | H : (_ || _) = false |- _ => apply orb_false_iff in H as [? ?]
  | H : negb _ = true |- _ => apply negb_true_iff in H
  | H : negb _ = false |- _ => apply negb_false_iff in H
  | H : bool_decide _ = true |- _ => apply bool_decide_eq_true in H
  | H : bool_decide _ = false |- _ => apply bool_decide_eq_false in H
  end.

Lemma forallb_Forall {A} (f : A → bool) l : forallb f l = true ↔ Forall (λ x, f x = true) l.
Proof.
  induction l as [|x l IH]; simpl; [by split|].
  by rewrite andb_true_iff, Forall_cons, IH.
Qed.

Lemma existsb_Exists {A} (f : A → bool) l : existsb f l = true ↔ Exists (λ x, f x = true) l.
Proof.
  induction l as [|x l IH]; simpl; [by rewrite Exists_nil|].
  by rewrite orb_true_iff, Exists_cons, IH.
Qed.

Lemma existsb_false {A} (f : A → bool) l : existsb f l = false ↔ Forall (λ x, f x = false) l.
Proof.
  induction l as [|x l IH]; simpl; [by split|].
  by rewrite orb_false_iff, Forall_cons, IH.
Qed.

(** ** Big-endian integers: [to_be_bytes], [from_be_bytes], [put_uN], [get_uN] *)
Fixpoint be_encode (n : nat) (z : Z) : Bytes :=
  match n with
  | O => []
  | S n' => Z.shiftr z (8 * Z.of_nat n') mod 256 :: be_encode n' z
  end.

Definition be_step (acc b : Z) : Z := acc * 256 + b.
Definition be_decode (bs : Bytes) : Z := foldl be_step 0 bs.

Section BigEndian.
Implicit Types (bs : Bytes) (n : nat) (z : Z).

Lemma be_encode_S n z :
  be_encode (S n) z = Z.shiftr z (8 * Z.of_nat n) mod 256 :: be_encode n z.
Proof. done. Qed.

Lemma be_decode_1 b : be_decode [b] = b.
Proof. done. Qed.

Lemma be_decode_2 b c : be_decode [b; c] = b * 256 + c.
Proof. done. Qed.

Lemma length_be_encode n z : length (be_encode n z) = n.
Proof. induction n; simpl; congruence. Qed.

Lemma bytes_ok_be_encode n z : bytes_ok (be_encode n z).
Proof.
  induction n as [|n IH]; simpl; constructor; [|done].
  unfold in_width. change (2 ^ 8) with 256. apply Z.mod_pos_bound. lia.
Qed.

Lemma foldl_be_step bs acc :
  foldl be_step acc bs = acc * 256 ^ zlen bs + foldl be_step 0 bs.
Proof.
  revert acc. induction bs as [|b bs IH]; intros acc; simpl foldl.
  - simpl. lia.
  - rewrite (IH (be_step acc b)), (IH (be_step 0 b)). unfold be_step.
    rewrite length_cons, Nat2Z.inj_succ, Z.pow_succ_r by lia. nia.
Qed.

Lemma be_decode_cons b bs : be_decode (b :: bs) = b * 256 ^ zlen bs + be_decode bs.
Proof. unfold be_decode. simpl. rewrite foldl_be_step. unfold be_step. nia. Qed.

Lemma be_decode_bound bs : bytes_ok bs → 0 ≤ be_decode bs < 256 ^ zlen bs.
Proof.
  induction 1 as [|b bs Hb _ IH]; [unfold be_decode; simpl; lia|].
  rewrite be_decode_cons, length_cons, Nat2Z.inj_succ, Z.pow_succ_r by lia.
  unfold in_width in Hb. change (2 ^ 8) with 256 in Hb. nia.
Qed.

Lemma pow256 k : 0 ≤ k → 256 ^ k = 2 ^ (8 * k).
Proof. intros. change 256 with (2 ^ 8). rewrite <- Z.pow_mul_r by lia. done. Qed.

Lemma be_decode_encode n z : be_decode (be_encode n z) = z mod 256 ^ Z.of_nat n.
Proof.
  induction n as [|n IH]; [simpl; by rewrite Z.mod_1_r|].
  change (be_encode (S n) z) with (Z.shiftr z (8 * Z.of_nat n) mod 256 :: be_encode n z).
  rewrite be_decode_cons, length_be_encode, IH.
  rewrite Z.shiftr_div_pow2, <- pow256 by lia.
  rewrite Nat2Z.inj_succ, Z.pow_succ_r, (Z.mul_comm 256) by lia.
  rewrite Z.rem_mul_r by (try apply Z.pow_nonzero; lia). lia.
Qed.

Lemma be_decode_encode_small n z :
  0 ≤ z < 256 ^ Z.of_nat n → be_decode (be_encode n z) = z.
Proof. intros. rewrite be_decode_encode. by apply Z.mod_small. Qed.

Lemma be_encode_shift n z y :
  be_encode n (y * 256 ^ Z.of_nat n + z) = be_encode n z.
Proof.
  revert y. induction n as [|n IH]; intros y; [done|].
  change (be_encode (S n)) with
    (fun z => Z.shiftr z (8 * Z.of_nat n) mod 256 :: be_encode n z). cbv beta.
  rewrite Nat2Z.inj_succ, Z.pow_succ_r by lia. f_equal.
  - rewrite !Z.shiftr_div_pow2, <- !pow256 by lia.
    rewrite Z.mul_assoc, Z.div_add_l by (apply Z.pow_nonzero; lia).
    rewrite Z.add_comm. by rewrite Z.mod_add.
  - rewrite Z.mul_assoc. apply IH.
Qed.

Lemma be_encode_decode bs : bytes_ok bs → be_encode (length bs) (be_decode bs) = bs.
Proof.
  induction 1 as [|b bs Hb Hbs IH]; [done|].
  rewrite be_decode_cons. simpl. f_equal.
  - pose proof (be_decode_bound bs Hbs) as Hbd.
    rewrite Z.shiftr_div_pow2, <- pow256 by lia.
    rewrite Z.div_add_l by (apply Z.pow_nonzero; lia).
    rewrite (Z.div_small (be_decode bs)) by lia.
    rewrite Z.add_0_r. apply Z.mod_small. exact Hb.
  - by rewrite be_encode_shift.
Qed.

Lemma be_encode_1 z : is_u8 z → be_encode 1 z = [z].
Proof.
  intros Hz. change (be_encode 1 z) with [Z.shiftr z 0 mod 256].
  by rewrite Z.shiftr_0_r, Z.mod_small.
Qed.

Lemma be_encode_2 b c : is_u8 b → is_u8 c → be_encode 2 (b * 256 + c) = [b; c].
Proof.
  intros Hb Hc. rewrite <- (be_encode_decode [b; c]) by (by rewrite !Forall_cons).
  reflexivity.
Qed.

Lemma be_encode_inj n z1 z2 :
  0 ≤ z1 < 256 ^ Z.of_nat n → 0 ≤ z2 < 256 ^ Z.of_nat n →
  be_encode n z1 = be_encode n z2 → z1 = z2.
Proof.
  intros H1 H2 H. rewrite <- (be_decode_encode_small n z1), H by done.
  by apply be_decode_encode_small.
Qed.
End BigEndian.
#[global] Opaque be_encode be_decode.

(** ** Bit masks as arithmetic *)
Lemma lor_add_shift v c k : 0 ≤ k → 0 ≤ v < 2 ^ k → Z.lor v (c * 2 ^ k) = v + c * 2 ^ k.
Proof.
  intros Hk Hv.
  assert (Z.land v (c * 2 ^ k) = 0) as Hland.
  { apply Z.bits_inj'. intros i Hi. rewrite Z.land_spec, Z.bits_0.
    destruct (decide (i < k)).
    - by rewrite Z.mul_pow2_bits_low, andb_false_r.
    - rewrite <- (Z.mod_small v (2 ^ k)), Z.mod_pow2_bits_high by lia. done. }
  rewrite Z.add_nocarry_lxor by done.
  apply Z.bits_inj'. intros i Hi. rewrite Z.lor_spec, Z.lxor_spec.
  apply (f_equal (λ z, Z.testbit z i)) in Hland.
  rewrite Z.land_spec, Z.bits_0 in Hland.
  by destruct (Z.testbit v i), (Z.testbit (c * 2 ^ k) i).
Qed.

Lemma land_low_mask z k : 0 ≤ k → Z.land z (2 ^ k - 1) = z mod 2 ^ k.
Proof. intros. rewrite <- Z.land_ones by done. by rewrite Z.ones_equiv, Z.sub_1_r. Qed.

(** A left-shifted all-ones mask at width [w] keeps the high bits. *)
Lemma land_high_mask w k a :
  0 ≤ k ≤ w → 0 ≤ a < 2 ^ w →
  Z.land a (truncate w (Z.shiftl (2 ^ w - 1) k)) = a / 2 ^ k * 2 ^ k.
Proof.
  intros Hk Ha. unfold truncate. apply Z.bits_inj'. intros i Hi.
  rewrite Z.land_spec. destruct (decide (i < w)).
  - rewrite Z.mod_pow2_bits_low, Z.shiftl_spec by lia.
    replace (2 ^ w - 1) with (Z.ones w) by (rewrite Z.ones_equiv; lia).
    destruct (decide (i < k)).
    + rewrite Z.mul_pow2_bits_low by lia. rewrite (Z.testbit_neg_r _ (i - k)) by lia.
      by rewrite andb_false_r.
    + rewrite Z.ones_spec_low by lia. rewrite andb_true_r.
      rewrite Z.mul_pow2_bits, Z.div_pow2_bits by lia. f_equal. lia.
  - rewrite Z.mod_pow2_bits_high, andb_false_r by lia.
    rewrite Z.mul_pow2_bits, Z.div_pow2_bits by lia. symmetry.
    rewrite <- (Z.mod_small a (2 ^ w)), Z.mod_pow2_bits_high by lia. done.
Qed.

(** ** The [bytes::Buf] reads

    A read past the end of the buffer panics; the sources guard each of them
    with a [remaining()] test, which is what the totality lemmas show. *)
Section Buf.
Context {E : Type}.

(** [copy_to_bytes], [copy_to_slice], [split_to]. *)
Definition buf_split (n : Z) (src : Bytes) : result E (Bytes * Bytes) :=
  if zlen src <? n then Panic
  else Ok (take (Z.to_nat n) src, drop (Z.to_nat n) src).

(** [get_u8], [get_u16], [get_u32], [get_u64]. *)
Definition get_uint (n : nat) (src : Bytes) : result E (Z * Bytes) :=
  let? '(b, r) := buf_split (Z.of_nat n) src in Ok (be_decode b, r).

Lemma buf_split_app n a r : zlen a = n → buf_split n (a ++ r) = Ok (a, r).
Proof.
  intros <-. unfold buf_split. rewrite length_app.
  destruct (_ <? _) eqn:?; bool_to_prop; [lia|].
  by rewrite Nat2Z.id, take_app_length, drop_app_length.
Qed.

Lemma buf_split_Ok n src a r :
  0 ≤ n → buf_split n src = Ok (a, r) ↔ src = a ++ r ∧ zlen a = n.
Proof.
  intros Hn. split; [|intros [-> <-]; by apply buf_split_app].
  unfold buf_split. intros ?. res_inv. bool_to_prop.
  split; [by rewrite take_drop|]. rewrite length_take. lia.
Qed.

Lemma buf_split_take n k src :
  n = Z.of_nat k → (k ≤ length src)%nat → buf_split n src = Ok (take k src, drop k src).
Proof.
  intros -> Hk. unfold buf_split. rewrite (proj2 (Z.ltb_ge _ _)) by lia. by rewrite Nat2Z.id.
Qed.

Lemma buf_split_neg n src : n ≤ 0 → buf_split n src = Ok ([], src).
Proof.
  intros. unfold buf_split. rewrite (proj2 (Z.ltb_ge _ _)) by lia.
  by rewrite Z2Nat.nonpos by done.
Qed.

Lemma buf_split_Err n src e : buf_split n src ≠ Err e.
Proof. unfold buf_split. intros ?. res_inv. Qed.

Lemma buf_split_Panic n src : buf_split n src = Panic ↔ zlen src < n.
Proof. unfold buf_split. destruct (_ <? _) eqn:?; bool_to_prop; naive_solver lia. Qed.

Lemma get_uint_app n a r : length a = n → get_uint n (a ++ r) = Ok (be_decode a, r).
Proof. intros <-. unfold get_uint. by rewrite buf_split_app. Qed.

Lemma get_uint_encode n z r :
  0 ≤ z < 256 ^ Z.of_nat n → get_uint n (be_encode n z ++ r) = Ok (z, r).
Proof.
  intros. rewrite get_uint_app by apply length_be_encode.
  by rewrite be_decode_encode_small.
Qed.

Lemma get_uint_Ok n src z r :
  get_uint n src = Ok (z, r) ↔ ∃ a, src = a ++ r ∧ length a = n ∧ z = be_decode a.
Proof.
  split.
  - unfold get_uint. intros H. apply rbind_Ok in H as ([a r'] & Hs & ?). simplify_eq.
    apply buf_split_Ok in Hs as [-> ?]; [|lia]. exists a. split_and!; [done|lia|done].
  - intros (a & -> & Ha & ->). by apply get_uint_app.
Qed.

Lemma buf_split_ext n s a r t :
  0 ≤ n → buf_split n s = Ok (a, r) → buf_split n (s ++ t) = Ok (a, r ++ t).
Proof.
  intros Hn [-> Ha]%buf_split_Ok; [|done]. rewrite <- app_assoc. by apply buf_split_app.
Qed.

Lemma get_uint_ext n s z r t :
  get_uint n s = Ok (z, r) → get_uint n (s ++ t) = Ok (z, r ++ t).
Proof.
  intros (a & -> & Ha & ->)%get_uint_Ok. rewrite <- app_assoc. by apply get_uint_app.
Qed.

Lemma get_u8_cons b s : get_uint 1 (b :: s) = Ok (b, s).
Proof.
  exact (get_uint_app 1 [b] s eq_refl).
Qed.

Lemma get_u16_cons b c s : get_uint 2 (b :: c :: s) = Ok (b * 256 + c, s).
Proof.
  exact (get_uint_app 2 [b; c] s eq_refl).
Qed.

Lemma get_uint_encode_inv n src z r :
  bytes_ok src → get_uint n src = Ok (z, r) →
  src = be_encode n z ++ r ∧ 0 ≤ z < 256 ^ Z.of_nat n.
Proof.
  intros Hs (a & -> & <- & ->)%get_uint_Ok. apply Forall_app in Hs as [Ha _].
  rewrite be_encode_decode by done. split; [done|by apply be_decode_bound].
Qed.

Lemma get_uint_Err n src e : get_uint n src ≠ Err e.
Proof. unfold get_uint. intros ?. res_inv; by eapply buf_split_Err. Qed.

Lemma get_uint_Panic n src : get_uint n src = Panic ↔ zlen src < Z.of_nat n.
Proof.
  rewrite <- buf_split_Panic. unfold get_uint, rbind.
  destruct (buf_split _ _) as [[? ?]|?|]; naive_solver.
Qed.
End Buf.
#[global] Opaque buf_split get_uint.
