(* ===== verification/Wire.v ===== *)
(** * Wire: protocol errors, decoder and codec interfaces

    Models crates/uk-proto/src/error.rs and states, as type classes, what the
    protocol layer promises to its clients:

    - [StreamDecoder]: a decoder that reads a prefix of a byte stream, never
      panics, and whose verdict on a prefix is final (more bytes change only a
      [Truncated] verdict).  This is what the frame reader relies on.
    - [PrefixCodec]: an encoder/decoder pair that round-trips in front of any
      continuation, and whose wire form is unique.
    - [PayloadCodec]: the same for payloads that own the whole buffer. *)

From S2P Require Import Prelude.

(* @src crates/uk-proto/src/error.rs 9-52 ProtocolError *)
Inductive ProtocolError : Set :=
  | UnsupportedVersion (version : Z)
  | UnsupportedFlag (flags : Z)
  | OversizedFrame (length limit : Z)
  | Truncated
  | InvalidVarint
  | InvalidTarget (msg : string)
  | UnknownFrameType (value : Z)
  | InvalidFrame (msg : string)
  | InvalidSettings (msg : string)
  | InvalidTcpPayload (msg : string)
  | InvalidUdpPayload (msg : string)
  | InvalidErrorPayload (msg : string).

#[global] Instance ProtocolError_eq_dec : EqDecision ProtocolError.
Proof. solve_decision. Defined.

Abbreviation ProtocolResult := (result ProtocolError).

(** [x.map_err(|_| e)] on an [Option]-like conversion, and [ok_or]. *)
Definition ok_or {E A} (e : E) (o : option A) : result E A :=
  match o with Some a => Ok a | None => Err e end.

Lemma ok_or_Ok {E A} (e : E) (o : option A) a : ok_or e o = Ok a ↔ o = Some a.
Proof. destruct o; naive_solver. Qed.

Lemma ok_or_Panic {E A} (e : E) (o : option A) : ok_or e o ≠ Panic.
Proof. destruct o; naive_solver. Qed.
#[export] Hint Resolve ok_or_Panic : no_panic.

Definition decoder (A : Type) : Type := Bytes → ProtocolResult (A * Bytes).

Class StreamDecoder {A} (d : decoder A) : Prop := {
  sd_total s : bytes_ok s → d s ≠ Panic;
  sd_suffix s a r : d s = Ok (a, r) → ∃ p, s = p ++ r;
  sd_ext_ok s a r t : d s = Ok (a, r) → d (s ++ t) = Ok (a, r ++ t);
  sd_ext_err s e t : d s = Err e → e ≠ Truncated → d (s ++ t) = Err e;
}.

Class PrefixCodec {A} (wf : A → Prop)
    (enc : A → ProtocolResult Bytes) (dec : decoder A) : Prop := {
  pc_stream : StreamDecoder dec;
  pc_roundtrip a bs r : wf a → enc a = Ok bs → dec (bs ++ r) = Ok (a, r);
  pc_canonical s a r : bytes_ok s → dec s = Ok (a, r) →
    wf a ∧ ∃ bs, enc a = Ok bs ∧ s = bs ++ r;
  pc_bytes a bs : wf a → enc a = Ok bs → bytes_ok bs;
}.

Class PayloadCodec {E A} (wf : A → Prop)
    (enc : A → result E Bytes) (dec : Bytes → result E A) : Prop := {
  pl_total s : bytes_ok s → dec s ≠ Panic;
  pl_roundtrip a bs : wf a → enc a = Ok bs → dec bs = Ok a;
  pl_canonical s a : bytes_ok s → dec s = Ok a → wf a ∧ enc a = Ok s;
}.

(** ** Combinators: how the laws compose along a chain of reads. *)
Section Combinators.
Context {A B : Type}.

Lemma sd_ret {A'} (a : A') : StreamDecoder (λ s, Ok (a, s)).
Proof. split; naive_solver eauto using app_nil_l. Qed.

Lemma sd_fail e : e ≠ Truncated → StreamDecoder (λ _, Err e : ProtocolResult (A * Bytes)).
Proof. split; naive_solver. Qed.

Lemma sd_ext {A'} (d d' : decoder A') : (∀ s, d s = d' s) → StreamDecoder d → StreamDecoder d'.
Proof.
  intros Heq Hd. split; intros *; rewrite <- !Heq; [apply sd_total|apply sd_suffix|..].
  - rewrite <- ?Heq. apply sd_ext_ok.
  - rewrite <- ?Heq. apply sd_ext_err.
Qed.
Lemma sd_bind (d : decoder A) (k : A → decoder B) :
  StreamDecoder d → (∀ a, StreamDecoder (k a)) →
  StreamDecoder (λ s, let? '(a, r) := d s in k a r).
Proof.
  intros Hd Hk. split.
  - intros s Hs [H|([a r] & H & H')]%rbind_Panic; [exact (sd_total _ Hs H)|].
    apply sd_suffix in H as [p ->]. apply Forall_app in Hs as [_ Hr].
    exact (sd_total (d := k a) _ Hr H').
  - intros s b r ([a r'] & H & H')%rbind_Ok.
    apply sd_suffix in H as [p ->]. apply (sd_suffix (d := k a)) in H' as [q ->].
    exists (p ++ q). by rewrite app_assoc.
  - intros s b r t ([a r'] & H & H')%rbind_Ok.
    apply rbind_Ok. exists (a, r' ++ t). split; by apply sd_ext_ok.
  - intros s e t [H|([a r'] & H & H')]%rbind_Err Hne; apply rbind_Err.
    + left. by apply sd_ext_err.
    + right. exists (a, r' ++ t). split; [by apply sd_ext_ok|by apply sd_ext_err].
Qed.

Lemma sd_check (b : bool) e (d : decoder A) :
  e ≠ Truncated → StreamDecoder d → StreamDecoder (λ s, if b then Err e else d s).
Proof. intros. destruct b; [by apply sd_fail|done]. Qed.

(** A read of [n] bytes guarded by [remaining() < n]. *)
Lemma sd_split (n : Z) :
  StreamDecoder (λ s, if zlen s <? n then Err Truncated else buf_split n s).
Proof.
  destruct (decide (n < 0)) as [Hneg|Hn].
  { assert (∀ s, Ok ([], s) = if zlen s <? n then Err Truncated else buf_split n s).
    { intros s. rewrite (proj2 (Z.ltb_ge _ _)) by lia. symmetry.
      apply (buf_split_neg n). lia. }
    apply (sd_ext (λ s, Ok ([], s))); [done|]. apply sd_ret. }
  apply Z.nlt_ge in Hn. split.
  - intros s _. destruct (_ <? _) eqn:?; [done|]. bool_to_prop.
    intros H%buf_split_Panic. lia.
  - intros s a r. destruct (_ <? _) eqn:?; [done|]. intros [-> _]%buf_split_Ok; eauto.
  - intros s a r t. destruct (_ <? _) eqn:?; [done|]. bool_to_prop.
    intros [-> Hl]%buf_split_Ok; [|done]. rewrite <- app_assoc in *.
    rewrite !length_app in *. destruct (_ <? _) eqn:?; bool_to_prop; [lia|].
    by apply buf_split_app.
  - intros s e t. destruct (_ <? _) eqn:?; [naive_solver|].
    intros H. by apply buf_split_Err in H.
Qed.

End Combinators.

(** ** Consequences clients use *)
Section Codec.
Context {A} {wf : A → Prop} {enc : A → ProtocolResult Bytes} {dec : decoder A}.
Context `{!PrefixCodec wf enc dec}.

(** No encoding is a proper prefix of another: a stream of encodings has one
    reading. *)
Lemma pc_prefix_free a b ba bb ra rb :
  wf a → wf b → enc a = Ok ba → enc b = Ok bb →
  ba ++ ra = bb ++ rb → a = b ∧ ra = rb.
Proof.
  intros Ha Hb Ea Eb H.
  pose proof (pc_roundtrip a ba ra Ha Ea) as H1.
  pose proof (pc_roundtrip b bb rb Hb Eb) as H2.
  rewrite H in H1. split; congruence.
Qed.

(** [src.has_remaining()] after the last field: a prefix codec whose decoder
    refuses trailing bytes is a payload codec. *)
Lemma pc_payload (e : ProtocolError) :
  PayloadCodec wf enc (λ s, let? '(a, r) := dec s in check bool_decide (r = []) else e in Ok a).
Proof.
  split.
  - intros s Hs [H|([a r] & H & H')]%rbind_Panic.
    + exact (sd_total (StreamDecoder := pc_stream) s Hs H).
    + by case_bool_decide.
  - intros a bs Ha Hb. pose proof (pc_roundtrip a bs [] Ha Hb) as H.
    rewrite app_nil_r in H. by rewrite H.
  - intros s a Hs ([a' r] & H & H')%rbind_Ok. case_bool_decide; simplify_eq.
    apply pc_canonical in H as (Ha & bs & Hb & ->); [|done]. by rewrite app_nil_r.
Qed.

(** The decoder accepts exactly the encodings, in front of any rest. *)
Lemma pc_iff s a r :
  bytes_ok s →
  dec s = Ok (a, r) ↔ wf a ∧ ∃ bs, enc a = Ok bs ∧ s = bs ++ r.
Proof.
  intros Hs. split; [by apply pc_canonical|].
  intros (Ha & bs & Hb & ->). exact (pc_roundtrip a bs r Ha Hb).
Qed.
End Codec.

Section Payload.
Context {E A} {wf : A → Prop} {enc : A → result E Bytes} {dec : Bytes → result E A}.
Context `{!PayloadCodec wf enc dec}.

(** The decoder accepts exactly the encodings. *)
Lemma pl_iff s a : bytes_ok s → dec s = Ok a ↔ wf a ∧ enc a = Ok s.
Proof.
  intros Hs. split; [by apply pl_canonical|].
  intros [Ha Hb]. exact (pl_roundtrip a s Ha Hb).
Qed.

(** Two well-formed byte strings that decode to the same value are equal. *)
Lemma pl_unique s t a :
  bytes_ok s → bytes_ok t → dec s = Ok a → dec t = Ok a → s = t.
Proof.
  intros Hs Ht [_ H1]%pl_canonical [_ H2]%pl_canonical; congruence.
Qed.
End Payload.
