(* ===== verification/Varint.v ===== *)
(** * Varint: QUIC-style variable-length integers (crates/uk-proto/src/varint.rs)

    The decoder is stricter than RFC 9000: an over-wide spelling is rejected,
    so every value has one wire form.  The [PrefixCodec] instance at the end is
    what every other codec of the protocol builds on. *)

From S2P Require Import Prelude Wire.

Module Varint.

(* @src crates/uk-proto/src/varint.rs 7-8 MAX_VARINT *)
Definition MAX_VARINT : Z := Z.shiftl 1 62 - 1.

(* @src crates/uk-proto/src/varint.rs 10-19 encoded_len *)
Definition encoded_len (value : Z) : ProtocolResult Z :=
  if (0 <=? value) && (value <=? 63) then Ok 1
  else if (64 <=? value) && (value <=? 16383) then Ok 2
  else if (16384 <=? value) && (value <=? 1073741823) then Ok 4
  else if (1073741824 <=? value) && (value <=? MAX_VARINT) then Ok 8
  else Err InvalidVarint.

(* @src crates/uk-proto/src/varint.rs 21-31 encode *)
Definition encode (value : Z) : ProtocolResult Bytes :=
  let? len := encoded_len value in
  match len with
  | 1 => Ok (be_encode 1 (truncate 8 value))
  | 2 => Ok (be_encode 2 (Z.lor (truncate 16 value) 0x4000))
  | 4 => Ok (be_encode 4 (Z.lor (truncate 32 value) 0x80000000))
  | 8 => Ok (be_encode 8 (Z.lor value 0xc000000000000000))
  | _ => Panic
  end.

(* @src crates/uk-proto/src/varint.rs 33-62 decode *)
Definition decode (src : Bytes) : ProtocolResult (Z * Bytes) :=
  match src with
  | [] => Err Truncated
  | first :: _ =>
    let len := Z.shiftl 1 (Z.shiftr first 6) in
    if zlen src <? len then Err Truncated else
    let? '(value, rest) :=
      match len with
      | 1 => let? '(v, r) := get_uint 1 src in Ok (Z.land v 0x3f, r)
      | 2 => let? '(v, r) := get_uint 2 src in Ok (Z.land v 0x3fff, r)
      | 4 => let? '(v, r) := get_uint 4 src in Ok (Z.land v 0x3fffffff, r)
      | 8 => let? '(v, r) := get_uint 8 src in Ok (Z.land v 0x3fffffffffffffff, r)
      | _ => Panic
      end in
    let? want := encoded_len value in
    if want =? len then Ok (value, rest) else Err InvalidVarint
  end.

(** The four wire classes: prefix bits, and width in bytes. *)
Definition wire_class (p : Z) (n : nat) : Prop :=
  (p = 0 ∧ n = 1%nat) ∨ (p = 1 ∧ n = 2%nat) ∨ (p = 2 ∧ n = 4%nat) ∨ (p = 3 ∧ n = 8%nat).

Definition payload_bound (n : nat) : Z := 2 ^ (8 * Z.of_nat n - 2).

(** The wire form of payload [v] in class [(p, n)]. *)
Definition wire_form (p : Z) (n : nat) (v : Z) : Bytes :=
  be_encode n (v + p * payload_bound n).

Ltac eval_bounds :=
  change (payload_bound 1) with 64 in *;
  change (payload_bound 2) with 16384 in *;
  change (payload_bound 4) with 1073741824 in *;
  change (payload_bound 8) with 4611686018427387904 in *;
  change (256 ^ Z.of_nat 1) with 256 in *;
  change (256 ^ Z.of_nat 2) with 65536 in *;
  change (256 ^ Z.of_nat 4) with 4294967296 in *;
  change (256 ^ Z.of_nat 8) with 18446744073709551616 in *;
  change (Z.of_nat 1) with 1 in *; change (Z.of_nat 2) with 2 in *;
  change (Z.of_nat 4) with 4 in *; change (Z.of_nat 8) with 8 in *.
Ltac split_class H :=
  destruct H as [[-> ->]|[[-> ->]|[[-> ->]|[-> ->]]]]; eval_bounds.

Lemma payload_bound_pos p n : wire_class p n → 0 < payload_bound n.
Proof. intros H. split_class H; lia. Qed.

Lemma encoded_len_Ok v n :
  encoded_len v = Ok n →
  0 ≤ v ∧ ∃ p k, wire_class p k ∧ n = Z.of_nat k ∧ v < payload_bound k.
Proof.
  unfold encoded_len, wire_class. change MAX_VARINT with 4611686018427387903.
  intros H. res_inv; bool_to_prop; (split; [lia|]).
  - exists 0, 1%nat. eval_bounds. naive_solver lia.
  - exists 1, 2%nat. eval_bounds. naive_solver lia.
  - exists 2, 4%nat. eval_bounds. naive_solver lia.
  - exists 3, 8%nat. eval_bounds. naive_solver lia.
Qed.

Lemma encoded_len_total v : 0 ≤ v ≤ MAX_VARINT → ∃ n, encoded_len v = Ok n ∧ 1 ≤ n ≤ 8.
Proof.
  unfold encoded_len. change MAX_VARINT with 4611686018427387903. intros H.
  case_match; [by exists 1|]. case_match; [by exists 2|].
  case_match; [by exists 4|]. case_match; [by exists 8|].
  rewrite andb_false_iff, !Z.leb_gt in *. lia.
Qed.

Lemma encoded_len_Err v e : encoded_len v = Err e → e = InvalidVarint.
Proof. unfold encoded_len. intros ?. by res_inv. Qed.

Lemma encoded_len_Panic v : encoded_len v ≠ Panic.
Proof. unfold encoded_len. intros ?. by res_inv. Qed.

Lemma length_wire_form p n v : length (wire_form p n v) = n.
Proof. apply length_be_encode. Qed.

(** [encode] writes the wire form of the shortest class. *)
Lemma encode_wire_form v bs :
  encode v = Ok bs ↔
  0 ≤ v ∧ ∃ p n, wire_class p n ∧ encoded_len v = Ok (Z.of_nat n) ∧
    v < payload_bound n ∧ bs = wire_form p n v.
Proof.
  assert (∀ p n, wire_class p n → 0 ≤ v < payload_bound n →
    match Z.of_nat n with
    | 1 => Ok (be_encode 1 (truncate 8 v))
    | 2 => Ok (be_encode 2 (Z.lor (truncate 16 v) 0x4000))
    | 4 => Ok (be_encode 4 (Z.lor (truncate 32 v) 0x80000000))
    | 8 => Ok (be_encode 8 (Z.lor v 0xc000000000000000))
    | _ => Panic
    end = Ok (wire_form p n v) :> ProtocolResult Bytes) as Hform.
  { intros p n Hc Hv. unfold wire_form, truncate.
    split_class Hc; lazy iota; f_equal; f_equal.
    - rewrite Z.mod_small by lia. lia.
    - rewrite Z.mod_small by lia. by apply (lor_add_shift v 1 14).
    - rewrite Z.mod_small by lia. by apply (lor_add_shift v 2 30).
    - by apply (lor_add_shift v 3 62). }
  unfold encode. split.
  - intros (l & Hl & H)%rbind_Ok.
    destruct (encoded_len_Ok _ _ Hl) as (H0 & p & n & Hc & -> & Hb).
    rewrite (Hform p n) in H by done. simplify_eq. split; [done|]. by exists p, n.
  - intros (H0 & p & n & Hc & Hl & Hb & ->). rewrite Hl. simpl. by apply Hform.
Qed.

(** The first byte of a wire form announces its length. *)
Lemma wire_form_head p n v :
  wire_class p n → 0 ≤ v < payload_bound n →
  ∃ b tl, wire_form p n v = b :: tl ∧ Z.shiftl 1 (Z.shiftr b 6) = Z.of_nat n.
Proof.
  intros Hc Hv. unfold wire_form. set (z := v + p * payload_bound n).
  assert (∃ b tl, be_encode n z = b :: tl ∧ Z.shiftr b 6 = p) as (b & tl & Hb & Hp).
  { destruct n as [|n]; [destruct Hc as [?|[?|[?|?]]]; lia|].
    eexists _, _. split; [apply be_encode_S|].
    rewrite !Z.shiftr_div_pow2 by lia. subst z.
    destruct Hc as [[-> Hn]|[[-> Hn]|[[-> Hn]|[-> Hn]]]]; rewrite Hn in *;
      simplify_eq; eval_bounds; Z.div_mod_to_equations; lia. }
  exists b, tl. split; [done|]. rewrite Hp. by split_class Hc.
Qed.

(** What the decoder does on a complete wire form, minimal or not. *)
Lemma decode_wire_form p n v r :
  wire_class p n → 0 ≤ v < payload_bound n →
  decode (wire_form p n v ++ r) =
    let? want := encoded_len v in
    if want =? Z.of_nat n then Ok (v, r) else Err InvalidVarint.
Proof.
  intros Hc Hv. destruct (wire_form_head p n v Hc Hv) as (b & tl & Hb & Hp).
  unfold wire_form in *.
  assert (0 ≤ v + p * payload_bound n < 256 ^ Z.of_nat n) as Hz.
  { split_class Hc; lia. }
  set (z := v + p * payload_bound n) in *.
  pose proof (length_be_encode n z) as Hlen.
  unfold decode. rewrite Hb. simpl app. lazy beta iota zeta. rewrite Hp.
  rewrite !(app_comm_cons tl r b), <- Hb.
  rewrite length_app, Hlen.
  destruct (_ <? _) eqn:?; [bool_to_prop; lia|].
  assert (Z.land z (payload_bound n - 1) = v) as Hland.
  { pose proof (payload_bound_pos _ _ Hc). unfold payload_bound in *.
    rewrite land_low_mask by (split_class Hc; lia).
    unfold z. rewrite Z.mod_add by lia. by apply Z.mod_small. }
  assert (Hget : ∀ k, k = n → get_uint (E := ProtocolError) k (be_encode n z ++ r) = Ok (z, r)).
  { intros k ->. by apply get_uint_encode. }
  split_class Hc; lazy iota; rewrite Hget by done; simpl rbind;
    match type of Hland with Z.land _ ?m = _ =>
      let m' := eval vm_compute in m in change m with m' in Hland end;
    by rewrite Hland.
Qed.

Lemma announced_class b :
  is_u8 b → ∃ n, wire_class (Z.shiftr b 6) n ∧ Z.shiftl 1 (Z.shiftr b 6) = Z.of_nat n.
Proof.
  intros Hb. unfold in_width in Hb.
  assert (0 ≤ Z.shiftr b 6 < 4) as Hr.
  { rewrite Z.shiftr_div_pow2 by lia. Z.div_mod_to_equations. lia. }
  unfold wire_class. generalize dependent (Z.shiftr b 6). intros q Hq.
  assert (q = 0 ∨ q = 1 ∨ q = 2 ∨ q = 3) as [->|[->|[->| ->]]] by lia;
    eexists; (split; [naive_solver|reflexivity]).
Qed.

Lemma announced_length b s :
  bytes_ok (b :: s) →
  let n := Z.to_nat (Z.shiftl 1 (Z.shiftr b 6)) in (n = 1 ∨ n = 2 ∨ n = 4 ∨ n = 8)%nat.
Proof.
  intros [Hb _]%Forall_cons n. destruct (announced_class b Hb) as (k & Hc & Hk).
  unfold n. rewrite Hk, Nat2Z.id. unfold wire_class in Hc. lia.
Qed.

(** A stream is either too short for its first byte or starts with a wire form. *)
Lemma decode_cases s :
  bytes_ok s →
  decode s = Err Truncated ∨
  ∃ p n v r, wire_class p n ∧ 0 ≤ v < payload_bound n ∧ s = wire_form p n v ++ r.
Proof.
  intros Hs. destruct s as [|b s]; [by left|].
  pose proof Hs as [Hb _]%Forall_cons.
  destruct (zlen (b :: s) <? Z.shiftl 1 (Z.shiftr b 6)) eqn:Hlen.
  { left. unfold decode. by rewrite Hlen. }
  right. bool_to_prop.
  destruct (announced_class b Hb) as (n & Hc & Hn).
  rewrite Hn in Hlen.
  pose proof (take_drop n (b :: s)) as Hsplit.
  set (a := take n (b :: s)) in *. set (r := drop n (b :: s)) in *.
  assert (length a = n) as Ha. { unfold a. rewrite length_take. lia. }
  assert (bytes_ok a) as Hoka by (by apply Forall_take).
  pose proof (be_decode_bound a Hoka) as Hbd. rewrite Ha in Hbd.
  exists (Z.shiftr b 6), n, (be_decode a mod payload_bound n), r.
  split; [done|]. split.
  { apply Z.mod_pos_bound. by eapply payload_bound_pos. }
  rewrite <- Hsplit. f_equal. unfold wire_form.
  rewrite <- (be_encode_decode a Hoka) at 1. rewrite Ha. f_equal.
  rewrite (Z.div_mod (be_decode a) (payload_bound n)) at 1
    by (pose proof (payload_bound_pos _ _ Hc); lia).
  rewrite Z.mul_comm, Z.add_comm. f_equal. f_equal.
  assert (∃ tl, a = b :: tl ∧ S (length tl) = n) as (tl & Htl & Hltl).
  { unfold a in *. destruct n; [destruct Hc as [?|[?|[?|?]]]; lia|]. simpl. eexists. split; [done|].
    simpl in Ha. lia. }
  rewrite Htl, be_decode_cons.
  assert (bytes_ok tl) as Hoktl by (rewrite Htl in Hoka; by apply Forall_cons in Hoka as [_ ?]).
  pose proof (be_decode_bound tl Hoktl) as Hbtl.
  rewrite Z.shiftr_div_pow2 by lia. change (2 ^ 6) with 64.
  assert (length tl = pred n) as Hz by lia. rewrite Hz in *.
  clearbody a r. clear -Hc Hbtl. unfold wire_class in Hc.
  destruct Hc as [[_ ->]|[[_ ->]|[[_ ->]|[_ ->]]]]; simpl pred in *; eval_bounds;
    change (256 ^ Z.of_nat 0) with 1 in *; change (256 ^ Z.of_nat 3) with 16777216 in *;
    change (256 ^ Z.of_nat 7) with 72057594037927936 in *;
    Z.div_mod_to_equations; lia.
Qed.

#[global] Instance varint_stream : StreamDecoder decode.
Proof.
  split.
  - intros s Hs. destruct (decode_cases s Hs) as [->|(p & n & v & r & Hc & Hv & ->)]; [done|].
    rewrite decode_wire_form by done. intros [H|(w & _ & H)]%rbind_Panic.
    + by apply encoded_len_Panic in H.
    + by case_match.
  - intros s a r H. unfold decode in H.
    res_inv; match goal with H : get_uint _ _ = Ok _ |- _ => apply get_uint_Ok in H as (? & ? & _) end;
      eauto.
  - intros s a r t H. unfold decode in *. destruct s as [|b s]; [done|]. simpl app.
    lazy beta iota zeta. rewrite !(app_comm_cons s t b), length_app, Nat2Z.inj_add.
    res_step; [done|]. bool_to_prop.
    rewrite (proj2 (Z.ltb_ge _ _)) by lia.
    apply rbind_Ok in H as ([v r'] & H & H'). apply rbind_Ok. exists (v, r' ++ t).
    split; [|apply rbind_Ok in H' as (w & Hw & H'); rewrite Hw; simpl; by res_inv].
    res_inv; match goal with H : get_uint _ _ = Ok _ |- _ =>
      by rewrite (app_comm_cons s t b), (get_uint_ext _ _ _ _ t H) end.
  - intros s e t H Hne. unfold decode in *. destruct s as [|b s]; [naive_solver|]. simpl app.
    lazy beta iota zeta. rewrite !(app_comm_cons s t b), length_app, Nat2Z.inj_add.
    res_step; [naive_solver|]. bool_to_prop.
    rewrite (proj2 (Z.ltb_ge _ _)) by lia.
    apply rbind_Err in H as [H|([v r'] & H & H')];
      [res_inv; by match goal with H : get_uint _ _ = Err _ |- _ => apply get_uint_Err in H end|].
    apply rbind_Err. right. exists (v, r' ++ t).
    split; [|apply rbind_Err in H' as [Hw|(w & Hw & H')]; rewrite Hw; simpl; by res_inv].
    res_inv; match goal with H : get_uint _ _ = Ok _ |- _ =>
      by rewrite (app_comm_cons s t b), (get_uint_ext _ _ _ _ t H) end.
Qed.

(** The unsigned 64-bit values a caller can hand to [encode]. *)
#[global] Instance varint_codec : PrefixCodec is_u64 encode decode.
Proof.
  split.
  - apply _.
  - intros v bs r _ (H0 & p & n & Hc & Hl & Hb & ->)%encode_wire_form.
    rewrite decode_wire_form by done. rewrite Hl. simpl. by rewrite Z.eqb_refl.
  - intros s v r Hs H.
    destruct (decode_cases s Hs) as [Ht|(p & n & v' & r' & Hc & Hv & ->)]; [congruence|].
    rewrite decode_wire_form in H by done. res_inv. bool_to_prop. subst.
    split.
    + unfold in_width. split_class Hc; lia.
    + exists (wire_form p n v). split; [|done]. apply encode_wire_form.
      split; [lia|]. exists p, n. naive_solver.
  - intros v bs _ (H0 & p & n & Hc & Hl & Hb & ->)%encode_wire_form. apply bytes_ok_be_encode.
Qed.

Lemma length_encode v bs : encode v = Ok bs → encoded_len v = Ok (zlen bs).
Proof.
  intros (_ & p & n & _ & Hl & _ & ->)%encode_wire_form. by rewrite length_wire_form.
Qed.

Lemma encode_Ok_bound v bs : encode v = Ok bs → 0 ≤ v ≤ MAX_VARINT.
Proof.
  intros (H0 & p & n & Hc & Hl & Hb & ->)%encode_wire_form.
  change MAX_VARINT with 4611686018427387903. split_class Hc; lia.
Qed.

Lemma encode_total v : 0 ≤ v ≤ MAX_VARINT → ∃ bs, encode v = Ok bs ∧ 1 ≤ zlen bs ≤ 8.
Proof.
  intros H. destruct (encoded_len_total v H) as (n & Hn & Hb).
  destruct (encoded_len_Ok _ _ Hn) as (H0 & p & k & Hc & -> & Hv).
  exists (wire_form p k v). rewrite length_wire_form. split; [|done].
  apply encode_wire_form. naive_solver.
Qed.

Lemma length_encode_bound v bs : encode v = Ok bs → 1 ≤ zlen bs ≤ 8.
Proof.
  intros H. destruct (encode_total v) as (bs' & H' & ?); [by eapply encode_Ok_bound|].
  rewrite H in H'. by simplify_eq.
Qed.

Lemma encode_Panic v : encode v ≠ Panic.
Proof.
  intros [H|(l & H & H')]%rbind_Panic; [by apply encoded_len_Panic in H|].
  destruct (encoded_len_Ok _ _ H) as (_ & p & k & Hc & -> & _). split_class Hc; done.
Qed.

Lemma decode_nonneg s v r : decode s = Ok (v, r) → 0 ≤ v ≤ MAX_VARINT.
Proof.
  unfold decode. destruct s; [done|]. intros H. res_step; [done|].
  apply rbind_Ok in H as ([v' r'] & _ & H). apply rbind_Ok in H as (w & Hw & H).
  apply encoded_len_Ok in Hw as (? & p & k & Hc & _ & Hb). res_inv.
  change MAX_VARINT with 4611686018427387903. split_class Hc; lia.
Qed.

Lemma encoded_len_small v : 0 ≤ v < 64 → encoded_len v = Ok 1.
Proof.
  intros H. unfold encoded_len. rewrite (proj2 (Z.leb_le 0 v)) by lia.
  by rewrite (proj2 (Z.leb_le v 63)) by lia.
Qed.

Lemma encoded_len_medium v : 64 ≤ v < 16384 → encoded_len v = Ok 2.
Proof.
  intros H. unfold encoded_len. rewrite (proj2 (Z.leb_le 0 v)), (proj2 (Z.leb_gt v 63)) by lia.
  simpl. rewrite (proj2 (Z.leb_le 64 v)) by lia. by rewrite (proj2 (Z.leb_le v 16383)) by lia.
Qed.

Lemma encode_Ok_u64 v bs : encode v = Ok bs → is_u64 v.
Proof.
  intros H%encode_Ok_bound. change MAX_VARINT with 4611686018427387903 in H.
  unfold in_width. lia.
Qed.

Lemma decode_shrinks s v r :
  bytes_ok s → decode s = Ok (v, r) → (length r < length s)%nat ∧ bytes_ok r.
Proof.
  intros Hs H. apply pc_canonical in H as (_ & bs & Hb & ->); [|done].
  apply length_encode_bound in Hb. apply Forall_app in Hs as [_ Hr].
  rewrite length_app. split; [lia|done].
Qed.

(** The verdict on a stream is the verdict on the bytes its first byte announces. *)
Lemma decode_announced b s :
  bytes_ok (b :: s) →
  let n := Z.to_nat (Z.shiftl 1 (Z.shiftr b 6)) in
  (n = 1 ∨ n = 2 ∨ n = 4 ∨ n = 8)%nat ∧
  ((length (b :: s) < n)%nat → decode (b :: s) = Err Truncated) ∧
  ((n ≤ length (b :: s))%nat →
     (∃ v, decode (take n (b :: s)) = Ok (v, []) ∧ decode (b :: s) = Ok (v, drop n (b :: s))) ∨
     (decode (take n (b :: s)) = Err InvalidVarint ∧ decode (b :: s) = Err InvalidVarint)).
Proof.
  intros Hs n. pose proof (announced_length b s Hs) as Hn. fold n in Hn. split; [done|].
  destruct (decode_cases (b :: s) Hs) as [Ht|(p & k & v & r & Hc & Hv & Heq)].
  - split; [done|]. intros Hlen. exfalso. unfold decode in Ht.
    rewrite (proj2 (Z.ltb_ge _ _)) in Ht by (unfold n in *; lia).
    res_inv; match goal with
      | H : get_uint _ _ = Err _ |- _ => by apply get_uint_Err in H
      | H : encoded_len _ = Err _ |- _ => by apply encoded_len_Err in H
      end.
  - destruct (wire_form_head p k v Hc Hv) as (b' & tl & Hb & Hk).
    assert (b' = b) as -> by (rewrite Hb in Heq; by simplify_eq/=).
    assert (n = k) as Hnk by (unfold n; rewrite Hk; lia). rewrite Hnk, Heq.
    pose proof (length_wire_form p k v) as Hl. split.
    + rewrite length_app. lia.
    + intros _. rewrite take_app_length', drop_app_length' by done.
      pose proof (decode_wire_form p k v [] Hc Hv) as Hd. rewrite app_nil_r in Hd.
      rewrite Hd, decode_wire_form by done.
      destruct (encoded_len v) as [w|e|] eqn:He; simpl.
      * destruct (w =? Z.of_nat k); [left; by exists v|by right].
      * apply encoded_len_Err in He as ->. by right.
      * by apply encoded_len_Panic in He.
Qed.

(** The varint decoder accepts a byte stream with value [v] and rest [r]
    exactly when [v] has an encoding and the stream is that encoding followed by
    [r]: encoding round-trips in front of any continuation, and no second
    (over-wide) spelling of a value is accepted. *)
Theorem varint_decode_iff_encode s v r :
  bytes_ok s →
  decode s = Ok (v, r) ↔ is_u64 v ∧ ∃ bs, encode v = Ok bs ∧ s = bs ++ r.
Proof. apply pc_iff. Qed.

(** Every value up to [MAX_VARINT] encodes, to the one, two, four or eight
    bytes [encoded_len] announces; any larger one is [InvalidVarint]; and
    decoding never panics on hostile bytes, whatever their number. *)
Theorem varint_encode_total v s :
  (0 ≤ v ≤ MAX_VARINT →
    ∃ bs, encode v = Ok bs ∧ encoded_len v = Ok (zlen bs) ∧ 1 ≤ zlen bs ≤ 8) ∧
  (MAX_VARINT < v → encode v = Err InvalidVarint) ∧
  (bytes_ok s → decode s ≠ Panic).
Proof.
  split_and!.
  - intros Hv. destruct (encode_total v Hv) as (bs & Hb & Hl).
    exists bs. split_and!; [done|by apply length_encode|lia..].
  - intros Hv. destruct (encode v) as [bs|e|] eqn:He.
    + apply encode_Ok_bound in He. lia.
    + f_equal. apply rbind_Err in He as [He|(l & Hl & He)]; [by eapply encoded_len_Err|].
      by res_inv.
    + by apply encode_Panic in He.
  - apply sd_total.
Qed.

#[global] Opaque encode decode encoded_len.
End Varint.
