(* ===== verification/FrameCodec.v ===== *)
(** * FrameCodec: frame types, headers and frames (crates/uk-proto/src/frame.rs)

    Encoding and decoding of the 1.0 frame header and of complete in-memory
    frames.  The header codec is a [PrefixCodec] for every frame limit; a
    complete frame is one as well. *)

From S2P Require Import Prelude Wire Varint.

Module Frame.
Section Frame.
Context {P : Platform}.

(* @src crates/uk-proto/src/frame.rs 7-8 VERSION *)
Definition VERSION : Z := 1.
(* @src crates/uk-proto/src/frame.rs 10-11 REQUIRED_FLAG_MASK *)
Definition REQUIRED_FLAG_MASK : Z := 0xff00.
(* @src crates/uk-proto/src/frame.rs 13-14 DEFAULT_MAX_FRAME_SIZE *)
Definition DEFAULT_MAX_FRAME_SIZE : Z := 65536.
(* @src crates/uk-proto/src/frame.rs 16-17 MAX_FRAME_PAYLOAD_SIZE *)
Definition MAX_FRAME_PAYLOAD_SIZE : Z := 16 * 1024 * 1024.

(* @src crates/uk-proto/src/frame.rs 19-24 FrameLimits *)
Record FrameLimits : Set := { max_frame_size : Z }.

(* @src crates/uk-proto/src/frame.rs 26-32 FrameLimits::default *)
Definition FrameLimits_default : FrameLimits := {| max_frame_size := DEFAULT_MAX_FRAME_SIZE |}.

(* @src crates/uk-proto/src/frame.rs 34-89 FrameType *)
Inductive FrameType : Set :=
  | AuthChallenge | AuthResponse | Settings | Ping | Pong
  | TcpOpen | TcpData | TcpClose
  | UdpOpen | UdpData | UdpClose
  | Error | PolicyDenied | ResourceLimit.

#[global] Instance FrameType_eq_dec : EqDecision FrameType.
Proof. solve_decision. Defined.

(** [frame_type as u8]. *)
(* @src crates/uk-proto/src/frame.rs 59-89 FrameType *)
Definition frame_type_u8 (t : FrameType) : Z :=
  match t with
  | AuthChallenge => 0x01 | AuthResponse => 0x02 | Settings => 0x03
  | Ping => 0x04 | Pong => 0x05
  | TcpOpen => 0x10 | TcpData => 0x11 | TcpClose => 0x12
  | UdpOpen => 0x20 | UdpData => 0x21 | UdpClose => 0x22
  | Error => 0x30 | PolicyDenied => 0x31 | ResourceLimit => 0x32
  end.

(* @src crates/uk-proto/src/frame.rs 91-114 FrameType::try_from *)
Definition frame_type_try_from (value : Z) : ProtocolResult FrameType :=
  match value with
  | 0x01 => Ok AuthChallenge
  | 0x02 => Ok AuthResponse
  | 0x03 => Ok Settings
  | 0x04 => Ok Ping
  | 0x05 => Ok Pong
  | 0x10 => Ok TcpOpen
  | 0x11 => Ok TcpData
  | 0x12 => Ok TcpClose
  | 0x20 => Ok UdpOpen
  | 0x21 => Ok UdpData
  | 0x22 => Ok UdpClose
  | 0x30 => Ok Error
  | 0x31 => Ok PolicyDenied
  | 0x32 => Ok ResourceLimit
  | other => Err (UnknownFrameType other)
  end.

(* @src crates/uk-proto/src/frame.rs 116-129 FrameHeader *)
Record FrameHeader : Set := {
  version : Z;
  frame_type : FrameType;
  flags : Z;
  id : Z;
  length : Z
}.

#[global] Instance FrameHeader_eq_dec : EqDecision FrameHeader.
Proof. solve_decision. Defined.

(* @src crates/uk-proto/src/frame.rs 132-134 MAX_ENCODED_LEN *)
Definition MAX_ENCODED_LEN : Z := 1 + 1 + 2 + 8 + 8.

(* @src crates/uk-proto/src/frame.rs 263-270 validate_flags *)
Definition validate_flags (flags : Z) : ProtocolResult unit :=
  let required := Z.land flags REQUIRED_FLAG_MASK in
  if required =? 0 then Ok tt else Err (UnsupportedFlag required).

(* @src crates/uk-proto/src/frame.rs 136-148 FrameHeader::new *)
Definition header_new (ft : FrameType) (fl i len : Z) : ProtocolResult FrameHeader :=
  let? _ := validate_flags fl in
  let? _ := Varint.encoded_len i in
  let? _ := Varint.encoded_len len in
  Ok {| version := VERSION; frame_type := ft; flags := fl; id := i; length := len |}.

(* @src crates/uk-proto/src/frame.rs 150-162 FrameHeader::encode *)
Definition header_encode (h : FrameHeader) : ProtocolResult Bytes :=
  if negb (version h =? VERSION) then Err (UnsupportedVersion (version h)) else
  let? _ := validate_flags (flags h) in
  let? i := Varint.encode (id h) in
  let? l := Varint.encode (length h) in
  Ok (be_encode 1 (version h) ++ be_encode 1 (frame_type_u8 (frame_type h))
        ++ be_encode 2 (flags h) ++ i ++ l).

(* @src crates/uk-proto/src/frame.rs 164-194 FrameHeader::decode *)
Definition header_decode (limits : FrameLimits) (src : Bytes)
    : ProtocolResult (FrameHeader * Bytes) :=
  if zlen src <? 4 then Err Truncated else
  let? '(v, src) := get_uint 1 src in
  if negb (v =? VERSION) then Err (UnsupportedVersion v) else
  let? '(t, src) := get_uint 1 src in
  let? ft := frame_type_try_from t in
  let? '(fl, src) := get_uint 2 src in
  let? _ := validate_flags fl in
  let? '(i, src) := Varint.decode src in
  let? '(len, src) := Varint.decode src in
  if max_frame_size limits <? len
  then Err (OversizedFrame len (max_frame_size limits))
  else Ok ({| version := v; frame_type := ft; flags := fl; id := i; length := len |}, src).

(* @src crates/uk-proto/src/frame.rs 197-204 Frame *)
Record Frame : Set := { header : FrameHeader; payload : Bytes }.

#[global] Instance Frame_eq_dec : EqDecision Frame.
Proof. solve_decision. Defined.

(* @src crates/uk-proto/src/frame.rs 207-212 Frame::new *)
Definition frame_new (ft : FrameType) (fl i : Z) (p : Bytes) : ProtocolResult Frame :=
  let? h := header_new ft fl i (zlen p) in
  Ok {| header := h; payload := p |}.

(* @src crates/uk-proto/src/frame.rs 214-226 Frame::encode_into *)
Definition frame_encode_into (f : Frame) : ProtocolResult Bytes :=
  if negb (length (header f) =? zlen (payload f))
  then Err (InvalidFrame "frame header length does not match payload length") else
  let? h := header_encode (header f) in
  Ok (h ++ payload f).

(* @src crates/uk-proto/src/frame.rs 228-234 Frame::encode *)
Definition frame_encode (f : Frame) : ProtocolResult Bytes :=
  let? out := frame_encode_into f in Ok ([] ++ out).

(* @src crates/uk-proto/src/frame.rs 236-245 Frame::decode *)
Definition frame_decode (limits : FrameLimits) (src : Bytes)
    : ProtocolResult (Frame * Bytes) :=
  let? '(h, src) := header_decode limits src in
  let? len := ok_or InvalidVarint (usize_try_from (length h)) in
  if zlen src <? len then Err Truncated else
  let? '(p, src) := buf_split len src in
  Ok ({| header := h; payload := p |}, src).

(* @src crates/uk-proto/src/frame.rs 249-261 validate_connection_frame *)
Definition validate_connection_frame (f : Frame) (expected : FrameType)
    : ProtocolResult unit :=
  if negb (bool_decide (frame_type (header f) = expected))
  then Err (InvalidFrame "unexpected connection frame type") else
  if negb (id (header f) =? 0)
  then Err (InvalidFrame "connection frame id must be zero")
  else Ok tt.

(** ** Lemmas *)

Lemma frame_type_roundtrip t : frame_type_try_from (frame_type_u8 t) = Ok t.
Proof. by destruct t. Qed.

Lemma frame_type_try_from_Ok v t : frame_type_try_from v = Ok t → v = frame_type_u8 t.
Proof. unfold frame_type_try_from. intros H. by res_inv. Qed.

Lemma frame_type_try_from_Err v e :
  frame_type_try_from v = Err e → e = UnknownFrameType v.
Proof. unfold frame_type_try_from. intros H. by res_inv. Qed.

Lemma frame_type_try_from_Panic v : frame_type_try_from v ≠ Panic.
Proof. unfold frame_type_try_from. intros H. by res_inv. Qed.

Lemma frame_type_u8_ok t : is_u8 (frame_type_u8 t).
Proof. by destruct t. Qed.

Lemma validate_flags_Ok fl u : validate_flags fl = Ok u ↔ Z.land fl REQUIRED_FLAG_MASK = 0.
Proof. unfold validate_flags. destruct u. destruct (_ =? _) eqn:?; bool_to_prop; naive_solver. Qed.

Lemma validate_flags_Err fl e :
  validate_flags fl = Err e → ∃ r, e = UnsupportedFlag r ∧ r ≠ 0.
Proof. unfold validate_flags. intros ?. res_inv. bool_to_prop. eauto. Qed.

Lemma validate_flags_Panic fl : validate_flags fl ≠ Panic.
Proof. unfold validate_flags. intros ?. by res_inv. Qed.

(** The part of the header after its four fixed bytes. *)
Definition header_tail (limits : FrameLimits) (h4 : Bytes) : decoder FrameHeader :=
  match h4 with
  | [v; t; f1; f2] => λ src,
    if negb (v =? VERSION) then Err (UnsupportedVersion v) else
    let? ft := frame_type_try_from t in
    let? _ := validate_flags (f1 * 256 + f2) in
    let? '(i, src) := Varint.decode src in
    let? '(len, src) := Varint.decode src in
    if max_frame_size limits <? len
    then Err (OversizedFrame len (max_frame_size limits))
    else Ok ({| version := v; frame_type := ft; flags := f1 * 256 + f2;
                id := i; length := len |}, src)
  | _ => λ _, Err InvalidVarint
  end.

Lemma header_decode_tail limits src :
  header_decode limits src =
    let? '(h4, r) := (if zlen src <? 4 then Err Truncated else buf_split 4 src) in
    header_tail limits h4 r.
Proof.
  unfold header_decode. destruct (_ <? _) eqn:Hlen; [done|]. bool_to_prop.
  destruct src as [|v [|t [|f1 [|f2 r]]]]; simpl in Hlen; try lia.
  rewrite (buf_split_app 4 [v; t; f1; f2] r) by done.
  rewrite get_u8_cons. simpl. destruct (negb _); [done|].
  rewrite get_u8_cons. simpl. destruct (frame_type_try_from t); simpl; [|done..].
  by rewrite get_u16_cons.
Qed.

Lemma header_tail_stream limits h4 : StreamDecoder (header_tail limits h4).
Proof.
  destruct h4 as [|v [|t [|f1 [|f2 [|]]]]]; try by apply sd_fail.
  simpl. apply sd_check; [done|].
  destruct (frame_type_try_from t) as [ft|e|] eqn:Hft; simpl;
    [|apply frame_type_try_from_Err in Hft as ->; by apply sd_fail
     |by apply frame_type_try_from_Panic in Hft].
  destruct (validate_flags _) as [u|e|] eqn:Hfl; simpl;
    [|apply validate_flags_Err in Hfl as (? & -> & _); by apply sd_fail
     |by apply validate_flags_Panic in Hfl].
  apply sd_bind; [apply _|]. intros i. apply sd_bind; [apply _|]. intros len.
  apply sd_check; [done|]. apply sd_ret.
Qed.

#[global] Instance header_stream limits : StreamDecoder (header_decode limits).
Proof.
  eapply sd_ext; [intros s; symmetry; apply header_decode_tail|].
  apply sd_bind; [by apply sd_split|]. apply header_tail_stream.
Qed.

Definition header_wf (limits : FrameLimits) (h : FrameHeader) : Prop :=
  is_u8 (version h) ∧ is_u16 (flags h) ∧ is_u64 (id h) ∧ is_u64 (length h) ∧
  length h ≤ max_frame_size limits.

Lemma header_encode_Ok h bs :
  header_encode h = Ok bs ↔
  version h = VERSION ∧ Z.land (flags h) REQUIRED_FLAG_MASK = 0 ∧
  ∃ i l, Varint.encode (id h) = Ok i ∧ Varint.encode (length h) = Ok l ∧
    bs = [VERSION; frame_type_u8 (frame_type h)] ++ be_encode 2 (flags h) ++ i ++ l.
Proof.
  unfold header_encode. split.
  - intros H. res_inv. bool_to_prop.
    match goal with H : validate_flags _ = Ok _ |- _ => apply validate_flags_Ok in H end.
    split_and!; [done..|]. eexists _, _. split_and!; [done..|].
    replace (version h) with VERSION by done.
    by rewrite !be_encode_1 by (done || apply frame_type_u8_ok).
  - intros (Hv & Hf & i & l & Hi & Hl & ->). rewrite Hv. simpl.
    rewrite (proj2 (validate_flags_Ok _ tt)) by done. rewrite Hi, Hl. simpl.
    by rewrite !be_encode_1 by (done || apply frame_type_u8_ok).
Qed.

Lemma header_encode_Panic h : header_encode h ≠ Panic.
Proof.
  unfold header_encode. intros H. res_inv;
    first [by eapply validate_flags_Panic|by eapply Varint.encode_Panic].
Qed.

#[global] Instance header_codec limits :
  PrefixCodec (header_wf limits) header_encode (header_decode limits).
Proof.
  split.
  - apply _.
  - intros h bs r (Hv & Hfw & Hi & Hl & Hlim) (Hver & Hf & i & l & Ei & El & ->)%header_encode_Ok.
    rewrite header_decode_tail.
    destruct (be_encode 2 (flags h)) as [|f1 [|f2 [|]]] eqn:Hfl;
      pose proof (length_be_encode 2 (flags h)) as Hlen; rewrite Hfl in Hlen; try done.
    assert (f1 * 256 + f2 = flags h) as Hfv.
    { rewrite <- (be_decode_encode_small 2 (flags h)), Hfl by apply Hfw.
      symmetry. apply be_decode_2. }
    simpl app. rewrite <- (app_assoc i l r).
    set (rest := i ++ l ++ r).
    change ([VERSION; frame_type_u8 (frame_type h)] ++ ?x) with
      (VERSION :: frame_type_u8 (frame_type h) :: x).
    rewrite (proj2 (Z.ltb_ge _ _)) by (rewrite !length_cons; lia).
    rewrite (buf_split_app 4 [VERSION; frame_type_u8 (frame_type h); f1; f2] rest) by done.
    simpl. rewrite frame_type_roundtrip. simpl. rewrite Hfv.
    rewrite (proj2 (validate_flags_Ok _ tt)) by done. simpl. unfold rest.
    rewrite (pc_roundtrip (id h) i (l ++ r) Hi Ei). simpl.
    rewrite (pc_roundtrip (length h) l r Hl El). simpl.
    rewrite (proj2 (Z.ltb_ge _ _)) by done. by destruct h; simpl in *; subst.
  - intros s h r Hs H. rewrite header_decode_tail in H.
    apply rbind_Ok in H as ([h4 r4] & H4 & H). destruct (_ <? _); [done|].
    apply buf_split_Ok in H4 as [-> Hlen]; [|done].
    apply Forall_app in Hs as [Hs4 Hr4].
    destruct h4 as [|v [|t [|f1 [|f2 [|]]]]]; try done. simpl in H.
    rewrite !Forall_cons in Hs4. destruct Hs4 as (Hv & Ht & Hf1 & Hf2 & _).
    destruct (negb _) eqn:Hver; [done|]. bool_to_prop.
    apply rbind_Ok in H as (ft & ->%frame_type_try_from_Ok & H).
    apply rbind_Ok in H as (u & Hfl%validate_flags_Ok & H).
    apply rbind_Ok in H as ([i r1] & Hi & H). apply rbind_Ok in H as ([l r2] & Hl & H).
    destruct (_ <? _) eqn:Hlim; simplify_eq. bool_to_prop.
    apply (pc_canonical (wf := is_u64)) in Hi as (Hwi & bi & Ei & ->); [|done].
    apply Forall_app in Hr4 as [_ Hr1].
    apply (pc_canonical (wf := is_u64)) in Hl as (Hwl & bl & El & ->); [|done].
    split.
    { unfold header_wf, in_width in *. simpl. naive_solver lia. }
    eexists. rewrite header_encode_Ok. simpl. split_and!; [done|done| |].
    + by exists bi, bl.
    + rewrite be_encode_2 by done. simpl. by rewrite <- ?app_assoc.
  - intros h bs (Hv & Hfw & Hi & Hl & Hlim) (Hver & Hf & i & l & Ei & El & ->)%header_encode_Ok.
    rewrite !Forall_app. split_and!; [|apply bytes_ok_be_encode|..].
    + repeat constructor; [done|apply frame_type_u8_ok..].
    + exact (pc_bytes (id h) i Hi Ei).
    + exact (pc_bytes (length h) l Hl El).
Qed.
Lemma length_header_encode h bs : header_encode h = Ok bs → 6 ≤ zlen bs ≤ MAX_ENCODED_LEN.
Proof.
  intros (_ & _ & i & l & Ei & El & ->)%header_encode_Ok. unfold MAX_ENCODED_LEN.
  rewrite !length_app, length_be_encode. simpl.
  apply Varint.length_encode_bound in Ei, El. lia.
Qed.

(** ** Complete frames *)

Definition frame_wf (limits : FrameLimits) (f : Frame) : Prop :=
  header_wf limits (header f) ∧ bytes_ok (payload f) ∧ zlen (payload f) ≤ USIZE_MAX.

Lemma frame_encode_into_Ok f bs :
  frame_encode_into f = Ok bs ↔
  length (header f) = zlen (payload f) ∧
  ∃ hb, header_encode (header f) = Ok hb ∧ bs = hb ++ payload f.
Proof.
  unfold frame_encode_into. destruct (negb _) eqn:?; bool_to_prop.
  - naive_solver.
  - rewrite rbind_Ok. naive_solver.
Qed.

Lemma frame_encode_eq f : frame_encode f = frame_encode_into f.
Proof. unfold frame_encode. by destruct (frame_encode_into f). Qed.

Lemma frame_decode_stream_form limits src :
  frame_decode limits src =
    let? '(h, r) := header_decode limits src in
    (if USIZE_MAX <? length h then Err InvalidVarint else
     let? '(p, r) := (if zlen r <? length h then Err Truncated else buf_split (length h) r) in
     Ok ({| header := h; payload := p |}, r)).
Proof.
  unfold frame_decode. destruct (header_decode limits src) as [[h r]|?|]; simpl; [|done..].
  unfold usize_try_from. case_decide; destruct (USIZE_MAX <? _) eqn:?; bool_to_prop; try lia;
    simpl; [|done]. by destruct (zlen r <? length h).
Qed.

Lemma header_decode_bounds limits s h r :
  bytes_ok s → header_decode limits s = Ok (h, r) →
  0 ≤ length h ≤ max_frame_size limits ∧ 0 ≤ id h ≤ Varint.MAX_VARINT ∧
  version h = VERSION ∧ bytes_ok r.
Proof.
  intros Hs H. pose proof H as [p Hp]%sd_suffix. subst s.
  pose proof Hs as [_ Hr]%Forall_app.
  apply pc_canonical in H as ((_ & _ & _ & Hl & Hlim) & bs & Hb & _); [|done].
  apply header_encode_Ok in Hb as (? & _ & i & l & Hi%Varint.encode_Ok_bound & _).
  unfold in_width in *. naive_solver lia.
Qed.

#[global] Instance frame_stream limits : StreamDecoder (frame_decode limits).
Proof.
  eapply sd_ext; [intros s; symmetry; apply frame_decode_stream_form|].
  apply sd_bind; [apply _|]. intros h. apply sd_check; [done|].
  apply sd_bind; [apply sd_split|]. intros p. apply sd_ret.
Qed.

Lemma frame_decode_shrinks limits s f r :
  bytes_ok s → frame_decode limits s = Ok (f, r) → zlen r < zlen s.
Proof.
  intros Hs H. rewrite frame_decode_stream_form in H.
  apply rbind_Ok in H as ([h r1] & Hh & H). destruct (_ <? _); [done|].
  pose proof (header_decode_bounds _ _ _ _ Hs Hh) as ((Hl0 & _) & _ & _ & _).
  apply pc_canonical in Hh as (_ & hb & Hb & ->); [|done]. apply length_header_encode in Hb.
  apply rbind_Ok in H as ([p r2] & H & ?). destruct (_ <? _); [done|]. simplify_eq.
  apply buf_split_Ok in H as [-> _]; [|done]. rewrite !length_app. lia.
Qed.

#[global] Instance frame_codec limits :
  PrefixCodec (frame_wf limits) frame_encode (frame_decode limits).
Proof.
  split.
  - apply _.
  - intros f bs r (Hh & Hp & Hu). rewrite frame_encode_eq.
    intros (Hl & hb & Hb & ->)%frame_encode_into_Ok. rewrite <- app_assoc.
    rewrite frame_decode_stream_form, (pc_roundtrip (header f) hb _ Hh Hb). simpl.
    rewrite Hl. rewrite (proj2 (Z.ltb_ge _ _)) by done.
    rewrite (proj2 (Z.ltb_ge _ _)) by (rewrite length_app; lia).
    rewrite buf_split_app by done. by destruct f.
  - intros s f r Hs H. rewrite frame_decode_stream_form in H.
    apply rbind_Ok in H as ([h r1] & Hh & H).
    destruct (_ <? _) eqn:Hu; [done|]. bool_to_prop.
    apply rbind_Ok in H as ([p r2] & Hsp & H). simplify_eq.
    destruct (_ <? _) eqn:Hlen; [done|]. bool_to_prop.
    pose proof (header_decode_bounds _ _ _ _ Hs Hh) as ((Hl0 & _) & _ & _ & Hr1).
    apply buf_split_Ok in Hsp as [-> Hl]; [|done].
    apply pc_canonical in Hh as (Hwf & hb & Hb & ->); [|done].
    apply Forall_app in Hr1 as [Hp _]. split; [by unfold frame_wf; simpl; rewrite Hl|].
    exists (hb ++ p). rewrite frame_encode_eq, frame_encode_into_Ok. simpl.
    split; [|by rewrite app_assoc]. naive_solver.
  - intros f bs (Hh & Hp & Hu). rewrite frame_encode_eq.
    intros (Hl & hb & Hb & ->)%frame_encode_into_Ok. apply Forall_app. split; [|done].
    exact (pc_bytes (header f) hb Hh Hb).
Qed.

(** C39: [Frame::decode] accepts exactly the encodings of well-formed frames
    within the limit, in front of any rest: every frame a peer encodes is read
    back as it was, and every frame accepted has one wire form. *)
Theorem frame_decode_iff_encode limits s f r :
  bytes_ok s →
  frame_decode limits s = Ok (f, r) ↔
  frame_wf limits f ∧ ∃ bs, frame_encode f = Ok bs ∧ s = bs ++ r.
Proof. apply pc_iff. Qed.

(** C40: On any bytes [Frame::decode] returns, without a panic; a frame it
    returns is version 1, has no required flag set, a payload of the announced
    length within the limit, and a header of at most [MAX_ENCODED_LEN] bytes
    was consumed for it. *)
Theorem frame_decode_safe limits s :
  bytes_ok s →
  match frame_decode limits s with
  | Ok (f, r) =>
    version (header f) = VERSION ∧ Z.land (flags (header f)) REQUIRED_FLAG_MASK = 0 ∧
    length (header f) = zlen (payload f) ∧ zlen (payload f) ≤ max_frame_size limits ∧
    6 ≤ zlen s - zlen (payload f) - zlen r ≤ MAX_ENCODED_LEN
  | Err _ => True
  | Panic => False
  end.
Proof.
  intros Hs. destruct (frame_decode limits s) as [[f r]|e|] eqn:Hd; [|done|exact (sd_total _ Hs Hd)].
  apply pc_canonical in Hd as ((Hh & _) & bs & Hb & ->); [|done].
  rewrite frame_encode_eq in Hb. apply frame_encode_into_Ok in Hb as (Hl & hb & Hb & ->).
  pose proof (length_header_encode _ _ Hb). apply header_encode_Ok in Hb as (? & ? & _).
  rewrite !length_app. destruct Hh as (_ & _ & _ & _ & Hh). split_and!; [done..|lia|lia|lia].
Qed.
End Frame.

Lemma frame_decode_iff_encode_witness :
  frame_decode (P := platform64) FrameLimits_default [1; 4; 0; 0; 0; 2; 7; 8; 9] =
    Ok ({| header := {| version := 1; frame_type := Ping; flags := 0; id := 0; length := 2 |};
           payload := [7; 8] |}, [9]).
Proof.
  apply (frame_decode_iff_encode (P := platform64)); [by rewrite !Forall_cons|]. split.
  - unfold frame_wf, header_wf. simpl. rewrite !Forall_cons. done.
  - exists [1; 4; 0; 0; 0; 2; 7; 8]. split; reflexivity.
Defined.

Lemma frame_decode_safe_witness :
  match frame_decode (P := platform64) FrameLimits_default [1; 4; 0; 0; 0; 2; 7; 8; 9] with
  | Ok (f, r) => version (header f) = VERSION ∧ length (header f) = zlen (payload f) ∧ r = [9]
  | _ => False
  end.
Proof.
  pose proof (frame_decode_safe (P := platform64) FrameLimits_default [1; 4; 0; 0; 0; 2; 7; 8; 9]
    ltac:(by rewrite !Forall_cons)) as H.
  vm_compute in H |- *. destruct H as (? & _ & ? & _). done.
Defined.

End Frame.
