(* ===== verification/RustStd.v ===== *)
(** * RustStd: the parts of the Rust standard library the sources use

    Strings are their UTF-8 bytes.  IP addresses are the integers of
    [u32::from] / [u128::from]; octets and segments are computed from them.
    The address parsers follow [core::net::parser]: a recursive-descent parser
    that backtracks on failure and must consume the whole input. *)

From S2P Require Import Prelude.

(** ASCII text as bytes. *)
Fixpoint bytes_of_string (s : string) : Bytes :=
  match s with
  | EmptyString => []
  | String c s' => Z.of_N (Ascii.N_of_ascii c) :: bytes_of_string s'
  end.

Definition in_range (lo hi b : Z) : bool := (lo <=? b) && (b <=? hi).

(** ** [u8::is_ascii_*] and case folding *)
Definition is_ascii_control (b : Z) : bool := in_range 0 0x1f b || (b =? 0x7f).
Definition is_ascii_digit (b : Z) : bool := in_range 0x30 0x39 b.
Definition is_ascii_upper (b : Z) : bool := in_range 0x41 0x5a b.
Definition is_ascii_lower (b : Z) : bool := in_range 0x61 0x7a b.
Definition is_ascii_alphanumeric (b : Z) : bool :=
  is_ascii_digit b || is_ascii_upper b || is_ascii_lower b.
Definition is_ascii_hexdigit (b : Z) : bool :=
  is_ascii_digit b || in_range 0x41 0x46 b || in_range 0x61 0x66 b.
Definition byte_to_ascii_lowercase (b : Z) : Z := if is_ascii_upper b then b + 32 else b.
Definition to_ascii_lowercase (s : Bytes) : Bytes := byte_to_ascii_lowercase <$> s.
Definition eq_ignore_ascii_case (s t : Bytes) : bool :=
  bool_decide (to_ascii_lowercase s = to_ascii_lowercase t).

(** ** [str] searching and splitting *)
Fixpoint split_on (sep : Z) (s : Bytes) : list Bytes :=
  match s with
  | [] => [[]]
  | c :: s' =>
    if c =? sep then [] :: split_on sep s'
    else match split_on sep s' with
         | w :: ws => (c :: w) :: ws
         | [] => [[c]]
         end
  end.

Fixpoint strip_prefix (p s : Bytes) : option Bytes :=
  match p, s with
  | [], _ => Some s
  | a :: p', b :: s' => if a =? b then strip_prefix p' s' else None
  | _ :: _, [] => None
  end.
Definition starts_with (p s : Bytes) : bool := bool_decide (is_Some (strip_prefix p s)).

Definition strip_suffix (p s : Bytes) : option Bytes :=
  reverse <$> strip_prefix (reverse p) (reverse s).
Definition ends_with (p s : Bytes) : bool := bool_decide (is_Some (strip_suffix p s)).

Fixpoint contains_str (p s : Bytes) : bool :=
  starts_with p s || match s with [] => false | _ :: s' => contains_str p s' end.

(** [str::trim]: the UTF-8 encodings of the Unicode [White_Space] characters are
    stripped from both ends. *)
Definition WHITE_SPACE : list Bytes :=
  [[0x09]; [0x0a]; [0x0b]; [0x0c]; [0x0d]; [0x20]; [0xc2; 0x85]; [0xc2; 0xa0]; [0xe1; 0x9a; 0x80]]
  ++ ((λ b, [0xe2; 0x80; b]) <$>
      [0x80; 0x81; 0x82; 0x83; 0x84; 0x85; 0x86; 0x87; 0x88; 0x89; 0x8a; 0xa8; 0xa9; 0xaf])
  ++ [[0xe2; 0x81; 0x9f]; [0xe3; 0x80; 0x80]].

(** The rest of [s] after the first of [ws] it starts with. *)
Fixpoint strip_one (ws : list Bytes) (s : Bytes) : option Bytes :=
  match ws with
  | [] => None
  | w :: ws' => match strip_prefix w s with Some r => Some r | None => strip_one ws' s end
  end.

(** Each step strips at least one byte, so the length is enough fuel. *)
Fixpoint strip_many (fuel : nat) (ws : list Bytes) (s : Bytes) : Bytes :=
  match fuel with
  | O => s
  | S n => match strip_one ws s with Some r => strip_many n ws r | None => s end
  end.

Definition trim (s : Bytes) : Bytes :=
  let t := strip_many (length s) WHITE_SPACE s in
  reverse (strip_many (length t) (reverse <$> WHITE_SPACE) (reverse t)).

(** [trim_end_matches(c)]. *)
Fixpoint trim_end_byte (c : Z) (s : Bytes) : Bytes :=
  match s with
  | [] => []
  | b :: s' =>
    match trim_end_byte c s' with
    | [] => if b =? c then [] else [b]
    | t => b :: t
    end
  end.

(** [split_once(c)]: around the first occurrence. *)
Fixpoint split_once (c : Z) (s : Bytes) : option (Bytes * Bytes) :=
  match s with
  | [] => None
  | b :: s' =>
    if b =? c then Some ([], s')
    else (λ '(u, v), (b :: u, v)) <$> split_once c s'
  end.

(** [rsplit_once(c)]: around the last occurrence. *)
Definition rsplit_once (c : Z) (s : Bytes) : option (Bytes * Bytes) :=
  (λ '(u, v), (reverse v, reverse u)) <$> split_once c (reverse s).

(** ** [str::from_utf8] (RFC 3629 well-formedness) *)
Definition is_cont (b : Z) : bool := in_range 0x80 0xbf b.
Fixpoint utf8_valid (s : Bytes) : bool :=
  match s with
  | [] => true
  | b0 :: s1 =>
    if b0 <? 0x80 then utf8_valid s1 else
    match s1 with
    | [] => false
    | b1 :: s2 =>
      if in_range 0xc2 0xdf b0 then is_cont b1 && utf8_valid s2 else
      match s2 with
      | [] => false
      | b2 :: s3 =>
        if b0 =? 0xe0 then in_range 0xa0 0xbf b1 && is_cont b2 && utf8_valid s3
        else if in_range 0xe1 0xec b0 || in_range 0xee 0xef b0
        then is_cont b1 && is_cont b2 && utf8_valid s3
        else if b0 =? 0xed then in_range 0x80 0x9f b1 && is_cont b2 && utf8_valid s3
        else
        match s3 with
        | [] => false
        | b3 :: s4 =>
          if b0 =? 0xf0 then in_range 0x90 0xbf b1 && is_cont b2 && is_cont b3 && utf8_valid s4
          else if in_range 0xf1 0xf3 b0
          then is_cont b1 && is_cont b2 && is_cont b3 && utf8_valid s4
          else if b0 =? 0xf4
          then in_range 0x80 0x8f b1 && is_cont b2 && is_cont b3 && utf8_valid s4
          else false
        end
      end
    end
  end.

(** ** IP addresses *)
Abbreviation Ipv4Addr := Z (only parsing).
Abbreviation Ipv6Addr := Z (only parsing).

Inductive IpAddr : Set :=
  | IpV4 (a : Ipv4Addr)
  | IpV6 (a : Ipv6Addr).

#[global] Instance IpAddr_eq_dec : EqDecision IpAddr.
Proof. solve_decision. Defined.

Definition ip_wf (ip : IpAddr) : Prop :=
  match ip with IpV4 a => is_u32 a | IpV6 a => is_u128 a end.

Definition ipv4_octets (a : Ipv4Addr) : Bytes := be_encode 4 a.
Definition ipv6_octets (a : Ipv6Addr) : Bytes := be_encode 16 a.
Definition ipv4_of_octets (o : Bytes) : Ipv4Addr := be_decode o.
Definition ipv6_of_octets (o : Bytes) : Ipv6Addr := be_decode o.
(** [Ipv4Addr::new]. *)
Definition ipv4_new (a b c d : Z) : Ipv4Addr := ((a * 256 + b) * 256 + c) * 256 + d.
(** The [i]-th octet or 16-bit segment, from the most significant one. *)
Definition ipv4_octet (i : Z) (a : Ipv4Addr) : Z := Z.shiftr a (8 * (3 - i)) mod 256.
Definition ipv6_segment (i : Z) (a : Ipv6Addr) : Z := Z.shiftr a (16 * (7 - i)) mod 65536.
Definition ipv6_segments (a : Ipv6Addr) : list Z :=
  (λ i, ipv6_segment (Z.of_nat i) a) <$> seq 0 8.
Definition ipv6_of_segments (l : list Z) : Ipv6Addr := foldl (λ acc s, acc * 65536 + s) 0 l.

(** [Ipv4Addr::is_private], [is_loopback], [is_link_local], ... *)
Definition ipv4_is_private (a : Ipv4Addr) : bool :=
  (ipv4_octet 0 a =? 10)
  || ((ipv4_octet 0 a =? 172) && in_range 16 31 (ipv4_octet 1 a))
  || ((ipv4_octet 0 a =? 192) && (ipv4_octet 1 a =? 168)).
Definition ipv4_is_loopback (a : Ipv4Addr) : bool := ipv4_octet 0 a =? 127.
Definition ipv4_is_link_local (a : Ipv4Addr) : bool :=
  (ipv4_octet 0 a =? 169) && (ipv4_octet 1 a =? 254).
Definition ipv4_is_unspecified (a : Ipv4Addr) : bool := a =? 0.
Definition ipv4_is_broadcast (a : Ipv4Addr) : bool := a =? 0xffffffff.
Definition ipv4_is_multicast (a : Ipv4Addr) : bool := in_range 224 239 (ipv4_octet 0 a).
Definition ipv6_is_loopback (a : Ipv6Addr) : bool := a =? 1.
Definition ipv6_is_unspecified (a : Ipv6Addr) : bool := a =? 0.
Definition ipv6_is_multicast (a : Ipv6Addr) : bool :=
  Z.land (ipv6_segment 0 a) 0xff00 =? 0xff00.
Definition ipv6_is_unique_local (a : Ipv6Addr) : bool :=
  Z.land (ipv6_segment 0 a) 0xfe00 =? 0xfc00.
(** [Ipv6Addr::to_ipv4_mapped]: ::ffff:a.b.c.d. *)
Definition ipv6_to_ipv4_mapped (a : Ipv6Addr) : option Ipv4Addr :=
  if Z.shiftr a 32 =? 0xffff then Some (a mod 2 ^ 32) else None.
(** [IpAddr::to_canonical]. *)
Definition ip_to_canonical (ip : IpAddr) : IpAddr :=
  match ip with
  | IpV4 a => IpV4 a
  | IpV6 a => match ipv6_to_ipv4_mapped a with Some v4 => IpV4 v4 | None => IpV6 a end
  end.
Definition ip_is_unspecified (ip : IpAddr) : bool :=
  match ip with IpV4 a => ipv4_is_unspecified a | IpV6 a => ipv6_is_unspecified a end.
Definition ip_is_loopback (ip : IpAddr) : bool :=
  match ip with IpV4 a => ipv4_is_loopback a | IpV6 a => ipv6_is_loopback a end.

(** ** [core::net::parser] *)
Definition parser (A : Type) : Type := Bytes → option (A * Bytes).

(** [char::to_digit(radix)]. *)
Definition to_digit (radix b : Z) : option Z :=
  let d := if is_ascii_digit b then b - 0x30
           else if is_ascii_lower b then b - 0x61 + 10
           else if is_ascii_upper b then b - 0x41 + 10 else radix in
  if d <? radix then Some d else None.

Fixpoint span_digits (radix : Z) (s : Bytes) : list Z * Bytes :=
  match s with
  | [] => ([], [])
  | b :: s' =>
    match to_digit radix b with
    | Some d => let '(ds, r) := span_digits radix s' in (d :: ds, r)
    | None => ([], s)
    end
  end.

Definition digits_value (radix : Z) (ds : list Z) : Z := foldl (λ acc d, acc * radix + d) 0 ds.

(** [read_number(radix, max_digits, allow_zero_prefix)] at a type with maximum [max]. *)
Definition read_number (radix : Z) (max_digits : option nat) (allow_zero_prefix : bool)
    (max : Z) : parser Z := λ s,
  let '(ds, r) := span_digits radix s in
  if match max_digits with Some m => (m <? length ds)%nat | None => false end then None
  else match ds with
  | [] => None
  | d :: ds' =>
    if negb allow_zero_prefix && (d =? 0) && negb (bool_decide (ds' = [])) then None
    else if digits_value radix ds <=? max then Some (digits_value radix ds, r) else None
  end.

Definition read_given_char (c : Z) : parser unit := λ s,
  match s with b :: s' => if b =? c then Some (tt, s') else None | [] => None end.

Definition read_separator {A} (sep : Z) (index : nat) (inner : parser A) : parser A := λ s,
  match index with
  | O => inner s
  | S _ => '(_, s') ← read_given_char sep s; inner s'
  end.

Definition DOT : Z := 0x2e.
Definition COLON : Z := 0x3a.
Definition HYPHEN : Z := 0x2d.

Definition read_octet (i : nat) : parser Z :=
  read_separator DOT i (read_number 10 (Some 3%nat) false 255).

Definition read_ipv4_addr : parser Ipv4Addr := λ s,
  '(a, s) ← read_octet 0 s; '(b, s) ← read_octet 1 s;
  '(c, s) ← read_octet 2 s; '(d, s) ← read_octet 3 s;
  Some (ipv4_new a b c d, s).

(** [read_groups]: [slots] groups still to read, the next one has index [i]. *)
Fixpoint read_groups (slots i : nat) (s : Bytes) : list Z * bool * Bytes :=
  match slots with
  | O => ([], false, s)
  | S k =>
    match (if (1 <=? k)%nat then read_separator COLON i read_ipv4_addr s else None) with
    | Some (v4, r) => ([Z.shiftr v4 16; v4 mod 65536], true, r)
    | None =>
      match read_separator COLON i (read_number 16 (Some 4%nat) true 65535) s with
      | Some (g, r) => let '(gs, v4, r') := read_groups k (S i) r in (g :: gs, v4, r')
      | None => ([], false, s)
      end
    end
  end.

Definition read_ipv6_addr : parser Ipv6Addr := λ s,
  let '(head, head_ipv4, s) := read_groups 8 0 s in
  if (length head =? 8)%nat then Some (ipv6_of_segments head, s)
  else if head_ipv4 then None
  else
    '(_, s) ← read_given_char COLON s;
    '(_, s) ← read_given_char COLON s;
    let '(tail, _, s) := read_groups (7 - length head) 0 s in
    let zeros := replicate (8 - length head - length tail) 0 in
    Some (ipv6_of_segments (head ++ zeros ++ tail), s).

Definition read_ip_addr : parser IpAddr := λ s,
  match read_ipv4_addr s with
  | Some (a, r) => Some (IpV4 a, r)
  | None => '(a, r) ← read_ipv6_addr s; Some (IpV6 a, r)
  end.

(** [parse_with]: the parser must consume the whole input. *)
Definition parse_with {A} (p : parser A) (s : Bytes) : option A :=
  match p s with Some (a, []) => Some a | _ => None end.

(** [s.parse::<IpAddr>()]. *)
Definition parse_ip (s : Bytes) : option IpAddr := parse_with read_ip_addr s.

Record SocketAddr : Set := { sa_ip : IpAddr; sa_port : Z }.

Definition read_port : parser Z := λ s,
  '(_, s) ← read_given_char COLON s; read_number 10 None true 65535 s.

Definition read_socket_addr_v4 : parser SocketAddr := λ s,
  '(ip, s) ← read_ipv4_addr s; '(p, s) ← read_port s;
  Some ({| sa_ip := IpV4 ip; sa_port := p |}, s).

Definition read_scope_id : parser Z := λ s,
  '(_, s) ← read_given_char 0x25 s; read_number 10 None true 4294967295 s.

Definition read_socket_addr_v6 : parser SocketAddr := λ s,
  '(_, s) ← read_given_char 0x5b s;
  '(ip, s) ← read_ipv6_addr s;
  let s := match read_scope_id s with Some (_, r) => r | None => s end in
  '(_, s) ← read_given_char 0x5d s;
  '(p, s) ← read_port s;
  Some ({| sa_ip := IpV6 ip; sa_port := p |}, s).

(** [s.parse::<SocketAddr>()]. *)
Definition parse_socket_addr (s : Bytes) : option SocketAddr :=
  parse_with (λ s, match read_socket_addr_v4 s with
                   | Some x => Some x
                   | None => read_socket_addr_v6 s
                   end) s.

(** [s.parse::<uN>()] for an unsigned type with maximum [max]: an optional [+],
    then at least one decimal digit, no overflow. *)
Definition parse_uint (max : Z) (s : Bytes) : option Z :=
  let body := match s with 0x2b :: r => r | _ => s end in
  let '(ds, r) := span_digits 10 body in
  match ds, r with
  | _ :: _, [] => if digits_value 10 ds <=? max then Some (digits_value 10 ds) else None
  | _, _ => None
  end.

Example parse_ip_v4 : parse_ip (bytes_of_string "127.0.0.1") = Some (IpV4 0x7f000001).
Proof. vm_compute. reflexivity. Qed.
Example parse_ip_v4_octal : parse_ip (bytes_of_string "0177.0.0.1") = None.
Proof. vm_compute. reflexivity. Qed.
Example parse_ip_v6 : parse_ip (bytes_of_string "::1") = Some (IpV6 1).
Proof. vm_compute. reflexivity. Qed.
Example parse_ip_v6_mixed :
  parse_ip (bytes_of_string "64:ff9b::1.2.3.4") = Some (IpV6 0x64ff9b000000000000000001020304).
Proof. vm_compute. reflexivity. Qed.
Example parse_ip_domain : parse_ip (bytes_of_string "example.com") = None.
Proof. vm_compute. reflexivity. Qed.

(** ** Lemmas: the parsers produce values of their type *)

Lemma span_digits_nonneg radix s ds r :
  span_digits radix s = (ds, r) → Forall (λ d, 0 ≤ d) ds.
Proof.
  revert ds. induction s as [|b s IH]; simpl; intros ds H; [by simplify_eq|].
  destruct (to_digit radix b) as [d|] eqn:Hd; [|by simplify_eq].
  destruct (span_digits radix s) as [ds' r'] eqn:?. simplify_eq. constructor; [|by eapply IH].
  unfold to_digit, is_ascii_digit, is_ascii_lower, is_ascii_upper, in_range in Hd.
  repeat case_match; bool_to_prop; simplify_eq; lia.
Qed.

Lemma digits_value_nonneg radix ds :
  0 ≤ radix → Forall (λ d, 0 ≤ d) ds → 0 ≤ digits_value radix ds.
Proof.
  unfold digits_value. intros Hr Hds. assert (0 ≤ 0) as Hacc by lia. revert Hacc.
  generalize 0 at 2 4. induction Hds; simpl; intros; [done|apply IHHds; nia].
Qed.

Lemma read_number_bound radix md zp max s z r :
  0 ≤ radix → read_number radix md zp max s = Some (z, r) → 0 ≤ z ≤ max.
Proof.
  unfold read_number. intros Hr H. destruct (span_digits radix s) as [ds r'] eqn:Hs.
  apply span_digits_nonneg in Hs. apply (digits_value_nonneg radix) in Hs; [|done].
  repeat case_match; simplify_eq; bool_to_prop; lia.
Qed.

Lemma read_separator_Some {A} sep i (p : parser A) s x r :
  read_separator sep i p s = Some (x, r) → ∃ s', p s' = Some (x, r).
Proof.
  unfold read_separator, read_given_char. destruct i; [by eexists|].
  intros H. repeat case_match; simplify_eq/=; by eexists.
Qed.

Lemma read_octet_bound i s z r : read_octet i s = Some (z, r) → 0 ≤ z ≤ 255.
Proof.
  intros [s' H]%read_separator_Some. by apply read_number_bound in H.
Qed.

Lemma read_ipv4_addr_wf s a r : read_ipv4_addr s = Some (a, r) → is_u32 a.
Proof.
  unfold read_ipv4_addr. intros H.
  repeat match type of H with
  | mbind _ ?x = _ => destruct x as [[? ?]|] eqn:?; [|discriminate H]; cbn [mbind option_bind] in H
  end.
  simplify_eq.
  repeat match goal with Hr : read_octet _ _ = Some _ |- _ => apply read_octet_bound in Hr end.
  unfold in_width, ipv4_new. change (2 ^ 32) with 4294967296. lia.
Qed.

Lemma read_groups_wf slots i s gs v4 r :
  read_groups slots i s = (gs, v4, r) → Forall is_u16 gs ∧ (length gs ≤ slots)%nat.
Proof.
  revert i s gs v4 r. induction slots as [|k IH]; intros i s gs v4 r; cbn [read_groups].
  { intros. simplify_eq. split; [done|simpl; lia]. }
  destruct (if (1 <=? k)%nat then read_separator COLON i read_ipv4_addr s else None)
    as [[a r']|] eqn:H4.
  - intros. simplify_eq. destruct k; simpl in H4; [done|]. split; [|cbn [length]; lia].
    apply read_separator_Some in H4 as [? H4]. apply read_ipv4_addr_wf in H4.
    unfold in_width in *. rewrite Z.shiftr_div_pow2 by lia.
    change (2 ^ 32) with 4294967296 in *. change (2 ^ 16) with 65536.
    repeat constructor; Z.div_mod_to_equations; lia.
  - destruct (read_separator COLON i (read_number 16 (Some 4%nat) true 65535) s)
      as [[g r']|] eqn:Hg.
    + destruct (read_groups k (S i) r') as [[gs' b] r''] eqn:Hrec. intros. simplify_eq.
      apply IH in Hrec as [??]. apply read_separator_Some in Hg as [? Hg].
      apply read_number_bound in Hg; [|lia].
      split; [constructor; [unfold in_width; change (2 ^ 16) with 65536; lia|done]|simpl; lia].
    + intros. simplify_eq. split; [done|simpl; lia].
Qed.

Lemma ipv6_of_segments_bound l :
  Forall is_u16 l → 0 ≤ ipv6_of_segments l < 65536 ^ zlen l.
Proof.
  unfold ipv6_of_segments. induction l as [|x l IH] using rev_ind; intros Hl.
  { simpl. change (65536 ^ Z.of_nat 0) with 1. lia. }
  apply Forall_app in Hl as [Hl Hx]. apply Forall_cons in Hx as [Hx _].
  specialize (IH Hl). rewrite foldl_app, length_app. cbn [foldl length].
  replace (Z.of_nat (length l + 1)) with (Z.succ (Z.of_nat (length l))) by lia.
  rewrite Z.pow_succ_r by lia. unfold in_width in Hx. change (2 ^ 16) with 65536 in Hx. lia.
Qed.

Lemma ipv6_of_segments_u128 l :
  length l = 8%nat → Forall is_u16 l → is_u128 (ipv6_of_segments l).
Proof.
  intros Hlen Hl%ipv6_of_segments_bound. rewrite Hlen in Hl.
  unfold in_width. by change (65536 ^ Z.of_nat 8) with (2 ^ 128) in Hl.
Qed.

Lemma read_ipv6_addr_wf s a r : read_ipv6_addr s = Some (a, r) → is_u128 a.
Proof.
  unfold read_ipv6_addr. destruct (read_groups 8 0 s) as [[head h4] s1] eqn:Hh.
  apply read_groups_wf in Hh as [Hh Hl]. destruct (length head =? 8)%nat eqn:H8.
  { intros. simplify_eq. apply Nat.eqb_eq in H8. by apply ipv6_of_segments_u128. }
  destruct h4; [done|]. intros H.
  destruct (read_given_char COLON s1) as [[? s2]|]; [|done]. simpl in H.
  destruct (read_given_char COLON s2) as [[? s3]|]; [|done]. simpl in H.
  destruct (read_groups (7 - length head) 0 s3) as [[tl t4] s4] eqn:Ht.
  apply read_groups_wf in Ht as [Ht Hl']. simplify_eq. apply Nat.eqb_neq in H8.
  apply ipv6_of_segments_u128.
  - rewrite !length_app, length_replicate. lia.
  - rewrite !Forall_app. split_and!; [done| |done].
    apply Forall_replicate. unfold in_width. change (2 ^ 16) with 65536. lia.
Qed.

Lemma parse_ip_wf s ip : parse_ip s = Some ip → ip_wf ip.
Proof.
  unfold parse_ip, parse_with, read_ip_addr.
  destruct (read_ipv4_addr s) as [[a [|]]|] eqn:H4; intros; simplify_eq.
  { by eapply read_ipv4_addr_wf. }
  destruct (read_ipv6_addr s) as [[a [|]]|] eqn:H6; simplify_eq/=.
  by eapply read_ipv6_addr_wf.
Qed.

Lemma parse_uint_bound max s z : parse_uint max s = Some z → 0 ≤ z ≤ max.
Proof.
  unfold parse_uint. intros H.
  destruct (span_digits 10 _) as [ds r'] eqn:Hs.
  apply span_digits_nonneg in Hs. apply (digits_value_nonneg 10) in Hs; [|lia].
  repeat case_match; simplify_eq; bool_to_prop; lia.
Qed.

(** ** Lemmas: prefixes, suffixes and labels *)

Lemma strip_prefix_Some p s t : strip_prefix p s = Some t ↔ s = p ++ t.
Proof.
  revert s. induction p as [|a p IH]; intros [|b s]; simpl; try naive_solver.
  destruct (a =? b) eqn:E; bool_to_prop; [subst; rewrite IH|]; naive_solver.
Qed.

Lemma strip_suffix_Some p s t : strip_suffix p s = Some t ↔ s = t ++ p.
Proof.
  unfold strip_suffix. rewrite fmap_Some. setoid_rewrite strip_prefix_Some. split.
  - intros (x & E & ->). apply (f_equal reverse) in E.
    by rewrite reverse_app, !reverse_involutive in E.
  - intros ->. exists (reverse t). by rewrite reverse_app, reverse_involutive.
Qed.

Lemma starts_with_true p s : starts_with p s = true ↔ ∃ t, s = p ++ t.
Proof.
  unfold starts_with, is_Some. rewrite bool_decide_eq_true. by setoid_rewrite strip_prefix_Some.
Qed.

Lemma ends_with_true p s : ends_with p s = true ↔ ∃ t, s = t ++ p.
Proof.
  unfold ends_with, is_Some. rewrite bool_decide_eq_true. by setoid_rewrite strip_suffix_Some.
Qed.

Lemma split_on_nonempty sep s : split_on sep s ≠ [].
Proof. destruct s; simpl; repeat case_match; done. Qed.

Lemma split_on_app sep s t : split_on sep (s ++ sep :: t) = split_on sep s ++ split_on sep t.
Proof.
  induction s as [|c s IH]; simpl.
  - by rewrite Z.eqb_refl.
  - destruct (c =? sep); [by rewrite IH|]. rewrite IH.
    pose proof (split_on_nonempty sep s). by destruct (split_on sep s).
Qed.

(** [join] of the labels. *)
Fixpoint join_on (sep : Z) (ls : list Bytes) : Bytes :=
  match ls with
  | [] => []
  | [l] => l
  | l :: ls' => l ++ sep :: join_on sep ls'
  end.

Lemma join_split sep s : join_on sep (split_on sep s) = s.
Proof.
  induction s as [|c s IH]; [done|]. simpl. pose proof (split_on_nonempty sep s).
  destruct (c =? sep) eqn:E; bool_to_prop.
  - subst. destruct (split_on sep s) eqn:Es; [done|]. simpl in *. by rewrite IH.
  - destruct (split_on sep s) as [|w ws]; [done|]. rewrite <- IH. by destruct ws.
Qed.

Lemma join_on_app sep ls ms :
  ls ≠ [] → ms ≠ [] → join_on sep (ls ++ ms) = join_on sep ls ++ sep :: join_on sep ms.
Proof.
  intros Hl Hm. induction ls as [|l ls IH]; [done|]. destruct ls as [|l' ls].
  { simpl. by destruct ms. }
  change (join_on sep ((l :: l' :: ls) ++ ms)) with (l ++ sep :: join_on sep ((l' :: ls) ++ ms)).
  rewrite IH by done. change (join_on sep (l :: l' :: ls)) with (l ++ sep :: join_on sep (l' :: ls)).
  by rewrite <- app_assoc.
Qed.

(** A string ends with a separated suffix when its labels end with the suffix's. *)
Lemma labels_suffix sep s t :
  (∃ pre, s = pre ++ sep :: t) ↔ ∃ ls, ls ≠ [] ∧ split_on sep s = ls ++ split_on sep t.
Proof.
  split.
  - intros [pre ->]. exists (split_on sep pre). split; [apply split_on_nonempty|apply split_on_app].
  - intros (ls & Hls & E). exists (join_on sep ls). rewrite <- (join_split sep s), E.
    rewrite join_on_app by (done || apply split_on_nonempty). by rewrite join_split.
Qed.

Lemma split_on_inj sep s t : split_on sep s = split_on sep t → s = t.
Proof. intros E. by rewrite <- (join_split sep s), E, join_split. Qed.
