(* ===== verification/Endpoint.v ===== *)
(** * Endpoint: configured host and port strings (crates/uk-proto/src/endpoint.rs)

    The validation of [host:port] strings and the two-stage check of the bind
    address of the unauthenticated probe endpoint: once on the configured string,
    once on what it resolves to. *)

From S2P Require Import Prelude Wire RustStd.

Module Endpoint.

(* @src crates/uk-proto/src/endpoint.rs 16-23 EndpointErrorKind *)
Inductive EndpointErrorKind : Set :=
  | MissingPort
  | InvalidHost
  | InvalidPort
  | ZeroPort
  | WildcardBind.

(* @src crates/uk-proto/src/endpoint.rs 9-29 EndpointError *)
Record EndpointError : Set := { name : string; kind : EndpointErrorKind }.

(* @src crates/uk-proto/src/endpoint.rs 57-83 ObservabilityBindError *)
Inductive ObservabilityBindError : Set :=
  | EndpointInvalid (e : EndpointError)
  | Resolve (code : Z).

(** [getaddrinfo] gave no address. *)
Definition NO_ADDRESSES : Z := 0.

Definition LBRACKET : Z := 0x5b.
Definition RBRACKET : Z := 0x5d.

(* @src crates/uk-proto/src/endpoint.rs 141-154 split_host_port *)
Definition split_host_port (value : Bytes) : option (Bytes * Bytes) :=
  match strip_prefix [LBRACKET] value with
  | Some rest =>
    '(host, after) ← split_once RBRACKET rest;
    port ← strip_prefix [COLON] after;
    Some (host, port)
  | None =>
    '(host, port) ← rsplit_once COLON value;
    if bool_decide (COLON ∈ host) then None else Some (host, port)
  end.

(* @src crates/uk-proto/src/endpoint.rs 156-162 validate_port *)
Definition validate_port (n : string) (port : Z) : result EndpointError unit :=
  if port =? 0 then Err {| name := n; kind := ZeroPort |} else Ok tt.

(* @src crates/uk-proto/src/endpoint.rs 124-139 validate_host_port_endpoint *)
Definition validate_host_port_endpoint (n : string) (value : Bytes) : result EndpointError unit :=
  match parse_socket_addr value with
  | Some addr => validate_port n (sa_port addr)
  | None =>
    let? '(host, port) := ok_or {| name := n; kind := MissingPort |} (split_host_port value) in
    if bool_decide (host = []) || existsb is_ascii_control host
    then Err {| name := n; kind := InvalidHost |} else
    let? port := ok_or {| name := n; kind := InvalidPort |} (parse_uint 65535 port) in
    validate_port n port
  end.

(* @src crates/uk-proto/src/endpoint.rs 164-177 BindExposure *)
Inductive BindExposure : Set := Loopback | NonLoopback.

(* @src crates/uk-proto/src/endpoint.rs 216-220 endpoint_host *)
Definition endpoint_host (value : Bytes) : option Bytes := fst <$> split_host_port value.

(* @src crates/uk-proto/src/endpoint.rs 179-214 validate_observability_bind *)
Definition validate_observability_bind (n : string) (value : Bytes) : result EndpointError BindExposure :=
  let? _ := validate_host_port_endpoint n value in
  let? host := ok_or {| name := n; kind := InvalidHost |} (endpoint_host value) in
  match parse_ip host with
  | Some ip =>
    let ip := ip_to_canonical ip in
    if ip_is_unspecified ip then Err {| name := n; kind := WildcardBind |}
    else Ok (if ip_is_loopback ip then Loopback else NonLoopback)
  | None => Ok NonLoopback
  end.

(** [resolved] is what [to_socket_addrs] gives for the value. *)
(* @src crates/uk-proto/src/endpoint.rs 85-122 resolve_observability_bind *)
Definition resolve_observability_bind (n : string) (value : Bytes) (resolved : result Z (list SocketAddr))
    : result ObservabilityBindError (list SocketAddr) :=
  let? _ := map_err EndpointInvalid (validate_observability_bind n value) in
  let? addrs := map_err Resolve resolved in
  if bool_decide (addrs = []) then Err (Resolve NO_ADDRESSES) else
  if existsb (λ addr, ip_is_unspecified (ip_to_canonical (sa_ip addr))) addrs
  then Err (EndpointInvalid {| name := n; kind := WildcardBind |}) else
  Ok addrs.

(** ** Lemmas *)

Lemma split_once_Some c s u v : split_once c s = Some (u, v) ↔ s = u ++ c :: v ∧ c ∉ u.
Proof.
  revert u v. induction s as [|b s IH]; intros u v; simpl.
  - split; [done|]. intros [H _]. by destruct u.
  - destruct (Z.eqb_spec b c) as [->|Hne].
    + split; [intros [= <- <-]; set_solver|]. intros [H Hn]. destruct u as [|x u]; [by injection H as ->|].
      injection H as -> _. set_solver.
    + rewrite fmap_Some. split.
      * intros ([u' v'] & [-> Hn]%IH & [= -> ->]). set_solver.
      * intros [H Hn]. destruct u as [|x u]; [by injection H as -> _|]. injection H as <- ->.
        exists (u, v). split; [apply IH; set_solver|done].
Qed.

Lemma rsplit_once_Some c s u v : rsplit_once c s = Some (u, v) ↔ s = u ++ c :: v ∧ c ∉ v.
Proof.
  unfold rsplit_once. rewrite fmap_Some. split.
  - intros ([a b] & [H Hn]%split_once_Some & [= -> ->]). apply (f_equal reverse) in H.
    rewrite reverse_involutive, reverse_app, reverse_cons in H. rewrite H, <-app_assoc. split; [done|].
    by rewrite elem_of_reverse.
  - intros [-> Hn]. exists (reverse v, reverse u). rewrite !reverse_involutive. split; [|done].
    apply split_once_Some. rewrite reverse_app, reverse_cons, <-app_assoc, elem_of_reverse. done.
Qed.

#[local] Arguments strip_prefix : simpl never.
#[local] Arguments split_once : simpl never.

(** The two spellings of an endpoint. *)
Definition spells (value host port : Bytes) : Prop :=
  (value = LBRACKET :: host ++ RBRACKET :: COLON :: port ∧ RBRACKET ∉ host) ∨
  (value = host ++ COLON :: port ∧ COLON ∉ host ∧ COLON ∉ port ∧ head value ≠ Some LBRACKET).

Lemma split_host_port_Some value host port : split_host_port value = Some (host, port) ↔ spells value host port.
Proof.
  unfold split_host_port, spells. destruct (strip_prefix [LBRACKET] value) as [rest|] eqn:Hb.
  - apply strip_prefix_Some in Hb as ->. simpl. split.
    + intros ([h after] & [-> Hn]%split_once_Some & H)%bind_Some. apply bind_Some in H as (p & Hp & [= -> ->]).
      apply strip_prefix_Some in Hp as ->. auto.
    + intros [[[= ->] Hn]|(_ & _ & _ & Hh)]; [|done].
      rewrite (proj2 (split_once_Some RBRACKET _ host (COLON :: port))) by done. done.
  - assert (head value ≠ Some LBRACKET) as Hh.
    { destruct value as [|b v]; [done|]. intros [= ->]. done. }
    split.
    + intros ([h p] & [-> Hp]%rsplit_once_Some & H)%bind_Some. case_bool_decide; [done|]. injection H as -> ->. auto.
    + intros [[-> _]|(-> & H1 & H2 & _)]; [by destruct Hh|].
      rewrite (proj2 (rsplit_once_Some COLON _ host port)) by done. simpl. by rewrite bool_decide_false.
Qed.

Lemma endpoint_port_Ok n p : validate_port n p = Ok tt ↔ p ≠ 0.
Proof. unfold validate_port. destruct (Z.eqb_spec p 0); split; done. Qed.

(** ** Properties *)

(** An endpoint is accepted exactly when it is a socket address literal with a port
    other than zero, or one of the two spellings of a host that is neither empty nor
    contains control characters and of a decimal port in 1..65535. *)
Theorem endpoint_accept_iff n value :
  validate_host_port_endpoint n value = Ok tt ↔
  (∃ addr, parse_socket_addr value = Some addr ∧ sa_port addr ≠ 0) ∨
  (parse_socket_addr value = None ∧ ∃ host port p,
     spells value host port ∧ host ≠ [] ∧ Forall (λ b, is_ascii_control b = false) host ∧
     parse_uint 65535 port = Some p ∧ p ≠ 0).
Proof.
  unfold validate_host_port_endpoint. destruct (parse_socket_addr value) as [addr|].
  { rewrite endpoint_port_Ok. split; [eauto|]. intros [(a & [= <-] & ?)|[? _]]; done. }
  rewrite rbind_Ok. split.
  - intros ([host port] & Hs%ok_or_Ok%split_host_port_Some & H). right. split; [done|].
    destruct (bool_decide (host = [])) eqn:He; [done|]. apply bool_decide_eq_false in He.
    destruct (existsb is_ascii_control host) eqn:Hc; [done|]. apply existsb_false in Hc. simpl in H.
    apply rbind_Ok in H as (p & Hp%ok_or_Ok & Hz%endpoint_port_Ok). eauto 10.
  - intros [(? & ? & _)|(_ & host & port & p & Hs%split_host_port_Some & He & Hc%existsb_false & Hp & Hz)]; [done|].
    exists (host, port). rewrite Hs. split; [done|]. rewrite bool_decide_false by done. rewrite Hc. simpl.
    rewrite Hp. simpl. by apply endpoint_port_Ok.
Qed.

(** What is bound: whatever the resolver makes of the value, the probe endpoint
    listens on at least one address and on no wildcard, also not on a mapped one. *)
Theorem observability_never_wildcard n value resolved addrs :
  resolve_observability_bind n value resolved = Ok addrs →
  resolved = Ok addrs ∧ addrs ≠ [] ∧
  Forall (λ addr, ip_is_unspecified (ip_to_canonical (sa_ip addr)) = false) addrs.
Proof.
  unfold resolve_observability_bind. intros (e & _ & H)%rbind_Ok. apply rbind_Ok in H as (a & Ha & H).
  apply map_err_Ok in Ha. case_bool_decide as He; [done|]. destruct (existsb _ a) eqn:Hw; [done|].
  injection H as <-. split; [done|]. split; [done|]. by apply existsb_false.
Qed.

(** The first stage alone would not do: a scoped wildcard passes it. *)
Example scoped_wildcard_passes_first_stage :
  validate_observability_bind "observability_listen" (bytes_of_string "[::%1]:9090") = Ok NonLoopback ∧
  sa_ip <$> parse_socket_addr (bytes_of_string "[::%1]:9090") = Some (IpV6 0).
Proof. split; vm_compute; reflexivity. Qed.
End Endpoint.
