(* ===== verification/Probe.v ===== *)
(** * Probe: the health and metrics endpoint (crates/uk-proto/src/observability.rs)

    A probe connection reads one HTTP request head, looks at its first line and answers.
    The head is read in chunks of at most 512 bytes, whatever the transport makes of it. *)

From S2P Require Import Prelude RustStd.

Module Probe.

Definition MAX_REQUEST_HEAD_BYTES : Z := 8 * 1024.

(** ** Looking for bytes *)

(** [windows(n).position]: where [pat] is first found. *)
Fixpoint position (pat s : Bytes) : option nat :=
  if bool_decide (pat `prefix_of` s) then Some 0%nat else
  match s with
  | [] => None
  | _ :: s => S <$> position pat s
  end.

Definition CRLF : Bytes := [13; 10].
Definition HEAD_END : Bytes := [13; 10; 13; 10].
Definition SPACE : Z := 32.
Definition QUERY : Z := 63.

(** [str::split] at a character: at least one part. *)
Fixpoint split (sep : Z) (s : Bytes) : list Bytes :=
  match s with
  | [] => [[]]
  | b :: s =>
    if b =? sep then [] :: split sep s else
    match split sep s with
    | p :: ps => (b :: p) :: ps
    | [] => [[b]]
    end
  end.

(** ** Requests *)

Inductive Error : Set := UnexpectedEof | InvalidData | TimedOut | Transport.

(** What a read returns: some bytes, the end of the stream, an error; nothing more comes
    once the script is over. *)
Inductive ReadEvent : Set := Chunk (b : Bytes) | Eof | ReadErr.

(* @src crates/uk-proto/src/observability.rs 21-52 read_request_head *)
Fixpoint read_request_head (script : list ReadEvent) (request : Bytes) : result Error Bytes :=
  match script with
  | [] => Err TimedOut
  | ReadErr :: _ => Err Transport
  | Eof :: _ | Chunk [] :: _ => Err UnexpectedEof
  | Chunk read :: script =>
    let request := request ++ read in
    if MAX_REQUEST_HEAD_BYTES <? zlen request then Err InvalidData else
    match position HEAD_END request with
    | Some _ => Ok request
    | None => if zlen request =? MAX_REQUEST_HEAD_BYTES then Err InvalidData else read_request_head script request
    end
  end.

(* @src crates/uk-proto/src/observability.rs 55-66 parse_request_line *)
Definition parse_request_line (request : Bytes) : option (Bytes * Bytes * Bytes) :=
  line_end ← position CRLF request;
  let line := take line_end request in
  if negb (utf8_valid line) then None else
  match split SPACE line with
  | [method; path; version] =>
    if bool_decide (method = []) || bool_decide (path = []) || bool_decide (version = []) then None
    else Some (method, path, version)
  | _ => None
  end.

(** ** Responses *)

(** An unsigned integer in decimal; 20 digits are enough for 64 bits. *)
Fixpoint digits (fuel : nat) (n : Z) : Bytes :=
  match fuel with
  | O => []
  | S fuel => (if n <? 10 then [] else digits fuel (n / 10)) ++ [48 + n mod 10]
  end.
Definition decimal (n : Z) : Bytes := digits 20 n.

Definition text (s : string) : Bytes := bytes_of_string s.

Record Response : Set := { status : Z; reason : Bytes; content_type : Bytes; body : Bytes }.

(** The head of a response; [content_length] is that of the body, sent or not. *)
(* @src crates/uk-proto/src/observability.rs 89-104 write_response_head_only *)
Definition response_head (r : Response) : Bytes :=
  text "HTTP/1.1 " ++ decimal (status r) ++ [SPACE] ++ reason r ++ CRLF ++
  text "Content-Type: " ++ content_type r ++ CRLF ++
  text "Content-Length: " ++ decimal (zlen (body r)) ++ CRLF ++
  text "Cache-Control: no-store" ++ CRLF ++ text "Connection: close" ++ CRLF ++ CRLF.

(* @src crates/uk-proto/src/observability.rs 69-86 write_response *)
Definition write_response (r : Response) : Bytes := response_head r ++ body r.

Definition plain_response (st : Z) (why answer : string) : Response :=
  {| status := st; reason := text why; content_type := text "text/plain"; body := text answer ++ [10] |}.

(* @src crates/uk-proto/src/observability.rs 147-167 serve_probe_connection *)
Definition resource (path : Bytes) (ready : bool) (metrics : Bytes) : Response :=
  if bool_decide (path = text "/healthz") then plain_response 200 "OK" "ok" else
  if bool_decide (path = text "/readyz") then
    if ready then plain_response 200 "OK" "ready" else plain_response 503 "Service Unavailable" "not ready"
  else
  if bool_decide (path = text "/metrics")
  then {| status := 200; reason := text "OK"; content_type := text "text/plain; version=0.0.4; charset=utf-8"; body := metrics |}
  else plain_response 404 "Not Found" "not found".

(* @src crates/uk-proto/src/observability.rs 120-174 serve_probe_connection *)
Definition answer (request : Bytes) (ready : bool) (metrics : Bytes) : Bytes :=
  match parse_request_line request with
  | None => write_response (plain_response 400 "Bad Request" "bad request")
  | Some (method, raw_path, version) =>
    if negb (bool_decide (method = text "GET")) && negb (bool_decide (method = text "HEAD"))
    then write_response (plain_response 405 "Method Not Allowed" "method not allowed") else
    if negb (bool_decide (version = text "HTTP/1.0")) && negb (bool_decide (version = text "HTTP/1.1"))
    then write_response (plain_response 505 "HTTP Version Not Supported" "HTTP version not supported") else
    let path := default raw_path (head (split QUERY raw_path)) in
    let r := resource path ready metrics in
    if bool_decide (method = text "HEAD") then response_head r else write_response r
  end.

(* @src crates/uk-proto/src/observability.rs 107-119 serve_probe_connection *)
Definition serve_probe_connection (script : list ReadEvent) (ready : bool) (metrics : Bytes) : result Error Bytes :=
  let? request := read_request_head script [] in
  Ok (answer request ready metrics).

(** ** Lemmas *)

Lemma position_Some pat s k :
  position pat s = Some k ↔ pat `prefix_of` drop k s ∧ (k ≤ length s)%nat ∧ ∀ j, (j < k)%nat → ¬ pat `prefix_of` drop j s.
Proof.
  revert k. induction s as [|b s IH]; intros k; simpl; case_bool_decide as Hp.
  - split; [intros [= <-]; split_and!; [done|lia|lia]|]. intros (_ & Hk & _). f_equal. lia.
  - split; [done|]. intros (Hk & _). by rewrite drop_nil in Hk.
  - split; [intros [= <-]; split_and!; [done|lia|lia]|]. intros (_ & _ & Hno). destruct k as [|k]; [done|].
    by destruct (Hno 0%nat ltac:(lia)).
  - rewrite fmap_Some. setoid_rewrite IH. split.
    + intros (j & (Hj & Hl & Hno) & ->). split_and!; [done|lia|]. intros [|i] Hi; [done|]. apply Hno. lia.
    + intros (Hk & Hl & Hno). destruct k as [|k]; [done|]. exists k. split; [|done]. split_and!; [done|lia|].
      intros j Hj. apply (Hno (S j)). lia.
Qed.

(** More bytes behind do not move the first occurrence. *)
Lemma position_app pat s t k : position pat s = Some k → pat ≠ [] → position pat (s ++ t) = Some k.
Proof.
  rewrite !position_Some. intros ((u & Hu) & Hk & Hno) Hne.
  assert (∀ j, (j ≤ k)%nat → drop j (s ++ t) = drop j s ++ t) as Hd by (intros j Hj; rewrite drop_app_le by lia; done).
  split_and!.
  - rewrite Hd by lia. rewrite Hu, <-app_assoc. by exists (u ++ t).
  - rewrite length_app. lia.
  - intros j Hj Hp. apply (Hno j Hj). rewrite Hd in Hp by lia.
    assert (length pat ≤ length (drop j s))%nat as Hlen.
    { apply (f_equal length) in Hu. rewrite length_app, length_drop in Hu. rewrite length_drop. lia. }
    destruct Hp as [v Hv]. exists (drop (length pat) (drop j s)).
    apply (f_equal (take (length pat))) in Hv. rewrite take_app_le, take_app_length in Hv by done.
    rewrite <-Hv at 1. by rewrite take_drop.
Qed.

Lemma position_exists pat s k :
  pat `prefix_of` drop k s → (k ≤ length s)%nat → ∃ j, position pat s = Some j ∧ (j ≤ k)%nat.
Proof.
  revert k. induction s as [|b s IH]; intros k Hp Hk; simpl; case_bool_decide as H0; try (exists 0%nat; split; [done|lia]).
  - by rewrite drop_nil in Hp.
  - destruct k as [|k]; [done|]. destruct (IH k Hp) as (j & -> & ?); [simpl in *; lia|]. exists (S j). split; [done|lia].
Qed.
Lemma position_length pat s k : position pat s = Some k → (k + length pat ≤ length s)%nat.
Proof.
  intros ((u & Hu) & Hk & _)%position_Some. apply (f_equal length) in Hu. rewrite length_app, length_drop in Hu. lia.
Qed.
(** An occurrence that ends within the first part is found there. *)
Lemma position_within pat s t k :
  position pat (s ++ t) = Some k → (k + length pat ≤ length s)%nat → position pat s = Some k.
Proof.
  intros Hp Hk. apply position_Some in Hp as (Hp & _ & Hno).
  assert (∀ j, (j + length pat ≤ length s)%nat → pat `prefix_of` drop j (s ++ t) ↔ pat `prefix_of` drop j s) as Hx.
  { intros j Hj. rewrite drop_app_le by lia. split; [|intros; by apply prefix_app_r].
    intros [v Hv]. exists (drop (length pat) (drop j s)).
    apply (f_equal (take (length pat))) in Hv. rewrite take_app_le, take_app_length in Hv by (rewrite length_drop; lia).
    rewrite <-Hv at 1. by rewrite take_drop. }
  apply position_Some. split_and!; [by apply Hx|lia|]. intros j Hj. rewrite <-Hx by lia. by apply Hno.
Qed.

Lemma split_inv sep s q ps :
  split sep s = q :: ps →
  sep ∉ q ∧ (ps = [] ∧ s = q ∨ ∃ s', s = q ++ sep :: s' ∧ split sep s' = ps).
Proof.
  revert q ps. induction s as [|b s IH]; intros q ps; simpl.
  - intros [= <- <-]. split; [apply not_elem_of_nil|by left].
  - destruct (b =? sep) eqn:E; bool_to_prop.
    + intros [= <- <-]. split; [apply not_elem_of_nil|]. right. exists s. by subst.
    + destruct (split sep s) as [|q' ps'] eqn:Es.
      { destruct s as [|b' s]; simpl in Es; [done|]. destruct (b' =? sep); [done|]. by destruct (split sep s). }
      intros [= <- <-]. destruct (IH q' ps' eq_refl) as [Hq Hr]. split; [apply not_elem_of_cons; auto|].
      destruct Hr as [[-> ->]|(s' & -> & ?)]; [by left|]. right. by exists s'.
Qed.
Lemma split_none sep s : sep ∉ s → split sep s = [s].
Proof.
  induction s as [|b s IH]; [done|]. intros [Hb Hs]%not_elem_of_cons. simpl. rewrite IH by done.
  destruct (b =? sep) eqn:E; bool_to_prop; [by destruct Hb|done].
Qed.
Lemma split_app sep q s : sep ∉ q → split sep (q ++ sep :: s) = q :: split sep s.
Proof.
  induction q as [|b q IH]; intros Hq; simpl; [by rewrite Z.eqb_refl|]. apply not_elem_of_cons in Hq as [Hb Hq].
  rewrite IH by done. destruct (b =? sep) eqn:E; bool_to_prop; [by destruct Hb|done].
Qed.

(** ** Theorems *)

(** The request lines that are understood: three nonempty words separated by single
    spaces, in UTF-8, up to the first line end. *)
Theorem parse_request_line_exact request m p v :
  parse_request_line request = Some (m, p, v) ↔
  m ≠ [] ∧ p ≠ [] ∧ v ≠ [] ∧ SPACE ∉ m ∧ SPACE ∉ p ∧ SPACE ∉ v ∧
  utf8_valid (m ++ SPACE :: p ++ SPACE :: v) = true ∧
  take (length (m ++ SPACE :: p ++ SPACE :: v)) request = m ++ SPACE :: p ++ SPACE :: v ∧
  position CRLF request = Some (length (m ++ SPACE :: p ++ SPACE :: v)).
Proof.
  unfold parse_request_line. split.
  - intros (k & Hk & H)%bind_Some. pose proof (position_length _ _ _ Hk) as Hlen. simpl in Hlen.
    destruct (utf8_valid (take k request)) eqn:Hu; [|done]. simpl in H.
    destruct (split SPACE (take k request)) as [|m' [|p' [|v' [|? ?]]]] eqn:Hs; try done.
    apply split_inv in Hs as [Hm [[? _]|(s1 & E1 & Hs)]]; [done|]. apply split_inv in Hs as [Hp [[? _]|(s2 & E2 & Hs)]]; [done|].
    apply split_inv in Hs as [Hv [[_ E3]|(s3 & _ & Hs)]]; [|by destruct s3; simpl in Hs; repeat case_match].
    repeat case_bool_decide; simpl in H; try done. simplify_eq.
    assert (k = length (m ++ SPACE :: p ++ SPACE :: v)) as Ek by (rewrite <-E1, length_take; lia).
    rewrite <-Ek, <-E1. by split_and!.
  - intros (Hm & Hp & Hv & Sm & Sp & Sv & Hu & Ht & Hk). rewrite Hk. simpl. rewrite Ht, Hu. simpl.
    rewrite split_app, split_app, split_none by done. by rewrite !bool_decide_false by done.
Qed.

Lemma read_head_any_chunking cs more acc k :
  Forall (λ c, c ≠ [] ∧ zlen c ≤ 512) cs → position HEAD_END acc = None →
  position HEAD_END (acc ++ concat cs) = Some k → Z.of_nat k + 515 ≤ MAX_REQUEST_HEAD_BYTES →
  ∃ r t, read_request_head ((Chunk <$> cs) ++ more) acc = Ok r ∧ acc ++ concat cs = r ++ t ∧ position HEAD_END r = Some k.
Proof.
  revert acc. induction cs as [|c cs IH]; intros acc Hcs Hacc Hk Hb; simpl in Hk |- *; [rewrite app_nil_r in Hk; congruence|].
  apply Forall_cons in Hcs as [[Hne Hc] Hcs]. destruct c as [|b c]; [done|]. set (c' := b :: c) in *.
  rewrite app_assoc in Hk |- *.
  assert (length acc < k + 4)%nat as Hlt.
  { destruct (decide (length acc < k + 4)%nat) as [?|Hge]; [done|exfalso]. rewrite <-app_assoc in Hk.
    apply position_within in Hk; [congruence|]. simpl. lia. }
  assert (zlen (acc ++ c') = zlen acc + zlen c') as Hl by (rewrite length_app; lia).
  destruct (MAX_REQUEST_HEAD_BYTES <? zlen (acc ++ c')) eqn:E; bool_to_prop; [lia|].
  destruct (position HEAD_END (acc ++ c')) as [j|] eqn:Ej.
  - assert (j = k) as -> by (apply (position_app _ _ (concat cs)) in Ej; [congruence|done]). eauto.
  - assert (length (acc ++ c') < k + 4)%nat as Hlt'.
    { destruct (decide (length (acc ++ c') < k + 4)%nat) as [?|Hge]; [done|exfalso].
      apply position_within in Hk; [congruence|]. simpl in *. lia. }
    destruct (zlen (acc ++ c') =? _) eqn:Eq; bool_to_prop; [lia|]. by apply IH.
Qed.

(** The answer to a probe does not depend on how the transport cuts the request: a head
    of at most 7681 bytes is answered as a whole, and the bytes behind it are ignored. *)
Theorem probe_any_chunking cs more k ready metrics :
  Forall (λ c, c ≠ [] ∧ zlen c ≤ 512) cs →
  position HEAD_END (concat cs) = Some k → Z.of_nat k + 515 ≤ MAX_REQUEST_HEAD_BYTES →
  serve_probe_connection ((Chunk <$> cs) ++ more) ready metrics = Ok (answer (concat cs) ready metrics).
Proof.
  intros Hcs Hk Hb. destruct (read_head_any_chunking cs more [] k Hcs) as (r & t & Hr & Ht & Hp); [done|done|done|].
  simpl in Ht. unfold serve_probe_connection. rewrite Hr. simpl. rewrite Ht. f_equal. unfold answer.
  assert (parse_request_line (r ++ t) = parse_request_line r) as ->; [|done].
  apply position_Some in Hp as (Hp & Hkl & _).
  destruct (position_exists CRLF r k) as (j & Hj & _); [|done|].
  { etrans; [|exact Hp]. by exists CRLF. }
  pose proof (position_length _ _ _ Hj). unfold parse_request_line. rewrite Hj, (position_app _ _ _ _ Hj) by done. simpl.
  by rewrite take_app_le by lia.
Qed.
End Probe.
