(* ===== verification/TargetCodec.v ===== *)
(** * TargetCodec: strict target addresses (crates/uk-proto/src/target.rs)

    The target a client asks the server to dial: a domain name, an IPv4 or an
    IPv6 address, with a port.  The interesting part is validation: a domain
    target can never denote an address literal, in any spelling a resolver
    would still read as one. *)

From S2P Require Import Prelude Wire Varint RustStd.

Module Target.
Section Target.
Context {P : Platform}.

(* @src crates/uk-proto/src/target.rs 9-9 ADDR_DOMAIN *)
Definition ADDR_DOMAIN : Z := 0x01.
(* @src crates/uk-proto/src/target.rs 10-10 ADDR_IPV4 *)
Definition ADDR_IPV4 : Z := 0x02.
(* @src crates/uk-proto/src/target.rs 11-11 ADDR_IPV6 *)
Definition ADDR_IPV6 : Z := 0x03.

(* @src crates/uk-proto/src/target.rs 13-22 Target *)
Inductive Target : Set :=
  | Domain (domain : Bytes) (port : Z)
  | Ipv4 (addr : Ipv4Addr) (port : Z)
  | Ipv6 (addr : Ipv6Addr) (port : Z).

#[global] Instance Target_eq_dec : EqDecision Target.
Proof. solve_decision. Defined.

(* @src crates/uk-proto/src/target.rs 25-30 Target::port *)
Definition port (t : Target) : Z :=
  match t with Domain _ p | Ipv4 _ p | Ipv6 _ p => p end.

(* @src crates/uk-proto/src/target.rs 157-163 validate_port *)
Definition validate_port (p : Z) : ProtocolResult unit :=
  if p =? 0 then Err (InvalidTarget "port must be 1..=65535") else Ok tt.

(* @src crates/uk-proto/src/target.rs 164-182 is_resolver_ip_shaped *)
Definition is_resolver_ip_shaped (domain : Bytes) : bool :=
  forallb (λ label,
    let all_digits := negb (bool_decide (label = [])) && forallb is_ascii_digit label in
    let hex_literal :=
      match (match strip_prefix (bytes_of_string "0x") label with
             | Some rest => Some rest
             | None => strip_prefix (bytes_of_string "0X") label
             end) with
      | Some rest => forallb is_ascii_hexdigit rest
      | None => false
      end in
    all_digits || hex_literal)
  (split_on DOT domain).

(** The per-label loop at the end of [validate_domain]. *)
(* @src crates/uk-proto/src/target.rs 216-226 validate_domain *)
Fixpoint validate_labels (labels : list Bytes) : ProtocolResult unit :=
  match labels with
  | [] => Ok tt
  | label :: rest =>
    if bool_decide (label = []) || (63 <? zlen label)
    then Err (InvalidTarget "invalid domain label length") else
    if starts_with [HYPHEN] label || ends_with [HYPHEN] label
    then Err (InvalidTarget "domain label cannot start or end with hyphen") else
    validate_labels rest
  end.

(* @src crates/uk-proto/src/target.rs 184-228 validate_domain *)
Definition validate_domain (domain : Bytes) : ProtocolResult unit :=
  if bool_decide (domain = []) || (255 <? zlen domain)
  then Err (InvalidTarget "invalid domain length") else
  if existsb is_ascii_control domain
  then Err (InvalidTarget "domain contains ascii control character") else
  if bool_decide (is_Some (parse_ip domain))
  then Err (InvalidTarget "domain must not be an IP literal") else
  if is_resolver_ip_shaped domain
  then Err (InvalidTarget "domain must not be an IP literal") else
  if starts_with [DOT] domain || ends_with [DOT] domain || contains_str [DOT; DOT] domain
  then Err (InvalidTarget "malformed domain dot structure") else
  if negb (forallb (λ c, is_ascii_alphanumeric c || (c =? DOT) || (c =? HYPHEN)) domain)
  then Err (InvalidTarget "domain contains invalid characters") else
  validate_labels (split_on DOT domain).

(* @src crates/uk-proto/src/target.rs 230-239 validate_domain_name *)
Definition validate_domain_name (name : Bytes) : ProtocolResult unit := validate_domain name.

(* @src crates/uk-proto/src/target.rs 241-252 validate_domain_pattern *)
Definition validate_domain_pattern (pattern : Bytes) : ProtocolResult unit :=
  let stripped := default pattern (strip_prefix [DOT] pattern) in
  let stripped := default stripped (strip_suffix [DOT] stripped) in
  validate_domain stripped.

(* @src crates/uk-proto/src/target.rs 41-66 Target::encode *)
Definition encode (t : Target) : ProtocolResult Bytes :=
  let? _ := validate_port (port t) in
  match t with
  | Domain domain port =>
    let? _ := validate_domain domain in
    let? l := Varint.encode (zlen domain) in
    Ok (be_encode 1 ADDR_DOMAIN ++ l ++ domain ++ be_encode 2 port)
  | Ipv4 addr port =>
    let? l := Varint.encode 4 in
    Ok (be_encode 1 ADDR_IPV4 ++ l ++ ipv4_octets addr ++ be_encode 2 port)
  | Ipv6 addr port =>
    let? l := Varint.encode 16 in
    Ok (be_encode 1 ADDR_IPV6 ++ l ++ ipv6_octets addr ++ be_encode 2 port)
  end.

(* @src crates/uk-proto/src/target.rs 68-136 Target::decode *)
Definition decode (src : Bytes) : ProtocolResult (Target * Bytes) :=
  if bool_decide (src = []) then Err Truncated else
  let? '(addr_type, src) := get_uint 1 src in
  if negb ((addr_type =? ADDR_DOMAIN) || (addr_type =? ADDR_IPV4) || (addr_type =? ADDR_IPV6))
  then Err (InvalidTarget "unknown address type") else
  let? '(len, src) := Varint.decode src in
  let? host_len := ok_or InvalidVarint (usize_try_from len) in
  if (addr_type =? ADDR_DOMAIN) && ((host_len =? 0) || (255 <? host_len))
  then Err (InvalidTarget "invalid domain length") else
  if (addr_type =? ADDR_IPV4) && negb (host_len =? 4)
  then Err (InvalidTarget "invalid ipv4 length") else
  if (addr_type =? ADDR_IPV6) && negb (host_len =? 16)
  then Err (InvalidTarget "invalid ipv6 length") else
  if zlen src <? usize_saturating_add host_len 2 then Err Truncated else
  let? '(host, src) := buf_split host_len src in
  let? '(port, src) := get_uint 2 src in
  let? _ := validate_port port in
  if addr_type =? ADDR_DOMAIN then
    if negb (utf8_valid host) then Err (InvalidTarget "domain is not utf-8") else
    let? _ := validate_domain host in
    Ok (Domain host port, src)
  else if addr_type =? ADDR_IPV4 then
    if negb (zlen host =? 4) then Err (InvalidTarget "invalid ipv4 length") else
    Ok (Ipv4 (ipv4_of_octets host) port, src)
  else if addr_type =? ADDR_IPV6 then
    if negb (zlen host =? 16) then Err (InvalidTarget "invalid ipv6 length") else
    Ok (Ipv6 (ipv6_of_octets host) port, src)
  else Err (InvalidTarget "unknown address type").

(** ** Lemmas *)

(** The pure tail of [decode], once type, host and port have been read. *)
Definition finish (addr_type : Z) (host : Bytes) (port : Z) : ProtocolResult Target :=
  let? _ := validate_port port in
  if addr_type =? ADDR_DOMAIN then
    if negb (utf8_valid host) then Err (InvalidTarget "domain is not utf-8") else
    let? _ := validate_domain host in
    Ok (Domain host port)
  else if addr_type =? ADDR_IPV4 then
    if negb (zlen host =? 4) then Err (InvalidTarget "invalid ipv4 length") else
    Ok (Ipv4 (ipv4_of_octets host) port)
  else if addr_type =? ADDR_IPV6 then
    if negb (zlen host =? 16) then Err (InvalidTarget "invalid ipv6 length") else
    Ok (Ipv6 (ipv6_of_octets host) port)
  else Err (InvalidTarget "unknown address type").

Definition bad_length (addr_type host_len : Z) : option ProtocolError :=
  if (addr_type =? ADDR_DOMAIN) && ((host_len =? 0) || (255 <? host_len))
  then Some (InvalidTarget "invalid domain length") else
  if (addr_type =? ADDR_IPV4) && negb (host_len =? 4)
  then Some (InvalidTarget "invalid ipv4 length") else
  if (addr_type =? ADDR_IPV6) && negb (host_len =? 16)
  then Some (InvalidTarget "invalid ipv6 length") else None.

Definition known_type (t : Z) : bool :=
  (t =? ADDR_DOMAIN) || (t =? ADDR_IPV4) || (t =? ADDR_IPV6).

Lemma bad_length_None t n :
  0 ≤ n → known_type t = true → bad_length t n = None → 0 < n ≤ 255.
Proof.
  unfold known_type, bad_length, ADDR_DOMAIN, ADDR_IPV4, ADDR_IPV6.
  rewrite !orb_true_iff, !Z.eqb_eq.
  intros H0 [[->| ->]| ->] H; simpl in H; repeat case_match; bool_to_prop; simplify_eq; lia.
Qed.

(** [decode] as a chain of guarded reads. *)
Lemma decode_form src :
  decode src =
    let? '(h, src) := (if zlen src <? 1 then Err Truncated else buf_split 1 src) in
    (if negb (known_type (be_decode h)) then Err (InvalidTarget "unknown address type") else
     let? '(len, src) := Varint.decode src in
     if USIZE_MAX <? len then Err InvalidVarint else
     match bad_length (be_decode h) len with
     | Some e => Err e
     | None =>
       let? '(host, src) := (if zlen src <? len + 2 then Err Truncated else buf_split (len + 2) src) in
       let? t := finish (be_decode h) (take (Z.to_nat len) host)
                        (be_decode (drop (Z.to_nat len) host)) in
       Ok (t, src)
     end).
Proof.
  unfold decode. destruct src as [|b s]; [done|].
  rewrite bool_decide_eq_false_2 by done. rewrite (proj2 (Z.ltb_ge _ _)) by (simpl; lia).
  rewrite get_u8_cons, (buf_split_app 1 [b] s) by done. simpl. rewrite be_decode_1.
  fold (known_type b). destruct (known_type b) eqn:Hk; [|done]. simpl.
  destruct (Varint.decode s) as [[len r]|?|] eqn:Hdec; simpl; [|done..].
  apply Varint.decode_nonneg in Hdec as [Hlen0 _].
  unfold usize_try_from. case_decide as Hu; simpl;
    [rewrite (proj2 (Z.ltb_ge USIZE_MAX len)) by done
    |by rewrite (proj2 (Z.ltb_lt USIZE_MAX len)) by lia].
  unfold bad_length.
  destruct (_ && (_ || _)) eqn:H1; [done|].
  destruct ((_ =? ADDR_IPV4) && _) eqn:H2; [done|].
  destruct ((_ =? ADDR_IPV6) && _) eqn:H3; [done|].
  assert (0 < len ≤ 255) as Hlen.
  { apply (bad_length_None b); [done..|]. unfold bad_length. by rewrite H1, H2, H3. }
  assert (usize_saturating_add len 2 = len + 2) as ->.
  { unfold usize_saturating_add. destruct USIZE_MAX_cases as [-> | ->]; lia. }
  destruct (zlen r <? len + 2) eqn:Hr; [done|]. bool_to_prop.
  assert (∃ host p1 p2 r', r = host ++ p1 :: p2 :: r' ∧ zlen host = len)
    as (host & p1 & p2 & r' & -> & Hh).
  { exists (take (Z.to_nat len) r). pose proof (take_drop (Z.to_nat len) r) as Ht.
    destruct (drop (Z.to_nat len) r) as [|p1 [|p2 r']] eqn:Hd;
      apply (f_equal length) in Hd; rewrite length_drop in Hd; simpl in Hd; try lia.
    exists p1, p2, r'. split; [congruence|]. rewrite length_take. lia. }
  rewrite (buf_split_app len host) by done. simpl. rewrite get_u16_cons. simpl.
  rewrite (cons_middle p1 host), app_assoc, (cons_middle p2), (app_assoc _ [p2]).
  rewrite (buf_split_app (len + 2)) by (rewrite !length_app; simpl; lia). simpl.
  rewrite <- app_assoc. rewrite take_app_le, take_ge, drop_app_ge by lia.
  replace (Z.to_nat len - length host)%nat with 0%nat by lia. simpl.
  rewrite be_decode_2. unfold finish.
  destruct (validate_port _); simpl; [|done..]. repeat case_match; simpl; try done.
  by destruct (validate_domain host).
Qed.

Lemma validate_port_Ok p u : validate_port p = Ok u ↔ p ≠ 0.
Proof. unfold validate_port. destruct u, (p =? 0) eqn:?; bool_to_prop; naive_solver. Qed.

Lemma validate_port_Err p e : validate_port p = Err e → e ≠ Truncated.
Proof. unfold validate_port. intros ?. by res_inv. Qed.

Lemma validate_labels_Err ls e : validate_labels ls = Err e → e ≠ Truncated.
Proof. induction ls as [|l ls IH]; simpl; intros ?; res_inv; eauto. Qed.

Lemma validate_labels_Panic ls : validate_labels ls ≠ Panic.
Proof. induction ls as [|l ls IH]; simpl; intros ?; res_inv; congruence. Qed.

Lemma validate_labels_Ok ls :
  validate_labels ls = Ok tt →
  Forall (λ l, 1 ≤ zlen l ≤ 63 ∧ starts_with [HYPHEN] l = false ∧ ends_with [HYPHEN] l = false) ls.
Proof.
  induction ls as [|l ls IH]; simpl; intros H; [constructor|]. res_inv. bool_to_prop.
  constructor; [|by apply IH]. destruct l; [done|]. simpl in *. split_and!; try done; lia.
Qed.

Lemma validate_domain_Err d e : validate_domain d = Err e → e ≠ Truncated.
Proof. unfold validate_domain. intros ?. res_inv; first [done|by eapply validate_labels_Err]. Qed.

Lemma validate_domain_Panic d : validate_domain d ≠ Panic.
Proof. unfold validate_domain. intros ?. res_inv; first [done|by eapply validate_labels_Panic]. Qed.

Definition domain_char (c : Z) : bool := is_ascii_alphanumeric c || (c =? DOT) || (c =? HYPHEN).

Lemma domain_char_ascii c : domain_char c = true → 0 ≤ c < 0x80.
Proof.
  unfold domain_char, is_ascii_alphanumeric, is_ascii_digit, is_ascii_upper, is_ascii_lower,
    in_range, DOT, HYPHEN.
  rewrite !orb_true_iff, !andb_true_iff, !Z.leb_le, !Z.eqb_eq. lia.
Qed.

Lemma forallb_ascii_utf8 s : Forall (λ c, 0 ≤ c < 0x80) s → utf8_valid s = true.
Proof.
  induction 1 as [|c s Hc _ IH]; [done|]. simpl.
  by rewrite (proj2 (Z.ltb_lt _ _)) by lia.
Qed.

(** What a validated domain is. *)
Lemma validate_domain_Ok d u :
  validate_domain d = Ok u →
  d ≠ [] ∧ zlen d ≤ 255 ∧ parse_ip d = None ∧ is_resolver_ip_shaped d = false ∧
  Forall (λ c, domain_char c = true) d ∧ validate_labels (split_on DOT d) = Ok tt.
Proof.
  unfold validate_domain. intros H. res_inv. bool_to_prop.
  split_and!; try done.
  - rewrite <- not_eq_None_Some in *. by apply dec_stable.
  - by apply forallb_Forall.
  - by destruct u.
Qed.

Lemma validate_domain_utf8 d u : validate_domain d = Ok u → utf8_valid d = true ∧ bytes_ok d.
Proof.
  intros (_ & _ & _ & _ & H & _)%validate_domain_Ok. split.
  - apply forallb_ascii_utf8. eapply Forall_impl; [done|]. apply domain_char_ascii.
  - eapply Forall_impl; [done|]. intros c Hc%domain_char_ascii. unfold in_width. lia.
Qed.

Lemma finish_Err t h p e : finish t h p = Err e → e ≠ Truncated.
Proof.
  unfold finish. intros ?. res_inv; try done;
    eauto using validate_port_Err, validate_domain_Err.
Qed.

Lemma finish_Panic t h p : finish t h p ≠ Panic.
Proof.
  unfold finish, validate_port. intros ?. res_inv; try done. by eapply validate_domain_Panic.
Qed.

#[global] Instance target_stream : StreamDecoder decode.
Proof.
  eapply sd_ext; [intros s; symmetry; apply decode_form|].
  apply sd_bind; [apply sd_split|]. intros h. apply sd_check; [done|].
  apply sd_bind; [apply _|]. intros len. apply sd_check; [done|].
  destruct (bad_length _ _) as [e|] eqn:Hbad.
  { apply sd_fail. unfold bad_length in Hbad. repeat case_match; naive_solver. }
  apply sd_bind; [apply sd_split|]. intros host.
  destruct (finish _ _ _) as [t|e|] eqn:Hf; simpl;
    [apply sd_ret|apply sd_fail; by eapply finish_Err|by apply finish_Panic in Hf].
Qed.

(** Wire type and host bytes of a target. *)
Definition addr_type (t : Target) : Z :=
  match t with Domain _ _ => ADDR_DOMAIN | Ipv4 _ _ => ADDR_IPV4 | Ipv6 _ _ => ADDR_IPV6 end.
Definition host_bytes (t : Target) : Bytes :=
  match t with
  | Domain d _ => d | Ipv4 a _ => ipv4_octets a | Ipv6 a _ => ipv6_octets a
  end.

Definition target_wf (t : Target) : Prop :=
  is_u16 (port t) ∧
  match t with Domain _ _ => True | Ipv4 a _ => is_u32 a | Ipv6 a _ => is_u128 a end.

(** The validity every encoder and decoder of a target enforces. *)
Definition target_valid (t : Target) : Prop :=
  port t ≠ 0 ∧ match t with Domain d _ => validate_domain d = Ok tt | _ => True end.

Lemma encode_Ok t bs :
  encode t = Ok bs ↔
  target_valid t ∧ ∃ l, Varint.encode (zlen (host_bytes t)) = Ok l ∧
    bs = [addr_type t] ++ l ++ host_bytes t ++ be_encode 2 (port t).
Proof.
  unfold encode, target_valid. rewrite rbind_Ok. setoid_rewrite validate_port_Ok.
  assert (∀ x, is_u8 x → be_encode 1 x = [x]) as H1 by apply be_encode_1.
  destruct t as [d p|a p|a p]; simpl; unfold ipv4_octets, ipv6_octets;
    rewrite ?length_be_encode, ?(H1 ADDR_DOMAIN), ?(H1 ADDR_IPV4), ?(H1 ADDR_IPV6) by done;
    change (Z.of_nat 4) with 4; change (Z.of_nat 16) with 16; split.
  - intros (_ & Hp & H). res_inv. destruct x. naive_solver.
  - intros ([Hp Hd] & l & Hl & ->). exists tt. split; [done|]. by rewrite Hd; simpl; rewrite Hl.
  - intros (_ & Hp & H). res_inv. naive_solver.
  - intros ([Hp Hd] & l & Hl & ->). exists tt. split; [done|]. by rewrite Hl.
  - intros (_ & Hp & H). res_inv. naive_solver.
  - intros ([Hp Hd] & l & Hl & ->). exists tt. split; [done|]. by rewrite Hl.
Qed.

Lemma finish_Ok ty host p t :
  bytes_ok host → finish ty host p = Ok t →
  addr_type t = ty ∧ host_bytes t = host ∧ port t = p ∧ target_valid t ∧
  (is_u16 p → target_wf t).
Proof.
  intros Hh. unfold finish. rewrite rbind_Ok. setoid_rewrite validate_port_Ok.
  intros (_ & Hp & H). unfold target_valid, target_wf, ipv4_octets, ipv6_octets in *.
  assert (∀ n, zlen host = Z.of_nat n → be_encode n (be_decode host) = host ∧
    in_width (8 * Z.of_nat n) (be_decode host)) as Hbe.
  { intros n Hn. apply Nat2Z.inj in Hn as <-. split; [by apply be_encode_decode|].
    unfold in_width. rewrite <- pow256 by lia. by apply be_decode_bound. }
  res_inv; bool_to_prop; subst; simpl.
  - destruct x. naive_solver.
  - destruct (Hbe 4%nat); [done|]. naive_solver.
  - destruct (Hbe 16%nat); [done|]. naive_solver.
Qed.

Lemma finish_valid t :
  target_wf t → target_valid t → finish (addr_type t) (host_bytes t) (port t) = Ok t.
Proof.
  intros [_ Hwf] [Hp Hv]. unfold finish. rewrite (proj2 (validate_port_Ok _ tt)) by done.
  destruct t as [d p|a p|a p]; simpl in *; unfold ipv4_octets, ipv6_octets, ipv4_of_octets,
    ipv6_of_octets; rewrite ?length_be_encode.
  - rewrite Hv. simpl. by rewrite (proj1 (validate_domain_utf8 d tt Hv)).
  - simpl. by rewrite be_decode_encode_small.
  - simpl. by rewrite be_decode_encode_small.
Qed.

Lemma valid_length t :
  target_valid t → bad_length (addr_type t) (zlen (host_bytes t)) = None.
Proof.
  intros [_ Hv]. destruct t as [d p|a p|a p]; simpl in *; unfold ipv4_octets, ipv6_octets;
    rewrite ?length_be_encode; try done.
  apply validate_domain_Ok in Hv as (Hne & Hlen & _). unfold bad_length. simpl.
  destruct d; [done|]. rewrite (proj2 (Z.eqb_neq _ _)) by (simpl; lia).
  by rewrite (proj2 (Z.ltb_ge _ _)) by lia.
Qed.

Lemma addr_type_known t : known_type (addr_type t) = true.
Proof. by destruct t. Qed.

#[global] Instance target_codec : PrefixCodec target_wf encode decode.
Proof.
  split.
  - apply _.
  - intros t bs r Hwf (Hv & l & Hl & ->)%encode_Ok. rewrite decode_form.
    rewrite <- !app_assoc.
    rewrite (proj2 (Z.ltb_ge _ _)) by (rewrite length_app; simpl; lia).
    rewrite (buf_split_app 1 [addr_type t]) by done. simpl.
    rewrite be_decode_1, addr_type_known. simpl.
    rewrite (pc_roundtrip (wf := is_u64) (zlen (host_bytes t)) l) by
      (done || by eapply Varint.encode_Ok_u64).
    simpl. pose proof (valid_length t Hv) as Hbad.
    pose proof (bad_length_None _ _ (zlen_nonneg _) (addr_type_known t) Hbad) as Hlen.
    rewrite (proj2 (Z.ltb_ge USIZE_MAX _)) by (destruct USIZE_MAX_cases as [-> | ->]; lia).
    rewrite Hbad, (app_assoc (host_bytes t)).
    rewrite (proj2 (Z.ltb_ge _ _)) by (rewrite !length_app, length_be_encode; lia).
    rewrite buf_split_app by (rewrite length_app, length_be_encode; lia). simpl.
    rewrite Nat2Z.id, take_app_length, drop_app_length.
    rewrite be_decode_encode_small by apply Hwf. by rewrite finish_valid.
  - intros s t r Hs H. rewrite decode_form in H.
    apply rbind_Ok in H as ([h s1] & Hh & H). destruct (_ <? _); [done|].
    apply buf_split_Ok in Hh as [-> Hlh]; [|done].
    destruct h as [|ty [|]]; try (simpl in Hlh; lia). rewrite be_decode_1 in H.
    destruct (known_type ty) eqn:Hk; [|done]. simpl in H.
    apply Forall_app in Hs as [Hty Hs1].
    apply rbind_Ok in H as ([len s2] & Hlen & H). destruct (_ <? _) eqn:Hu; [done|].
    pose proof (Varint.decode_nonneg _ _ _ Hlen) as [Hlen0 _].
    destruct (bad_length ty len) eqn:Hbad; [done|].
    pose proof (bad_length_None _ _ Hlen0 Hk Hbad) as Hlen255.
    apply rbind_Ok in H as ([hp s3] & Hhp & H). destruct (zlen s2 <? _); [done|].
    apply buf_split_Ok in Hhp as [-> Hlhp]; [|lia].
    apply rbind_Ok in H as (t' & Hf & H). simplify_eq.
    apply pc_canonical in Hlen as (_ & l & Hl & ->); [|done].
    apply Forall_app in Hs1 as [_ Hs2]. apply Forall_app in Hs2 as [Hhp _].
    pose proof (take_drop (Z.to_nat len) hp) as Hsplit.
    set (host := take (Z.to_nat len) hp) in *. set (pb := drop (Z.to_nat len) hp) in *.
    assert (zlen host = len) as Hhost. { unfold host. rewrite length_take. lia. }
    assert (length pb = 2%nat) as Hpb. { unfold pb. rewrite length_drop. lia. }
    rewrite <- Hsplit in Hhp. apply Forall_app in Hhp as [Hokh Hokp].
    destruct (finish_Ok _ _ _ _ Hokh Hf) as (<- & Hhb & Hp & Hv & Hwf).
    split.
    + apply Hwf. pose proof (be_decode_bound pb Hokp) as Hb. rewrite Hpb in Hb.
      unfold in_width. lia.
    + exists ([addr_type t] ++ l ++ hp). split; [|by rewrite <- !app_assoc].
      apply encode_Ok. split; [done|]. exists l. rewrite Hhb, Hp, Hhost. split; [done|].
      rewrite <- Hsplit. do 2 f_equal. f_equal. rewrite <- Hpb. symmetry.
      by apply be_encode_decode.
  - intros t bs Hwf (Hv & l & Hl & ->)%encode_Ok.
    rewrite !Forall_app. split_and!; [|..|apply bytes_ok_be_encode].
    + by destruct t; repeat constructor.
    + apply (pc_bytes (wf := is_u64) (zlen (host_bytes t))); [|done].
      by eapply Varint.encode_Ok_u64.
    + destruct t as [d p|a p|a p]; simpl; try apply bytes_ok_be_encode.
      destruct Hv as [_ Hv]. by eapply validate_domain_utf8.
Qed.

(** [Target::decode] accepts exactly the encodings of valid targets, in
    front of any rest. *)
Theorem target_decode_iff_encode s t r :
  bytes_ok s →
  decode s = Ok (t, r) ↔ target_wf t ∧ ∃ bs, encode t = Ok bs ∧ s = bs ++ r.
Proof. apply pc_iff. Qed.

(** A domain target that comes off the wire is never an address in
    disguise: it does not parse as an IP address, not all of its labels are
    decimal or hexadecimal numbers, it is 1 to 255 bytes of letters, digits,
    dots and hyphens, and each label is 1 to 63 bytes without a hyphen at
    either end; its port is not zero. *)
Theorem decoded_domain_not_address s d p r :
  bytes_ok s → decode s = Ok (Domain d p, r) →
  parse_ip d = None ∧ is_resolver_ip_shaped d = false ∧ 1 ≤ zlen d ≤ 255 ∧ 0 < p < 65536 ∧
  Forall (λ c, domain_char c = true) d ∧
  Forall (λ l, 1 ≤ zlen l ≤ 63 ∧ starts_with [HYPHEN] l = false ∧ ends_with [HYPHEN] l = false)
    (split_on DOT d).
Proof.
  intros Hs H. apply pc_canonical in H as ((Hp & _) & bs & Hb & _); [|done].
  apply encode_Ok in Hb as ((Hp0 & Hv) & _).
  apply validate_domain_Ok in Hv as (Hne & Hlen & ? & ? & ? & Hls).
  unfold in_width in Hp. simpl in Hp, Hp0. destruct d as [|c d]; [done|].
  split_and!; try done; [simpl; lia|lia..|]. by apply validate_labels_Ok in Hls.
Qed.
End Target.

End Target.
