(* ===== verification/RelayPayload.v ===== *)
(** * RelayPayload: payloads of the relay control frames

    Models crates/uk-proto/src/{lib,flow,tcp,udp,status,datagram}.rs: the flow
    id parity rule, [TCP_OPEN], [TCP_CLOSE], [UDP_OPEN], [UDP_CLOSE], the error
    payloads and the framing of relayed datagrams.  Each payload that owns its
    frame is a [PayloadCodec]. *)

From S2P Require Import Prelude Wire Varint TargetCodec.
Import Target.

(* @src crates/uk-proto/src/lib.rs 11-13 is_valid_close_code *)
Definition is_valid_close_code (close_code : Z) : bool :=
  match close_code with 0 | 1 => true | _ => false end.

Module Flow.
(* @src crates/uk-proto/src/flow.rs 5-6 FIRST_CLIENT_FLOW_ID *)
Definition FIRST_CLIENT_FLOW_ID : Z := 1.
(* @src crates/uk-proto/src/flow.rs 8-9 FLOW_ID_STEP *)
Definition FLOW_ID_STEP : Z := 2.

(* @src crates/uk-proto/src/flow.rs 11-14 is_client_initiated_flow_id *)
Definition is_client_initiated_flow_id (flow_id : Z) : bool :=
  negb (flow_id =? 0) && (flow_id <=? Varint.MAX_VARINT) && (flow_id mod 2 =? 1).

(* @src crates/uk-proto/src/flow.rs 16-19 is_server_initiated_flow_id *)
Definition is_server_initiated_flow_id (flow_id : Z) : bool :=
  negb (flow_id =? 0) && (flow_id <=? Varint.MAX_VARINT) && (flow_id mod 2 =? 0).
End Flow.

Module Tcp.
Section Tcp.
Context {P : Platform}.
(* @src crates/uk-proto/src/tcp.rs 7-8 TCP_OPEN_FLAGS_NONE *)
Definition TCP_OPEN_FLAGS_NONE : Z := 0.
(* @src crates/uk-proto/src/tcp.rs 10-11 TCP_CLOSE_NORMAL *)
Definition TCP_CLOSE_NORMAL : Z := 0.
(* @src crates/uk-proto/src/tcp.rs 13-14 TCP_CLOSE_ERROR *)
Definition TCP_CLOSE_ERROR : Z := 1.
(* @src crates/uk-proto/src/tcp.rs 16-17 MIN_TCP_RELAY_FRAME_SIZE *)
Definition MIN_TCP_RELAY_FRAME_SIZE : Z := 262.

(* @src crates/uk-proto/src/tcp.rs 19-32 TcpOpen *)
Record TcpOpen : Set := { target : Target; open_flags : Z }.

(* @src crates/uk-proto/src/tcp.rs 57-68 TcpClose *)
Record TcpClose : Set := { close_code : Z }.

(* @src crates/uk-proto/src/tcp.rs 91-97 validate_open_flags *)
Definition validate_open_flags (fl : Z) : ProtocolResult unit :=
  check fl =? TCP_OPEN_FLAGS_NONE else InvalidTcpPayload "unknown tcp open flags" in Ok tt.

(* @src crates/uk-proto/src/tcp.rs 99-105 validate_close_code *)
Definition validate_close_code (code : Z) : ProtocolResult unit :=
  check is_valid_close_code code else InvalidTcpPayload "unknown tcp close code" in Ok tt.

(* @src crates/uk-proto/src/tcp.rs 34-40 TcpOpen::encode *)
Definition open_encode (o : TcpOpen) : ProtocolResult Bytes :=
  let? _ := validate_open_flags (open_flags o) in
  let? t := Target.encode (target o) in
  Ok (t ++ be_encode 2 (open_flags o)).

(* @src crates/uk-proto/src/tcp.rs 42-54 TcpOpen::decode *)
Definition open_decode (src : Bytes) : ProtocolResult TcpOpen :=
  let? '(t, src) := Target.decode src in
  if zlen src <? 2 then Err Truncated else
  let? '(fl, src) := get_uint 2 src in
  let? _ := validate_open_flags fl in
  check bool_decide (src = []) else InvalidTcpPayload "trailing tcp open bytes" in
  Ok {| target := t; open_flags := fl |}.

(* @src crates/uk-proto/src/tcp.rs 70-75 TcpClose::encode *)
Definition close_encode (c : TcpClose) : ProtocolResult Bytes :=
  let? _ := validate_close_code (close_code c) in
  Ok (be_encode 2 (close_code c)).

(* @src crates/uk-proto/src/tcp.rs 77-88 TcpClose::decode *)
Definition close_decode (src : Bytes) : ProtocolResult TcpClose :=
  if zlen src <? 2 then Err Truncated else
  if 2 <? zlen src then Err (InvalidTcpPayload "trailing tcp close bytes") else
  let? '(code, src) := get_uint 2 src in
  let? _ := validate_close_code code in
  Ok {| close_code := code |}.
End Tcp.
End Tcp.

Module Udp.
Section Udp.
Context {P : Platform}.
(* @src crates/uk-proto/src/udp.rs 7-8 UDP_CLOSE_NORMAL *)
Definition UDP_CLOSE_NORMAL : Z := 0.
(* @src crates/uk-proto/src/udp.rs 10-11 UDP_CLOSE_ERROR *)
Definition UDP_CLOSE_ERROR : Z := 1.

(* @src crates/uk-proto/src/udp.rs 13-24 UdpOpen *)
Record UdpOpen : Set := { target : Target }.

(* @src crates/uk-proto/src/udp.rs 41-52 UdpClose *)
Record UdpClose : Set := { close_code : Z }.

(* @src crates/uk-proto/src/udp.rs 75-81 validate_close_code *)
Definition validate_close_code (code : Z) : ProtocolResult unit :=
  check is_valid_close_code code else InvalidUdpPayload "unknown udp close code" in Ok tt.

(* @src crates/uk-proto/src/udp.rs 26-29 UdpOpen::encode *)
Definition open_encode (o : UdpOpen) : ProtocolResult Bytes := Target.encode (target o).

(* @src crates/uk-proto/src/udp.rs 31-38 UdpOpen::decode *)
Definition open_decode (src : Bytes) : ProtocolResult UdpOpen :=
  let? '(t, src) := Target.decode src in
  check bool_decide (src = []) else InvalidUdpPayload "trailing udp open bytes" in
  Ok {| target := t |}.

(* @src crates/uk-proto/src/udp.rs 54-59 UdpClose::encode *)
Definition close_encode (c : UdpClose) : ProtocolResult Bytes :=
  let? _ := validate_close_code (close_code c) in
  Ok (be_encode 2 (close_code c)).

(* @src crates/uk-proto/src/udp.rs 61-72 UdpClose::decode *)
Definition close_decode (src : Bytes) : ProtocolResult UdpClose :=
  if zlen src <? 2 then Err Truncated else
  if 2 <? zlen src then Err (InvalidUdpPayload "trailing udp close bytes") else
  let? '(code, src) := get_uint 2 src in
  let? _ := validate_close_code code in
  Ok {| close_code := code |}.
End Udp.
End Udp.

Module Status.
(* @src crates/uk-proto/src/status.rs 7-33 ErrorCode *)
Inductive ErrorCode : Set :=
  | UnsupportedVersion | UnsupportedFlag | OversizedFrame | TruncatedFrame | InvalidTarget
  | AuthFailed | PolicyDenied | ResourceLimit | Protocol | TargetUnavailable | TargetTimeout.

#[global] Instance ErrorCode_eq_dec : EqDecision ErrorCode.
Proof. solve_decision. Defined.

(** [code as u64]. *)
(* @src crates/uk-proto/src/status.rs 9-33 ErrorCode *)
Definition error_code_u64 (c : ErrorCode) : Z :=
  match c with
  | UnsupportedVersion => 1 | UnsupportedFlag => 2 | OversizedFrame => 3
  | TruncatedFrame => 4 | InvalidTarget => 5 | AuthFailed => 6 | PolicyDenied => 7
  | ResourceLimit => 8 | Protocol => 9 | TargetUnavailable => 10 | TargetTimeout => 11
  end.

(* @src crates/uk-proto/src/status.rs 36-52 ErrorCode::from_protocol_error *)
Definition from_protocol_error (error : ProtocolError) : ErrorCode :=
  match error with
  | Wire.UnsupportedVersion _ => UnsupportedVersion
  | Wire.UnsupportedFlag _ => UnsupportedFlag
  | Wire.OversizedFrame _ _ => OversizedFrame
  | Wire.Truncated => TruncatedFrame
  | Wire.InvalidTarget _ => InvalidTarget
  | Wire.InvalidVarint | Wire.UnknownFrameType _ | Wire.InvalidFrame _
  | Wire.InvalidSettings _ | Wire.InvalidTcpPayload _ | Wire.InvalidUdpPayload _
  | Wire.InvalidErrorPayload _ => Protocol
  end.

(* @src crates/uk-proto/src/status.rs 55-74 ErrorCode::try_from *)
Definition error_code_try_from (value : Z) : ProtocolResult ErrorCode :=
  match value with
  | 1 => Ok UnsupportedVersion
  | 2 => Ok UnsupportedFlag
  | 3 => Ok OversizedFrame
  | 4 => Ok TruncatedFrame
  | 5 => Ok InvalidTarget
  | 6 => Ok AuthFailed
  | 7 => Ok PolicyDenied
  | 8 => Ok ResourceLimit
  | 9 => Ok Protocol
  | 10 => Ok TargetUnavailable
  | 11 => Ok TargetTimeout
  | _ => Err (InvalidErrorPayload "unknown error code")
  end.

(* @src crates/uk-proto/src/status.rs 76-87 ErrorPayload *)
Record ErrorPayload : Set := { code : ErrorCode }.

(* @src crates/uk-proto/src/status.rs 89-92 ErrorPayload::encode *)
Definition error_encode (p : ErrorPayload) : ProtocolResult Bytes :=
  Varint.encode (error_code_u64 (code p)).

(* @src crates/uk-proto/src/status.rs 94-103 ErrorPayload::decode *)
Definition error_decode (src : Bytes) : ProtocolResult ErrorPayload :=
  let? '(v, src) := Varint.decode src in
  let? c := error_code_try_from v in
  check bool_decide (src = []) else InvalidErrorPayload "trailing error payload bytes" in
  Ok {| code := c |}.
End Status.

Module Datagram.
(* @src crates/uk-proto/src/datagram.rs 22-27 overhead *)
Definition overhead (flow_id : Z) : ProtocolResult Z := Varint.encoded_len flow_id.

(* @src crates/uk-proto/src/datagram.rs 29-34 encode *)
Definition encode (flow_id : Z) (payload : Bytes) : ProtocolResult Bytes :=
  let? f := Varint.encode flow_id in Ok (f ++ payload).

(* @src crates/uk-proto/src/datagram.rs 36-44 decode *)
Definition decode (datagram : Bytes) : ProtocolResult (Z * Bytes) :=
  let? '(flow_id, payload) := Varint.decode datagram in Ok (flow_id, payload).
End Datagram.

(** ** Codec laws *)

(** A two-byte close payload: one lemma for both relay protocols. *)
Section Close.
Context (trailing unknown : ProtocolError).

Definition close_enc (c : Z) : ProtocolResult Bytes :=
  let? _ := (check is_valid_close_code c else unknown in Ok tt) in Ok (be_encode 2 c).

Definition close_dec (src : Bytes) : ProtocolResult Z :=
  if zlen src <? 2 then Err Truncated else
  if 2 <? zlen src then Err trailing else
  let? '(c, src) := get_uint 2 src in
  let? _ := (check is_valid_close_code c else unknown in Ok tt) in Ok c.

Lemma valid_close_code_u16 c : is_valid_close_code c = true → is_u16 c.
Proof. unfold is_valid_close_code. by repeat case_match. Qed.

Lemma close_payload : PayloadCodec is_u16 close_enc close_dec.
Proof.
  split.
  - intros s Hs. unfold close_dec. intros H. res_inv.
    match goal with H : get_uint _ _ = Panic |- _ => apply get_uint_Panic in H end.
    bool_to_prop. lia.
  - intros c bs Hc. unfold close_enc, close_dec. intros H. res_inv.
    rewrite length_be_encode. simpl. rewrite <- (app_nil_r (be_encode 2 c)).
    rewrite get_uint_encode by done. simpl. by case_match.
  - intros s c Hs. unfold close_enc, close_dec.
    destruct (_ <? 2); [done|]. destruct (2 <? _) eqn:Hlen; [done|]. bool_to_prop.
    intros ([c' r] & [-> Hc]%get_uint_encode_inv & H)%rbind_Ok; [|done].
    destruct (is_valid_close_code c') eqn:Hv; simplify_eq/=. rewrite Hv.
    rewrite length_app, length_be_encode in Hlen. split; [done|].
    destruct r; simpl in *; [by rewrite app_nil_r|lia].
Qed.
End Close.

(** Codecs transport along a one-field record. *)
Lemma payload_iso {E A B} (f : A → B) (g : B → A) (wf : A → Prop)
    (enc : A → result E Bytes) (dec : Bytes → result E A) enc' dec' :
  (∀ a, g (f a) = a) → (∀ b, f (g b) = b) →
  (∀ b, enc' b = enc (g b)) →
  (∀ s, dec' s = let? a := dec s in Ok (f a)) →
  PayloadCodec wf enc dec → PayloadCodec (λ b, wf (g b)) enc' dec'.
Proof.
  intros Hgf Hfg He Hd Hc. split.
  - intros s Hs. rewrite Hd. intros [H|(a & _ & ?)]%rbind_Panic; [|done].
    exact (pl_total _ Hs H).
  - intros b bs Hb. rewrite He, Hd. intros H. rewrite (pl_roundtrip _ _ Hb H). simpl. congruence.
  - intros s b Hs. rewrite He, Hd. intros (a & H & ?)%rbind_Ok. simplify_eq.
    rewrite Hgf. by apply pl_canonical.
Qed.

#[global] Instance tcp_close_codec :
  PayloadCodec (λ c, is_u16 (Tcp.close_code c)) Tcp.close_encode Tcp.close_decode.
Proof.
  eapply (payload_iso Tcp.Build_TcpClose Tcp.close_code is_u16); [done|by intros []|..|apply close_payload].
  - done.
  - intros s. unfold Tcp.close_decode, close_dec, Tcp.validate_close_code.
    do 2 (case_match; [done|]). destruct (get_uint 2 s) as [[c r]|?|]; simpl; [|done..].
    by case_match.
Qed.

#[global] Instance udp_close_codec :
  PayloadCodec (λ c, is_u16 (Udp.close_code c)) Udp.close_encode Udp.close_decode.
Proof.
  eapply (payload_iso Udp.Build_UdpClose Udp.close_code is_u16); [done|by intros []|..|apply close_payload].
  - done.
  - intros s. unfold Udp.close_decode, close_dec, Udp.validate_close_code.
    do 2 (case_match; [done|]). destruct (get_uint 2 s) as [[c r]|?|]; simpl; [|done..].
    by case_match.
Qed.

Lemma validate_open_flags_Ok fl u : Tcp.validate_open_flags fl = Ok u ↔ fl = 0.
Proof.
  unfold Tcp.validate_open_flags, Tcp.TCP_OPEN_FLAGS_NONE. destruct u, (fl =? 0) eqn:?;
    bool_to_prop; naive_solver.
Qed.

#[global] Instance tcp_open_codec {P : Platform} :
  PayloadCodec (λ o, target_wf (Tcp.target o) ∧ is_u16 (Tcp.open_flags o))
    Tcp.open_encode Tcp.open_decode.
Proof.
  split.
  - intros s Hs. unfold Tcp.open_decode. intros H.
    apply rbind_Panic in H as [H|([t r] & Ht & H)]; [exact (sd_total _ Hs H)|].
    destruct (_ <? _) eqn:?; [done|]. bool_to_prop.
    apply rbind_Panic in H as [H%get_uint_Panic|([fl r'] & Hfl & H)]; [lia|].
    unfold Tcp.validate_open_flags in H. by repeat case_match.
  - intros [t fl] bs [Ht Hfl]. unfold Tcp.open_encode, Tcp.open_decode. simpl in *.
    intros (u & Hu & H)%rbind_Ok. apply rbind_Ok in H as (tb & Htb & H). simplify_eq.
    rewrite (pc_roundtrip t tb _ Ht Htb). simpl. rewrite length_be_encode. simpl.
    rewrite <- (app_nil_r (be_encode 2 fl)), get_uint_encode by done. simpl.
    by rewrite Hu.
  - intros s [t fl] Hs. unfold Tcp.open_encode, Tcp.open_decode. simpl in *.
    intros ([t' r] & Ht & H)%rbind_Ok. destruct (_ <? _); [done|].
    apply pc_canonical in Ht as (Hwf & tb & Htb & ->); [|done].
    apply Forall_app in Hs as [_ Hr].
    apply rbind_Ok in H as ([fl' r'] & [-> Hfl]%get_uint_encode_inv & H); [|done].
    apply rbind_Ok in H as (u & Hu & H). case_bool_decide; simplify_eq.
    rewrite Hu, Htb. simpl. rewrite app_nil_r. done.
Qed.

#[global] Instance udp_open_codec {P : Platform} :
  PayloadCodec (λ o, target_wf (Udp.target o)) Udp.open_encode Udp.open_decode.
Proof.
  eapply (payload_iso Udp.Build_UdpOpen Udp.target target_wf);
    [done|by intros []|..|apply (pc_payload (InvalidUdpPayload "trailing udp open bytes"))].
  - done.
  - intros s. unfold Udp.open_decode. destruct (Target.decode s) as [[t r]|?|]; simpl; [|done..].
    by case_bool_decide.
Qed.

Lemma error_code_u64_bound c : 1 ≤ Status.error_code_u64 c ≤ 11.
Proof. by destruct c. Qed.

Lemma error_code_roundtrip c :
  Status.error_code_try_from (Status.error_code_u64 c) = Ok c.
Proof. by destruct c. Qed.

Lemma error_code_try_from_Ok v c :
  Status.error_code_try_from v = Ok c → v = Status.error_code_u64 c.
Proof. unfold Status.error_code_try_from. intros H. by res_inv. Qed.

#[global] Instance error_codec :
  PayloadCodec (λ _, True) Status.error_encode Status.error_decode.
Proof.
  split.
  - intros s Hs. unfold Status.error_decode, Status.error_code_try_from. intros H.
    apply rbind_Panic in H as [H|([v r] & _ & H)]; [exact (sd_total _ Hs H)|].
    by res_inv.
  - intros [c] bs _. unfold Status.error_encode, Status.error_decode. simpl. intros Hb.
    pose proof (pc_roundtrip (wf := is_u64) _ bs [] (Varint.encode_Ok_u64 _ _ Hb) Hb) as H.
    rewrite app_nil_r in H. rewrite H. simpl. by rewrite error_code_roundtrip.
  - intros s [c] Hs. unfold Status.error_encode, Status.error_decode.
    intros ([v r] & Hv & H)%rbind_Ok. apply rbind_Ok in H as (c' & Hc & H).
    case_bool_decide; simplify_eq/=. apply error_code_try_from_Ok in Hc as ->.
    apply pc_canonical in Hv as (_ & bs & Hb & ->); [|done]. by rewrite app_nil_r.
Qed.

(** ** Sizes *)

Lemma length_target_encode {P : Platform} t bs :
  Target.encode t = Ok bs → zlen bs ≤ 260.
Proof.
  intros (Hv & l & Hl & ->)%encode_Ok. pose proof (valid_length t Hv) as Hb.
  apply bad_length_None in Hb; [|lia|apply addr_type_known].
  rewrite !length_app, length_be_encode. simpl.
  assert (zlen l ≤ 2); [|lia].
  apply Varint.length_encode in Hl. destruct (decide (zlen (host_bytes t) < 64)).
  - rewrite Varint.encoded_len_small in Hl by lia. simplify_eq. lia.
  - rewrite Varint.encoded_len_medium in Hl by lia. simplify_eq. lia.
Qed.

(** A domain of the maximal length: 255 bytes in labels of 63. *)
Definition longest_domain : Bytes :=
  let l := replicate 63 0x61 in
  l ++ [0x2e] ++ l ++ [0x2e] ++ l ++ [0x2e] ++ l.

(** ** Properties *)

(** The decoders of [TCP_OPEN], [TCP_CLOSE], [UDP_OPEN], [UDP_CLOSE] and of
    the error payloads accept a payload exactly when it is the encoding of the
    value they return: nothing an encoder writes is misread, and no payload has
    a second spelling, trailing bytes or an undefined flag or close code. *)
Theorem relay_payload_decode_iff_encode {P : Platform} s :
  bytes_ok s →
  (∀ o, Tcp.open_decode s = Ok o ↔
     (target_wf (Tcp.target o) ∧ is_u16 (Tcp.open_flags o)) ∧ Tcp.open_encode o = Ok s) ∧
  (∀ c, Tcp.close_decode s = Ok c ↔ is_u16 (Tcp.close_code c) ∧ Tcp.close_encode c = Ok s) ∧
  (∀ o, Udp.open_decode s = Ok o ↔ target_wf (Udp.target o) ∧ Udp.open_encode o = Ok s) ∧
  (∀ c, Udp.close_decode s = Ok c ↔ is_u16 (Udp.close_code c) ∧ Udp.close_encode c = Ok s) ∧
  (∀ e, Status.error_decode s = Ok e ↔ True ∧ Status.error_encode e = Ok s).
Proof.
  intros Hs. split_and!; intros x.
  - exact (@pl_iff _ _ _ _ _ tcp_open_codec s x Hs).
  - exact (@pl_iff _ _ _ _ _ tcp_close_codec s x Hs).
  - exact (@pl_iff _ _ _ _ _ udp_open_codec s x Hs).
  - exact (@pl_iff _ _ _ _ _ udp_close_codec s x Hs).
  - exact (@pl_iff _ _ _ _ _ error_codec s x Hs).
Qed.

(** [MIN_TCP_RELAY_FRAME_SIZE] is exactly enough: every relay control or
    error payload that can be encoded at all fits it, and some valid
    [TCP_OPEN] needs all of it. *)
Theorem min_relay_frame_size_exact {P : Platform} :
  (∀ o bs, Tcp.open_encode o = Ok bs → zlen bs ≤ Tcp.MIN_TCP_RELAY_FRAME_SIZE) ∧
  (∀ c bs, Tcp.close_encode c = Ok bs → zlen bs ≤ Tcp.MIN_TCP_RELAY_FRAME_SIZE) ∧
  (∀ o bs, Udp.open_encode o = Ok bs → zlen bs ≤ Tcp.MIN_TCP_RELAY_FRAME_SIZE) ∧
  (∀ c bs, Udp.close_encode c = Ok bs → zlen bs ≤ Tcp.MIN_TCP_RELAY_FRAME_SIZE) ∧
  (∀ e bs, Status.error_encode e = Ok bs → zlen bs ≤ Tcp.MIN_TCP_RELAY_FRAME_SIZE) ∧
  (∃ o bs, Tcp.open_encode o = Ok bs ∧ zlen bs = Tcp.MIN_TCP_RELAY_FRAME_SIZE).
Proof.
  unfold Tcp.MIN_TCP_RELAY_FRAME_SIZE. split_and!.
  - intros o bs. unfold Tcp.open_encode. intros (u & _ & H)%rbind_Ok.
    apply rbind_Ok in H as (tb & Ht & H). simplify_eq.
    apply length_target_encode in Ht. rewrite length_app, length_be_encode. lia.
  - unfold Tcp.close_encode. intros c bs (u & _ & H)%rbind_Ok. simplify_eq.
    rewrite length_be_encode. lia.
  - intros o bs H%length_target_encode. lia.
  - unfold Udp.close_encode. intros c bs (u & _ & H)%rbind_Ok. simplify_eq.
    rewrite length_be_encode. lia.
  - intros e bs H%Varint.length_encode_bound. lia.
  - exists {| Tcp.target := Target.Domain longest_domain 443; Tcp.open_flags := 0 |}.
    eexists. split; [vm_compute; reflexivity|reflexivity].
Qed.

(** A relayed datagram decodes to a flow id and payload exactly when it is
    their encoding, and the framing costs [overhead flow_id] bytes, at most
    eight. *)
Theorem datagram_decode_iff_encode d flow_id payload :
  bytes_ok d →
  (Datagram.decode d = Ok (flow_id, payload) ↔
     is_u64 flow_id ∧ Datagram.encode flow_id payload = Ok d) ∧
  (Datagram.encode flow_id payload = Ok d →
     Datagram.overhead flow_id = Ok (zlen d - zlen payload) ∧ zlen d - zlen payload ≤ 8).
Proof.
  intros Hd. unfold Datagram.decode, Datagram.encode, Datagram.overhead. split.
  - rewrite !rbind_Ok. split.
    + intros ([f p] & H & ?). simplify_eq. apply pc_iff in H as (? & fb & ? & ->); [|done].
      naive_solver.
    + intros (Hf & fb & Hb & ?). simplify_eq. exists (flow_id, payload). split; [|done].
      exact (pc_roundtrip flow_id fb payload Hf Hb).
  - intros (fb & Hb & ?)%rbind_Ok. simplify_eq. rewrite length_app.
    replace (_ - _) with (zlen fb) by lia. split; [by apply Varint.length_encode|].
    apply Varint.length_encode_bound in Hb. lia.
Qed.

(** The client-initiated flow ids are exactly
    [FIRST_CLIENT_FLOW_ID + k * FLOW_ID_STEP] up to [MAX_VARINT], the
    server-initiated ones are disjoint from them, and every non-zero id a frame
    header can carry is one or the other. *)
Theorem flow_id_parity i :
  0 ≤ i ≤ Varint.MAX_VARINT →
  (Flow.is_client_initiated_flow_id i = true ↔
     ∃ k, 0 ≤ k ∧ i = Flow.FIRST_CLIENT_FLOW_ID + k * Flow.FLOW_ID_STEP) ∧
  (i ≠ 0 → Flow.is_server_initiated_flow_id i = negb (Flow.is_client_initiated_flow_id i)) ∧
  Flow.is_client_initiated_flow_id 0 = false ∧ Flow.is_server_initiated_flow_id 0 = false.
Proof.
  intros [H0 Hm].
  unfold Flow.is_client_initiated_flow_id, Flow.is_server_initiated_flow_id,
    Flow.FIRST_CLIENT_FLOW_ID, Flow.FLOW_ID_STEP. rewrite (proj2 (Z.leb_le _ _) Hm).
  pose proof (Z.mod_pos_bound i 2). pose proof (Z.div_mod i 2). split_and!; [split|..].
  - intros Hc. bool_to_prop. exists (i / 2). lia.
  - intros (k & Hk & ->). rewrite !andb_true_iff, negb_true_iff, Z.eqb_neq, Z.eqb_eq.
    rewrite Z.mod_add by done. split; [split|]; [lia|done|done].
  - intros Hi. rewrite (proj2 (Z.eqb_neq i 0)) by done. simpl.
    destruct (decide (i mod 2 = 0)) as [-> | Hne]; [done|].
    assert (i mod 2 = 1) as -> by lia. done.
  - done.
  - done.
Qed.

