(* ===== verification/Settings.v ===== *)
(** * Settings: the SETTINGS payload and its negotiation (crates/uk-proto/src/settings.rs)

    The ordered map of known settings is a [gmap]; iteration follows the order
    of the enum's discriminants, which is what [BTreeMap] does.  The decoding
    loop runs on fuel: one unit per setting read, and each setting consumes at
    least two bytes, so the length of the payload is enough
    ([decode_loop_total]). *)

From S2P Require Import Prelude Wire Varint FrameCodec RelayPayload.

Module Settings.
(* @src crates/uk-proto/src/settings.rs 14-15 DEFAULT_MAX_STREAMS *)
Definition DEFAULT_MAX_STREAMS : Z := 64.
(* @src crates/uk-proto/src/settings.rs 17-24 MAX_NEGOTIATED_FLOWS *)
Definition MAX_NEGOTIATED_FLOWS : Z := 1000000.
(* @src crates/uk-proto/src/settings.rs 26-30 MAX_NEGOTIATED_IDLE_TIMEOUT_SECONDS *)
Definition MAX_NEGOTIATED_IDLE_TIMEOUT_SECONDS : Z := 30 * 24 * 60 * 60.
(* @src crates/uk-proto/src/settings.rs 32-36 PROTOCOL_REVISION_V1_0 *)
Definition PROTOCOL_REVISION_V1_0 : Z := 2.

(* @src crates/uk-proto/src/settings.rs 38-56 SettingKey *)
Inductive SettingKey : Set :=
  | MaxFrameSize | MaxStreams | MaxUdpFlows | SupportsUdpDatagram
  | SupportsUdpStreamFallback | IdleTimeoutSeconds | ProtocolRevision.

#[global] Instance SettingKey_eq_dec : EqDecision SettingKey.
Proof. solve_decision. Defined.

(** [key as u64]. *)
(* @src crates/uk-proto/src/settings.rs 40-56 SettingKey *)
Definition setting_key_u64 (k : SettingKey) : Z :=
  match k with
  | MaxFrameSize => 1 | MaxStreams => 2 | MaxUdpFlows => 3 | SupportsUdpDatagram => 4
  | SupportsUdpStreamFallback => 5 | IdleTimeoutSeconds => 6 | ProtocolRevision => 7
  end.

(* @src crates/uk-proto/src/settings.rs 58-73 SettingKey::try_from *)
Definition setting_key_try_from (value : Z) : ProtocolResult SettingKey :=
  match value with
  | 1 => Ok MaxFrameSize
  | 2 => Ok MaxStreams
  | 3 => Ok MaxUdpFlows
  | 4 => Ok SupportsUdpDatagram
  | 5 => Ok SupportsUdpStreamFallback
  | 6 => Ok IdleTimeoutSeconds
  | 7 => Ok ProtocolRevision
  | _ => Err (InvalidSettings "unknown setting key")
  end.

Definition key_of (value : Z) : option SettingKey :=
  match setting_key_try_from value with Ok k => Some k | _ => None end.

Lemma key_of_u64 k : key_of (setting_key_u64 k) = Some k.
Proof. by destruct k. Qed.

#[global] Instance SettingKey_countable : Countable SettingKey :=
  inj_countable setting_key_u64 key_of key_of_u64.

(** The derived order of the enum. *)
Definition ALL_KEYS : list SettingKey :=
  [MaxFrameSize; MaxStreams; MaxUdpFlows; SupportsUdpDatagram;
   SupportsUdpStreamFallback; IdleTimeoutSeconds; ProtocolRevision].

(* @src crates/uk-proto/src/settings.rs 75-79 Settings *)
Record Settings : Set := { values : gmap SettingKey Z }.

(* @src crates/uk-proto/src/settings.rs 81-96 NegotiatedSettings *)
Record NegotiatedSettings : Set := {
  max_frame_size : Z;
  max_streams : Z;
  max_udp_flows : Z;
  supports_udp_datagram : bool;
  supports_udp_stream_fallback : bool;
  idle_timeout_seconds : Z
}.

(* @src crates/uk-proto/src/settings.rs 99-104 NegotiatedSettings::frame_limits *)
Definition frame_limits (n : NegotiatedSettings) : Frame.FrameLimits :=
  {| Frame.max_frame_size := max_frame_size n |}.

(* @src crates/uk-proto/src/settings.rs 106-109 NegotiatedSettings::udp_stream_fallback_enabled *)
Definition udp_stream_fallback_enabled (n : NegotiatedSettings) : bool :=
  supports_udp_stream_fallback n && negb (max_udp_flows n =? 0).

Definition Settings_default : Settings := {| values := ∅ |}.

(* @src crates/uk-proto/src/settings.rs 113-116 Settings::set *)
Definition set (s : Settings) (key : SettingKey) (value : Z) : Settings :=
  {| values := <[key := value]> (values s) |}.

(* @src crates/uk-proto/src/settings.rs 118-121 Settings::get *)
Definition get (s : Settings) (key : SettingKey) : option Z := values s !! key.

(** Iteration over the [BTreeMap]. *)
Definition entries (s : Settings) : list (SettingKey * Z) :=
  omap (λ k, (λ v, (k, v)) <$> values s !! k) ALL_KEYS.

(** The loop of [Settings::encode], on keys as numbers. *)
(* @src crates/uk-proto/src/settings.rs 126-129 Settings::encode *)
Fixpoint encode_entries (l : list (Z * Z)) : ProtocolResult Bytes :=
  match l with
  | [] => Ok []
  | (key, value) :: l' =>
    let? k := Varint.encode key in
    let? v := Varint.encode value in
    let? r := encode_entries l' in
    Ok (k ++ v ++ r)
  end.

(* @src crates/uk-proto/src/settings.rs 123-131 Settings::encode *)
Definition encode (s : Settings) : ProtocolResult Bytes :=
  let? c := Varint.encode (Z.of_nat (size (values s))) in
  let? es := encode_entries ((λ '(k, v), (setting_key_u64 k, v)) <$> entries s) in
  Ok (c ++ es).

(* @src crates/uk-proto/src/settings.rs 138-147 Settings::decode *)
Fixpoint decode_loop (fuel : nat) (count : Z) (s : Settings) (src : Bytes)
    : ProtocolResult (Settings * Bytes) :=
  if count <=? 0 then Ok (s, src) else
  match fuel with
  | O => Panic
  | S fuel' =>
    let? '(key, src) := Varint.decode src in
    let? '(value, src) := Varint.decode src in
    match setting_key_try_from key with
    | Ok key =>
      if bool_decide (is_Some (get s key))
      then Err (InvalidSettings "duplicate setting key")
      else decode_loop fuel' (count - 1) (set s key value) src
    | _ => decode_loop fuel' (count - 1) s src
    end
  end.

(* @src crates/uk-proto/src/settings.rs 133-152 Settings::decode *)
Definition decode {P : Platform} (src : Bytes) : ProtocolResult Settings :=
  let? '(count, src) := Varint.decode src in
  let? count := ok_or InvalidVarint (usize_try_from count) in
  let? '(s, src) := decode_loop (S (length src)) count Settings_default src in
  check bool_decide (src = []) else InvalidSettings "trailing settings bytes" in
  Ok s.

(* @src crates/uk-proto/src/settings.rs 243-253 reject_zero_setting *)
Definition reject_zero_setting (s : Settings) (key : SettingKey) (name : string)
    : ProtocolResult unit :=
  if bool_decide (get s key = Some 0) then Err (InvalidSettings name) else Ok tt.

Definition is_some_and (f : Z → bool) (o : option Z) : bool :=
  match o with Some v => f v | None => false end.

(* @src crates/uk-proto/src/settings.rs 255-265 reject_boolean_setting *)
Definition reject_boolean_setting (s : Settings) (key : SettingKey) (name : string)
    : ProtocolResult unit :=
  if is_some_and (λ value, 1 <? value) (get s key) then Err (InvalidSettings name) else Ok tt.

(* @src crates/uk-proto/src/settings.rs 267-278 reject_small_setting *)
Definition reject_small_setting (s : Settings) (key : SettingKey) (name : string) (minimum : Z)
    : ProtocolResult unit :=
  if is_some_and (λ value, value <? minimum) (get s key)
  then Err (InvalidSettings name) else Ok tt.

(* @src crates/uk-proto/src/settings.rs 280-291 reject_large_setting *)
Definition reject_large_setting (s : Settings) (key : SettingKey) (name : string) (maximum : Z)
    : ProtocolResult unit :=
  if is_some_and (λ value, maximum <? value) (get s key)
  then Err (InvalidSettings name) else Ok tt.

(* @src crates/uk-proto/src/settings.rs 154-240 Settings::negotiated_v1_0 *)
Definition negotiated_v1_0 (s : Settings) : ProtocolResult NegotiatedSettings :=
  let? revision := ok_or (InvalidSettings "missing protocol revision") (get s ProtocolRevision) in
  if negb (revision =? PROTOCOL_REVISION_V1_0)
  then Err (InvalidSettings "unsupported protocol revision") else
  let? _ := reject_zero_setting s MaxFrameSize "max_frame_size" in
  let? _ := reject_zero_setting s MaxStreams "max_streams" in
  let? _ := reject_boolean_setting s SupportsUdpDatagram "supports_udp_datagram" in
  let? _ := reject_boolean_setting s SupportsUdpStreamFallback "supports_udp_stream_fallback" in
  let? _ := reject_small_setting s MaxFrameSize "max_frame_size" Tcp.MIN_TCP_RELAY_FRAME_SIZE in
  let? _ := reject_large_setting s MaxFrameSize "max_frame_size" Frame.MAX_FRAME_PAYLOAD_SIZE in
  let? _ := reject_large_setting s MaxStreams "max_streams" MAX_NEGOTIATED_FLOWS in
  let? _ := reject_large_setting s MaxUdpFlows "max_udp_flows" MAX_NEGOTIATED_FLOWS in
  let? _ := reject_large_setting s IdleTimeoutSeconds "idle_timeout_seconds"
              MAX_NEGOTIATED_IDLE_TIMEOUT_SECONDS in
  let max_frame_size := default Frame.DEFAULT_MAX_FRAME_SIZE (get s MaxFrameSize) in
  let max_streams := default DEFAULT_MAX_STREAMS (get s MaxStreams) in
  let max_udp_flows := default max_streams (get s MaxUdpFlows) in
  if max_streams <? max_udp_flows
  then Err (InvalidSettings "max_udp_flows exceeds max_streams") else
  Ok {| max_frame_size := max_frame_size;
        max_streams := max_streams;
        max_udp_flows := max_udp_flows;
        supports_udp_datagram := negb (default 0 (get s SupportsUdpDatagram) =? 0);
        supports_udp_stream_fallback := negb (default 1 (get s SupportsUdpStreamFallback) =? 0);
        idle_timeout_seconds := default 0 (get s IdleTimeoutSeconds) |}.

(** ** Lemmas *)

(** The settings a list of raw pairs carries: the known keys among them. *)
Definition known (l : list (Z * Z)) : list (SettingKey * Z) :=
  omap (λ '(k, v), (λ k', (k', v)) <$> key_of k) l.

(** The wire form of a list of raw pairs. *)
Definition wire_settings (l : list (Z * Z)) : ProtocolResult Bytes :=
  let? c := Varint.encode (zlen l) in
  let? es := encode_entries l in
  Ok (c ++ es).

Fixpoint collect (l : list (Z * Z)) (s : Settings) : ProtocolResult Settings :=
  match l with
  | [] => Ok s
  | (k, v) :: l' =>
    match key_of k with
    | Some key =>
      if bool_decide (is_Some (get s key))
      then Err (InvalidSettings "duplicate setting key")
      else collect l' (set s key v)
    | None => collect l' s
    end
  end.

Lemma collect_Ok l s s' :
  collect l s = Ok s' ↔
  NoDup (known l).*1 ∧ (∀ k, k ∈ (known l).*1 → get s k = None) ∧
  values s' = list_to_map (known l) ∪ values s.
Proof.
  revert s. induction l as [|[k v] l IH]; intros s; simpl.
  { rewrite (left_id_L ∅ (∪)). split.
    - intros [= ->]. split_and!; [constructor|set_solver|done].
    - intros (_ & _ & H). destruct s, s'. simpl in *. by subst. }
  destruct (key_of k) as [key|]; simpl; [|apply IH].
  rewrite NoDup_cons. case_bool_decide as Hk.
  { split; [done|]. intros (_ & Hn & _). destruct Hk as [? Hk].
    rewrite Hn in Hk; set_solver. }
  rewrite <- eq_None_not_Some in Hk. rewrite IH. unfold get, set in *. simpl.
  split.
  - intros (Hnd & Hn & ->). split_and!; [|done|..].
    + intros Hin%Hn. by rewrite lookup_insert_eq in Hin.
    + intros k' [->|Hin]%elem_of_cons; [done|]. apply Hn in Hin.
      by apply lookup_insert_None in Hin as [? ?].
    + rewrite <- insert_union_r, insert_union_l; [done|].
      apply not_elem_of_list_to_map_1. intros Hin%Hn. by rewrite lookup_insert_eq in Hin.
  - intros ((Hni & Hnd) & Hn & ->). split_and!; [done|..].
    + intros k' Hin. rewrite lookup_insert_ne by (by intros ->). set_solver.
    + rewrite <- insert_union_r, insert_union_l; [done|].
      by apply not_elem_of_list_to_map_1.
Qed.

Lemma setting_key_try_from_key_of {A} k (f : SettingKey → A) (g : A) :
  match setting_key_try_from k with Ok k' => f k' | _ => g end =
  match key_of k with Some k' => f k' | None => g end.
Proof. unfold key_of. by destruct (setting_key_try_from k). Qed.

(** Reading back written pairs. *)
Lemma decode_loop_entries l es fuel s r :
  encode_entries l = Ok es → (length l ≤ fuel)%nat →
  decode_loop fuel (zlen l) s (es ++ r) = let? s' := collect l s in Ok (s', r).
Proof.
  revert es fuel s. induction l as [|[k v] l IH]; intros es fuel s; simpl encode_entries.
  { intros [= <-] _. by destruct fuel. }
  intros H Hf. destruct fuel as [|fuel]; simpl in Hf; [lia|].
  apply rbind_Ok in H as (kb & Hk & H). apply rbind_Ok in H as (vb & Hv & H).
  apply rbind_Ok in H as (rb & Hr & H). simplify_eq.
  cbn [decode_loop]. rewrite (proj2 (Z.leb_gt _ _)) by (simpl; lia).
  rewrite <- !app_assoc.
  rewrite (pc_roundtrip (wf := is_u64) k kb _ (Varint.encode_Ok_u64 _ _ Hk) Hk). simpl rbind.
  rewrite (pc_roundtrip (wf := is_u64) v vb _ (Varint.encode_Ok_u64 _ _ Hv) Hv). simpl rbind.
  replace (Z.of_nat (S (length l)) - 1) with (zlen l) by lia.
  rewrite setting_key_try_from_key_of. simpl collect.
  destruct (key_of k) as [key|]; [case_bool_decide; [done|]|]; apply IH; try done; lia.
Qed.

Lemma decode_loop_whole l es fuel s :
  encode_entries l = Ok es → (length l ≤ fuel)%nat →
  decode_loop fuel (zlen l) s es = let? s' := collect l s in Ok (s', []).
Proof.
  intros Hes Hf. pose proof (decode_loop_entries l es fuel s [] Hes Hf) as H.
  by rewrite app_nil_r in H.
Qed.

Lemma decode_loop_inv fuel count s src s' r :
  bytes_ok src → 0 ≤ count → decode_loop fuel count s src = Ok (s', r) →
  ∃ l es, zlen l = count ∧ encode_entries l = Ok es ∧ src = es ++ r ∧ collect l s = Ok s'.
Proof.
  revert count s src. induction fuel as [|fuel IH]; intros count s src Hs H0; simpl.
  { destruct (_ <=? _) eqn:?; [|done]. intros ?. bool_to_prop. simplify_eq.
    exists [], []. split_and!; [simpl; lia|done..]. }
  destruct (_ <=? _) eqn:?; bool_to_prop.
  { intros ?. simplify_eq. exists [], []. split_and!; [simpl; lia|done..]. }
  intros ([k r1] & Hk & H)%rbind_Ok. apply rbind_Ok in H as ([v r2] & Hv & H).
  destruct (Varint.decode_shrinks _ _ _ Hs Hk) as [_ Hr1].
  destruct (Varint.decode_shrinks _ _ _ Hr1 Hv) as [_ Hr2].
  apply pc_canonical in Hk as (_ & kb & Hkb & ->); [|done].
  apply pc_canonical in Hv as (_ & vb & Hvb & ->); [|done].
  rewrite setting_key_try_from_key_of in H.
  assert (∃ s1, decode_loop fuel (count - 1) s1 r2 = Ok (s', r) ∧
    (∀ l, collect l s1 = Ok s' → collect ((k, v) :: l) s = Ok s')) as (s1 & H1 & Hc).
  { simpl. destruct (key_of k) as [key|]; [case_bool_decide; [done|]|]; eauto. }
  apply IH in H1 as (l & es & Hl & Hes & -> & Hcol); [|done|lia].
  exists ((k, v) :: l), (kb ++ vb ++ es). split_and!.
  - simpl. lia.
  - simpl. rewrite Hkb, Hvb, Hes. done.
  - by rewrite <- !app_assoc.
  - by apply Hc.
Qed.

(** One unit of fuel per byte of payload is enough. *)
Lemma decode_loop_total fuel count s src :
  bytes_ok src → (length src < fuel)%nat → decode_loop fuel count s src ≠ Panic.
Proof.
  revert count s src. induction fuel as [|fuel IH]; intros count s src Hs Hf; [lia|].
  simpl. destruct (_ <=? _); [done|].
  intros [H|([k r1] & Hk & H)]%rbind_Panic; [exact (sd_total _ Hs H)|].
  destruct (Varint.decode_shrinks _ _ _ Hs Hk) as [Hl1 Hr1].
  apply rbind_Panic in H as [H|([v r2] & Hv & H)]; [exact (sd_total _ Hr1 H)|].
  destruct (Varint.decode_shrinks _ _ _ Hr1 Hv) as [Hl2 Hr2].
  rewrite setting_key_try_from_key_of in H.
  repeat case_match; try done; eapply IH; try done; lia.
Qed.

Lemma encode_entries_length l es : encode_entries l = Ok es → 2 * zlen l ≤ zlen es.
Proof.
  revert es. induction l as [|[k v] l IH]; intros es; simpl; [intros [= <-]; simpl; lia|].
  intros (kb & Hk & H)%rbind_Ok. apply rbind_Ok in H as (vb & Hv & H).
  apply rbind_Ok in H as (rb & Hr & H). simplify_eq. apply IH in Hr.
  apply Varint.length_encode_bound in Hk, Hv. rewrite !length_app. lia.
Qed.

(** The map and its ordered list of entries. *)
Lemma known_entries es : known ((λ '(k, v), (setting_key_u64 k, v)) <$> es) = es.
Proof.
  induction es as [|[k v] es IH]; [done|]. simpl. rewrite key_of_u64. simpl. by f_equal.
Qed.

Lemma elem_of_entries s k v : (k, v) ∈ entries s ↔ get s k = Some v.
Proof.
  unfold entries, get. rewrite list_elem_of_omap. split.
  - intros (k' & _ & (v' & Hv & ?)%fmap_Some). by simplify_eq.
  - intros Hv. exists k. rewrite Hv. split; [destruct k; set_solver|done].
Qed.

Lemma entries_keys s :
  (entries s).*1 = filter (λ k, is_Some (values s !! k)) ALL_KEYS.
Proof.
  unfold entries. induction ALL_KEYS as [|k ks IH]; [done|]. simpl.
  destruct (values s !! k) as [v|] eqn:Hv; simpl.
  - rewrite filter_cons_True by eauto. f_equal. exact IH.
  - rewrite filter_cons_False by (rewrite Hv; by intros [? ?]). exact IH.
Qed.

Lemma NoDup_entries s : NoDup (entries s).*1.
Proof.
  rewrite entries_keys. apply NoDup_filter.
  by apply (bool_decide_eq_true (NoDup ALL_KEYS)); vm_compute.
Qed.

Lemma list_to_map_entries s : list_to_map (entries s) = values s.
Proof.
  apply map_eq. intros k. apply option_eq. intros v.
  rewrite <- elem_of_list_to_map by apply NoDup_entries. apply elem_of_entries.
Qed.

Lemma length_entries s : length (entries s) = size (values s).
Proof.
  rewrite <- (list_to_map_entries s). rewrite map_size_list_to_map by apply NoDup_entries.
  done.
Qed.

Lemma encode_entries_total l :
  Forall (λ '(k, v), 0 ≤ k ≤ Varint.MAX_VARINT ∧ 0 ≤ v ≤ Varint.MAX_VARINT) l →
  ∃ es, encode_entries l = Ok es.
Proof.
  induction 1 as [|[k v] l [Hk Hv] _ [es IH]]; [by eexists|]. simpl.
  destruct (Varint.encode_total k Hk) as (kb & -> & _).
  destruct (Varint.encode_total v Hv) as (vb & -> & _). simpl. rewrite IH. by eexists.
Qed.

Lemma encode_entries_bytes l es : encode_entries l = Ok es → bytes_ok es.
Proof.
  revert es. induction l as [|[k v] l IH]; intros es; simpl; [intros [= <-]; constructor|].
  intros (kb & Hk & H)%rbind_Ok. apply rbind_Ok in H as (vb & Hv & H).
  apply rbind_Ok in H as (rb & Hr & H). simplify_eq. rewrite !Forall_app. split_and!.
  - exact (pc_bytes _ kb (Varint.encode_Ok_u64 _ _ Hk) Hk).
  - exact (pc_bytes _ vb (Varint.encode_Ok_u64 _ _ Hv) Hv).
  - by apply IH.
Qed.

Lemma encode_wire s : encode s = wire_settings ((λ '(k, v), (setting_key_u64 k, v)) <$> entries s).
Proof. unfold encode, wire_settings. by rewrite length_fmap, length_entries. Qed.

Lemma encode_length s bs : encode s = Ok bs → zlen bs ≤ 120.
Proof.
  assert (∀ l es, encode_entries l = Ok es → zlen es ≤ 16 * zlen l) as Hes.
  { induction l as [|[k v] l IH]; intros es; simpl; [intros [= <-]; simpl; lia|].
    intros (kb & Hk%Varint.length_encode_bound & H)%rbind_Ok.
    apply rbind_Ok in H as (vb & Hv%Varint.length_encode_bound & H).
    apply rbind_Ok in H as (rb & Hr%IH & H). simplify_eq. rewrite !length_app. lia. }
  rewrite encode_wire. unfold wire_settings. intros (cb & Hc%Varint.length_encode_bound & H)%rbind_Ok.
  apply rbind_Ok in H as (es & He%Hes & [= <-]). rewrite length_fmap in He.
  assert (length (entries s) ≤ 7)%nat.
  { rewrite <- (length_fmap fst), entries_keys.
    pose proof (length_filter (λ k, is_Some (values s !! k)) ALL_KEYS). simpl in *. lia. }
  rewrite length_app. lia.
Qed.

(** ** Properties *)

(** A SETTINGS payload is accepted with contents [s] exactly when it is the
    wire form of some list of key-value pairs in which no known key repeats,
    and [s] holds the known keys among them: unknown keys are skipped, a
    duplicate, a truncated or an over-long payload is refused.  Decoding never
    panics or loops, whatever count the payload announces. *)
Theorem settings_decode_iff {P : Platform} src s :
  bytes_ok src → zlen src ≤ USIZE_MAX →
  (decode src = Ok s ↔
     ∃ l, wire_settings l = Ok src ∧ NoDup (known l).*1 ∧ values s = list_to_map (known l)) ∧
  decode src ≠ Panic.
Proof.
  intros Hs Hlen. unfold decode, wire_settings. setoid_rewrite rbind_Ok.
  assert (∀ l : list (Z * Z), collect l Settings_default = Ok s ↔
    NoDup (known l).*1 ∧ values s = list_to_map (known l)) as Hcol.
  { intros l. rewrite collect_Ok. simpl. rewrite (right_id_L ∅ (∪)). naive_solver. }
  split; [split|].
  - intros ([c r] & Hc & H). destruct (Varint.decode_nonneg _ _ _ Hc) as [Hc0 _].
    destruct (Varint.decode_shrinks _ _ _ Hs Hc) as [_ Hr].
    apply pc_canonical in Hc as (_ & cb & Hcb & ->); [|done].
    apply rbind_Ok in H as (n & [-> _]%ok_or_Ok%usize_try_from_Some & H).
    apply rbind_Ok in H as ([s' r'] & H & H'). case_bool_decide; simplify_eq.
    apply decode_loop_inv in H as (l & es & <- & Hes & -> & Hl%Hcol); [|done..].
    exists l. split; [|done]. exists cb. split; [done|]. rewrite Hes. simpl. by rewrite app_nil_r.
  - intros (l & (cb & Hcb & H) & Hl%Hcol). apply rbind_Ok in H as (es & Hes & H). simplify_eq.
    pose proof (encode_entries_length _ _ Hes) as Hel.
    rewrite length_app in Hlen. exists (zlen l, es).
    rewrite (pc_roundtrip (wf := is_u64) _ cb es (Varint.encode_Ok_u64 _ _ Hcb) Hcb).
    split; [done|]. unfold usize_try_from. rewrite decide_True by lia. cbn [rbind ok_or].
    rewrite decode_loop_whole by (done || lia). by rewrite Hl.
  - intros [H|([c r] & Hc & H)]%rbind_Panic; [exact (sd_total _ Hs H)|].
    destruct (Varint.decode_shrinks _ _ _ Hs Hc) as [_ Hr].
    apply rbind_Panic in H as [H|(n & _ & H)]; [by apply ok_or_Panic in H|].
    apply rbind_Panic in H as [H|([s' r'] & _ & H)]; [|by case_bool_decide].
    eapply decode_loop_total; [done| |done]. lia.
Qed.

(** Every settings map with encodable values encodes, and decodes back to
    itself. *)
Theorem settings_roundtrip {P : Platform} s :
  (∀ k v, get s k = Some v → 0 ≤ v ≤ Varint.MAX_VARINT) →
  ∃ bs, encode s = Ok bs ∧ bytes_ok bs ∧ decode bs = Ok s.
Proof.
  intros Hv. set (l := (λ '(k, v), (setting_key_u64 k, v)) <$> entries s).
  assert (length l = size (values s)) as Hl by (unfold l; by rewrite length_fmap, length_entries).
  assert (0 ≤ zlen l ≤ 7) as Hl7.
  { split; [lia|]. rewrite Hl, <- length_entries, <- (length_fmap fst), entries_keys.
    pose proof (length_filter (λ k, is_Some (values s !! k)) ALL_KEYS). simpl in *. lia. }
  destruct (Varint.encode_total (zlen l)) as (cb & Hcb & Hcl).
  { change Varint.MAX_VARINT with 4611686018427387903. lia. }
  destruct (encode_entries_total l) as [es Hes].
  { apply Forall_fmap, Forall_forall. intros [k v] Hin%elem_of_entries. simpl.
    split; [destruct k; done|by eapply Hv]. }
  exists (cb ++ es). split; [|split].
  - rewrite encode_wire. unfold wire_settings. fold l. by rewrite Hcb; simpl; rewrite Hes.
  - apply Forall_app. split; [|by eapply encode_entries_bytes].
    exact (pc_bytes _ cb (Varint.encode_Ok_u64 _ _ Hcb) Hcb).
  - unfold decode. rewrite (pc_roundtrip _ cb es (Varint.encode_Ok_u64 _ _ Hcb) Hcb).
    cbn [rbind]. unfold usize_try_from.
    rewrite decide_True by (destruct USIZE_MAX_cases as [-> | ->]; lia). cbn [rbind ok_or].
    pose proof (encode_entries_length _ _ Hes).
    rewrite decode_loop_whole by (done || lia).
    assert (collect l Settings_default = Ok s) as ->; [|done].
    apply collect_Ok. unfold l. rewrite known_entries, list_to_map_entries. simpl.
    rewrite (right_id_L ∅ (∪)). split_and!; [apply NoDup_entries|done..].
Qed.


(** What a peer may advertise. *)
Definition acceptable (s : Settings) : Prop :=
  get s ProtocolRevision = Some PROTOCOL_REVISION_V1_0 ∧
  (∀ v, get s MaxFrameSize = Some v →
     Tcp.MIN_TCP_RELAY_FRAME_SIZE ≤ v ≤ Frame.MAX_FRAME_PAYLOAD_SIZE) ∧
  (∀ v, get s MaxStreams = Some v → 1 ≤ v ≤ MAX_NEGOTIATED_FLOWS) ∧
  (∀ v, get s MaxUdpFlows = Some v →
     0 ≤ v ≤ default DEFAULT_MAX_STREAMS (get s MaxStreams)) ∧
  (∀ v, get s SupportsUdpDatagram = Some v → 0 ≤ v ≤ 1) ∧
  (∀ v, get s SupportsUdpStreamFallback = Some v → 0 ≤ v ≤ 1) ∧
  (∀ v, get s IdleTimeoutSeconds = Some v → 0 ≤ v ≤ MAX_NEGOTIATED_IDLE_TIMEOUT_SECONDS).

Lemma reject_zero_Ok s k n u : reject_zero_setting s k n = Ok u ↔ get s k ≠ Some 0.
Proof. unfold reject_zero_setting. destruct u. case_bool_decide; naive_solver. Qed.

Lemma is_some_and_false f o : is_some_and f o = false ↔ ∀ v, o = Some v → f v = false.
Proof. destruct o; naive_solver. Qed.

Lemma reject_boolean_Ok s k n u :
  reject_boolean_setting s k n = Ok u ↔ ∀ v, get s k = Some v → v ≤ 1.
Proof.
  unfold reject_boolean_setting. setoid_rewrite <- Z.ltb_ge. rewrite <- is_some_and_false.
  destruct u. case_match; naive_solver.
Qed.

Lemma reject_small_Ok s k n m u :
  reject_small_setting s k n m = Ok u ↔ ∀ v, get s k = Some v → m ≤ v.
Proof.
  unfold reject_small_setting. setoid_rewrite <- Z.ltb_ge. rewrite <- is_some_and_false.
  destruct u. case_match; naive_solver.
Qed.

Lemma reject_large_Ok s k n m u :
  reject_large_setting s k n m = Ok u ↔ ∀ v, get s k = Some v → v ≤ m.
Proof.
  unfold reject_large_setting. setoid_rewrite <- Z.ltb_ge. rewrite <- is_some_and_false.
  destruct u. case_match; naive_solver.
Qed.

Ltac reject_hyps :=
  repeat match goal with
  | H : rbind _ _ = Ok _ |- _ => apply rbind_Ok in H as (? & ? & ?)
  | H : ok_or _ _ = Ok _ |- _ => apply ok_or_Ok in H
  | H : reject_zero_setting _ _ _ = Ok _ |- _ => pose proof (proj1 (reject_zero_Ok _ _ _ _) H); clear H
  | H : reject_boolean_setting _ _ _ = Ok _ |- _ => pose proof (proj1 (reject_boolean_Ok _ _ _ _) H); clear H
  | H : reject_small_setting _ _ _ _ = Ok _ |- _ => pose proof (proj1 (reject_small_Ok _ _ _ _ _) H); clear H
  | H : reject_large_setting _ _ _ _ = Ok _ |- _ => pose proof (proj1 (reject_large_Ok _ _ _ _ _) H); clear H
  | H : (if ?b then Err _ else _) = Ok _ |- _ => destruct b eqn:?; [done|]
  end.

Lemma negotiated_acceptable s n :
  (∀ k v, get s k = Some v → 0 ≤ v) → negotiated_v1_0 s = Ok n → acceptable s.
Proof.
  intros Hpos. unfold negotiated_v1_0. intros H. reject_hyps. bool_to_prop. subst.
  unfold acceptable. split_and!; try done; intros v Hv; pose proof (Hpos _ _ Hv).
  - split; eauto.
  - split; [|eauto]. assert (v ≠ 0) by congruence. lia.
  - rewrite Hv in *. simpl in *. lia.
  - split; eauto.
  - split; eauto.
  - split; eauto.
Qed.

Lemma acceptable_negotiated s : acceptable s → ∃ n, negotiated_v1_0 s = Ok n.
Proof.
  intros (Hr & Hf & Hs & Hu & Hd & Hb & Hi). unfold negotiated_v1_0. rewrite Hr. simpl.
  unfold Tcp.MIN_TCP_RELAY_FRAME_SIZE, Frame.MAX_FRAME_PAYLOAD_SIZE, DEFAULT_MAX_STREAMS,
    MAX_NEGOTIATED_FLOWS in *.
  rewrite !(proj2 (reject_zero_Ok _ _ _ tt)) by (intros H; first [apply Hf in H|apply Hs in H]; lia).
  simpl. rewrite !(proj2 (reject_boolean_Ok _ _ _ tt)) by naive_solver. simpl.
  rewrite (proj2 (reject_small_Ok _ _ _ _ tt)) by naive_solver. simpl.
  assert (∀ v, get s MaxUdpFlows = Some v → v ≤ 1000000).
  { intros v Hv. apply Hu in Hv. destruct (get s MaxStreams) as [m|]; simpl in *; [|lia].
    specialize (Hs m eq_refl). lia. }
  repeat (rewrite (proj2 (reject_large_Ok _ _ _ _ tt)) by naive_solver; simpl).
  rewrite (proj2 (Z.ltb_ge _ _)); [by eexists|].
  destruct (get s MaxUdpFlows); simpl in *; [by apply Hu|lia].
Qed.

Lemma negotiated_values s n :
  negotiated_v1_0 s = Ok n →
  max_frame_size n = default Frame.DEFAULT_MAX_FRAME_SIZE (get s MaxFrameSize) ∧
  max_streams n = default DEFAULT_MAX_STREAMS (get s MaxStreams) ∧
  max_udp_flows n = default (max_streams n) (get s MaxUdpFlows) ∧
  max_udp_flows n ≤ max_streams n ∧
  idle_timeout_seconds n = default 0 (get s IdleTimeoutSeconds).
Proof.
  unfold negotiated_v1_0. intros H. reject_hyps. bool_to_prop. by simplify_eq/=.
Qed.

(** What is negotiated when every setting is advertised. *)
Lemma negotiated_all s f st u d b i :
  get s ProtocolRevision = Some PROTOCOL_REVISION_V1_0 → get s MaxFrameSize = Some f → get s MaxStreams = Some st →
  get s MaxUdpFlows = Some u → get s SupportsUdpDatagram = Some d → get s SupportsUdpStreamFallback = Some b →
  get s IdleTimeoutSeconds = Some i → acceptable s →
  negotiated_v1_0 s =
    Ok {| max_frame_size := f; max_streams := st; max_udp_flows := u; supports_udp_datagram := negb (d =? 0);
          supports_udp_stream_fallback := negb (b =? 0); idle_timeout_seconds := i |}.
Proof.
  intros Hr Hf Hs Hu Hd Hb Hi (n & Hn)%acceptable_negotiated. pose proof Hn as Hn'. unfold negotiated_v1_0 in Hn'.
  rewrite Hn. reject_hyps. rewrite Hf, Hs, Hu, Hd, Hb, Hi in *. by simplify_eq/=.
Qed.

(** Negotiation fails closed: it succeeds exactly on acceptable settings
    (revision 2, every advertised value inside its bound), and then every
    negotiated value is within the limits the relays size their state by,
    whether it was advertised or defaulted; every relay control payload fits
    the negotiated frame size. *)
Theorem negotiation_fails_closed s :
  (∀ k v, get s k = Some v → 0 ≤ v) →
  ((∃ n, negotiated_v1_0 s = Ok n) ↔ acceptable s) ∧
  (∀ n, negotiated_v1_0 s = Ok n →
     Tcp.MIN_TCP_RELAY_FRAME_SIZE ≤ Frame.max_frame_size (frame_limits n)
       ≤ Frame.MAX_FRAME_PAYLOAD_SIZE ∧
     1 ≤ max_streams n ≤ MAX_NEGOTIATED_FLOWS ∧
     0 ≤ max_udp_flows n ≤ max_streams n ∧
     0 ≤ idle_timeout_seconds n ≤ MAX_NEGOTIATED_IDLE_TIMEOUT_SECONDS ∧
     (get s MaxUdpFlows = Some 0 → udp_stream_fallback_enabled n = false)).
Proof.
  intros Hpos. split.
  - split; [|apply acceptable_negotiated]. intros [n Hn]. by eapply negotiated_acceptable.
  - intros n Hn. pose proof (negotiated_acceptable s n Hpos Hn) as (_ & Hf & Hs & Hu & _ & _ & Hi).
    destruct (negotiated_values s n Hn) as (Ef & Es & Eu & Hle & Ei).
    unfold frame_limits, udp_stream_fallback_enabled. simpl.
    unfold Tcp.MIN_TCP_RELAY_FRAME_SIZE, Frame.MAX_FRAME_PAYLOAD_SIZE,
      Frame.DEFAULT_MAX_FRAME_SIZE, DEFAULT_MAX_STREAMS, MAX_NEGOTIATED_FLOWS,
      MAX_NEGOTIATED_IDLE_TIMEOUT_SECONDS in *.
    assert (1 ≤ max_streams n ≤ 1000000).
    { rewrite Es. destruct (get s MaxStreams); simpl; [by apply Hs|lia]. }
    split_and!; try lia.
    + rewrite Ef. destruct (get s MaxFrameSize); simpl; [by apply Hf|lia].
    + rewrite Ef. destruct (get s MaxFrameSize); simpl; [by apply Hf|lia].
    + rewrite Eu. destruct (get s MaxUdpFlows); simpl; [by apply Hu|lia].
    + rewrite Ei. destruct (get s IdleTimeoutSeconds); simpl; [by apply Hi|lia].
    + rewrite Ei. destruct (get s IdleTimeoutSeconds); simpl; [by apply Hi|lia].
    + intros H0. rewrite Eu, H0. simpl. by rewrite andb_false_r.
Qed.

End Settings.
