(* ===== verification/FrameIo.v ===== *)
(** * FrameIo: frames over an asynchronous byte stream (crates/uk-proto/src/io.rs)

    The transport is a script of what its polls return: data of any size, end
    of stream, an error, or nothing yet.  [Pend] is a poll after which the
    caller drops the future, as [tokio::select!] does to a branch that loses
    the race; the theorems quantify over all scripts, so over every chunking
    and every cancellation point.  A script that has run out is pending for
    good.

    The loop of [FrameReader::read_frame] runs on fuel.  Every iteration
    consumes an event or at least one byte of one, so a unit per event and byte
    is enough ([read_frame_spec]). *)

From S2P Require Import Prelude Wire Varint FrameCodec.
Import Frame.

Module FrameIo.

(** [length] is a list's; a header's is [Frame.length]. *)
#[local] Abbreviation length := Datatypes.length.

Inductive ErrorKind : Set := UnexpectedEof | WriteZero | OtherKind (code : Z).

#[global] Instance ErrorKind_eq_dec : EqDecision ErrorKind.
Proof. solve_decision. Defined.

(* @src crates/uk-proto/src/io.rs 17-29 FrameIoError *)
Inductive FrameIoError : Set :=
  | Closed
  | Io (kind : ErrorKind)
  | Protocol (e : ProtocolError).

Abbreviation FrameIoResult := (result FrameIoError).

(* @src crates/uk-proto/src/io.rs 31-37 READ_RESERVE_CHUNK *)
Definition READ_RESERVE_CHUNK : Z := 256 * 1024.
(* @src crates/uk-proto/src/io.rs 39-40 MIN_READ_RESERVE *)
Definition MIN_READ_RESERVE : Z := 64.
(* @src crates/uk-proto/src/io.rs 211-212 MAX_FRAME_HEADER_LEN *)
Definition MAX_FRAME_HEADER_LEN : Z := MAX_ENCODED_LEN.

(** ** The transport *)

Inductive read_event : Set :=
  | Data (chunk : Bytes)
  | Pend
  | Eof
  | ReadErr (kind : ErrorKind).

Inductive poll (A : Type) : Type :=
  | Pending
  | Ready (a : A).
Arguments Pending {A}.
Arguments Ready {A} a.

(** [AsyncRead::poll_read] into a buffer with room for [capacity] bytes. *)
Definition poll_read (capacity : Z) (script : list read_event)
    : poll (result ErrorKind Bytes) * list read_event :=
  match script with
  | [] => (Pending, [])
  | Pend :: s => (Pending, s)
  | Eof :: s => (Ready (Ok []), Eof :: s)
  | ReadErr k :: s => (Ready (Err k), s)
  | Data c :: s =>
    let n := Z.to_nat capacity in
    (Ready (Ok (take n c)), match drop n c with [] => s | c' => Data c' :: s end)
  end.

Section Reader.
Context {P : Platform}.

(* @src crates/uk-proto/src/io.rs 106-111 FrameReader *)
Record FrameReader : Set := {
  reader : list read_event;
  buffer : Bytes;
  limits : FrameLimits
}.

(* @src crates/uk-proto/src/io.rs 114-121 FrameReader::new *)
Definition reader_new (r : list read_event) (l : FrameLimits) : FrameReader :=
  {| reader := r; buffer := []; limits := l |}.

(* @src crates/uk-proto/src/io.rs 163-185 FrameReader::take_buffered_frame *)
Definition take_buffered_frame (st : FrameReader) : FrameIoResult (option Frame * FrameReader) :=
  match header_decode (limits st) (buffer st) with
  | Ok (h, cursor) =>
    let header_len := zlen (buffer st) - zlen cursor in
    let? payload_len := ok_or (Protocol InvalidVarint) (usize_try_from (Frame.length h)) in
    let? total := ok_or (Protocol InvalidVarint) (usize_checked_add header_len payload_len) in
    if zlen (buffer st) <? total then Ok (None, st) else
    let? '(frame, rest) := buf_split total (buffer st) in
    let? '(_, payload) := buf_split header_len frame in
    Ok (Some {| header := h; payload := payload |},
        {| reader := reader st; buffer := rest; limits := limits st |})
  | Err Truncated => Ok (None, st)
  | Err e => Err (Protocol e)
  | Panic => Panic
  end.

(* @src crates/uk-proto/src/io.rs 187-208 FrameReader::reserve_for_pending_frame *)
Definition reserve_for_pending_frame (st : FrameReader) : Z :=
  let wanted :=
    match header_decode (limits st) (buffer st) with
    | Ok (h, cursor) =>
      let header_len := zlen (buffer st) - zlen cursor in
      default READ_RESERVE_CHUNK
        (payload_len ← usize_try_from (Frame.length h);
         total ← usize_checked_add header_len payload_len;
         if total <? zlen (buffer st) then None else Some (total - zlen (buffer st)))
    | _ => 1
    end in
  Z.max MIN_READ_RESERVE (Z.min wanted READ_RESERVE_CHUNK).

(** What a call of [read_frame] comes to: a result, or a dropped future. *)
Inductive outcome (A : Type) : Type :=
  | Done (r : FrameIoResult A)
  | Cancelled.
Arguments Done {A} r.
Arguments Cancelled {A}.

(** [BytesMut::reserve(n)]: the spare capacity of the buffer afterwards, a
    choice of the allocator; documented to be at least [n]. *)
Context (spare : Bytes → Z → Z).

(* @src crates/uk-proto/src/io.rs 128-161 FrameReader::read_frame *)
Fixpoint read_frame (fuel : nat) (st : FrameReader) : outcome Frame * FrameReader :=
  match fuel with
  | O => (Done Panic, st)
  | S fuel' =>
    match take_buffered_frame st with
    | Ok (Some f, st') => (Done (Ok f), st')
    | Err e => (Done (Err e), st)
    | Panic => (Done Panic, st)
    | Ok (None, st) =>
      let '(p, s) := poll_read (spare (buffer st) (reserve_for_pending_frame st)) (reader st) in
      let st' := {| reader := s; buffer := buffer st; limits := limits st |} in
      let at_end := if bool_decide (buffer st = []) then Closed else Protocol Truncated in
      match p with
      | Pending => (Cancelled, st')
      | Ready (Ok []) => (Done (Err at_end), st')
      | Ready (Ok bs) =>
        read_frame fuel' {| reader := s; buffer := buffer st ++ bs; limits := limits st |}
      | Ready (Err UnexpectedEof) => (Done (Err at_end), st')
      | Ready (Err k) => (Done (Err (Io k)), st')
      | Ready Panic => (Done Panic, st')
      end
    end
  end.

(** A caller's loop: read frames until an error, calling again after each
    cancellation. *)
Fixpoint read_all (calls : nat) (fuel : nat) (st : FrameReader) : option (list Frame * FrameIoError) :=
  match calls with
  | O => None
  | S calls' =>
    match read_frame fuel st with
    | (Done (Ok f), st') => (λ '(fs, e), (f :: fs, e)) <$> read_all calls' fuel st'
    | (Cancelled, st') => read_all calls' fuel st'
    | (Done (Err e), _) => Some ([], e)
    | (Done Panic, _) => None
    end
  end.
End Reader.
Arguments Done {A} r.
Arguments Cancelled {A}.

(** ** The unbuffered reader *)

(** [AsyncReadExt::read_exact]: gather [n] bytes over as many reads as it takes;
    end of stream before that is [UnexpectedEof]. *)
Fixpoint read_exact (n : nat) (script : list read_event)
    : poll (result ErrorKind Bytes) * list read_event :=
  match n with
  | O => (Ready (Ok []), script)
  | S _ =>
    match script with
    | [] => (Pending, [])
    | Pend :: s => (Pending, s)
    | Eof :: s => (Ready (Err UnexpectedEof), Eof :: s)
    | ReadErr k :: s => (Ready (Err k), s)
    | Data c :: s =>
      if (length c <=? n)%nat then
        match read_exact (n - length c) s with
        | (Ready (Ok bs), s') => (Ready (Ok (c ++ bs)), s')
        | r => r
        end
      else (Ready (Ok (take n c)), Data (drop n c) :: s)
    end
  end.

(** An [async fn] over the transport: it finishes with a result, or its future
    is dropped at an await point. *)
Definition aio (A : Type) : Type := list read_event → outcome A * list read_event.

Definition aret {A} (r : FrameIoResult A) : aio A := λ s, (Done r, s).
Definition abind {A B} (m : aio A) (k : A → aio B) : aio B := λ s,
  match m s with
  | (Done (Ok a), s') => k a s'
  | (Done (Err e), s') => (Done (Err e), s')
  | (Done Panic, s') => (Done Panic, s')
  | (Cancelled, s') => (Cancelled, s')
  end.
Notation "'let!' x := m 'in' k" := (abind m (fun x => k))
  (at level 10, x binder, m at level 200, k at level 200) : uk_scope.

Definition lift {A} (r : ProtocolResult A) : aio A := aret (map_err Protocol r).

(* @src crates/uk-proto/src/io.rs 316-327 read_optional_one *)
Definition read_optional_one : aio (option Z) := λ s,
  match poll_read 1 s with
  | (Pending, s') => (Cancelled, s')
  | (Ready (Ok []), s') => (Done (Ok None), s')
  | (Ready (Ok (b :: _)), s') => (Done (Ok (Some b)), s')
  | (Ready (Err UnexpectedEof), s') => (Done (Ok None), s')
  | (Ready (Err k), s') => (Done (Err (Io k)), s')
  | (Ready Panic, s') => (Done Panic, s')
  end.

(* @src crates/uk-proto/src/io.rs 357-371 read_exact_or_truncated *)
Definition read_exact_or_truncated (n : nat) : aio Bytes := λ s,
  match read_exact n s with
  | (Pending, s') => (Cancelled, s')
  | (Ready (Ok bs), s') => (Done (Ok bs), s')
  | (Ready (Err UnexpectedEof), s') => (Done (Err (Protocol Truncated)), s')
  | (Ready (Err k), s') => (Done (Err (Io k)), s')
  | (Ready Panic, s') => (Done Panic, s')
  end.

(* @src crates/uk-proto/src/io.rs 348-355 read_one *)
Definition read_one : aio Z :=
  let! b := read_exact_or_truncated 1 in
  aret (match b with [x] => Ok x | _ => Panic end).

(* @src crates/uk-proto/src/io.rs 329-346 read_varint_async *)
Definition read_varint_async (header_bytes : Bytes) : aio (Z * Bytes) :=
  let! first := read_one in
  let header_bytes := header_bytes ++ [first] in
  let len := Z.shiftl 1 (Z.shiftr first 6) in
  let! header_bytes :=
    (if 1 <? len then
       let remaining := len - 1 in
       if 7 <? remaining then aret Panic else
       let! rest := read_exact_or_truncated (Z.to_nat remaining) in
       aret (Ok (header_bytes ++ rest))
     else aret (Ok header_bytes)) in
  let start := zlen header_bytes - len in
  if start <? 0 then aret Panic else
  let! '(v, _) := lift (Varint.decode (drop (Z.to_nat start) header_bytes)) in
  aret (Ok (v, header_bytes)).

(** The payload loop, [remaining.min(8192)] bytes at a time. *)
(* @src crates/uk-proto/src/io.rs 84-91 read_frame *)
Fixpoint read_payload (fuel : nat) (remaining : Z) (payload : Bytes) : aio Bytes :=
  if remaining <=? 0 then aret (Ok payload) else
  match fuel with
  | O => aret Panic
  | S fuel' =>
    let to_read := Z.min remaining 8192 in
    let! buf := read_exact_or_truncated (Z.to_nat to_read) in
    read_payload fuel' (remaining - to_read) (payload ++ buf)
  end.

(** [read_frame] after its first byte. *)
(* @src crates/uk-proto/src/io.rs 60-96 read_frame *)
Definition read_frame_rest {P : Platform} (limits : FrameLimits) (first : Z) : aio Frame :=
  let! rest := read_exact_or_truncated 3 in
  let fixed := first :: rest in
  match fixed with
  | [version; ty; f1; f2] =>
    if negb (version =? VERSION) then aret (Err (Protocol (UnsupportedVersion version))) else
    let! _ := lift (frame_type_try_from ty) in
    let flags := be_decode [f1; f2] in
    let! _ := lift (validate_flags flags) in
    let! '(id, header_bytes) := read_varint_async fixed in
    let! '(length, header_bytes) := read_varint_async header_bytes in
    let! '(header, _) := lift (header_decode limits header_bytes) in
    if negb (Frame.id header =? id) then aret Panic else
    if negb (Frame.length header =? length) then aret Panic else
    let! payload_len := lift (ok_or InvalidVarint (usize_try_from (Frame.length header))) in
    let! payload := read_payload (Z.to_nat (payload_len / 8192 + 1)) payload_len [] in
    aret (Ok {| header := header; payload := payload |})
  | _ => aret Panic
  end.

(* @src crates/uk-proto/src/io.rs 52-97 read_frame *)
Definition read_frame_unbuffered {P : Platform} (limits : FrameLimits) : aio Frame :=
  let! o := read_optional_one in
  match o with
  | None => aret (Err Closed)
  | Some first => read_frame_rest limits first
  end.

(** ** Writing *)

(** What the writer's polls return: it takes some number of bytes, fails, or is
    not ready when the future is dropped. *)
Inductive write_event : Set :=
  | Accept (n : Z)
  | WriteErr (kind : ErrorKind)
  | WritePend.

(** The writer: its script, what [flush] returns, and the bytes on the wire. *)
Record Writer : Set := {
  events : list write_event;
  flush_result : result ErrorKind unit;
  wire : Bytes
}.

(* @src crates/uk-proto/src/io.rs 252-285 write_all_vectored *)
Fixpoint write_all_vectored (evs : list write_event) (first second : Bytes)
    : outcome unit * Bytes * list write_event :=
  if bool_decide (first = []) && bool_decide (second = []) then (Done (Ok tt), [], evs) else
  match evs with
  | [] => (Cancelled, [], [])
  | WritePend :: evs' => (Cancelled, [], evs')
  | WriteErr k :: evs' => (Done (Err (Io k)), [], evs')
  | Accept n :: evs' =>
    let written := Z.min n (zlen (first ++ second)) in
    if written <=? 0 then (Done (Err (Io WriteZero)), [], evs') else
    let sent := take (Z.to_nat written) (first ++ second) in
    let remaining := written in
    let first_take := Z.min (zlen first) remaining in
    let first := drop (Z.to_nat first_take) first in
    let remaining := remaining - first_take in
    let second_take := Z.min (zlen second) remaining in
    let second := drop (Z.to_nat second_take) second in
    let '(r, out, evs'') := write_all_vectored evs' first second in
    (r, sent ++ out, evs'')
  end.

(** [writer.write_all(buf)] followed by [writer.flush()], as both writers end. *)
Definition write_and_flush (w : Writer) (first second : Bytes) : outcome unit * Writer :=
  let '(r, out, evs) := write_all_vectored (events w) first second in
  let w' := {| events := evs; flush_result := flush_result w; wire := wire w ++ out |} in
  match r with
  | Done (Ok _) => (Done (map_err Io (flush_result w)), w')
  | r => (r, w')
  end.

(* @src crates/uk-proto/src/io.rs 226-250 write_frame *)
Definition write_frame (w : Writer) (frame : Frame) : outcome unit * Writer :=
  if negb (Frame.length (header frame) =? zlen (payload frame))
  then (Done (Err (Protocol (InvalidFrame "frame header length does not match payload length"))), w)
  else
  match header_encode (header frame) with
  | Err e => (Done (Err (Protocol e)), w)
  | Panic => (Done Panic, w)
  | Ok h =>
    if MAX_FRAME_HEADER_LEN <? zlen h then (Done Panic, w)
    else write_and_flush w h (payload frame)
  end.

(* @src crates/uk-proto/src/io.rs 305-308 write_frames *)
Fixpoint encode_frames (frames : list Frame) : ProtocolResult Bytes :=
  match frames with
  | [] => Ok []
  | f :: fs =>
    let? b := frame_encode_into f in
    let? r := encode_frames fs in
    Ok (b ++ r)
  end.

(* @src crates/uk-proto/src/io.rs 300-314 write_frames *)
Definition write_frames (w : Writer) (frames : list Frame) : outcome unit * Writer :=
  match encode_frames frames with
  | Err e => (Done (Err (Protocol e)), w)
  | Panic => (Done Panic, w)
  | Ok buffer =>
    if bool_decide (buffer = []) then (Done (Ok tt), w)
    else write_and_flush w buffer []
  end.

(** ** The stream a script carries *)

Fixpoint script_bytes (s : list read_event) : Bytes :=
  match s with
  | Data c :: s' => c ++ script_bytes s'
  | Pend :: s' => script_bytes s'
  | _ => []
  end.

(** How the stream ends: cleanly, with an error, or not at all. *)
Fixpoint script_end (s : list read_event) : option (option ErrorKind) :=
  match s with
  | [] => None
  | Data _ :: s' | Pend :: s' => script_end s'
  | Eof :: _ => Some None
  | ReadErr k :: _ => Some (Some k)
  end.

(** A read that returns no data means end of stream, so data is never empty. *)
Definition event_ok (e : read_event) : Prop :=
  match e with Data c => c ≠ [] ∧ bytes_ok c | _ => True end.

Definition script_size (s : list read_event) : nat :=
  sum_list_with (λ e, match e with Data c => S (length c) | _ => 1%nat end) s.

(** What a caller is told at the end of the stream, with [rest] unread. *)
Definition end_error (t : option ErrorKind) (rest : Bytes) : FrameIoError :=
  match t with
  | None | Some UnexpectedEof =>
    if bool_decide (rest = []) then Closed else Protocol Truncated
  | Some k => Io k
  end.

(** The specification: a byte stream decodes to a list of frames and a final
    error, by [Frame::decode] on the whole of it. *)
Inductive decodes_to {P : Platform} (l : FrameLimits) (t : option ErrorKind)
    : Bytes → list Frame → FrameIoError → Prop :=
  | decodes_frame bs f r fs e :
    frame_decode l bs = Ok (f, r) → decodes_to l t r fs e → decodes_to l t bs (f :: fs) e
  | decodes_end bs :
    frame_decode l bs = Err Truncated → decodes_to l t bs [] (end_error t bs)
  | decodes_bad bs e :
    frame_decode l bs = Err e → e ≠ Truncated → decodes_to l t bs [] (Protocol e).

Section ReaderLemmas.
Context {P : Platform}.

(** The configured limit leaves room for a header in a [usize]. *)
Definition limits_ok (l : FrameLimits) : Prop :=
  max_frame_size l + MAX_ENCODED_LEN ≤ USIZE_MAX.

(** The buffered decoder is [Frame::decode] on the buffer. *)
Lemma take_buffered_frame_decode st :
  limits_ok (limits st) → bytes_ok (buffer st) →
  take_buffered_frame st =
    match frame_decode (limits st) (buffer st) with
    | Ok (f, r) => Ok (Some f, {| reader := reader st; buffer := r; limits := limits st |})
    | Err Truncated => Ok (None, st)
    | Err e => Err (Protocol e)
    | Panic => Panic
    end.
Proof.
  intros Hlim Hb. unfold take_buffered_frame. rewrite frame_decode_stream_form.
  destruct (header_decode (limits st) (buffer st)) as [[h r]|e|] eqn:Hh; simpl; [|done..].
  pose proof (header_decode_bounds _ _ _ _ Hb Hh) as ([Hl0 Hl] & _ & _ & Hr).
  apply pc_canonical in Hh as (_ & hb & Hhb & Hbuf); [|done].
  pose proof (length_header_encode _ _ Hhb) as Hlen. unfold limits_ok in Hlim.
  rewrite Hbuf, length_app.
  replace (Z.of_nat (length hb + length r) - zlen r) with (zlen hb) by lia.
  unfold usize_checked_add, usize_try_from.
  do 2 (rewrite decide_True by (unfold MAX_ENCODED_LEN in *; lia); simpl).
  rewrite (proj2 (Z.ltb_ge USIZE_MAX _)) by (unfold MAX_ENCODED_LEN in *; lia).
  destruct (zlen r <? Frame.length h) eqn:Hcmp; bool_to_prop.
  { rewrite (proj2 (Z.ltb_lt _ _)) by lia. by destruct st. }
  rewrite (proj2 (Z.ltb_ge _ _)) by lia.
  rewrite <- (take_drop (Z.to_nat (Frame.length h)) r).
  set (p := take _ r). set (q := drop _ r).
  assert (zlen p = Frame.length h) as Hp. { unfold p. rewrite length_take. lia. }
  rewrite app_assoc, (buf_split_app (E := FrameIoError)) by (rewrite length_app; lia). simpl.
  rewrite (buf_split_app (E := FrameIoError)), (buf_split_app (E := ProtocolError)) by done.
  done.
Qed.

Definition stream (st : FrameReader) : Bytes := buffer st ++ script_bytes (reader st).

Definition reader_ok (st : FrameReader) : Prop :=
  limits_ok (limits st) ∧ bytes_ok (buffer st) ∧ Forall event_ok (reader st) ∧
  script_end (reader st) ≠ None.

Lemma script_bytes_ok s : Forall event_ok s → bytes_ok (script_bytes s).
Proof.
  induction 1 as [|[c| | |k] s He Hs IH]; simpl in *; try done. apply Forall_app. naive_solver.
Qed.

Lemma reader_ok_stream st : reader_ok st → bytes_ok (stream st).
Proof. intros (_ & Hb & Hs & _). apply Forall_app. split; [done|by apply script_bytes_ok]. Qed.

(** A read of a positive capacity from a chunk takes a non-empty part of it. *)
Lemma poll_read_data n c s :
  0 < n → event_ok (Data c) → Forall event_ok s →
  ∃ a s', poll_read n (Data c :: s) = (Ready (Ok a), s') ∧ a ≠ [] ∧ bytes_ok a ∧
    Forall event_ok s' ∧ script_end s' = script_end s ∧ a ++ script_bytes s' = c ++ script_bytes s ∧
    (script_size s' < script_size (Data c :: s))%nat.
Proof.
  intros Hn [Hc Hok] Hs. unfold poll_read. eexists _, _. split; [done|].
  set (k := Z.to_nat n). assert (0 < k)%nat by lia.
  pose proof (take_drop k c) as Htd. destruct c as [|b c]; [done|].
  assert (take k (b :: c) ≠ []) by (destruct k; [lia|done]).
  assert (bytes_ok (take k (b :: c)) ∧ bytes_ok (drop k (b :: c))) as [Ht Hd].
  { rewrite <- Htd in Hok. by apply Forall_app in Hok. }
  split_and!; [done|done|..]; destruct (drop k (b :: c)) as [|b' c'] eqn:Hdrop; simpl;
    rewrite ?app_nil_r in Htd; try done.
  - constructor; [done|done].
  - by rewrite Htd.
  - change (b' :: c' ++ script_bytes s) with ((b' :: c') ++ script_bytes s).
    by rewrite app_assoc, Htd.
  - unfold script_size. simpl. lia.
  - unfold script_size. simpl. apply (f_equal length) in Hdrop.
    rewrite length_drop in Hdrop. simpl in *. lia.
Qed.

Context (spare : Bytes → Z → Z).
Context (spare_reserve : ∀ b n, n ≤ spare b n).

Lemma reserve_positive st : 0 < reserve_for_pending_frame st.
Proof. unfold reserve_for_pending_frame, MIN_READ_RESERVE. lia. Qed.

(** What one call of [read_frame] comes to, against [Frame::decode] on the
    whole stream. *)
Definition call_spec (st : FrameReader) (o : outcome Frame * FrameReader) : Prop :=
  let st' := o.2 in
  match o.1 with
  | Done (Ok f) =>
    reader_ok st' ∧ limits st' = limits st ∧ script_end (reader st') = script_end (reader st) ∧
    frame_decode (limits st) (stream st) = Ok (f, stream st') ∧
    (script_size (reader st') ≤ script_size (reader st))%nat
  | Cancelled =>
    reader_ok st' ∧ limits st' = limits st ∧ script_end (reader st') = script_end (reader st) ∧
    stream st' = stream st ∧ (script_size (reader st') < script_size (reader st))%nat
  | Done (Err e) => ∃ t, script_end (reader st) = Some t ∧ decodes_to (limits st) t (stream st) [] e
  | Done Panic => False
  end.

(** One read extends the buffer and leaves the stream as it is. *)
Lemma call_spec_step st st' o :
  limits st' = limits st → script_end (reader st') = script_end (reader st) →
  stream st' = stream st → (script_size (reader st') < script_size (reader st))%nat →
  call_spec st' o → call_spec st o.
Proof.
  intros Hl He Hs Hsz. unfold call_spec. rewrite Hl, He, Hs.
  destruct o as [[[f|e|]|] st2]; simpl; naive_solver lia.
Qed.

Lemma read_frame_spec fuel st :
  reader_ok st → (script_size (reader st) < fuel)%nat →
  call_spec st (read_frame spare fuel st).
Proof.
  revert st. induction fuel as [|fuel IH]; intros st Hok Hf; [lia|].
  pose proof Hok as (Hlim & Hb & Hs & Hend). simpl.
  rewrite take_buffered_frame_decode by done.
  destruct (frame_decode (limits st) (buffer st)) as [[f r]|e|] eqn:Hd;
    [| |exact (sd_total _ Hb Hd)].
  { unfold call_spec. simpl. split_and!; try done.
    - split_and!; try done. simpl. apply sd_suffix in Hd as [p Hp]. simpl in *.
      rewrite Hp in Hb. by apply Forall_app in Hb as [_ ?].
    - unfold stream. simpl. by apply sd_ext_ok. }
  destruct (decide (e = Truncated)) as [->|Hne].
  2: { assert (decodes_to (limits st) (default None (script_end (reader st))) (stream st) []
        (Protocol e)) by (apply decodes_bad; [by apply sd_ext_err|done]).
    destruct (script_end (reader st)) as [t|] eqn:?; [|done].
    destruct e; try done; unfold call_spec; simpl; eauto. }
  assert (0 < spare (buffer st) (reserve_for_pending_frame st)) as Hsp.
  { eapply Z.lt_le_trans; [apply reserve_positive|apply spare_reserve]. }
  set (cap := spare _ _) in *. clearbody cap.
  destruct (reader st) as [|[c| | |k] s] eqn:Hr; [done|..]; apply Forall_cons in Hs as [He Hs].
  - destruct (poll_read_data cap c s Hsp He Hs) as (a & s' & -> & Hne & Ha & Hs' & Hend' & Hbs & Hsz).
    destruct a as [|b a]; [done|].
    apply (call_spec_step _ {| reader := s'; buffer := buffer st ++ b :: a; limits := limits st |});
      rewrite ?Hr; try done.
    + unfold stream. simpl. rewrite Hr, <- app_assoc. by f_equal.
    + apply IH; [|simpl in *; lia]. split_and!; try done; simpl; [by apply Forall_app|].
      simpl in Hend. by rewrite Hend'.
  - unfold call_spec, stream. simpl. rewrite Hr. split_and!; try done; simpl in *; lia.
  - unfold call_spec. simpl. rewrite Hr. exists None. split; [done|].
    unfold stream. rewrite Hr. simpl. rewrite app_nil_r. by apply (decodes_end _ None).
  - assert (call_spec st (Done (Err (end_error (Some k) (buffer st))), st)) as Hgoal.
    { unfold call_spec. simpl. rewrite Hr. exists (Some k). split; [done|].
      unfold stream. rewrite Hr. simpl. rewrite app_nil_r. by apply (decodes_end _ (Some k)). }
    by destruct k.
Qed.

Lemma read_all_spec calls fuel st t :
  reader_ok st → script_end (reader st) = Some t →
  (script_size (reader st) < fuel)%nat →
  (script_size (reader st) + length (stream st) < calls)%nat →
  ∃ fs e, read_all spare calls fuel st = Some (fs, e) ∧ decodes_to (limits st) t (stream st) fs e.
Proof.
  revert st. induction calls as [|calls IH]; intros st Hok Ht Hf Hc; [lia|]. simpl.
  pose proof (read_frame_spec fuel st Hok Hf) as Hcall. unfold call_spec in Hcall.
  destruct (read_frame spare fuel st) as [[[f|e|]|] st']; simpl in Hcall; [| |done|].
  - destruct Hcall as (Hok' & Hl & He & Hd & Hsz).
    pose proof (frame_decode_shrinks _ _ _ _ (reader_ok_stream _ Hok) Hd).
    destruct (IH st') as (fs & e & -> & Hdec); [done|congruence|lia|lia|].
    exists (f :: fs), e. split; [done|]. rewrite Hl in Hdec. by eapply decodes_frame.
  - destruct Hcall as (t' & Ht' & Hd). exists [], e. split; [done|]. congruence.
  - destruct Hcall as (Hok' & Hl & He & Hd & Hsz).
    destruct (IH st') as (fs & e & -> & Hdec); [done|congruence|lia|rewrite Hd; lia|].
    exists fs, e. split; [done|]. congruence.
Qed.
End ReaderLemmas.

(** ** The unbuffered reader implements [Frame::decode]

    [implements m d]: on every transport that is awaited to completion, the
    asynchronous routine [m] computes what the decoder [d] computes on the bytes
    the transport carries. *)

Definition awaited (s : list read_event) : Prop :=
  Forall (λ e, e ≠ Pend ∧ event_ok e) s ∧ script_end s ≠ None.

(** The error a read reports when the stream ends inside a value. *)
Definition trunc_error (t : option ErrorKind) : FrameIoError :=
  match t with None | Some UnexpectedEof => Protocol Truncated | Some k => Io k end.

Definition implements {A} (m : aio A) (d : Bytes → ProtocolResult (A * Bytes)) : Prop :=
  ∀ s t, awaited s → script_end s = Some t →
  match d (script_bytes s) with
  | Ok (a, r) => ∃ s', m s = (Done (Ok a), s') ∧ script_bytes s' = r ∧ awaited s' ∧
                   script_end s' = Some t
  | Err Truncated => (m s).1 = Done (Err (trunc_error t))
  | Err e => (m s).1 = Done (Err (Protocol e))
  | Panic => (m s).1 = Done Panic
  end.

Lemma awaited_bytes s : awaited s → bytes_ok (script_bytes s).
Proof.
  intros [H _]. apply script_bytes_ok. eapply Forall_impl; [done|]. naive_solver.
Qed.

Lemma implements_bind {A B} (m : aio A) (k : A → aio B) d kd :
  implements m d →
  (∀ s a r, bytes_ok s → d s = Ok (a, r) → implements (k a) (kd a)) →
  implements (abind m k) (λ s, let? '(a, r) := d s in kd a r).
Proof.
  intros Hm Hk s t Hs Ht. specialize (Hm s t Hs Ht). unfold abind.
  specialize (Hk (script_bytes s)).
  destruct (d (script_bytes s)) as [[a r]|e|]; simpl.
  - destruct Hm as (s' & -> & <- & Hs' & Ht').
    by apply (Hk a _ (awaited_bytes _ Hs) eq_refl).
  - destruct (m s) as [o s']; destruct e; simpl in *; by subst.
  - destruct (m s) as [o s']; simpl in *; by subst.
Qed.

Lemma implements_ext {A} (m : aio A) d d' :
  (∀ s, bytes_ok s → d s = d' s) → implements m d → implements m d'.
Proof.
  intros Hd Hm s t Hs Ht. rewrite <- Hd by (by apply awaited_bytes). by apply Hm.
Qed.

Lemma implements_ret {A} (a : A) : implements (aret (Ok a)) (λ s, Ok (a, s)).
Proof. intros s t Hs Ht. by exists s. Qed.

Lemma implements_panic {A} : implements (aret Panic : aio A) (λ _, Panic).
Proof. done. Qed.

Lemma implements_lift {A} (r : ProtocolResult A) :
  r ≠ Err Truncated → implements (lift r) (λ s, let? a := r in Ok (a, s)).
Proof.
  intros Hr s t Hs Ht. unfold lift, aret. destruct r as [a|e|]; simpl; [by exists s| |done].
  by destruct e.
Qed.

Lemma implements_fail {A} e :
  e ≠ Truncated → implements (aret (Err (Protocol e)) : aio A) (λ _, Err e).
Proof. intros He s t Hs Ht. by destruct e. Qed.

Lemma awaited_cons e s :
  awaited (e :: s) → e ≠ Pend ∧ event_ok e ∧
  match e with Data _ => awaited s | _ => True end.
Proof.
  intros [[[? ?] ?]%Forall_cons Hend]. split_and!; [done..|]. by destruct e.
Qed.

Lemma read_exact_spec n s t :
  awaited s → script_end s = Some t →
  if (length (script_bytes s) <? n)%nat
  then ∃ s', read_exact n s = (Ready (Err (default UnexpectedEof t)), s')
  else ∃ s', read_exact n s = (Ready (Ok (take n (script_bytes s))), s') ∧
         script_bytes s' = drop n (script_bytes s) ∧ awaited s' ∧ script_end s' = Some t.
Proof.
  revert n. induction s as [|e s IH]; intros n Hs Ht; [done|].
  destruct n as [|n].
  { simpl. rewrite take_0, drop_0. by exists (e :: s). }
  destruct (awaited_cons _ _ Hs) as (He & Hok & Htl).
  destruct e as [c| | |k]; try done; simpl in Ht.
  2-3: simplify_eq; by eexists.
  cbn [read_exact script_bytes]. rewrite length_app.
  destruct (length c <=? S n)%nat eqn:Hc.
  - apply Nat.leb_le in Hc. specialize (IH (S n - length c)%nat Htl Ht).
    destruct (_ <? S n)%nat eqn:Hlt.
    + apply Nat.ltb_lt in Hlt. rewrite (proj2 (Nat.ltb_lt _ _)) in IH by lia.
      destruct IH as [s' ->]. by eexists.
    + apply Nat.ltb_ge in Hlt. rewrite (proj2 (Nat.ltb_ge _ _)) in IH by lia.
      destruct IH as (s' & -> & Hb & Hs' & Ht'). exists s'.
      by rewrite take_app_ge, drop_app_ge by lia.
  - apply Nat.leb_gt in Hc. rewrite (proj2 (Nat.ltb_ge _ _)) by lia. eexists. split.
    { rewrite take_app_le by lia. done. }
    rewrite drop_app_le by lia. split_and!; [done| |done].
    destruct Hs as [[_ Hs]%Forall_cons Hend]. split; [|done]. constructor; [|done].
    split; [done|]. destruct Hok as [_ Hok]. split; [|by apply Forall_drop].
    intros Hnil. apply (f_equal length) in Hnil. rewrite length_drop in Hnil. simpl in *. lia.
Qed.

Lemma implements_read_exact n :
  implements (read_exact_or_truncated n)
    (λ s, if zlen s <? Z.of_nat n then Err Truncated else buf_split (Z.of_nat n) s).
Proof.
  intros s t Hs Ht. pose proof (read_exact_spec n s t Hs Ht) as H.
  unfold read_exact_or_truncated.
  destruct (length (script_bytes s) <? n)%nat eqn:Hlt.
  - apply Nat.ltb_lt in Hlt. rewrite (proj2 (Z.ltb_lt _ _)) by lia.
    destruct H as [s' ->]. by destruct t as [[]|].
  - apply Nat.ltb_ge in Hlt. rewrite (proj2 (Z.ltb_ge _ _)) by lia.
    destruct H as (s' & -> & Hb & Hs' & Ht').
    rewrite (buf_split_take _ n) by done.
    by exists s'.
Qed.

Lemma implements_read_one :
  implements read_one (λ s, match s with [] => Err Truncated | b :: r => Ok (b, r) end).
Proof.
  eapply implements_ext; [|eapply (implements_bind _ _ _ (λ a s,
    match a with [x] => Ok (x, s) | _ => Panic end)); [apply implements_read_exact|]].
  2: { intros s a r _ _. destruct a as [|x [|]]; [done|apply implements_ret|done]. }
  intros [|b r] _; [done|]. rewrite (proj2 (Z.ltb_ge _ _)) by (simpl; lia).
  by rewrite (buf_split_app _ [b] r).
Qed.

(** The bytes of a varint after its first byte. *)
Lemma implements_varint_tail hb b n :
  is_u8 b → n = Z.to_nat (Z.shiftl 1 (Z.shiftr b 6)) → (n = 1 ∨ n = 2 ∨ n = 4 ∨ n = 8)%nat →
  implements
    (if 1 <? Z.of_nat n then
       let remaining := Z.of_nat n - 1 in
       if 7 <? remaining then aret Panic else
       let! rest := read_exact_or_truncated (Z.to_nat remaining) in
       aret (Ok ((hb ++ [b]) ++ rest))
     else aret (Ok (hb ++ [b])))
    (λ s, if (length (b :: s) <? n)%nat then Err Truncated
          else Ok (hb ++ take n (b :: s), drop n (b :: s))).
Proof.
  intros Hb _ Hn. destruct (decide (n = 1%nat)) as [->|Hne].
  - eapply implements_ext; [|apply implements_ret]. intros s _. done.
  - rewrite (proj2 (Z.ltb_lt _ _)) by lia. cbv zeta. rewrite (proj2 (Z.ltb_ge 7 _)) by lia.
    eapply implements_ext; [|eapply implements_bind; [apply implements_read_exact|]].
    2: intros s a r _ _; apply implements_ret.
    intros s _. rewrite Z2Nat.id by lia. rewrite length_cons.
    destruct (zlen s <? _) eqn:Hl; bool_to_prop.
    { by rewrite (proj2 (Nat.ltb_lt _ _)) by lia. }
    rewrite (proj2 (Nat.ltb_ge _ _)) by lia. destruct n as [|n]; [lia|]. simpl take. simpl drop.
    rewrite (buf_split_take _ n) by lia. simpl. by rewrite <- app_assoc.
Qed.

(** [read_varint_async] is [varint::decode] on the stream, and appends the bytes
    it consumed. *)
Lemma implements_read_varint hb :
  implements (read_varint_async hb)
    (λ s, let? '(v, r) := Varint.decode s in
          Ok ((v, hb ++ take (length s - length r) s), r)).
Proof.
  set (rest_of b := λ s,
    let n := Z.to_nat (Z.shiftl 1 (Z.shiftr b 6)) in
    let? '(hb', r) := (if (length (b :: s) <? n)%nat then Err Truncated
                       else Ok (hb ++ take n (b :: s), drop n (b :: s))) in
    let? '(x, r) := (let? x := Varint.decode (drop (length hb' - n) hb') in Ok (x, r)) in
    Ok ((x.1, hb'), r)).
  eapply (implements_ext _ (λ s, let? '(b, r) :=
    match s with [] => Err Truncated | b :: r => Ok (b, r) end in rest_of b r)).
  { intros [|b s] Hs; [done|]. unfold rest_of. simpl rbind.
    destruct (Varint.decode_announced b s Hs) as (_ & Hshort & Hlong).
    set (n := Z.to_nat _) in *.
    destruct (_ <? _)%nat eqn:Hl; [apply Nat.ltb_lt in Hl; by rewrite Hshort|].
    apply Nat.ltb_ge in Hl. cbn [rbind]. rewrite length_app, length_take.
    rewrite drop_app_length' by (rewrite length_cons; lia).
    destruct (Hlong Hl) as [(v & -> & ->)|[-> ->]]; [|done].
    cbn [rbind fst]. rewrite length_drop, length_cons.
    by replace (S (length s) - (S (length s) - n))%nat with n by lia. }
  eapply implements_bind; [apply implements_read_one|].
  cbv beta. intros [|b0 s0] b r Hs H; simplify_eq.
  pose proof (Varint.announced_length b r Hs) as Hn. unfold rest_of.
  set (n := Z.to_nat (Z.shiftl 1 (Z.shiftr b 6))) in *.
  assert (Z.shiftl 1 (Z.shiftr b 6) = Z.of_nat n) as -> by (unfold n in *; lia).
  apply Forall_cons in Hs as [Hb _].
  eapply implements_bind; [by apply implements_varint_tail|].
  cbv beta. intros s hb' r' Hs H. destruct (_ <? _)%nat eqn:Hl; simplify_eq.
  apply Nat.ltb_ge in Hl. rewrite (proj2 (Z.ltb_ge _ 0))
    by (rewrite length_app, length_take; lia).
  assert (Z.to_nat (zlen (hb ++ take n (b :: s)) - Z.of_nat n) =
    (length (hb ++ take n (b :: s)) - n)%nat) as -> by lia.
  apply implements_bind; [apply implements_lift|intros ? [v ?] ? _ _; apply implements_ret].
  rewrite length_app, length_take, drop_app_length' by (rewrite length_cons in *; lia).
  destruct (Varint.decode_announced b s) as (_ & _ & Hlong); [by constructor|].
  fold n in Hlong. destruct (Hlong Hl) as [(v & Hd & _)|[Hd _]]; by rewrite Hd.
Qed.

Lemma implements_payload fuel remaining acc :
  0 ≤ remaining → remaining ≤ 8192 * (Z.of_nat fuel) →
  implements (read_payload fuel remaining acc)
    (λ s, let? '(p, r) := (if zlen s <? remaining then Err Truncated else buf_split remaining s) in
          Ok (acc ++ p, r)).
Proof.
  revert remaining acc. induction fuel as [|fuel IH]; intros remaining acc H0 Hf; simpl.
  - replace remaining with 0 by lia. simpl.
    eapply implements_ext; [|apply implements_ret]. intros s _. simpl.
    rewrite (proj2 (Z.ltb_ge _ _)) by lia. rewrite buf_split_neg by lia. simpl.
    by rewrite app_nil_r.
  - destruct (remaining <=? 0) eqn:Hr; bool_to_prop.
    { replace remaining with 0 by lia. simpl.
      eapply implements_ext; [|apply implements_ret]. intros s _. simpl.
      rewrite (proj2 (Z.ltb_ge _ _)) by lia. rewrite buf_split_neg by lia. simpl.
      by rewrite app_nil_r. }
    set (k := Z.min remaining 8192). assert (0 < k ≤ 8192 ∧ k ≤ remaining) as Hk by lia.
    eapply implements_ext; [|eapply implements_bind; [apply implements_read_exact|intros ? b ? _ _; apply IH; lia]].
    intros s _. simpl. rewrite Z2Nat.id by lia.
    destruct (zlen s <? k) eqn:Hlt; bool_to_prop; simpl.
    { by rewrite (proj2 (Z.ltb_lt _ remaining)) by lia. }
    pose proof (take_drop (Z.to_nat k) s) as Hs. set (a := take _ s) in *. set (r := drop _ s) in *.
    assert (zlen a = k) as Ha. { unfold a. rewrite length_take. lia. }
    rewrite <- Hs, buf_split_app by done. simpl. rewrite length_app.
    destruct (zlen r <? remaining - k) eqn:Hlt'; bool_to_prop; simpl.
    { by rewrite (proj2 (Z.ltb_lt _ remaining)) by lia. }
    rewrite (proj2 (Z.ltb_ge _ remaining)) by lia.
    rewrite <- (take_drop (Z.to_nat (remaining - k)) r).
    rewrite (buf_split_app (remaining - k)) by (rewrite length_take; lia).
    rewrite app_assoc, buf_split_app by (rewrite length_app, length_take; lia). simpl.
    by rewrite app_assoc.
Qed.

Section Unbuffered.
Context {P : Platform} (limits : FrameLimits).

Lemma implements_lift_Ok {A B} (a : A) (k : A → aio B) d :
  implements (k a) d → implements (abind (lift (Ok a)) k) d.
Proof. done. Qed.

Lemma implements_lift_Err {A B} e (k : A → aio B) :
  e ≠ Truncated → implements (abind (lift (Err e)) k) (λ _, Err e).
Proof. intros He s t _ _. by destruct e. Qed.

(** The part of a frame after its header. *)
Definition payload_of (h : FrameHeader) : decoder Frame := λ r,
  if USIZE_MAX <? Frame.length h then Err InvalidVarint else
  let? '(p, r) := (if zlen r <? Frame.length h then Err Truncated
                   else buf_split (Frame.length h) r) in
  Ok ({| header := h; payload := p |}, r).

Lemma implements_payload_of h :
  0 ≤ Frame.length h →
  implements
    (let! payload_len := lift (ok_or InvalidVarint (usize_try_from (Frame.length h))) in
     let! payload := read_payload (Z.to_nat (payload_len / 8192 + 1)) payload_len [] in
     aret (Ok {| header := h; payload := payload |}))
    (payload_of h).
Proof.
  intros H0. unfold payload_of, usize_try_from.
  case_decide; [rewrite (proj2 (Z.ltb_ge _ _)) by done
               |rewrite (proj2 (Z.ltb_lt _ _)) by lia; by apply implements_lift_Err].
  apply implements_lift_Ok.
  eapply implements_ext; [|eapply implements_bind; [apply implements_payload; [done|]|]].
  - intros s _. simpl. by destruct (if _ <? _ then _ else _) as [[p r]|?|].
  - pose proof (Z.div_mod (Frame.length h) 8192). pose proof (Z.mod_pos_bound (Frame.length h) 8192).
    rewrite Z2Nat.id; [lia|]. pose proof (Z.div_pos (Frame.length h) 8192). lia.
  - intros ? p ? _ _. apply implements_ret.
Qed.

(** What a successful [read_varint_async] says of the bytes it appended. *)
Lemma varint_appended hb s v hb' r :
  bytes_ok s →
  (let? '(v, r) := Varint.decode s in Ok ((v, hb ++ take (length s - length r) s), r))
    = Ok ((v, hb'), r) →
  ∃ c, Varint.encode v = Ok c ∧ hb' = hb ++ c.
Proof.
  intros Hs ([v' r'] & H & ?)%rbind_Ok. simplify_eq.
  apply pc_canonical in H as (_ & c & Hc & ->); [|done]. exists c. split; [done|].
  rewrite length_app, take_app_length' by lia. done.
Qed.

Lemma header_decode_bytes f4 i l c1 c2 :
  length f4 = 4%nat → Varint.encode i = Ok c1 → Varint.encode l = Ok c2 →
  header_decode limits ((f4 ++ c1) ++ c2) = header_tail limits f4 (c1 ++ c2).
Proof.
  intros Hf _ _. rewrite header_decode_tail, <- app_assoc.
  rewrite (proj2 (Z.ltb_ge _ _)) by (rewrite length_app; lia).
  rewrite buf_split_app by (rewrite Hf; done). done.
Qed.

(** The variable part of the header and the payload, once the fixed part has
    been accepted. *)
Lemma implements_varints f4 (mk : Z → Z → FrameHeader) :
  length f4 = 4%nat → (∀ i l, id (mk i l) = i ∧ Frame.length (mk i l) = l) →
  (∀ s, header_tail limits f4 s =
     let? '(i, s) := Varint.decode s in
     let? '(l, s) := Varint.decode s in
     if max_frame_size limits <? l then Err (OversizedFrame l (max_frame_size limits))
     else Ok (mk i l, s)) →
  implements
    (let! '(i, header_bytes) := read_varint_async f4 in
     let! '(l, header_bytes) := read_varint_async header_bytes in
     let! '(header, _) := lift (header_decode limits header_bytes) in
     if negb (id header =? i) then aret Panic else
     if negb (Frame.length header =? l) then aret Panic else
     let! payload_len := lift (ok_or InvalidVarint (usize_try_from (Frame.length header))) in
     let! payload := read_payload (Z.to_nat (payload_len / 8192 + 1)) payload_len [] in
     aret (Ok {| header := header; payload := payload |}))
    (λ s, let? '(h, r) := header_tail limits f4 s in payload_of h r).
Proof.
  intros Hf Hmk Htail.
  eapply implements_ext; [|eapply (implements_bind _ _ _ (λ x s,
    let? '(l, s) := Varint.decode s in
    if max_frame_size limits <? l then Err (OversizedFrame l (max_frame_size limits))
    else payload_of (mk x.1 l) s)); [apply implements_read_varint|]].
  { cbv beta. intros s _. rewrite Htail.
    destruct (Varint.decode s) as [[i r]|?|]; simpl; [|done..].
    destruct (Varint.decode r) as [[l r']|?|]; simpl; [|done..]. by case_match. }
  cbv beta. intros s1 [i hb1] r1 Hs1 (c1 & Hc1 & ->)%varint_appended; [|done].
  eapply implements_ext; [|eapply (implements_bind _ _ _ (λ x s,
    if max_frame_size limits <? x.1 then Err (OversizedFrame x.1 (max_frame_size limits))
    else payload_of (mk i x.1) s)); [apply implements_read_varint|]].
  { cbv beta. intros s _. by destruct (Varint.decode s) as [[l r']|?|]. }
  cbv beta. intros s2 [l hb2] r2 Hs2 (c2 & Hc2 & ->)%varint_appended; [|done].
  assert (header_decode limits ((f4 ++ c1) ++ c2) =
    if max_frame_size limits <? l then Err (OversizedFrame l (max_frame_size limits))
    else Ok (mk i l, [])) as ->.
  { rewrite (header_decode_bytes f4 i l), Htail by done.
    rewrite (pc_roundtrip i c1 c2 (Varint.encode_Ok_u64 _ _ Hc1) Hc1). simpl.
    rewrite <- (app_nil_r c2), (pc_roundtrip l c2 [] (Varint.encode_Ok_u64 _ _ Hc2) Hc2). done. }
  simpl fst. destruct (max_frame_size limits <? l); [by apply implements_lift_Err|].
  apply implements_lift_Ok. destruct (Hmk i l) as [-> Hl].
  rewrite Z.eqb_refl, (proj2 (Z.eqb_eq _ _) Hl). simpl negb. cbv iota.
  apply implements_payload_of. rewrite Hl.
  by apply Varint.encode_Ok_bound in Hc2 as [? _].
Qed.

Lemma implements_body b :
  is_u8 b → implements (read_frame_rest limits b) (λ s, frame_decode limits (b :: s)).
Proof.
  intros Hb. unfold read_frame_rest.
  eapply implements_ext; [|eapply (implements_bind _ _ _ (λ rest s,
    let? '(h, r) := header_tail limits (b :: rest) s in payload_of h r));
    [apply implements_read_exact|]].
  { intros s _. rewrite frame_decode_stream_form, header_decode_tail, length_cons.
    change (Z.of_nat 3) with 3.
    destruct (zlen s <? 3) eqn:Hl; bool_to_prop.
    { by rewrite (proj2 (Z.ltb_lt _ 4)) by lia. }
    rewrite (proj2 (Z.ltb_ge _ 4)), (buf_split_take 3 3 s), (buf_split_take 4 4 (b :: s))
      by (rewrite ?length_cons; lia). done. }
  cbv beta. intros s rest r Hs H. change (Z.of_nat 3) with 3 in H.
  destruct (_ <? _) eqn:Hl; [done|]. apply buf_split_Ok in H as [-> Hrest]; [|done].
  destruct rest as [|t [|f1 [|f2 [|]]]]; try (simpl in Hrest; lia). clear Hl Hrest.
  cbn [header_tail]. rewrite be_decode_2.
  destruct (negb (b =? VERSION)) eqn:Hver; [by apply implements_fail|].
  destruct (frame_type_try_from t) as [ft|e|] eqn:Hft;
    [|apply frame_type_try_from_Err in Hft as ->; by apply implements_lift_Err
     |by apply frame_type_try_from_Panic in Hft].
  apply implements_lift_Ok. cbv zeta.
  destruct (validate_flags _) as [u|e|] eqn:Hfl;
    [|apply validate_flags_Err in Hfl as (? & -> & _); by apply implements_lift_Err
     |by apply validate_flags_Panic in Hfl].
  apply implements_lift_Ok.
  eapply implements_ext; [|apply (implements_varints [b; t; f1; f2] (λ i l,
    {| version := b; frame_type := ft; flags := f1 * 256 + f2; id := i; Frame.length := l |}));
    [done..|]]; intros s; [intros _|]; cbn [header_tail]; by rewrite Hver, Hft; simpl; rewrite Hfl.
Qed.
End Unbuffered.

Lemma awaited_data_head b c s t :
  awaited (Data (b :: c) :: s) → script_end (Data (b :: c) :: s) = Some t →
  ∃ s', poll_read 1 (Data (b :: c) :: s) = (Ready (Ok [b]), s') ∧ awaited s' ∧
    script_end s' = Some t ∧ script_bytes s' = c ++ script_bytes s ∧ is_u8 b.
Proof.
  intros Hs Ht. destruct (awaited_cons _ _ Hs) as (_ & [_ [Hb Hc]%Forall_cons] & Htl).
  unfold poll_read. simpl. eexists. split; [done|].
  destruct c as [|b' c]; [done|]. split_and!; try done.
  destruct Htl as [Htl Hend]. split; [|done]. constructor; [by split_and!|done].
Qed.

(** ** Writing lemmas *)

Lemma drop_two (a b : Bytes) n :
  0 ≤ n →
  drop (Z.to_nat (Z.min (zlen a) n)) a ++
    drop (Z.to_nat (Z.min (zlen b) (n - Z.min (zlen a) n))) b = drop (Z.to_nat n) (a ++ b).
Proof.
  intros Hn. rewrite drop_app. destruct (decide (n ≤ zlen a)).
  - rewrite (Z.min_r (zlen a)), Z.sub_diag, Z.min_r by lia.
    replace (Z.to_nat n - length a)%nat with 0%nat by lia. done.
  - rewrite (Z.min_l (zlen a)) by lia. rewrite (drop_ge a), (drop_ge a) by lia. simpl.
    destruct (decide (zlen b ≤ n - zlen a)).
    + rewrite Z.min_l, !drop_ge by lia. done.
    + rewrite Z.min_r by lia. f_equal. lia.
Qed.

(** Whatever the writer's polls return, a prefix of the two slices goes out, and
    on success all of them; polls that each take something are enough. *)
Lemma write_all_vectored_spec evs first second :
  let '(r, out, _) := write_all_vectored evs first second in
  (∃ rest, first ++ second = out ++ rest ∧ (r = Done (Ok tt) → rest = [])) ∧
  r ≠ Done Panic ∧
  (Forall (λ e, match e with Accept n => 0 < n | _ => False end) evs →
   (length (first ++ second) ≤ length evs)%nat → r = Done (Ok tt)).
Proof.
  revert first second. induction evs as [|e evs IH]; intros first second; cbn [write_all_vectored];
    (destruct (bool_decide (first = []) && bool_decide (second = [])) eqn:Hempty;
     [bool_to_prop; subst; by split_and!; [exists []|..]|]).
  { split_and!; [by exists (first ++ second)|done|]. intros _ Hl.
    destruct first, second; simpl in Hl; lia || done. }
  destruct e as [n|k|]; [|by split_and!; [by eexists|done|intros [? _]%Forall_cons]..].
  destruct (Z.min n _ <=? 0) eqn:Hn; bool_to_prop.
  { split_and!; [by eexists|done|]. intros [? _]%Forall_cons _.
    destruct first, second; simpl in *; lia || done. }
  set (w := Z.min n (zlen (first ++ second))) in *.
  specialize (IH (drop (Z.to_nat (Z.min (zlen first) w)) first)
    (drop (Z.to_nat (Z.min (zlen second) (w - Z.min (zlen first) w))) second)).
  destruct (write_all_vectored evs _ _) as [[r out] evs'].
  rewrite drop_two in IH by lia. destruct IH as ((rest & Hrest & Hdone) & Hnp & Hprog).
  split_and!; [|done|].
  - exists rest. split; [|done]. rewrite <- app_assoc, <- Hrest. by rewrite take_drop.
  - intros [_ Hall]%Forall_cons Hl. apply Hprog; [done|]. rewrite length_drop. simpl in Hl. lia.
Qed.

Lemma write_and_flush_spec w first second o w' :
  write_and_flush w first second = (o, w') →
  (∃ out rest, wire w' = wire w ++ out ∧ first ++ second = out ++ rest ∧
     (o = Done (Ok tt) → rest = [])) ∧
  (flush_result w ≠ Panic → o ≠ Done Panic) ∧
  (Forall (λ e, match e with Accept n => 0 < n | _ => False end) (events w) →
   (length (first ++ second) ≤ length (events w))%nat → flush_result w = Ok tt →
   o = Done (Ok tt)).
Proof.
  unfold write_and_flush. pose proof (write_all_vectored_spec (events w) first second) as H.
  destruct (write_all_vectored _ _ _) as [[r out] evs]. destruct H as ((rest & Heq & Hd) & Hnp & Hp).
  destruct r as [[[]|e|]|]; intros; simplify_eq/=; (split_and!; [by exists out, rest; naive_solver|..]);
    try done; naive_solver (destruct (flush_result w); naive_solver).
Qed.

(** A writer that takes at least one byte per poll, for [n] polls. *)
Definition willing (w : Writer) (n : nat) : Prop :=
  Forall (λ e, match e with Accept n => 0 < n | _ => False end) (events w) ∧ (n ≤ length (events w))%nat ∧
  flush_result w = Ok tt.

Lemma write_all_vectored_uses evs first second :
  Forall (λ e, match e with Accept n => 0 < n | _ => False end) evs →
  (length (first ++ second) ≤ length evs)%nat →
  ∃ evs', write_all_vectored evs first second = (Done (Ok tt), first ++ second, evs') ∧
    Forall (λ e, match e with Accept n => 0 < n | _ => False end) evs' ∧
    (length evs ≤ length evs' + length (first ++ second))%nat.
Proof.
  revert first second. induction evs as [|e evs IH]; intros first second Hall Hl; cbn [write_all_vectored];
    (destruct (bool_decide (first = []) && bool_decide (second = [])) eqn:Hempty;
     [bool_to_prop; subst; eexists; split_and!; [done|done|simpl; lia]|]).
  { destruct first, second; simpl in Hl; lia || done. }
  apply Forall_cons in Hall as [He Hall]. destruct e as [n|k|]; [|done..].
  assert (0 < zlen (first ++ second)).
  { destruct first; [destruct second; [done|simpl; lia]|simpl; lia]. }
  destruct (Z.min n _ <=? 0) eqn:Hpos; bool_to_prop; [lia|]. set (w := Z.min n (zlen (first ++ second))) in *.
  destruct (IH (drop (Z.to_nat (Z.min (zlen first) w)) first)
    (drop (Z.to_nat (Z.min (zlen second) (w - Z.min (zlen first) w))) second) Hall) as (evs' & -> & Hall' & Hlen).
  { rewrite drop_two, length_drop by lia. simpl in Hl. lia. }
  exists evs'. rewrite drop_two in * by lia. rewrite take_drop. split_and!; [done|done|].
  rewrite length_drop in Hlen. simpl in *. lia.
Qed.

Lemma write_frame_willing w f bs n :
  Frame.frame_encode f = Ok bs → willing w (length bs + n) →
  ∃ w', write_frame w f = (Done (Ok tt), w') ∧ wire w' = wire w ++ bs ∧ willing w' n.
Proof.
  rewrite frame_encode_eq. intros (Hlen & hb & Hh & ->)%frame_encode_into_Ok (Hall & Hn & Hfl).
  unfold write_frame. rewrite Hlen, Z.eqb_refl, Hh. cbn [negb].
  rewrite (proj2 (Z.ltb_ge _ _)) by (apply length_header_encode in Hh; unfold MAX_FRAME_HEADER_LEN; lia).
  unfold write_and_flush.
  destruct (write_all_vectored_uses (events w) hb (payload f) Hall) as (evs' & -> & Hall' & Hl); [lia|].
  eexists. rewrite Hfl. split; [done|]. split; [done|]. split_and!; [done|simpl; lia|done].
Qed.

(** ** Properties *)

Lemma decodes_to_det {P : Platform} l t bs fs e fs' e' :
  decodes_to l t bs fs e → decodes_to l t bs fs' e' → fs = fs' ∧ e = e'.
Proof.
  intros H. revert fs' e'. induction H as [bs f r fs e Hd _ IH|bs Hd|bs e Hd Hne];
    intros fs' e' H'; destruct H' as [bs f' r' fs' e' Hd' H'|bs Hd'|bs e' Hd' Hne'];
    rewrite Hd in Hd'; simplify_eq; try done.
  destruct (IH fs' e' H') as [-> ->]. done.
Qed.

Lemma encode_frames_decodes {P : Platform} l fs bs :
  Forall (frame_wf l) fs → encode_frames fs = Ok bs → decodes_to l None bs fs Closed.
Proof.
  intros Hfs. revert bs. induction Hfs as [|f fs Hf _ IH]; intros bs; simpl.
  { intros [= <-]. by apply (decodes_end l None []). }
  intros (fb & Hb & H)%rbind_Ok. apply rbind_Ok in H as (r & Hr & H). simplify_eq.
  apply (decodes_frame l None _ f r); [|by apply IH].
  rewrite <- frame_encode_eq in Hb. exact (pc_roundtrip f fb r Hf Hb).
Qed.

(** A successful [write_frames] puts the encodings on the wire, in order. *)
Lemma write_frames_Ok w fs w' :
  write_frames w fs = (Done (Ok tt), w') →
  ∃ bs, encode_frames fs = Ok bs ∧ wire w' = wire w ++ bs.
Proof.
  unfold write_frames. destruct (encode_frames fs) as [bs|e|] eqn:He; [|done..].
  case_bool_decide as Hbs.
  - intros [= <-]. exists bs. subst. by rewrite app_nil_r.
  - intros ((out & rest & Hw & Heq & Hrest) & _)%write_and_flush_spec.
    rewrite app_nil_r, Hrest, app_nil_r in Heq by done. subst. by exists out.
Qed.

(** C28: [FrameReader] delivers what [Frame::decode] reads off the whole stream,
    for every way the transport cuts it into chunks and every point at which a
    caller drops [read_frame] and calls it again: the same frames in the same
    order, then the same error (a protocol error, [Closed] between frames,
    [Truncated] inside one, or the transport's own).  The loop ends: a unit of
    fuel per event and byte of the script is enough. *)
Theorem frame_reader_any_chunking {P : Platform} (spare : Bytes → Z → Z) script l t calls fuel :
  (∀ b n, n ≤ spare b n) →
  limits_ok l → Forall event_ok script → script_end script = Some t →
  (script_size script < fuel)%nat →
  (script_size script + length (script_bytes script) < calls)%nat →
  ∃ fs e, read_all spare calls fuel (reader_new script l) = Some (fs, e) ∧
    decodes_to l t (script_bytes script) fs e ∧
    (∀ fs' e', decodes_to l t (script_bytes script) fs' e' → fs' = fs ∧ e' = e).
Proof.
  intros Hsp Hl Hev Ht Hf Hc.
  destruct (read_all_spec spare Hsp calls fuel (reader_new script l) t) as (fs & e & Hr & Hd);
    [by split_and!; simpl; [..|rewrite Ht]|done..|].
  exists fs, e. split_and!; [done..|]. intros fs' e' Hd'. by eapply decodes_to_det.
Qed.

(** The unbuffered [read_frame], awaited to completion on any transport,
    returns what [Frame::decode] returns on the stream ([Closed] if it is
    empty) and leaves exactly the undecoded rest in the transport, with its end;
    its debug assertions never fire and its slices never go out of range. *)
Theorem unbuffered_read_is_decode {P : Platform} l s t :
  awaited s → script_end s = Some t →
  match frame_decode l (script_bytes s) with
  | Ok (f, r) => ∃ s', read_frame_unbuffered l s = (Done (Ok f), s') ∧ script_bytes s' = r ∧ awaited s' ∧
                   script_end s' = Some t
  | Err Truncated => (read_frame_unbuffered l s).1 = Done (Err (end_error t (script_bytes s)))
  | Err e => (read_frame_unbuffered l s).1 = Done (Err (Protocol e))
  | Panic => False
  end.
Proof.
  intros Hs Ht. pose proof (awaited_bytes s Hs) as Hok.
  destruct s as [|e s]; [done|]. destruct (awaited_cons _ _ Hs) as (Hne & Hev & _).
  destruct e as [[|b c]| | |k]; [by destruct Hev|..|done| |].
  - destruct (awaited_data_head b c s t Hs Ht) as (s' & Hpoll & Hs' & Ht' & Hb' & Hb).
    pose proof (implements_body l b Hb s' t Hs' Ht') as Himp. rewrite Hb' in Himp.
    assert (read_frame_unbuffered l (Data (b :: c) :: s) = read_frame_rest l b s') as ->.
    { unfold read_frame_unbuffered, abind, read_optional_one. by rewrite Hpoll. }
    cbn [script_bytes app] in *.
    destruct (frame_decode l (b :: c ++ script_bytes s)) as [[f r]|e|] eqn:Hd;
      [|by destruct e; try destruct t as [[]|]|exact (sd_total _ Hok Hd)].
    destruct Himp as (s2 & H2 & Hb2 & Ha2 & He2). by exists s2.
  - simpl in Ht. simplify_eq. done.
  - simpl in Ht. simplify_eq. by destruct k.
Qed.

(** [write_frame] never puts anything but a prefix of the frame's encoding
    on the wire, however the writer splits it and wherever it fails or is
    dropped; on success it is the whole encoding.  The 20-byte header buffer
    never overflows, a frame that cannot be encoded puts nothing on the wire,
    and it succeeds whenever the polls each take at least one byte. *)
Theorem write_frame_wire w f o w' :
  write_frame w f = (o, w') →
  (flush_result w ≠ Panic → o ≠ Done Panic) ∧
  match frame_encode f with
  | Ok bs =>
    (∃ out rest, wire w' = wire w ++ out ∧ bs = out ++ rest ∧ (o = Done (Ok tt) → rest = [])) ∧
    (Forall (λ e, match e with Accept n => 0 < n | _ => False end) (events w) →
     (length bs ≤ length (events w))%nat → flush_result w = Ok tt → o = Done (Ok tt))
  | Err e => w' = w ∧ o = Done (Err (Protocol e))
  | Panic => False
  end.
Proof.
  unfold write_frame. rewrite frame_encode_eq. unfold frame_encode_into.
  destruct (negb _); [by intros; simplify_eq|].
  destruct (header_encode (header f)) as [h|e|] eqn:Hh; simpl.
  - rewrite (proj2 (Z.ltb_ge _ _)) by (apply length_header_encode in Hh; unfold MAX_FRAME_HEADER_LEN; lia).
    intros H. apply write_and_flush_spec in H. naive_solver.
  - by intros; simplify_eq.
  - by apply header_encode_Panic in Hh.
Qed.

(** End to end: the frames one peer writes with [write_frames], split by the
    writer in any way, are the frames the other peer's [FrameReader] returns, in
    order and then [Closed], however the transport cuts the bytes into chunks
    and wherever the reader is cancelled and called again. *)
Theorem frames_written_are_read {P : Platform} l fs w w' spare script calls fuel :
  Forall (frame_wf l) fs → limits_ok l →
  write_frames w fs = (Done (Ok tt), w') →
  (∀ b n, n ≤ spare b n) →
  Forall event_ok script → script_end script = Some None →
  wire w' = wire w ++ script_bytes script →
  (script_size script < fuel)%nat →
  (script_size script + length (script_bytes script) < calls)%nat →
  read_all spare calls fuel (reader_new script l) = Some (fs, Closed).
Proof.
  intros Hfs Hl (bs & He & Hw)%write_frames_Ok Hsp Hev Ht Hw' Hf Hc.
  assert (bs = script_bytes script) as -> by (rewrite Hw in Hw'; by simplify_list_eq).
  destruct (read_all_spec spare Hsp calls fuel (reader_new script l) None) as (fs' & e & -> & Hd);
    [by split_and!; simpl; [..|rewrite Ht]|done..|].
  destruct (decodes_to_det _ _ _ _ _ _ _ Hd (encode_frames_decodes l fs _ Hfs He)) as [-> ->].
  done.
Qed.

(** A ping and a data frame, delivered in three chunks with two cancellations. *)
Definition ping : Frame :=
  {| header := {| version := 1; frame_type := Ping; flags := 0; id := 0; Frame.length := 0 |};
     payload := [] |}.
Definition data : Frame :=
  {| header := {| version := 1; frame_type := TcpData; flags := 0; id := 1; Frame.length := 2 |};
     payload := [7; 8] |}.
Definition chunks : list read_event :=
  [Pend; Data [1; 4; 0]; Data [0; 0; 0; 1; 17]; Pend; Data [0; 0; 1; 2; 7; 8]; Eof].

Lemma frame_reader_any_chunking_witness :
  ∃ fs e, read_all (P := platform64) (λ _ n, n) 40 40 (reader_new chunks FrameLimits_default) =
      Some (fs, e) ∧ decodes_to (P := platform64) FrameLimits_default None (script_bytes chunks) fs e.
Proof.
  destruct (frame_reader_any_chunking (P := platform64) (λ _ n, n) chunks FrameLimits_default None
    40 40) as (fs & e & Hr & Hd & _).
  - done.
  - done.
  - unfold chunks. rewrite !Forall_cons. unfold event_ok. rewrite !Forall_cons. done.
  - done.
  - vm_compute. lia.
  - vm_compute. lia.
  - by exists fs, e.
Defined.

End FrameIo.
