(* ===== verification/Duplex.v ===== *)
(** * Duplex: async functions over one end of a connection

    A connection is a script of what its reads return and a writer with a script of
    its own; an [async fn] over it finishes with a result or is dropped at an await
    point.  The monad of such functions, the way they read and write frames, and the
    facts every user shares: what is written only grows, and what a reader sees does
    not depend on how the bytes are cut. *)

From S2P Require Import Prelude Wire Varint FrameCodec FrameIo.

Module Duplex.
Import FrameIo.

(** ** Carriers *)

(** One end of a carrier. *)
Record Carrier : Set := { input : list read_event; output : Writer }.

Inductive fate (E A : Type) : Type :=
  | Finished (r : result E A)
  | Dropped.
Arguments Finished {E A} r.
Arguments Dropped {E A}.

(** An [async fn] over a carrier. *)
Definition hs (E A : Type) : Type := Carrier → fate E A * Carrier.

Definition hret {E A} (r : result E A) : hs E A := λ c, (Finished r, c).
Definition hbind {E A B} (m : hs E A) (k : A → hs E B) : hs E B := λ c,
  match m c with
  | (Finished (Ok a), c') => k a c'
  | (Finished (Err e), c') => (Finished (Err e), c')
  | (Finished Panic, c') => (Finished Panic, c')
  | (Dropped, c') => (Dropped, c')
  end.
Notation "'let*' x := m 'in' k" := (hbind m (fun x => k))
  (at level 10, x binder, m at level 200, k at level 200) : uk_scope.

Section Io.
Context {P : Platform}.

Definition recv (l : Frame.FrameLimits) (c : Carrier) : outcome Frame.Frame * Carrier :=
  let '(o, s) := read_frame_unbuffered l (input c) in (o, {| input := s; output := output c |}).

Definition send (f : Frame.Frame) (c : Carrier) : outcome unit * Carrier :=
  let '(o, w) := write_frame (output c) f in (o, {| input := input c; output := w |}).

(** [.await.map_err(on_error)?] *)
Definition io {E A} (m : Carrier → outcome A * Carrier) (on_error : FrameIoError → E) : hs E A := λ c,
  match m c with
  | (Done r, c') => (Finished (map_err on_error r), c')
  | (Cancelled, c') => (Dropped, c')
  end.
End Io.

(** ** Lemmas *)

Section Lemmas.
Context {P : Platform}.

(** A carrier whose input ends some day and is read to the end. *)
Definition attended (c : Carrier) : Prop := awaited (input c).

Lemma willing_le w n m : willing w n → (m ≤ n)%nat → willing w m.
Proof. intros (? & ? & ?) ?. split_and!; [done|lia|done]. Qed.

(** ** What is written only grows *)
Definition extends (c c' : Carrier) : Prop := ∃ x, wire (output c') = wire (output c) ++ x.

#[global] Instance extends_preorder : PreOrder extends.
Proof.
  split; [intros c; exists []; by rewrite app_nil_r|].
  intros a b c [x Hx] [y Hy]. exists (x ++ y). by rewrite Hy, Hx, app_assoc.
Qed.

Lemma send_extends f c : extends c (send f c).2.
Proof.
  unfold send. destruct (write_frame (output c) f) as [o w] eqn:Hw. simpl.
  apply write_frame_wire in Hw as [_ H]. unfold extends. simpl.
  destruct (Frame.frame_encode f) as [bs|e|]; [|by destruct H as [-> _]; exists []; rewrite app_nil_r|done].
  destruct H as [(out & rest & Hw & _) _]. by exists out.
Qed.

Lemma recv_extends l c : extends c (recv l c).2.
Proof.
  unfold recv. destruct (read_frame_unbuffered l (input c)). exists []. simpl. by rewrite app_nil_r.
Qed.

(** An [async fn] that only appends to what it has written. *)
Definition appends {E A} (m : hs E A) : Prop := ∀ c, extends c (m c).2.

Lemma appends_ret {E A} (r : result E A) : appends (hret r).
Proof. intros c. simpl. reflexivity. Qed.
Lemma appends_bind {E A B} (m : hs E A) (k : A → hs E B) : appends m → (∀ a, appends (k a)) → appends (hbind m k).
Proof.
  intros Hm Hk c. unfold hbind. specialize (Hm c). destruct (m c) as [[[a|e|]|] c']; try done.
  etrans; [exact Hm|apply Hk].
Qed.
Lemma appends_send {E} f (err : FrameIoError → E) : appends (io (send f) err).
Proof. intros c. unfold io. pose proof (send_extends f c). by destruct (send f c) as [[r|] c']. Qed.
Lemma appends_recv {E} l (err : FrameIoError → E) : appends (io (recv l) err).
Proof. intros c. unfold io. pose proof (recv_extends l c). by destruct (recv l c) as [[r|] c']. Qed.
End Lemmas.
End Duplex.
