(* ===== verification/Socks5.v ===== *)
(** * Socks5: the front end the applications speak to (crates/uk-client/src/socks5.rs)

    The negotiation of a SOCKS5 request over a stream, the replies, and the header
    of relayed UDP datagrams. *)

From S2P Require Import Prelude Wire Varint FrameCodec RustStd TargetCodec FrameIo Duplex.

Module Socks5.
Import FrameIo Duplex.

(* @src crates/uk-client/src/socks5.rs 12-12 VERSION *)
Definition VERSION : Z := 0x05.
(* @src crates/uk-client/src/socks5.rs 13-13 METHOD_NO_AUTH *)
Definition METHOD_NO_AUTH : Z := 0x00.
(* @src crates/uk-client/src/socks5.rs 14-14 METHOD_NO_ACCEPTABLE *)
Definition METHOD_NO_ACCEPTABLE : Z := 0xff.
(* @src crates/uk-client/src/socks5.rs 15-15 CMD_CONNECT *)
Definition CMD_CONNECT : Z := 0x01.
(* @src crates/uk-client/src/socks5.rs 16-16 CMD_UDP_ASSOCIATE *)
Definition CMD_UDP_ASSOCIATE : Z := 0x03.
(* @src crates/uk-client/src/socks5.rs 17-17 ATYP_IPV4 *)
Definition ATYP_IPV4 : Z := 0x01.
(* @src crates/uk-client/src/socks5.rs 18-18 ATYP_DOMAIN *)
Definition ATYP_DOMAIN : Z := 0x03.
(* @src crates/uk-client/src/socks5.rs 19-19 ATYP_IPV6 *)
Definition ATYP_IPV6 : Z := 0x04.

(* @src crates/uk-client/src/socks5.rs 21-25 RequestHead *)
Record RequestHead : Set := { command : Z; addr_type : Z }.

(* @src crates/uk-client/src/socks5.rs 27-36 Reply *)
Inductive Reply : Set :=
  | Succeeded | GeneralFailure | NotAllowed | HostUnreachable | ConnectionRefused
  | CommandNotSupported | AddressTypeNotSupported.

(* @src crates/uk-client/src/socks5.rs 59-61 Reply::code *)
Definition code (r : Reply) : Z :=
  match r with
  | Succeeded => 0x00
  | GeneralFailure => 0x01
  | NotAllowed => 0x02
  | HostUnreachable => 0x04
  | ConnectionRefused => 0x05
  | CommandNotSupported => 0x07
  | AddressTypeNotSupported => 0x08
  end.

(** Addresses as in [Target]; a [String] is valid UTF-8. *)
(* @src crates/uk-client/src/socks5.rs 44-49 SocksEndpoint *)
Inductive SocksEndpoint : Set :=
  | Ipv4 (addr : Z) (port : Z)
  | Domain (domain : Bytes) (port : Z)
  | Ipv6 (addr : Z) (port : Z).

(* @src crates/uk-client/src/socks5.rs 65-72 SocksEndpoint::from *)
Definition endpoint_from_addr (addr : SocketAddr) : SocksEndpoint :=
  match sa_ip addr with
  | IpV4 ip => Ipv4 ip (sa_port addr)
  | IpV6 ip => Ipv6 ip (sa_port addr)
  end.

(* @src crates/uk-client/src/socks5.rs 38-42 Request *)
Inductive Request : Set :=
  | Connect (target : Target.Target)
  | UdpAssociate (endpoint : SocksEndpoint).

(* @src crates/uk-client/src/socks5.rs 51-56 UdpDatagram *)
Record UdpDatagram : Set := { target : Target.Target; payload : Bytes }.

(** An [io::Error]: of the transport, or one made by [protocol_error]. *)
Inductive SocksError : Set :=
  | Transport (kind : ErrorKind)
  | Malformed (message : string)
  | BadTarget (e : ProtocolError).

(** ** The stream *)

Definition read_exact (n : nat) : hs SocksError Bytes := λ c,
  match FrameIo.read_exact n (input c) with
  | (Pending, s) => (Dropped, {| input := s; output := output c |})
  | (Ready r, s) => (Finished (map_err Transport r), {| input := s; output := output c |})
  end.

Definition read_u8 : hs SocksError Z :=
  let* b := read_exact 1 in
  hret (match b with [x] => Ok x | _ => Panic end).

(** [AsyncWriteExt::write_all]. *)
Fixpoint write_all (evs : list write_event) (bs : Bytes) : fate SocksError unit * Bytes * list write_event :=
  match bs, evs with
  | [], _ => (Finished (Ok tt), [], evs)
  | _, [] => (Dropped, [], [])
  | _, WritePend :: evs => (Dropped, [], evs)
  | _, WriteErr k :: evs => (Finished (Err (Transport k)), [], evs)
  | _, Accept n :: evs =>
    let written := Z.to_nat (Z.min n (zlen bs)) in
    if bool_decide (written = 0%nat) then (Finished (Err (Transport WriteZero)), [], evs) else
    let '(r, out, evs) := write_all evs (drop written bs) in
    (r, take written bs ++ out, evs)
  end.

(** [stream.write_all(bs).await?; stream.flush().await] *)
Definition write_and_flush (bs : Bytes) : hs SocksError unit := λ c,
  let w := output c in
  let '(r, out, evs) := write_all (events w) bs in
  let c := {| input := input c; output := {| events := evs; flush_result := flush_result w; wire := wire w ++ out |} |} in
  match r with
  | Finished (Ok _) => (Finished (map_err Transport (flush_result w)), c)
  | r => (r, c)
  end.

(** An early end of the stream is answered, however that goes, and is an error of
    its own. *)
(* @src crates/uk-client/src/socks5.rs 193-205 read_greeting_exact *)
Definition on_eof {A} (m : hs SocksError A) (answer : hs SocksError unit) (message : string) : hs SocksError A := λ c,
  match m c with
  | (Finished (Err (Transport UnexpectedEof)), c) =>
    match answer c with
    | (Dropped, c) => (Dropped, c)
    | (Finished _, c) => (Finished (Err (Malformed message)), c)
    end
  | r => r
  end.

(** ** Endpoints *)

(* @src crates/uk-client/src/socks5.rs 398-408 validate_domain *)
Definition validate_domain (domain : Bytes) : result SocksError unit :=
  if bool_decide (domain = []) || (255 <? zlen domain)
  then Err (Malformed "invalid socks domain length") else
  if existsb is_ascii_control domain
  then Err (Malformed "socks domain contains ascii control character") else
  Ok tt.

(* @src crates/uk-client/src/socks5.rs 410-433 encode_endpoint *)
Definition encode_endpoint (endpoint : SocksEndpoint) : result SocksError Bytes :=
  match endpoint with
  | Ipv4 addr port => Ok ([ATYP_IPV4] ++ be_encode 4 addr ++ be_encode 2 port)
  | Domain domain port =>
    let? _ := validate_domain domain in
    if 255 <? zlen domain then Err (Malformed "invalid socks domain length") else
    Ok ([ATYP_DOMAIN] ++ [zlen domain] ++ domain ++ be_encode 2 port)
  | Ipv6 addr port => Ok ([ATYP_IPV6] ++ be_encode 16 addr ++ be_encode 2 port)
  end.

(* @src crates/uk-client/src/socks5.rs 435-441 encoded_endpoint_len *)
Definition encoded_endpoint_len (endpoint : SocksEndpoint) : Z :=
  match endpoint with
  | Ipv4 _ _ => 1 + 4 + 2
  | Domain domain _ => 1 + 1 + zlen domain + 2
  | Ipv6 _ _ => 1 + 16 + 2
  end.

(* @src crates/uk-client/src/socks5.rs 366-371 validate_target *)
Definition validate_target (t : Target.Target) : result SocksError unit :=
  let? _ := map_err BadTarget (Target.encode t) in Ok tt.

(* @src crates/uk-client/src/socks5.rs 373-381 target_from_endpoint *)
Definition target_from_endpoint (endpoint : SocksEndpoint) : result SocksError Target.Target :=
  let t :=
    match endpoint with
    | Ipv4 addr port => Target.Ipv4 addr port
    | Domain domain port => Target.Domain domain port
    | Ipv6 addr port => Target.Ipv6 addr port
    end in
  let? _ := validate_target t in
  Ok t.

(* @src crates/uk-client/src/socks5.rs 383-389 endpoint_from_target *)
Definition endpoint_from_target (t : Target.Target) : SocksEndpoint :=
  match t with
  | Target.Ipv4 addr port => Ipv4 addr port
  | Target.Domain domain port => Domain domain port
  | Target.Ipv6 addr port => Ipv6 addr port
  end.

(* @src crates/uk-client/src/socks5.rs 391-396 validate_udp_associate_endpoint *)
Definition validate_udp_associate_endpoint (endpoint : SocksEndpoint) : result SocksError unit :=
  match endpoint with
  | Domain domain _ => validate_domain domain
  | _ => Ok tt
  end.

(* @src crates/uk-client/src/socks5.rs 310-350 decode_endpoint *)
Definition decode_endpoint (src : Bytes) (addr_type : Z) : result SocksError (SocksEndpoint * nat) :=
  if addr_type =? ATYP_IPV4 then
    if zlen src <? 6 then Err (Malformed "truncated socks ipv4 endpoint") else
    Ok (Ipv4 (be_decode (take 4 src)) (be_decode (take 2 (drop 4 src))), 6%nat)
  else if addr_type =? ATYP_DOMAIN then
    match src with
    | [] => Err (Malformed "truncated socks domain endpoint")
    | len :: _ =>
      let domain_len := Z.to_nat len in
      let endpoint_len := (1 + domain_len + 2)%nat in
      if zlen src <? Z.of_nat endpoint_len then Err (Malformed "truncated socks domain endpoint") else
      let domain := take domain_len (drop 1 src) in
      if negb (utf8_valid domain) then Err (Malformed "socks domain is not utf-8") else
      Ok (Domain domain (be_decode (take 2 (drop (1 + domain_len) src))), endpoint_len)
    end
  else if addr_type =? ATYP_IPV6 then
    if zlen src <? 18 then Err (Malformed "truncated socks ipv6 endpoint") else
    Ok (Ipv6 (be_decode (take 16 src)) (be_decode (take 2 (drop 16 src))), 18%nat)
  else Err (Malformed "unsupported socks address type").

(** ** Datagrams *)

(* @src crates/uk-client/src/socks5.rs 124-132 encode_udp_datagram *)
Definition encode_udp_datagram (t : Target.Target) (payload : Bytes) : result SocksError Bytes :=
  let? _ := validate_target t in
  let? ep := encode_endpoint (endpoint_from_target t) in
  Ok ([0x00; 0x00; 0x00] ++ ep ++ payload).

(* @src crates/uk-client/src/socks5.rs 134-152 decode_udp_datagram *)
Definition decode_udp_datagram (packet : Bytes) : result SocksError UdpDatagram :=
  match packet with
  | b0 :: b1 :: b2 :: b3 :: rest =>
    if negb (b0 =? 0) || negb (b1 =? 0) then Err (Malformed "invalid socks udp reserved bytes") else
    if negb (b2 =? 0) then Err (Malformed "socks udp fragmentation is not supported") else
    let? '(endpoint, payload_offset) := decode_endpoint rest b3 in
    let? t := target_from_endpoint endpoint in
    Ok {| target := t; payload := drop payload_offset rest |}
  | _ => Err (Malformed "truncated socks udp header")
  end.

(** ** Replies *)

(* @src crates/uk-client/src/socks5.rs 108-121 send_reply_with_endpoint *)
Definition send_reply_with_endpoint (reply : Reply) (endpoint : SocksEndpoint) : hs SocksError unit :=
  let* ep := hret (encode_endpoint endpoint) in
  write_and_flush ([VERSION; code reply; 0x00] ++ ep).

(* @src crates/uk-client/src/socks5.rs 96-106 send_reply *)
Definition send_reply (reply : Reply) : hs SocksError unit := send_reply_with_endpoint reply (Ipv4 0 0).

(* @src crates/uk-client/src/socks5.rs 185-191 send_method_selection *)
Definition send_method_selection (method : Z) : hs SocksError unit := write_and_flush [VERSION; method].

(** [send(..).await?; return Err(error)] *)
Definition reject {A} (answer : hs SocksError unit) (error : SocksError) : hs SocksError A :=
  let* _ := answer in
  hret (Err error).

(** ** Negotiation *)

(* @src crates/uk-client/src/socks5.rs 154-183 read_greeting *)
Definition read_greeting : hs SocksError unit :=
  let* version := read_u8 in
  if negb (version =? VERSION) then hret (Err (Malformed "unsupported socks version")) else
  let* method_count := on_eof read_u8 (send_method_selection METHOD_NO_ACCEPTABLE) "truncated socks greeting" in
  if method_count =? 0
  then reject (send_method_selection METHOD_NO_ACCEPTABLE) (Malformed "socks greeting has no methods") else
  let* methods := on_eof (read_exact (Z.to_nat method_count)) (send_method_selection METHOD_NO_ACCEPTABLE)
                    "truncated socks greeting" in
  if bool_decide (METHOD_NO_AUTH ∈ methods) then hret (Ok tt)
  else reject (send_method_selection METHOD_NO_ACCEPTABLE) (Malformed "socks client offered no supported method").

(* @src crates/uk-client/src/socks5.rs 352-364 read_request_exact *)
Definition read_request_exact (n : nat) : hs SocksError Bytes :=
  on_eof (read_exact n) (send_reply GeneralFailure) "truncated socks request".

(* @src crates/uk-client/src/socks5.rs 243-260 read_request_head *)
Definition read_request_head : hs SocksError RequestHead :=
  let* head := read_request_exact 4 in
  match head with
  | [version; cmd; reserved; atyp] =>
    if negb (version =? VERSION)
    then reject (send_reply GeneralFailure) (Malformed "unsupported socks request version") else
    if negb (reserved =? 0)
    then reject (send_reply GeneralFailure) (Malformed "invalid socks reserved byte") else
    hret (Ok {| command := cmd; addr_type := atyp |})
  | _ => hret Panic
  end.

(* @src crates/uk-client/src/socks5.rs 262-269 read_port *)
Definition read_port : hs SocksError Z :=
  let* port := read_request_exact 2 in
  hret (Ok (be_decode port)).

(* @src crates/uk-client/src/socks5.rs 271-308 read_endpoint *)
Definition read_endpoint (addr_type : Z) : hs SocksError SocksEndpoint :=
  if addr_type =? ATYP_IPV4 then
    let* octets := read_request_exact 4 in
    let* port := read_port in
    hret (Ok (Ipv4 (be_decode octets) port))
  else if addr_type =? ATYP_DOMAIN then
    let* len := read_request_exact 1 in
    let* domain := read_request_exact (match len with [n] => Z.to_nat n | _ => 0 end) in
    let* port := read_port in
    if utf8_valid domain then hret (Ok (Domain domain port))
    else reject (send_reply GeneralFailure) (Malformed "socks domain is not utf-8")
  else if addr_type =? ATYP_IPV6 then
    let* octets := read_request_exact 16 in
    let* port := read_port in
    hret (Ok (Ipv6 (be_decode octets) port))
  else reject (send_reply AddressTypeNotSupported) (Malformed "unsupported socks address type").

(* @src crates/uk-client/src/socks5.rs 207-239 read_request *)
Definition read_request : hs SocksError Request :=
  let* head := read_request_head in
  if command head =? CMD_CONNECT then
    let* endpoint := read_endpoint (addr_type head) in
    match target_from_endpoint endpoint with
    | Ok t => hret (Ok (Connect t))
    | Err err => reject (send_reply GeneralFailure) err
    | Panic => hret Panic
    end
  else if command head =? CMD_UDP_ASSOCIATE then
    let* endpoint := read_endpoint (addr_type head) in
    match validate_udp_associate_endpoint endpoint with
    | Ok _ => hret (Ok (UdpAssociate endpoint))
    | Err err => reject (send_reply GeneralFailure) err
    | Panic => hret Panic
    end
  else reject (send_reply CommandNotSupported) (Malformed "unsupported socks command").

(* @src crates/uk-client/src/socks5.rs 87-94 negotiate_request *)
Definition negotiate_request : hs SocksError Request :=
  let* _ := read_greeting in
  let* _ := send_method_selection METHOD_NO_AUTH in
  read_request.

(** ** Lemmas *)

(** *** Parsers and the languages they read

    [reads R k m L]: on every connection that is read to its end and takes [k]
    writes, [m] either consumes a prefix of the language [L] and writes nothing, or
    fails having written one of the answers [R], and then no prefix of the input is
    in [L]. *)

Definition deterministic {A} (L : A → Bytes → Prop) : Prop :=
  ∀ a a' bs bs' r r', bytes_ok (bs ++ r) → L a bs → L a' bs' → bs ++ r = bs' ++ r' → a = a' ∧ bs = bs'.

Section Parsers.
Context (R : Bytes → Prop) (R_nil : R []) (k : nat).

Definition reads {A} (m : hs SocksError A) (L : A → Bytes → Prop) : Prop :=
  deterministic L ∧ ∀ c, attended c → willing (output c) k →
  (∃ a bs c', m c = (Finished (Ok a), c') ∧ L a bs ∧ script_bytes (input c) = bs ++ script_bytes (input c') ∧
     attended c' ∧ output c' = output c) ∨
  (∃ e c' w, m c = (Finished (Err e), c') ∧ wire (output c') = wire (output c) ++ w ∧ R w ∧
     ∀ a bs rest, script_bytes (input c) = bs ++ rest → ¬ L a bs).

Definition answers (answer : hs SocksError unit) : Prop :=
  ∀ c, willing (output c) k →
  ∃ c' w, answer c = (Finished (Ok tt), c') ∧ wire (output c') = wire (output c) ++ w ∧ R w.

Lemma reads_ext {A} (m : hs SocksError A) L L' :
  (∀ a bs, bytes_ok bs → L a bs ↔ L' a bs) → reads m L → reads m L'.
Proof.
  intros HL [Hd Hm]. split.
  - intros a a' bs bs' r r' Hok H1 H2 Heq. pose proof Hok as [Hb _]%Forall_app.
    pose proof Hok as Hok'. rewrite Heq in Hok'. apply Forall_app in Hok' as [Hb' _].
    apply (Hd _ _ _ _ r r' Hok); [by apply HL..|done].
  - intros c Ha Hw. pose proof (awaited_bytes _ Ha) as Hok.
    destruct (Hm c Ha Hw) as [(a & bs & c' & H1 & H2 & H3 & H4)|(e & c' & w & H1 & H2 & H3 & H4)]; [left|right].
    + exists a, bs, c'. split_and!; try done; [|apply H4..]. apply HL; [|done].
      rewrite H3 in Hok. by apply Forall_app in Hok as [? _].
    + exists e, c', w. split_and!; try done. intros a bs rest Heq HL'. apply (H4 a bs rest Heq), HL; [|done].
      rewrite Heq in Hok. by apply Forall_app in Hok as [? _].
Qed.

Lemma reads_ret {A} (a : A) : reads (hret (Ok a)) (λ x bs, x = a ∧ bs = []).
Proof.
  split; [by intros ? ? ? ? ? ? _ [-> ->] [-> ->]|]. intros c Ha Hw. left. exists a, [], c. by split_and!.
Qed.

Lemma reads_fail {A} e : reads (hret (Err e) : hs SocksError A) (λ _ _, False).
Proof.
  split; [done|]. intros c Ha Hw. right. exists e, c, []. split_and!; try done; [by rewrite app_nil_r|naive_solver].
Qed.

Lemma reads_reject {A} answer e : answers answer → reads (reject answer e : hs SocksError A) (λ _ _, False).
Proof.
  intros Hans. split; [done|]. intros c Ha Hw. right. destruct (Hans c Hw) as (c' & w & Hc & Hwire & HR).
  exists e, c', w. unfold reject, hbind. rewrite Hc. split_and!; try done. naive_solver.
Qed.

Definition exactly (n : nat) (a bs : Bytes) : Prop := a = bs ∧ length bs = n.

Lemma exactly_deterministic n : deterministic (exactly n).
Proof. intros a a' bs bs' r r' _ [-> H1] [-> H2] Heq. apply app_inj_1 in Heq; [naive_solver|congruence]. Qed.

(** A read of [n] bytes, with what becomes of a short one. *)
Lemma read_exact_cases n c :
  attended c →
  (∃ bs c', read_exact n c = (Finished (Ok bs), c') ∧ length bs = n ∧
     script_bytes (input c) = bs ++ script_bytes (input c') ∧ attended c' ∧ output c' = output c) ∨
  (∃ e c', read_exact n c = (Finished (Err (Transport e)), c') ∧ output c' = output c ∧
     (length (script_bytes (input c)) < n)%nat).
Proof.
  intros Ha. destruct (script_end (input c)) as [t|] eqn:Ht; [|by destruct Ha].
  pose proof (read_exact_spec n (input c) t Ha Ht) as H. unfold read_exact.
  destruct (length (script_bytes (input c)) <? n)%nat eqn:Hlt.
  - apply Nat.ltb_lt in Hlt. destruct H as [s' ->]. right. by eexists _, _.
  - apply Nat.ltb_ge in Hlt. destruct H as (s' & -> & Hr & Hs' & _). left. eexists _, _. split; [done|].
    split_and!; [by rewrite length_take_le|cbn [input]; by rewrite Hr, take_drop|done|done].
Qed.

Lemma short_not_exactly n c a bs rest :
  (length (script_bytes (input c)) < n)%nat → script_bytes (input c) = bs ++ rest → ¬ exactly n a bs.
Proof. intros Hl Heq [_ Hn]. rewrite Heq, length_app in Hl. lia. Qed.

Lemma reads_exact n : reads (read_exact n) (exactly n).
Proof.
  split; [apply exactly_deterministic|]. intros c Ha Hw.
  destruct (read_exact_cases n c Ha) as [(bs & c' & H1 & H2 & H3 & H4 & H5)|(e & c' & H1 & H2 & H3)]; [left|right].
  - exists bs, bs, c'. by split_and!.
  - exists (Transport e), c', []. rewrite H2, app_nil_r. split_and!; try done. intros a bs rest. by apply short_not_exactly.
Qed.

Lemma reads_exact_eof n answer msg : answers answer → reads (on_eof (read_exact n) answer msg) (exactly n).
Proof.
  intros Hans. split; [apply exactly_deterministic|]. intros c Ha Hw. unfold on_eof.
  destruct (read_exact_cases n c Ha) as [(bs & c' & -> & H2 & H3 & H4 & H5)|(e & c' & -> & H2 & H3)]; [left|right].
  - exists bs, bs, c'. by split_and!.
  - assert (∀ a bs rest, script_bytes (input c) = bs ++ rest → ¬ exactly n a bs)
      by (intros a bs rest; by apply short_not_exactly).
    destruct (decide (e = UnexpectedEof)) as [->|].
    + destruct (Hans c') as (c'' & w & -> & Hwire & HR); [by rewrite H2|]. rewrite H2 in Hwire. by eexists _, c'', w.
    + destruct e; try done; (eexists _, c', []; rewrite H2, app_nil_r; by split_and!).
Qed.

Lemma reads_bind {A B} (m : hs SocksError A) (f : A → hs SocksError B) L1 L2 :
  reads m L1 → (∀ a bs, L1 a bs → reads (f a) (L2 a)) →
  reads (hbind m f) (λ b bs, ∃ a b1 b2, L1 a b1 ∧ L2 a b b2 ∧ bs = b1 ++ b2).
Proof.
  intros [Hd1 Hm] Hf. split.
  - intros b b' bs bs' r r' Hok (a & b1 & b2 & H1 & H2 & ->) (a' & b1' & b2' & H1' & H2' & ->) Heq.
    rewrite <- (app_assoc b1), <- (app_assoc b1') in Heq. rewrite <- app_assoc in Hok. destruct (Hd1 _ _ _ _ _ _ Hok H1 H1' Heq) as [-> ->].
    apply app_inv_head in Heq. apply Forall_app in Hok as [_ Hok]. destruct (Hf _ _ H1) as [Hd2 _].
    by destruct (Hd2 _ _ _ _ _ _ Hok H2 H2' Heq) as [-> ->].
  - intros c Ha Hw. pose proof (awaited_bytes _ Ha) as Hok. unfold hbind.
    destruct (Hm c Ha Hw) as [(a & bs & c' & -> & H2 & H3 & H4 & H5)|(e & c' & w & -> & H2 & H3 & H4)].
    + destruct (Hf a bs H2) as [Hd2 Hk]. rewrite <- H5 in Hw.
      destruct (Hk c' H4 Hw) as [(b & b2 & c'' & -> & K2 & K3 & K4 & K5)|(e & c'' & w & -> & K2 & K3 & K4)]; [left|right].
      * exists b, (bs ++ b2), c''. split_and!; [done|by exists a, bs, b2| |done|congruence].
        by rewrite H3, K3, app_assoc.
      * exists e, c'', w. rewrite <- H5. split_and!; try done. intros b bs' rest Heq (a' & b1 & b2 & J1 & J2 & ->).
        rewrite H3, <- app_assoc in Heq. rewrite H3 in Hok.
        destruct (Hd1 _ _ _ _ _ _ Hok H2 J1 Heq) as [-> ->]. apply app_inv_head in Heq. by apply (K4 b b2 rest).
    + right. exists e, c', w. split_and!; try done. intros b bs rest Heq (a & b1 & b2 & J1 & J2 & ->).
      rewrite <- app_assoc in Heq. by apply (H4 a b1 (b2 ++ rest)).
Qed.
End Parsers.

(** *** What is written *)

Lemma write_all_uses evs bs :
  Forall (λ e, match e with Accept n => 0 < n | _ => False end) evs → (length bs ≤ length evs)%nat →
  ∃ evs', write_all evs bs = (Finished (Ok tt), bs, evs') ∧
    Forall (λ e, match e with Accept n => 0 < n | _ => False end) evs' ∧ (length evs ≤ length evs' + length bs)%nat.
Proof.
  revert bs. induction evs as [|e evs IH]; intros bs Hall Hl.
  { destruct bs; [|simpl in Hl; lia]. by exists []. }
  destruct bs as [|b bs]; [eexists; split_and!; [done|done|simpl; lia]|].
  apply Forall_cons in Hall as [He Hall]. destruct e as [n|k|]; [|done..]. cbn [write_all].
  set (w := Z.to_nat (Z.min n (zlen (b :: bs)))). assert (0 < w ≤ length (b :: bs))%nat by (subst w; simpl; lia).
  rewrite bool_decide_eq_false_2 by lia.
  destruct (IH (drop w (b :: bs)) Hall) as (evs' & -> & Hall' & Hl'); [rewrite length_drop; simpl in *; lia|].
  exists evs'. rewrite take_drop. split_and!; [done|done|]. rewrite length_drop in Hl'. simpl in *. lia.
Qed.

Lemma write_and_flush_willing bs c n :
  willing (output c) (length bs + n) →
  ∃ w', write_and_flush bs c = (Finished (Ok tt), {| input := input c; output := w' |}) ∧
    wire w' = wire (output c) ++ bs ∧ willing w' n.
Proof.
  intros (Hall & Hn & Hf). destruct (write_all_uses (events (output c)) bs Hall) as (evs' & Hw & Hall' & Hl); [lia|].
  unfold write_and_flush. rewrite Hw, Hf. eexists. split; [done|]. split; [done|]. split_and!; [done|simpl; lia|done].
Qed.

(** The ten bytes of a reply without an address. *)
Definition reply_bytes (r : Reply) : Bytes := [VERSION; code r; 0; ATYP_IPV4; 0; 0; 0; 0; 0; 0].

(** What a failed greeting and a failed request can have been answered with. *)
Definition greeting_answer (w : Bytes) : Prop := w = [] ∨ w = [VERSION; METHOD_NO_ACCEPTABLE].
Definition request_answer (w : Bytes) : Prop :=
  w = [] ∨ ∃ r, w = reply_bytes r ∧ r ∈ [GeneralFailure; CommandNotSupported; AddressTypeNotSupported].

Lemma refuses_method : answers greeting_answer 2 (send_method_selection METHOD_NO_ACCEPTABLE).
Proof.
  intros c Hw. destruct (write_and_flush_willing [VERSION; METHOD_NO_ACCEPTABLE] c 0 Hw) as (w' & H1 & H2 & _).
  eexists _, _. split; [exact H1|]. split; [exact H2|by right].
Qed.

Lemma send_reply_answers r :
  r ∈ [GeneralFailure; CommandNotSupported; AddressTypeNotSupported] → answers request_answer 10 (send_reply r).
Proof.
  intros Hr c Hw. destruct (write_and_flush_willing (reply_bytes r) c 0 Hw) as (w' & H1 & H2 & _).
  eexists _, _. split; [exact H1|]. split; [exact H2|]. right. by exists r.
Qed.

Lemma general_failure_answers : answers request_answer 10 (send_reply GeneralFailure).
Proof. apply send_reply_answers. set_solver. Qed.

Lemma greeting_answer_nil : greeting_answer [].
Proof. by left. Qed.
Lemma request_answer_nil : request_answer [].
Proof. by left. Qed.

#[local] Hint Resolve greeting_answer_nil request_answer_nil refuses_method general_failure_answers : socks.

(** *** The languages *)

Definition endpoint_wf (ep : SocksEndpoint) : Prop :=
  match ep with
  | Ipv4 a p => is_u32 a ∧ is_u16 p
  | Domain d p => zlen d ≤ 255 ∧ bytes_ok d ∧ utf8_valid d = true ∧ is_u16 p
  | Ipv6 a p => is_u128 a ∧ is_u16 p
  end.

(** RFC 1928, section 5. *)
Definition endpoint_bytes (ep : SocksEndpoint) : Bytes :=
  match ep with
  | Ipv4 a p => [ATYP_IPV4] ++ be_encode 4 a ++ be_encode 2 p
  | Domain d p => [ATYP_DOMAIN] ++ [zlen d] ++ d ++ be_encode 2 p
  | Ipv6 a p => [ATYP_IPV6] ++ be_encode 16 a ++ be_encode 2 p
  end.

Lemma be_word n w z bs :
  w = 8 * Z.of_nat n → bytes_ok bs → (length bs = n ∧ z = be_decode bs) ↔ (in_width w z ∧ bs = be_encode n z).
Proof.
  intros -> Hb. split.
  - intros [<- ->]. split; [unfold in_width; rewrite <- pow256 by lia; by apply be_decode_bound|].
    by rewrite be_encode_decode.
  - intros [Hz ->]. rewrite length_be_encode. split; [done|].
    rewrite be_decode_encode_small; [done|]. unfold in_width in Hz. by rewrite pow256 by lia.
Qed.

Abbreviation request_reads := (reads request_answer 10).

Lemma reads_request_exact n : request_reads (read_request_exact n) (exactly n).
Proof. apply reads_exact_eof; auto with socks. Qed.

Lemma reads_port : request_reads read_port (λ p bs, is_u16 p ∧ bs = be_encode 2 p).
Proof.
  eapply reads_ext; [|eapply reads_bind; [apply reads_request_exact|intros ? ? _; apply reads_ret; auto with socks]].
  intros p bs Hb. rewrite <- (be_word 2) by done. split.
  - intros (a & b1 & b2 & [-> Hl] & [-> ->] & ->). by rewrite app_nil_r.
  - intros [Hl ->]. exists bs, bs, []. by rewrite app_nil_r.
Qed.

(** The address and the port of a numeric endpoint. *)
Lemma reads_address n w (mk : Z → Z → SocksEndpoint) :
  w = 8 * Z.of_nat n →
  request_reads (let* octets := read_request_exact n in let* port := read_port in hret (Ok (mk (be_decode octets) port)))
    (λ ep bs, ∃ a p, ep = mk a p ∧ in_width w a ∧ is_u16 p ∧ bs = be_encode n a ++ be_encode 2 p).
Proof.
  intros Hw. eapply reads_ext; [|eapply reads_bind; [apply reads_request_exact|intros ? ? _; eapply reads_bind;
    [apply reads_port|intros ? ? _; apply reads_ret; auto with socks]]].
  intros ep bs Hb. split.
  - intros (a & b1 & b2 & [-> Hl] & (p & b21 & b22 & [Hp ->] & [-> ->] & ->) & ->).
    apply Forall_app in Hb as [Hb _]. exists (be_decode b1), p.
    destruct (proj1 (be_word n w (be_decode b1) b1 Hw Hb)) as [? E]; [done|].
    split_and!; [done..|]. by rewrite <- E, app_nil_r.
  - intros (a & p & -> & Ha & Hp & ->). apply Forall_app in Hb as [Hb _].
    destruct (proj2 (be_word n w a (be_encode n a) Hw Hb)) as [Hl E]; [done|].
    exists (be_encode n a), (be_encode n a), (be_encode 2 p). split_and!; [by split| |done].
    exists p, (be_encode 2 p), []. rewrite <- E, app_nil_r. naive_solver.
Qed.

Lemma reads_domain :
  request_reads
    (let* len := read_request_exact 1 in
     let* domain := read_request_exact (match len with [n] => Z.to_nat n | _ => 0 end) in
     let* port := read_port in
     if utf8_valid domain then hret (Ok (Domain domain port))
     else reject (send_reply GeneralFailure) (Malformed "socks domain is not utf-8"))
    (λ ep bs, ∃ d p, ep = Domain d p ∧ endpoint_wf ep ∧ bs = [zlen d] ++ d ++ be_encode 2 p).
Proof.
  eapply reads_ext; [|eapply reads_bind; [apply reads_request_exact|intros len ? _; eapply reads_bind;
    [apply reads_request_exact|intros d ? _; eapply (reads_bind _ _ _ _ _ (λ p ep bs, utf8_valid d = true ∧ ep = Domain d p ∧ bs = []));
    [apply reads_port|intros p ? _]]]].
  - intros ep bs Hb. split.
    + intros (len & b1 & b2 & [-> Hl] & (d & b21 & b22 & [-> Hd] & (p & b3 & b4 & [Hp ->] & (Hu & -> & ->) & ->) & ->) & ->).
      destruct b1 as [|n [|]]; [done| |done]. apply Forall_cons in Hb as [Hn Hb]. apply Forall_app in Hb as [Hdb _].
      unfold in_width in Hn. assert (zlen b21 = n) as E by lia. exists b21, p.
      split_and!; [done|by split_and!; [lia|..]|by rewrite E, app_nil_r].
    + intros (d & p & -> & (Hl & Hdb & Hu & Hp) & ->). exists [zlen d], [zlen d], (d ++ be_encode 2 p).
      split_and!; [done| |done]. exists d, d, (be_encode 2 p). split_and!; [by split; [|rewrite Nat2Z.id]| |done].
      exists p, (be_encode 2 p), []. split_and!; [done..|]. by rewrite app_nil_r.
  - destruct (utf8_valid d).
    + eapply reads_ext; [|apply reads_ret; auto with socks]. naive_solver.
    + eapply reads_ext; [|apply reads_reject; auto with socks]. naive_solver.
Qed.

Lemma reads_endpoint t :
  request_reads (read_endpoint t) (λ ep bs, endpoint_wf ep ∧ endpoint_bytes ep = [t] ++ bs).
Proof.
  unfold read_endpoint. destruct (t =? ATYP_IPV4) eqn:H4; [|destruct (t =? ATYP_DOMAIN) eqn:Hd;
    [|destruct (t =? ATYP_IPV6) eqn:H6]]; bool_to_prop; subst.
  - eapply reads_ext; [|by apply (reads_address 4 32 Ipv4)]. intros ep bs _. split; [naive_solver|].
    intros [Hwf Heq]. destruct ep; simplify_eq/=. naive_solver.
  - eapply reads_ext; [|apply reads_domain]. intros ep bs _. split; [naive_solver|].
    intros [Hwf Heq]. destruct ep; simplify_eq/=. naive_solver.
  - eapply reads_ext; [|by apply (reads_address 16 128 Ipv6)]. intros ep bs _. split; [naive_solver|].
    intros [Hwf Heq]. destruct ep; simplify_eq/=. naive_solver.
  - eapply reads_ext; [|apply reads_reject, send_reply_answers; set_solver]. intros ep bs _. split; [done|].
    intros [_ Heq]. destruct ep; simpl in Heq; injection Heq as <- _; done.
Qed.

Lemma reads_head : request_reads read_request_head (λ h bs, bs = [VERSION; command h; 0; addr_type h]).
Proof.
  eapply reads_ext; [|eapply (reads_bind _ _ _ _ _ (λ a h bs, a = [VERSION; command h; 0; addr_type h] ∧ bs = []));
    [apply reads_request_exact|intros a bs [-> Hl]]].
  - intros h bs Hb. split.
    + by intros (a & b1 & b2 & [-> _] & [-> ->] & ->).
    + intros ->. by exists [VERSION; command h; 0; addr_type h], [VERSION; command h; 0; addr_type h], [].
  - destruct bs as [|v [|cmd [|rsv [|atyp [|]]]]]; try done. destruct (v =? VERSION) eqn:Hv; cbn [negb]; bool_to_prop.
    2: { eapply reads_ext; [|apply reads_reject; auto with socks]. naive_solver. }
    destruct (rsv =? 0) eqn:Hr; cbn [negb]; bool_to_prop.
    2: { eapply reads_ext; [|apply reads_reject; auto with socks]. naive_solver. }
    subst. eapply reads_ext; [|apply reads_ret; auto with socks]. intros [c t] bs _. naive_solver.
Qed.

Lemma validate_target_Ok t u : validate_target t = Ok u ↔ Target.target_valid t.
Proof.
  unfold validate_target. destruct u. rewrite rbind_Ok. setoid_rewrite map_err_Ok. setoid_rewrite Target.encode_Ok.
  split; [naive_solver|]. intros Hv.
  destruct (Varint.encode_total (zlen (Target.host_bytes t))) as (l & Hl & _).
  { pose proof (Target.bad_length_None _ _ (zlen_nonneg _) (Target.addr_type_known t) (Target.valid_length t Hv)).
    change Varint.MAX_VARINT with 4611686018427387903. pose proof (zlen_nonneg (Target.host_bytes t)). lia. }
  eexists. eauto.
Qed.

Lemma target_from_endpoint_Ok ep t :
  target_from_endpoint ep = Ok t ↔ ep = endpoint_from_target t ∧ Target.target_valid t.
Proof.
  unfold target_from_endpoint. rewrite rbind_Ok. setoid_rewrite validate_target_Ok.
  split; [intros (_ & Hv & [= <-])|intros [-> Hv]; exists tt]; by destruct ep || destruct t.
Qed.

Lemma target_from_endpoint_no_panic ep : target_from_endpoint ep ≠ Panic.
Proof.
  unfold target_from_endpoint, validate_target, Target.encode, Target.validate_port.
  no_panic; first [apply Varint.encode_Panic|apply Target.validate_domain_Panic].
Qed.

Lemma endpoint_from_target_wf t :
  Target.target_valid t → endpoint_wf (endpoint_from_target t) ↔ Target.target_wf t.
Proof.
  intros [_ Hv]. destruct t as [d p|a p|a p]; unfold Target.target_wf; simpl; [|tauto..].
  pose proof (Target.validate_domain_utf8 _ _ Hv) as [Hu Hbd].
  apply Target.validate_domain_Ok in Hv as (_ & Hl & _). tauto.
Qed.

(** A request and its bytes (RFC 1928, section 4). *)
Definition request_wf (r : Request) : Prop :=
  match r with
  | Connect t => Target.target_wf t ∧ Target.target_valid t
  | UdpAssociate ep => endpoint_wf ep ∧ validate_udp_associate_endpoint ep = Ok tt
  end.
Definition request_bytes (r : Request) : Bytes :=
  match r with
  | Connect t => [VERSION; CMD_CONNECT; 0] ++ endpoint_bytes (endpoint_from_target t)
  | UdpAssociate ep => [VERSION; CMD_UDP_ASSOCIATE; 0] ++ endpoint_bytes ep
  end.

Lemma reads_request : request_reads read_request (λ r bs, request_wf r ∧ bs = request_bytes r).
Proof.
  eapply reads_ext; [|eapply (reads_bind _ _ _ _ _ (λ h r bs,
    request_wf r ∧ [VERSION; command h; 0; addr_type h] ++ bs = request_bytes r)); [apply reads_head|intros h b0 _; clear b0]].
  { intros r bs _. split.
    - by intros (h & b1 & b2 & -> & [? <-] & ->).
    - intros [Hwf ->]. assert (∃ c t b, request_bytes r = [VERSION; c; 0; t] ++ b) as (c & t & b & E).
      { destruct r as [[| |]|[| |]]; simpl; eauto. }
      exists {| command := c; addr_type := t |}, [VERSION; c; 0; t], b. rewrite E. by split_and!. }
  destruct h as [cmd t]. cbn [command addr_type].
  destruct (cmd =? CMD_CONNECT) eqn:Hc; [|destruct (cmd =? CMD_UDP_ASSOCIATE) eqn:Hu]; bool_to_prop; subst.
  - eapply reads_ext; [|eapply (reads_bind _ _ _ _ _ (λ ep r bs,
      bs = [] ∧ ∃ t, r = Connect t ∧ ep = endpoint_from_target t ∧ Target.target_valid t)); [apply reads_endpoint|intros ep b0 _; clear b0]].
    + intros r bs _. split.
      * intros (ep & b1 & b2 & [Hwf Hb] & (-> & tg & -> & -> & Hv) & ->). rewrite endpoint_from_target_wf in Hwf by done.
        split; [done|]. simpl. by rewrite Hb, app_nil_r.
      * intros [Hwf Hb]. destruct r as [tg|ep]; simplify_eq/=. destruct Hwf as [Hwf Hv].
        exists (endpoint_from_target tg), bs, []. rewrite endpoint_from_target_wf, app_nil_r by done. naive_solver.
    + destruct (target_from_endpoint ep) as [tg|e|] eqn:Ht.
      * apply target_from_endpoint_Ok in Ht as [-> Hv]. eapply reads_ext; [|apply reads_ret; auto with socks].
        intros r bs _. split; [naive_solver|]. intros (-> & t' & -> & Heq & _). by destruct tg, t'; simplify_eq/=.
      * eapply reads_ext; [|apply reads_reject; auto with socks]. intros r bs _. split; [done|].
        intros (-> & t' & -> & -> & Hv). by rewrite (proj2 (target_from_endpoint_Ok _ t')) in Ht.
      * by apply target_from_endpoint_no_panic in Ht.
  - eapply reads_ext; [|eapply (reads_bind _ _ _ _ _ (λ ep r bs,
      bs = [] ∧ r = UdpAssociate ep ∧ validate_udp_associate_endpoint ep = Ok tt)); [apply reads_endpoint|intros ep b0 _; clear b0]].
    + intros r bs _. split.
      * intros (ep & b1 & b2 & [Hwf Hb] & (-> & -> & Hv) & ->). split; [done|]. simpl. by rewrite Hb, app_nil_r.
      * intros [Hwf Hb]. destruct r as [tg|ep]; simplify_eq/=. exists ep, bs, []. rewrite app_nil_r. naive_solver.
    + destruct (validate_udp_associate_endpoint ep) as [[]|e|] eqn:Hv.
      * eapply reads_ext; [|apply reads_ret; auto with socks]. naive_solver.
      * eapply reads_ext; [|apply reads_reject; auto with socks]. naive_solver.
      * assert (validate_udp_associate_endpoint ep ≠ Panic) by
          (unfold validate_udp_associate_endpoint, validate_domain; no_panic). done.
  - eapply reads_ext; [|apply reads_reject, send_reply_answers; set_solver]. intros r bs _. split; [done|].
    intros [_ Heq]. destruct r as [[| |]|[| |]]; simpl in Heq; injection Heq as ? _; done.
Qed.

(** A greeting that offers no authentication among its methods (section 3). *)
Definition greeting_bytes (methods : Bytes) : Bytes := [VERSION; zlen methods] ++ methods.
Definition greeting_ok (methods : Bytes) : Prop :=
  (1 ≤ length methods ≤ 255)%nat ∧ METHOD_NO_AUTH ∈ methods.

Lemma reads_same {A} R k (m m' : hs SocksError A) L : (∀ c, m c = m' c) → reads R k m L → reads R k m' L.
Proof. intros Hm [Hd H]. split; [done|]. intros c. rewrite <- Hm. apply H. Qed.

Lemma reads_byte R k (m : hs SocksError Bytes) :
  R [] → reads R k m (exactly 1) →
  reads R k (let* b := m in hret (match b with [x] => Ok x | _ => Panic end)) (λ b bs, bs = [b]).
Proof.
  intros HR Hm. eapply reads_ext; [|eapply (reads_bind _ _ _ _ _ (λ a b bs, a = [b] ∧ bs = [])); [exact Hm|intros a bs [-> Hl]]].
  - intros b bs _. split; [by intros (a & b1 & b2 & [-> _] & [-> ->] & ->)|]. intros ->. by exists [b], [b], [].
  - destruct bs as [|x [|]]; [done| |done]. eapply reads_ext; [|by apply reads_ret]. naive_solver.
Qed.

Lemma reads_greeting :
  reads greeting_answer 2 read_greeting (λ _ bs, ∃ methods, greeting_ok methods ∧ bs = greeting_bytes methods).
Proof.
  assert (reads greeting_answer 2 (on_eof read_u8 (send_method_selection METHOD_NO_ACCEPTABLE) "truncated socks greeting")
    (λ b bs, bs = [b])) as Hcount.
  { eapply reads_same; [|apply reads_byte; [auto with socks|apply (reads_exact_eof _ greeting_answer_nil _ 1
      (send_method_selection METHOD_NO_ACCEPTABLE) "truncated socks greeting"); auto with socks]].
    intros c. unfold read_u8, hbind, on_eof. destruct (read_exact 1 c) as [[[[|? [|]]|[[]| |]|]|] c']; try done.
    by destruct (send_method_selection METHOD_NO_ACCEPTABLE c') as [[]]. }
  apply (reads_ext _ _ _ _ (λ b bs, bs = [b] ∧ is_u8 b)) in Hcount.
  2: { intros b bs Hb. split; [|naive_solver]. intros ->. rewrite Forall_singleton in Hb; by split. }
  eapply reads_ext; [|eapply (reads_bind _ _ _ _ _ (λ v u bs, v = VERSION ∧ ∃ methods, greeting_ok methods ∧ bs = [zlen methods] ++ methods));
    [apply reads_byte, reads_exact; auto with socks|intros v b0 _; clear b0]].
  { intros u bs _. split; [intros (v & b1 & b2 & -> & (-> & m & Hm & ->) & ->); by exists m|].
    intros (m & Hm & ->). exists VERSION, [VERSION], ([zlen m] ++ m). naive_solver. }
  destruct (v =? VERSION) eqn:Hv; cbn [negb]; bool_to_prop.
  2: { eapply reads_ext; [|apply reads_fail; auto with socks]. naive_solver. }
  subst v. eapply reads_ext; [|eapply (reads_bind _ _ _ _ _ (λ n u bs, n = zlen bs ∧ greeting_ok bs));
    [exact Hcount|intros n b0 [_ Hn8]; clear b0]].
  { intros u bs Hb. split; [intros (n & b1 & b2 & [-> _] & [-> Hm] & ->); split; [done|by exists b2]|].
    intros (_ & m & Hm & ->). exists (zlen m), [zlen m], m. split_and!; try done. by apply Forall_cons in Hb as [? _]. }
  destruct (n =? 0) eqn:Hn; bool_to_prop.
  { eapply reads_ext; [|apply reads_reject; auto with socks]. intros u bs _. split; [done|].
    intros [E [[? _] _]]. lia. }
  unfold in_width in Hn8. eapply reads_ext; [|eapply (reads_bind _ _ _ _ _ (λ m u bs, bs = [] ∧ METHOD_NO_AUTH ∈ m));
    [apply reads_exact_eof; auto with socks|intros m b0 _; clear b0]].
  { intros u bs _. unfold greeting_ok. split.
    - intros (m & b1 & b2 & [-> Hl] & [-> Hin] & ->). rewrite app_nil_r. split_and!; [lia..|done].
    - intros (E & Hl & Hin). exists bs, bs, []. rewrite app_nil_r. split_and!; [by split; [|lia]|done|done|done]. }
  case_bool_decide as Hin.
  - eapply reads_ext; [|apply reads_ret; auto with socks]. intros [] bs _. naive_solver.
  - eapply reads_ext; [|apply reads_reject; auto with socks]. naive_solver.
Qed.

(** *** Datagram headers *)

Lemma take_word n w src off :
  w = 8 * Z.of_nat n → bytes_ok src → (off + n ≤ length src)%nat →
  in_width w (be_decode (take n (drop off src))) ∧ be_encode n (be_decode (take n (drop off src))) = take n (drop off src).
Proof.
  intros Hw Hb Hl. assert (length (take n (drop off src)) = n) as Hn by (rewrite length_take, length_drop; lia).
  destruct (proj1 (be_word n w (be_decode (take n (drop off src))) (take n (drop off src)) Hw
    (Forall_take _ _ _ (Forall_drop _ _ _ Hb)))) as [? E]; [by rewrite Hn|by rewrite <- E].
Qed.

Lemma take_split {A} n m (l : list A) : take n l ++ take m (drop n l) = take (n + m) l.
Proof. by rewrite take_take_drop. Qed.

Lemma decode_endpoint_Ok src t ep n :
  bytes_ok src → decode_endpoint src t = Ok (ep, n) →
  endpoint_wf ep ∧ (n ≤ length src)%nat ∧ endpoint_bytes ep = [t] ++ take n src.
Proof.
  intros Hb. unfold decode_endpoint.
  destruct (t =? ATYP_IPV4) eqn:H4; [|destruct (t =? ATYP_DOMAIN) eqn:Hd; [|destruct (t =? ATYP_IPV6) eqn:H6]];
    bool_to_prop; subst; [..|done].
  - destruct (_ <? _) eqn:Hl; [done|]. bool_to_prop. intros [= <- <-].
    destruct (take_word 4 32 src 0) as [Ha Ea]; [done|done|lia|]. rewrite drop_0 in *.
    destruct (take_word 2 16 src 4) as [Hp Ep]; [done|done|lia|].
    split_and!; [by split|lia|]. cbn [endpoint_bytes]. by rewrite Ea, Ep, take_split.
  - destruct src as [|len src]; [done|]. apply Forall_cons in Hb as [Hlen Hb]. unfold in_width in Hlen.
    destruct (_ <? _) eqn:Hl; [done|]. bool_to_prop. cbn [drop length] in *. rewrite drop_0.
    destruct (utf8_valid _) eqn:Hu; [|done]. cbn [negb]. intros [= <- <-].
    destruct (take_word 2 16 src (Z.to_nat len)) as [Hp Ep]; [done|done|lia|].
    assert (zlen (take (Z.to_nat len) src) = len) as El by (rewrite length_take; lia).
    split_and!; [split_and!; [lia|by apply Forall_take|done|done]|simpl; lia|].
    cbn [endpoint_bytes]. rewrite Ep, El. cbn. f_equal. f_equal. by rewrite take_split.
  - destruct (_ <? _) eqn:Hl; [done|]. bool_to_prop. intros [= <- <-].
    destruct (take_word 16 128 src 0) as [Ha Ea]; [done|done|lia|]. rewrite drop_0 in *.
    destruct (take_word 2 16 src 16) as [Hp Ep]; [done|done|lia|].
    split_and!; [by split|lia|]. cbn [endpoint_bytes]. by rewrite Ea, Ep, take_split.
Qed.
Lemma take_be n z x : take n (be_encode n z ++ x) = be_encode n z.
Proof. by rewrite take_app_length' by (by rewrite length_be_encode). Qed.
Lemma drop_be n z x : drop n (be_encode n z ++ x) = x.
Proof. by rewrite drop_app_length' by (by rewrite length_be_encode). Qed.
Lemma be_width n w z : w = 8 * Z.of_nat n → in_width w z → be_decode (be_encode n z) = z.
Proof. intros -> Hz. apply be_decode_encode_small. unfold in_width in Hz. by rewrite pow256 by lia. Qed.

Lemma decode_endpoint_bytes ep t b r :
  endpoint_wf ep → endpoint_bytes ep = [t] ++ b → decode_endpoint (b ++ r) t = Ok (ep, length b).
Proof.
  destruct ep as [a p|d p|a p]; cbn [endpoint_bytes endpoint_wf]; intros Hwf [= <- <-]; unfold decode_endpoint.
  - destruct Hwf as [Ha Hp]. change (ATYP_IPV4 =? ATYP_IPV4) with true. cbv iota.
    rewrite (proj2 (Z.ltb_ge _ _)) by (rewrite !length_app, !length_be_encode; lia).
    rewrite <- app_assoc, take_be, drop_be, take_be, (be_width 4 32), (be_width 2 16) by done.
    by rewrite length_app, !length_be_encode.
  - destruct Hwf as (Hl & Hb & Hu & Hp). change (ATYP_DOMAIN =? ATYP_IPV4) with false.
    change (ATYP_DOMAIN =? ATYP_DOMAIN) with true. cbv iota. cbn [app]. rewrite Nat2Z.id.
    rewrite (proj2 (Z.ltb_ge _ _)) by (simpl; rewrite !length_app, length_be_encode; lia).
    cbn [drop Nat.add]. rewrite drop_0, <- app_assoc, take_app_length, Hu, drop_app_length, take_be, (be_width 2 16) by done.
    cbn [negb length]. by rewrite length_app, length_be_encode.
  - destruct Hwf as [Ha Hp]. change (ATYP_IPV6 =? ATYP_IPV4) with false. change (ATYP_IPV6 =? ATYP_DOMAIN) with false.
    change (ATYP_IPV6 =? ATYP_IPV6) with true. cbv iota.
    rewrite (proj2 (Z.ltb_ge _ _)) by (rewrite !length_app, !length_be_encode; lia).
    rewrite <- app_assoc, take_be, drop_be, take_be, (be_width 16 128), (be_width 2 16) by done.
    by rewrite length_app, !length_be_encode.
Qed.

Lemma encode_target t :
  Target.target_valid t → encode_endpoint (endpoint_from_target t) = Ok (endpoint_bytes (endpoint_from_target t)).
Proof.
  intros [_ Hv]. destruct t as [d p|a p|a p]; try done. cbn [endpoint_from_target encode_endpoint].
  apply Target.validate_domain_Ok in Hv as (Hne & Hl & _ & _ & Hc & _). unfold validate_domain.
  rewrite bool_decide_eq_false_2, (proj2 (Z.ltb_ge _ _)) by done. cbn [orb].
  destruct (existsb is_ascii_control d) eqn:He; [|done]. exfalso.
  apply existsb_exists in He as (c & Hin & Hctl). rewrite Forall_forall in Hc. apply list_elem_of_In, Hc in Hin.
  unfold Target.domain_char, is_ascii_control, is_ascii_alphanumeric, is_ascii_digit, is_ascii_upper, is_ascii_lower,
    in_range, DOT, HYPHEN in *. lia.
Qed.

Lemma encode_udp_datagram_Ok t p bs :
  encode_udp_datagram t p = Ok bs ↔
  Target.target_valid t ∧ bs = [0; 0; 0] ++ endpoint_bytes (endpoint_from_target t) ++ p.
Proof.
  unfold encode_udp_datagram. rewrite rbind_Ok. setoid_rewrite validate_target_Ok. split.
  - intros (_ & Hv & H). rewrite encode_target in H by done. by simplify_eq/=.
  - intros [Hv ->]. exists tt. by rewrite encode_target.
Qed.

(** ** What the front end guarantees *)

(** C27: the negotiation understands exactly the SOCKS5 of RFC 1928, however the
    bytes arrive.  A request is accepted if and only if the input starts with a
    greeting that offers "no authentication" and the encoding of that request, its
    target valid; the client has then been told only the chosen method, and nothing
    beyond the request has been consumed.  On every other input the negotiation
    fails, and what was written is nothing, the refusal of the methods, or the
    chosen method with at most one reply, which is never "succeeded". *)
Theorem socks_negotiation_exact c :
  attended c → willing (output c) 12 →
  let '(f, c') := negotiate_request c in
  (∀ r, f = Finished (Ok r) ↔
     request_wf r ∧ ∃ methods rest, greeting_ok methods ∧
       script_bytes (input c) = greeting_bytes methods ++ request_bytes r ++ rest) ∧
  match f with
  | Finished (Ok r) =>
      wire (output c') = wire (output c) ++ [VERSION; METHOD_NO_AUTH] ∧
      ∃ methods, script_bytes (input c) = greeting_bytes methods ++ request_bytes r ++ script_bytes (input c')
  | Finished (Err _) =>
      ∃ w, wire (output c') = wire (output c) ++ w ∧
        (greeting_answer w ∨ ∃ w', request_answer w' ∧ w = [VERSION; METHOD_NO_AUTH] ++ w')
  | _ => False
  end.
Proof.
  intros Ha Hw. unfold negotiate_request, hbind at 1. pose proof (awaited_bytes _ Ha) as Hok.
  destruct reads_greeting as [Hdg Hg]. destruct reads_request as [Hdr Hr].
  destruct (Hg c Ha (willing_le _ _ 2 Hw ltac:(lia)))
    as [(u & bs & c1 & -> & (m & Hm & ->) & Hs & Ha1 & Ho)|(e & c1 & w & -> & Hwire & HR & Hno)].
  2: { split; [|by exists w; auto]. intros r. split; [done|]. intros (_ & m & rest & Hm & Hs).
       exfalso. by apply (Hno tt _ _ Hs); exists m. }
  rewrite <- Ho in Hw. destruct (write_and_flush_willing [VERSION; METHOD_NO_AUTH] c1 10 Hw) as (w1 & H1 & Hwire1 & Hw1).
  unfold hbind, send_method_selection. rewrite H1. rewrite Ho in Hwire1.
  destruct (Hr {| input := input c1; output := w1 |} Ha1 Hw1)
    as [(r & bs & c2 & -> & [Hwf ->] & Hs2 & Ha2 & Ho2)|(e & c2 & w & -> & Hwire & HR & Hno)]; cbn [input output] in *.
  - rewrite Hs2 in Hs. split; [|by rewrite Ho2; split; [|exists m]]. intros r'. split; [intros [= <-]; eauto|].
    intros (Hwf' & m' & rest & Hm' & Hs'). rewrite Hs in Hs', Hok.
    destruct (Hdg tt tt _ _ _ _ Hok (ex_intro _ m (conj Hm eq_refl)) (ex_intro _ m' (conj Hm' eq_refl)) Hs') as [_ E].
    rewrite E in Hs'. apply app_inv_head in Hs'. apply Forall_app in Hok as [_ Hok].
    by destruct (Hdr r r' _ _ _ _ Hok (conj Hwf eq_refl) (conj Hwf' eq_refl) Hs') as [-> _].
  - split.
    + intros r. split; [done|]. intros (Hwf & m' & rest & Hm' & Hs'). exfalso. rewrite Hs in Hs', Hok.
      destruct (Hdg tt tt _ _ _ _ Hok (ex_intro _ m (conj Hm eq_refl)) (ex_intro _ m' (conj Hm' eq_refl)) Hs') as [_ E].
      rewrite E in Hs'. apply app_inv_head in Hs'. by apply (Hno r _ _ Hs').
    + exists ([VERSION; METHOD_NO_AUTH] ++ w). rewrite Hwire, Hwire1, <- app_assoc. split; [done|]. right. by exists w.
Qed.

(** The header of a relayed datagram is decoded exactly when it is what the
    encoder writes: a packet decodes to a target and a payload if and only if it is
    the encoding of that payload for that valid target. *)
Theorem udp_datagram_decode_iff_encode packet d :
  bytes_ok packet →
  decode_udp_datagram packet = Ok d ↔
  Target.target_wf (target d) ∧ encode_udp_datagram (target d) (payload d) = Ok packet.
Proof.
  intros Hb. rewrite encode_udp_datagram_Ok. split.
  - unfold decode_udp_datagram. destruct packet as [|b0 [|b1 [|b2 [|b3 rest]]]]; try done. intros H.
    destruct (b0 =? 0) eqn:H0, (b1 =? 0) eqn:H1, (b2 =? 0) eqn:H2; try done. bool_to_prop. subst. cbn [negb orb] in H.
    apply rbind_Ok in H as ([ep n] & Hep & H). apply rbind_Ok in H as (t & Ht & [= <-]).
    repeat (apply Forall_cons in Hb as [_ Hb]). apply decode_endpoint_Ok in Hep as (Hwf & Hn & He); [|done].
    apply target_from_endpoint_Ok in Ht as [-> Hv]. cbn [target payload].
    split; [by apply endpoint_from_target_wf|]. split; [done|]. rewrite He. cbn. by rewrite take_drop.
  - intros (Hwf & Hv & ->). destruct d as [t p]. cbn [target payload] in *.
    assert (∃ x b, endpoint_bytes (endpoint_from_target t) = [x] ++ b) as (x & b & E) by (destruct t; simpl; eauto).
    rewrite E. unfold decode_udp_datagram. cbn [app]. cbn [Z.eqb negb orb].
    rewrite (decode_endpoint_bytes (endpoint_from_target t)) by (done || by apply endpoint_from_target_wf).
    cbn [rbind]. rewrite (proj2 (target_from_endpoint_Ok _ t)) by done. cbn [rbind]. by rewrite drop_app_length.
Qed.

(** ** An instance: CONNECT example.com:443, in pieces *)
Module Demo.
Definition example : Target.Target := Target.Domain (bytes_of_string "example.com") 443.
Definition stream : Carrier :=
  {| input := [Data [5; 1]; Data [0; 5; 1]; Data ([0; 3; 11] ++ bytes_of_string "example"); Data (bytes_of_string ".com");
               Data [1; 187]; Eof];
     output := {| events := replicate 12 (Accept 1); flush_result := Ok tt; wire := [] |} |}.

Lemma socks_negotiation_exact_witness : (negotiate_request stream).1 = Finished (Ok (Connect example)).
Proof.
  pose proof (socks_negotiation_exact stream) as H.
  destruct (negotiate_request stream) as [f c']. apply H.
  - split; [|done]. repeat constructor; done.
  - split_and!; [by apply Forall_replicate|done|done].
  - split; [split; [done|by split]|]. exists [0], []. split; [split; [simpl; lia|set_solver]|done].
Defined.

End Demo.
End Socks5.
