(* ===== verification/Auth.v ===== *)
(** * Auth: challenge-response authentication (crates/uk-auth/src/lib.rs)

    The payload codecs, the credential lookup, the MAC transcript, the
    verification routine and the replay cache.  HMAC-SHA256 and the random
    number generator come from other crates: the MAC is a parameter [hmac],
    random values are arguments.  [Mac::verify_slice] compares the tag with the
    computed one, which is its documented behaviour.  An [Instant] is the
    number of nanoseconds since an arbitrary origin; a [Duration] is a number
    of nanoseconds. *)

From stdpp Require Import sorting.
From S2P Require Import Prelude Wire Varint RustStd.

Module Auth.

(* @src crates/uk-auth/src/lib.rs 21-21 AUTH_LABEL *)
Definition AUTH_LABEL : Bytes := bytes_of_string "UK-AUTH-v1".
(* @src crates/uk-auth/src/lib.rs 24-25 MAX_KEY_ID_LEN *)
Definition MAX_KEY_ID_LEN : Z := 64.
(* @src crates/uk-auth/src/lib.rs 26-27 MIN_SECRET_LEN *)
Definition MIN_SECRET_LEN : Z := 32.
(* @src crates/uk-auth/src/lib.rs 28-37 MIN_PLAUSIBLE_DISTINCT_SECRET_BYTES *)
Definition MIN_PLAUSIBLE_DISTINCT_SECRET_BYTES : Z := 8.
(* @src crates/uk-auth/src/lib.rs 38-38 MIN_RESPONSE_TAIL_LEN *)
Definition MIN_RESPONSE_TAIL_LEN : Z := 73.
(* @src crates/uk-auth/src/lib.rs 39-40 MIN_AUTH_RESPONSE_PAYLOAD_SIZE *)
Definition MIN_AUTH_RESPONSE_PAYLOAD_SIZE : Z := 75.
(* @src crates/uk-auth/src/lib.rs 41-42 DEFAULT_REPLAY_CACHE_WINDOW_SECONDS *)
Definition DEFAULT_REPLAY_CACHE_WINDOW_SECONDS : Z := 300.
(* @src crates/uk-auth/src/lib.rs 43-44 DEFAULT_REPLAY_CACHE_MAX_ENTRIES *)
Definition DEFAULT_REPLAY_CACHE_MAX_ENTRIES : Z := 65536.
(* @src crates/uk-auth/src/lib.rs 958-961 MAX_AUTH_CAPABILITIES_LEN *)
Definition MAX_AUTH_CAPABILITIES_LEN : Z := 1024.
(* @src crates/uk-auth/src/lib.rs 989-996 UNREADABLE_CLOCK *)
Definition UNREADABLE_CLOCK : Z := U64_MAX.

(* @src crates/uk-auth/src/lib.rs 49-97 AuthError *)
Inductive AuthError : Set :=
  | UnknownKey
  | CredentialNotActive
  | InvalidTag
  | ClockSkew
  | Replay
  | SecretTooShort
  | SecretNotRandom
  | InvalidKeyIdLength
  | InvalidCredentialStatus
  | DuplicateCredentialKeyId
  | NoCredentials
  | InvalidCredentialPolicyGroup
  | InvalidCredentialValidityWindow
  | InvalidPayload (what : string)
  | Protocol (e : ProtocolError).

Abbreviation AuthResult := (result AuthError).

(** [?] on a [ProtocolResult] inside a function returning [AuthResult]. *)
Abbreviation auth r := (map_err Protocol r).

(* @src crates/uk-auth/src/lib.rs 99-108 CredentialStatus *)
Inductive CredentialStatus : Set := Active | Disabled | Retired.

#[global] Instance CredentialStatus_eq_dec : EqDecision CredentialStatus.
Proof. solve_decision. Defined.

(* @src crates/uk-auth/src/lib.rs 110-125 Credential *)
Record Credential : Set := {
  key_id : Bytes;
  secret : Bytes;
  status : CredentialStatus;
  not_before : option Z;
  not_after : option Z;
  policy_group : option Bytes
}.

(* @src crates/uk-auth/src/lib.rs 127-134 AuthenticatedIdentity *)
Record AuthenticatedIdentity : Set := {
  id_key_id : Bytes;
  id_policy_group : option Bytes
}.

(* @src crates/uk-auth/src/lib.rs 136-143 AuthenticatedIdentity::from *)
Definition identity_from (c : Credential) : AuthenticatedIdentity :=
  {| id_key_id := key_id c; id_policy_group := policy_group c |}.

(* @src crates/uk-auth/src/lib.rs 222-233 AuthChallenge *)
Record AuthChallenge : Set := {
  server_nonce : Bytes;
  server_time : Z;
  server_capabilities : Bytes;
  limits : Bytes
}.

(* @src crates/uk-auth/src/lib.rs 295-308 AuthResponse *)
Record AuthResponse : Set := {
  r_key_id : Bytes;
  client_nonce : Bytes;
  client_time : Z;
  client_capabilities : Bytes;
  tag : Bytes
}.

(* @src crates/uk-auth/src/lib.rs 886-893 validate_key_id *)
Definition validate_key_id (key_id : Bytes) : AuthResult unit :=
  if bool_decide (key_id = []) || (MAX_KEY_ID_LEN <? zlen key_id)
  then Err InvalidKeyIdLength else Ok tt.

(* @src crates/uk-auth/src/lib.rs 935-947 is_single_repeated_byte *)
Definition is_single_repeated_byte (secret : Bytes) : bool :=
  match secret with
  | [] => false
  | first :: _ => foldl (λ differences byte, Z.lor differences (Z.lxor byte first)) 0 secret =? 0
  end.

(* @src crates/uk-auth/src/lib.rs 906-914 validate_shared_secret *)
Definition validate_shared_secret (secret : Bytes) : AuthResult unit :=
  if zlen secret <? MIN_SECRET_LEN then Err SecretTooShort else
  if is_single_repeated_byte secret then Err SecretNotRandom else
  Ok tt.

(* @src crates/uk-auth/src/lib.rs 949-956 distinct_byte_count *)
Definition distinct_byte_count (secret : Bytes) : Z :=
  let seen := foldl (λ seen byte, <[Z.to_nat byte := true]> seen) (replicate 256 false) secret in
  zlen (filter (λ b, b = true) seen).

(** The condition under which [warn_on_low_secret_diversity] logs. *)
(* @src crates/uk-auth/src/lib.rs 916-933 warn_on_low_secret_diversity *)
Definition warn_on_low_secret_diversity (secret : Bytes) : bool :=
  distinct_byte_count secret <? MIN_PLAUSIBLE_DISTINCT_SECRET_BYTES.

(* @src crates/uk-auth/src/lib.rs 199-202 Credential::validate_auth_material *)
Definition validate_auth_material (c : Credential) : AuthResult unit :=
  let? _ := validate_key_id (key_id c) in
  validate_shared_secret (secret c).

(* @src crates/uk-auth/src/lib.rs 185-197 Credential::active *)
Definition credential_active (kid sec : Bytes) : AuthResult Credential :=
  let c := {| key_id := kid; secret := sec; status := Active;
              not_before := None; not_after := None; policy_group := None |} in
  let? _ := validate_auth_material c in
  Ok c.

Definition opt_and (f : Z → bool) (o : option Z) : bool :=
  match o with Some v => f v | None => false end.

(* @src crates/uk-auth/src/lib.rs 204-219 Credential::is_active_at *)
Definition is_active_at (c : Credential) (now : Z) : bool :=
  if now =? UNREADABLE_CLOCK then false else
  if negb (bool_decide (status c = Active)) then false else
  if opt_and (λ nb, now <? nb) (not_before c) then false else
  if opt_and (λ na, na <? now) (not_after c) then false else
  true.

(* @src crates/uk-auth/src/lib.rs 976-987 validate_capabilities_len *)
Definition validate_capabilities_len (len : Z) : AuthResult unit :=
  if MAX_AUTH_CAPABILITIES_LEN <? len
  then Err (InvalidPayload "payload length exceeds maximum allowed") else Ok tt.

(* @src crates/uk-auth/src/lib.rs 248-258 AuthChallenge::generate *)
Definition challenge_generate (random_nonce : Bytes) (now : Z) : AuthChallenge :=
  {| server_nonce := random_nonce; server_time := now; server_capabilities := []; limits := [] |}.

(* @src crates/uk-auth/src/lib.rs 260-271 AuthChallenge::encode *)
Definition challenge_encode (c : AuthChallenge) : AuthResult Bytes :=
  let? _ := validate_capabilities_len (zlen (server_capabilities c)) in
  let? _ := validate_capabilities_len (zlen (limits c)) in
  let? l1 := auth (Varint.encode (zlen (server_capabilities c))) in
  let? l2 := auth (Varint.encode (zlen (limits c))) in
  Ok (server_nonce c ++ be_encode 8 (server_time c) ++ l1 ++ server_capabilities c
        ++ l2 ++ limits c).

(* @src crates/uk-auth/src/lib.rs 963-974 read_varbytes *)
Definition read_varbytes {P : Platform} (src : Bytes) (name : string) : AuthResult (Bytes * Bytes) :=
  let? '(len, src) := auth (Varint.decode src) in
  let? len := ok_or (Protocol InvalidVarint) (usize_try_from len) in
  if MAX_AUTH_CAPABILITIES_LEN <? len
  then Err (InvalidPayload "payload length exceeds maximum allowed") else
  if zlen src <? len then Err (InvalidPayload name) else
  buf_split len src.

(* @src crates/uk-auth/src/lib.rs 273-292 AuthChallenge::decode *)
Definition challenge_decode {P : Platform} (src : Bytes) : AuthResult AuthChallenge :=
  if zlen src <? 40 then Err (InvalidPayload "challenge is truncated") else
  let? '(nonce, src) := buf_split 32 src in
  let? '(time, src) := get_uint 8 src in
  let? '(caps, src) := read_varbytes src "server capabilities" in
  let? '(lim, src) := read_varbytes src "limits" in
  check bool_decide (src = []) else InvalidPayload "trailing challenge bytes" in
  Ok {| server_nonce := nonce; server_time := time; server_capabilities := caps; limits := lim |}.

(* @src crates/uk-auth/src/lib.rs 391-403 AuthResponse::encode *)
Definition response_encode (r : AuthResponse) : AuthResult Bytes :=
  let? _ := validate_key_id (r_key_id r) in
  let? _ := validate_capabilities_len (zlen (client_capabilities r)) in
  let? l1 := auth (Varint.encode (zlen (r_key_id r))) in
  let? l2 := auth (Varint.encode (zlen (client_capabilities r))) in
  Ok (l1 ++ r_key_id r ++ client_nonce r ++ be_encode 8 (client_time r)
        ++ l2 ++ client_capabilities r ++ tag r).

(* @src crates/uk-auth/src/lib.rs 405-439 AuthResponse::decode *)
Definition response_decode {P : Platform} (src : Bytes) : AuthResult AuthResponse :=
  let? '(len, src) := auth (Varint.decode src) in
  let? key_id_len := ok_or (Protocol InvalidVarint) (usize_try_from len) in
  if (key_id_len =? 0) || (MAX_KEY_ID_LEN <? key_id_len) then Err InvalidKeyIdLength else
  if zlen src <? key_id_len then Err (InvalidPayload "key id") else
  let? '(kid, src) := buf_split key_id_len src in
  let? _ := validate_key_id kid in
  if zlen src <? MIN_RESPONSE_TAIL_LEN then Err (InvalidPayload "response is truncated") else
  let? '(nonce, src) := buf_split 32 src in
  let? '(time, src) := get_uint 8 src in
  let? '(caps, src) := read_varbytes src "client capabilities" in
  if zlen src <? 32 then Err (InvalidPayload "response tag is truncated") else
  if 32 <? zlen src then Err (InvalidPayload "trailing response bytes") else
  let? '(t, src) := buf_split 32 src in
  Ok {| r_key_id := kid; client_nonce := nonce; client_time := time;
        client_capabilities := caps; tag := t |}.

(** A [SystemTime] as seconds and nanoseconds since the Unix epoch. *)
(* @src crates/uk-auth/src/lib.rs 1017-1021 unix_seconds_since_epoch *)
Definition unix_seconds_since_epoch (time_ns : Z) : option Z :=
  if time_ns <? 0 then None else Some (time_ns / 1000000000).

(* @src crates/uk-auth/src/lib.rs 998-1005 try_unix_now *)
Definition try_unix_now (clock_ns : Z) : option Z := unix_seconds_since_epoch clock_ns.

(* @src crates/uk-auth/src/lib.rs 1007-1015 unix_now *)
Definition unix_now (clock_ns : Z) : Z := default UNREADABLE_CLOCK (try_unix_now clock_ns).

(** ** The MAC transcript *)

(* @src crates/uk-auth/src/lib.rs 847-860 encoded_challenge_payload *)
Definition encoded_challenge_payload (c : AuthChallenge) : AuthResult (Z * Bytes) :=
  let? l1 := auth (Varint.encoded_len (zlen (server_capabilities c))) in
  let? l2 := auth (Varint.encoded_len (zlen (limits c))) in
  let capacity := 32 + 8 + l1 + zlen (server_capabilities c) + l2 + zlen (limits c) in
  let? payload := challenge_encode c in
  Ok (capacity, payload).

(* @src crates/uk-auth/src/lib.rs 862-884 encoded_response_prefix *)
Definition encoded_response_prefix (kid nonce : Bytes) (time : Z) (caps : Bytes)
    : AuthResult (Z * Bytes) :=
  let? l1 := auth (Varint.encoded_len (zlen kid)) in
  let? l2 := auth (Varint.encoded_len (zlen caps)) in
  let capacity := l1 + zlen kid + 32 + 8 + l2 + zlen caps in
  let? b1 := auth (Varint.encode (zlen kid)) in
  let? b2 := auth (Varint.encode (zlen caps)) in
  Ok (capacity, b1 ++ kid ++ nonce ++ be_encode 8 time ++ b2 ++ caps).

(** [HmacSha256] before [finalize]: its key and the bytes fed to it. *)
Record HmacState : Set := { mac_key : Bytes; mac_input : Bytes }.

(* @src crates/uk-auth/src/lib.rs 789-818 auth_mac *)
Definition auth_mac (sec exporter : Bytes) (challenge : AuthChallenge)
    (kid nonce : Bytes) (time : Z) (caps : Bytes) : AuthResult HmacState :=
  let? _ := validate_shared_secret sec in
  let key_id_len_error := validate_key_id kid in
  let? '(_, cp) := encoded_challenge_payload challenge in
  let? '(_, rp) := encoded_response_prefix kid nonce time caps in
  let? _ := key_id_len_error in
  Ok {| mac_key := sec; mac_input := AUTH_LABEL ++ exporter ++ cp ++ rp |}.

(* @src crates/uk-auth/src/lib.rs 820-825 timestamp_within_skew *)
Definition timestamp_within_skew (timestamp now allowed_skew : Z) : bool :=
  if (timestamp =? UNREADABLE_CLOCK) || (now =? UNREADABLE_CLOCK) then false
  else Z.abs (now - timestamp) <=? allowed_skew / 1000000000.

(* @src crates/uk-auth/src/lib.rs 761-774 pad_key_id_for_ct *)
Definition pad_key_id_for_ct (kid : Bytes) : Bytes :=
  let len := Z.min (zlen kid) MAX_KEY_ID_LEN in
  take (Z.to_nat len) kid ++ replicate (Z.to_nat (MAX_KEY_ID_LEN - len)) 0
    ++ reverse (be_encode 8 (truncate 64 (zlen kid))).

(** [subtle::ConstantTimeEq] on slices. *)
Definition ct_eq (a b : Bytes) : bool := bool_decide (a = b).

(* @src crates/uk-auth/src/lib.rs 145-166 Credential::eq *)
Definition credential_eq (a b : Credential) : bool :=
  (ct_eq (pad_key_id_for_ct (key_id a)) (pad_key_id_for_ct (key_id b))
   && (zlen (secret a) =? zlen (secret b)) && ct_eq (secret a) (secret b))
  && bool_decide (status a = status b)
  && bool_decide (not_before a = not_before b)
  && bool_decide (not_after a = not_after b)
  && bool_decide (policy_group a = policy_group b).

(* @src crates/uk-auth/src/lib.rs 321-329 AuthChallenge::eq *)
Definition challenge_eq (a b : AuthChallenge) : bool :=
  ct_eq (server_nonce a) (server_nonce b)
  && (server_time a =? server_time b)
  && bool_decide (server_capabilities a = server_capabilities b)
  && bool_decide (limits a = limits b).

(* @src crates/uk-auth/src/lib.rs 333-341 AuthResponse::eq *)
Definition response_eq (a b : AuthResponse) : bool :=
  ct_eq (tag a) (tag b)
  && bool_decide (r_key_id a = r_key_id b)
  && bool_decide (client_nonce a = client_nonce b)
  && (client_time a =? client_time b)
  && bool_decide (client_capabilities a = client_capabilities b).

(* @src crates/uk-auth/src/lib.rs 746-759 find_credential *)
Definition find_credential (credentials : list Credential) (kid : Bytes) : option Credential :=
  let input_padded := pad_key_id_for_ct kid in
  foldl (λ matched c,
    let is_match := ct_eq input_padded (pad_key_id_for_ct (key_id c)) in
    if is_match && bool_decide (matched = None) then Some c else matched) None credentials.

(** ** The replay cache *)

(* @src crates/uk-auth/src/lib.rs 562-571 ReplayKey *)
Record ReplayKey : Set := { rk_server_nonce : Bytes; rk_client_nonce : Bytes }.

#[global] Instance ReplayKey_eq_dec : EqDecision ReplayKey.
Proof. solve_decision. Defined.
#[global] Program Instance ReplayKey_countable : Countable ReplayKey :=
  inj_countable' (λ k, (rk_server_nonce k, rk_client_nonce k))
    (λ '(s, c), {| rk_server_nonce := s; rk_client_nonce := c |}) _.
Next Obligation. by intros []. Qed.

(* @src crates/uk-auth/src/lib.rs 442-459 ReplayCache *)
Record ReplayCache : Type := {
  window : Z;
  max_entries : Z;
  entries : gmap ReplayKey Z;
  order : list (Z * ReplayKey)
}.

(* @src crates/uk-auth/src/lib.rs 467-477 ReplayCache::with_max_entries *)
Definition with_max_entries (w m : Z) : ReplayCache :=
  {| window := w; max_entries := Z.max m 1; entries := ∅; order := [] |}.

(* @src crates/uk-auth/src/lib.rs 462-465 ReplayCache::new *)
Definition cache_new (w : Z) : ReplayCache := with_max_entries w DEFAULT_REPLAY_CACHE_MAX_ENTRIES.

(* @src crates/uk-auth/src/lib.rs 556-560 ReplayCache::default *)
Definition cache_default : ReplayCache :=
  cache_new (DEFAULT_REPLAY_CACHE_WINDOW_SECONDS * 1000000000).

(** [Instant::saturating_duration_since]. *)
Definition saturating_duration_since (now earlier : Z) : Z := Z.max 0 (now - earlier).

(* @src crates/uk-auth/src/lib.rs 523-531 ReplayCache::prune *)
Fixpoint prune_queue (w now : Z) (o : list (Z * ReplayKey)) (m : gmap ReplayKey Z)
    : list (Z * ReplayKey) * gmap ReplayKey Z :=
  match o with
  | [] => ([], m)
  | (inserted_at, key) :: o' =>
    if saturating_duration_since now inserted_at <=? w then (o, m)
    else prune_queue w now o' (delete key m)
  end.

(* @src crates/uk-auth/src/lib.rs 517-531 ReplayCache::prune *)
Definition prune (c : ReplayCache) (now : Z) : ReplayCache :=
  let '(o, m) := prune_queue (window c) now (order c) (entries c) in
  {| window := window c; max_entries := max_entries c; entries := m; order := o |}.

(** The eviction loop of [check_and_insert_at] with [evict_oldest] inlined: it
    removes the front of the queue until there is room, or the queue is empty. *)
(* @src crates/uk-auth/src/lib.rs 533-542 ReplayCache::evict_oldest *)
Fixpoint evict_loop (limit : Z) (o : list (Z * ReplayKey)) (m : gmap ReplayKey Z)
    : list (Z * ReplayKey) * gmap ReplayKey Z :=
  if Z.of_nat (size m) <? limit then (o, m)
  else match o with
       | [] => ([], m)
       | (_, key) :: o' => evict_loop limit o' (delete key m)
       end.

(* @src crates/uk-auth/src/lib.rs 492-515 ReplayCache::check_and_insert_at *)
Definition check_and_insert_at (c : ReplayCache) (inserted_at : Z) (snonce cnonce : Bytes)
    : AuthResult unit * ReplayCache :=
  let c := prune c inserted_at in
  let key := {| rk_server_nonce := snonce; rk_client_nonce := cnonce |} in
  match entries c !! key with
  | Some _ => (Err Replay, c)
  | None =>
    let '(o, m) := evict_loop (max_entries c) (order c) (entries c) in
    (Ok tt, {| window := window c; max_entries := max_entries c;
               entries := <[key := inserted_at]> m; order := o ++ [(inserted_at, key)] |})
  end.

(** ** Verification *)

Section Verify.
Context (hmac : Bytes → Bytes → Bytes) (dummy_secret : Bytes).

Definition finalize (m : HmacState) : Bytes := hmac (mac_key m) (mac_input m).

(* @src crates/uk-auth/src/lib.rs 573-594 compute_auth_tag *)
Definition compute_auth_tag (sec exporter : Bytes) (challenge : AuthChallenge)
    (kid nonce : Bytes) (time : Z) (caps : Bytes) : AuthResult Bytes :=
  let? m := auth_mac sec exporter challenge kid nonce time caps in
  Ok (finalize m).

(* @src crates/uk-auth/src/lib.rs 359-389 AuthResponse::for_challenge *)
Definition for_challenge (random_nonce kid sec exporter : Bytes) (challenge : AuthChallenge)
    (time : Z) (caps : Bytes) : AuthResult AuthResponse :=
  let? _ := validate_key_id kid in
  let? _ := validate_shared_secret sec in
  let? t := compute_auth_tag sec exporter challenge kid random_nonce time caps in
  Ok {| r_key_id := kid; client_nonce := random_nonce; client_time := time;
        client_capabilities := caps; tag := t |}.

(* @src crates/uk-auth/src/lib.rs 640-694 verify_auth_response_stateless *)
Definition verify_auth_response_stateless (credentials : list Credential) (exporter : Bytes)
    (challenge : AuthChallenge) (response : AuthResponse) (now allowed_skew : Z)
    : AuthResult Credential :=
  let matched := find_credential credentials (r_key_id response) in
  let sec :=
    match matched with
    | Some c => if is_ok (validate_auth_material c) then secret c else dummy_secret
    | None => dummy_secret
    end in
  let? m := auth_mac sec exporter challenge (r_key_id response) (client_nonce response)
              (client_time response) (client_capabilities response) in
  let tag_matches : AuthResult unit :=
    if ct_eq (finalize m) (tag response) then Ok tt else Err InvalidTag in
  let? c := ok_or UnknownKey matched in
  let? _ := validate_auth_material c in
  let? _ := tag_matches in
  if negb (is_active_at c now) then Err CredentialNotActive else
  if negb (timestamp_within_skew (server_time challenge) now allowed_skew)
     || negb (timestamp_within_skew (client_time response) now allowed_skew)
  then Err ClockSkew else
  Ok c.

(* @src crates/uk-auth/src/lib.rs 696-714 verify_auth_response_identity_stateless *)
Definition verify_auth_response_identity_stateless (credentials : list Credential)
    (exporter : Bytes) (challenge : AuthChallenge) (response : AuthResponse)
    (now allowed_skew : Z) : AuthResult AuthenticatedIdentity :=
  let? c := verify_auth_response_stateless credentials exporter challenge response now allowed_skew in
  Ok (identity_from c).

(* @src crates/uk-auth/src/lib.rs 716-735 verify_auth_response_credential *)
Definition verify_auth_response_credential (credentials : list Credential) (exporter : Bytes)
    (challenge : AuthChallenge) (response : AuthResponse) (now allowed_skew instant : Z)
    (cache : ReplayCache) : AuthResult Credential * ReplayCache :=
  match verify_auth_response_stateless credentials exporter challenge response now allowed_skew with
  | Ok c =>
    match check_and_insert_at cache instant (server_nonce challenge) (client_nonce response) with
    | (Ok _, cache') => (Ok c, cache')
    | (Err e, cache') => (Err e, cache')
    | (Panic, cache') => (Panic, cache')
    end
  | Err e => (Err e, cache)
  | Panic => (Panic, cache)
  end.

(* @src crates/uk-auth/src/lib.rs 596-616 verify_auth_response *)
Definition verify_auth_response := verify_auth_response_credential.

(* @src crates/uk-auth/src/lib.rs 618-638 verify_auth_response_identity *)
Definition verify_auth_response_identity (credentials : list Credential) (exporter : Bytes)
    (challenge : AuthChallenge) (response : AuthResponse) (now allowed_skew instant : Z)
    (cache : ReplayCache) : AuthResult AuthenticatedIdentity * ReplayCache :=
  let '(r, cache') := verify_auth_response_credential credentials exporter challenge response
                        now allowed_skew instant cache in
  (let? c := r in Ok (identity_from c), cache').
End Verify.

(** ** Lemmas: the codecs *)

Lemma validate_key_id_Ok k u : validate_key_id k = Ok u ↔ 1 ≤ zlen k ≤ 64.
Proof.
  unfold validate_key_id, MAX_KEY_ID_LEN. destruct u. destruct k as [|b k]; simpl; [naive_solver lia|].
  destruct (_ <? _) eqn:?; bool_to_prop; naive_solver lia.
Qed.

Lemma validate_key_id_Panic k : validate_key_id k ≠ Panic.
Proof. unfold validate_key_id. by case_match. Qed.

Lemma validate_capabilities_len_Ok n u : validate_capabilities_len n = Ok u ↔ n ≤ 1024.
Proof.
  unfold validate_capabilities_len, MAX_AUTH_CAPABILITIES_LEN. destruct u.
  destruct (_ <? _) eqn:?; bool_to_prop; naive_solver lia.
Qed.

Lemma auth_encode_total (b : Bytes) :
  zlen b ≤ 1024 → ∃ l, Varint.encode (zlen b) = Ok l ∧ 1 ≤ zlen l ≤ 8.
Proof.
  intros Hb. apply Varint.encode_total. change Varint.MAX_VARINT with 4611686018427387903. lia.
Qed.

(** A length-prefixed field. *)
Definition varbytes (b w : Bytes) : Prop :=
  zlen b ≤ 1024 ∧ ∃ l, Varint.encode (zlen b) = Ok l ∧ w = l ++ b.

Lemma varbytes_total b : zlen b ≤ 1024 → ∃ w, varbytes b w.
Proof. intros Hb. destruct (auth_encode_total b Hb) as (l & Hl & _). exists (l ++ b). split; eauto. Qed.

Lemma varbytes_prefix_free a b wa wb x y :
  varbytes a wa → varbytes b wb → wa ++ x = wb ++ y → a = b ∧ x = y.
Proof.
  intros (_ & la & Hla & ->) (_ & lb & Hlb & ->). rewrite <- !app_assoc. intros H.
  apply (pc_prefix_free (wf := is_u64) _ _ _ _ _ _ (Varint.encode_Ok_u64 _ _ Hla)
    (Varint.encode_Ok_u64 _ _ Hlb) Hla Hlb) in H as [Hlen H].
  apply app_inj_1 in H; [done|lia].
Qed.

Lemma varbytes_bytes b w : bytes_ok b → varbytes b w → bytes_ok w.
Proof.
  intros Hb (_ & l & Hl & ->). apply Forall_app. split; [|done].
  exact (pc_bytes _ l (Varint.encode_Ok_u64 _ _ Hl) Hl).
Qed.

Section CodecLemmas.
Context {P : Platform}.

Lemma read_varbytes_app b w r n : varbytes b w → read_varbytes (w ++ r) n = Ok (b, r).
Proof.
  intros (Hb & l & Hl & ->). unfold read_varbytes, MAX_AUTH_CAPABILITIES_LEN.
  rewrite <- app_assoc, (pc_roundtrip _ l _ (Varint.encode_Ok_u64 _ _ Hl) Hl). simpl.
  unfold usize_try_from.
  rewrite decide_True by (destruct USIZE_MAX_cases as [-> | ->]; lia). simpl.
  rewrite (proj2 (Z.ltb_ge _ _)) by lia.
  rewrite (proj2 (Z.ltb_ge _ _)) by (rewrite length_app; lia). by apply buf_split_app.
Qed.

Lemma read_varbytes_Ok s b r n :
  bytes_ok s → read_varbytes s n = Ok (b, r) ↔ ∃ w, varbytes b w ∧ s = w ++ r.
Proof.
  intros Hs. split; [|intros (w & Hw & ->); by apply read_varbytes_app].
  unfold read_varbytes, MAX_AUTH_CAPABILITIES_LEN. intros H.
  apply rbind_Ok in H as ([len r1] & H1%map_err_Ok & H).
  destruct (Varint.decode_nonneg _ _ _ H1) as [Hl0 _].
  apply pc_canonical in H1 as (_ & l & Hl & ->); [|done].
  apply rbind_Ok in H as (len' & [-> _]%ok_or_Ok%usize_try_from_Some & H).
  destruct (_ <? _) eqn:?; [done|]. destruct (zlen r1 <? _); [done|]. bool_to_prop.
  apply buf_split_Ok in H as [-> <-]; [|done]. exists (l ++ b). split; [|by rewrite app_assoc].
  split; [lia|]. eauto.
Qed.

Lemma read_varbytes_Panic s n : bytes_ok s → read_varbytes s n ≠ Panic.
Proof.
  intros Hs. unfold read_varbytes. intros H.
  apply rbind_Panic in H as [H%map_err_Panic|([len r1] & _ & H)]; [exact (sd_total _ Hs H)|].
  apply rbind_Panic in H as [H|(len' & _ & H)]; [by apply ok_or_Panic in H|].
  destruct (_ <? _); [done|]. destruct (zlen r1 <? _) eqn:?; [done|]. bool_to_prop.
  apply buf_split_Panic in H. lia.
Qed.

Definition challenge_wf (c : AuthChallenge) : Prop :=
  length (server_nonce c) = 32%nat ∧ bytes_ok (server_nonce c) ∧ is_u64 (server_time c) ∧
  bytes_ok (server_capabilities c) ∧ bytes_ok (limits c).

Lemma challenge_encode_Ok c bs :
  challenge_encode c = Ok bs ↔
  ∃ w1 w2, varbytes (server_capabilities c) w1 ∧ varbytes (limits c) w2 ∧
    bs = server_nonce c ++ be_encode 8 (server_time c) ++ w1 ++ w2.
Proof.
  unfold challenge_encode, varbytes. split.
  - intros H. apply rbind_Ok in H as (u & Hu%validate_capabilities_len_Ok & H).
    apply rbind_Ok in H as (u' & Hu'%validate_capabilities_len_Ok & H).
    apply rbind_Ok in H as (l1 & Hl1%map_err_Ok & H).
    apply rbind_Ok in H as (l2 & Hl2%map_err_Ok & H). simplify_eq.
    exists (l1 ++ server_capabilities c), (l2 ++ limits c). rewrite <- !app_assoc. naive_solver.
  - intros (w1 & w2 & (H1 & l1 & Hl1 & ->) & (H2 & l2 & Hl2 & ->) & ->).
    rewrite (proj2 (validate_capabilities_len_Ok _ tt) H1).
    rewrite (proj2 (validate_capabilities_len_Ok _ tt) H2), Hl1, Hl2. simpl.
    by rewrite <- !app_assoc.
Qed.

#[global] Instance challenge_codec :
  PayloadCodec challenge_wf challenge_encode challenge_decode.
Proof.
  split.
  - intros s Hs. unfold challenge_decode. destruct (_ <? _) eqn:Hl; [done|]. bool_to_prop. intros H.
    apply rbind_Panic in H as [H%buf_split_Panic|([nn r1] & [-> Hn]%buf_split_Ok & H)]; [lia| |done].
    rewrite length_app in Hl. apply Forall_app in Hs as [_ Hs].
    apply rbind_Panic in H as [H%get_uint_Panic|([tm r2] & (a & -> & _)%get_uint_Ok & H)]; [lia|].
    apply Forall_app in Hs as [_ Hs].
    apply rbind_Panic in H as [H|([b1 r3] & (w1 & _ & ->)%read_varbytes_Ok & H)];
      [by eapply read_varbytes_Panic| |done].
    apply Forall_app in Hs as [_ Hs].
    apply rbind_Panic in H as [H|([b2 r4] & _ & H)]; [by eapply read_varbytes_Panic|].
    by case_bool_decide.
  - intros c bs (Hn & _ & Ht & _) (w1 & w2 & Hw1 & Hw2 & ->)%challenge_encode_Ok.
    unfold challenge_decode. rewrite (proj2 (Z.ltb_ge _ _))
      by (rewrite !length_app, length_be_encode; lia).
    rewrite buf_split_app by (by rewrite Hn). simpl. rewrite get_uint_encode by done. simpl.
    rewrite (read_varbytes_app _ w1) by done. simpl. rewrite <- (app_nil_r w2).
    rewrite (read_varbytes_app _ w2) by done. simpl. by destruct c.
  - intros s c Hs. unfold challenge_decode. destruct (_ <? _) eqn:Hl; [done|]. intros H.
    apply rbind_Ok in H as ([nn r1] & [-> Hn]%buf_split_Ok & H); [|done].
    apply Forall_app in Hs as [Hnok Hs].
    apply rbind_Ok in H as ([tm r2] & [-> Ht]%get_uint_encode_inv & H); [|done].
    apply Forall_app in Hs as [_ Hs].
    apply rbind_Ok in H as ([b1 r3] & (w1 & Hw1 & ->)%read_varbytes_Ok & H); [|done].
    apply Forall_app in Hs as [Hw1ok Hs].
    apply rbind_Ok in H as ([b2 r4] & (w2 & Hw2 & ->)%read_varbytes_Ok & H); [|done].
    apply Forall_app in Hs as [Hw2ok _]. case_bool_decide; simplify_eq. split.
    + split_and!; simpl; try done; [lia|..].
      * destruct Hw1 as (_ & l & _ & ->). by apply Forall_app in Hw1ok as [_ ?].
      * destruct Hw2 as (_ & l & _ & ->). by apply Forall_app in Hw2ok as [_ ?].
    + apply challenge_encode_Ok. exists w1, w2. simpl. by rewrite app_nil_r.
Qed.

Definition response_wf (r : AuthResponse) : Prop :=
  length (client_nonce r) = 32%nat ∧ length (tag r) = 32%nat ∧ is_u64 (client_time r) ∧
  bytes_ok (r_key_id r) ∧ bytes_ok (client_nonce r) ∧ bytes_ok (client_capabilities r) ∧
  bytes_ok (tag r).

(** The signed part of a response. *)
Definition response_prefix (kid nonce : Bytes) (time : Z) (caps w : Bytes) : Prop :=
  ∃ w1 w2, varbytes kid w1 ∧ varbytes caps w2 ∧ w = w1 ++ nonce ++ be_encode 8 time ++ w2.

Lemma response_encode_Ok r bs :
  response_encode r = Ok bs ↔
  1 ≤ zlen (r_key_id r) ≤ 64 ∧
  ∃ w, response_prefix (r_key_id r) (client_nonce r) (client_time r) (client_capabilities r) w ∧
    bs = w ++ tag r.
Proof.
  unfold response_encode, response_prefix, varbytes. split.
  - intros H. apply rbind_Ok in H as (u & Hu%validate_key_id_Ok & H).
    apply rbind_Ok in H as (u' & Hu'%validate_capabilities_len_Ok & H).
    apply rbind_Ok in H as (l1 & Hl1%map_err_Ok & H).
    apply rbind_Ok in H as (l2 & Hl2%map_err_Ok & H). simplify_eq. split; [done|].
    eexists. split; [exists (l1 ++ r_key_id r), (l2 ++ client_capabilities r)|].
    + split_and!; [lia|by eexists|done|by eexists|done].
    + by rewrite <- !app_assoc.
  - intros (Hk & w & (w1 & w2 & (H1 & l1 & Hl1 & ->) & (H2 & l2 & Hl2 & ->) & ->) & ->).
    rewrite (proj2 (validate_key_id_Ok _ tt) Hk), (proj2 (validate_capabilities_len_Ok _ tt) H2).
    rewrite Hl1, Hl2. simpl. by rewrite <- !app_assoc.
Qed.

Lemma length_response_prefix kid nonce time caps w :
  length nonce = 32%nat → 1 ≤ zlen kid → response_prefix kid nonce time caps w → 43 ≤ zlen w.
Proof.
  intros Hn Hk (w1 & w2 & (_ & l1 & Hl1 & ->) & (_ & l2 & Hl2 & ->) & ->).
  apply Varint.length_encode_bound in Hl1, Hl2.
  rewrite !length_app, length_be_encode. lia.
Qed.

Lemma key_id_read kid w1 r :
  1 ≤ zlen kid ≤ 64 → varbytes kid w1 →
  ∃ l, Varint.decode (w1 ++ r) = Ok (zlen kid, kid ++ r) ∧ w1 = l ++ kid.
Proof.
  intros Hk (_ & l & Hl & ->). exists l. split; [|done].
  rewrite <- app_assoc. exact (pc_roundtrip _ l _ (Varint.encode_Ok_u64 _ _ Hl) Hl).
Qed.

Lemma response_roundtrip r bs :
  response_wf r → response_encode r = Ok bs → response_decode bs = Ok r.
Proof.
  intros (Hn & Htg & Ht & _) (Hk & w & (w1 & w2 & Hw1 & Hw2 & ->) & ->)%response_encode_Ok.
  unfold response_decode, MAX_KEY_ID_LEN, MIN_RESPONSE_TAIL_LEN. rewrite <- !app_assoc.
  destruct (key_id_read (r_key_id r) w1 (client_nonce r ++ be_encode 8 (client_time r) ++ w2 ++ tag r)
    Hk Hw1) as (l & -> & _). simpl. unfold usize_try_from.
  rewrite decide_True by (destruct USIZE_MAX_cases as [-> | ->]; lia). simpl.
  rewrite (proj2 (Z.eqb_neq _ _)), (proj2 (Z.ltb_ge _ _)) by lia. simpl.
  rewrite (proj2 (Z.ltb_ge _ _)) by (rewrite length_app; lia).
  rewrite buf_split_app by done. simpl. rewrite (proj2 (validate_key_id_Ok _ tt) Hk). simpl.
  assert (1 ≤ zlen w2).
  { destruct Hw2 as (_ & l2 & Hl2 & ->). apply Varint.length_encode_bound in Hl2.
    rewrite length_app. lia. }
  rewrite (proj2 (Z.ltb_ge _ _)) by (rewrite !length_app, length_be_encode; lia).
  rewrite buf_split_app by (by rewrite Hn). simpl. rewrite get_uint_encode by done. simpl.
  rewrite (read_varbytes_app _ w2) by done. simpl. rewrite Htg. simpl.
  rewrite <- (app_nil_r (tag r)), buf_split_app by (by rewrite Htg). simpl. by destruct r.
Qed.

Lemma response_canonical s r :
  bytes_ok s → response_decode s = Ok r → response_wf r ∧ response_encode r = Ok s.
Proof.
  intros Hs. unfold response_decode. intros H.
  apply rbind_Ok in H as ([len r1] & Hl%map_err_Ok & H).
  destruct (Varint.decode_nonneg _ _ _ Hl) as [Hl0 _].
  apply pc_canonical in Hl as (_ & lb & Hlb & ->); [|done]. apply Forall_app in Hs as [_ Hs].
  apply rbind_Ok in H as (len' & [-> _]%ok_or_Ok%usize_try_from_Some & H).
  destruct (_ || _); [done|]. destruct (_ <? _); [done|].
  apply rbind_Ok in H as ([kid r2] & [-> <-]%buf_split_Ok & H); [|done].
  apply Forall_app in Hs as [Hkok Hs].
  apply rbind_Ok in H as (u & Hk%validate_key_id_Ok & H). destruct (_ <? _); [done|].
  apply rbind_Ok in H as ([nn r3] & [-> Hn]%buf_split_Ok & H); [|done].
  apply Forall_app in Hs as [Hnok Hs].
  apply rbind_Ok in H as ([tm r4] & [-> Ht]%get_uint_encode_inv & H); [|done].
  apply Forall_app in Hs as [_ Hs].
  apply rbind_Ok in H as ([b2 r5] & (w2 & Hw2 & ->)%read_varbytes_Ok & H); [|done].
  apply Forall_app in Hs as [Hw2ok Hs].
  destruct (_ <? 32) eqn:Hlt; [done|]. destruct (32 <? _) eqn:Hgt; [done|]. bool_to_prop.
  apply rbind_Ok in H as ([tg r6] & [-> Htg]%buf_split_Ok & H); [|done]. simplify_eq.
  apply Forall_app in Hs as [Htgok _]. rewrite length_app in Hgt.
  destruct r6; [|simpl in Hgt; lia]. split.
  - split_and!; simpl; try done; [lia|lia|].
    destruct Hw2 as (_ & l & _ & ->). by apply Forall_app in Hw2ok as [_ ?].
  - apply response_encode_Ok. simpl. split; [done|]. eexists. split.
    + exists (lb ++ kid), w2. split_and!; [|done|done]. split; [lia|]. eauto.
    + rewrite app_nil_r. by rewrite <- !app_assoc.
Qed.

Lemma response_decode_Panic s : bytes_ok s → response_decode s ≠ Panic.
Proof.
  intros Hs. unfold response_decode, MIN_RESPONSE_TAIL_LEN. intros H.
  apply rbind_Panic in H as [H%map_err_Panic|([len r1] & Hl%map_err_Ok & H)];
    [exact (sd_total _ Hs H)|].
  destruct (Varint.decode_nonneg _ _ _ Hl) as [Hl0 _].
  apply Varint.decode_shrinks in Hl as [_ Hr1]; [|done].
  apply rbind_Panic in H as [H|(len' & [-> _]%ok_or_Ok%usize_try_from_Some & H)];
    [by apply ok_or_Panic in H|].
  destruct (_ || _); [done|]. destruct (_ <? _) eqn:?; [done|]. bool_to_prop.
  apply rbind_Panic in H as [H%buf_split_Panic|([kid r2] & [-> _]%buf_split_Ok & H)]; [lia| |done].
  apply rbind_Panic in H as [H|(u & _ & H)]; [by apply validate_key_id_Panic in H|].
  destruct (_ <? 73) eqn:Hl; [done|]. bool_to_prop. apply Forall_app in Hr1 as [_ Hs2].
  apply rbind_Panic in H as [H%buf_split_Panic|([nn r3] & [-> Hn]%buf_split_Ok & H)]; [lia| |done].
  rewrite length_app in Hl. apply Forall_app in Hs2 as [_ Hs3].
  apply rbind_Panic in H as [H%get_uint_Panic|([tm r4] & (a & -> & _)%get_uint_Ok & H)]; [lia|].
  apply Forall_app in Hs3 as [_ Hs4].
  apply rbind_Panic in H as [H|([b2 r5] & _ & H)]; [by eapply read_varbytes_Panic|].
  destruct (_ <? 32) eqn:?; [done|]. destruct (32 <? _) eqn:?; [done|]. bool_to_prop.
  apply rbind_Panic in H as [H%buf_split_Panic|([tg r6] & _ & H)]; [lia|done].
Qed.

#[global] Instance response_codec :
  PayloadCodec response_wf response_encode response_decode.
Proof.
  split; [exact response_decode_Panic|exact response_roundtrip|exact response_canonical].
Qed.
End CodecLemmas.

(** ** Lemmas: the transcript *)

Lemma varbytes_capacity b w : varbytes b w → ∃ l, Varint.encoded_len (zlen b) = Ok l ∧ zlen w = l + zlen b.
Proof.
  intros (_ & l & Hl & ->). exists (zlen l). split; [by apply Varint.length_encode|].
  rewrite length_app. lia.
Qed.

Lemma encoded_challenge_payload_Ok c x :
  encoded_challenge_payload c = Ok x ↔
  ∃ w1 w2, varbytes (server_capabilities c) w1 ∧ varbytes (limits c) w2 ∧
    x = (40 + zlen w1 + zlen w2, server_nonce c ++ be_encode 8 (server_time c) ++ w1 ++ w2).
Proof.
  unfold encoded_challenge_payload. split.
  - intros H. apply rbind_Ok in H as (l1 & Hl1%map_err_Ok & H).
    apply rbind_Ok in H as (l2 & Hl2%map_err_Ok & H).
    apply rbind_Ok in H as (p & (w1 & w2 & Hw1 & Hw2 & ->)%challenge_encode_Ok & H). simplify_eq.
    exists w1, w2. split_and!; [done..|].
    destruct (varbytes_capacity _ _ Hw1) as (m1 & Hm1 & ->).
    destruct (varbytes_capacity _ _ Hw2) as (m2 & Hm2 & ->).
    rewrite Hm1 in Hl1. rewrite Hm2 in Hl2. simplify_eq. f_equal. lia.
  - intros (w1 & w2 & Hw1 & Hw2 & ->).
    destruct (varbytes_capacity _ _ Hw1) as (m1 & -> & E1).
    destruct (varbytes_capacity _ _ Hw2) as (m2 & -> & E2). simpl.
    rewrite (proj2 (challenge_encode_Ok c _)) by eauto. simpl. do 2 f_equal. lia.
Qed.

(** What a successful [auth_mac] has been fed.  The response's capabilities may
    be longer than an encoder allows: the transcript then carries a longer
    length prefix. *)
Definition signed_prefix (kid nonce : Bytes) (time : Z) (caps w : Bytes) : Prop :=
  ∃ b1 b2, Varint.encode (zlen kid) = Ok b1 ∧ Varint.encode (zlen caps) = Ok b2 ∧
    w = (b1 ++ kid) ++ nonce ++ be_encode 8 time ++ b2 ++ caps.

Lemma auth_mac_Ok sec exporter ch kid nonce time caps m :
  auth_mac sec exporter ch kid nonce time caps = Ok m ↔
  validate_shared_secret sec = Ok tt ∧ 1 ≤ zlen kid ≤ 64 ∧
  ∃ cp rp, challenge_encode ch = Ok cp ∧ signed_prefix kid nonce time caps rp ∧
    m = {| mac_key := sec; mac_input := AUTH_LABEL ++ exporter ++ cp ++ rp |}.
Proof.
  unfold auth_mac. split.
  - intros H. apply rbind_Ok in H as ([] & Hs & H).
    apply rbind_Ok in H as ([c1 cp] & Hcp & H).
    apply rbind_Ok in H as ([c2 rp] & Hrp & H).
    apply rbind_Ok in H as (u & Hk%validate_key_id_Ok & H). simplify_eq.
    split_and!; [done|lia|lia|]. exists cp, rp. split_and!; [|..|done].
    + apply encoded_challenge_payload_Ok in Hcp as (w1 & w2 & ? & ? & ?). simplify_eq.
      apply challenge_encode_Ok. eauto.
    + unfold encoded_response_prefix in Hrp. res_inv. eexists _, _. split_and!; [done..|].
      by rewrite <- !app_assoc.
  - intros (Hs & Hk & cp & rp & Hcp & (b1 & b2 & Hb1 & Hb2 & ->) & ->). rewrite Hs. simpl.
    apply challenge_encode_Ok in Hcp as (w1 & w2 & ? & ? & ->).
    rewrite (proj2 (encoded_challenge_payload_Ok ch _)) by eauto. simpl.
    unfold encoded_response_prefix.
    rewrite (Varint.length_encode _ _ Hb1), (Varint.length_encode _ _ Hb2), Hb1, Hb2. simpl.
    rewrite (proj2 (validate_key_id_Ok _ tt) Hk). simpl. by rewrite <- !app_assoc.
Qed.

Lemma challenge_encode_prefix_free c1 c2 w1 w2 r1 r2 :
  challenge_wf c1 → challenge_wf c2 → challenge_encode c1 = Ok w1 → challenge_encode c2 = Ok w2 →
  w1 ++ r1 = w2 ++ r2 → c1 = c2 ∧ r1 = r2.
Proof.
  intros (Hn1 & _ & Ht1 & _) (Hn2 & _ & Ht2 & _).
  intros (a1 & b1 & Ha1 & Hb1 & ->)%challenge_encode_Ok (a2 & b2 & Ha2 & Hb2 & ->)%challenge_encode_Ok.
  rewrite <- !app_assoc. intros [Hn H]%app_inj_1; [|congruence].
  apply app_inj_1 in H as [Ht H]; [|by rewrite !length_be_encode].
  apply be_encode_inj in Ht; [|done..].
  apply (varbytes_prefix_free _ _ _ _ _ _ Ha1 Ha2) in H as [Hc H].
  apply (varbytes_prefix_free _ _ _ _ _ _ Hb1 Hb2) in H as [Hl ->].
  by destruct c1, c2; simpl in *; subst.
Qed.

Lemma varint_prefixed_inj a b la lb x y :
  Varint.encode (zlen a) = Ok la → Varint.encode (zlen b) = Ok lb →
  (la ++ a) ++ x = (lb ++ b) ++ y → a = b ∧ x = y.
Proof.
  intros Hla Hlb. rewrite <- !app_assoc. intros H.
  apply (pc_prefix_free (wf := is_u64) _ _ _ _ _ _ (Varint.encode_Ok_u64 _ _ Hla)
    (Varint.encode_Ok_u64 _ _ Hlb) Hla Hlb) in H as [Hlen H].
  apply app_inj_1 in H; [done|lia].
Qed.

Lemma signed_prefix_inj k1 k2 n1 n2 t1 t2 c1 c2 w :
  length n1 = length n2 → is_u64 t1 → is_u64 t2 →
  signed_prefix k1 n1 t1 c1 w → signed_prefix k2 n2 t2 c2 w →
  k1 = k2 ∧ n1 = n2 ∧ t1 = t2 ∧ c1 = c2.
Proof.
  intros Hn Ht1 Ht2 (a1 & b1 & Ha1 & Hb1 & ->) (a2 & b2 & Ha2 & Hb2 & H).
  apply (varint_prefixed_inj _ _ _ _ _ _ Ha1 Ha2) in H as [-> H].
  apply app_inj_1 in H as [-> H]; [|done].
  apply app_inj_1 in H as [Ht H]; [|by rewrite !length_be_encode].
  apply be_encode_inj in Ht; [|done..].
  rewrite <- (app_nil_r (b1 ++ c1)), <- (app_nil_r (b2 ++ c2)) in H.
  apply (varint_prefixed_inj _ _ _ _ _ _ Hb1 Hb2) in H as [-> _]. done.
Qed.

(** ** Lemmas: credential lookup *)

(** A length as a machine word. *)
Definition len_ok (k : Bytes) : Prop := is_u64 (zlen k).

Lemma pad_key_id_inj a b :
  len_ok a → len_ok b → zlen a ≤ 64 → pad_key_id_for_ct a = pad_key_id_for_ct b → a = b.
Proof.
  unfold pad_key_id_for_ct, MAX_KEY_ID_LEN, truncate, len_ok. intros Ha Hb Ha64 H.
  rewrite !app_assoc in H. apply app_inj_1 in H as [H Hlen].
  2: { rewrite !length_app, !length_take, !length_replicate. lia. }
  apply (f_equal reverse) in Hlen. rewrite !reverse_involutive in Hlen.
  rewrite !Z.mod_small in Hlen by (unfold in_width in *; lia).
  apply be_encode_inj in Hlen; [|done..].
  apply app_inj_1 in H as [H _].
  - rewrite !take_ge in H by lia. done.
  - rewrite !length_take. lia.
Qed.

(** The credential a key id denotes: the first one that carries it. *)
Definition first_with_key (creds : list Credential) (kid : Bytes) (c : Credential) : Prop :=
  ∃ i, creds !! i = Some c ∧ key_id c = kid ∧
    ∀ j c', (j < i)%nat → creds !! j = Some c' → key_id c' ≠ kid.

Lemma find_credential_found kid c creds :
  foldl (λ matched c,
    let is_match := ct_eq (pad_key_id_for_ct kid) (pad_key_id_for_ct (key_id c)) in
    if is_match && bool_decide (matched = None) then Some c else matched) (Some c) creds = Some c.
Proof. induction creds as [|c' creds IH]; simpl; [done|]. by rewrite andb_false_r. Qed.

Lemma find_credential_Some creds kid c :
  Forall (λ c, len_ok (key_id c)) creds → len_ok kid → zlen kid ≤ 64 →
  find_credential creds kid = Some c ↔ first_with_key creds kid c.
Proof.
  intros Hok Hlk Hk. induction Hok as [|c0 creds Hc0 _ IH].
  { split; [done|]. intros (i & Hi & _). by rewrite lookup_nil in Hi. }
  unfold find_credential in *. simpl. unfold ct_eq at 2. case_bool_decide as Hm; simpl.
  - apply pad_key_id_inj in Hm as ->; [|done..].
    rewrite find_credential_found. split.
    + intros [= <-]. exists 0%nat. split_and!; [done|done|]. intros j c' Hj. lia.
    + intros (i & Hi & Hkey & Hfirst). destruct i as [|i]; [done|].
      by destruct (Hfirst 0%nat c0); [lia|..].
  - rewrite IH. assert (key_id c0 ≠ kid) as Hne by (intros E; by rewrite E in Hm). split.
    + intros (i & Hi & Hkey & Hfirst). exists (S i). split_and!; [done..|].
      intros [|j] c' Hj ?; simplify_eq/=; [done|]. apply (Hfirst j); [lia|done].
    + intros ([|i] & Hi & Hkey & Hfirst); simplify_eq/=. exists i. split_and!; [done..|].
      intros j c' Hj Hc'. apply (Hfirst (S j)); [lia|done].
Qed.

(** ** Lemmas: verification *)

Section VerifyLemmas.
Context (hmac : Bytes → Bytes → Bytes) (dummy_secret : Bytes).

Lemma for_challenge_Ok nonce kid sec exporter ch time caps r :
  for_challenge hmac nonce kid sec exporter ch time caps = Ok r ↔
  ∃ m, auth_mac sec exporter ch kid nonce time caps = Ok m ∧
    r = {| r_key_id := kid; client_nonce := nonce; client_time := time;
           client_capabilities := caps; tag := hmac sec (mac_input m) |}.
Proof.
  unfold for_challenge, compute_auth_tag, finalize. split.
  - intros H. apply rbind_Ok in H as (u & _ & H). apply rbind_Ok in H as (u' & _ & H).
    apply rbind_Ok in H as (t & Ht & H). apply rbind_Ok in Ht as (m & Hm & Ht). simplify_eq.
    exists m. split; [done|]. apply auth_mac_Ok in Hm as (_ & _ & cp & rp & _ & _ & ->). done.
  - intros (m & Hm & ->). pose proof Hm as (Hs & Hk & cp & rp & _ & _ & Em)%auth_mac_Ok.
    rewrite (proj2 (validate_key_id_Ok _ tt) Hk), Hs, Hm. simpl. by rewrite Em.
Qed.

Lemma validate_auth_material_Ok c u :
  validate_auth_material c = Ok u ↔
  1 ≤ zlen (key_id c) ≤ 64 ∧ validate_shared_secret (secret c) = Ok tt.
Proof.
  unfold validate_auth_material. rewrite rbind_Ok. destruct u. split.
  - intros (x & Hk%validate_key_id_Ok & Hs). done.
  - intros (Hk & Hs). exists tt. by rewrite validate_key_id_Ok.
Qed.

Lemma verify_stateless_Ok creds exporter ch r now skew c :
  verify_auth_response_stateless hmac dummy_secret creds exporter ch r now skew = Ok c ↔
  find_credential creds (r_key_id r) = Some c ∧ 1 ≤ zlen (key_id c) ≤ 64 ∧
  for_challenge hmac (client_nonce r) (r_key_id r) (secret c) exporter ch (client_time r)
    (client_capabilities r) = Ok r ∧
  is_active_at c now = true ∧
  timestamp_within_skew (server_time ch) now skew = true ∧
  timestamp_within_skew (client_time r) now skew = true.
Proof.
  unfold verify_auth_response_stateless. split.
  - intros H. apply rbind_Ok in H as (m & Hm & H).
    apply rbind_Ok in H as (c' & Hc%ok_or_Ok & H). rewrite Hc in *.
    apply rbind_Ok in H as ([] & Hmat & H). rewrite Hmat in Hm. simpl in Hm.
    apply rbind_Ok in H as (u & Htag & H). unfold ct_eq in Htag. case_bool_decide as Ht; [|done].
    destruct (is_active_at c' now) eqn:Ha; [|done]. simpl in H.
    destruct (negb _ || negb _) eqn:Hskew; simplify_eq. bool_to_prop.
    apply validate_auth_material_Ok in Hmat as [Hk Hs].
    split_and!; try done; [lia..|]. apply for_challenge_Ok. exists m. split; [done|].
    apply auth_mac_Ok in Hm as (_ & _ & cp & rp & _ & _ & Em).
    unfold finalize in Ht. rewrite Em in *. simpl in *. destruct r; simpl in *. by subst.
  - intros (Hc & Hk & Hr & Ha & Hs1 & Hs2). rewrite Hc.
    apply for_challenge_Ok in Hr as (m & Hm & Hr).
    pose proof Hm as (Hs & _ & cp & rp & _ & _ & Em)%auth_mac_Ok.
    assert (validate_auth_material c = Ok tt) as Hmat by (by apply validate_auth_material_Ok).
    rewrite Hmat. simpl. rewrite Hm. simpl. rewrite Hmat. unfold ct_eq, finalize. rewrite bool_decide_eq_true_2.
    2: { rewrite Hr. simpl. by rewrite Em. }
    simpl. by rewrite Ha, Hs1, Hs2.
Qed.
End VerifyLemmas.

(** ** Lemmas: the replay cache *)

(** The map holds exactly the queue, each key once, oldest first, and never more
    than the limit. *)
Definition cache_inv (c : ReplayCache) : Prop :=
  NoDup (order c).*2 ∧ entries c = list_to_map (prod_swap <$> order c) ∧
  StronglySorted Z.le (order c).*1 ∧ zlen (order c) ≤ max_entries c ∧ 1 ≤ max_entries c.

Abbreviation queue_map o := (list_to_map (prod_swap <$> o) : gmap ReplayKey Z).

Lemma queue_keys (o : list (Z * ReplayKey)) : (prod_swap <$> o).*1 = o.*2.
Proof. rewrite <- list_fmap_compose. by apply list_fmap_ext. Qed.

Lemma queue_map_cons t k o : k ∉ o.*2 → delete k (queue_map ((t, k) :: o)) = queue_map o.
Proof.
  intros Hk. simpl. apply delete_insert_id. apply not_elem_of_list_to_map_1. by rewrite queue_keys.
Qed.

Lemma queue_map_snoc t k o : k ∉ o.*2 → queue_map (o ++ [(t, k)]) = <[k := t]> (queue_map o).
Proof.
  intros Hk. rewrite fmap_app, list_to_map_app. simpl. rewrite <- insert_union_r.
  - by rewrite (right_id_L ∅ (∪)).
  - apply not_elem_of_list_to_map_1. by rewrite queue_keys.
Qed.

Lemma queue_map_size o : NoDup o.*2 → size (queue_map o) = length o.
Proof.
  intros Ho. rewrite map_size_list_to_map by (by rewrite queue_keys). by rewrite length_fmap.
Qed.

Lemma queue_map_lookup o k : is_Some (queue_map o !! k) ↔ k ∈ o.*2.
Proof. rewrite <- queue_keys. split.
  - intros [t Ht]. apply elem_of_list_to_map_2 in Ht. apply list_elem_of_fmap. by exists (k, t).
  - intros Hk. destruct (queue_map o !! k) eqn:E; [done|].
    by apply not_elem_of_list_to_map_2 in E.
Qed.

(** [prune] drops a prefix of expired entries. *)
Lemma prune_queue_spec w now o :
  NoDup o.*2 →
  ∃ dead live, o = dead ++ live ∧ prune_queue w now o (queue_map o) = (live, queue_map live) ∧
    Forall (λ '(t, _), w < saturating_duration_since now t) dead ∧
    match live with (t, _) :: _ => saturating_duration_since now t ≤ w | [] => True end.
Proof.
  induction o as [|[t k] o IH]; intros Hnd; [by exists [], []|].
  cbn [prune_queue]. apply NoDup_cons in Hnd as [Hk Hnd].
  destruct (_ <=? w) eqn:Hw; bool_to_prop.
  - exists [], ((t, k) :: o). split_and!; [done|done|constructor|done].
  - rewrite queue_map_cons by done. destruct (IH Hnd) as (dead & live & -> & -> & Hd & Hl).
    exists ((t, k) :: dead), live. split_and!; [done|done|by constructor|done].
Qed.

(** Eviction drops the oldest entries until there is room for one more. *)
Lemma evict_loop_spec limit o :
  NoDup o.*2 → 1 ≤ limit →
  ∃ old kept, o = old ++ kept ∧ evict_loop limit o (queue_map o) = (kept, queue_map kept) ∧
    zlen kept < limit ∧ (old ≠ [] → zlen kept = limit - 1).
Proof.
  induction o as [|[t k] o IH]; intros Hnd Hlim; cbn [evict_loop];
    rewrite queue_map_size by done; destruct (_ <? limit) eqn:Hs; bool_to_prop.
  - by exists [], [].
  - simpl in Hs. lia.
  - by exists [], ((t, k) :: o).
  - apply NoDup_cons in Hnd as [Hk Hnd]. rewrite queue_map_cons by done.
    destruct (IH Hnd Hlim) as (old & kept & -> & -> & Hl & Heq).
    exists ((t, k) :: old), kept. split_and!; [done|done|done|]. intros _.
    destruct old; [|by apply Heq]. simpl in *. lia.
Qed.

(** The whole operation on the queue. *)
Definition live_queue (c : ReplayCache) (now : Z) (live : list (Z * ReplayKey)) : Prop :=
  ∃ dead, order c = dead ++ live ∧
    Forall (λ '(t, _), window c < saturating_duration_since now t) dead ∧
    match live with (t, _) :: _ => saturating_duration_since now t ≤ window c | [] => True end.

Lemma check_and_insert_spec c now sn cn :
  cache_inv c →
  let key := {| rk_server_nonce := sn; rk_client_nonce := cn |} in
  ∃ live, live_queue c now live ∧
  let r := check_and_insert_at c now sn cn in
  window r.2 = window c ∧ max_entries r.2 = max_entries c ∧ entries r.2 = queue_map (order r.2) ∧
  ((key ∈ live.*2 ∧ r.1 = Err Replay ∧ order r.2 = live) ∨
   (key ∉ live.*2 ∧ r.1 = Ok tt ∧
    ∃ old kept, live = old ++ kept ∧ order r.2 = kept ++ [(now, key)] ∧
      zlen kept < max_entries c ∧ (old ≠ [] → zlen kept = max_entries c - 1))).
Proof.
  intros (Hnd & Hmap & _ & Hsz & Hmax) key.
  destruct (prune_queue_spec (window c) now (order c) Hnd) as (dead & live & Ho & Hp & Hd & Hl).
  exists live. split; [by exists dead|]. rewrite Ho, fmap_app in Hnd.
  apply NoDup_app in Hnd as (_ & _ & Hnd).
  unfold check_and_insert_at, prune. rewrite Hmap, Hp. simpl. fold key.
  destruct (queue_map live !! key) eqn:Hlk; simpl.
  - split_and!; [done..|]. left. split_and!; [|done|done].
    apply queue_map_lookup. rewrite Hlk. eauto.
  - destruct (evict_loop_spec (max_entries c) live Hnd Hmax) as (old & kept & -> & -> & Hk & Hold).
    simpl. assert (key ∉ (old ++ kept).*2) as Hni.
    { rewrite <- queue_map_lookup, Hlk. by intros [? ?]. }
    split_and!; [done|done| |].
    + symmetry. apply queue_map_snoc. rewrite fmap_app in Hni. set_solver.
    + right. split_and!; [done..|]. by exists old, kept.
Qed.

Lemma app_split_mem {A} (a b p q : list A) x :
  a ++ b = p ++ x :: q → x ∉ a → ∃ p', b = p' ++ x :: q.
Proof.
  revert p. induction a as [|y a IH]; intros p H Hx; simpl in *; [eauto|].
  destruct p as [|z p]; simplify_eq/=; [set_solver|]. eapply IH; [done|set_solver].
Qed.

Lemma app_split_len {A} (a b p q : list A) :
  a ++ b = p ++ q → (length q ≤ length b)%nat → ∃ p', b = p' ++ q.
Proof.
  revert p. induction a as [|y a IH]; intros p H Hl; simpl in *; [eauto|].
  destruct p as [|z p]; simplify_eq/=; [rewrite length_app in Hl; lia|]. by eapply IH.
Qed.

(** The times in the queue are those of past calls. *)
Definition past (now : Z) (c : ReplayCache) : Prop := Forall (λ t, t ≤ now) (order c).*1.

Lemma check_and_insert_inv c now sn cn :
  cache_inv c → past now c →
  cache_inv (check_and_insert_at c now sn cn).2 ∧ past now (check_and_insert_at c now sn cn).2.
Proof.
  intros Hinv Hpast. destruct (check_and_insert_spec c now sn cn Hinv)
    as (live & (dead & Ho & _) & Hw & Hm & He & Hcase).
  destruct Hinv as (Hnd & _ & Hsort & Hsz & Hmax). unfold past, cache_inv in *.
  rewrite Ho in Hnd, Hsort, Hpast, Hsz. rewrite length_app in Hsz.
  rewrite fmap_app in Hnd. rewrite fmap_app in Hsort. rewrite fmap_app in Hpast.
  apply NoDup_app in Hnd as (_ & _ & Hnd). apply StronglySorted_app_1_r in Hsort.
  apply Forall_app in Hpast as [_ Hpast]. rewrite Hm, He.
  destruct Hcase as [(_ & _ & ->)|(Hni & _ & old & kept & -> & Ho' & Hk & _)].
  { split_and!; try done. lia. }
  rewrite Ho'. rewrite fmap_app in Hnd, Hni. rewrite fmap_app in Hsort.
  rewrite fmap_app in Hpast. apply NoDup_app in Hnd as (_ & _ & Hnd).
  apply StronglySorted_app_1_r in Hsort. apply Forall_app in Hpast as [_ Hpast].
  rewrite !fmap_app. simpl. split_and!; try done.
  - apply NoDup_app. split_and!; [done| |apply NoDup_singleton]. set_solver.
  - apply StronglySorted_app_2; [|done|repeat constructor].
    intros x1 x2 H1 ->%list_elem_of_singleton. rewrite Forall_forall in Hpast. by apply Hpast.
  - rewrite length_app. simpl. lia.
  - apply Forall_app. split; [done|]. by repeat constructor.
Qed.

(** Entry [(t, k)] is in the queue with at most [n] newer ones. *)
Definition retained (t : Z) (k : ReplayKey) (n : Z) (c : ReplayCache) : Prop :=
  ∃ pre post, order c = pre ++ (t, k) :: post ∧ zlen post ≤ n.

Lemma live_retained t k n c now live :
  retained t k n c → live_queue c now live → t ≤ now → now - t ≤ window c →
  ∃ pre post, live = pre ++ (t, k) :: post ∧ zlen post ≤ n.
Proof.
  intros (pre & post & Ho & Hp) (dead & Ho' & Hd & _) Ht Hw.
  rewrite Ho' in Ho. destruct (app_split_mem _ _ _ _ _ Ho) as [p' ->]; [|by exists p', post].
  intros Hin. rewrite Forall_forall in Hd. apply Hd in Hin.
  unfold saturating_duration_since in Hin. lia.
Qed.

Lemma retained_step c now sn cn t k n :
  cache_inv c → retained t k n c → t ≤ now → now - t ≤ window c →
  let r := check_and_insert_at c now sn cn in
  (r.1 = Ok tt → n + 1 < max_entries c) →
  retained t k (if is_ok r.1 then n + 1 else n) r.2.
Proof.
  intros Hinv Hret Ht Hw r Hroom.
  destruct (check_and_insert_spec c now sn cn Hinv) as (live & Hlive & _ & _ & _ & Hcase).
  destruct (live_retained _ _ _ _ _ _ Hret Hlive Ht Hw) as (pre & post & Hl & Hp).
  fold r in Hcase. destruct Hcase as [(_ & -> & Ho)|(_ & Hr & old & kept & Hsplit & Ho & Hk & Hold)].
  { exists pre, post. by rewrite Ho. }
  rewrite Hr. simpl. specialize (Hroom Hr). rewrite Hsplit in Hl.
  assert (∃ p', kept = p' ++ (t, k) :: post) as [p' ->].
  { destruct (decide (old = [])) as [->|Hne]; [by exists pre|].
    apply (app_split_len old kept pre); [done|]. specialize (Hold Hne). simpl. lia. }
  exists p', (post ++ [(now, {| rk_server_nonce := sn; rk_client_nonce := cn |})]).
  rewrite Ho, <- app_assoc. split; [done|]. rewrite length_app. simpl. lia.
Qed.

(** A sequence of calls, each with its instant. *)
Fixpoint run (c : ReplayCache) (ops : list (Z * Bytes * Bytes)) : list (AuthResult unit) * ReplayCache :=
  match ops with
  | [] => ([], c)
  | (now, sn, cn) :: ops' =>
    let '(r, c') := check_and_insert_at c now sn cn in
    let '(rs, c'') := run c' ops' in (r :: rs, c'')
  end.

(** The clock does not go back, and ends no later than [last]. *)
Fixpoint clock_between (first : Z) (ops : list (Z * Bytes * Bytes)) (last : Z) : Prop :=
  match ops with
  | [] => first ≤ last
  | (now, _, _) :: ops' => first ≤ now ∧ clock_between now ops' last
  end.

Definition accepted (rs : list (AuthResult unit)) : Z := zlen (filter (λ r, is_ok r = true) rs).

Lemma clock_between_le first ops last : clock_between first ops last → first ≤ last.
Proof.
  revert first. induction ops as [|[[now sn] cn] ops IH]; intros first; simpl; [done|].
  intros [? H%IH]. lia.
Qed.

Lemma past_le now now' c : past now c → now ≤ now' → past now' c.
Proof. intros H Hle. eapply Forall_impl; [done|]. intros t ?. simpl in *. lia. Qed.

Lemma run_retained ops c t k n first last rs c' :
  cache_inv c → past first c → retained t k n c → t ≤ first → clock_between first ops last →
  last - t ≤ window c → run c ops = (rs, c') → n + accepted rs < max_entries c →
  cache_inv c' ∧ past last c' ∧ retained t k (n + accepted rs) c' ∧ window c' = window c ∧
  max_entries c' = max_entries c.
Proof.
  revert c n first rs. induction ops as [|[[now sn] cn] ops IH]; intros c n first rs;
    intros Hinv Hpast Hret Ht Hclk Hw; simpl.
  { intros [= <- <-] _. rewrite Z.add_0_r. split_and!; try done. by eapply past_le. }
  destruct Hclk as [Hfn Hclk]. pose proof (clock_between_le _ _ _ Hclk) as Hle.
  destruct (check_and_insert_at c now sn cn) as [r c1] eqn:Hr.
  destruct (run c1 ops) as [rs1 c2] eqn:Hrun. intros [= <- <-] Hacc.
  pose proof (past_le _ _ _ Hpast Hfn) as Hpast'.
  destruct (check_and_insert_inv c now sn cn Hinv Hpast') as [Hinv1 Hpast1].
  pose proof (check_and_insert_spec c now sn cn Hinv) as (_ & _ & Hw1 & Hm1 & _).
  rewrite Hr in *. simpl in *.
  assert (accepted (r :: rs1) = (if is_ok r then 1 else 0) + accepted rs1) as Eacc.
  { unfold accepted. rewrite filter_cons. destruct (is_ok r); simpl; lia. }
  pose proof (zlen_nonneg (filter (λ r, is_ok r = true) rs1)) as Hnn. fold (accepted rs1) in Hnn.
  pose proof (retained_step c now sn cn t k n Hinv Hret ltac:(lia) ltac:(lia)) as Hstep.
  rewrite Hr in Hstep. simpl in Hstep.
  assert (n + (if is_ok r then 1 else 0) + accepted rs1 < max_entries c) as Hacc' by lia.
  destruct (IH c1 (n + if is_ok r then 1 else 0) now rs1) as (? & ? & Hret' & ? & ?); try done.
  - destruct (is_ok r) eqn:E; [apply Hstep; intros ->; lia|].
    rewrite Z.add_0_r. apply Hstep. by intros ->.
  - lia.
  - lia.
  - lia.
  - split_and!; try congruence. rewrite Eacc, Z.add_assoc. done.
Qed.

(** The live part of the queue is what is within the window. *)
Lemma live_window c now live k :
  cache_inv c → past now c → live_queue c now live →
  k ∈ live.*2 ↔ ∃ t, (t, k) ∈ order c ∧ now - t ≤ window c.
Proof.
  intros (_ & _ & Hsort & _) Hpast (dead & Ho & Hd & Hl). unfold past in Hpast.
  rewrite Ho in *. rewrite fmap_app in Hsort, Hpast. apply StronglySorted_app_1_r in Hsort.
  apply Forall_app in Hpast as [Hdp Hpast]. split.
  - intros ([t k'] & -> & Hin)%list_elem_of_fmap. exists t. split; [set_solver|].
    destruct live as [|[t0 k0] live]; [by apply elem_of_nil in Hin|].
    simpl in Hsort, Hpast. unfold saturating_duration_since in Hl.
    apply StronglySorted_inv in Hsort as [_ Hsort]. rewrite Forall_forall in Hsort.
    apply elem_of_cons in Hin as [?|Hin]; simplify_eq/=; [lia|].
    assert (t0 ≤ t); [|lia]. apply Hsort, list_elem_of_fmap. by exists (t, k').
  - intros (t & [Hin|Hin]%elem_of_app & Ht).
    + assert (t ≤ now).
      { rewrite Forall_forall in Hdp. apply Hdp, list_elem_of_fmap. by exists (t, k). }
      rewrite Forall_forall in Hd. apply Hd in Hin. unfold saturating_duration_since in Hin. lia.
    + apply list_elem_of_fmap. by exists (t, k).
Qed.

(** ** Properties *)

(** C6: an authentication response is accepted for credential [c] exactly when
    [c] is the first credential with the response's key id, its key id is 1 to
    64 bytes, the response is the one an honest client holding [c]'s secret
    produces for this challenge on this channel (in particular its tag), [c] is
    active now, and both timestamps are within the allowed skew.  So an honest
    handshake succeeds, and the dummy secret used for unknown keys never lets
    anything in. *)
Theorem verify_accepts_iff_honest hmac dummy creds exporter ch r now skew c :
  Forall (λ c, len_ok (key_id c)) creds → zlen (r_key_id r) ≤ 64 →
  verify_auth_response_stateless hmac dummy creds exporter ch r now skew = Ok c ↔
  first_with_key creds (r_key_id r) c ∧
  1 ≤ zlen (key_id c) ≤ 64 ∧
  for_challenge hmac (client_nonce r) (r_key_id r) (secret c) exporter ch (client_time r)
    (client_capabilities r) = Ok r ∧
  is_active_at c now = true ∧
  timestamp_within_skew (server_time ch) now skew = true ∧
  timestamp_within_skew (client_time r) now skew = true.
Proof.
  intros Hok Hk. rewrite verify_stateless_Ok, find_credential_Some; [done|done| |done].
  unfold len_ok, in_width. lia.
Qed.

(** A 32-byte secret, a MAC that is a function of key and message, and a
    complete handshake with them. *)
Definition demo_secret : Bytes := Z.of_nat <$> seq 1 32.
Definition demo_hmac (k m : Bytes) : Bytes := take 32 (reverse m ++ k).
Definition demo_credential : Credential :=
  {| key_id := [7; 7]; secret := demo_secret; status := Active; not_before := Some 1000;
     not_after := None; policy_group := None |}.
Definition demo_challenge : AuthChallenge := challenge_generate (replicate 32 9) 1700000000.
Definition demo_exporter : Bytes := replicate 32 5.
Definition demo_response : AuthResponse :=
  match for_challenge demo_hmac (replicate 32 8) [7; 7] demo_secret demo_exporter demo_challenge
          1700000003 [] with
  | Ok r => r
  | _ => {| r_key_id := []; client_nonce := []; client_time := 0; client_capabilities := [];
            tag := [] |}
  end.

Lemma verify_accepts_iff_honest_witness :
  verify_auth_response_stateless demo_hmac [] [demo_credential] demo_exporter demo_challenge
    demo_response 1700000001 (30 * 1000000000) = Ok demo_credential.
Proof.
  apply verify_accepts_iff_honest.
  - rewrite Forall_singleton. by unfold len_ok.
  - by vm_compute.
  - split_and!; try (by vm_compute).
    exists 0%nat. split_and!; [done|done|]. intros j c' Hj. lia.
Defined.

(** The MAC input binds every field of the exchange: if two transcripts are
    equal, so are the exporter, the challenge, the key id, the client nonce,
    the client time and the capabilities.  No two different exchanges share a
    tag by the way their fields are concatenated. *)
Theorem transcript_injective sec1 sec2 x1 x2 ch1 ch2 k1 k2 n1 n2 t1 t2 c1 c2 m1 m2 :
  length x1 = 32%nat → length x2 = 32%nat → challenge_wf ch1 → challenge_wf ch2 →
  length n1 = 32%nat → length n2 = 32%nat → is_u64 t1 → is_u64 t2 →
  auth_mac sec1 x1 ch1 k1 n1 t1 c1 = Ok m1 →
  auth_mac sec2 x2 ch2 k2 n2 t2 c2 = Ok m2 →
  mac_input m1 = mac_input m2 →
  x1 = x2 ∧ ch1 = ch2 ∧ k1 = k2 ∧ n1 = n2 ∧ t1 = t2 ∧ c1 = c2.
Proof.
  intros Hx1 Hx2 Hch1 Hch2 Hn1 Hn2 Ht1 Ht2.
  intros (_ & _ & cp1 & rp1 & Hc1 & Hr1 & ->)%auth_mac_Ok (_ & _ & cp2 & rp2 & Hc2 & Hr2 & ->)%auth_mac_Ok.
  cbn [mac_input]. intros [Hx H]%app_inv_head%app_inj_1; [|congruence].
  destruct (challenge_encode_prefix_free _ _ _ _ _ _ Hch1 Hch2 Hc1 Hc2 H) as [-> ->].
  apply (signed_prefix_inj _ _ _ _ _ _ _ _ _) with (2 := Ht1) (3 := Ht2) (4 := Hr1) in Hr2
    as (-> & -> & -> & ->); [done|congruence].
Qed.

(** C29: a nonce pair that was accepted is refused as a replay when it is shown
    again within the retention window, as long as fewer than [max_entries]
    other pairs were accepted in between: whatever the sequence of calls in
    between, no [verify_auth_response] with that pair succeeds, for any
    credentials, challenge and response that carry it. *)
Theorem replay_refused_within_window c t sn cn c1 ops rs c2 t' :
  cache_inv c → past t c →
  check_and_insert_at c t sn cn = (Ok tt, c1) → run c1 ops = (rs, c2) →
  clock_between t ops t' → t' - t ≤ window c → accepted rs < max_entries c →
  ∀ hmac dummy creds exporter ch r now skew,
    server_nonce ch = sn → client_nonce r = cn →
    verify_auth_response hmac dummy creds exporter ch r now skew t' c2 =
      (let? _ := verify_auth_response_stateless hmac dummy creds exporter ch r now skew in
       Err Replay,
       if is_ok (verify_auth_response_stateless hmac dummy creds exporter ch r now skew)
       then (check_and_insert_at c2 t' sn cn).2 else c2).
Proof.
  intros Hinv Hpast Hacc Hrun Hclk Hw Hn hmac dummy creds exporter ch r now skew <- <-.
  destruct (check_and_insert_spec c t (server_nonce ch) (client_nonce r) Hinv)
    as (live & _ & Hw1 & Hm1 & _ & Hcase).
  destruct (check_and_insert_inv c t (server_nonce ch) (client_nonce r) Hinv Hpast) as [Hinv1 Hpast1].
  rewrite Hacc in *. simpl in *.
  destruct Hcase as [(_ & ? & _)|(_ & _ & old & kept & _ & Ho & _)]; [done|].
  set (k := {| rk_server_nonce := server_nonce ch; rk_client_nonce := client_nonce r |}) in *.
  assert (retained t k 0 c1) as Hret by (by exists kept, []).
  destruct (run_retained ops c1 t k 0 t t' rs c2) as (Hinv2 & Hpast2 & Hret2 & Hw2 & Hm2);
    try done; [congruence|lia|].
  unfold verify_auth_response, verify_auth_response_credential.
  destruct (verify_auth_response_stateless _ _ _ _ _ _ _ _); simpl; [|done..].
  destruct (check_and_insert_spec c2 t' (server_nonce ch) (client_nonce r) Hinv2)
    as (live2 & Hl2 & _ & _ & _ & Hcase2).
  pose proof (clock_between_le _ _ _ Hclk).
  destruct (live_retained _ _ _ _ _ _ Hret2 Hl2 ltac:(lia) ltac:(rewrite Hw2, Hw1; lia))
    as (pre & post & -> & _).
  destruct (check_and_insert_at c2 t' _ _) as [r2 c3]. simpl in *.
  destruct Hcase2 as [(_ & -> & _)|(Hni & _)]; [done|].
  exfalso. apply Hni. rewrite fmap_app. apply elem_of_app. right. by left.
Qed.

Lemma replay_refused_within_window_witness :
  let c := with_max_entries 300 2 in
  let r := check_and_insert_at c 10 (replicate 32 9) (replicate 32 8) in
  let r2 := run r.2 [(20, [1], [2])] in
  (verify_auth_response demo_hmac [] [demo_credential] demo_exporter demo_challenge demo_response
     1700000001 (30 * 1000000000) 310 r2.2).1 = Err Replay.
Proof.
  intros c r r2.
  rewrite (replay_refused_within_window c 10 (replicate 32 9) (replicate 32 8) r.2
    [(20, [1], [2])] r2.1 r2.2 310); try done.
  - split_and!; try done; constructor.
  - constructor.
Defined.

Lemma fresh_cache_inv w m now : cache_inv (with_max_entries w m) ∧ past now (with_max_entries w m).
Proof. split; [|constructor]. split_and!; simpl; try done; try constructor; lia. Qed.

Lemma run_inv ops c first last :
  cache_inv c → past first c → clock_between first ops last →
  cache_inv (run c ops).2 ∧ past last (run c ops).2 ∧
  window (run c ops).2 = window c ∧ max_entries (run c ops).2 = max_entries c.
Proof.
  revert c first. induction ops as [|[[now sn] cn] ops IH]; intros c first Hinv Hp; simpl.
  { intros H. split_and!; try done. by eapply past_le. }
  intros [Hf Hclk]. pose proof (past_le _ _ _ Hp Hf) as Hp'.
  destruct (check_and_insert_inv c now sn cn Hinv Hp') as [Hinv1 Hp1].
  pose proof (check_and_insert_spec c now sn cn Hinv) as (_ & _ & Hw & Hm & _).
  destruct (check_and_insert_at c now sn cn) as [r c1]. simpl in *.
  destruct (IH c1 now Hinv1 Hp1 Hclk) as (? & ? & ? & ?).
  destruct (run c1 ops). simpl in *. split_and!; congruence.
Qed.

(** In every state the replay cache can reach (any sequence of calls on a
    clock that does not go back), the lookup map and the eviction queue agree,
    there are never more than [max_entries] entries, and a call answers
    [Replay] exactly when its nonce pair is held and was recorded no longer
    than the window ago; otherwise it records the pair. *)
Theorem replay_cache_exact w m ops first now sn cn :
  clock_between first ops now →
  let c := (run (with_max_entries w m) ops).2 in
  let r := check_and_insert_at c now sn cn in
  let key := {| rk_server_nonce := sn; rk_client_nonce := cn |} in
  entries c = list_to_map (prod_swap <$> order c) ∧ zlen (order c) ≤ Z.max m 1 ∧
  Z.of_nat (size (entries c)) = zlen (order c) ∧
  (r.1 = Err Replay ↔ ∃ t, (t, key) ∈ order c ∧ now - t ≤ w) ∧
  (r.1 ≠ Err Replay → r.1 = Ok tt ∧ entries r.2 !! key = Some now).
Proof.
  intros Hclk c r key. destruct (fresh_cache_inv w m first) as [Hi Hp].
  destruct (run_inv ops _ first now Hi Hp Hclk) as (Hinv & Hpast & Hw & Hm). fold c in Hinv, Hpast, Hw, Hm.
  simpl in Hw, Hm.
  destruct (check_and_insert_spec c now sn cn Hinv) as (live & Hlive & _ & _ & He & Hcase).
  pose proof (live_window c now live key Hinv Hpast Hlive) as Hlw. rewrite Hw in Hlw.
  destruct Hinv as (Hnd & Hmap & _ & Hsz & _). rewrite Hm in Hsz. fold r key in Hcase.
  split_and!; [done|done| | |].
  - rewrite Hmap, queue_map_size by done. done.
  - rewrite <- Hlw. destruct Hcase as [(? & ? & _)|(? & -> & _)]; naive_solver.
  - destruct Hcase as [(_ & ? & _)|(Hni & Hok & old & kept & Hl & Ho & _)]; [done|].
    intros _. split; [done|]. fold r in He. rewrite He, Ho, queue_map_snoc.
    + by rewrite lookup_insert_eq.
    + rewrite Hl, fmap_app in Hni. rewrite elem_of_app in Hni. naive_solver.
Qed.

(** The AUTH_CHALLENGE and AUTH_RESPONSE decoders accept exactly the
    encodings of well-formed payloads, and never panic; every response is at
    least [MIN_AUTH_RESPONSE_PAYLOAD_SIZE] bytes. *)
Theorem auth_payload_decode_iff_encode {P : Platform} s :
  bytes_ok s →
  (∀ c, challenge_decode s = Ok c ↔ challenge_wf c ∧ challenge_encode c = Ok s) ∧
  (∀ r, response_decode s = Ok r ↔ response_wf r ∧ response_encode r = Ok s) ∧
  challenge_decode s ≠ Panic ∧ response_decode s ≠ Panic ∧
  (∀ r, response_wf r → response_encode r = Ok s → MIN_AUTH_RESPONSE_PAYLOAD_SIZE ≤ zlen s).
Proof.
  intros Hs. split_and!.
  - intros c. exact (@pl_iff _ _ _ _ _ challenge_codec s c Hs).
  - intros r. exact (@pl_iff _ _ _ _ _ response_codec s r Hs).
  - exact (pl_total s Hs).
  - exact (pl_total s Hs).
  - intros r (Hn & Ht & _) (Hk & w & Hw & ->)%response_encode_Ok.
    apply length_response_prefix in Hw; [|done|lia].
    unfold MIN_AUTH_RESPONSE_PAYLOAD_SIZE. rewrite length_app. lia.
Qed.

(** An accepted response is fresh and its credential is in its validity
    window: the clock is readable, the challenge and the response were stamped
    within the allowed number of whole seconds of now, and now is neither
    before [not_before] nor after [not_after]. *)
Theorem accepted_is_fresh hmac dummy creds exporter ch r now skew c :
  verify_auth_response_stateless hmac dummy creds exporter ch r now skew = Ok c →
  now ≠ UNREADABLE_CLOCK ∧ status c = Active ∧
  (∀ nb, not_before c = Some nb → nb ≤ now) ∧ (∀ na, not_after c = Some na → now ≤ na) ∧
  Z.abs (now - server_time ch) ≤ skew / 1000000000 ∧
  Z.abs (now - client_time r) ≤ skew / 1000000000.
Proof.
  intros (_ & _ & _ & Ha & Hs1 & Hs2)%verify_stateless_Ok.
  unfold is_active_at, timestamp_within_skew, opt_and in *.
  destruct (now =? UNREADABLE_CLOCK) eqn:Hnow; [done|].
  destruct (negb (bool_decide _)) eqn:?; [done|]. bool_to_prop.
  destruct (_ || false); [done|]. destruct (_ || false); [done|]. bool_to_prop.
  split_and!; try done.
  - intros nb Hnb. rewrite Hnb in Ha. destruct (now <? nb) eqn:?; [done|]. bool_to_prop. lia.
  - intros na Hna. rewrite Hna in Ha. destruct (match not_before c with Some _ => _ | None => _ end); [done|].
    destruct (na <? now) eqn:?; [done|]. bool_to_prop. lia.
Qed.

End Auth.
