(* ===== verification/Policy.v ===== *)
(** * Policy: the destination policy engine (crates/uk-policy/src/lib.rs)

    Rules, their predicates, the address classifiers, first-match evaluation
    before and after name resolution, and the conversion of parsed
    configuration into rules.  The TOML parser is another crate's: its output,
    [RawPolicySet], is where the model starts. *)

From S2P Require Import Prelude Wire RustStd TargetCodec Auth.
Import Target.

Module Policy.

(* @src crates/uk-policy/src/lib.rs 17-43 PolicyError *)
Inductive PolicyError : Set :=
  | InvalidCidr (input : Bytes)
  | InvalidPortRange
  | InvalidAction (action : Bytes)
  | InvalidDomain (domain : Bytes)
  | InvalidKeyId (key_id : Bytes)
  | InvalidPolicyGroup (group : Bytes)
  | InvalidToml (message : Bytes).

Abbreviation PolicyResult := (result PolicyError).

(* @src crates/uk-policy/src/lib.rs 45-52 PolicyDecision *)
Inductive PolicyDecision : Set := Allow | Deny.

#[global] Instance PolicyDecision_eq_dec : EqDecision PolicyDecision.
Proof. solve_decision. Defined.

(* @src crates/uk-policy/src/lib.rs 54-62 PreResolveDecision *)
Inductive PreResolveDecision : Set := DeniedWithoutResolution | NeedsResolution.

(* @src crates/uk-policy/src/lib.rs 64-75 PolicyContext *)
Record PolicyContext : Set := {
  ctx_key_id : Bytes;
  ctx_policy_group : option Bytes;
  target : Target;
  resolved_ips : list IpAddr
}.

(* @src crates/uk-policy/src/lib.rs 327-346 Cidr *)
Inductive Cidr : Set :=
  | V4 (network : Ipv4Addr) (prefix : Z)
  | V6 (network : Ipv6Addr) (prefix : Z).

(* @src crates/uk-policy/src/lib.rs 190-209 PolicyRule *)
Record PolicyRule : Set := {
  action : PolicyDecision;
  key_id : option Bytes;
  policy_group : option Bytes;
  domain : option Bytes;
  domain_suffix : option Bytes;
  cidr : option Cidr;
  ports : option (Z * Z);
  private : option bool
}.

(* @src crates/uk-policy/src/lib.rs 77-87 PolicySet *)
Record PolicySet : Set := { rules : list PolicyRule }.

(** ** Addresses *)

(* @src crates/uk-policy/src/lib.rs 773-789 ipv4_mask *)
Definition ipv4_mask (prefix : Z) : Z :=
  if prefix =? 0 then 0
  else if (1 <=? prefix) && (prefix <=? 32)
  then truncate 32 (Z.shiftl 0xffffffff (32 - prefix))
  else 0xffffffff.

(* @src crates/uk-policy/src/lib.rs 791-801 ipv6_mask *)
Definition ipv6_mask (prefix : Z) : Z :=
  if prefix =? 0 then 0
  else if (1 <=? prefix) && (prefix <=? 128)
  then truncate 128 (Z.shiftl (2 ^ 128 - 1) (128 - prefix))
  else 2 ^ 128 - 1.

(* @src crates/uk-policy/src/lib.rs 767-771 ipv4_from_segments *)
Definition ipv4_from_segments (high low : Z) : Ipv4Addr :=
  ipv4_new (Z.shiftr high 8) (high mod 256) (Z.shiftr low 8) (low mod 256).

(* @src crates/uk-policy/src/lib.rs 758-765 ipv4_mapped *)
Definition ipv4_mapped (ip : Ipv6Addr) : option Ipv4Addr :=
  if bool_decide (take 5 (ipv6_segments ip) = [0; 0; 0; 0; 0]) && (ipv6_segment 5 ip =? 0xffff)
  then Some (ipv4_from_segments (ipv6_segment 6 ip) (ipv6_segment 7 ip))
  else None.

(* @src crates/uk-policy/src/lib.rs 723-756 embedded_ipv4 *)
Definition embedded_ipv4 (ip : Ipv6Addr) : option Ipv4Addr :=
  match ipv4_mapped ip with
  | Some mapped => Some mapped
  | None =>
    if bool_decide (take 6 (ipv6_segments ip) = [0x0064; 0xff9b; 0; 0; 0; 0])
    then Some (ipv4_from_segments (ipv6_segment 6 ip) (ipv6_segment 7 ip))
    else if bool_decide (take 6 (ipv6_segments ip) = [0; 0; 0; 0; 0; 0])
            && negb ((ipv6_segment 6 ip =? 0) && (ipv6_segment 7 ip <=? 1))
    then Some (ipv4_from_segments (ipv6_segment 6 ip) (ipv6_segment 7 ip))
    else if ipv6_segment 0 ip =? 0x2002
    then Some (ipv4_from_segments (ipv6_segment 1 ip) (ipv6_segment 2 ip))
    else None
  end.

(* @src crates/uk-policy/src/lib.rs 659-667 is_ipv4_this_network *)
Definition is_ipv4_this_network (ip : Ipv4Addr) : bool := ipv4_octet 0 ip =? 0.

Definition octets3 (a b c : Z) (ip : Ipv4Addr) : bool :=
  (ipv4_octet 0 ip =? a) && (ipv4_octet 1 ip =? b) && (ipv4_octet 2 ip =? c).

(* @src crates/uk-policy/src/lib.rs 669-674 is_ipv4_documentation *)
Definition is_ipv4_documentation (ip : Ipv4Addr) : bool :=
  octets3 192 0 2 ip || octets3 198 51 100 ip || octets3 203 0 113 ip.

(* @src crates/uk-policy/src/lib.rs 676-679 is_ipv4_shared_address *)
Definition is_ipv4_shared_address (ip : Ipv4Addr) : bool :=
  (ipv4_octet 0 ip =? 100) && in_range 64 127 (ipv4_octet 1 ip).

(* @src crates/uk-policy/src/lib.rs 681-684 is_ipv4_benchmarking *)
Definition is_ipv4_benchmarking (ip : Ipv4Addr) : bool :=
  (ipv4_octet 0 ip =? 198) && ((ipv4_octet 1 ip =? 18) || (ipv4_octet 1 ip =? 19)).

(* @src crates/uk-policy/src/lib.rs 686-690 is_ipv4_protocol_assignment *)
Definition is_ipv4_protocol_assignment (ip : Ipv4Addr) : bool := octets3 192 0 0 ip.

(* @src crates/uk-policy/src/lib.rs 692-695 is_ipv4_6to4_relay_anycast *)
Definition is_ipv4_6to4_relay_anycast (ip : Ipv4Addr) : bool := octets3 192 88 99 ip.

(* @src crates/uk-policy/src/lib.rs 697-699 is_ipv4_reserved *)
Definition is_ipv4_reserved (ip : Ipv4Addr) : bool := 240 <=? ipv4_octet 0 ip.

(* @src crates/uk-policy/src/lib.rs 701-703 is_ipv6_unicast_link_local *)
Definition is_ipv6_unicast_link_local (ip : Ipv6Addr) : bool :=
  Z.land (ipv6_segment 0 ip) 0xffc0 =? 0xfe80.

(* @src crates/uk-policy/src/lib.rs 705-708 is_ipv6_site_local *)
Definition is_ipv6_site_local (ip : Ipv6Addr) : bool :=
  Z.land (ipv6_segment 0 ip) 0xffc0 =? 0xfec0.

(* @src crates/uk-policy/src/lib.rs 710-715 is_ipv6_documentation *)
Definition is_ipv6_documentation (ip : Ipv6Addr) : bool :=
  ((ipv6_segment 0 ip =? 0x2001) && (ipv6_segment 1 ip =? 0x0db8))
  || ((ipv6_segment 0 ip =? 0x3fff) && (Z.land (ipv6_segment 1 ip) 0xf000 =? 0)).

(* @src crates/uk-policy/src/lib.rs 717-721 is_ipv6_orchid *)
Definition is_ipv6_orchid (ip : Ipv6Addr) : bool :=
  (ipv6_segment 0 ip =? 0x2001) && (Z.land (ipv6_segment 1 ip) 0xfff0 =? 0x0010).

(* @src crates/uk-policy/src/lib.rs 643-657 is_restricted_ipv4 *)
Definition is_restricted_ipv4 (ip : Ipv4Addr) : bool :=
  ipv4_is_private ip
  || ipv4_is_loopback ip
  || ipv4_is_link_local ip
  || ipv4_is_unspecified ip
  || ipv4_is_broadcast ip
  || ipv4_is_multicast ip
  || is_ipv4_documentation ip
  || is_ipv4_shared_address ip
  || is_ipv4_benchmarking ip
  || is_ipv4_protocol_assignment ip
  || is_ipv4_6to4_relay_anycast ip
  || is_ipv4_reserved ip
  || is_ipv4_this_network ip.

(* @src crates/uk-policy/src/lib.rs 626-641 is_private *)
Definition is_private (ip : IpAddr) : bool :=
  match ip with
  | IpV4 ip => is_restricted_ipv4 ip
  | IpV6 ip =>
    match embedded_ipv4 ip with Some ip4 => is_restricted_ipv4 ip4 | None => false end
    || ipv6_is_unique_local ip
    || ipv6_is_loopback ip
    || ipv6_is_unspecified ip
    || ipv6_is_multicast ip
    || is_ipv6_unicast_link_local ip
    || is_ipv6_site_local ip
    || is_ipv6_documentation ip
    || is_ipv6_orchid ip
  end.

Definition is_metadata_ipv4 (ip : Ipv4Addr) : bool :=
  (ip =? ipv4_new 169 254 169 254)
  || (ip =? ipv4_new 169 254 170 2)
  || (ip =? ipv4_new 100 100 100 200)
  || (ip =? ipv4_new 168 63 129 16).

(* @src crates/uk-policy/src/lib.rs 599-612 is_metadata_service_ip *)
Definition is_metadata_service_ip (ip : IpAddr) : bool :=
  match ip with
  | IpV4 ip => is_metadata_ipv4 ip
  | IpV6 ip =>
    match embedded_ipv4 ip with Some ip4 => is_metadata_ipv4 ip4 | None => false end
    || (ip =? ipv6_of_segments [0xfd00; 0x0ec2; 0; 0; 0; 0; 0; 0x0254])
  end.

(** [None] is the [InvalidCidr] error; its message renders the arguments. *)
(* @src crates/uk-policy/src/lib.rs 349-360 Cidr::new_v4 *)
Definition new_v4 (network : Ipv4Addr) (prefix : Z) : option Cidr :=
  if prefix <=? 32 then Some (V4 network prefix) else None.

(* @src crates/uk-policy/src/lib.rs 362-373 Cidr::new_v6 *)
Definition new_v6 (network : Ipv6Addr) (prefix : Z) : option Cidr :=
  if prefix <=? 128 then Some (V6 network prefix) else None.

Definition contains_v4 (network : Ipv4Addr) (prefix : Z) (ip : Ipv4Addr) : bool :=
  let mask := ipv4_mask prefix in Z.land network mask =? Z.land ip mask.

(* @src crates/uk-policy/src/lib.rs 375-391 Cidr::contains *)
Definition contains (c : Cidr) (ip : IpAddr) : bool :=
  match c, ip with
  | V4 network prefix, IpV4 ip => contains_v4 network prefix ip
  | V4 network prefix, IpV6 ip =>
    match ipv4_mapped ip with Some mapped => contains_v4 network prefix mapped | None => false end
  | V6 network prefix, IpV6 ip =>
    let mask := ipv6_mask prefix in Z.land network mask =? Z.land ip mask
  | V6 _ _, IpV4 _ => false
  end.

Definition SLASH : Z := 0x2f.

(* @src crates/uk-policy/src/lib.rs 394-413 Cidr::from_str *)
Definition cidr_from_str (input : Bytes) : PolicyResult Cidr :=
  let? '(addr, prefix) := ok_or (InvalidCidr input) (split_once SLASH input) in
  let? prefix := ok_or (InvalidCidr input) (parse_uint 255 prefix) in
  let? ip := ok_or (InvalidCidr input) (parse_ip addr) in
  ok_or (InvalidCidr input)
    match ip with
    | IpV4 ip => new_v4 ip prefix
    | IpV6 ip => new_v6 ip prefix
    end.

(** ** Predicates *)

(** [Option::is_some_and] and [Option::is_none_or]. *)
Definition is_some_and {A} (o : option A) (f : A → bool) : bool :=
  match o with Some a => f a | None => false end.
Definition is_none_or {A} (o : option A) (f : A → bool) : bool :=
  match o with Some a => f a | None => true end.

(* @src crates/uk-policy/src/lib.rs 486-491 target_domain *)
Definition target_domain (t : Target) : option Bytes :=
  match t with Domain d _ => Some d | _ => None end.

(* @src crates/uk-policy/src/lib.rs 547-549 normalize_domain *)
Definition normalize_domain (d : Bytes) : Bytes := to_ascii_lowercase (trim_end_byte DOT d).

(* @src crates/uk-policy/src/lib.rs 526-530 domain_matches_exact *)
Definition domain_matches_exact (d want : Bytes) : bool :=
  let d := normalize_domain d in
  let want := normalize_domain want in
  negb (bool_decide (want = [])) && bool_decide (d = want).

(* @src crates/uk-policy/src/lib.rs 532-545 domain_matches_suffix *)
Definition domain_matches_suffix (d suffix : Bytes) : bool :=
  let d := normalize_domain d in
  let suffix := normalize_domain suffix in
  if bool_decide (suffix = []) then false else
  match strip_prefix [DOT] suffix with
  | Some stripped =>
    negb (bool_decide (stripped = [])) && (zlen stripped <? zlen d) && ends_with suffix d
  | None =>
    bool_decide (d = suffix)
    || is_some_and (strip_suffix suffix d) (λ prefix, ends_with [DOT] prefix)
  end.

(* @src crates/uk-policy/src/lib.rs 551-557 target_ips *)
Definition target_ips (t : Target) (resolved : list IpAddr) : list IpAddr :=
  match t with
  | Domain _ _ => resolved
  | Ipv4 ip _ => [IpV4 ip]
  | Ipv6 ip _ => [IpV6 ip]
  end.

(* @src crates/uk-policy/src/lib.rs 559-574 cidr_matches *)
Definition cidr_matches (a : PolicyDecision) (c : Cidr) (t : Target) (resolved : list IpAddr) : bool :=
  let ips := target_ips t resolved in
  if bool_decide (ips = []) then false else
  match a with
  | Allow => forallb (contains c) ips
  | Deny => existsb (contains c) ips
  end.

(* @src crates/uk-policy/src/lib.rs 576-583 target_or_resolution_contains_metadata_service_ip *)
Definition target_or_resolution_contains_metadata_service_ip (t : Target) (resolved : list IpAddr)
    : bool :=
  existsb is_metadata_service_ip (target_ips t resolved).

(* @src crates/uk-policy/src/lib.rs 585-597 target_or_resolution_is_private *)
Definition target_or_resolution_is_private (t : Target) (resolved : list IpAddr) : bool :=
  match t with
  | Ipv4 ip _ => is_restricted_ipv4 ip
  | Ipv6 ip _ => is_private (IpV6 ip)
  | Domain _ _ => if bool_decide (resolved = []) then true else existsb is_private resolved
  end.

(* @src crates/uk-policy/src/lib.rs 614-624 private_matches *)
Definition private_matches (ctx : PolicyContext) (want_private : bool) : bool :=
  let ips := target_ips (target ctx) (resolved_ips ctx) in
  if bool_decide (ips = []) then false else
  if want_private then existsb is_private ips
  else forallb (λ ip, negb (is_private ip)) ips.

(* @src crates/uk-policy/src/lib.rs 260-297 PolicyRule::matches_fixed_predicates *)
Definition matches_fixed_predicates (r : PolicyRule) (ctx : PolicyContext) : bool :=
  if is_some_and (key_id r) (λ k, negb (bool_decide (k = ctx_key_id ctx))) then false else
  if is_some_and (policy_group r) (λ group,
       is_none_or (ctx_policy_group ctx) (λ g, negb (bool_decide (g = group)))) then false else
  if is_some_and (domain r) (λ want,
       is_none_or (target_domain (target ctx)) (λ d, negb (domain_matches_exact d want)))
  then false else
  if is_some_and (domain_suffix r) (λ suffix,
       is_none_or (target_domain (target ctx)) (λ d, negb (domain_matches_suffix d suffix)))
  then false else
  if is_some_and (ports r) (λ '(start, end_), negb (in_range start end_ (port (target ctx))))
  then false else
  true.

(* @src crates/uk-policy/src/lib.rs 242-258 PolicyRule::matches *)
Definition matches (r : PolicyRule) (ctx : PolicyContext) : bool :=
  if negb (matches_fixed_predicates r ctx) then false else
  if is_some_and (cidr r) (λ c,
       negb (cidr_matches (action r) c (target ctx) (resolved_ips ctx))) then false else
  if is_some_and (private r) (λ want, negb (private_matches ctx want)) then false else
  true.

(* @src crates/uk-policy/src/lib.rs 299-324 PolicyRule::resolution_dependent *)
Definition resolution_dependent (r : PolicyRule) (t : Target) : bool :=
  match t with
  | Ipv4 _ _ | Ipv6 _ _ => false
  | Domain _ _ =>
    if bool_decide (is_Some (cidr r)) then true else
    match action r, private r with
    | Deny, None => false
    | _, _ => true
    end
  end.

(* @src crates/uk-policy/src/lib.rs 212-228 PolicyRule::new *)
Definition rule_new (a : PolicyDecision) : PolicyRule :=
  {| action := a; key_id := None; policy_group := None; domain := None; domain_suffix := None;
     cidr := None; ports := None;
     private := match a with Allow => Some false | Deny => None end |}.

(* @src crates/uk-policy/src/lib.rs 230-240 PolicyRule::is_blanket_private_deny *)
Definition is_blanket_private_deny (r : PolicyRule) : bool :=
  bool_decide (action r = Deny)
  && bool_decide (private r = Some true)
  && bool_decide (key_id r = None)
  && bool_decide (policy_group r = None)
  && bool_decide (domain r = None)
  && bool_decide (domain_suffix r = None)
  && bool_decide (ports r = None)
  && bool_decide (cidr r = None).

(** ** Evaluation *)

(** The first-match loop of [evaluate]. *)
(* @src crates/uk-policy/src/lib.rs 102-114 PolicySet::evaluate *)
Fixpoint evaluate_rules (rs : list PolicyRule) (ctx : PolicyContext) : PolicyDecision :=
  match rs with
  | [] => Deny
  | rule :: rs' =>
    if matches rule ctx then
      if bool_decide (action rule = Allow)
         && negb (bool_decide (private rule = Some true))
         && target_or_resolution_is_private (target ctx) (resolved_ips ctx)
      then Deny
      else action rule
    else evaluate_rules rs' ctx
  end.

(* @src crates/uk-policy/src/lib.rs 96-115 PolicySet::evaluate *)
Definition evaluate (p : PolicySet) (ctx : PolicyContext) : PolicyDecision :=
  if target_or_resolution_contains_metadata_service_ip (target ctx) (resolved_ips ctx) then Deny
  else evaluate_rules (rules p) ctx.

(** The loop at the end of [evaluate_pre_resolve]. *)
(* @src crates/uk-policy/src/lib.rs 147-161 PolicySet::evaluate_pre_resolve *)
Fixpoint pre_resolve_rules (rs : list PolicyRule) (ctx : PolicyContext) : PreResolveDecision :=
  match rs with
  | [] => DeniedWithoutResolution
  | rule :: rs' =>
    if negb (matches_fixed_predicates rule ctx) then pre_resolve_rules rs' ctx
    else if resolution_dependent rule (target ctx) then NeedsResolution
    else match action rule with
         | Deny => DeniedWithoutResolution
         | Allow => NeedsResolution
         end
  end.

(* @src crates/uk-policy/src/lib.rs 117-164 PolicySet::evaluate_pre_resolve *)
Definition evaluate_pre_resolve (p : PolicySet) (ctx : PolicyContext) : PreResolveDecision :=
  match target ctx with
  | Ipv4 _ _ | Ipv6 _ _ =>
    match evaluate p ctx with
    | Allow => NeedsResolution
    | Deny => DeniedWithoutResolution
    end
  | Domain _ _ =>
    if negb (existsb (λ rule, bool_decide (action rule = Allow)
                              && matches_fixed_predicates rule ctx) (rules p))
    then DeniedWithoutResolution
    else pre_resolve_rules (rules p) ctx
  end.

(* @src crates/uk-policy/src/lib.rs 174-187 PolicySet::has_unrestricted_private_allow *)
Fixpoint unrestricted_private_allow (has_blanket_private_deny : bool) (rs : list PolicyRule) : bool :=
  match rs with
  | [] => false
  | rule :: rs' =>
    if is_blanket_private_deny rule then unrestricted_private_allow true rs'
    else if bool_decide (action rule = Allow) && negb has_blanket_private_deny
            && bool_decide (private rule = Some true)
    then true
    else unrestricted_private_allow has_blanket_private_deny rs'
  end.

(* @src crates/uk-policy/src/lib.rs 166-187 PolicySet::has_unrestricted_private_allow *)
Definition has_unrestricted_private_allow (p : PolicySet) : bool :=
  unrestricted_private_allow false (rules p).

(** ** Loading *)

(* @src crates/uk-policy/src/lib.rs 421-433 RawPolicyRule *)
Record RawPolicyRule : Set := {
  raw_action : Bytes;
  raw_key_id : option Bytes;
  raw_policy_group : option Bytes;
  raw_domain : option Bytes;
  raw_domain_suffix : option Bytes;
  raw_cidr : option Bytes;
  raw_port_start : option Z;
  raw_port_end : option Z;
  raw_private : option bool
}.

(* @src crates/uk-policy/src/lib.rs 415-419 RawPolicySet *)
Record RawPolicySet : Set := { raw_rules : list RawPolicyRule }.

(* @src crates/uk-policy/src/lib.rs 493-496 validate_key_id_match *)
Definition validate_key_id_match (k : Bytes) : PolicyResult Bytes :=
  let? _ := map_err (λ _, InvalidKeyId k) (Auth.validate_key_id k) in Ok k.

(* @src crates/uk-policy/src/lib.rs 498-504 validate_policy_group_match *)
Definition validate_policy_group_match (group : Bytes) : PolicyResult Bytes :=
  if bool_decide (group = []) || existsb is_ascii_control group
  then Err (InvalidPolicyGroup group) else Ok group.

(* @src crates/uk-policy/src/lib.rs 506-515 validate_domain_match *)
Definition validate_domain_match (d : Bytes) : PolicyResult Bytes :=
  let normalized := normalize_domain d in
  if starts_with [DOT] normalized || negb (is_ok (validate_domain_name normalized))
  then Err (InvalidDomain d) else Ok d.

(* @src crates/uk-policy/src/lib.rs 517-524 validate_domain_suffix_match *)
Definition validate_domain_suffix_match (suffix : Bytes) : PolicyResult Bytes :=
  let normalized := normalize_domain suffix in
  if negb (is_ok (validate_domain_pattern normalized))
  then Err (InvalidDomain suffix) else Ok suffix.

(** [Option::map(f).transpose()?]. *)
Definition opt_transpose {A B} (f : A → PolicyResult B) (o : option A) : PolicyResult (option B) :=
  match o with
  | None => Ok None
  | Some a => let? b := f a in Ok (Some b)
  end.

(* @src crates/uk-policy/src/lib.rs 447-484 PolicyRule::try_from *)
Definition rule_try_from (raw : RawPolicyRule) : PolicyResult PolicyRule :=
  let? a :=
    (if eq_ignore_ascii_case (raw_action raw) (bytes_of_string "allow") then Ok Allow
     else if eq_ignore_ascii_case (raw_action raw) (bytes_of_string "deny") then Ok Deny
     else Err (InvalidAction (raw_action raw))) in
  let? ports :=
    match raw_port_start raw, raw_port_end raw with
    | Some start, Some end_ =>
      if (start <=? end_) && negb (start =? 0) then Ok (Some (start, end_))
      else Err InvalidPortRange
    | None, None => Ok None
    | _, _ => Err InvalidPortRange
    end in
  let private :=
    match a, raw_private raw with
    | Allow, None => Some false
    | _, other => other
    end in
  let? k := opt_transpose validate_key_id_match (raw_key_id raw) in
  let? g := opt_transpose validate_policy_group_match (raw_policy_group raw) in
  let? d := opt_transpose validate_domain_match (raw_domain raw) in
  let? ds := opt_transpose validate_domain_suffix_match (raw_domain_suffix raw) in
  let? c := opt_transpose cidr_from_str (raw_cidr raw) in
  Ok {| action := a; key_id := k; policy_group := g; domain := d; domain_suffix := ds;
        cidr := c; ports := ports; private := private |}.

(* @src crates/uk-policy/src/lib.rs 435-445 PolicySet::try_from *)
Fixpoint rules_try_from (raw : list RawPolicyRule) : PolicyResult (list PolicyRule) :=
  match raw with
  | [] => Ok []
  | r :: rs =>
    let? rule := rule_try_from r in
    let? rest := rules_try_from rs in
    Ok (rule :: rest)
  end.

(** [PolicySet::from_toml] after the TOML parser. *)
(* @src crates/uk-policy/src/lib.rs 89-94 PolicySet::from_toml *)
Definition from_raw (raw : RawPolicySet) : PolicyResult PolicySet :=
  let? rs := rules_try_from (raw_rules raw) in Ok {| rules := rs |}.

(** ** Lemmas: address arithmetic *)

Lemma land_mask_eqb w p x y :
  0 ≤ p ≤ w → in_width w x → in_width w y →
  let mask := truncate w (Z.shiftl (2 ^ w - 1) (w - p)) in
  (Z.land x mask =? Z.land y mask) = (x / 2 ^ (w - p) =? y / 2 ^ (w - p)).
Proof.
  intros Hp Hx Hy. cbv zeta. rewrite !land_high_mask by (done || lia).
  apply Bool.eq_iff_eq_true. rewrite !Z.eqb_eq. split; [|by intros ->].
  apply Z.mul_cancel_r. apply Z.pow_nonzero; lia.
Qed.

(** Membership in an IPv4 network is equality of the leading [p] bits. *)
Lemma contains_v4_prefix n p a :
  0 ≤ p ≤ 32 → is_u32 n → is_u32 a →
  contains_v4 n p a = (n / 2 ^ (32 - p) =? a / 2 ^ (32 - p)).
Proof.
  intros Hp Hn Ha. unfold contains_v4, ipv4_mask. destruct (p =? 0) eqn:Hp0; bool_to_prop.
  { subst. rewrite !Z.land_0_r. change (2 ^ (32 - 0)) with (2 ^ 32).
    unfold in_width in *. by rewrite !Z.div_small. }
  rewrite (proj2 (Z.leb_le 1 p)), (proj2 (Z.leb_le p 32)) by lia. simpl.
  change 0xffffffff with (2 ^ 32 - 1). by apply land_mask_eqb.
Qed.

Lemma contains_v6_prefix n p a :
  0 ≤ p ≤ 128 → is_u128 n → is_u128 a →
  contains (V6 n p) (IpV6 a) = (n / 2 ^ (128 - p) =? a / 2 ^ (128 - p)).
Proof.
  intros Hp Hn Ha. unfold contains, ipv6_mask. destruct (p =? 0) eqn:Hp0; bool_to_prop.
  { subst. rewrite !Z.land_0_r. change (2 ^ (128 - 0)) with (2 ^ 128).
    unfold in_width in *. by rewrite !Z.div_small. }
  rewrite (proj2 (Z.leb_le 1 p)), (proj2 (Z.leb_le p 128)) by lia. simpl.
  by apply land_mask_eqb.
Qed.

(** An IPv4 address is its four octets. *)
Lemma ipv4_octets_decompose a :
  is_u32 a → ∃ o0 o1 o2 o3, is_u8 o0 ∧ is_u8 o1 ∧ is_u8 o2 ∧ is_u8 o3 ∧
    a = ipv4_new o0 o1 o2 o3 ∧ ipv4_octet 0 a = o0 ∧ ipv4_octet 1 a = o1 ∧
    ipv4_octet 2 a = o2 ∧ ipv4_octet 3 a = o3.
Proof.
  unfold in_width. intros Ha. exists (ipv4_octet 0 a), (ipv4_octet 1 a), (ipv4_octet 2 a), (ipv4_octet 3 a).
  unfold ipv4_octet, ipv4_new. rewrite !Z.shiftr_div_pow2 by lia.
  change (2 ^ (8 * (3 - 0))) with 16777216. change (2 ^ (8 * (3 - 1))) with 65536.
  change (2 ^ (8 * (3 - 2))) with 256. change (2 ^ (8 * (3 - 3))) with 1.
  change (2 ^ 8) with 256. change (2 ^ 32) with 4294967296 in Ha.
  split_and!; try done; Z.div_mod_to_equations; lia.
Qed.

(** The special-purpose IPv4 networks, in the order of [is_restricted_ipv4]. *)
Definition restricted_networks : list (Ipv4Addr * Z) :=
  [(ipv4_new 10 0 0 0, 8); (ipv4_new 172 16 0 0, 12); (ipv4_new 192 168 0 0, 16);
   (ipv4_new 127 0 0 0, 8); (ipv4_new 169 254 0 0, 16); (ipv4_new 0 0 0 0, 32);
   (ipv4_new 255 255 255 255, 32); (ipv4_new 224 0 0 0, 4);
   (ipv4_new 192 0 2 0, 24); (ipv4_new 198 51 100 0, 24); (ipv4_new 203 0 113 0, 24);
   (ipv4_new 100 64 0 0, 10); (ipv4_new 198 18 0 0, 15); (ipv4_new 192 0 0 0, 24);
   (ipv4_new 192 88 99 0, 24); (ipv4_new 240 0 0 0, 4); (ipv4_new 0 0 0 0, 8)].

(** One octet test against one network test. *)
Ltac prefix_leaf :=
  apply Bool.eq_iff_eq_true;
  rewrite ?andb_true_iff, ?orb_true_iff, ?Z.eqb_eq, ?Z.leb_le;
  match goal with |- _ ↔ ?n / 2 ^ ?k = _ =>
    let n' := eval vm_compute in (n / 2 ^ k) in change (n / 2 ^ k) with n';
    let k' := eval vm_compute in (2 ^ k) in change (2 ^ k) with k'
  end;
  unfold ipv4_new, in_width in *; change (2 ^ 8) with 256 in *;
  Z.div_mod_to_equations; lia.

Lemma restricted_networks_wf n q : (n, q) ∈ restricted_networks → is_u32 n ∧ 0 ≤ q ≤ 32.
Proof.
  intros H. assert (Forall (λ '(n, q), ((0 <=? n) && (n <? 2 ^ 32) && (0 <=? q) && (q <=? 32)) = true)
    restricted_networks) as Hall by (by repeat constructor).
  rewrite Forall_forall in Hall. specialize (Hall _ H). simpl in Hall.
  rewrite !andb_true_iff in Hall. unfold in_width. destruct Hall as [[[??]?]?]. bool_to_prop. lia.
Qed.

Lemma restricted_networks_exact a :
  is_u32 a →
  is_restricted_ipv4 a = existsb (λ '(n, p), contains_v4 n p a) restricted_networks.
Proof.
  intros Ha. unfold is_restricted_ipv4, restricted_networks. simpl existsb.
  unfold ipv4_is_private, ipv4_is_loopback, ipv4_is_link_local, ipv4_is_unspecified,
    ipv4_is_broadcast, ipv4_is_multicast, is_ipv4_documentation, is_ipv4_shared_address,
    is_ipv4_benchmarking, is_ipv4_protocol_assignment, is_ipv4_6to4_relay_anycast,
    is_ipv4_reserved, is_ipv4_this_network, octets3, in_range.
  destruct (ipv4_octets_decompose a Ha) as (o0 & o1 & o2 & o3 & H0 & H1 & H2 & H3 & Ea & E0 & E1 & E2 & E3).
  rewrite !contains_v4_prefix by done. rewrite E0, E1, E2, !orb_assoc, orb_false_r.
  clear Ha E0 E1 E2 E3. subst a. repeat apply (f_equal2 orb); prefix_leaf.
Qed.

(** An IPv6 address is its eight segments. *)
Lemma ipv6_segments_decompose e :
  is_u128 e → ∃ s0 s1 s2 s3 s4 s5 s6 s7,
    Forall is_u16 [s0; s1; s2; s3; s4; s5; s6; s7] ∧
    ipv6_segments e = [s0; s1; s2; s3; s4; s5; s6; s7] ∧
    e = ipv6_of_segments [s0; s1; s2; s3; s4; s5; s6; s7].
Proof.
  unfold in_width at 1. intros He.
  assert (∀ i, 0 ≤ i ≤ 7 → is_u16 (ipv6_segment i e)) as Hseg.
  { intros i _. unfold ipv6_segment, in_width. change (2 ^ 16) with 65536.
    by apply Z.mod_pos_bound. }
  eexists _, _, _, _, _, _, _, _. split_and!; [|reflexivity|].
  { rewrite !Forall_cons. split_and!; try done; by apply Hseg. }
  unfold ipv6_of_segments, ipv6_segment. simpl foldl. rewrite !Z.shiftr_div_pow2 by lia.
  change (2 ^ (16 * (7 - Z.of_nat 0))) with (2 ^ 112).
  change (2 ^ (16 * (7 - Z.of_nat 1))) with (2 ^ 96).
  change (2 ^ (16 * (7 - Z.of_nat 2))) with (2 ^ 80).
  change (2 ^ (16 * (7 - Z.of_nat 3))) with (2 ^ 64).
  change (2 ^ (16 * (7 - Z.of_nat 4))) with (2 ^ 48).
  change (2 ^ (16 * (7 - Z.of_nat 5))) with (2 ^ 32).
  change (2 ^ (16 * (7 - Z.of_nat 6))) with (2 ^ 16).
  change (2 ^ (16 * (7 - Z.of_nat 7))) with 1.
  Z.div_mod_to_equations. lia.
Qed.

(** The IPv4 address [a] is carried by the IPv6 address [e]: mapped
    (::ffff:a), NAT64 (64:ff9b::a), IPv4-compatible (::a, other than :: and
    ::1) or 6to4 (2002:a::/48). *)
Definition carries (e : Ipv6Addr) (a : Ipv4Addr) : Prop :=
  e = 0xffff * 2 ^ 32 + a ∨ e = 0x64ff9b * 2 ^ 96 + a ∨ (e = a ∧ 2 ≤ a) ∨
  ∃ low, 0 ≤ low < 2 ^ 80 ∧ e = 0x2002 * 2 ^ 112 + a * 2 ^ 80 + low.

Lemma ipv4_from_segments_eq h l :
  is_u16 h → is_u16 l → ipv4_from_segments h l = h * 65536 + l ∧ is_u32 (h * 65536 + l).
Proof.
  unfold in_width, ipv4_from_segments, ipv4_new. change (2 ^ 16) with 65536. change (2 ^ 32) with 4294967296.
  rewrite !Z.shiftr_div_pow2 by lia. change (2 ^ 8) with 256. intros ??.
  split; Z.div_mod_to_equations; lia.
Qed.

Lemma bool_decide_list_cons (x y : Z) l k :
  bool_decide (x :: l = y :: k) = (x =? y) && bool_decide (l = k).
Proof.
  apply Bool.eq_iff_eq_true. rewrite andb_true_iff, !bool_decide_eq_true, Z.eqb_eq.
  split; [by intros [= -> ->]|by intros [-> ->]].
Qed.

Lemma ipv4_mapped_iff e a :
  is_u128 e → ipv4_mapped e = Some a ↔ is_u32 a ∧ e = 0xffff * 2 ^ 32 + a.
Proof.
  intros He.
  destruct (ipv6_segments_decompose e He) as (s0&s1&s2&s3&s4&s5&s6&s7&Hs&Es&Ee).
  assert (ipv6_segment 5 e = s5 ∧ ipv6_segment 6 e = s6 ∧ ipv6_segment 7 e = s7) as (E5 & E6 & E7).
  { unfold ipv6_segments in Es. simpl in Es. simplify_eq. done. }
  rewrite !Forall_cons in Hs. destruct Hs as (H0&H1&H2&H3&H4&H5&H6&H7&_).
  unfold ipv4_mapped. rewrite Es, E5, E6, E7.
  pose proof (ipv4_from_segments_eq s6 s7 H6 H7) as [-> Hlo].
  simpl take. clear E5 E6 E7 Es He. unfold ipv6_of_segments in *. simpl foldl in Ee. unfold in_width in *.
  rewrite !bool_decide_list_cons, (bool_decide_true ([] = [])) by done. split.
  - intros Hm. destruct (_ && _) eqn:Hb; simplify_eq. bool_to_prop. split; (done || lia).
  - intros [Ha Hc].
    assert (s0 = 0 ∧ s1 = 0 ∧ s2 = 0 ∧ s3 = 0 ∧ s4 = 0 ∧ s5 = 0xffff)
      as (-> & -> & -> & -> & -> & ->) by lia. simpl. f_equal. lia.
Qed.

Lemma embedded_ipv4_iff e a :
  is_u128 e → embedded_ipv4 e = Some a ↔ is_u32 a ∧ carries e a.
Proof.
  intros He.
  destruct (ipv6_segments_decompose e He) as (s0&s1&s2&s3&s4&s5&s6&s7&Hs&Es&Ee).
  assert (ipv6_segment 0 e = s0 ∧ ipv6_segment 1 e = s1 ∧ ipv6_segment 2 e = s2 ∧
          ipv6_segment 5 e = s5 ∧ ipv6_segment 6 e = s6 ∧ ipv6_segment 7 e = s7)
    as (E0 & E1 & E2 & E5 & E6 & E7).
  { unfold ipv6_segments in Es. simpl in Es. simplify_eq. done. }
  rewrite !Forall_cons in Hs. destruct Hs as (H0&H1&H2&H3&H4&H5&H6&H7&_).
  unfold embedded_ipv4, ipv4_mapped. rewrite Es, E0, E1, E2, E5, E6, E7.
  pose proof (ipv4_from_segments_eq s6 s7 H6 H7) as [-> Hlo].
  pose proof (ipv4_from_segments_eq s1 s2 H1 H2) as [-> Hhi].
  simpl take. clear E0 E1 E2 E5 E6 E7 Es He.
  unfold carries, ipv6_of_segments in *. simpl foldl in Ee.
  unfold in_width in *.
  assert ((∃ low, 0 ≤ low < 2 ^ 80 ∧ e = 0x2002 * 2 ^ 112 + a * 2 ^ 80 + low) ↔
          0x2002 * 2 ^ 112 + a * 2 ^ 80 ≤ e < 0x2002 * 2 ^ 112 + a * 2 ^ 80 + 2 ^ 80) as ->.
  { split; [intros (low & ? & ?); lia|].
    intros. exists (e - (0x2002 * 2 ^ 112 + a * 2 ^ 80)). lia. }
  rewrite !bool_decide_list_cons, (bool_decide_true ([] = [])) by done.
  split.
  - intros Hm.
    repeat match type of Hm with context [if ?b then _ else _] => destruct b eqn:? end;
      simplify_eq; bool_to_prop; split; (done || lia).
  - intros [Ha [Hc|[Hc|[[Hc ?]|Hc]]]].
    + assert (s0 = 0 ∧ s1 = 0 ∧ s2 = 0 ∧ s3 = 0 ∧ s4 = 0 ∧ s5 = 0xffff)
        as (-> & -> & -> & -> & -> & ->) by lia. simpl. f_equal. lia.
    + assert (s0 = 0x64 ∧ s1 = 0xff9b ∧ s2 = 0 ∧ s3 = 0 ∧ s4 = 0 ∧ s5 = 0)
        as (-> & -> & -> & -> & -> & ->) by lia. simpl. f_equal. lia.
    + assert (s0 = 0 ∧ s1 = 0 ∧ s2 = 0 ∧ s3 = 0 ∧ s4 = 0 ∧ s5 = 0)
        as (-> & -> & -> & -> & -> & ->) by lia. simpl.
      destruct ((s6 =? 0) && (s7 <=? 1)) eqn:Hz; bool_to_prop; simpl; [lia|f_equal; lia].
    + assert (s0 = 0x2002) as -> by lia. simpl. f_equal. lia.
Qed.

Lemma embedded_not_metadata e a :
  embedded_ipv4 e = Some a → is_metadata_service_ip (IpV6 e) = false → is_metadata_ipv4 a = false.
Proof.
  intros Ha H. cbn [is_metadata_service_ip] in H. rewrite Ha in H.
  by apply orb_false_iff in H as [? _].
Qed.

Lemma embedded_not_restricted e a :
  embedded_ipv4 e = Some a → is_private (IpV6 e) = false → is_restricted_ipv4 a = false.
Proof.
  intros Ha H. cbn [is_private] in H. rewrite Ha in H.
  do 8 (apply orb_false_iff in H as [H _]). done.
Qed.

(** ** Lemmas: evaluation *)

(** The addresses an evaluation is about. *)
Definition ctx_ips (ctx : PolicyContext) : list IpAddr :=
  target_ips (target ctx) (resolved_ips ctx).

(** [r] is the first rule of [rs] that matches. *)
Definition first_match (rs : list PolicyRule) (ctx : PolicyContext) (r : PolicyRule) : Prop :=
  ∃ pre post, rs = pre ++ r :: post ∧ Forall (λ x, matches x ctx = false) pre
              ∧ matches r ctx = true.

Lemma first_match_cons x rs ctx r :
  first_match (x :: rs) ctx r ↔
  if matches x ctx then r = x else first_match rs ctx r.
Proof.
  unfold first_match. destruct (matches x ctx) eqn:Hx; split.
  - intros ([|y pre] & post & E & Hpre & Hr); simplify_eq/=; [done|].
    apply Forall_cons in Hpre as [? _]. congruence.
  - intros ->. by exists [], rs.
  - intros ([|y pre] & post & E & Hpre & Hr); simplify_eq/=; [congruence|].
    apply Forall_cons in Hpre as [_ ?]. by exists pre, post.
  - intros (pre & post & -> & Hpre & Hr). exists (x :: pre), post.
    by rewrite Forall_cons.
Qed.

Lemma target_private_false t ips :
  target_or_resolution_is_private t ips = false ↔
  target_ips t ips ≠ [] ∧ Forall (λ ip, is_private ip = false) (target_ips t ips).
Proof.
  destruct t as [d q|a q|e q]; cbn [target_or_resolution_is_private target_ips].
  - case_bool_decide as Hn; [by subst; split; [|intros [? _]]|].
    rewrite existsb_false. tauto.
  - rewrite Forall_singleton. change (is_private (IpV4 a)) with (is_restricted_ipv4 a).
    by split; [|intros [_ ?]].
  - rewrite Forall_singleton. by split; [|intros [_ ?]].
Qed.

Lemma private_matches_true ctx :
  private_matches ctx true = true ↔ Exists (λ ip, is_private ip = true) (ctx_ips ctx).
Proof.
  unfold private_matches, ctx_ips. case_bool_decide as Hn.
  - rewrite Hn. split; [done|by intros ?%Exists_nil].
  - apply existsb_Exists.
Qed.

Lemma is_none_or_true {A} (o : option A) f :
  is_none_or o f = true ↔ ∀ a, o = Some a → f a = true.
Proof. destruct o; simpl; naive_solver. Qed.

(** The conditions of [matches], conjunctively. *)
Lemma matches_true r ctx :
  matches r ctx = true ↔
  matches_fixed_predicates r ctx = true ∧
  (∀ c, cidr r = Some c → cidr_matches (action r) c (target ctx) (resolved_ips ctx) = true) ∧
  (∀ want, private r = Some want → private_matches ctx want = true).
Proof.
  assert (matches r ctx = matches_fixed_predicates r ctx
    && is_none_or (cidr r) (λ c, cidr_matches (action r) c (target ctx) (resolved_ips ctx))
    && is_none_or (private r) (private_matches ctx)) as ->.
  { unfold matches, is_some_and, is_none_or. destruct (matches_fixed_predicates r ctx); [|done]. simpl.
    destruct (cidr r) as [c|]; [destruct (cidr_matches _ _ _ _)|]; simpl; try done;
      destruct (private r); simpl; rewrite ?negb_if; try destruct (private_matches _ _); done. }
  rewrite !andb_true_iff, !is_none_or_true. tauto.
Qed.

Lemma matches_opted_in r ctx :
  matches r ctx = true → private r = Some true →
  Exists (λ ip, is_private ip = true) (ctx_ips ctx).
Proof. intros (_ & _ & Hp)%matches_true E. by apply private_matches_true, Hp. Qed.

Lemma evaluate_rules_Allow rs ctx :
  evaluate_rules rs ctx = Allow ↔
  ∃ r, first_match rs ctx r ∧ action r = Allow ∧
       (private r = Some true ∨ target_or_resolution_is_private (target ctx) (resolved_ips ctx) = false).
Proof.
  induction rs as [|x rs IH]; simpl.
  { split; [done|]. intros (r & (pre & post & E & _) & _). by destruct pre. }
  setoid_rewrite first_match_cons. destruct (matches x ctx) eqn:Hx; [|done].
  case_bool_decide as Ha; simpl; [|by split; [|intros (? & -> & ? & _)]].
  case_bool_decide as Hp; simpl; [by split; [exists x; auto|]|].
  destruct (target_or_resolution_is_private _ _); simpl.
  - split; [done|]. by intros (? & -> & _ & [?|?]).
  - split; [exists x; auto|done].
Qed.

Lemma evaluate_Allow p ctx :
  evaluate p ctx = Allow ↔
  Forall (λ ip, is_metadata_service_ip ip = false) (ctx_ips ctx) ∧
  ∃ r, first_match (rules p) ctx r ∧ action r = Allow ∧
       (private r = Some true ∨
        target_or_resolution_is_private (target ctx) (resolved_ips ctx) = false).
Proof.
  unfold evaluate, target_or_resolution_contains_metadata_service_ip.
  rewrite <- existsb_false, <- evaluate_rules_Allow. unfold ctx_ips.
  destruct (existsb _ _); naive_solver.
Qed.

(** No rule set lets a destination through when no resolved address exists. *)
Lemma Allow_has_ips p ctx : evaluate p ctx = Allow → ctx_ips ctx ≠ [].
Proof.
  intros (_ & r & (pre & post & _ & _ & Hm) & _ & [Hp|Hp])%evaluate_Allow Hn.
  - apply matches_opted_in in Hm; [|done]. rewrite Hn in Hm. by apply Exists_nil in Hm.
  - apply target_private_false in Hp. naive_solver.
Qed.

(** Without an opted-in rule among those considered, every allowed address is public. *)
Lemma Allow_public p ctx :
  evaluate p ctx = Allow →
  (∀ r, first_match (rules p) ctx r → action r = Allow → private r ≠ Some true) →
  Forall (λ ip, is_private ip = false) (ctx_ips ctx).
Proof.
  intros (_ & r & Hf & Ha & [Hp|Hp])%evaluate_Allow Hno; [by destruct (Hno r)|].
  by apply target_private_false in Hp as [_ ?].
Qed.

(** ** Lemmas: the private-destination opt-in *)

Lemma blanket_private_deny_matches r ctx :
  is_blanket_private_deny r = true → Exists (λ ip, is_private ip = true) (ctx_ips ctx) →
  matches r ctx = true.
Proof.
  unfold is_blanket_private_deny. rewrite !andb_true_iff, !bool_decide_eq_true.
  intros (((((((_ & Hp) & Hk) & Hg) & Hd) & Hs) & Hq) & Hc) Hex.
  apply matches_true. unfold matches_fixed_predicates. rewrite Hk, Hg, Hd, Hs, Hq, Hc, Hp.
  split_and!; [done..|]. intros ? [= <-]. by apply private_matches_true.
Qed.

(** A rule set the check accepts has a blanket private deny before every
    opted-in allow. *)
Lemma unrestricted_private_allow_false blanket rs :
  unrestricted_private_allow blanket rs = false → blanket = false →
  ∀ pre r post, rs = pre ++ r :: post → action r = Allow → private r = Some true →
  Exists (λ x, is_blanket_private_deny x = true) pre.
Proof.
  revert blanket. induction rs as [|x rs IH]; intros blanket Hu -> pre r post E Ha Hp;
    [by destruct pre|].
  simpl in Hu. destruct pre as [|y pre]; simplify_eq/=.
  - rewrite Ha, Hp in Hu. unfold is_blanket_private_deny in Hu. by rewrite Ha in Hu.
  - destruct (is_blanket_private_deny y) eqn:Hy; [by constructor|].
    destruct (bool_decide (action y = Allow) && _ && _); [done|].
    constructor 2. by eapply (IH false).
Qed.

(** ** Lemmas: pre-resolution *)

Definition with_resolved (ctx : PolicyContext) (ips : list IpAddr) : PolicyContext :=
  {| ctx_key_id := ctx_key_id ctx; ctx_policy_group := ctx_policy_group ctx;
     target := target ctx; resolved_ips := ips |}.

Lemma fixed_predicates_resolved r ctx ips :
  matches_fixed_predicates r (with_resolved ctx ips) = matches_fixed_predicates r ctx.
Proof. done. Qed.

Lemma matches_fixed r ctx : matches r ctx = true → matches_fixed_predicates r ctx = true.
Proof. by intros [? _]%matches_true. Qed.

Lemma resolution_independent_matches r ctx ips d q :
  target ctx = Domain d q → matches_fixed_predicates r ctx = true →
  resolution_dependent r (target ctx) = false → matches r (with_resolved ctx ips) = true.
Proof.
  intros Ht Hf Hr. rewrite Ht in Hr. simpl in Hr. case_bool_decide as Hc; [done|].
  apply eq_None_not_Some in Hc. apply matches_true.
  rewrite fixed_predicates_resolved, Hc. split_and!; [done..|].
  by destruct (action r), (private r).
Qed.

Lemma pre_resolve_rules_sound rs ctx ips d q :
  target ctx = Domain d q → pre_resolve_rules rs ctx = DeniedWithoutResolution →
  evaluate_rules rs (with_resolved ctx ips) = Deny.
Proof.
  intros Ht. induction rs as [|r rs IH]; simpl; [done|].
  destruct (matches_fixed_predicates r ctx) eqn:Hf; simpl.
  - destruct (resolution_dependent r (target ctx)) eqn:Hr; [done|].
    rewrite (resolution_independent_matches r ctx ips d q) by done.
    destruct (action r); [done|]. intros _. by rewrite bool_decide_false.
  - intros Hp. destruct (matches r (with_resolved ctx ips)) eqn:Hm; [|by apply IH].
    apply matches_fixed in Hm. rewrite fixed_predicates_resolved in Hm. congruence.
Qed.

Lemma evaluate_Deny_iff p ctx : evaluate p ctx = Deny ↔ evaluate p ctx ≠ Allow.
Proof. destruct (evaluate p ctx); naive_solver. Qed.

(** A literal target's verdict does not depend on the resolved addresses. *)
Lemma evaluate_literal p ctx ips :
  target_domain (target ctx) = None → evaluate p (with_resolved ctx ips) = evaluate p ctx.
Proof.
  intros Ht.
  assert (∀ l, target_ips (target ctx) l = target_ips (target ctx) (resolved_ips ctx)) as Hips
    by (by destruct (target ctx)).
  assert (target_or_resolution_is_private (target ctx) ips =
          target_or_resolution_is_private (target ctx) (resolved_ips ctx)) as Hpriv
    by (by destruct (target ctx)).
  unfold evaluate, target_or_resolution_contains_metadata_service_ip. simpl.
  rewrite (Hips ips). destruct (existsb _ _); [done|].
  induction (rules p) as [|r rs IH]; [done|]. simpl. rewrite IH, Hpriv.
  unfold matches, cidr_matches, private_matches. simpl. by rewrite (Hips ips).
Qed.

Lemma pre_resolve_denied p ctx ips :
  evaluate_pre_resolve p ctx = DeniedWithoutResolution →
  evaluate p (with_resolved ctx ips) = Deny.
Proof.
  unfold evaluate_pre_resolve. destruct (target ctx) as [d q|a q|e q] eqn:Ht.
  - intros Hpre. apply evaluate_Deny_iff. intros (_ & r & Hf & Ha & Hp)%evaluate_Allow.
    destruct (existsb _ (rules p)) eqn:Hex; simpl in Hpre.
    + apply (pre_resolve_rules_sound _ _ ips d q) in Hpre; [|done].
      assert (evaluate_rules (rules p) (with_resolved ctx ips) = Allow); [|congruence].
      apply evaluate_rules_Allow. eauto.
    + apply existsb_false in Hex. destruct Hf as (pre & post & E & _ & Hm).
      rewrite E, Forall_app, Forall_cons in Hex. destruct Hex as (_ & Hr & _).
      rewrite Ha in Hr. apply matches_fixed in Hm. rewrite fixed_predicates_resolved in Hm.
      by rewrite Hm in Hr.
  - rewrite evaluate_literal by (by rewrite Ht). by destruct (evaluate p ctx).
  - rewrite evaluate_literal by (by rewrite Ht). by destruct (evaluate p ctx).
Qed.

(** ** Lemmas: loading *)

Definition cidr_wf (c : Cidr) : Prop :=
  match c with
  | V4 n p => is_u32 n ∧ 0 ≤ p ≤ 32
  | V6 n p => is_u128 n ∧ 0 ≤ p ≤ 128
  end.

(** What [Deserialize] guarantees of a raw rule: the ports are [u16]. *)
Definition raw_rule_wf (raw : RawPolicyRule) : Prop :=
  (∀ q, raw_port_start raw = Some q → is_u16 q) ∧ (∀ q, raw_port_end raw = Some q → is_u16 q).

Definition rule_wf (r : PolicyRule) : Prop :=
  (∀ k, key_id r = Some k → 1 ≤ zlen k ≤ 64) ∧
  (∀ g, policy_group r = Some g → g ≠ [] ∧ Forall (λ b, is_ascii_control b = false) g) ∧
  (∀ d, domain r = Some d → validate_domain_name (normalize_domain d) = Ok tt) ∧
  (∀ d, domain_suffix r = Some d → validate_domain_pattern (normalize_domain d) = Ok tt) ∧
  (∀ c, cidr r = Some c → cidr_wf c) ∧
  (∀ a b, ports r = Some (a, b) → 1 ≤ a ≤ b ∧ b < 2 ^ 16) ∧
  (action r = Allow → private r ≠ None).

(** The rule [r] says what the raw rule says. *)
Definition loaded_from (raw : RawPolicyRule) (r : PolicyRule) : Prop :=
  eq_ignore_ascii_case (raw_action raw)
    (bytes_of_string match action r with Allow => "allow" | Deny => "deny" end) = true ∧
  key_id r = raw_key_id raw ∧ policy_group r = raw_policy_group raw ∧
  domain r = raw_domain raw ∧ domain_suffix r = raw_domain_suffix raw ∧
  (cidr_from_str <$> raw_cidr raw) = Ok <$> cidr r ∧
  (fst <$> ports r) = raw_port_start raw ∧ (snd <$> ports r) = raw_port_end raw ∧
  private r = match raw_private raw, action r with None, Allow => Some false | x, _ => x end.

Lemma is_ok_unit {E} (r : result E unit) : is_ok r = true ↔ r = Ok tt.
Proof. destruct r as [[]| |]; naive_solver. Qed.

Lemma cidr_from_str_wf s c : cidr_from_str s = Ok c → cidr_wf c.
Proof.
  unfold cidr_from_str, ok_or. intros H.
  destruct (split_once SLASH s) as [[a q]|]; [|done]. cbn [rbind] in H.
  destruct (parse_uint 255 q) as [n|] eqn:Hn; [|done]. cbn [rbind] in H.
  destruct (parse_ip a) as [ip|] eqn:Hip; [|done]. cbn [rbind] in H.
  apply parse_uint_bound in Hn. apply parse_ip_wf in Hip.
  destruct ip; unfold new_v4, new_v6 in H;
    (match type of H with context [?x <=? ?y] => destruct (Z.leb_spec x y) end; [|discriminate H]);
    injection H as <-; (split; [exact Hip|lia]).
Qed.

Lemma opt_transpose_Ok {A B} (f : A → PolicyResult B) o x :
  opt_transpose f o = Ok x ↔ f <$> o = Ok <$> x.
Proof.
  destruct o as [a|], x as [b|]; simpl; try (split; congruence).
  - destruct (f a); simpl; split; congruence.
  - destruct (f a); simpl; split; congruence.
Qed.

(** A validator that returns its argument. *)
Lemma opt_transpose_same {A} (f : A → PolicyResult A) o x :
  (∀ a b, f a = Ok b → b = a) → opt_transpose f o = Ok x →
  x = o ∧ ∀ a, o = Some a → f a = Ok a.
Proof.
  intros Hf H%opt_transpose_Ok. destruct o as [a|], x as [b|]; simplify_eq/=; [|done].
  assert (b = a) as -> by (by apply Hf). split; [done|naive_solver].
Qed.

Lemma validate_key_id_match_Ok k b :
  validate_key_id_match k = Ok b → b = k ∧ 1 ≤ zlen k ≤ 64.
Proof.
  unfold validate_key_id_match. destruct (Auth.validate_key_id k) as [u| |] eqn:E; intros; simplify_eq/=.
  by apply Auth.validate_key_id_Ok in E.
Qed.

Lemma validate_policy_group_match_Ok g b :
  validate_policy_group_match g = Ok b →
  b = g ∧ g ≠ [] ∧ Forall (λ b, is_ascii_control b = false) g.
Proof.
  unfold validate_policy_group_match. case_bool_decide; [done|]. simpl.
  destruct (existsb _ g) eqn:E; [done|]. apply existsb_false in E. naive_solver.
Qed.

Lemma validate_domain_match_Ok d b :
  validate_domain_match d = Ok b → b = d ∧ validate_domain_name (normalize_domain d) = Ok tt.
Proof.
  unfold validate_domain_match. destruct (starts_with _ _); [done|]. simpl.
  destruct (is_ok _) eqn:E; [|done]. apply is_ok_unit in E. naive_solver.
Qed.

Lemma validate_domain_suffix_match_Ok d b :
  validate_domain_suffix_match d = Ok b →
  b = d ∧ validate_domain_pattern (normalize_domain d) = Ok tt.
Proof.
  unfold validate_domain_suffix_match. 
  destruct (is_ok _) eqn:E; [|done]. apply is_ok_unit in E. naive_solver.
Qed.

Lemma rule_try_from_Ok raw r :
  raw_rule_wf raw → rule_try_from raw = Ok r → loaded_from raw r ∧ rule_wf r.
Proof.
  intros [Hs He] H. unfold rule_try_from in H.
  apply rbind_Ok in H as (a & Ha & H). apply rbind_Ok in H as (q & Hq & H).
  apply rbind_Ok in H as (k & Hk & H). apply rbind_Ok in H as (g & Hg & H).
  apply rbind_Ok in H as (d & Hd & H). apply rbind_Ok in H as (ds & Hds & H).
  apply rbind_Ok in H as (c & Hc & H). injection H as <-.
  apply opt_transpose_same in Hk as [-> Hk]; [|by intros ?? [-> _]%validate_key_id_match_Ok].
  apply opt_transpose_same in Hg as [-> Hg]; [|by intros ?? [-> _]%validate_policy_group_match_Ok].
  apply opt_transpose_same in Hd as [-> Hd]; [|by intros ?? [-> _]%validate_domain_match_Ok].
  apply opt_transpose_same in Hds as [-> Hds]; [|by intros ?? [-> _]%validate_domain_suffix_match_Ok].
  apply opt_transpose_Ok in Hc.
  assert ((fst <$> q) = raw_port_start raw ∧ (snd <$> q) = raw_port_end raw ∧
          ∀ x y, q = Some (x, y) → 1 ≤ x ≤ y ∧ y < 2 ^ 16) as (Hq1 & Hq2 & Hq3).
  { destruct (raw_port_start raw) as [x|], (raw_port_end raw) as [y|]; try done; simplify_eq/=; [|done].
    specialize (Hs x eq_refl). specialize (He y eq_refl). unfold in_width in *.
    destruct (x <=? y) eqn:?, (x =? 0) eqn:?; simplify_eq/=. bool_to_prop.
    split_and!; [done..|]. intros. simplify_eq. lia. }
  split; unfold loaded_from, rule_wf; simpl; split_and!; try done.
  - by repeat case_match; simplify_eq.
  - by destruct a, (raw_private raw).
  - intros k' [_ ?]%Hk%validate_key_id_match_Ok. done.
  - intros g' [_ ?]%Hg%validate_policy_group_match_Ok. done.
  - intros d' [_ ?]%Hd%validate_domain_match_Ok. done.
  - intros d' [_ ?]%Hds%validate_domain_suffix_match_Ok. done.
  - intros c' ->. destruct (raw_cidr raw); simplify_eq/=. by eapply cidr_from_str_wf.
  - by intros ->; destruct (raw_private raw).
Qed.

Lemma from_raw_Ok raw p :
  Forall raw_rule_wf (raw_rules raw) → from_raw raw = Ok p →
  Forall2 (λ rr r, loaded_from rr r ∧ rule_wf r) (raw_rules raw) (rules p).
Proof.
  unfold from_raw. intros Hwf (rs & Hrs & [= <-])%rbind_Ok. simpl.
  revert rs Hrs. induction Hwf as [|x l Hx Hl IH]; intros rs Hrs; simpl in Hrs; [by simplify_eq|].
  apply rbind_Ok in Hrs as (r & Hr & Hrs). apply rbind_Ok in Hrs as (rest & Hrest & [= <-]).
  constructor; [by apply rule_try_from_Ok|by apply IH].
Qed.

(** ** Theorems *)

(** C7: A destination is allowed exactly when none of its addresses is a
    metadata endpoint, it has at least one address, and the first rule that
    matches is an allow rule that either opted in to private destinations or
    faces public addresses only.  Everything else, an empty resolution
    included, is denied. *)
Theorem policy_allow_iff p ctx :
  evaluate p ctx = Allow ↔
  ctx_ips ctx ≠ [] ∧
  Forall (λ ip, is_metadata_service_ip ip = false) (ctx_ips ctx) ∧
  ∃ r, first_match (rules p) ctx r ∧ action r = Allow ∧
       (private r = Some true ∨ Forall (λ ip, is_private ip = false) (ctx_ips ctx)).
Proof.
  split.
  - intros Ha. split; [by eapply Allow_has_ips|].
    apply evaluate_Allow in Ha as (Hm & r & Hf & Hr & Hp). split; [done|]. exists r.
    rewrite target_private_false in Hp. tauto.
  - intros (Hn & Hm & r & Hf & Hr & Hp). apply evaluate_Allow. split; [done|]. exists r.
    rewrite target_private_false. tauto.
Qed.

(** A policy that [has_unrestricted_private_allow] clears never allows a
    destination with a private address, whatever the client, the target and
    the resolution. *)
Theorem cleared_policy_blocks_private p ctx :
  has_unrestricted_private_allow p = false → evaluate p ctx = Allow →
  Forall (λ ip, is_private ip = false) (ctx_ips ctx).
Proof.
  intros Hu Ha. apply (Allow_public p); [done|].
  intros r (pre & post & E & Hpre & Hm) Hr Hp.
  pose proof (unrestricted_private_allow_false _ _ Hu eq_refl pre r post E Hr Hp) as Hb.
  apply Exists_exists in Hb as (b & Hin & Hb). rewrite Forall_forall in Hpre.
  specialize (Hpre b Hin). rewrite blanket_private_deny_matches in Hpre; [done..|].
  by eapply matches_opted_in.
Qed.

(** A private address is reachable only by opting in: a policy loaded from
    a configuration in which no rule sets [private = true] never allows a
    destination with a private address. *)
Theorem private_needs_opt_in raw p ctx :
  Forall raw_rule_wf (raw_rules raw) → from_raw raw = Ok p →
  Forall (λ r, raw_private r ≠ Some true) (raw_rules raw) →
  evaluate p ctx = Allow → Forall (λ ip, is_private ip = false) (ctx_ips ctx).
Proof.
  intros Hwf Hload Hraw Ha. apply (Allow_public p); [done|].
  intros r (pre & post & E & _) Hr Hp. apply from_raw_Ok in Hload; [|done].
  rewrite E in Hload. apply Forall2_app_inv_r in Hload as (? & l & _ & Hload & Er).
  apply Forall2_cons_inv_r in Hload as (rr & ? & [Hl _] & _ & ->).
  rewrite Er, Forall_app, Forall_cons in Hraw. destruct Hraw as (_ & Hrr & _).
  destruct Hl as (_ & _ & _ & _ & _ & _ & _ & _ & Hpr). rewrite Hr, Hp in Hpr.
  by destruct (raw_private rr) as [[]|].
Qed.

(** Denying before resolution is sound: when [evaluate_pre_resolve] denies
    a target, the full evaluation denies it for every resolution of its name.
    For literal addresses the early verdict is exact. *)
Theorem pre_resolve_sound p ctx :
  (evaluate_pre_resolve p ctx = DeniedWithoutResolution →
   ∀ ips, evaluate p (with_resolved ctx ips) = Deny) ∧
  (target_domain (target ctx) = None →
   evaluate_pre_resolve p ctx = NeedsResolution →
   ∀ ips, evaluate p (with_resolved ctx ips) = Allow).
Proof.
  split; [intros; by apply pre_resolve_denied|].
  intros Ht Hn ips. rewrite evaluate_literal by done.
  unfold evaluate_pre_resolve in Hn. by destruct (target ctx), (evaluate p ctx).
Qed.

(** CIDR matching is equality of the leading [p] bits, with an IPv4 network
    matching an IPv6 address only through its IPv4-mapped form. *)
Theorem cidr_contains_iff c ip :
  cidr_wf c → ip_wf ip →
  contains c ip = true ↔
  match c, ip with
  | V4 n p, IpV4 a => n / 2 ^ (32 - p) = a / 2 ^ (32 - p)
  | V4 n p, IpV6 e => ∃ a, is_u32 a ∧ e = 0xffff * 2 ^ 32 + a ∧ n / 2 ^ (32 - p) = a / 2 ^ (32 - p)
  | V6 n p, IpV6 e => n / 2 ^ (128 - p) = e / 2 ^ (128 - p)
  | V6 _ _, IpV4 _ => False
  end.
Proof.
  destruct c as [n p|n p], ip as [a|e]; intros [Hn Hp] Hip.
  - cbn [contains]. rewrite contains_v4_prefix by done. apply Z.eqb_eq.
  - cbn [contains]. pose proof (fun a => ipv4_mapped_iff e a Hip) as Hm.
    destruct (ipv4_mapped e) as [m|] eqn:E.
    + destruct (proj1 (Hm m) eq_refl) as [Hm32 Em]. rewrite contains_v4_prefix by done.
      rewrite Z.eqb_eq. split; [eauto|]. intros (a & Ha & Ea & H). by replace m with a by lia.
    + split; [done|]. intros (a & Ha & Ea & H). by discriminate (proj2 (Hm a) (conj Ha Ea)).
  - done.
  - rewrite contains_v6_prefix by done. apply Z.eqb_eq.
Qed.

(** An IPv4 address cannot be laundered through IPv6.  When a destination
    with the address [e] is allowed and [e] carries the IPv4 address [a]
    (mapped, NAT64, IPv4-compatible or 6to4), then [a] is no metadata endpoint
    and, unless the deciding rule opted in to private destinations, [a] lies in
    none of the restricted networks. *)
Theorem embedded_address_not_laundered p ctx e a :
  evaluate p ctx = Allow → IpV6 e ∈ ctx_ips ctx → is_u128 e → is_u32 a → carries e a →
  is_metadata_ipv4 a = false ∧
  ((∃ r, first_match (rules p) ctx r ∧ private r = Some true) ∨
   Forall (λ '(n, q), n / 2 ^ (32 - q) ≠ a / 2 ^ (32 - q)) restricted_networks).
Proof.
  intros (Hmeta & r & Hf & Hr & Hp)%evaluate_Allow Hin He Ha Hc.
  assert (embedded_ipv4 e = Some a) as Hemb by (by apply embedded_ipv4_iff).
  rewrite Forall_forall in Hmeta. split; [by apply (embedded_not_metadata e), Hmeta|].
  destruct Hp as [Hp|Hp]; [left; eauto|right].
  apply target_private_false in Hp as [_ Hp]. rewrite Forall_forall in Hp.
  assert (is_restricted_ipv4 a = false) as Hra by (by apply (embedded_not_restricted e), Hp).
  rewrite restricted_networks_exact, existsb_false in Hra by done.
  rewrite Forall_forall in Hra |- *. intros [n q] Hnq. specialize (Hra _ Hnq). simpl in Hra.
  apply restricted_networks_wf in Hnq as [??]. rewrite contains_v4_prefix in Hra by done.
  by apply Z.eqb_neq.
Qed.

(** Domain suffixes match on label boundaries.  A suffix written without a
    leading dot matches the name itself and its subdomains, one written with a
    leading dot matches proper subdomains only; in both cases the labels of the
    normalized name end with the labels of the suffix. *)
Theorem domain_suffix_label_boundary d suffix :
  let D := normalize_domain d in
  let S := normalize_domain suffix in
  domain_matches_suffix d suffix = true ↔
  match strip_prefix [DOT] S with
  | Some T => T ≠ [] ∧ ∃ ls, ls ≠ [] ∧ split_on DOT D = ls ++ split_on DOT T
  | None => S ≠ [] ∧ ∃ ls, split_on DOT D = ls ++ split_on DOT S
  end.
Proof.
  cbv zeta. unfold domain_matches_suffix. set (D := normalize_domain d).
  set (S := normalize_domain suffix). case_bool_decide as HS.
  { rewrite HS. simpl. naive_solver. }
  destruct (strip_prefix [DOT] S) as [T|] eqn:HT.
  - apply strip_prefix_Some in HT. rewrite <- labels_suffix, HT.
    rewrite !andb_true_iff, negb_true_iff, bool_decide_eq_false, Z.ltb_lt, ends_with_true.
    simpl. split; [naive_solver|]. intros (? & pre & E). split_and!; [done| |eauto].
    rewrite E, length_app. simpl. lia.
  - rewrite orb_true_iff, bool_decide_eq_true. split.
    + intros [->|Hs]; (split; [done|]); [by exists []|].
      destruct (strip_suffix S D) as [pre|] eqn:Hp; [|done]. apply strip_suffix_Some in Hp.
      apply ends_with_true in Hs as [pre' ->]. rewrite <- app_assoc in Hp.
      destruct (proj1 (labels_suffix DOT D S)) as (ls & _ & ?); eauto.
    + intros (_ & [|l ls] & E); [left; by eapply split_on_inj|right].
      destruct (proj2 (labels_suffix DOT D S)) as [pre Hp]; [by exists (l :: ls)|].
      assert (strip_suffix S D = Some (pre ++ [DOT])) as ->.
      { apply strip_suffix_Some. by rewrite <- app_assoc. }
      apply ends_with_true. by exists pre.
Qed.

(** ** Witnesses *)

Definition raw_allow (cidr : option Bytes) (private : option bool) : RawPolicyRule :=
  {| raw_action := bytes_of_string "Allow"; raw_key_id := None; raw_policy_group := None;
     raw_domain := None; raw_domain_suffix := Some (bytes_of_string ".example.com");
     raw_cidr := cidr; raw_port_start := Some 443; raw_port_end := Some 8443;
     raw_private := private |}.

Definition public_ctx : PolicyContext :=
  {| ctx_key_id := []; ctx_policy_group := None;
     target := Domain (bytes_of_string "www.example.com") 443;
     resolved_ips := [IpV4 (ipv4_new 8 8 8 8); IpV6 (0xffff * 2 ^ 32 + ipv4_new 8 8 4 4)] |}.

Definition example_raw : RawPolicySet :=
  {| raw_rules := [raw_allow (Some (bytes_of_string "8.0.0.0/8")) None] |}.

Definition example_policy : PolicySet :=
  match from_raw example_raw with Ok p => p | _ => {| rules := [] |} end.

Lemma example_policy_allows : evaluate example_policy public_ctx = Allow.
Proof. vm_compute. reflexivity. Qed.

Lemma example_raw_wf : Forall raw_rule_wf (raw_rules example_raw).
Proof.
  repeat constructor; intros; simplify_eq/=; unfold in_width; change (2 ^ 16) with 65536; lia.
Qed.

(** The private-network allow a server refuses to start with. *)
Example unrestricted_example :
  has_unrestricted_private_allow
    {| rules := match rules_try_from [raw_allow None (Some true)] with Ok l => l | _ => [] end |} = true.
Proof. vm_compute. reflexivity. Qed.
End Policy.
