(* ===== verification/Mask.v ===== *)
(** * Mask: transport masking keys and the TCP prelude (crates/uk-mask/src/lib.rs)

    The per-credential key schedule, the 64-byte prelude with its 224 payload
    bits in the low seven bits of the tail, its verification, and the
    process-local counter allocator.  HMAC-SHA256 is another crate's: it is the
    class [HmacSha256], of which only the output size is assumed.  Random bytes
    are arguments. *)

From S2P Require Import Prelude Wire RustStd.

(** [hmac::Hmac<Sha256>]: a function of the key and of the concatenated parts
    with a 32-byte result. *)
Class HmacSha256 : Set := {
  hmac_sha256 : Bytes → Bytes → Bytes;
  hmac_sha256_len k m : length (hmac_sha256 k m) = 32%nat;
  hmac_sha256_bytes k m : bytes_ok (hmac_sha256 k m)
}.

Module Mask.

(* @src crates/uk-mask/src/lib.rs 67-68 PRELUDE_LEN *)
Definition PRELUDE_LEN : nat := 64.
(* @src crates/uk-mask/src/lib.rs 69-70 NONCE_LEN *)
Definition NONCE_LEN : nat := 12.
(* @src crates/uk-mask/src/lib.rs 71-72 PREFIX_LEN *)
Definition PREFIX_LEN : nat := 32.
(* @src crates/uk-mask/src/lib.rs 73-74 TAIL_LEN *)
Definition TAIL_LEN : nat := 32.
(* @src crates/uk-mask/src/lib.rs 75-76 IDENTITY_LEN *)
Definition IDENTITY_LEN : nat := 8.
(* @src crates/uk-mask/src/lib.rs 77-78 COUNTER_LEN *)
Definition COUNTER_LEN : nat := 6.
(* @src crates/uk-mask/src/lib.rs 79-80 TAG_LEN *)
Definition TAG_LEN : nat := 14.
(* @src crates/uk-mask/src/lib.rs 81-82 TAIL_PAYLOAD_LEN *)
Definition TAIL_PAYLOAD_LEN : nat := IDENTITY_LEN + COUNTER_LEN + TAG_LEN.
(* @src crates/uk-mask/src/lib.rs 83-84 MAX_COUNTER *)
Definition MAX_COUNTER : Z := Z.shiftl 1 48 - 1.
(* @src crates/uk-mask/src/lib.rs 85-88 STREAM_LIMIT *)
Definition STREAM_LIMIT : Z := Z.shiftl 1 38 - 64.
(* @src crates/uk-mask/src/lib.rs 89-90 REPLAY_WINDOW *)
Definition REPLAY_WINDOW : Z := 1024.

(* @src crates/uk-mask/src/lib.rs 97-113 MaskError *)
Inductive MaskError : Set :=
  | PreludeRejected
  | InvalidCounter
  | CounterExhausted
  | StreamLimitExceeded.

(** ** Bit packing

    The arrays have the fixed lengths of their types: a tail is 32 bytes, a
    payload 28, the packed high bits 4, so every index below is in range. *)

(* @src crates/uk-mask/src/lib.rs 386-390 counter_to_be_bytes *)
Definition counter_to_be_bytes (counter : Z) : Bytes := drop 2 (be_encode 8 counter).

(* @src crates/uk-mask/src/lib.rs 392-396 counter_from_be_bytes *)
Definition counter_from_be_bytes (bytes : Bytes) : Z := be_decode ([0; 0] ++ bytes).

(** One iteration of the loop of [pack_high_bits]. *)
Definition pack_bit (tail : Bytes) (packed : Bytes) (index : nat) : Bytes :=
  let byte := tail !!! index in
  <[(index / 8)%nat :=
      Z.lor (packed !!! (index / 8)%nat)
            (Z.shiftr (Z.land byte 0x80) (7 - Z.of_nat (index mod 8)))]> packed.

(* @src crates/uk-mask/src/lib.rs 398-405 pack_high_bits *)
Definition pack_high_bits (tail : Bytes) : Bytes :=
  foldl (pack_bit tail) [0; 0; 0; 0] (seq 0 (Nat.min (length tail) TAIL_LEN)).

(** One iteration of the loop of [write_tail_payload]. *)
Definition write_bit (payload : Bytes) (tail : Bytes) (bit_index : nat) : Bytes :=
  let bit := Z.land (Z.shiftr (payload !!! (bit_index / 8)%nat)
                              (7 - Z.of_nat (bit_index mod 8))) 1 in
  let group := (bit_index / 7)%nat in
  let position := Z.of_nat (bit_index mod 7) in
  let bit_mask := Z.shiftl 1 (6 - position) in
  <[group := Z.lor (Z.land (tail !!! group) (Z.lxor 0xff bit_mask))
                   (Z.shiftl bit (6 - position))]> tail.

(* @src crates/uk-mask/src/lib.rs 407-417 write_tail_payload *)
Definition write_tail_payload (tail payload : Bytes) : Bytes :=
  foldl (write_bit payload) tail (seq 0 (TAIL_PAYLOAD_LEN * 8)).

(** One iteration of the loop of [read_tail_payload]. *)
Definition read_bit (tail : Bytes) (payload : Bytes) (bit_index : nat) : Bytes :=
  let group := (bit_index / 7)%nat in
  let position := Z.of_nat (bit_index mod 7) in
  let bit := Z.land (Z.shiftr (tail !!! group) (6 - position)) 1 in
  <[(bit_index / 8)%nat :=
      Z.lor (payload !!! (bit_index / 8)%nat)
            (Z.shiftl bit (7 - Z.of_nat (bit_index mod 8)))]> payload.

(* @src crates/uk-mask/src/lib.rs 419-429 read_tail_payload *)
Definition read_tail_payload (tail : Bytes) : Bytes :=
  foldl (read_bit tail) (replicate TAIL_PAYLOAD_LEN 0) (seq 0 (TAIL_PAYLOAD_LEN * 8)).

(** ** Prelude shaping *)

(* @src crates/uk-mask/src/lib.rs 318-329 PreludePolicy *)
Inductive PreludePolicy : Set := Fade | Full8 | Low7.

#[global] Instance PreludePolicy_eq_dec : EqDecision PreludePolicy.
Proof. solve_decision. Defined.

(* @src crates/uk-mask/src/lib.rs 331-340 PreludePolicy::parse *)
Definition policy_parse (value : Bytes) : option PreludePolicy :=
  let v := to_ascii_lowercase (trim value) in
  if bool_decide (v = bytes_of_string "fade") then Some Fade
  else if bool_decide (v = bytes_of_string "full8") then Some Full8
  else if bool_decide (v = bytes_of_string "low7") then Some Low7
  else None.

(* @src crates/uk-mask/src/lib.rs 342-349 PreludePolicy::as_str *)
Definition policy_as_str (p : PreludePolicy) : Bytes :=
  bytes_of_string match p with Fade => "fade" | Full8 => "full8" | Low7 => "low7" end.

(** What one [encode_prelude] draws from the random number generator, in the
    order it draws: 64 bytes, the two [gen_range] results of the [Fade] policy,
    12 bytes of nonce. *)
Record Draws : Set := {
  fill : Bytes;
  printable_end : nat;
  seven_bit_end : nat;
  nonce_fill : Bytes
}.

(** [fill_bytes] fills the buffer it is given, [gen_range(a..=b)] is in [a, b]. *)
Definition draws_ok (d : Draws) : Prop :=
  length (fill d) = PRELUDE_LEN ∧ bytes_ok (fill d) ∧
  (8 ≤ printable_end d ≤ 12)%nat ∧ (16 ≤ seven_bit_end d ≤ 32)%nat ∧
  length (nonce_fill d) = NONCE_LEN ∧ bytes_ok (nonce_fill d).

(* @src crates/uk-mask/src/lib.rs 431-458 generate_prelude *)
Definition generate_prelude (policy : PreludePolicy) (d : Draws) : Bytes :=
  let bytes := fill d in
  match policy with
  | Full8 => bytes
  | Low7 => (λ byte, Z.land byte 0x7f) <$> bytes
  | Fade =>
    let a := printable_end d in
    let b := seven_bit_end d in
    ((λ byte, 0x20 + byte mod 95) <$> take a bytes)
    ++ ((λ byte, Z.land byte 0x7f) <$> take (b - a) (drop a bytes))
    ++ drop b bytes
  end.

(** ** Keys and the prelude *)

(* @src crates/uk-mask/src/lib.rs 126-135 MaskKeys *)
Record MaskKeys : Set := {
  auth_key : Bytes;
  prelude_mask_key : Bytes;
  tcp_c2s : Bytes;
  tcp_s2c : Bytes;
  udp_c2s : Bytes;
  udp_s2c : Bytes
}.

(* @src crates/uk-mask/src/lib.rs 301-307 ClientPrelude *)
Record ClientPrelude : Set := { bytes : Bytes; nonce : Bytes }.

(* @src crates/uk-mask/src/lib.rs 309-316 AuthenticatedPrelude *)
Record AuthenticatedPrelude : Set := { identity : Z; counter : Z }.

Section Keys.
Context {H : HmacSha256}.

(* @src crates/uk-mask/src/lib.rs 117-124 hmac *)
Definition hmac (key : Bytes) (parts : list Bytes) : Bytes := hmac_sha256 key (concat parts).

(* @src crates/uk-mask/src/lib.rs 144-162 MaskKeys::derive *)
Definition derive (key_id secret : Bytes) : MaskKeys :=
  let label s := bytes_of_string s ++ [1] in
  let root := hmac secret [label "uk/1/mask/root"; key_id] in
  {| auth_key := hmac root [label "uk/1/mask/tcp-auth"];
     prelude_mask_key := hmac root [label "uk/1/mask/tcp-prelude-mask"];
     tcp_c2s := hmac root [label "uk/1/mask/tcp-c2s"];
     tcp_s2c := hmac root [label "uk/1/mask/tcp-s2c"];
     udp_c2s := hmac root [label "uk/1/mask/udp-c2s"];
     udp_s2c := hmac root [label "uk/1/mask/udp-s2c"] |}.

(* @src crates/uk-mask/src/lib.rs 240-252 MaskKeys::authentication_tag *)
Definition authentication_tag (k : MaskKeys) (nonce prefix high_bits ident ctr : Bytes) : Bytes :=
  hmac (auth_key k) [nonce; prefix; high_bits; ident; ctr].

(* @src crates/uk-mask/src/lib.rs 254-261 MaskKeys::prelude_mask *)
Definition prelude_mask (k : MaskKeys) (nonce prefix high_bits : Bytes) : Bytes :=
  hmac (prelude_mask_key k) [nonce; prefix; high_bits].

(* @src crates/uk-mask/src/lib.rs 164-196 MaskKeys::encode_prelude *)
Definition encode_prelude (k : MaskKeys) (policy : PreludePolicy) (d : Draws) (ident ctr : Z)
    : result MaskError ClientPrelude :=
  if (ctr =? 0) || (MAX_COUNTER <? ctr) then Err InvalidCounter else
  let bytes := generate_prelude policy d in
  let nonce := nonce_fill d in
  let prefix := take PREFIX_LEN bytes in
  let high_bits := pack_high_bits (drop PREFIX_LEN bytes) in
  let identity_bytes := be_encode 8 ident in
  let counter_bytes := counter_to_be_bytes ctr in
  let tag := authentication_tag k nonce prefix high_bits identity_bytes counter_bytes in
  let payload := identity_bytes ++ counter_bytes ++ take TAG_LEN tag in
  let mask := prelude_mask k nonce prefix high_bits in
  let payload := zip_with Z.lxor payload mask in
  Ok {| bytes := prefix ++ write_tail_payload (drop PREFIX_LEN bytes) payload; nonce := nonce |}.

(* @src crates/uk-mask/src/lib.rs 198-238 MaskKeys::decode_prelude *)
Definition decode_prelude (k : MaskKeys) (prelude nonce : Bytes)
    : result MaskError AuthenticatedPrelude :=
  let prefix := take PREFIX_LEN prelude in
  let high_bits := pack_high_bits (drop PREFIX_LEN prelude) in
  let masked_payload := read_tail_payload (drop PREFIX_LEN prelude) in
  let mask := prelude_mask k nonce prefix high_bits in
  let payload := zip_with Z.lxor masked_payload mask in
  let identity_bytes := take IDENTITY_LEN payload in
  let counter_bytes := take COUNTER_LEN (drop IDENTITY_LEN payload) in
  let ctr := counter_from_be_bytes counter_bytes in
  if ctr =? 0 then Err PreludeRejected else
  let expected := authentication_tag k nonce prefix high_bits identity_bytes counter_bytes in
  let given := drop (IDENTITY_LEN + COUNTER_LEN) payload in
  if bool_decide (given = take TAG_LEN expected)
  then Ok {| identity := be_decode identity_bytes; counter := ctr |}
  else Err PreludeRejected.

(* @src crates/uk-mask/src/lib.rs 282-299 verify_prelude *)
Definition verify_prelude (keys : list MaskKeys) (prelude nonce : Bytes)
    : option (MaskKeys * AuthenticatedPrelude) :=
  foldl (λ found key,
    match decode_prelude key prelude nonce with
    | Ok authenticated => Some (key, authenticated)
    | _ => found
    end) None keys.
End Keys.

(** ** Counters *)

(* @src crates/uk-mask/src/lib.rs 352-359 ClientSequence *)
Record ClientSequence : Set := { seq_identity : Z; next : Z }.

(* @src crates/uk-mask/src/lib.rs 361-368 ClientSequence::new *)
Definition sequence_new (random : Z) : ClientSequence := {| seq_identity := random; next := 1 |}.

(** The atomic [fetch_add] wraps at 64 bits. *)
(* @src crates/uk-mask/src/lib.rs 375-383 ClientSequence::allocate *)
Definition allocate (s : ClientSequence) : result MaskError Z * ClientSequence :=
  let counter := next s in
  let s' := {| seq_identity := seq_identity s; next := truncate 64 (counter + 1) |} in
  (if (counter =? 0) || (MAX_COUNTER <? counter) then Err CounterExhausted else Ok counter, s').

(** [n] allocations in the order the atomic serializes them. *)
Fixpoint allocations (n : nat) (s : ClientSequence) : list (result MaskError Z) * ClientSequence :=
  match n with
  | O => ([], s)
  | S n' =>
    let '(r, s1) := allocate s in
    let '(rs, s2) := allocations n' s1 in (r :: rs, s2)
  end.

(** ** Lemmas: bit packing *)

(** Bit [i] of a tail and of a payload, in the order the loops visit them. *)
Definition tail_bit (t : Bytes) (i : nat) : bool :=
  Z.testbit (t !!! (i / 7)%nat) (6 - Z.of_nat (i mod 7)).
Definition payload_bit (p : Bytes) (i : nat) : bool :=
  Z.testbit (p !!! (i / 8)%nat) (7 - Z.of_nat (i mod 8)).

Lemma testbit_land_1 x j : Z.testbit (Z.land x 1) j = (j =? 0) && Z.testbit x 0.
Proof.
  rewrite Z.land_spec. destruct (Z.eqb_spec j 0) as [->|Hj]; [by rewrite andb_true_r|].
  destruct (decide (j < 0)); [by rewrite Z.testbit_neg_r by lia|].
  change 1 with (2 ^ 0). rewrite Z.pow2_bits_false by lia. apply andb_false_r.
Qed.

Lemma testbit_shifted_bit x p q k :
  0 ≤ p → 0 ≤ q → 0 ≤ k →
  Z.testbit (Z.shiftl (Z.land (Z.shiftr x q) 1) p) k = (k =? p) && Z.testbit x q.
Proof.
  intros. rewrite Z.shiftl_spec by done. rewrite testbit_land_1, Z.shiftr_spec by lia.
  replace (k - p =? 0) with (k =? p) by (destruct (Z.eqb_spec k p), (Z.eqb_spec (k - p) 0); lia).
  by rewrite Z.add_0_l.
Qed.

Lemma testbit_u8_high b k : is_u8 b → 8 ≤ k → Z.testbit b k = false.
Proof.
  intros Hb Hk. unfold in_width in Hb. rewrite <- (Z.mod_small b (2 ^ 8)) by done.
  by apply Z.mod_pow2_bits_high.
Qed.

Lemma u8_ext a b :
  is_u8 a → is_u8 b → (∀ k, 0 ≤ k < 8 → Z.testbit a k = Z.testbit b k) → a = b.
Proof.
  intros Ha Hb Hk. apply Z.bits_inj'. intros k Hk0.
  destruct (decide (k < 8)); [by apply Hk; lia|]. by rewrite !testbit_u8_high by (done || lia).
Qed.

(** Division of an index by the group size, for [lia]. *)
Lemma div_mod_bound i n : (n ≠ 0 → i = n * (i / n) + i mod n ∧ i mod n < n)%nat.
Proof. intros Hn. split; [by apply Nat.div_mod_eq|by apply Nat.mod_upper_bound]. Qed.

Lemma group_index g r n : (r < n → (n * g + r) / n = g ∧ (n * g + r) mod n = r)%nat.
Proof.
  intros Hr. rewrite Nat.mul_comm. split.
  - rewrite Nat.div_add_l, Nat.div_small by lia. lia.
  - rewrite Nat.add_comm, Nat.Div0.mod_add. by apply Nat.mod_small.
Qed.

Lemma write_bit_testbit payload t i g k :
  (i / 7 < length t)%nat → 0 ≤ k < 8 →
  Z.testbit (write_bit payload t i !!! g) k =
  if decide (g = (i / 7)%nat ∧ k = 6 - Z.of_nat (i mod 7)) then payload_bit payload i
  else Z.testbit (t !!! g) k.
Proof.
  intros Hi Hk. unfold write_bit. pose proof (div_mod_bound i 7 ltac:(done)) as [_ H7].
  pose proof (div_mod_bound i 8 ltac:(done)) as [_ H8].
  destruct (decide (g = (i / 7)%nat)) as [->|Hg].
  - rewrite list_lookup_total_insert_eq by done.
    rewrite Z.lor_spec, Z.land_spec, Z.lxor_spec, testbit_shifted_bit by lia.
    change 0xff with (Z.ones 8). rewrite Z.ones_spec_low by lia.
    rewrite Z.shiftl_1_l, Z.pow2_bits_eqb by lia. unfold payload_bit.
    destruct (Z.eqb_spec (6 - Z.of_nat (i mod 7)) k) as [Hp|Hp].
    + rewrite decide_True by lia. rewrite (proj2 (Z.eqb_eq k _)) by lia.
      by rewrite andb_false_r.
    + rewrite decide_False by lia. rewrite (proj2 (Z.eqb_neq k _)) by lia.
      by rewrite andb_true_r, orb_false_r.
  - rewrite list_lookup_total_insert_ne by done. by rewrite decide_False by naive_solver.
Qed.

Lemma length_write_bits payload t l : length (foldl (write_bit payload) t l) = length t.
Proof.
  revert t. induction l as [|i l IH]; intros t; [done|]. simpl. rewrite IH. apply length_insert.
Qed.

(** After the first [n] iterations. *)
Lemma write_bits_testbit payload t n g k :
  (n ≤ 7 * length t)%nat → 0 ≤ k < 8 →
  Z.testbit (foldl (write_bit payload) t (seq 0 n) !!! g) k =
  if decide (k < 7 ∧ (7 * g + (6 - Z.to_nat k) < n)%nat)
  then payload_bit payload (7 * g + (6 - Z.to_nat k)) else Z.testbit (t !!! g) k.
Proof.
  intros Hn Hk. induction n as [|n IH]; [by rewrite decide_False by lia|].
  rewrite seq_S, foldl_app. simpl. pose proof (div_mod_bound n 7 ltac:(done)) as [E7 H7].
  rewrite write_bit_testbit by (rewrite ?length_write_bits; lia). rewrite IH by lia.
  destruct (decide (g = (n / 7)%nat ∧ k = 6 - Z.of_nat (n mod 7))) as [[-> ->]|Hne].
  - rewrite decide_True by lia. f_equal. lia.
  - destruct (decide (k < 7 ∧ (7 * g + (6 - Z.to_nat k) < n)%nat)).
    + by rewrite decide_True by lia.
    + rewrite decide_False; [done|]. intros [Hk7 Hlt]. apply Hne.
      assert (7 * g + (6 - Z.to_nat k) = n)%nat as <- by lia.
      destruct (group_index g (6 - Z.to_nat k) 7) as [-> ->]; lia.
Qed.

Lemma length_read_bits t p l : length (foldl (read_bit t) p l) = length p.
Proof.
  revert p. induction l as [|i l IH]; intros p; [done|]. simpl. rewrite IH. apply length_insert.
Qed.

Lemma read_bit_testbit t p i j k :
  (i / 8 < length p)%nat → 0 ≤ k →
  Z.testbit (read_bit t p i !!! j) k =
  Z.testbit (p !!! j) k || (bool_decide (j = (i / 8)%nat ∧ k = 7 - Z.of_nat (i mod 8)) && tail_bit t i).
Proof.
  intros Hi Hk. unfold read_bit. pose proof (div_mod_bound i 7 ltac:(done)) as [_ H7].
  pose proof (div_mod_bound i 8 ltac:(done)) as [_ H8].
  destruct (decide (j = (i / 8)%nat)) as [->|Hg].
  - rewrite list_lookup_total_insert_eq by done.
    rewrite Z.lor_spec, testbit_shifted_bit by lia. unfold tail_bit. do 2 f_equal.
    apply Bool.eq_iff_eq_true. rewrite Z.eqb_eq, bool_decide_eq_true. tauto.
  - rewrite list_lookup_total_insert_ne by done. rewrite bool_decide_false by naive_solver.
    by rewrite orb_false_r.
Qed.

(** After the first [n] iterations on a zeroed payload. *)
Lemma read_bits_testbit t m n j k :
  (n ≤ 8 * m)%nat → (j < m)%nat → 0 ≤ k →
  Z.testbit (foldl (read_bit t) (replicate m 0) (seq 0 n) !!! j) k =
  bool_decide (k < 8 ∧ (8 * j + (7 - Z.to_nat k) < n)%nat) && tail_bit t (8 * j + (7 - Z.to_nat k)).
Proof.
  intros Hn Hj Hk. induction n as [|n IH].
  { rewrite bool_decide_false by lia. simpl. rewrite lookup_total_replicate_2 by done.
    apply Z.testbit_0_l. }
  rewrite seq_S, foldl_app. cbn [foldl]. rewrite Nat.add_0_l.
  pose proof (div_mod_bound n 8 ltac:(done)) as [E8 H8].
  rewrite read_bit_testbit by (rewrite ?length_read_bits, ?length_replicate; lia). rewrite IH by lia.
  destruct (decide (k < 8 ∧ (8 * j + (7 - Z.to_nat k) = n)%nat)) as [[Hk8 <-]|Hne].
  - rewrite (bool_decide_false (k < 8 ∧ _)) by lia. rewrite (bool_decide_true (k < 8 ∧ _)) by lia.
    rewrite bool_decide_true; [done|].
    destruct (group_index j (7 - Z.to_nat k) 8) as [-> ->]; lia.
  - rewrite (bool_decide_false (j = _ ∧ _)) by lia. rewrite orb_false_r. f_equal.
    apply bool_decide_ext. lia.
Qed.

Lemma length_read_tail t : length (read_tail_payload t) = TAIL_PAYLOAD_LEN.
Proof. unfold read_tail_payload. rewrite length_read_bits. apply length_replicate. Qed.

Lemma length_write_tail t p : length (write_tail_payload t p) = length t.
Proof. apply length_write_bits. Qed.

Lemma read_tail_testbit t j k :
  (j < TAIL_PAYLOAD_LEN)%nat → 0 ≤ k →
  Z.testbit (read_tail_payload t !!! j) k =
  bool_decide (k < 8) && tail_bit t (8 * j + (7 - Z.to_nat k)).
Proof.
  intros Hj Hk. unfold read_tail_payload. rewrite read_bits_testbit by lia. f_equal.
  apply bool_decide_ext. unfold TAIL_PAYLOAD_LEN, IDENTITY_LEN, COUNTER_LEN, TAG_LEN in *. lia.
Qed.

Lemma write_tail_testbit t p g k :
  length t = TAIL_LEN → (g < TAIL_LEN)%nat → 0 ≤ k < 8 →
  Z.testbit (write_tail_payload t p !!! g) k =
  if decide (k < 7) then payload_bit p (7 * g + (6 - Z.to_nat k)) else Z.testbit (t !!! g) k.
Proof.
  intros Ht Hg Hk. unfold TAIL_LEN in *. unfold write_tail_payload.
  rewrite write_bits_testbit by (rewrite ?Ht; unfold TAIL_PAYLOAD_LEN, IDENTITY_LEN, COUNTER_LEN, TAG_LEN; lia).
  destruct (decide (k < 7)).
  - rewrite decide_True; [done|]. unfold TAIL_PAYLOAD_LEN, IDENTITY_LEN, COUNTER_LEN, TAG_LEN. lia.
  - by rewrite decide_False by lia.
Qed.

(** Two byte lists of one length are equal when their bytes are, bit by bit. *)
Lemma bytes_ext a b :
  bytes_ok a → bytes_ok b → length a = length b →
  (∀ j k, (j < length a)%nat → 0 ≤ k < 8 → Z.testbit (a !!! j) k = Z.testbit (b !!! j) k) →
  a = b.
Proof.
  intros Ha Hb Hl Hbits. apply list_eq_same_length with (n := length a); [done|done|].
  intros j x y Hj Hx Hy. apply list_lookup_total_correct in Hx as Hx', Hy as Hy'. subst.
  apply u8_ext; [exact (Forall_lookup_1 _ _ _ _ Ha Hx)|exact (Forall_lookup_1 _ _ _ _ Hb Hy)|]. intros. by apply Hbits.
Qed.

Lemma u8_of_bits b : 0 ≤ b → (∀ k, 8 ≤ k → Z.testbit b k = false) → is_u8 b.
Proof.
  intros Hb Hk. unfold in_width. split; [done|]. destruct (decide (b = 0)) as [->|]; [done|].
  apply Z.log2_lt_pow2; [lia|]. destruct (decide (Z.log2 b < 8)); [done|].
  assert (Z.testbit b (Z.log2 b) = true) by (apply Z.bit_log2; lia).
  rewrite Hk in H by lia. done.
Qed.

Lemma u8_nonneg b : is_u8 b → 0 ≤ b.
Proof. unfold in_width. lia. Qed.

Lemma u8_lor a b : is_u8 a → is_u8 b → is_u8 (Z.lor a b).
Proof.
  intros Ha Hb. apply u8_of_bits; [apply Z.lor_nonneg; split; by apply u8_nonneg|].
  intros k Hk. by rewrite Z.lor_spec, !testbit_u8_high.
Qed.

Lemma u8_lxor a b : is_u8 a → is_u8 b → is_u8 (Z.lxor a b).
Proof.
  intros Ha Hb. apply u8_of_bits.
  - apply Z.lxor_nonneg. by split; intros; apply u8_nonneg.
  - intros k Hk. by rewrite Z.lxor_spec, !testbit_u8_high.
Qed.

Lemma u8_land a b : is_u8 a → is_u8 (Z.land a b).
Proof.
  intros Ha. apply u8_of_bits; [apply Z.land_nonneg; left; by apply u8_nonneg|].
  intros k Hk. by rewrite Z.land_spec, testbit_u8_high.
Qed.

Lemma u8_shifted_bit x p q : 0 ≤ p < 8 → 0 ≤ q → is_u8 (Z.shiftl (Z.land (Z.shiftr x q) 1) p).
Proof.
  intros Hp Hq. apply u8_of_bits.
  - apply Z.shiftl_nonneg, Z.land_nonneg. by right.
  - intros k Hk. rewrite testbit_shifted_bit by lia. by rewrite (proj2 (Z.eqb_neq k p)) by lia.
Qed.

Lemma u8_lookup (l : Bytes) i : bytes_ok l → is_u8 (l !!! i).
Proof.
  intros Hl. rewrite list_lookup_total_alt. destruct (l !! i) eqn:E; [|done]. simpl.
  exact (Forall_lookup_1 _ _ _ _ Hl E).
Qed.

Lemma bytes_ok_write_tail t p : bytes_ok t → bytes_ok (write_tail_payload t p).
Proof.
  unfold write_tail_payload. generalize (seq 0 (TAIL_PAYLOAD_LEN * 8)). intros l. revert t.
  induction l as [|i l IH]; intros t Ht; [done|]. simpl. apply IH. unfold write_bit.
  pose proof (div_mod_bound i 7 ltac:(done)) as [_ H7].
  pose proof (div_mod_bound i 8 ltac:(done)) as [_ H8].
  apply Forall_insert; [done|]. apply u8_lor; [by apply u8_land, u8_lookup|].
  apply u8_shifted_bit; lia.
Qed.

Lemma bytes_ok_read_tail t : bytes_ok (read_tail_payload t).
Proof.
  unfold read_tail_payload. generalize (seq 0 (TAIL_PAYLOAD_LEN * 8)). intros l.
  assert (bytes_ok (replicate TAIL_PAYLOAD_LEN 0)) as Hp by (by apply Forall_replicate).
  revert Hp. generalize (replicate TAIL_PAYLOAD_LEN 0).
  induction l as [|i l IH]; intros p Hp; [done|]. simpl. apply IH. unfold read_bit.
  pose proof (div_mod_bound i 7 ltac:(done)) as [_ H7].
  pose proof (div_mod_bound i 8 ltac:(done)) as [_ H8].
  apply Forall_insert; [done|]. apply u8_lor; [by apply u8_lookup|]. apply u8_shifted_bit; lia.
Qed.

(** The two loops are inverse to each other, in both directions. *)
Lemma read_write_tail t p :
  length t = TAIL_LEN → length p = TAIL_PAYLOAD_LEN → bytes_ok p →
  read_tail_payload (write_tail_payload t p) = p.
Proof.
  intros Ht Hp Hok. apply bytes_ext; [apply bytes_ok_read_tail|done|by rewrite length_read_tail|].
  rewrite length_read_tail. intros j k Hj Hk. rewrite read_tail_testbit by lia.
  rewrite bool_decide_true by lia. unfold tail_bit. set (i := (8 * j + (7 - Z.to_nat k))%nat).
  pose proof (div_mod_bound i 7 ltac:(done)) as [E7 H7].
  assert (i < 224)%nat by (unfold TAIL_PAYLOAD_LEN, IDENTITY_LEN, COUNTER_LEN, TAG_LEN in Hj; lia).
  rewrite write_tail_testbit; [|done|unfold TAIL_LEN; lia|lia]. rewrite decide_True by lia.
  replace (7 * (i / 7) + (6 - Z.to_nat (6 - Z.of_nat (i mod 7))))%nat with i by lia.
  unfold payload_bit, i. destruct (group_index j (7 - Z.to_nat k) 8) as [-> ->]; [lia|].
  cbn [andb]. f_equal. lia.
Qed.

Lemma write_read_tail t :
  length t = TAIL_LEN → bytes_ok t → write_tail_payload t (read_tail_payload t) = t.
Proof.
  intros Ht Hok. apply bytes_ext; [by apply bytes_ok_write_tail|done|apply length_write_tail|].
  rewrite length_write_tail, Ht. intros g k Hg Hk. rewrite write_tail_testbit by done.
  case_decide; [|done]. unfold payload_bit. set (i := (7 * g + (6 - Z.to_nat k))%nat).
  pose proof (div_mod_bound i 8 ltac:(done)) as [E8 H8]. unfold TAIL_LEN in Hg.
  rewrite read_tail_testbit; [|unfold TAIL_PAYLOAD_LEN, IDENTITY_LEN, COUNTER_LEN, TAG_LEN; lia|lia].
  rewrite bool_decide_true by lia.
  replace (8 * (i / 8) + (7 - Z.to_nat (7 - Z.of_nat (i mod 8))))%nat with i by lia.
  unfold tail_bit, i. destruct (group_index g (6 - Z.to_nat k) 7) as [-> ->]; [lia|].
  cbn [andb]. f_equal. lia.
Qed.

(** The high bits of the tail survive. *)
Lemma pack_high_bits_write t p :
  length t = TAIL_LEN → pack_high_bits (write_tail_payload t p) = pack_high_bits t.
Proof.
  intros Ht. unfold pack_high_bits. rewrite length_write_tail, Ht.
  change (Nat.min TAIL_LEN TAIL_LEN) with TAIL_LEN.
  assert (∀ g, (g < TAIL_LEN)%nat →
    Z.land (write_tail_payload t p !!! g) 0x80 = Z.land (t !!! g) 0x80) as Hhi.
  { intros g Hg. change 0x80 with (2 ^ 7). apply Z.bits_inj'. intros k Hk. rewrite !Z.land_spec.
    destruct (decide (k = 7)) as [->|]; [by rewrite write_tail_testbit|].
    by rewrite Z.pow2_bits_false, !andb_false_r by lia. }
  assert (Forall (λ i, (i < TAIL_LEN)%nat) (seq 0 TAIL_LEN)) as Hl
    by (apply Forall_forall; intros i Hi%elem_of_seq; lia).
  revert Hl. generalize [0; 0; 0; 0]. induction (seq 0 TAIL_LEN) as [|i l IH]; intros acc Hl; [done|].
  apply Forall_cons in Hl as [Hi Hl]. simpl. unfold pack_bit at 2 4. by rewrite Hhi, IH.
Qed.

#[local] Opaque write_tail_payload read_tail_payload pack_high_bits.

(** ** Lemmas: the prelude *)

Lemma zip_lxor_involutive x m :
  (length x ≤ length m)%nat → zip_with Z.lxor (zip_with Z.lxor x m) m = x.
Proof.
  revert m. induction x as [|a x IH]; intros [|b m] Hl; simpl in *; try done; [lia|].
  rewrite Z.lxor_assoc, Z.lxor_nilpotent, Z.lxor_0_r, IH by lia. done.
Qed.

Lemma bytes_ok_zip_lxor x m : bytes_ok x → bytes_ok m → bytes_ok (zip_with Z.lxor x m).
Proof.
  intros Hx. revert m. induction Hx as [|a x Ha Hx IH]; intros [|b m] Hm; try done.
  apply Forall_cons in Hm as [Hb Hm]. constructor; [by apply u8_lxor|by apply IH].
Qed.

Lemma counter_bytes_decode c : 0 ≤ c ≤ MAX_COUNTER → counter_from_be_bytes (counter_to_be_bytes c) = c.
Proof.
  intros Hc. change MAX_COUNTER with (2 ^ 48 - 1) in Hc.
  unfold counter_from_be_bytes, counter_to_be_bytes.
  assert ([0; 0] ++ drop 2 (be_encode 8 c) = be_encode 8 c) as ->.
  { rewrite (be_encode_S 7), (be_encode_S 6). cbn [app drop]. rewrite !Z.shiftr_div_pow2 by lia.
    change (2 ^ (8 * Z.of_nat 7)) with (2 ^ 56). change (2 ^ (8 * Z.of_nat 6)) with (2 ^ 48).
    by rewrite !Z.div_small by lia. }
  apply be_decode_encode_small. change (256 ^ Z.of_nat 8) with (2 ^ 64). lia.
Qed.

Lemma counter_decode_bytes bs :
  length bs = COUNTER_LEN → bytes_ok bs →
  counter_to_be_bytes (counter_from_be_bytes bs) = bs ∧ 0 ≤ counter_from_be_bytes bs ≤ MAX_COUNTER.
Proof.
  intros Hl Hb. unfold counter_from_be_bytes, counter_to_be_bytes. split.
  - replace 8%nat with (length ([0; 0] ++ bs)) by (simpl; by rewrite Hl).
    rewrite be_encode_decode; [done|]. apply Forall_app. split; [by rewrite !Forall_cons|done].
  - change ([0; 0] ++ bs) with (0 :: 0 :: bs). rewrite !be_decode_cons.
    pose proof (be_decode_bound bs Hb) as Hd. rewrite Hl in Hd.
    change (256 ^ Z.of_nat COUNTER_LEN) with (2 ^ 48) in Hd. change MAX_COUNTER with (2 ^ 48 - 1). lia.
Qed.

Section Prelude.
Context {H : HmacSha256}.
Implicit Types (k : MaskKeys) (p n : Bytes) (a : AuthenticatedPrelude).

(** The masked payload that announces [a] in front of the prefix and high bits of [p]. *)
Definition sealed_payload k n p a : Bytes :=
  let prefix := take PREFIX_LEN p in
  let high_bits := pack_high_bits (drop PREFIX_LEN p) in
  let ident := be_encode 8 (identity a) in
  let ctr := counter_to_be_bytes (counter a) in
  let tag := authentication_tag k n prefix high_bits ident ctr in
  zip_with Z.lxor (ident ++ ctr ++ take TAG_LEN tag) (prelude_mask k n prefix high_bits).

Definition announced_ok a : Prop := is_u64 (identity a) ∧ 1 ≤ counter a ≤ MAX_COUNTER.

Lemma length_counter_bytes c : length (counter_to_be_bytes c) = COUNTER_LEN.
Proof. unfold counter_to_be_bytes. by rewrite length_drop, length_be_encode. Qed.

Lemma bytes_ok_counter_bytes c : bytes_ok (counter_to_be_bytes c).
Proof. apply Forall_drop, bytes_ok_be_encode. Qed.

Lemma length_sealed k n p a : length (sealed_payload k n p a) = TAIL_PAYLOAD_LEN.
Proof.
  unfold sealed_payload, prelude_mask, authentication_tag, hmac.
  rewrite length_zip_with, !length_app, length_take, !hmac_sha256_len, length_be_encode,
    length_counter_bytes. done.
Qed.

Lemma bytes_ok_sealed k n p a : bytes_ok (sealed_payload k n p a).
Proof.
  apply bytes_ok_zip_lxor; [|apply hmac_sha256_bytes].
  rewrite !Forall_app. split_and!; [apply bytes_ok_be_encode|apply bytes_ok_counter_bytes|].
  apply Forall_take, hmac_sha256_bytes.
Qed.

(** Unmasking the sealed payload gives its three fields back. *)
Lemma decode_sealed k n p a :
  announced_ok a → read_tail_payload (drop PREFIX_LEN p) = sealed_payload k n p a →
  decode_prelude k p n = Ok a.
Proof.
  intros [Hi Hc] Hread. unfold decode_prelude. rewrite Hread. unfold sealed_payload.
  set (hb := pack_high_bits _). set (pre := take PREFIX_LEN p).
  rewrite zip_lxor_involutive.
  2: { unfold prelude_mask, authentication_tag, hmac.
       rewrite !length_app, length_take, !hmac_sha256_len, length_be_encode, length_counter_bytes.
       unfold COUNTER_LEN, TAG_LEN. lia. }
  set (ib := be_encode 8 (identity a)). set (cb := counter_to_be_bytes (counter a)).
  set (tag := authentication_tag k n pre hb ib cb).
  assert (length ib = IDENTITY_LEN) as Hib by apply length_be_encode.
  assert (length cb = COUNTER_LEN) as Hcb by apply length_counter_bytes.
  rewrite take_app_length', drop_app_length', take_app_length' by done.
  rewrite app_assoc, drop_app_length' by (rewrite length_app; lia).
  unfold cb. rewrite counter_bytes_decode by lia. rewrite (proj2 (Z.eqb_neq _ 0)) by lia.
  fold cb tag. rewrite bool_decide_true by done. unfold ib.
  rewrite be_decode_encode_small; [by destruct a|].
  unfold in_width in Hi. by change (256 ^ Z.of_nat 8) with (2 ^ 64).
Qed.

Lemma decode_prelude_Ok k n p a :
  decode_prelude k p n = Ok a →
  announced_ok a ∧ read_tail_payload (drop PREFIX_LEN p) = sealed_payload k n p a.
Proof.
  unfold decode_prelude. set (hb := pack_high_bits _). set (pre := take PREFIX_LEN p).
  set (m := read_tail_payload _). set (pl := zip_with Z.lxor m _).
  assert (length m = TAIL_PAYLOAD_LEN) as Hm by apply length_read_tail.
  assert (length (prelude_mask k n pre hb) = 32%nat) as Hmask by apply hmac_sha256_len.
  assert (length pl = TAIL_PAYLOAD_LEN) as Hpl.
  { unfold pl. rewrite length_zip_with, Hm, Hmask. done. }
  assert (bytes_ok pl) as Hok by (apply bytes_ok_zip_lxor; [apply bytes_ok_read_tail|apply hmac_sha256_bytes]).
  set (ib := take IDENTITY_LEN pl). set (cb := take COUNTER_LEN (drop IDENTITY_LEN pl)).
  assert (length ib = 8%nat) as Hib by (unfold ib; by rewrite length_take, Hpl).
  assert (length cb = COUNTER_LEN) as Hcb by (unfold cb; by rewrite length_take, length_drop, Hpl).
  assert (bytes_ok ib ∧ bytes_ok cb) as [Hbi Hbc]
    by (unfold ib, cb; split; [by apply Forall_take|by apply Forall_take, Forall_drop]).
  destruct (counter_decode_bytes cb Hcb Hbc) as [Ec Hc].
  destruct (Z.eqb_spec (counter_from_be_bytes cb) 0); [done|].
  case_bool_decide as Htag; [|done]. intros [= <-]. split.
  - split; simpl; [|lia]. pose proof (be_decode_bound ib Hbi) as Hd. rewrite Hib in Hd.
    unfold in_width. by change (256 ^ Z.of_nat 8) with (2 ^ 64) in Hd.
  - unfold sealed_payload. cbn [identity counter]. rewrite Ec, <- Hib, be_encode_decode by done.
    fold hb pre. rewrite <- Htag.
    assert (ib ++ cb ++ drop (IDENTITY_LEN + COUNTER_LEN) pl = pl) as ->.
    { unfold ib, cb. rewrite <- drop_drop. by rewrite !take_drop. }
    unfold pl. symmetry. apply zip_lxor_involutive. rewrite Hm, Hmask.
    unfold TAIL_PAYLOAD_LEN, IDENTITY_LEN, COUNTER_LEN, TAG_LEN. lia.
Qed.
End Prelude.

Lemma u8_low7 b : is_u8 b → 0 ≤ Z.land b 0x7f < 0x80.
Proof.
  intros _. change 0x7f with (2 ^ 7 - 1). rewrite land_low_mask by lia.
  change 0x80 with (2 ^ 7). apply Z.mod_pos_bound. lia.
Qed.

Lemma low7_u8 b : 0 ≤ b < 0x80 → is_u8 b.
Proof. unfold in_width. change (2 ^ 8) with 256. lia. Qed.

Lemma printable_byte b : is_u8 b → 0x20 ≤ 0x20 + b mod 95 ≤ 0x7e.
Proof. intros _. pose proof (Z.mod_pos_bound b 95). lia. Qed.

Lemma generate_prelude_ok policy d :
  draws_ok d → length (generate_prelude policy d) = PRELUDE_LEN ∧ bytes_ok (generate_prelude policy d).
Proof.
  intros (Hl & Hb & Hp & Hs & _ & _). unfold PRELUDE_LEN in *. destruct policy; simpl.
  - split.
    + rewrite !length_app, !length_fmap, !length_take, !length_drop, Hl. lia.
    + rewrite !Forall_app, !Forall_fmap. split_and!.
      * eapply Forall_impl; [apply Forall_take, Hb|]. intros b ?%printable_byte. simpl.
        unfold in_width. change (2 ^ 8) with 256. lia.
      * eapply Forall_impl; [apply Forall_take, Forall_drop, Hb|].
        intros b ?%u8_low7. by apply low7_u8.
      * by apply Forall_drop.
  - done.
  - split; [by rewrite length_fmap|]. apply Forall_fmap. eapply Forall_impl; [exact Hb|].
    intros b ?%u8_low7. by apply low7_u8.
Qed.

(** A byte below 0x80 is one whose high bit is clear. *)
Lemma low7_iff b : is_u8 b → b < 0x80 ↔ Z.testbit b 7 = false.
Proof.
  unfold in_width. change (2 ^ 8) with 256. intros Hb. rewrite Z.testbit_false by lia.
  change (2 ^ 7) with 128. Z.div_mod_to_equations. lia.
Qed.

Lemma write_tail_low7 t p :
  length t = TAIL_LEN → bytes_ok t → Forall (λ b, b < 0x80) t →
  Forall (λ b, b < 0x80) (write_tail_payload t p).
Proof.
  intros Hl Hb Ht. apply Forall_lookup. intros g x Hx.
  assert (g < TAIL_LEN)%nat as Hg by (apply lookup_lt_Some in Hx; by rewrite length_write_tail, Hl in Hx).
  destruct (lookup_lt_is_Some_2 t g) as [y Hy]; [by rewrite Hl|].
  pose proof (Forall_lookup_1 _ _ _ _ (bytes_ok_write_tail t p Hb) Hx) as Hx8.
  pose proof (Forall_lookup_1 _ _ _ _ Hb Hy) as Hy8. pose proof (Forall_lookup_1 _ _ _ _ Ht Hy) as Hy7.
  apply low7_iff; [done|]. apply low7_iff in Hy7; [|done].
  apply list_lookup_total_correct in Hx, Hy. subst. by rewrite write_tail_testbit.
Qed.

Section PreludeTheorems.
Context {H : HmacSha256}.

(** [p] re-encoded over itself. *)
Definition own_draws (p n : Bytes) : Draws :=
  {| fill := p; printable_end := 8; seven_bit_end := 16; nonce_fill := n |}.

Lemma encode_prelude_eq k policy d ident ctr :
  let p := generate_prelude policy d in
  let a := {| identity := ident; counter := ctr |} in
  1 ≤ ctr ≤ MAX_COUNTER →
  encode_prelude k policy d ident ctr =
  Ok {| bytes := take PREFIX_LEN p ++
          write_tail_payload (drop PREFIX_LEN p) (sealed_payload k (nonce_fill d) p a);
        nonce := nonce_fill d |}.
Proof.
  intros p a Hc. unfold encode_prelude.
  by rewrite (proj2 (Z.eqb_neq ctr 0)), (proj2 (Z.ltb_ge MAX_COUNTER ctr)) by lia.
Qed.

Lemma encode_prelude_range k policy d ident ctr cp :
  0 ≤ ctr → encode_prelude k policy d ident ctr = Ok cp → 1 ≤ ctr ≤ MAX_COUNTER.
Proof.
  intros Hc. unfold encode_prelude. destruct (Z.eqb_spec ctr 0); [done|].
  destruct (Z.ltb_spec MAX_COUNTER ctr); [done|]. lia.
Qed.

(** Sealing looks at the prefix and the high bits only. *)
Lemma sealed_payload_write k n p q a :
  length p = PRELUDE_LEN →
  sealed_payload k n (take PREFIX_LEN p ++ write_tail_payload (drop PREFIX_LEN p) q) a
  = sealed_payload k n p a.
Proof.
  intros Hp. unfold sealed_payload.
  rewrite take_app_length', drop_app_length' by (rewrite length_take, Hp; done).
  rewrite pack_high_bits_write; [done|]. by rewrite length_drop, Hp.
Qed.

Lemma decode_prelude_iff k p n a :
  length p = PRELUDE_LEN → bytes_ok p →
  decode_prelude k p n = Ok a ↔
  is_u64 (identity a) ∧ 0 ≤ counter a ∧
  encode_prelude k Full8 (own_draws p n) (identity a) (counter a) = Ok {| bytes := p; nonce := n |}.
Proof.
  intros Hp Hb. assert (length (drop PREFIX_LEN p) = TAIL_LEN) as Ht by (by rewrite length_drop, Hp).
  assert (a = {| identity := identity a; counter := counter a |}) as Ha by (by destruct a). split.
  - intros [[Hi Hc] Hr]%decode_prelude_Ok. split_and!; [done|lia|].
    rewrite encode_prelude_eq by done. rewrite <- Ha. cbn [generate_prelude own_draws fill nonce_fill].
    rewrite <- Hr, write_read_tail; [by rewrite take_drop|done|by apply Forall_drop].
  - intros (Hi & Hc & He). pose proof (encode_prelude_range _ _ _ _ _ _ Hc He) as Hc'.
    apply decode_sealed; [by split|]. rewrite encode_prelude_eq in He by done.
    rewrite <- Ha in He. cbn [generate_prelude own_draws fill nonce_fill] in He. injection He as He.
    rewrite <- (take_drop PREFIX_LEN p) in He at 4. apply app_inv_head in He.
    transitivity (read_tail_payload (write_tail_payload (drop PREFIX_LEN p) (sealed_payload k n p a)));
      [by rewrite He|].
    apply read_write_tail; [done|apply length_sealed|apply bytes_ok_sealed].
Qed.
End PreludeTheorems.

(** The fold of [verify_prelude]: the last credential that accepts. *)
Lemma last_accepted_iff {K E A} (dec : K → result E A) keys k a :
  foldl (λ found key, match dec key with Ok x => Some (key, x) | _ => found end) None keys
    = Some (k, a) ↔
  dec k = Ok a ∧ ∃ pre post, keys = pre ++ k :: post ∧ ∀ k' a', k' ∈ post → dec k' ≠ Ok a'.
Proof.
  induction keys as [|x keys IH] using rev_ind.
  { split; [done|]. intros (_ & [|] & post & Eq & _); done. }
  rewrite foldl_app. cbn [foldl]. destruct (dec x) as [b|e|] eqn:Hx.
  { split.
    - intros [= <- <-]. split; [done|]. exists keys, []. split; [done|]. intros ?? ?%elem_of_nil. done.
    - intros (Hk & pre & post & Eq & Hpost). destruct post as [|y post _] using rev_ind.
      { apply app_inj_tail in Eq as [_ <-]. congruence. }
      rewrite app_comm_cons, app_assoc in Eq. apply app_inj_tail in Eq as [_ <-].
      destruct (Hpost x b); [|done]. apply elem_of_app. right. by apply list_elem_of_singleton. }
  all: rewrite IH; split; [|intros (Hk & pre & post & Eq & Hpost); split; [done|];
      destruct post as [|y post _] using rev_ind;
      [apply app_inj_tail in Eq as [_ <-]; congruence|];
      rewrite app_comm_cons, app_assoc in Eq; apply app_inj_tail in Eq as [-> <-];
      exists pre, post; split; [done|]; intros; apply Hpost, elem_of_app; by left].
  all: intros (Hk & pre & post & -> & Hpost); split; [done|]; exists pre, (post ++ [x]);
    (split; [by rewrite <- app_assoc|]); intros k' a' [Hin|Hin%list_elem_of_singleton]%elem_of_app;
    [by apply Hpost|congruence].
Qed.

(** ** Lemmas: counters *)

Lemma allocations_next n s :
  0 ≤ next s → next (allocations n s).2 = (if decide (n = 0%nat) then next s else truncate 64 (next s + Z.of_nat n)).
Proof.
  intros Hs. revert s Hs. induction n as [|n IH]; intros s Hs; [done|].
  cbn [allocations]. destruct (allocate s) as [r s1] eqn:Ha.
  assert (next s1 = truncate 64 (next s + 1)) as Hn by (unfold allocate in Ha; by simplify_eq).
  assert (0 ≤ next s1) as Hs1 by (rewrite Hn; by apply Z.mod_pos_bound).
  specialize (IH s1 Hs1). destruct (allocations n s1) as [rs s2]. cbn [snd] in *. rewrite IH, Hn.
  rewrite (decide_False (P := S n = 0%nat)) by lia. case_decide; [subst; done|].
  unfold truncate. rewrite Z.add_mod_idemp_l by done. f_equal. lia.
Qed.

Lemma allocations_results n s :
  1 ≤ next s → next s + Z.of_nat n ≤ 2 ^ 64 →
  (allocations n s).1 =
  (λ i, let c := next s + Z.of_nat i in
        if decide (c ≤ MAX_COUNTER) then Ok c else Err CounterExhausted) <$> seq 0 n.
Proof.
  revert s. induction n as [|n IH]; intros s Hs Hn; [done|].
  cbn [allocations]. destruct (allocate s) as [r s1] eqn:Ha. unfold allocate in Ha. simplify_eq.
  destruct (decide (n = 0%nat)) as [->|Hn0].
  - cbn. rewrite Z.add_0_r. f_equal. rewrite (proj2 (Z.eqb_neq _ 0)) by lia. simpl.
    case_decide; destruct (Z.ltb_spec MAX_COUNTER (next s)); (done || lia).
  - specialize (IH {| seq_identity := seq_identity s; next := truncate 64 (next s + 1) |}).
    cbn [next] in IH. unfold truncate in *. rewrite Z.mod_small in IH |- * by lia.
    specialize (IH ltac:(lia) ltac:(lia)). destruct (allocations n _) as [rs s2]. cbn [fst] in *.
    rewrite IH, <- (cons_seq n 0), <- fmap_S_seq. cbn [fmap list_fmap]. f_equal.
    + rewrite Z.add_0_r, (proj2 (Z.eqb_neq _ 0)) by lia. simpl.
      case_decide; destruct (Z.ltb_spec MAX_COUNTER (next s)); (done || lia).
    + rewrite <- list_fmap_compose. apply list_fmap_ext. intros ? j _. simpl.
      by replace (next s + 1 + Z.of_nat j) with (next s + Z.of_nat (S j)) by lia.
Qed.

(** What encoding produces is well formed, and the keys that sealed it open it. *)
Lemma encode_prelude_decodes {H : HmacSha256} k policy d ident ctr cp :
  draws_ok d → is_u64 ident → 0 ≤ ctr → encode_prelude k policy d ident ctr = Ok cp →
  decode_prelude k (bytes cp) (nonce cp) = Ok {| identity := ident; counter := ctr |} ∧
  length (bytes cp) = PRELUDE_LEN ∧ bytes_ok (bytes cp).
Proof.
  intros Hd Hi Hc He. destruct (generate_prelude_ok policy d Hd) as [Hgl Hgb].
  pose proof (encode_prelude_range _ _ _ _ _ _ Hc He) as Hr.
  rewrite encode_prelude_eq in He by done. injection He as <-. cbn [bytes nonce].
  set (g := generate_prelude policy d) in *. set (a := {| identity := ident; counter := ctr |}).
  assert (length (take PREFIX_LEN g) = PREFIX_LEN) as Hpl by (by rewrite length_take, Hgl).
  assert (length (drop PREFIX_LEN g) = TAIL_LEN) as Htl by (by rewrite length_drop, Hgl).
  split_and!.
  - apply decode_sealed; [by split|]. rewrite sealed_payload_write by done.
    rewrite drop_app_length' by done.
    apply read_write_tail; [done|apply length_sealed|apply bytes_ok_sealed].
  - by rewrite length_app, length_write_tail, Hpl, Htl.
  - apply Forall_app. split; [by apply Forall_take|by apply bytes_ok_write_tail, Forall_drop].
Qed.

(** ** Theorems *)

(** A prelude a client encodes is accepted by a server that has its keys,
    with the client's identity and counter, whatever the shaping policy and the
    random draws: encoding succeeds exactly for counters 1 to 2^48 - 1, the
    prelude is 64 bytes, and a [Low7] prelude is 7-bit clean on the wire. *)
Theorem prelude_roundtrip {H : HmacSha256} k policy d ident ctr :
  draws_ok d → is_u64 ident → 0 ≤ ctr →
  (is_ok (encode_prelude k policy d ident ctr) = true ↔ 1 ≤ ctr ≤ MAX_COUNTER) ∧
  (∀ cp, encode_prelude k policy d ident ctr = Ok cp →
     decode_prelude k (bytes cp) (nonce cp) = Ok {| identity := ident; counter := ctr |} ∧
     length (bytes cp) = PRELUDE_LEN ∧ bytes_ok (bytes cp) ∧
     take PREFIX_LEN (bytes cp) = take PREFIX_LEN (generate_prelude policy d) ∧
     (policy = Low7 → Forall (λ b, b < 0x80) (bytes cp))).
Proof.
  intros Hd Hi Hc. destruct (generate_prelude_ok policy d Hd) as [Hgl Hgb]. split.
  { split.
    - intros Ho. destruct (encode_prelude k policy d ident ctr) eqn:He; try done.
      by eapply encode_prelude_range.
    - intros Hr. by rewrite encode_prelude_eq. }
  intros cp He. destruct (encode_prelude_decodes k policy d ident ctr cp Hd Hi Hc He) as (? & ? & ?).
  pose proof (encode_prelude_range _ _ _ _ _ _ Hc He) as Hr.
  rewrite encode_prelude_eq in He by done. injection He as <-. cbn [bytes nonce] in *.
  set (g := generate_prelude policy d) in *.
  assert (length (take PREFIX_LEN g) = PREFIX_LEN) as Hpl by (by rewrite length_take, Hgl).
  assert (length (drop PREFIX_LEN g) = TAIL_LEN) as Htl by (by rewrite length_drop, Hgl).
  split_and!; [assumption..| |].
  - by rewrite take_app_length'.
  - intros ->. assert (Forall (λ b, b < 0x80) g) as Hg7.
    { apply Forall_fmap. eapply Forall_impl; [apply Hd|]. intros b ?%u8_low7. simpl. lia. }
    apply Forall_app. split; [by apply Forall_take|].
    apply write_tail_low7; [done|by apply Forall_drop|by apply Forall_drop].
Qed.



(** Counters are allocated once each, in order, and only while they fit: up
    to 2^64 - 1 calls, however threads interleave them, the [i]-th call returns
    [i] as long as [i] is at most 2^48 - 1, and [CounterExhausted] after that;
    so no two preludes of a process carry the same counter. *)
Theorem counters_never_reused r n :
  Z.of_nat n < 2 ^ 64 →
  (allocations n (sequence_new r)).1 =
  (λ i, let c := 1 + Z.of_nat i in
        if decide (c ≤ MAX_COUNTER) then Ok c else Err CounterExhausted) <$> seq 0 n.
Proof. intros Hn. apply allocations_results; simpl; lia. Qed.

(** The allocator does wrap: the atomic counter is 64 bits wide and goes
    past the exhausted range, so that after 2^64 calls counter 1 is handed out
    a second time. *)
Lemma counter_wraps_at_2_64 r :
  (allocate (allocations (Z.to_nat (2 ^ 64)) (sequence_new r)).2).1 = Ok 1.
Proof.
  unfold allocate. cbn [fst]. rewrite allocations_next by done.
  rewrite decide_False by lia. cbn [sequence_new next]. rewrite Z2Nat.id by lia.
  reflexivity.
Qed.

(** [PreludePolicy::parse] reads back what [as_str] prints. *)
Lemma policy_parse_as_str p : policy_parse (policy_as_str p) = Some p.
Proof. destruct p; vm_compute; reflexivity. Qed.

(** ** Witnesses *)

Definition demo_mac (k m : Bytes) : Bytes :=
  be_encode 32 (foldl (λ acc b, acc * 1315423911 + b + 7) 5381 (k ++ m)).

#[local] Instance demo_hmac_sha256 : HmacSha256.
Proof.
  refine {| hmac_sha256 := demo_mac |}; intros.
  - apply length_be_encode.
  - apply bytes_ok_be_encode.
Defined.

Definition demo_keys : MaskKeys := derive [1; 2] [3; 4; 5].

Definition demo_draws : Draws :=
  {| fill := Z.of_nat <$> seq 100 64; printable_end := 9; seven_bit_end := 20;
     nonce_fill := replicate 12 0xab |}.

Lemma demo_draws_ok : draws_ok demo_draws.
Proof.
  split_and!; try done; simpl; try lia; repeat (constructor; [done|]); constructor.
Qed.

Definition demo_prelude : ClientPrelude :=
  match encode_prelude demo_keys Low7 demo_draws 77 5 with
  | Ok cp => cp
  | _ => {| bytes := []; nonce := [] |}
  end.


End Mask.
