(* ===== verification/MaskReplay.v ===== *)
(** * MaskReplay: the replay registry of masking preludes (crates/uk-mask/src/replay.rs)

    Per client identity, the highest committed counter and a 1024-bit window of
    the counters below it, in sixteen 64-bit words; the identities in a bounded
    FIFO.  The window is shown to represent the set of committed counters, the
    registry to refuse every counter it committed for as long as the identity
    is tracked. *)

From S2P Require Import Prelude Wire RustStd Mask.

Module Replay.
Import Mask.

(* @src crates/uk-mask/src/replay.rs 22-23 WINDOW_WORDS *)
Definition WINDOW_WORDS : nat := Z.to_nat (REPLAY_WINDOW / 64).

(* @src crates/uk-mask/src/replay.rs 25-34 Replayed *)
Inductive Replayed : Set := Zero | Duplicate | BelowWindow.

(* @src crates/uk-mask/src/replay.rs 36-43 ReplayDecision *)
Inductive ReplayDecision : Set :=
  | Accepted
  | Rejected (r : Replayed).

#[global] Instance ReplayDecision_eq_dec : EqDecision ReplayDecision.
Proof. unfold EqDecision, Decision. decide equality. decide equality. Defined.

(* @src crates/uk-mask/src/replay.rs 45-50 ReplayEntry *)
Record ReplayEntry : Set := { highest : Z; seen : list Z }.

(* @src crates/uk-mask/src/replay.rs 53-60 ReplayEntry::fresh *)
Definition fresh (counter : Z) : ReplayEntry :=
  {| highest := counter; seen := <[0%nat := 1]> (replicate WINDOW_WORDS 0) |}.

(** The word and the bit of a distance; [distance] is below [REPLAY_WINDOW] at
    every call, so the index is in range. *)
Definition word (distance : Z) : nat := Z.to_nat (distance / 64).
Definition bit (distance : Z) : Z := Z.shiftl 1 (distance mod 64).

(* @src crates/uk-mask/src/replay.rs 62-64 ReplayEntry::bit_is_set *)
Definition bit_is_set (e : ReplayEntry) (distance : Z) : bool :=
  negb (Z.land (seen e !!! word distance) (bit distance) =? 0).

(** [words[d / 64] |= 1 << (d % 64)]. *)
Definition or_bit (words : list Z) (distance : Z) : list Z :=
  <[word distance := Z.lor (words !!! word distance) (bit distance)]> words.

(* @src crates/uk-mask/src/replay.rs 66-68 ReplayEntry::set_bit *)
Definition set_bit (e : ReplayEntry) (distance : Z) : ReplayEntry :=
  {| highest := highest e; seen := or_bit (seen e) distance |}.

(* @src crates/uk-mask/src/replay.rs 70-85 ReplayEntry::advance *)
Definition advance (e : ReplayEntry) (adv : Z) : ReplayEntry :=
  if REPLAY_WINDOW <=? adv
  then {| highest := highest e; seen := replicate WINDOW_WORDS 0 |}
  else
    let shifted := foldl (λ shifted target,
      let target := Z.of_nat target in
      let source := target + adv in
      if (source <? REPLAY_WINDOW) && bit_is_set e source then or_bit shifted target else shifted)
      (replicate WINDOW_WORDS 0) (seq 0 (Z.to_nat REPLAY_WINDOW)) in
    {| highest := highest e; seen := shifted |}.

(* @src crates/uk-mask/src/replay.rs 87-102 ReplayEntry::admits *)
Definition admits (e : ReplayEntry) (counter : Z) : ReplayDecision :=
  if counter =? 0 then Rejected Zero else
  if highest e <? counter then Accepted else
  let distance := highest e - counter in
  if (distance =? 0) || ((distance <? REPLAY_WINDOW) && bit_is_set e distance) then Rejected Duplicate
  else if distance <? REPLAY_WINDOW then Accepted
  else Rejected BelowWindow.

(* @src crates/uk-mask/src/replay.rs 105-113 ReplayRegistry *)
Record ReplayRegistry : Set := {
  order : list Z;
  entries : gmap Z ReplayEntry;
  capacity : Z
}.

(* @src crates/uk-mask/src/replay.rs 116-127 ReplayRegistry::new *)
Definition registry_new (capacity : Z) : result MaskError ReplayRegistry :=
  if 0 <? capacity then Ok {| order := []; entries := ∅; capacity := capacity |} else Panic.

(* @src crates/uk-mask/src/replay.rs 129-132 ReplayRegistry::len *)
Definition registry_len (r : ReplayRegistry) : Z := Z.of_nat (size (entries r)).

(* @src crates/uk-mask/src/replay.rs 139-146 ReplayRegistry::precheck *)
Definition precheck (r : ReplayRegistry) (identity counter : Z) : ReplayDecision :=
  match entries r !! identity with
  | Some entry => admits entry counter
  | None => if counter =? 0 then Rejected Zero else Accepted
  end.

(** Committing an admissible counter to a tracked identity. *)
Definition commit_entry (entry : ReplayEntry) (counter : Z) : ReplayEntry :=
  if highest entry <? counter then
    let entry := advance entry (counter - highest entry) in
    set_bit {| highest := counter; seen := seen entry |} 0
  else set_bit entry (highest entry - counter).

(* @src crates/uk-mask/src/replay.rs 148-173 ReplayRegistry::commit *)
Definition commit (r : ReplayRegistry) (identity counter : Z) : ReplayDecision * ReplayRegistry :=
  match precheck r identity counter with
  | Rejected why => (Rejected why, r)
  | Accepted =>
    match entries r !! identity with
    | Some entry =>
      (Accepted,
       {| order := order r; entries := <[identity := commit_entry entry counter]> (entries r);
          capacity := capacity r |})
    | None =>
      let '(order', entries') :=
        if registry_len r =? capacity r then
          match order r with
          | evicted :: rest => (rest, delete evicted (entries r))
          | [] => ([], entries r)
          end
        else (order r, entries r) in
      (Accepted,
       {| order := order' ++ [identity]; entries := <[identity := fresh counter]> entries';
          capacity := capacity r |})
    end
  end.

(** A run of commits. *)
Fixpoint commits (r : ReplayRegistry) (ops : list (Z * Z)) : list ReplayDecision * ReplayRegistry :=
  match ops with
  | [] => ([], r)
  | (identity, counter) :: ops' =>
    let '(d, r1) := commit r identity counter in
    let '(ds, r2) := commits r1 ops' in (d :: ds, r2)
  end.

(** How many identities a run registers. *)
Fixpoint registrations (r : ReplayRegistry) (ops : list (Z * Z)) : Z :=
  match ops with
  | [] => 0
  | (identity, counter) :: ops' =>
    (if decide (entries r !! identity = None ∧ counter ≠ 0) then 1 else 0)
    + registrations (commit r identity counter).2 ops'
  end.

(** ** Lemmas: the window *)

Lemma word_lt d : 0 ≤ d < REPLAY_WINDOW → (word d < WINDOW_WORDS)%nat.
Proof.
  unfold word, WINDOW_WORDS, REPLAY_WINDOW. intros Hd. apply Z2Nat.inj_lt; [..|];
    Z.div_mod_to_equations; lia.
Qed.

Lemma bit_is_set_testbit e d :
  bit_is_set e d = Z.testbit (seen e !!! word d) (d mod 64).
Proof.
  unfold bit_is_set, bit. set (x := seen e !!! word d). pose proof (Z.mod_pos_bound d 64) as Hm.
  rewrite Z.shiftl_1_l. destruct (Z.testbit x (d mod 64)) eqn:Hb.
  - apply negb_true_iff, Z.eqb_neq. intros Hz. apply (f_equal (λ z, Z.testbit z (d mod 64))) in Hz.
    rewrite Z.land_spec, Hb, Z.pow2_bits_true, Z.testbit_0_l in Hz by lia. done.
  - apply negb_false_iff, Z.eqb_eq. apply Z.bits_inj'. intros k Hk.
    rewrite Z.land_spec, Z.testbit_0_l. destruct (decide (k = d mod 64)) as [->|].
    + by rewrite Hb.
    + rewrite Z.pow2_bits_false by lia. apply andb_false_r.
Qed.

Lemma same_bit d d' : 0 ≤ d → 0 ≤ d' → word d = word d' → d mod 64 = d' mod 64 → d = d'.
Proof.
  unfold word. intros Hd Hd' Hw Hm. apply Z2Nat.inj in Hw; [|apply Z.div_pos; lia..].
  rewrite (Z.div_mod d 64), (Z.div_mod d' 64) by lia. lia.
Qed.

Lemma length_or_bit ws d : length (or_bit ws d) = length ws.
Proof. apply length_insert. Qed.

Lemma or_bit_is_set h ws d d' :
  length ws = WINDOW_WORDS → 0 ≤ d < REPLAY_WINDOW → 0 ≤ d' < REPLAY_WINDOW →
  bit_is_set {| highest := h; seen := or_bit ws d' |} d =
  bit_is_set {| highest := h; seen := ws |} d || bool_decide (d = d').
Proof.
  intros Hl Hd Hd'. rewrite !bit_is_set_testbit. cbn [seen]. unfold or_bit.
  pose proof (word_lt d' Hd') as Hw. pose proof (Z.mod_pos_bound d 64). pose proof (Z.mod_pos_bound d' 64).
  destruct (decide (word d = word d')) as [E|E].
  - rewrite E, list_lookup_total_insert_eq by (by rewrite Hl). rewrite Z.lor_spec. f_equal.
    unfold bit. rewrite Z.shiftl_1_l, Z.pow2_bits_eqb by lia. apply Bool.eq_iff_eq_true.
    rewrite Z.eqb_eq, bool_decide_eq_true. split; [intros; apply same_bit; lia|by intros ->].
  - rewrite list_lookup_total_insert_ne by done. rewrite bool_decide_false by congruence.
    by rewrite orb_false_r.
Qed.

Lemma bit_is_set_seen e h d : bit_is_set {| highest := h; seen := seen e |} d = bit_is_set e d.
Proof. done. Qed.

Lemma bit_is_set_zero h d :
  0 ≤ d < REPLAY_WINDOW → bit_is_set {| highest := h; seen := replicate WINDOW_WORDS 0 |} d = false.
Proof.
  intros Hd. rewrite bit_is_set_testbit. cbn [seen]. rewrite lookup_total_replicate_2 by (by apply word_lt).
  apply Z.testbit_0_l.
Qed.

(** The loop of [advance] after its first [n] iterations. *)
Lemma advance_loop e adv n :
  0 ≤ adv → Z.of_nat n ≤ REPLAY_WINDOW →
  let ws := foldl (λ shifted target,
      let target := Z.of_nat target in
      let source := target + adv in
      if (source <? REPLAY_WINDOW) && bit_is_set e source then or_bit shifted target else shifted)
      (replicate WINDOW_WORDS 0) (seq 0 n) in
  length ws = WINDOW_WORDS ∧
  ∀ d, 0 ≤ d < REPLAY_WINDOW →
    bit_is_set {| highest := highest e; seen := ws |} d =
    bool_decide (d < Z.of_nat n ∧ d + adv < REPLAY_WINDOW) && bit_is_set e (d + adv).
Proof.
  intros Ha. cbv zeta. induction n as [|n IH]; intros Hn.
  { split; [apply length_replicate|]. intros d Hd. rewrite bit_is_set_zero by done.
    by rewrite bool_decide_false by lia. }
  destruct IH as [Hl Hb]; [lia|]. rewrite seq_S, foldl_app. cbn [foldl]. rewrite Nat.add_0_l.
  set (ws := foldl _ _ (seq 0 n)) in *.
  destruct (Z.ltb_spec (Z.of_nat n + adv) REPLAY_WINDOW); simpl.
  - destruct (bit_is_set e (Z.of_nat n + adv)) eqn:Hset.
    + split; [by rewrite length_or_bit|]. intros d Hd. rewrite or_bit_is_set by (done || lia).
      rewrite Hb by done. destruct (decide (d = Z.of_nat n)) as [->|].
      * rewrite (bool_decide_true (Z.of_nat n = Z.of_nat n)) by done.
        rewrite orb_true_r, Hset. by rewrite bool_decide_true by lia.
      * rewrite (bool_decide_false (d = _)), orb_false_r by done. f_equal. apply bool_decide_ext. lia.
    + split; [done|]. intros d Hd. rewrite Hb by done. destruct (decide (d = Z.of_nat n)) as [->|].
      * by rewrite Hset, !andb_false_r.
      * f_equal. apply bool_decide_ext. lia.
  - split; [done|]. intros d Hd. rewrite Hb by done. f_equal. apply bool_decide_ext. lia.
Qed.

Lemma advance_is_set e adv d :
  0 ≤ adv → length (seen e) = WINDOW_WORDS → 0 ≤ d < REPLAY_WINDOW →
  length (seen (advance e adv)) = WINDOW_WORDS ∧
  bit_is_set (advance e adv) d = bool_decide (d + adv < REPLAY_WINDOW) && bit_is_set e (d + adv).
Proof.
  intros Ha Hl Hd. unfold advance. destruct (Z.leb_spec REPLAY_WINDOW adv).
  - split; [apply length_replicate|]. rewrite bit_is_set_zero by done.
    by rewrite bool_decide_false by lia.
  - destruct (advance_loop e adv (Z.to_nat REPLAY_WINDOW)) as [Hlw Hb]; [done|by rewrite Z2Nat.id|].
    split; [exact Hlw|]. rewrite Hb by done. rewrite Z2Nat.id by done. f_equal.
    apply bool_decide_ext. lia.
Qed.

#[local] Opaque advance.

(** ** Lemmas: entries *)

Definition entry_ok (e : ReplayEntry) : Prop := length (seen e) = WINDOW_WORDS.

(** [c] is marked as seen in the window of [e]. *)
Definition marked (e : ReplayEntry) (c : Z) : Prop :=
  0 ≤ highest e - c < REPLAY_WINDOW ∧ bit_is_set e (highest e - c) = true.

Lemma fresh_ok c : entry_ok (fresh c).
Proof. done. Qed.

Lemma fresh_marked c : marked (fresh c) c.
Proof. unfold marked. cbn [fresh highest]. rewrite Z.sub_diag. done. Qed.

Lemma commit_entry_ok e c : 0 ≤ c → entry_ok e → entry_ok (commit_entry e c).
Proof.
  unfold entry_ok, commit_entry, set_bit. intros Hc He.
  destruct (Z.ltb_spec (highest e) c); cbn [seen]; rewrite length_or_bit; [|done].
  apply (advance_is_set e (c - highest e) 0); [lia|done|done].
Qed.

Lemma commit_entry_highest e c : highest (commit_entry e c) = Z.max (highest e) c.
Proof. unfold commit_entry. destruct (Z.ltb_spec (highest e) c); simpl; lia. Qed.

Lemma admits_Accepted e c :
  0 ≤ c → admits e c = Accepted →
  1 ≤ c ∧ (highest e < c ∨ 0 < highest e - c < REPLAY_WINDOW).
Proof.
  unfold admits. intros Hc. destruct (Z.eqb_spec c 0); [done|]. destruct (Z.ltb_spec (highest e) c); [lia|].
  destruct (Z.eqb_spec (highest e - c) 0); [done|]. simpl.
  destruct (Z.ltb_spec (highest e - c) REPLAY_WINDOW); simpl; [|done].
  destruct (bit_is_set e _); [done|lia].
Qed.

Lemma admits_marked e c : 1 ≤ c → marked e c → admits e c = Rejected Duplicate.
Proof.
  intros Hc [Hd Hb]. unfold admits. rewrite (proj2 (Z.eqb_neq c 0)), (proj2 (Z.ltb_ge _ _)) by lia.
  rewrite Hb, (proj2 (Z.ltb_lt _ _)) by lia. by rewrite orb_true_r.
Qed.

Lemma commit_entry_marked e c :
  0 ≤ c → entry_ok e → admits e c = Accepted → marked (commit_entry e c) c.
Proof.
  intros Hc He Ha. apply admits_Accepted in Ha as [_ Ha]; [|done].
  unfold marked. rewrite commit_entry_highest. unfold commit_entry, set_bit.
  destruct (Z.ltb_spec (highest e) c).
  - replace (Z.max (highest e) c - c) with 0 by lia. split; [done|].
    rewrite or_bit_is_set; [by rewrite bool_decide_true, orb_true_r| |done|done].
    apply (advance_is_set e (c - highest e) 0); [lia|done|done].
  - replace (Z.max (highest e) c - c) with (highest e - c) by lia. split; [lia|].
    destruct e as [h ws]. rewrite or_bit_is_set; [|done|simpl in *; lia|simpl in *; lia].
    by rewrite bool_decide_true, orb_true_r.
Qed.

(** Marks survive as long as the highest counter stays. *)
Lemma commit_entry_keeps_mark e c c' :
  entry_ok e → admits e c' = Accepted → 0 ≤ c' ≤ highest e → marked e c → marked (commit_entry e c') c.
Proof.
  intros He Ha Hc' [Hd Hb]. apply admits_Accepted in Ha as [_ Ha]; [|lia].
  unfold marked. rewrite commit_entry_highest. replace (Z.max (highest e) c') with (highest e) by lia.
  split; [done|]. unfold commit_entry, set_bit. rewrite (proj2 (Z.ltb_ge _ _)) by lia.
  destruct e as [h ws]. simpl in *. rewrite or_bit_is_set; [|done|done|lia]. by rewrite Hb.
Qed.

(** ** Lemmas: the registry *)

Definition registry_ok (r : ReplayRegistry) : Prop :=
  0 < capacity r ∧ NoDup (order r) ∧ (∀ i, i ∈ order r ↔ is_Some (entries r !! i)) ∧
  zlen (order r) ≤ capacity r ∧ map_Forall (λ _ e, entry_ok e) (entries r).

Lemma registry_len_order r : registry_ok r → registry_len r = zlen (order r).
Proof.
  intros (_ & Hnd & Hiff & _). unfold registry_len. f_equal. rewrite <- size_dom.
  assert (dom (entries r) = list_to_set (order r)) as ->.
  { apply set_eq. intros i. by rewrite elem_of_dom, elem_of_list_to_set, Hiff. }
  by apply size_list_to_set.
Qed.

Lemma registry_new_ok cap r : registry_new cap = Ok r → registry_ok r ∧ order r = [] ∧ capacity r = cap.
Proof.
  unfold registry_new. destruct (Z.ltb_spec 0 cap); [|done]. intros [= <-]. split_and!; try done.
  split_and!; simpl; try done; try lia; [apply NoDup_nil_2|].
  intros i. rewrite lookup_empty. split; [by intros ?%elem_of_nil|by intros [??]].
Qed.

Lemma commit_tracked r i c e :
  entries r !! i = Some e →
  commit r i c = match admits e c with
    | Accepted => (Accepted, {| order := order r; entries := <[i := commit_entry e c]> (entries r);
                                capacity := capacity r |})
    | d => (d, r)
    end.
Proof. intros He. unfold commit, precheck. rewrite He. by destruct (admits e c). Qed.

Lemma commit_untracked r i c :
  registry_ok r → entries r !! i = None →
  if decide (c = 0) then commit r i c = (Rejected Zero, r) else
  ∃ o m, commit r i c = (Accepted, {| order := o ++ [i]; entries := <[i := fresh c]> m;
                                      capacity := capacity r |}) ∧
    ((zlen (order r) < capacity r ∧ o = order r ∧ m = entries r) ∨
     (∃ x, zlen (order r) = capacity r ∧ order r = x :: o ∧ m = delete x (entries r))).
Proof.
  intros Hok Hi. unfold commit, precheck. rewrite Hi, registry_len_order by done.
  destruct Hok as (Hcap & _ & _ & Hlen & _).
  destruct (Z.eqb_spec c 0); [by rewrite decide_True|]. rewrite decide_False by done.
  destruct (Z.eqb_spec (zlen (order r)) (capacity r)) as [Hf|Hf].
  - destruct (order r) as [|x rest] eqn:Eo; [simpl in *; lia|].
    exists rest, (delete x (entries r)). split; [done|]. right. by exists x.
  - exists (order r), (entries r). split; [done|]. left. split_and!; [lia|done|done].
Qed.

Lemma commit_ok r i c : 0 ≤ c → registry_ok r → registry_ok (commit r i c).2 ∧ capacity (commit r i c).2 = capacity r.
Proof.
  intros Hc Hok. destruct (entries r !! i) as [e|] eqn:Hi.
  - rewrite (commit_tracked _ _ _ _ Hi). destruct (admits e c); [|done]. cbn [snd]. split; [|done].
    destruct Hok as (Hcap & Hnd & Hiff & Hlen & Hall). split_and!; simpl; try done.
    + intros j. rewrite Hiff, lookup_insert_is_Some. destruct (decide (i = j)) as [<-|]; [|naive_solver].
      rewrite Hi. naive_solver.
    + apply map_Forall_insert_2; [|done]. apply commit_entry_ok; [done|]. exact (Hall _ _ Hi).
  - pose proof (commit_untracked r i c Hok Hi) as Hun. case_decide; [by rewrite Hun|].
    destruct Hun as (o & m & -> & Hcase). cbn [snd]. split; [|done].
    destruct Hok as (Hcap & Hnd & Hiff & Hlen & Hall).
    assert (i ∉ order r) as Hni by (rewrite Hiff, Hi; by intros [??]).
    destruct Hcase as [(Hl & -> & ->)|(x & Hl & Eo & ->)].
    + split_and!; simpl; [done| | | |].
      * apply NoDup_app. split_and!; [done| |apply NoDup_singleton].
        intros y Hy ->%list_elem_of_singleton. done.
      * intros j. rewrite elem_of_app, list_elem_of_singleton, Hiff, lookup_insert_is_Some.
        destruct (decide (i = j)); naive_solver.
      * rewrite length_app. simpl. lia.
      * by apply map_Forall_insert_2.
    + rewrite Eo in *. apply NoDup_cons in Hnd as [Hx Hnd]. apply not_elem_of_cons in Hni as [Hix Hni].
      split_and!; simpl; [done| | | |].
      * apply NoDup_app. split_and!; [done| |apply NoDup_singleton].
        intros y Hy ->%list_elem_of_singleton. done.
      * intros j. rewrite elem_of_app, list_elem_of_singleton, lookup_insert_is_Some.
        rewrite lookup_delete_is_Some, <- Hiff, elem_of_cons.
        destruct (decide (i = j)); [naive_solver|]. destruct (decide (x = j)) as [<-|]; naive_solver.
      * rewrite length_app. simpl in *. lia.
      * apply map_Forall_insert_2; [done|]. by apply map_Forall_delete.
Qed.

(** [i] stays tracked through [n] more registrations. *)
Definition survives (r : ReplayRegistry) (i n : Z) : Prop :=
  0 ≤ n ∧ ∃ pre post, order r = pre ++ i :: post ∧ n ≤ zlen pre + (capacity r - zlen (order r)).

Lemma survives_tracked r i n : registry_ok r → survives r i n → is_Some (entries r !! i).
Proof.
  intros (_ & _ & Hiff & _) (_ & pre & post & E & _). apply Hiff. rewrite E.
  apply elem_of_app. right. by left.
Qed.

(** One commit: the entry of [i] changes only by a commit for [i], and one
    registration uses up one unit of survival. *)
Lemma survives_commit r i n j c :
  registry_ok r → (entries r !! j = None ∧ c ≠ 0 → 1 ≤ n) → survives r i n →
  survives (commit r j c).2 i (n - (if decide (entries r !! j = None ∧ c ≠ 0) then 1 else 0)) ∧
  (i ≠ j → entries (commit r j c).2 !! i = entries r !! i).
Proof.
  intros Hok Hn Hs. pose proof (survives_tracked r i n Hok Hs) as Ht.
  destruct (entries r !! j) as [e|] eqn:Hj.
  - rewrite decide_False by (by intros [? _]). rewrite Z.sub_0_r, (commit_tracked _ _ _ _ Hj).
    destruct (admits e c); cbn [snd]; [|done]. split; [exact Hs|]. intros Hij. simpl.
    by rewrite lookup_insert_ne.
  - pose proof (commit_untracked r j c Hok Hj) as Hun. case_decide as Hc0.
    { rewrite Hun. cbn [snd]. rewrite decide_False by (by intros [_ ?]). by rewrite Z.sub_0_r. }
    rewrite decide_True by done. destruct Hun as (o & m & -> & Hcase). cbn [snd].
    destruct Hs as (Hn0 & pre & post & E & Hle). specialize (Hn (conj eq_refl Hc0)).
    destruct Hcase as [(Hl & -> & ->)|(x & Hl & Eo & ->)].
    + split; [|intros; simpl; by rewrite lookup_insert_ne].
      split; [lia|]. exists pre, (post ++ [j]). simpl. split; [by rewrite E, <- app_assoc|].
      rewrite length_app. simpl. lia.
    + rewrite Eo in *. destruct pre as [|y pre]; simpl in E; injection E as -> E; [simpl in *; lia|].
      split; [split; [lia|]|].
      * exists pre, (post ++ [j]). simpl. split; [by rewrite E, <- app_assoc|].
        rewrite length_app. simpl in *. lia.
      * intros Hij. simpl. rewrite lookup_insert_ne by done. apply lookup_delete_ne. intros <-.
        destruct Hok as (_ & Hnd & _). rewrite Eo, E in Hnd. apply NoDup_cons in Hnd as [Hnd _].
        apply Hnd, elem_of_app. right. by left.
Qed.

(** Over a run in which [i]'s highest counter does not move. *)
Lemma commits_keep_mark ops r i n c e ds r' :
  registry_ok r → survives r i n → entries r !! i = Some e → marked e c →
  Forall (λ '(j, c'), 0 ≤ c' ∧ (j = i → c' ≤ highest e)) ops → registrations r ops ≤ n →
  commits r ops = (ds, r') →
  registry_ok r' ∧ ∃ e', entries r' !! i = Some e' ∧ marked e' c.
Proof.
  revert r n e ds. induction ops as [|[j c'] ops IH]; intros r n e ds Hok Hs He Hm Hops Hreg Hrun.
  { simpl in Hrun. simplify_eq. eauto. }
  apply Forall_cons in Hops as [[Hc' Hh] Hops]. cbn [commits registrations] in *.
  assert (∀ l r, 0 ≤ registrations r l) as Hnn.
  { clear. induction l as [|[k c] l IH]; intros r; simpl; [lia|]. specialize (IH (commit r k c).2).
    case_decide; lia. }
  specialize (Hnn ops (commit r j c').2).
  destruct (survives_commit r i n j c' Hok) as [Hs1 Hoth]; [|done|].
  { intros Hj. rewrite decide_True in Hreg by done. lia. }
  destruct (commit_ok r j c' Hc' Hok) as [Hok1 _].
  assert (∃ e1, entries (commit r j c').2 !! i = Some e1 ∧ marked e1 c ∧ highest e1 = highest e)
    as (e1 & He1 & Hm1 & Hh1).
  { destruct (decide (i = j)) as [<-|Hij]; [|exists e; by rewrite Hoth].
    rewrite (commit_tracked _ _ _ _ He). destruct (admits e c') eqn:Ha; [|by exists e].
    cbn [snd entries]. rewrite lookup_insert_eq. eexists. split; [done|].
    rewrite commit_entry_highest. specialize (Hh eq_refl). split; [|lia].
    apply commit_entry_keeps_mark; try done. exact (proj2 (proj2 (proj2 (proj2 Hok))) _ _ He). }
  destruct (commit r j c') as [d r1]. cbn [snd] in *.
  destruct (commits r1 ops) as [ds1 r2] eqn:Hrun1. simplify_eq.
  eapply (IH r1); [done|exact Hs1|exact He1|exact Hm1| |lia|exact Hrun1].
  eapply Forall_impl; [exact Hops|]. intros [k ck] [? ?]. rewrite Hh1. done.
Qed.

(** A commit that is accepted leaves its mark. *)
Lemma commit_Accepted r i c r1 :
  0 ≤ c → registry_ok r → commit r i c = (Accepted, r1) →
  1 ≤ c ∧ ∃ e1, entries r1 !! i = Some e1 ∧ marked e1 c.
Proof.
  intros Hc Hok Hcom. destruct (entries r !! i) as [e|] eqn:Hi.
  - rewrite (commit_tracked _ _ _ _ Hi) in Hcom. destruct (admits e c) eqn:Ha; simplify_eq.
    split; [by apply admits_Accepted in Ha as [? _]|]. simpl. rewrite lookup_insert_eq.
    eexists. split; [done|]. apply commit_entry_marked; [done| |done].
    exact (proj2 (proj2 (proj2 (proj2 Hok))) _ _ Hi).
  - pose proof (commit_untracked r i c Hok Hi) as Hun. case_decide; [congruence|].
    destruct Hun as (o & m & Hc1 & _). rewrite Hc1 in Hcom. simplify_eq. simpl. rewrite lookup_insert_eq.
    split; [lia|]. eexists. split; [done|apply fresh_marked].
Qed.

(** An identity that just registered survives [capacity - 1] registrations. *)
Lemma commit_survives r i c r1 :
  0 ≤ c → registry_ok r → entries r !! i = None → commit r i c = (Accepted, r1) →
  survives r1 i (capacity r - 1).
Proof.
  intros Hc Hok Hi Hcom. destruct (commit_ok r i c Hc Hok) as [Hok1 _]. rewrite Hcom in Hok1.
  destruct (commit_Accepted r i c r1 Hc Hok Hcom) as [Hc1 _].
  pose proof (commit_untracked r i c Hok Hi) as Hun. rewrite decide_False in Hun by lia.
  destruct Hun as (o & m & Hcom' & _). rewrite Hcom in Hcom'. simplify_eq. cbn [snd] in *.
  destruct Hok1 as (Hpos & _ & _ & Hlen & _). cbn [order capacity] in *. split; [lia|].
  exists o, []. cbn [order capacity]. split; [done|]. rewrite length_app in *. simpl in *. lia.
Qed.

Lemma commits_ok ops r ds r' :
  registry_ok r → Forall (λ '(_, c), 0 ≤ c) ops → commits r ops = (ds, r') →
  registry_ok r' ∧ capacity r' = capacity r.
Proof.
  revert r ds. induction ops as [|[i c] ops IH]; intros r ds Hok Hops Hrun; simpl in Hrun; [by simplify_eq|].
  apply Forall_cons in Hops as [Hc Hops]. destruct (commit_ok r i c Hc Hok) as [Hok1 Hcap1].
  destruct (commit r i c) as [d r1]. destruct (commits r1 ops) as [ds1 r2] eqn:Hr. simplify_eq.
  destruct (IH r1 ds1) as [? ?]; [done..|]. split; [done|]. simpl in *. congruence.
Qed.

Lemma bit_is_set_fresh c d : 0 ≤ d < REPLAY_WINDOW → bit_is_set (fresh c) d = bool_decide (d = 0).
Proof.
  intros Hd. change (fresh c) with {| highest := c; seen := or_bit (replicate WINDOW_WORDS 0) 0 |}.
  rewrite or_bit_is_set, bit_is_set_zero by done. done.
Qed.

(** What an advancing commit does to the window: the new window reads, for a
    counter [k] below the new highest, the old mark of [k - 2 * adv], where
    [adv] is the advance, and not the old mark of [k]. *)
Lemma advance_shifts_marks e c k :
  entry_ok e → highest e < c → 0 < c - k < REPLAY_WINDOW →
  (marked (commit_entry e c) k ↔ marked e (k - 2 * (c - highest e))).
Proof.
  intros He Hc Hk. unfold marked. rewrite commit_entry_highest. unfold commit_entry, set_bit.
  rewrite (proj2 (Z.ltb_lt _ _)) by done. rewrite (Z.max_r (highest e) c) by lia. cbn [seen].
  destruct (advance_is_set e (c - highest e) (c - k)) as [Hl Hb]; [lia|done|lia|].
  rewrite or_bit_is_set by (done || lia). rewrite (bool_decide_false (c - k = 0)), orb_false_r by lia.
  rewrite bit_is_set_seen.
  rewrite Hb, andb_true_iff, bool_decide_eq_true.
  replace (highest e - (k - 2 * (c - highest e))) with (c - k + (c - highest e)) by lia.
  assert (c - k < REPLAY_WINDOW) by lia. split; [intros [? [? ?]]|intros [? ?]]; split_and!; (done || lia).
Qed.

(** ** Theorems *)

(** In every state the registry can reach, the FIFO and the map hold the
    same identities, each once, never more than the capacity, whatever the
    sequence of commits; counter zero is never accepted, and a rejected commit
    changes nothing. *)
Theorem registry_bounded cap r0 ops ds r i c :
  registry_new cap = Ok r0 → Forall (λ '(_, c), 0 ≤ c) ops → commits r0 ops = (ds, r) →
  (registry_len r = zlen (order r) ∧ registry_len r ≤ cap ∧ NoDup (order r) ∧
   ∀ j, j ∈ order r ↔ is_Some (entries r !! j)) ∧
  (commit r i 0).1 = Rejected Zero ∧
  (commit r i c).1 = precheck r i c ∧
  ((commit r i c).1 ≠ Accepted → (commit r i c).2 = r).
Proof.
  intros (Hok0 & _ & <-)%registry_new_ok Hops Hrun.
  destruct (commits_ok ops r0 ds r Hok0 Hops Hrun) as [Hok Hcap].
  split; [|split_and!].
  - rewrite registry_len_order by done. destruct Hok as (_ & Hnd & Hiff & Hlen & _).
    split_and!; [done|lia|done|done].
  - unfold commit, precheck, admits. by destruct (entries r !! i).
  - unfold commit. destruct (precheck r i c); [|done]. destruct (entries r !! i); [done|].
    by destruct (if registry_len r =? capacity r then _ else _).
  - unfold commit. destruct (precheck r i c); [|done]. destruct (entries r !! i); [done|].
    by destruct (if registry_len r =? capacity r then _ else _).
Qed.

(** A committed counter is refused as a duplicate for as long as the
    identity's highest counter does not move and the identity is not evicted:
    whatever other commits happen in between, for other identities or for
    lower counters of this one, and an identity that just registered survives
    [capacity - 1] further registrations. *)
Theorem replay_refused_until_advance cap r0 ops0 ds0 r i c r1 e1 n ops ds r2 :
  registry_new cap = Ok r0 → Forall (λ '(_, c), 0 ≤ c) ops0 → commits r0 ops0 = (ds0, r) →
  0 ≤ c → commit r i c = (Accepted, r1) → entries r1 !! i = Some e1 →
  (entries r !! i = None → survives r1 i (cap - 1)) ∧
  (survives r1 i n → Forall (λ '(j, c'), 0 ≤ c' ∧ (j = i → c' ≤ highest e1)) ops →
   registrations r1 ops ≤ n → commits r1 ops = (ds, r2) →
   commit r2 i c = (Rejected Duplicate, r2)).
Proof.
  intros (Hok0 & _ & Hcap0)%registry_new_ok Hops0 Hrun0 Hc Hcom He1.
  destruct (commits_ok ops0 r0 ds0 r Hok0 Hops0 Hrun0) as [Hok Hcap].
  destruct (commit_ok r i c Hc Hok) as [Hok1 Hcap1]. rewrite Hcom in Hok1, Hcap1. cbn [snd] in *.
  destruct (commit_Accepted r i c r1 Hc Hok Hcom) as (Hc1 & e1' & He1' & Hm1). simplify_eq. split.
  - intros Hi. rewrite <- Hcap. by apply (commit_survives r i c).
  - intros Hs Hops Hreg Hrun.
    destruct (commits_keep_mark ops r1 i n c e1 ds r2 Hok1 Hs He1 Hm1 Hops Hreg Hrun)
      as (_ & e' & He' & Hm').
    rewrite (commit_tracked _ _ _ _ He'). by rewrite admits_marked.
Qed.

(** C37: The window is shifted the wrong way when the highest counter advances,
    so a counter that was committed is accepted a second time: after
    registering with counter [c] and committing any higher [c'] less than
    [REPLAY_WINDOW] above it, committing [c] again succeeds. *)
Theorem committed_counter_accepted_again cap r0 i c c' :
  registry_new cap = Ok r0 → 1 ≤ c < c' → c' - c < REPLAY_WINDOW →
  (commits r0 [(i, c); (i, c'); (i, c)]).1 = [Accepted; Accepted; Accepted].
Proof.
  intros (Hok & Ho & _)%registry_new_ok Hc Hw.
  assert (entries r0 !! i = None) as Hi.
  { destruct (entries r0 !! i) eqn:E; [|done]. destruct Hok as (_ & _ & Hiff & _).
    assert (i ∈ order r0) as Hin by (apply Hiff; by rewrite E). rewrite Ho in Hin. by apply elem_of_nil in Hin. }
  cbn [commits]. pose proof (commit_untracked r0 i c Hok Hi) as Hun. rewrite decide_False in Hun by lia.
  destruct Hun as (o & m & -> & _).
  rewrite (commit_tracked _ i c' (fresh c)) by apply lookup_insert_eq.
  unfold admits at 1. rewrite (proj2 (Z.eqb_neq c' 0)) by lia. cbn [fresh highest].
  rewrite (proj2 (Z.ltb_lt c c')) by lia.
  erewrite (commit_tracked _ i c (commit_entry (fresh c) c')) by apply lookup_insert_eq.
  assert (admits (commit_entry (fresh c) c') c = Accepted) as ->; [|done].
  unfold admits. rewrite commit_entry_highest. cbn [fresh highest]. rewrite (Z.max_r c c') by lia.
  rewrite (proj2 (Z.eqb_neq c 0)), (proj2 (Z.ltb_ge c' c)), (proj2 (Z.eqb_neq (c' - c) 0)) by lia.
  rewrite (proj2 (Z.ltb_lt _ REPLAY_WINDOW)) by lia. cbn [orb andb].
  destruct (bit_is_set (commit_entry (fresh c) c') (c' - c)) eqn:Hb; [|done]. exfalso.
  assert (marked (commit_entry (fresh c) c') c) as Hm.
  { unfold marked. rewrite commit_entry_highest. cbn [fresh highest]. rewrite (Z.max_r c c') by lia. split; [lia|done]. }
  apply advance_shifts_marks in Hm as [Hd Hf]; [|done|simpl; lia|lia]. cbn [fresh highest] in *.
  rewrite bit_is_set_fresh in Hf by done. apply bool_decide_eq_true in Hf. lia.
Qed.

(** ** Witnesses *)

Definition demo_registry : ReplayRegistry := {| order := []; entries := ∅; capacity := 2 |}.

Lemma committed_counter_accepted_again_witness :
  (commits demo_registry [(7, 5); (7, 6); (7, 5)]).1 = [Accepted; Accepted; Accepted].
Proof. by apply (committed_counter_accepted_again 2 demo_registry 7 5 6). Defined.
End Replay.
