(* ===== verification/MaskStream.v ===== *)
(** * MaskStream: masked TCP streams (crates/uk-mask/src/stream.rs)

    [MaskedStream] at the level of its polls: what each [poll_write] encrypts,
    hands to the inner stream and rewinds, and what each [poll_read] unmasks.
    The outcome of the inner stream's poll is an argument of each operation.
    ChaCha20 is another crate's: the class [ChaCha20] states the documented
    behaviour of its stream-cipher interface, on which the proofs rely. *)

From S2P Require Import Prelude Wire RustStd Mask.

(** [data] XORed with the keystream [ks] from position [p]. *)
Fixpoint xor_at (ks : Z → Z) (p : Z) (data : Bytes) : Bytes :=
  match data with
  | [] => []
  | b :: data' => Z.lxor b (ks p) :: xor_at ks (p + 1) data'
  end.

(** The [cipher] traits of the [chacha20] crate.  [positioned k n c p]: the
    cipher [c] has key [k] and nonce [n], and is at byte [p] of its keystream.
    Up to [STREAM_LIMIT] bytes (below the 2^38 of a 32-bit block counter)
    applying and seeking succeed; what happens beyond is left open. *)
Class ChaCha20 : Type := {
  cipher : Type;
  cipher_new : Bytes → Bytes → cipher;
  try_apply_keystream : cipher → Bytes → option Bytes * cipher;
  try_seek : cipher → Z → bool * cipher;
  keystream : Bytes → Bytes → Z → Z;
  positioned : Bytes → Bytes → cipher → Z → Prop;
  keystream_u8 k n p : is_u8 (keystream k n p);
  new_positioned k n : positioned k n (cipher_new k n) 0;
  apply_positioned k n c p data :
    positioned k n c p → 0 ≤ p → p + zlen data ≤ Mask.STREAM_LIMIT →
    ∃ c', try_apply_keystream c data = (Some (xor_at (keystream k n) p data), c') ∧
          positioned k n c' (p + zlen data);
  seek_positioned k n c p q :
    positioned k n c p → 0 ≤ q ≤ Mask.STREAM_LIMIT →
    ∃ c', try_seek c q = (true, c') ∧ positioned k n c' q
}.

Module Stream.
Import Mask.

Section Masked.
Context {C : ChaCha20}.

(* @src crates/uk-mask/src/stream.rs 32-34 MAX_WRITE_CHUNK *)
Definition MAX_WRITE_CHUNK : Z := 64 * 1024.

(** The errors the wrapper makes, and those of the inner stream. *)
Inductive IoError : Set :=
  | SeekFailed
  | LimitExceeded
  | WroteZero
  | Inner (code : Z).

Inductive Poll (A : Type) : Type :=
  | Pending
  | Ready (r : result IoError A).
Arguments Pending {A}.
Arguments Ready {A} r.

(* @src crates/uk-mask/src/stream.rs 36-39 Direction *)
Record Direction : Type := { dcipher : cipher; offset : Z }.

(* @src crates/uk-mask/src/stream.rs 42-47 Direction::new *)
Definition direction_new (key nonce : Bytes) : Direction :=
  {| dcipher := cipher_new key nonce; offset := 0 |}.

(* @src crates/uk-mask/src/stream.rs 49-53 Direction::rewind *)
Definition rewind (d : Direction) : result IoError unit * Direction :=
  let '(ok, c) := try_seek (dcipher d) (offset d) in
  (if ok then Ok tt else Err SeekFailed, {| dcipher := c; offset := offset d |}).

(** The wrapper without the inner stream, whose polls are arguments below. *)
(* @src crates/uk-mask/src/stream.rs 56-63 MaskedStream *)
Record MaskedStream : Type := { read : Direction; write : Direction; scratch : Bytes }.

(* @src crates/uk-mask/src/stream.rs 76-83 MaskedStream::new *)
Definition stream_new (write_key read_key nonce : Bytes) : MaskedStream :=
  {| read := direction_new read_key nonce; write := direction_new write_key nonce; scratch := [] |}.

(* @src crates/uk-mask/src/stream.rs 66-69 MaskedStream::new_client *)
Definition new_client (keys : MaskKeys) (nonce : Bytes) : MaskedStream :=
  stream_new (tcp_c2s keys) (tcp_s2c keys) nonce.

(* @src crates/uk-mask/src/stream.rs 71-74 MaskedStream::new_server *)
Definition new_server (keys : MaskKeys) (nonce : Bytes) : MaskedStream :=
  stream_new (tcp_s2c keys) (tcp_c2s keys) nonce.

(** [offset.checked_add(n).filter(|o| *o <= STREAM_LIMIT)]. *)
Definition advance_offset (offset n : Z) : option Z :=
  if U64_MAX <? offset + n then None
  else if offset + n <=? STREAM_LIMIT then Some (offset + n) else None.

(** [inner] is what the inner [poll_read] did: the bytes it put in the buffer
    ([[]] at the end of the stream), an error, or pending. *)
(* @src crates/uk-mask/src/stream.rs 111-140 MaskedStream::poll_read *)
Definition poll_read (s : MaskedStream) (inner : Poll Bytes) : Poll Bytes * MaskedStream :=
  match inner with
  | Pending => (Pending, s)
  | Ready (Err e) => (Ready (Err e), s)
  | Ready Panic => (Ready Panic, s)
  | Ready (Ok filled) =>
    if 0 <? zlen filled then
      match advance_offset (offset (read s)) (zlen filled) with
      | None => (Ready (Err LimitExceeded), s)
      | Some o =>
        let '(out, c) := try_apply_keystream (dcipher (read s)) filled in
        let s' := {| read := {| dcipher := c; offset := o |}; write := write s;
                     scratch := scratch s |} in
        match out with
        | Some plain => (Ready (Ok plain), s')
        | None => (Ready (Err LimitExceeded), s')
        end
      end
    else (Ready (Ok filled), s)
  end.

(** The state after [this.write] was replaced. *)
Definition with_write (s : MaskedStream) (d : Direction) (scr : Bytes) : MaskedStream :=
  {| read := read s; write := d; scratch := scr |}.

(** [this.write.rewind()?; return r]. *)
Definition rewind_then {A} (s : MaskedStream) (r : Poll A) : Poll A * MaskedStream :=
  let '(res, d) := rewind (write s) in
  let s' := with_write s d (scratch s) in
  match res with
  | Ok _ => (r, s')
  | Err e => (Ready (Err e), s')
  | Panic => (Ready Panic, s')
  end.

(** [inner] is what the inner [poll_write] answers when it is called. *)
(* @src crates/uk-mask/src/stream.rs 142-198 MaskedStream::poll_write *)
Definition poll_write (s : MaskedStream) (buf : Bytes) (inner : Poll Z) : Poll Z * MaskedStream :=
  if zlen buf =? 0 then (Ready (Ok 0), s) else
  let tk := Z.min (zlen buf) MAX_WRITE_CHUNK in
  match advance_offset (offset (write s)) tk with
  | None => (Ready (Err LimitExceeded), s)
  | Some o =>
    let o := o - tk in
    let scr := take (Z.to_nat tk) buf in
    let '(out, c) := try_apply_keystream (dcipher (write s)) scr in
    match out with
    | None => (Ready (Err LimitExceeded), with_write s {| dcipher := c; offset := o |} scr)
    | Some masked =>
      let at_offset x := with_write s {| dcipher := c; offset := x |} masked in
      match inner with
      | Ready (Ok written) =>
        if written =? tk then (Ready (Ok tk), at_offset (o + tk))
        else if written =? 0 then rewind_then (at_offset o) (Ready (Err WroteZero))
        else rewind_then (at_offset (o + written)) (Ready (Ok written))
      | Ready (Err e) => rewind_then (at_offset o) (Ready (Err e))
      | Ready Panic => (Ready Panic, at_offset o)
      | Pending => rewind_then (at_offset o) Pending
      end
    end
  end.

(** The bytes the inner stream received in a [poll_write]: what it accepted of
    the scratch buffer it was handed.  Nothing reaches it when the call fails
    before the inner poll. *)
Definition sent (s : MaskedStream) (buf : Bytes) (inner : Poll Z) : Bytes :=
  let tk := Z.min (zlen buf) MAX_WRITE_CHUNK in
  match advance_offset (offset (write s)) tk, inner with
  | Some _, Ready (Ok written) =>
    match (try_apply_keystream (dcipher (write s)) (take (Z.to_nat tk) buf)).1 with
    | Some masked => take (Z.to_nat written) masked
    | None => []
    end
  | _, _ => []
  end.

(** A sequence of writes: the plaintext the callers were told is written, and
    the wire. *)
Fixpoint writes (s : MaskedStream) (calls : list (Bytes * Poll Z)) : Bytes * Bytes * MaskedStream :=
  match calls with
  | [] => ([], [], s)
  | (buf, inner) :: calls' =>
    let '(r, s1) := poll_write s buf inner in
    let confirmed := match r with Ready (Ok n) => take (Z.to_nat n) buf | _ => [] end in
    let '(plain, wire, s2) := writes s1 calls' in
    (confirmed ++ plain, sent s buf inner ++ wire, s2)
  end.

(** A sequence of reads: the plaintext delivered and the results. *)
Fixpoint reads (s : MaskedStream) (polls : list (Poll Bytes)) : Bytes * list (Poll Bytes) * MaskedStream :=
  match polls with
  | [] => ([], [], s)
  | inner :: polls' =>
    let '(r, s1) := poll_read s inner in
    let got := match r with Ready (Ok b) => b | _ => [] end in
    let '(plain, rs, s2) := reads s1 polls' in (got ++ plain, r :: rs, s2)
  end.
End Masked.
Arguments Pending {A}.
Arguments Ready {A} r.

(** ** Lemmas: the keystream *)

Lemma length_xor_at ks p d : length (xor_at ks p d) = length d.
Proof. revert p. induction d; intros p; simpl; [done|]. by f_equal. Qed.

Lemma xor_at_app ks p a b : xor_at ks p (a ++ b) = xor_at ks p a ++ xor_at ks (p + zlen a) b.
Proof.
  revert p. induction a as [|x a IH]; intros p; simpl; [by rewrite Z.add_0_r|].
  rewrite IH. do 3 f_equal. lia.
Qed.

Lemma xor_at_involutive ks p d : xor_at ks p (xor_at ks p d) = d.
Proof.
  revert p. induction d as [|x d IH]; intros p; simpl; [done|].
  by rewrite Z.lxor_assoc, Z.lxor_nilpotent, Z.lxor_0_r, IH.
Qed.

Lemma take_xor_at ks p n d : take n (xor_at ks p d) = xor_at ks p (take n d).
Proof.
  revert p n. induction d as [|x d IH]; intros p [|n]; simpl; [done..|]. by rewrite IH.
Qed.

Lemma bytes_ok_xor_at ks p d : (∀ p, is_u8 (ks p)) → bytes_ok d → bytes_ok (xor_at ks p d).
Proof.
  intros Hks Hd. revert p. induction Hd; intros p; simpl; constructor; [by apply u8_lxor|done].
Qed.

Section MaskedLemmas.
Context {C : ChaCha20}.

(** The cipher of a direction stands at its confirmed offset. *)
Definition direction_ok (k n : Bytes) (d : Direction) : Prop :=
  positioned k n (dcipher d) (offset d) ∧ 0 ≤ offset d ≤ STREAM_LIMIT.

(** The contract of the inner [poll_write]: it accepts no more than it was given. *)
Definition inner_write_ok (buf : Bytes) (inner : Poll Z) : Prop :=
  match inner with
  | Ready (Ok w) => 0 ≤ w ≤ Z.min (zlen buf) MAX_WRITE_CHUNK
  | Ready (Err _) | Pending => True
  | Ready Panic => False
  end.

Lemma direction_new_ok k n : direction_ok k n (direction_new k n).
Proof. split; [apply new_positioned|]. simpl. unfold STREAM_LIMIT. by split. Qed.

Lemma advance_offset_Some o n :
  0 ≤ o → 0 ≤ n → advance_offset o n = if decide (o + n ≤ STREAM_LIMIT) then Some (o + n) else None.
Proof.
  intros Ho Hn. unfold advance_offset. change STREAM_LIMIT with 274877906880. unfold U64_MAX.
  change (2 ^ 64) with 18446744073709551616.
  case_decide; destruct (Z.ltb_spec (18446744073709551616 - 1) (o + n));
    destruct (Z.leb_spec (o + n) 274877906880); (done || lia).
Qed.

(** After applying the keystream, rewinding restores any confirmed offset. *)
Lemma rewind_then_ok {A} k n s (r : Poll A) p :
  positioned k n (dcipher (write s)) p → 0 ≤ offset (write s) ≤ STREAM_LIMIT →
  ∃ s', rewind_then s r = (r, s') ∧ direction_ok k n (write s') ∧
        offset (write s') = offset (write s) ∧ read s' = read s.
Proof.
  intros Hp Ho. destruct (seek_positioned k n _ p (offset (write s)) Hp Ho) as (c' & Hs & Hc).
  unfold rewind_then, rewind. rewrite Hs. eexists. split; [done|]. split_and!; try done.
Qed.

Lemma poll_write_spec k n s buf inner r s' :
  direction_ok k n (write s) → inner_write_ok buf inner → poll_write s buf inner = (r, s') →
  direction_ok k n (write s') ∧ read s' = read s ∧
  let confirmed := match r with Ready (Ok w) => take (Z.to_nat w) buf | _ => [] end in
  sent s buf inner = xor_at (keystream k n) (offset (write s)) confirmed ∧
  offset (write s') = offset (write s) + zlen confirmed ∧
  r = (if decide (buf = []) then Ready (Ok 0)
       else if decide (offset (write s) + Z.min (zlen buf) MAX_WRITE_CHUNK ≤ STREAM_LIMIT) then
         match inner with Ready (Ok 0) => Ready (Err WroteZero) | x => x end
       else Ready (Err LimitExceeded)).
Proof.
  intros [Hpos Ho] Hin. unfold poll_write, sent.
  destruct (decide (buf = [])) as [->|Hbuf].
  { simpl. intros. simplify_eq. split_and!; try done; [|simpl; lia].
    change (Z.min (Z.of_nat 0) MAX_WRITE_CHUNK) with 0.
    rewrite advance_offset_Some, decide_True by lia. destruct inner as [|[w|e|]]; try done. simpl in Hin.
    assert (w = 0) as -> by (change (Z.min (Z.of_nat 0) MAX_WRITE_CHUNK) with 0 in Hin; lia).
    destruct (try_apply_keystream _ _).1; done. }
  assert (0 < zlen buf) as Hb by (destruct buf; [done|simpl; lia]).
  rewrite (proj2 (Z.eqb_neq (zlen buf) 0)) by lia. set (tk := Z.min (zlen buf) MAX_WRITE_CHUNK) in *.
  assert (0 < tk ≤ zlen buf) as Htk by (unfold tk, MAX_WRITE_CHUNK; lia).
  assert (match inner with Ready (Ok w) => 0 ≤ w ≤ tk | Ready Panic => False | _ => True end) as Hin'
    by (by destruct inner as [|[]]).
  clearbody tk. clear Hin.
  rewrite advance_offset_Some by lia. case_decide as Hlim.
  2: { intros. simplify_eq. split_and!; try done. simpl. lia. }
  assert (zlen (take (Z.to_nat tk) buf) = tk) as Hlt by (rewrite length_take; lia).
  destruct (apply_positioned k n (dcipher (write s)) (offset (write s)) (take (Z.to_nat tk) buf))
    as (c & Happ & Hc); [done|lia|lia|].
  rewrite Happ. cbn [fst]. set (masked := xor_at _ _ (take (Z.to_nat tk) buf)) in *.
  replace (offset (write s) + tk - tk) with (offset (write s)) by lia. rewrite Hlt in Hc.
  cbv beta zeta.
  assert (∀ A x (q : Poll A), 0 ≤ x ≤ STREAM_LIMIT →
    ∃ s', rewind_then (with_write s {| dcipher := c; offset := x |} masked) q = (q, s') ∧
          direction_ok k n (write s') ∧ offset (write s') = x ∧ read s' = read s) as Hrw.
  { intros A x q Hx.
    exact (rewind_then_ok k n (with_write s {| dcipher := c; offset := x |} masked) q _ Hc Hx). }
  destruct inner as [|[w|e|]]; try done.
  - destruct (Hrw Z (offset (write s)) Pending Ho) as (s1 & -> & ? & ? & ?). intros; simplify_eq.
    split_and!; try done. simpl. lia.
  - destruct (Z.eqb_spec w tk) as [->|Hw].
    + intros. simplify_eq. split_and!; try done; simpl; try lia.
      * split; [done|]. simpl. lia.
      * unfold masked. rewrite take_xor_at, take_take. by rewrite Nat.min_id.
      * destruct tk; try done; lia.
    + destruct (Z.eqb_spec w 0) as [->|Hw0].
      * destruct (Hrw Z (offset (write s)) (Ready (Err WroteZero)) Ho) as (s1 & -> & ? & ? & ?).
        intros; simplify_eq. split_and!; try done. simpl. lia.
      * destruct (Hrw Z (offset (write s) + w) (Ready (Ok w))) as (s1 & -> & ? & ? & ?); [lia|].
        intros; simplify_eq. split_and!; try done.
        -- unfold masked. rewrite take_xor_at, take_take. do 2 f_equal. lia.
        -- rewrite length_take. lia.
        -- destruct w; done.
  - destruct (Hrw Z (offset (write s)) (Ready (Err e)) Ho) as (s1 & -> & ? & ? & ?).
    intros; simplify_eq. split_and!; try done. simpl. lia.
Qed.

Definition calls_ok (calls : list (Bytes * Poll Z)) : Prop :=
  Forall (λ '(buf, inner), inner_write_ok buf inner) calls.

Lemma writes_spec k n calls s plain wire s' :
  direction_ok k n (write s) → calls_ok calls → writes s calls = (plain, wire, s') →
  direction_ok k n (write s') ∧ read s' = read s ∧
  wire = xor_at (keystream k n) (offset (write s)) plain ∧
  offset (write s') = offset (write s) + zlen plain.
Proof.
  intros Hd Hc. revert s plain wire s' Hd.
  induction Hc as [|[buf inner] calls Hin Hc IH]; intros s plain wire s' Hd Hrun; simpl in Hrun.
  { simplify_eq. split_and!; try done. simpl. lia. }
  destruct (poll_write s buf inner) as [r s1] eqn:Hp.
  destruct (poll_write_spec k n s buf inner r s1 Hd Hin Hp) as (Hd1 & Hr1 & Hs1 & Ho1 & _).
  destruct (writes s1 calls) as [[plain1 wire1] s2] eqn:Hw. simplify_eq.
  destruct (IH s1 plain1 wire1 s' Hd1 Hw) as (Hd2 & Hr2 & Hw2 & Ho2).
  split_and!; [done|congruence| |].
  - by rewrite xor_at_app, Hs1, Hw2, Ho1.
  - rewrite Ho2, Ho1, length_app. lia.
Qed.

(** The bytes the inner stream delivered over a sequence of polls. *)
Definition delivered (polls : list (Poll Bytes)) : Bytes :=
  concat ((λ p, match p with Ready (Ok b) => b | _ => [] end) <$> polls).

Lemma poll_read_spec k n s inner r s' :
  direction_ok k n (read s) → poll_read s inner = (r, s') →
  let data := match inner with Ready (Ok b) => b | _ => [] end in
  offset (read s) + zlen data ≤ STREAM_LIMIT →
  direction_ok k n (read s') ∧ offset (read s') = offset (read s) + zlen data ∧
  write s' = write s ∧
  r = match inner with
      | Ready (Ok b) => Ready (Ok (xor_at (keystream k n) (offset (read s)) b))
      | x => x
      end.
Proof.
  intros [Hpos Ho] Hp data Hlim. unfold poll_read in Hp.
  destruct inner as [|[b|e|]]; simplify_eq; try (split_and!; try done; simpl; lia).
  unfold data in *. destruct (Z.ltb_spec 0 (zlen b)).
  - rewrite advance_offset_Some, decide_True in Hp by lia.
    destruct (apply_positioned k n (dcipher (read s)) (offset (read s)) b Hpos) as (c & Hc & Hpc); [lia|lia|].
    rewrite Hc in Hp. simplify_eq. split_and!; try done. split; [done|]. simpl. lia.
  - destruct b; [|simpl in *; lia]. simplify_eq. split_and!; try done. simpl. lia.
Qed.

Lemma reads_spec k n polls s plain rs s' :
  direction_ok k n (read s) → reads s polls = (plain, rs, s') →
  offset (read s) + zlen (delivered polls) ≤ STREAM_LIMIT →
  plain = xor_at (keystream k n) (offset (read s)) (delivered polls) ∧ write s' = write s.
Proof.
  revert s plain rs. induction polls as [|inner polls IH]; intros s plain rs Hd Hrun Hlim; simpl in Hrun.
  { by simplify_eq. }
  destruct (poll_read s inner) as [r s1] eqn:Hp.
  destruct (reads s1 polls) as [[plain1 rs1] s2] eqn:Hr. simplify_eq.
  unfold delivered in *. cbn [fmap list_fmap concat] in *. rewrite length_app in Hlim.
  destruct (poll_read_spec k n s inner r s1 Hd Hp) as (Hd1 & Ho1 & Hw1 & ->); [lia|].
  destruct (IH s1 plain1 rs1 Hd1 Hr) as [-> Hw]; [lia|]. rewrite Ho1, xor_at_app. split; [|congruence].
  f_equal. by destruct inner as [|[]].
Qed.
End MaskedLemmas.

(** ** Theorems *)

(** A masked stream delivers what was confirmed as written.  Whatever
    buffers the sender submits, however often the inner stream takes only part
    of a chunk, fails or is pending, and whatever the caller submits next, the
    bytes on the wire are the confirmed plaintext under one keystream; a
    receiver with the same keys and nonce, reading them in any chunks, gets
    exactly that plaintext, in either direction. *)
Theorem masked_stream_roundtrip {C : ChaCha20} keys nonce tx rx calls plain wire tx' polls got rs rx' :
  (tx = new_client keys nonce ∧ rx = new_server keys nonce) ∨
  (tx = new_server keys nonce ∧ rx = new_client keys nonce) →
  calls_ok calls → writes tx calls = (plain, wire, tx') →
  delivered polls `prefix_of` wire → reads rx polls = (got, rs, rx') →
  got `prefix_of` plain ∧ zlen got = zlen (delivered polls) ∧ (delivered polls = wire → got = plain) ∧
  zlen wire = zlen plain ∧ zlen plain ≤ STREAM_LIMIT ∧ offset (write tx') = zlen plain.
Proof.
  intros Hends Hcalls Hw [rest Hrest] Hr.
  assert (∃ k, direction_ok k nonce (write tx) ∧ direction_ok k nonce (read rx) ∧
               offset (write tx) = 0 ∧ offset (read rx) = 0) as (k & Htx & Hrx & Hot & Hor).
  { destruct Hends as [[-> ->]|[-> ->]]; eexists; (split_and!; [apply direction_new_ok..| |]); done. }
  destruct (writes_spec k nonce calls tx plain wire tx' Htx Hcalls Hw) as ([_ Hlim] & _ & Hwire & Hoff).
  rewrite Hot in *. rewrite Z.add_0_l in Hoff.
  assert (zlen wire = zlen plain) as Hlw by (by rewrite Hwire, length_xor_at).
  assert (zlen (delivered polls) ≤ zlen wire) as Hld by (rewrite Hrest, length_app; lia).
  destruct (reads_spec k nonce polls rx got rs rx' Hrx Hr) as [Hgot _]; [lia|]. rewrite Hor in Hgot.
  assert (plain = got ++ xor_at (keystream k nonce) (zlen (delivered polls)) rest) as Hplain.
  { rewrite <- (xor_at_involutive (keystream k nonce) 0 plain), <- Hwire, Hrest, xor_at_app, Hgot.
    by rewrite Z.add_0_l. }
  split_and!; try lia.
  - rewrite Hplain. by apply prefix_app_r.
  - by rewrite Hgot, length_xor_at.
  - intros Hall. rewrite Hall in Hrest. rewrite <- (app_nil_r wire) in Hrest at 1.
    apply app_inv_head in Hrest as <-. by rewrite Hplain, app_nil_r.
Qed.

(** What a caller of [poll_write] sees is what the inner stream answered,
    except that a zero-byte write of a non-empty buffer is [WriteZero] and that
    a write past the per-direction limit is refused without touching the inner
    stream; rewinding the keystream never fails, and the confirmed offset moves
    by exactly the number of bytes reported. *)
Theorem masked_write_transparent {C : ChaCha20} wk rk nonce calls plain wire s buf inner r s' :
  calls_ok calls → writes (stream_new wk rk nonce) calls = (plain, wire, s) →
  inner_write_ok buf inner → poll_write s buf inner = (r, s') →
  r = (if decide (buf = []) then Ready (Ok 0)
       else if decide (zlen plain + Z.min (zlen buf) MAX_WRITE_CHUNK ≤ STREAM_LIMIT) then
         match inner with Ready (Ok 0) => Ready (Err WroteZero) | x => x end
       else Ready (Err LimitExceeded)) ∧
  offset (write s') = zlen plain + match r with Ready (Ok w) => w | _ => 0 end ∧
  ((∀ w, r ≠ Ready (Ok w)) → sent s buf inner = []).
Proof.
  intros Hcalls Hw Hin Hp.
  destruct (writes_spec wk nonce calls (stream_new wk rk nonce) plain wire s) as (Hd & _ & _ & Ho);
    [apply direction_new_ok|done|done|].
  change (offset (write (stream_new wk rk nonce))) with 0 in Ho. rewrite Z.add_0_l in Ho.
  destruct (poll_write_spec wk nonce s buf inner r s' Hd Hin Hp) as (_ & _ & Hs & Ho' & Hr).
  rewrite Ho in *. split; [exact Hr|]. split.
  - rewrite Ho'. f_equal. rewrite Hr. case_decide; [by subst|]. case_decide; [|done].
    destruct inner as [|[w|e|]]; try done. simpl in Hin. destruct w; try done; rewrite length_take; lia.
  - intros Hno. rewrite Hs. by destruct r as [|[w|e|]]; [|destruct (Hno w)|..].
Qed.

(** ** Witnesses *)

Definition demo_keystream (k n : Bytes) (p : Z) : Z :=
  (foldl (λ acc b, acc * 33 + b) 5381 (k ++ n) + p * p + 17 * p) mod 256.

#[local] Instance demo_chacha : ChaCha20.
Proof.
  refine {| cipher := Bytes * Bytes * Z;
            cipher_new := λ k n, (k, n, 0);
            try_apply_keystream := λ '(k, n, p) d,
              (Some (xor_at (demo_keystream k n) p d), (k, n, p + zlen d));
            try_seek := λ '(k, n, _) q, (true, (k, n, q));
            keystream := demo_keystream;
            positioned := λ k n c p, c = (k, n, p) |}.
  - intros. by apply Z.mod_pos_bound.
  - done.
  - intros k n c p d -> _ _. by eexists.
  - intros k n c p q -> _. by eexists.
Defined.

Definition demo_mask_keys : MaskKeys :=
  {| auth_key := [1]; prelude_mask_key := [2]; tcp_c2s := [3]; tcp_s2c := [4]; udp_c2s := [5];
     udp_s2c := [6] |}.

(** A partial write, a pending one, a retry with other bytes. *)
Definition demo_calls : list (Bytes * Poll Z) :=
  [([10; 11; 12], Ready (Ok 2)); ([12; 13], Pending); ([99; 13], Ready (Ok 2))].

Lemma demo_calls_ok : calls_ok demo_calls.
Proof. unfold calls_ok, demo_calls. rewrite !Forall_cons. split_and!; done. Qed.

Definition demo_wire : Bytes := (writes (new_client demo_mask_keys [7]) demo_calls).1.2.

End Stream.
