(* ===== verification/MaskUdp.v ===== *)
(** * MaskUdp: masked QUIC datagrams (crates/uk-mask/src/udp.rs)

    The nonce generator, masking and unmasking of segments, the send path with
    its GSO segments, and the receive path with its ingress filter and batch
    loop.  quinn's socket is outside: what its polls deliver is an argument.
    The versions quinn supports and the operating system's random bytes are
    parameters. *)

From S2P Require Import Prelude Wire RustStd Mask MaskStream.

Module Udp.
Import Mask.

(* @src crates/uk-mask/src/udp.rs 45-46 UDP_SEGMENT_OVERHEAD *)
Definition UDP_SEGMENT_OVERHEAD : Z := Z.of_nat NONCE_LEN.

(* @src crates/uk-mask/src/udp.rs 48-56 UdpRole *)
Inductive UdpRole : Set := Client | Server.

(* @src crates/uk-mask/src/udp.rs 67-68 NONCE_BUFFER_LEN *)
Definition NONCE_BUFFER_LEN : Z := 4096.
(* @src crates/uk-mask/src/udp.rs 69-70 NONCE_RESEED_BYTES *)
Definition NONCE_RESEED_BYTES : Z := Z.shiftl 1 32.

(** [slice::chunks(n)], [n > 0]: pieces of [n] elements, the last one possibly
    shorter.  The length is enough fuel. *)
Fixpoint chunks_fuel (fuel : nat) (n : nat) (l : Bytes) : list Bytes :=
  match fuel, l with
  | S f, _ :: _ => take n l :: chunks_fuel f n (drop n l)
  | _, _ => []
  end.
Definition chunks (n : Z) (l : Bytes) : list Bytes := chunks_fuel (length l) (Z.to_nat n) l.

(** The errors of the sockets: the wrapper's own and the inner socket's. *)
Inductive UdpError : Set :=
  | EmptyReceiveBuffers
  | ZeroSegmentSize
  | InnerSocket (code : Z).

(** [quinn::udp::RecvMeta]; the address, ECN and destination are copied. *)
Record RecvMeta : Set := { addr : SocketAddr; len : Z; stride : Z; ecn : option Z; dst_ip : option IpAddr }.

(** [quinn::udp::Transmit]. *)
Record Transmit : Set := {
  destination : SocketAddr;
  t_ecn : option Z;
  contents : Bytes;
  segment_size : option Z;
  src_ip : option IpAddr
}.

Section Socket.
Context {C : ChaCha20} (os_rng : nat → Bytes) (supported_versions : list Z).

(** [os_draws] counts the seeds drawn from the operating system. *)
(* @src crates/uk-mask/src/udp.rs 58-65 NonceGenerator *)
Record NonceGenerator : Type := {
  ng_cipher : cipher;
  buffer : Bytes;
  position : Z;
  generated : Z;
  os_draws : nat
}.

(* @src crates/uk-mask/src/udp.rs 73-82 NonceGenerator::new *)
Definition nonces_new (seed : Bytes) : NonceGenerator :=
  {| ng_cipher := cipher_new seed (replicate NONCE_LEN 0);
     buffer := replicate (Z.to_nat NONCE_BUFFER_LEN) 0;
     position := NONCE_BUFFER_LEN; generated := 0; os_draws := 0 |}.

(** The refill; note that the keystream is XORed into the previous buffer. *)
(* @src crates/uk-mask/src/udp.rs 84-102 NonceGenerator::next *)
Definition nonces_next (g : NonceGenerator) : result UdpError (Bytes * NonceGenerator) :=
  let? g :=
    (if NONCE_BUFFER_LEN <? position g + Z.of_nat NONCE_LEN then
       let g :=
         if NONCE_RESEED_BYTES <=? generated g then
           {| ng_cipher := cipher_new (os_rng (os_draws g)) (replicate NONCE_LEN 0);
              buffer := buffer g; position := position g; generated := 0;
              os_draws := S (os_draws g) |}
         else g in
       match try_apply_keystream (ng_cipher g) (buffer g) with
       | (Some buf, c) =>
         Ok {| ng_cipher := c; buffer := buf; position := 0;
               generated := generated g + NONCE_BUFFER_LEN; os_draws := os_draws g |}
       | (None, _) => Panic
       end
     else Ok g) in
  Ok (take NONCE_LEN (drop (Z.to_nat (position g)) (buffer g)),
      {| ng_cipher := ng_cipher g; buffer := buffer g; position := position g + Z.of_nat NONCE_LEN;
         generated := generated g; os_draws := os_draws g |}).

(** The socket without the inner one and without the scratch buffers, which
    every operation clears or overwrites before it uses them. *)
(* @src crates/uk-mask/src/udp.rs 114-122 MaskedUdpSocket *)
Record MaskedUdpSocket : Type := {
  send_key : Bytes;
  recv_key : Bytes;
  server_filter : bool;
  nonces : NonceGenerator
}.

(* @src crates/uk-mask/src/udp.rs 151-171 MaskedUdpSocket::new *)
Definition socket_new (send_key recv_key : Bytes) (role : UdpRole) (seed : Bytes) : MaskedUdpSocket :=
  {| send_key := send_key; recv_key := recv_key;
     server_filter := match role with Server => true | Client => false end;
     nonces := nonces_new seed |}.

(* @src crates/uk-mask/src/udp.rs 133-140 MaskedUdpSocket::new_client *)
Definition new_client (keys : MaskKeys) (seed : Bytes) : MaskedUdpSocket :=
  socket_new (udp_c2s keys) (udp_s2c keys) Client seed.

(* @src crates/uk-mask/src/udp.rs 142-149 MaskedUdpSocket::new_server *)
Definition new_server (keys : MaskKeys) (seed : Bytes) : MaskedUdpSocket :=
  socket_new (udp_s2c keys) (udp_c2s keys) Server seed.

(* @src crates/uk-mask/src/udp.rs 179-187 MaskedUdpSocket::mask_segment *)
Definition mask_segment (s : MaskedUdpSocket) (scratch plaintext nonce : Bytes)
    : result UdpError Bytes :=
  match (try_apply_keystream (cipher_new (send_key s) nonce) plaintext).1 with
  | Some masked => Ok (scratch ++ nonce ++ masked)
  | None => Panic
  end.

(** [None]: too short to carry a nonce; otherwise [out] extended by the segment. *)
(* @src crates/uk-mask/src/udp.rs 189-209 MaskedUdpSocket::unmask_segment *)
Definition unmask_segment (s : MaskedUdpSocket) (segment out : Bytes)
    : result UdpError (option Bytes) :=
  if zlen segment <=? Z.of_nat NONCE_LEN then Ok None else
  let nonce := take NONCE_LEN segment in
  let payload := drop NONCE_LEN segment in
  match (try_apply_keystream (cipher_new (recv_key s) nonce) payload).1 with
  | Some plain => Ok (Some (out ++ plain))
  | None => Panic
  end.

(* @src crates/uk-mask/src/udp.rs 222-238 supported_quic_packet *)
Definition supported_quic_packet (packet : Bytes) : bool :=
  match packet with
  | [] => false
  | b0 :: _ =>
    if Z.land b0 0x80 =? 0 then true
    else if zlen packet <? 5 then false
    else bool_decide (be_decode (take 4 (drop 1 packet)) ∈ supported_versions)
  end.

(** The loop over the GSO segments. *)
Fixpoint mask_segments (s : MaskedUdpSocket) (g : NonceGenerator) (scratch : Bytes)
    (segments : list Bytes) : result UdpError (Bytes * NonceGenerator) :=
  match segments with
  | [] => Ok (scratch, g)
  | segment :: rest =>
    let? '(nonce, g) := nonces_next g in
    let? scratch := mask_segment s scratch segment nonce in
    mask_segments s g scratch rest
  end.

(** The [Transmit] handed to the inner socket.  The locks are never poisoned,
    since nothing panics while one is held. *)
(* @src crates/uk-mask/src/udp.rs 245-283 MaskedUdpSocket::try_send *)
Definition try_send (s : MaskedUdpSocket) (t : Transmit) : result UdpError (Transmit * MaskedUdpSocket) :=
  let? '(scratch, g, wire_segment_size) :=
    match segment_size t with
    | None =>
      let? '(nonce, g) := nonces_next (nonces s) in
      let? scratch := mask_segment s [] (contents t) nonce in
      Ok (scratch, g, None)
    | Some size =>
      if size =? 0 then Err ZeroSegmentSize else
      let? '(scratch, g) := mask_segments s (nonces s) [] (chunks size (contents t)) in
      Ok (scratch, g, Some (size + UDP_SEGMENT_OVERHEAD))
    end in
  Ok ({| destination := destination t; t_ecn := t_ecn t; contents := scratch;
         segment_size := wire_segment_size; src_ip := src_ip t |},
      {| send_key := send_key s; recv_key := recv_key s; server_filter := server_filter s;
         nonces := g |}).

(** The loop over the segments of one received datagram. *)
Fixpoint unmask_segments (s : MaskedUdpSocket) (decoded : Bytes) (segments : list Bytes)
    : result UdpError Bytes :=
  match segments with
  | [] => Ok decoded
  | segment :: rest =>
    let? o := unmask_segment s segment decoded in
    match o with
    | None => unmask_segments s decoded rest
    | Some decoded' =>
      if server_filter s && negb (supported_quic_packet (drop (length decoded) decoded'))
      then unmask_segments s decoded rest
      else unmask_segments s decoded' rest
    end
  end.

(** The loop over the received slots.  [bufs] are the lengths of the caller's
    buffers, [metas] the number of its metadata slots, [out] what was produced:
    the filled part of each buffer with its metadata.  Indexing past the
    caller's buffers or metadata panics. *)
(* @src crates/uk-mask/src/udp.rs 337-372 MaskedUdpSocket::poll_recv *)
Fixpoint recv_batch (s : MaskedUdpSocket) (bufs : list Z) (metas : nat)
    (out : list (Bytes * RecvMeta)) (received : list (RecvMeta * Bytes))
    : result UdpError (list (Bytes * RecvMeta)) :=
  match received with
  | [] => Ok out
  | (wire_meta, slot) :: rest =>
    let wire_len := Z.min (len wire_meta) (zlen slot) in
    let wire := take (Z.to_nat wire_len) slot in
    if bool_decide (wire = []) || (stride wire_meta <=? UDP_SEGMENT_OVERHEAD)
    then recv_batch s bufs metas out rest else
    let? decoded := unmask_segments s [] (chunks (stride wire_meta) wire) in
    if bool_decide (decoded = []) then recv_batch s bufs metas out rest else
    match bufs !! length out with
    | None => Panic
    | Some buf_len =>
      if buf_len <? zlen decoded then recv_batch s bufs metas out rest
      else if (length out <? metas)%nat then
        let meta :=
          {| addr := addr wire_meta; len := zlen decoded;
             stride := Z.min (stride wire_meta - UDP_SEGMENT_OVERHEAD) (zlen decoded);
             ecn := ecn wire_meta; dst_ip := dst_ip wire_meta |} in
        recv_batch s bufs metas (out ++ [(decoded, meta)]) rest
      else Panic
    end
  end.

(** What successive polls of the inner socket answer; when they run out it is
    pending. *)
Inductive InnerRecv : Type :=
  | RecvPending
  | RecvErr (code : Z)
  | RecvOk (received : list (RecvMeta * Bytes)).

Inductive RecvPoll : Type :=
  | Pending
  | Ready (r : result UdpError (list (Bytes * RecvMeta))).

(* @src crates/uk-mask/src/udp.rs 285-380 MaskedUdpSocket::poll_recv *)
Fixpoint poll_recv_loop (s : MaskedUdpSocket) (bufs : list Z) (metas : nat) (inner : list InnerRecv)
    : RecvPoll :=
  match inner with
  | [] | RecvPending :: _ => Pending
  | RecvErr e :: _ => Ready (Err (InnerSocket e))
  | RecvOk received :: inner' =>
    match recv_batch s bufs metas [] received with
    | Ok [] => poll_recv_loop s bufs metas inner'
    | r => Ready r
    end
  end.

(* @src crates/uk-mask/src/udp.rs 285-296 MaskedUdpSocket::poll_recv *)
Definition poll_recv (s : MaskedUdpSocket) (bufs : list Z) (metas : nat) (inner : list InnerRecv)
    : RecvPoll :=
  if bool_decide (bufs = []) || (metas =? 0)%nat then Ready (Err EmptyReceiveBuffers)
  else poll_recv_loop s bufs metas inner.

(** The sizes of the scratch slots handed to the inner socket: at least the
    caller's buffer plus the overhead of every segment it may hold. *)
(* @src crates/uk-mask/src/udp.rs 311-322 MaskedUdpSocket::poll_recv *)
Definition grow_slots (slots bufs : list Z) (max_segments : Z) : list Z :=
  let slots := slots ++ replicate (length bufs - length slots) 0 in
  zip_with (λ slot buf, Z.max slot (buf + UDP_SEGMENT_OVERHEAD * max_segments)) slots bufs
  ++ drop (length bufs) slots.
End Socket.

(** [apply_masked_mtu]: the upper bound of MTU discovery. *)
(* @src crates/uk-mask/src/udp.rs 212-220 apply_masked_mtu *)
Definition masked_mtu_upper_bound : Z := 1452 - UDP_SEGMENT_OVERHEAD.

(** ** Lemmas: chunks *)

(** A list of pieces of [m] elements, the last one possibly shorter. *)
Fixpoint pieces (m : Z) (ps : list Bytes) : Prop :=
  match ps with
  | [] => True
  | [p] => 0 < zlen p ≤ m
  | p :: ps' => zlen p = m ∧ pieces m ps'
  end.

Lemma pieces_cons m p ps :
  0 < m → pieces m (p :: ps) ↔ 0 < zlen p ≤ m ∧ (ps ≠ [] → zlen p = m) ∧ pieces m ps.
Proof. intros Hm. destruct ps; simpl; [naive_solver|]. naive_solver lia. Qed.

Lemma chunks_fuel_pieces fuel m l :
  0 < m → (length l ≤ fuel)%nat →
  pieces m (chunks_fuel fuel (Z.to_nat m) l) ∧ concat (chunks_fuel fuel (Z.to_nat m) l) = l.
Proof.
  intros Hm. revert l. induction fuel as [|f IH]; intros l Hl.
  { destruct l; [done|simpl in Hl; lia]. }
  destruct l as [|b l]; [done|]. cbn [chunks_fuel]. set (l' := b :: l) in *.
  assert (0 < zlen l') as Hpos by (simpl; lia).
  destruct (IH (drop (Z.to_nat m) l')) as [Hp Hc]; [rewrite length_drop; lia|].
  cbn [concat]. rewrite Hc, take_drop. split; [|done]. apply pieces_cons; [done|].
  rewrite length_take. split_and!; [lia|lia| |done]. intros Hne.
  destruct (decide (zlen l' <= m)); [|lia]. destruct Hne.
  rewrite drop_ge by lia. by destruct f.
Qed.

Lemma pieces_unique m ps qs :
  0 < m → pieces m ps → pieces m qs → concat ps = concat qs → ps = qs.
Proof.
  intros Hm. revert qs. induction ps as [|p ps IH]; intros [|q qs] Hp Hq Hc; [done|..].
  - apply pieces_cons in Hq as (Hq & _); [|done]. simpl in Hc. destruct q; [simpl in Hq; lia|done].
  - apply pieces_cons in Hp as (Hp & _); [|done]. simpl in Hc. destruct p; [simpl in Hp; lia|done].
  - apply pieces_cons in Hp as (Hp & Hpm & Hps), Hq as (Hq & Hqm & Hqs); [|done..].
    assert (length p = length q) as Hl.
    { pose proof (f_equal length Hc) as Hlen. simpl in Hlen. rewrite !length_app in Hlen.
      destruct ps as [|p' ps], qs as [|q' qs]; simpl in Hlen.
      - lia.
      - specialize (Hqm ltac:(done)). apply pieces_cons in Hqs as (? & _); [|done].
        rewrite length_app in Hlen. lia.
      - specialize (Hpm ltac:(done)). apply pieces_cons in Hps as (? & _); [|done].
        rewrite length_app in Hlen. lia.
      - specialize (Hpm ltac:(done)). specialize (Hqm ltac:(done)). lia. }
    simpl in Hc. apply app_inj_1 in Hc as [-> Hc]; [|done]. f_equal. by apply IH.
Qed.

Lemma chunks_pieces m l : 0 < m → pieces m (chunks m l) ∧ concat (chunks m l) = l.
Proof. intros Hm. by apply chunks_fuel_pieces. Qed.

Lemma chunks_concat m ps : 0 < m → pieces m ps → chunks m (concat ps) = ps.
Proof.
  intros Hm Hp. destruct (chunks_pieces m (concat ps) Hm) as [Hc He]. by eapply pieces_unique.
Qed.

(** ** Lemmas: the nonce generator *)

Section Lemmas.
Context {C : ChaCha20} (os_rng : nat → Bytes) (supported_versions : list Z).

Definition generator_ok (g : NonceGenerator) : Prop :=
  (∃ seed, positioned seed (replicate NONCE_LEN 0) (ng_cipher g) (generated g)) ∧
  0 ≤ generated g ≤ NONCE_RESEED_BYTES + NONCE_BUFFER_LEN ∧
  zlen (buffer g) = NONCE_BUFFER_LEN ∧ 0 ≤ position g ≤ NONCE_BUFFER_LEN.

Lemma nonces_new_ok seed : generator_ok (nonces_new seed).
Proof.
  split; [exists seed; apply new_positioned|]. by split_and!.
Qed.

(** The reseed keeps the generator far below the cipher's limit, so its
    [expect] cannot fire. *)
Lemma nonces_next_ok g :
  generator_ok g → ∃ n g', nonces_next os_rng g = Ok (n, g') ∧ length n = NONCE_LEN ∧ generator_ok g'.
Proof.
  intros ([seed Hseed] & Hgen & Hbuf & Hpos). unfold nonces_next.
  change NONCE_BUFFER_LEN with 4096 in *. change NONCE_RESEED_BYTES with 4294967296 in *.
  change (Z.of_nat NONCE_LEN) with 12.
  destruct (Z.ltb_spec 4096 (position g + 12)).
  - set (g1 := if 4294967296 <=? generated g then _ else g).
    assert ((∃ seed, positioned seed (replicate NONCE_LEN 0) (ng_cipher g1) (generated g1)) ∧
            0 ≤ generated g1 < 4294967296 ∧ buffer g1 = buffer g) as ([seed1 Hs1] & Hg1 & Hb1).
    { unfold g1. destruct (Z.leb_spec 4294967296 (generated g)).
      - split; [eexists; apply new_positioned|]. simpl. split; [lia|done].
      - split; [by exists seed|]. split; [lia|done]. }
    clearbody g1. rewrite Hb1.
    destruct (apply_positioned seed1 _ (ng_cipher g1) (generated g1) (buffer g) Hs1) as (c & -> & Hc).
    { lia. }
    { change STREAM_LIMIT with 274877906880. lia. }
    rewrite Hbuf in Hc. cbn [rbind]. eexists _, _. split; [done|]. cbn [buffer position].
    rewrite length_take, length_drop, Stream.length_xor_at. split; [unfold NONCE_LEN; lia|].
    split; [by exists seed1|]. cbn [generated buffer position].
    change NONCE_BUFFER_LEN with 4096. change NONCE_RESEED_BYTES with 4294967296.
    rewrite Stream.length_xor_at. lia.
  - cbn [rbind]. eexists _, _. split; [done|]. rewrite length_take, length_drop.
    split; [unfold NONCE_LEN; lia|]. split; [by exists seed|]. cbn [generated buffer position].
    change NONCE_BUFFER_LEN with 4096. change NONCE_RESEED_BYTES with 4294967296. lia.
Qed.

(** ** Lemmas: masking and unmasking *)

(** One segment on the wire. *)
Definition masked (key nonce segment : Bytes) : Bytes :=
  nonce ++ xor_at (keystream key nonce) 0 segment.

Lemma mask_segment_eq s scratch p n :
  zlen p ≤ STREAM_LIMIT → mask_segment s scratch p n = Ok (scratch ++ masked (send_key s) n p).
Proof.
  intros Hp. unfold mask_segment.
  destruct (apply_positioned (send_key s) n (cipher_new (send_key s) n) 0 p) as (c & -> & _);
    [apply new_positioned|lia|lia|done].
Qed.

Lemma unmask_segment_eq s n p out :
  length n = NONCE_LEN → 0 < zlen p ≤ STREAM_LIMIT →
  unmask_segment s (masked (recv_key s) n p) out = Ok (Some (out ++ p)).
Proof.
  intros Hn Hp. unfold unmask_segment, masked.
  rewrite length_app, Stream.length_xor_at, Hn, (proj2 (Z.leb_gt _ _)) by lia.
  rewrite take_app_length', drop_app_length' by done.
  destruct (apply_positioned (recv_key s) n (cipher_new (recv_key s) n) 0
              (xor_at (keystream (recv_key s) n) 0 p)) as (c & -> & _);
    [apply new_positioned|lia|rewrite Stream.length_xor_at; lia|].
  cbn [fst]. by rewrite Stream.xor_at_involutive.
Qed.

Lemma mask_segments_ok s g scratch segs :
  generator_ok g → Forall (λ p, zlen p ≤ STREAM_LIMIT) segs →
  ∃ ns g', mask_segments os_rng s g scratch segs
             = Ok (scratch ++ concat (zip_with (masked (send_key s)) ns segs), g') ∧
    length ns = length segs ∧ Forall (λ n, length n = NONCE_LEN) ns ∧ generator_ok g'.
Proof.
  intros Hg Hs. revert g scratch Hg. induction Hs as [|p segs Hp Hs IH]; intros g scratch Hg.
  { exists [], g. cbn. by rewrite app_nil_r. }
  destruct (nonces_next_ok g Hg) as (n & g1 & Hn & Hl & Hg1).
  destruct (IH g1 (scratch ++ masked (send_key s) n p) Hg1) as (ns & g2 & Hm & Hln & Hfn & Hg2).
  exists (n :: ns), g2. cbn [mask_segments]. rewrite Hn. cbn [rbind].
  rewrite mask_segment_eq by done. cbn [rbind]. rewrite Hm. cbn [zip_with concat].
  split_and!; [by rewrite <- app_assoc|simpl; lia|by constructor|done].
Qed.

(** What the ingress filter lets through. *)
Definition passes (s : MaskedUdpSocket) (segment : Bytes) : bool :=
  negb (server_filter s) || supported_quic_packet supported_versions segment.

Lemma unmask_segments_masked s ns segs out :
  length ns = length segs → Forall (λ n, length n = NONCE_LEN) ns →
  Forall (λ p, 0 < zlen p ≤ STREAM_LIMIT) segs →
  unmask_segments supported_versions s out (zip_with (masked (recv_key s)) ns segs)
  = Ok (out ++ concat (filter (λ p, passes s p = true) segs)).
Proof.
  intros Hl Hn Hs. revert ns out Hl Hn.
  induction Hs as [|p segs Hp Hs IH]; intros [|n ns] out Hl Hn; try done.
  { by rewrite app_nil_r. }
  apply Forall_cons in Hn as [Hn1 Hn]. injection Hl as Hl. cbn [zip_with unmask_segments].
  rewrite unmask_segment_eq by done. cbn [rbind]. rewrite drop_app_length. rewrite filter_cons.
  replace (server_filter s && negb (supported_quic_packet supported_versions p))
    with (negb (passes s p))
    by (unfold passes; by destruct (server_filter s), (supported_quic_packet _ _)).
  destruct (passes s p) eqn:Hpass; cbn [negb]; rewrite IH by done.
  - rewrite decide_True by done. cbn [concat]. by rewrite app_assoc.
  - by rewrite decide_False.
Qed.

Lemma masked_pieces key m ns segs :
  0 < m → length ns = length segs → Forall (λ n, length n = NONCE_LEN) ns → pieces m segs →
  pieces (m + UDP_SEGMENT_OVERHEAD) (zip_with (masked key) ns segs).
Proof.
  intros Hm Hl Hn. assert (0 < m + UDP_SEGMENT_OVERHEAD) by (unfold UDP_SEGMENT_OVERHEAD; lia).
  revert ns Hl Hn. induction segs as [|p segs IH]; intros [|n ns] Hl Hn Hp; try done.
  apply Forall_cons in Hn as [Hn1 Hn]. injection Hl as Hl.
  apply pieces_cons in Hp as (Hp & Hpm & Hps); [|done]. cbn [zip_with].
  assert (zlen (masked key n p) = zlen p + UDP_SEGMENT_OVERHEAD) as Hlen.
  { unfold masked, UDP_SEGMENT_OVERHEAD. rewrite length_app, Stream.length_xor_at, Hn1. lia. }
  apply pieces_cons; [done|]. rewrite Hlen. split_and!; [unfold UDP_SEGMENT_OVERHEAD; lia|lia| |by apply IH].
  intros Hne. rewrite Hpm; [done|]. intros ->. by destruct ns.
Qed.

(** The segments of a transmit, and their size. *)
Definition segments (t : Transmit) : list Bytes :=
  match segment_size t with None => [contents t] | Some m => chunks m (contents t) end.
Definition stride_of (t : Transmit) : Z := default (zlen (contents t)) (segment_size t).

Definition transmit_ok (t : Transmit) : Prop :=
  contents t ≠ [] ∧ zlen (contents t) ≤ STREAM_LIMIT ∧ ∀ m, segment_size t = Some m → 0 < m.

Lemma segments_ok t :
  transmit_ok t → 0 < stride_of t ∧ pieces (stride_of t) (segments t) ∧
  concat (segments t) = contents t ∧ Forall (λ p, 0 < zlen p ≤ STREAM_LIMIT) (segments t).
Proof.
  intros (Hc & Hl & Hm). assert (0 < zlen (contents t)) by (destruct (contents t); [done|simpl; lia]).
  unfold stride_of, segments. destruct (segment_size t) as [m|]; cbn [default].
  - specialize (Hm m eq_refl). destruct (chunks_pieces m (contents t) Hm) as [Hp He].
    split_and!; [done|done|done|]. assert (zlen (concat (chunks m (contents t))) ≤ STREAM_LIMIT) as Hs
      by (by rewrite He). clear He. revert Hp Hs.
    generalize (chunks m (contents t)) as ps. induction ps as [|p ps IH]; intros Hp Hs; [done|].
    apply pieces_cons in Hp as (Hp & _ & Hps); [|done]. cbn [concat] in Hs. rewrite length_app in Hs.
    constructor; [lia|]. apply IH; [done|lia].
  - split_and!; [done|simpl; lia|cbn; apply app_nil_r|]. constructor; [lia|done].
Qed.

Lemma try_send_ok s t :
  generator_ok (nonces s) → transmit_ok t →
  ∃ ns g', try_send os_rng s t =
    Ok ({| destination := destination t; t_ecn := t_ecn t;
           contents := concat (zip_with (masked (send_key s)) ns (segments t));
           segment_size := (λ m, m + UDP_SEGMENT_OVERHEAD) <$> segment_size t; src_ip := src_ip t |},
        {| send_key := send_key s; recv_key := recv_key s; server_filter := server_filter s;
           nonces := g' |}) ∧
    length ns = length (segments t) ∧ Forall (λ n, length n = NONCE_LEN) ns ∧ generator_ok g'.
Proof.
  intros Hg Ht. pose proof (segments_ok t Ht) as (_ & _ & _ & Hsegs).
  assert (Forall (λ p, zlen p ≤ STREAM_LIMIT) (segments t)) as Hsz
    by (eapply Forall_impl; [exact Hsegs|]; simpl; lia).
  destruct Ht as (_ & _ & Hm). unfold try_send, segments in *. destruct (segment_size t) as [m|].
  - rewrite (proj2 (Z.eqb_neq m 0)) by (specialize (Hm m eq_refl); lia).
    destruct (mask_segments_ok s (nonces s) [] (chunks m (contents t)) Hg Hsz) as (ns & g' & -> & ? & ? & ?).
    exists ns, g'. done.
  - destruct (nonces_next_ok (nonces s) Hg) as (n & g' & -> & Hn & Hg'). cbn [rbind].
    rewrite Forall_singleton in Hsz. rewrite mask_segment_eq by exact Hsz. exists [n], g'.
    split_and!; [|done|by constructor|done]. cbn. by rewrite app_nil_r.
Qed.
End Lemmas.

(** ** Theorems *)

(** A datagram sent through a masked socket arrives unchanged.  Sending
    never panics, whatever its GSO segmentation; when the peer's socket receives
    the masked datagram with the masked segment size as stride, in a slot of
    any size, it hands the caller exactly the segments that pass its ingress
    filter (all of them on a client), with the unmasked length and stride; a
    datagram of which nothing passes is dropped and the next one is polled. *)
Theorem masked_datagram_roundtrip {C : ChaCha20} os_rng versions tx rx t :
  send_key tx = recv_key rx → generator_ok (nonces tx) → transmit_ok t →
  ∃ t' tx', try_send os_rng tx t = Ok (t', tx') ∧ generator_ok (nonces tx') ∧
    send_key tx' = send_key tx ∧ destination t' = destination t ∧
    ∀ meta garbage b bufs metas rest,
      len meta = zlen (contents t') → stride meta = stride_of t' →
      let kept := concat (filter (λ p, passes versions rx p = true) (segments t)) in
      zlen kept ≤ b →
      poll_recv versions rx (b :: bufs) (S metas) (RecvOk [(meta, contents t' ++ garbage)] :: rest) =
      if decide (kept = []) then poll_recv_loop versions rx (b :: bufs) (S metas) rest
      else Ready (Ok [(kept, {| addr := addr meta; len := zlen kept;
                                stride := Z.min (stride_of t) (zlen kept); ecn := ecn meta;
                                dst_ip := dst_ip meta |})]).
Proof.
  intros Hkey Hg Ht. destruct (segments_ok t Ht) as (Hst & Hpc & Hcat & Hsegs).
  destruct (try_send_ok os_rng tx t Hg Ht) as (ns & g' & Hsend & Hl & Hns & Hg').
  eexists _, _. split; [exact Hsend|]. split_and!; [done..|].
  intros meta garbage b bufs metas rest Hlen Hstr kept Hkept. cbn [contents] in *.
  set (wire := concat (zip_with (masked (send_key tx)) ns (segments t))) in *.
  assert (pieces (stride_of t + UDP_SEGMENT_OVERHEAD) (zip_with (masked (send_key tx)) ns (segments t)))
    as Hpieces by (by apply masked_pieces).
  assert (stride meta = stride_of t + UDP_SEGMENT_OVERHEAD) as Hstride.
  { rewrite Hstr. unfold stride_of, segments in *. cbn [segment_size contents].
    destruct (segment_size t) as [m|]; [done|]. cbn [fmap option_fmap option_map default]. unfold wire.
    destruct ns as [|n []]; try done. cbn [zip_with concat]. rewrite app_nil_r. unfold masked.
    rewrite Forall_singleton in Hns. rewrite length_app, Stream.length_xor_at, Hns.
    unfold UDP_SEGMENT_OVERHEAD. lia. }
  assert (chunks (stride meta) wire = zip_with (masked (recv_key rx)) ns (segments t)) as Hchunks.
  { rewrite Hstride, <- Hkey. apply chunks_concat; [unfold UDP_SEGMENT_OVERHEAD; lia|done]. }
  assert (wire ≠ []) as Hwne.
  { intros E. rewrite E in Hchunks. cbn in Hchunks. destruct (segments t) as [|p sg] eqn:Es.
    - destruct Ht as (Hc & _). by rewrite <- Hcat in Hc.
    - destruct ns; [done|]. discriminate Hchunks. }
  unfold poll_recv. cbn [bool_decide]. rewrite bool_decide_false by done. cbn [orb Nat.eqb poll_recv_loop recv_batch].
  rewrite Hlen, length_app, Z.min_l, Nat2Z.id, take_app_length by lia.
  rewrite bool_decide_false, (proj2 (Z.leb_gt _ _)) by (done || (rewrite Hstride; unfold UDP_SEGMENT_OVERHEAD; lia)).
  cbn [orb]. rewrite Hchunks, unmask_segments_masked by done. cbn [rbind]. rewrite app_nil_l. fold kept.
  destruct (decide (kept = [])) as [Hk|Hk].
  - by rewrite bool_decide_true.
  - rewrite bool_decide_false by done. cbn [length lookup list_lookup].
    rewrite (proj2 (Z.ltb_ge _ _)) by lia. cbn [Nat.ltb Nat.leb app]. rewrite Hstride.
    by replace (stride_of t + UDP_SEGMENT_OVERHEAD - UDP_SEGMENT_OVERHEAD) with (stride_of t) by lia.
Qed.

(** ** Witness *)

#[local] Existing Instance Stream.demo_chacha.

Definition demo_transmit : Transmit :=
  {| destination := {| sa_ip := IpV4 0x7f000001; sa_port := 443 |}; t_ecn := None;
     contents := [0x40; 1; 2; 3; 4]; segment_size := Some 2; src_ip := None |}.

End Udp.
