(* ===== verification/RateLimit.v ===== *)
(** * RateLimit: authentication brute-force protection (crates/uk-server/src/rate_limit.rs)

    The failure records per client address, their pruning and eviction, and
    the three operations [check], [record_failure] and [record_success], each
    atomic under the limiter's lock.  [Instant::now()] is an argument, and so
    is the order in which the hash map's entries are visited, which Rust leaves
    open. *)

From S2P Require Import Prelude Wire RustStd TargetCodec Auth Policy.

Module RateLimit.

(** Durations and instants are in nanoseconds. *)
Definition SECOND : Z := 1000000000.

(** [Instant::checked_add]: the seconds are an [i64]. *)
Definition INSTANT_MAX : Z := 2 ^ 63 * SECOND - 1.
Definition instant_checked_add (t d : Z) : option Z :=
  if t + d <=? INSTANT_MAX then Some (t + d) else None.
(** [Instant::checked_duration_since]. *)
Definition checked_duration_since (now earlier : Z) : option Z :=
  if earlier <=? now then Some (now - earlier) else None.

(* @src crates/uk-server/src/rate_limit.rs 11-23 AuthRateLimitConfig *)
Record AuthRateLimitConfig : Set := {
  max_failures : Z;
  window_secs : Z;
  ban_secs : Z
}.

(* @src crates/uk-server/src/rate_limit.rs 49-57 AuthRateLimitConfig::default *)
Definition config_default : AuthRateLimitConfig :=
  {| max_failures := 5; window_secs := 60; ban_secs := 300 |}.

(* @src crates/uk-server/src/rate_limit.rs 37-39 PRUNE_INTERVAL *)
Definition PRUNE_INTERVAL : Z := 10 * SECOND.
(* @src crates/uk-server/src/rate_limit.rs 41-43 MAX_ENTRIES *)
Definition MAX_ENTRIES : Z := 65536.
(* @src crates/uk-server/src/rate_limit.rs 45-47 EVICTION_BATCH_SIZE *)
Definition EVICTION_BATCH_SIZE : Z := 128.

(* @src crates/uk-server/src/rate_limit.rs 59-64 RateLimitKey *)
Inductive RateLimitKey : Set :=
  | KeyV4 (a : Ipv4Addr)
  | KeyV6Prefix (prefix : Bytes).

#[global] Instance RateLimitKey_eq_dec : EqDecision RateLimitKey.
Proof. solve_decision. Defined.
#[global] Instance RateLimitKey_countable : Countable RateLimitKey.
Proof.
  refine (inj_countable'
    (λ k, match k with KeyV4 a => inl a | KeyV6Prefix p => inr p end)
    (λ x, match x with inl a => KeyV4 a | inr p => KeyV6Prefix p end) _).
  by intros [].
Defined.

(* @src crates/uk-server/src/rate_limit.rs 66-80 RateLimitKey::from_ip *)
Definition from_ip (ip : IpAddr) : RateLimitKey :=
  match ip with
  | IpV4 v4 => KeyV4 v4
  | IpV6 v6 =>
    match ipv6_to_ipv4_mapped v6 with
    | Some v4 => KeyV4 v4
    | None => KeyV6Prefix (take 8 (ipv6_octets v6))
    end
  end.

(* @src crates/uk-server/src/rate_limit.rs 83-88 IpFailureRecord *)
Record IpFailureRecord : Set := {
  failures : Z;
  window_start : Z;
  banned_until : option Z
}.

(* @src crates/uk-server/src/rate_limit.rs 90-94 RateLimitState *)
Record RateLimitState : Set := {
  entries : gmap RateLimitKey IpFailureRecord;
  last_prune : Z
}.

(* @src crates/uk-server/src/rate_limit.rs 96-106 AuthRateLimiter *)
Record AuthRateLimiter : Set := {
  config : AuthRateLimitConfig;
  allowlist : list Policy.Cidr;
  records : RateLimitState
}.

(* @src crates/uk-server/src/rate_limit.rs 114-124 AuthRateLimiter::with_allowlist *)
Definition with_allowlist (c : AuthRateLimitConfig) (allow : list Policy.Cidr) (now : Z)
    : AuthRateLimiter :=
  {| config := c; allowlist := allow; records := {| entries := ∅; last_prune := now |} |}.

(* @src crates/uk-server/src/rate_limit.rs 126-128 AuthRateLimiter::is_allowlisted *)
Definition is_allowlisted (l : AuthRateLimiter) (ip : IpAddr) : bool :=
  existsb (λ c, Policy.contains c ip) (allowlist l).

Definition with_entries (l : AuthRateLimiter) (m : gmap RateLimitKey IpFailureRecord)
    : AuthRateLimiter :=
  {| config := config l; allowlist := allowlist l;
     records := {| entries := m; last_prune := last_prune (records l) |} |}.

(** The record after a ban has expired. *)
Definition reset (now : Z) : IpFailureRecord :=
  {| failures := 0; window_start := now; banned_until := None |}.

(* @src crates/uk-server/src/rate_limit.rs 130-157 AuthRateLimiter::check *)
Definition check_ip (l : AuthRateLimiter) (now : Z) (ip : IpAddr) : bool * AuthRateLimiter :=
  if is_allowlisted l ip then (true, l) else
  if max_failures (config l) =? 0 then (true, l) else
  let key := from_ip ip in
  match entries (records l) !! key with
  | Some record =>
    match banned_until record with
    | Some until =>
      if now <? until then (false, l)
      else (true, with_entries l (<[key := reset now]> (entries (records l))))
    | None => (true, l)
    end
  | None => (true, l)
  end.

(** What the opportunistic prune retains. *)
Definition retained (c : AuthRateLimitConfig) (now : Z) (rec : IpFailureRecord) : bool :=
  match banned_until rec with
  | Some until => now <? until
  | None =>
    match checked_duration_since now (window_start rec) with
    | Some d => d <? window_secs c * SECOND
    | None => false
    end
  end.

(** The opportunistic prune at the start of [record_failure]. *)
(* @src crates/uk-server/src/rate_limit.rs 175-191 AuthRateLimiter::record_failure *)
Definition prune (c : AuthRateLimitConfig) (now : Z) (s : RateLimitState) : RateLimitState :=
  let n := Z.of_nat (size (entries s)) in
  if ((1024 <? n) || (MAX_ENTRIES <=? n))
     && (PRUNE_INTERVAL <=? Auth.saturating_duration_since now (last_prune s))
  then {| entries := filter (λ '(_, rec), retained c now rec = true) (entries s); last_prune := now |}
  else s.

(** The eviction of unbanned entries at capacity; [order] is the order in which
    the map's keys are visited. *)
(* @src crates/uk-server/src/rate_limit.rs 193-209 AuthRateLimiter::record_failure *)
Definition evict (order : list RateLimitKey) (key : RateLimitKey)
    (m : gmap RateLimitKey IpFailureRecord) : gmap RateLimitKey IpFailureRecord :=
  if bool_decide (m !! key = None) && (MAX_ENTRIES <=? Z.of_nat (size m)) then
    let unbanned k := match m !! k with Some rec => bool_decide (banned_until rec = None) | None => false end in
    let victims := take (Z.to_nat EVICTION_BATCH_SIZE) (filter (λ k, unbanned k = true) order) in
    foldr (λ k m, delete k m) m victims
  else m.

(** The update of one record by a failure, and whether it is now banned. *)
(* @src crates/uk-server/src/rate_limit.rs 222-244 AuthRateLimiter::record_failure *)
Definition fail_record (c : AuthRateLimitConfig) (now : Z) (record : IpFailureRecord)
    : bool * IpFailureRecord :=
  let record :=
    match banned_until record with
    | Some until => if until <=? now then reset now else record
    | None =>
      match checked_duration_since now (window_start record) with
      | Some d =>
        if window_secs c * SECOND <=? d
        then {| failures := 0; window_start := now; banned_until := None |}
        else record
      | None => record
      end
    end in
  let f := Z.min (failures record + 1) (2 ^ 32 - 1) in
  if max_failures c <=? f
  then (true, {| failures := f; window_start := window_start record;
                 banned_until := instant_checked_add now (ban_secs c * SECOND) |})
  else (false, {| failures := f; window_start := window_start record;
                  banned_until := banned_until record |}).

(* @src crates/uk-server/src/rate_limit.rs 159-245 AuthRateLimiter::record_failure *)
Definition record_failure (l : AuthRateLimiter) (now : Z) (order : list RateLimitKey) (ip : IpAddr)
    : bool * AuthRateLimiter :=
  if is_allowlisted l ip then (false, l) else
  if max_failures (config l) =? 0 then (false, l) else
  let key := from_ip ip in
  let s := prune (config l) now (records l) in
  let m := evict order key (entries s) in
  let with_map m := {| config := config l; allowlist := allowlist l;
                       records := {| entries := m; last_prune := last_prune s |} |} in
  if bool_decide (m !! key = None) && (MAX_ENTRIES <=? Z.of_nat (size m))
  then (false, with_map m)
  else
    let record := default (reset now) (m !! key) in
    let '(banned, record') := fail_record (config l) now record in
    (banned, with_map (<[key := record']> m)).

(* @src crates/uk-server/src/rate_limit.rs 247-255 AuthRateLimiter::record_success *)
Definition record_success (l : AuthRateLimiter) (ip : IpAddr) : AuthRateLimiter :=
  with_entries l (delete (from_ip ip) (entries (records l))).

(** The operations as the connection tasks interleave them. *)
Inductive op : Type :=
  | Check (now : Z) (ip : IpAddr)
  | Failure (now : Z) (order : list RateLimitKey) (ip : IpAddr)
  | Success (ip : IpAddr).

Definition step (l : AuthRateLimiter) (o : op) : AuthRateLimiter :=
  match o with
  | Check now ip => (check_ip l now ip).2
  | Failure now order ip => (record_failure l now order ip).2
  | Success ip => record_success l ip
  end.

Definition run (l : AuthRateLimiter) (ops : list op) : AuthRateLimiter := foldl step l ops.

(** ** Lemmas: the table is bounded *)

Lemma size_filter_le {V} (P : RateLimitKey * V → Prop) `{∀ x, Decision (P x)} (m : gmap RateLimitKey V) :
  (size (filter P m) ≤ size m)%nat.
Proof. apply map_subseteq_size, map_filter_subseteq. Qed.

Lemma delete_list_subseteq (ks : list RateLimitKey) (m : gmap RateLimitKey IpFailureRecord) :
  foldr (λ k m, delete k m) m ks ⊆ m.
Proof.
  induction ks as [|k ks IH]; simpl; [done|]. etrans; [apply delete_subseteq|exact IH].
Qed.

Lemma delete_list_lookup (ks : list RateLimitKey) (m : gmap RateLimitKey IpFailureRecord) k :
  k ∉ ks → foldr (λ k m, delete k m) m ks !! k = m !! k.
Proof.
  induction ks as [|k' ks IH]; intros Hk; [done|]. apply not_elem_of_cons in Hk as [Hne Hk]. simpl.
  by rewrite lookup_delete_ne, IH.
Qed.

Lemma prune_size c now s : (size (entries (prune c now s)) ≤ size (entries s))%nat.
Proof. unfold prune. case_match; [apply size_filter_le|done]. Qed.

Lemma evict_subseteq order key m : evict order key m ⊆ m.
Proof. unfold evict. case_match; [apply delete_list_subseteq|done]. Qed.

Lemma evict_size order key m : (size (evict order key m) ≤ size m)%nat.
Proof. apply map_subseteq_size, evict_subseteq. Qed.

Definition bounded (l : AuthRateLimiter) : Prop := Z.of_nat (size (entries (records l))) ≤ MAX_ENTRIES.

Lemma step_bounded l o : bounded l → bounded (step l o).
Proof.
  unfold bounded. intros Hb. destruct o as [now ip|now order ip|ip]; simpl.
  - unfold check_ip. destruct (is_allowlisted l ip); [done|]. destruct (_ =? 0); [done|].
    destruct (entries (records l) !! from_ip ip) as [r|] eqn:Hr; [|done].
    destruct (banned_until r); [|done]. destruct (now <? _); [done|]. simpl.
    by rewrite map_size_insert_Some.
  - unfold record_failure. destruct (is_allowlisted l ip); [done|]. destruct (_ =? 0); [done|].
    pose proof (prune_size (config l) now (records l)) as Hp.
    set (s := prune (config l) now (records l)) in *.
    pose proof (evict_size order (from_ip ip) (entries s)) as He.
    set (m := evict order (from_ip ip) (entries s)) in *.
    destruct (bool_decide (m !! from_ip ip = None) && (MAX_ENTRIES <=? Z.of_nat (size m))) eqn:Hfull;
      simpl; [lia|].
    destruct (fail_record _ _ _) as [b r]. simpl. rewrite map_size_insert.
    destruct (m !! from_ip ip) eqn:Hm; simpl; [lia|].
    rewrite bool_decide_true in Hfull by done. simpl in Hfull. bool_to_prop. lia.
  - etrans; [|exact Hb]. apply inj_le, map_subseteq_size, delete_subseteq.
Qed.

Lemma step_config l o : config (step l o) = config l ∧ allowlist (step l o) = allowlist l.
Proof.
  destruct o as [now ip|now order ip|ip]; cbn [step]; [unfold check_ip|unfold record_failure|done].
  - destruct (is_allowlisted l ip), (max_failures (config l) =? 0); try done.
    destruct (_ !! from_ip ip) as [r|]; [|done]. destruct (banned_until r); [|done]. by destruct (now <? _).
  - destruct (is_allowlisted l ip), (max_failures (config l) =? 0); try done. destruct (_ && _); [done|].
    by destruct (fail_record _ _ _).
Qed.

(** ** Lemmas: bans *)

(** The key is banned until [u] at least. *)
Definition banned (l : AuthRateLimiter) (k : RateLimitKey) (u : Z) : Prop :=
  ∃ r u', entries (records l) !! k = Some r ∧ banned_until r = Some u' ∧ u ≤ u' ∧
          max_failures (config l) ≤ failures r.

Definition ban (c : AuthRateLimitConfig) : Z := ban_secs c * SECOND.

(** Operations during a ban of [k] that started at [t0]: no success for [k]. *)
Definition during (c : AuthRateLimitConfig) (k : RateLimitKey) (t0 : Z) (o : op) : Prop :=
  match o with
  | Check t _ | Failure t _ _ => t0 ≤ t < t0 + ban c
  | Success ip => from_ip ip ≠ k
  end.

(** Times at which a ban can still be represented as an [Instant]. *)
Definition representable (c : AuthRateLimitConfig) (t0 : Z) : Prop := t0 + 2 * ban c ≤ INSTANT_MAX.

(** Pruning and eviction keep a ban that has not expired. *)
Lemma prune_keeps_ban c now s k r u :
  entries s !! k = Some r → banned_until r = Some u → now < u → entries (prune c now s) !! k = Some r.
Proof.
  intros Hk Hu Hnow. unfold prune. case_match; [|done]. simpl.
  apply map_lookup_filter_Some. split; [done|]. unfold retained. rewrite Hu. by apply Z.ltb_lt.
Qed.

Lemma evict_keeps_ban order key m k r u :
  m !! k = Some r → banned_until r = Some u → evict order key m !! k = Some r.
Proof.
  intros Hk Hu. unfold evict. case_match; [|done]. rewrite delete_list_lookup; [done|].
  intros Hin. apply elem_of_take in Hin as (i & Hi & _). apply list_elem_of_lookup_2 in Hi.
  apply list_elem_of_filter in Hi as [Hf _]. rewrite Hk in Hf. apply bool_decide_eq_true in Hf. congruence.
Qed.

Lemma fail_record_banned c now r :
  max_failures c ≤ 2 ^ 32 - 1 → now + ban c ≤ INSTANT_MAX →
  (∃ u, banned_until r = Some u ∧ now < u) → max_failures c ≤ failures r →
  (fail_record c now r).1 = true ∧ banned_until (fail_record c now r).2 = Some (now + ban c) ∧
  max_failures c ≤ failures (fail_record c now r).2.
Proof.
  intros Hmax Hrep (u & Hu & Hnow) Hf. unfold fail_record. rewrite Hu.
  rewrite (proj2 (Z.leb_gt u now)) by lia.
  rewrite (proj2 (Z.leb_le (max_failures c) _)) by lia. cbn [fst snd banned_until failures].
  unfold instant_checked_add. fold (ban c). rewrite (proj2 (Z.leb_le _ _)) by done.
  split_and!; [done|done|lia].
Qed.

(** The record of [k] after a failure from another key. *)
Lemma record_failure_other l now order ip k :
  from_ip ip ≠ k →
  entries (records (record_failure l now order ip).2) !! k = entries (records l) !! k ∨
  entries (records (record_failure l now order ip).2) !! k =
    evict order (from_ip ip) (entries (prune (config l) now (records l))) !! k.
Proof.
  intros Hne. unfold record_failure. destruct (is_allowlisted l ip); [by left|].
  destruct (_ =? 0); [by left|]. right. destruct (_ && _); [done|].
  destruct (fail_record _ _ _) as [b r]. simpl. by rewrite lookup_insert_ne.
Qed.

Lemma step_keeps_ban l o k t0 :
  max_failures (config l) ≤ 2 ^ 32 - 1 → representable (config l) t0 →
  during (config l) k t0 o → banned l k (t0 + ban (config l)) →
  banned (step l o) k (t0 + ban (config l)).
Proof.
  intros Hmax Hrep Hd (r & u & Hk & Hu & Hle & Hf). unfold banned.
  rewrite (proj1 (step_config l o)). destruct o as [now ip|now order ip|ip]; simpl in *.
  - exists r, u. split_and!; try done. unfold check_ip. destruct (is_allowlisted l ip); [done|].
    destruct (_ =? 0); [done|]. destruct (decide (from_ip ip = k)) as [->|Hne].
    + by rewrite Hk, Hu, (proj2 (Z.ltb_lt now u)) by lia.
    + repeat (case_match; try done). simpl. by rewrite lookup_insert_ne.
  - assert (evict order (from_ip ip) (entries (prune (config l) now (records l))) !! k = Some r) as Hev.
    { eapply evict_keeps_ban; [|exact Hu]. eapply prune_keeps_ban; [done|done|lia]. }
    destruct (decide (from_ip ip = k)) as [Heq|Hne].
    + unfold record_failure. destruct (is_allowlisted l ip); [by exists r, u|].
      destruct (_ =? 0); [by exists r, u|]. rewrite Heq in *.
      rewrite bool_decide_false by (by rewrite Hev). cbn [andb]. rewrite Hev. cbn [default]. unfold id.
      destruct (fail_record_banned (config l) now r) as (_ & Hb & Hf'); [done| | |done|].
      { unfold representable in Hrep. lia. }
      { exists u. split; [done|lia]. }
      destruct (fail_record (config l) now r) as [b r']. cbn [fst snd records entries] in *.
      exists r', (now + ban (config l)). rewrite lookup_insert_eq. split_and!; [done|done|lia|done].
    + destruct (record_failure_other l now order ip k Hne) as [->| ->]; by exists r, u.
  - exists r, u. split_and!; try done. by rewrite lookup_delete_ne.
Qed.

Lemma run_config l ops : config (run l ops) = config l ∧ allowlist (run l ops) = allowlist l.
Proof.
  revert l. induction ops as [|o ops IH]; intros l; [done|]. simpl.
  destruct (IH (step l o)) as [-> ->]. apply step_config.
Qed.

Lemma run_keeps_ban l ops k t0 :
  max_failures (config l) ≤ 2 ^ 32 - 1 → representable (config l) t0 →
  Forall (during (config l) k t0) ops → banned l k (t0 + ban (config l)) →
  banned (run l ops) k (t0 + ban (config l)).
Proof.
  intros Hmax Hrep Hops. revert l Hmax Hrep Hops.
  induction ops as [|o ops IH]; intros l Hmax Hrep Hops Hb; [done|].
  apply Forall_cons in Hops as [Ho Hops]. simpl.
  pose proof (proj1 (step_config l o)) as Hc. rewrite <- Hc. apply IH; rewrite ?Hc; try done.
  by apply step_keeps_ban.
Qed.

Lemma record_failure_bans l now order ip l1 :
  representable (config l) now → 0 ≤ ban (config l) → record_failure l now order ip = (true, l1) →
  banned l1 (from_ip ip) (now + ban (config l)) ∧ is_allowlisted l ip = false ∧
  max_failures (config l) ≠ 0 ∧ config l1 = config l ∧ allowlist l1 = allowlist l.
Proof.
  intros Hrep Hban H. destruct (step_config l (Failure now order ip)) as [Hc Ha]. simpl in Hc, Ha.
  rewrite H in Hc, Ha. cbn [snd] in *. unfold record_failure in H.
  destruct (is_allowlisted l ip); [done|]. destruct (Z.eqb_spec (max_failures (config l)) 0); [done|].
  destruct (_ && _); [done|]. set (r := default _ _) in H.
  destruct (fail_record (config l) now r) as [b r'] eqn:Hr. injection H as -> <-.
  split_and!; try done. unfold banned. cbn [records entries config]. rewrite lookup_insert_eq.
  unfold fail_record in Hr. set (r1 := match banned_until r with Some _ => _ | None => _ end) in Hr.
  destruct (Z.leb_spec (max_failures (config l)) (Z.min (failures r1 + 1) (2 ^ 32 - 1))); simplify_eq.
  eexists _, _. split; [done|]. cbn [banned_until failures]. unfold instant_checked_add.
  fold (ban (config l)). unfold representable in Hrep. rewrite (proj2 (Z.leb_le _ _)) by lia.
  split_and!; [done|lia|done].
Qed.

(** ** Lemmas: aggregation *)

(** A banned key is refused. *)
Lemma banned_check l ip u t :
  banned l (from_ip ip) u → is_allowlisted l ip = false → max_failures (config l) ≠ 0 → t < u →
  (check_ip l t ip).1 = false.
Proof.
  intros (r & u' & Hk & Hu & Hle & _) Hal Hmax Ht. unfold check_ip.
  rewrite Hal, (proj2 (Z.eqb_neq _ 0)), Hk, Hu by done. by rewrite (proj2 (Z.ltb_lt _ _)) by lia.
Qed.

(** The same IPv4 address, mapped or not, or the same IPv6 /64. *)
Definition same_client (ip ip' : IpAddr) : Prop :=
  match ip_to_canonical ip, ip_to_canonical ip' with
  | IpV4 a, IpV4 b => a = b
  | IpV6 a, IpV6 b => a / 2 ^ 64 = b / 2 ^ 64
  | _, _ => False
  end.

Lemma ipv6_prefix_octets a : take 8 (ipv6_octets a) = be_encode 8 (a / 2 ^ 64).
Proof.
  unfold ipv6_octets. do 8 rewrite be_encode_S. rewrite !(be_encode_S _ (a / 2 ^ 64)).
  cbn [take]. rewrite <- !Z.shiftr_div_pow2, !Z.shiftr_shiftr by lia. reflexivity.
Qed.

Lemma same_client_key ip ip' : same_client ip ip' → from_ip ip = from_ip ip'.
Proof.
  unfold same_client, ip_to_canonical, from_ip.
  destruct ip as [a|a], ip' as [b|b]; try destruct (ipv6_to_ipv4_mapped a);
    try destruct (ipv6_to_ipv4_mapped b); try done; [by intros ->..|].
  intros H. by rewrite !ipv6_prefix_octets, H.
Qed.

(** ** Lemmas: counting failures *)

(** A sequence of failures from one address. *)
Fixpoint fails (l : AuthRateLimiter) (ip : IpAddr) (calls : list (Z * list RateLimitKey))
    : list bool * AuthRateLimiter :=
  match calls with
  | [] => ([], l)
  | (now, order) :: calls' =>
    let '(b, l1) := record_failure l now order ip in
    let '(bs, l2) := fails l1 ip calls' in (b :: bs, l2)
  end.

Definition limited (l : AuthRateLimiter) (ip : IpAddr) : Prop :=
  is_allowlisted l ip = false ∧ 1 ≤ max_failures (config l) ≤ 2 ^ 32 - 1.

(** [n] failures recorded in the window that started at [ws], no ban. *)
Definition counted (l : AuthRateLimiter) (ip : IpAddr) (n ws : Z) : Prop :=
  entries (records l) !! from_ip ip = Some {| failures := n; window_start := ws; banned_until := None |}.

Lemma evict_present order key m r : m !! key = Some r → evict order key m = m.
Proof. intros Hk. unfold evict. by rewrite bool_decide_false by (by rewrite Hk). Qed.

Lemma record_failure_counted l now order ip n ws :
  limited l ip → counted l ip n ws → 0 ≤ n < max_failures (config l) →
  ws ≤ now < ws + window_secs (config l) * SECOND →
  ∃ l1, record_failure l now order ip = (bool_decide (n + 1 = max_failures (config l)), l1) ∧
    config l1 = config l ∧ allowlist l1 = allowlist l ∧
    (n + 1 < max_failures (config l) → counted l1 ip (n + 1) ws).
Proof.
  intros [Hal Hmax] Hc Hn Hw. unfold record_failure. rewrite Hal, (proj2 (Z.eqb_neq _ 0)) by lia.
  set (s := prune (config l) now (records l)).
  assert (checked_duration_since now ws = Some (now - ws)) as Hds
    by (unfold checked_duration_since; by rewrite (proj2 (Z.leb_le _ _)) by lia).
  assert (entries s !! from_ip ip = Some {| failures := n; window_start := ws; banned_until := None |}) as Hs.
  { unfold s, prune. case_match; [|done]. simpl. apply map_lookup_filter_Some. split; [done|].
    unfold retained. simpl. rewrite Hds. apply Z.ltb_lt. lia. }
  rewrite (evict_present _ _ _ _ Hs), bool_decide_false by (by rewrite Hs). cbn [andb].
  rewrite Hs. cbn [default]. unfold id, fail_record. cbn [banned_until window_start]. rewrite Hds.
  rewrite (proj2 (Z.leb_gt _ (now - ws))) by lia. cbn [failures banned_until window_start].
  rewrite Z.min_l by lia. destruct (Z.leb_spec (max_failures (config l)) (n + 1)).
  - rewrite bool_decide_true by lia. eexists. split; [done|]. cbn [config allowlist]. split_and!; [done..|intros; lia].
  - rewrite bool_decide_false by lia. eexists. split; [done|]. cbn [config allowlist]. split_and!; [done..|].
    intros _. unfold counted. cbn [records entries]. by rewrite lookup_insert_eq.
Qed.

Lemma fails_counted calls l ip n ws :
  limited l ip → counted l ip n ws → 0 ≤ n → n + zlen calls = max_failures (config l) → calls ≠ [] →
  Forall (λ '(t, _), ws ≤ t < ws + window_secs (config l) * SECOND) calls →
  (fails l ip calls).1 = replicate (length calls - 1) false ++ [true].
Proof.
  revert l n. induction calls as [|[now order] calls IH]; intros l n Hlim Hc Hn Hlen Hne Ht; [done|].
  apply Forall_cons in Ht as [Hnow Ht]. cbn [length] in Hlen.
  destruct (record_failure_counted l now order ip n ws Hlim Hc ltac:(lia) Hnow) as (l1 & Hr & Hcf & Hal & Hc1).
  cbn [fails]. rewrite Hr. destruct (fails l1 ip calls) as [bs l2] eqn:Hf. cbn [fst].
  destruct calls as [|call calls].
  - simpl in *. simplify_eq. by rewrite bool_decide_true by lia.
  - cbn [length] in *. rewrite bool_decide_false by lia.
    assert ((fails l1 ip (call :: calls)).1 = replicate (length (call :: calls) - 1) false ++ [true]) as Hbs.
    { apply (IH l1 (n + 1)); [|by apply Hc1; lia|lia|rewrite Hcf; cbn [length]; lia|done|].
      - unfold limited, is_allowlisted in *. by rewrite Hal, Hcf.
      - by rewrite Hcf. }
    rewrite Hf in Hbs. cbn [fst length] in Hbs. rewrite Hbs.
    replace (S (S (length calls)) - 1)%nat with (S (S (length calls) - 1)) by lia. done.
Qed.

(** ** Theorems *)

(** The failure table never holds more than [MAX_ENTRIES] addresses, for any
    sequence of checks, failures and successes from any addresses. *)
Theorem rate_limiter_bounded c allow t ops :
  Z.of_nat (size (entries (records (run (with_allowlist c allow t) ops)))) ≤ MAX_ENTRIES.
Proof.
  assert (∀ l, bounded l → bounded (run l ops)) as Hrun.
  { induction ops as [|o ops IH]; intros l Hl; [done|]. simpl. by apply IH, step_bounded. }
  apply Hrun. unfold bounded. simpl. rewrite map_size_empty. done.
Qed.

(** A ban cannot be washed away.  Once a failure bans an address, every
    check from its IPv4 address or IPv6 /64 is refused until the ban duration
    has passed, whatever failures, checks and successes other clients produce in
    between (pruning and eviction included) and however often the banned client
    tries; only its own successful authentication or the allowlist lifts it. *)
Theorem ban_holds l t0 order ip l1 ops t ip' :
  max_failures (config l) ≤ 2 ^ 32 - 1 → 0 ≤ ban (config l) → representable (config l) t0 →
  record_failure l t0 order ip = (true, l1) →
  Forall (during (config l) (from_ip ip) t0) ops →
  same_client ip ip' → is_allowlisted l ip' = false → t0 ≤ t < t0 + ban (config l) →
  (check_ip (run l1 ops) t ip').1 = false.
Proof.
  intros Hmax Hban Hrep Hf Hops Hip%same_client_key Hal Ht.
  destruct (record_failure_bans l t0 order ip l1 Hrep Hban Hf) as (Hb & _ & Hnz & Hc & Ha).
  rewrite <- Hc in *. pose proof (run_keeps_ban l1 ops (from_ip ip) t0 Hmax Hrep Hops Hb) as Hb1.
  destruct (run_config l1 ops) as [Hc1 Ha1]. rewrite Hip in Hb1. apply (banned_check _ _ _ _ Hb1).
  - unfold is_allowlisted in *. by rewrite Ha1, Ha.
  - by rewrite Hc1.
  - lia.
Qed.

(** An attacker gets exactly [max_failures] attempts per window: of that
    many failures from one address inside one window the last one, and no
    earlier one, reports a ban. *)
Lemma ban_at_threshold l ip t1 order calls :
  limited l ip → entries (records l) !! from_ip ip = None →
  Z.of_nat (size (entries (records l))) < MAX_ENTRIES →
  0 < window_secs (config l) * SECOND →
  1 + zlen calls = max_failures (config l) →
  Forall (λ '(t, _), t1 ≤ t < t1 + window_secs (config l) * SECOND) calls →
  (fails l ip ((t1, order) :: calls)).1 = replicate (length calls) false ++ [true].
Proof.
  intros Hlim Hk Hsz Hwin Hlen Ht. cbn [fails].
  assert (∃ l1, record_failure l t1 order ip = (bool_decide (1 = max_failures (config l)), l1) ∧
    config l1 = config l ∧ allowlist l1 = allowlist l ∧
    (1 < max_failures (config l) → counted l1 ip 1 t1)) as (l1 & Hr & Hc & Ha & Hc1).
  { destruct Hlim as [Hal Hmax]. unfold record_failure. rewrite Hal, (proj2 (Z.eqb_neq _ 0)) by lia.
    pose proof (prune_size (config l) t1 (records l)) as Hp. set (s := prune (config l) t1 (records l)) in *.
    assert (entries s !! from_ip ip = None) as Hs.
    { unfold s, prune. case_match; [|done]. simpl. apply map_lookup_filter_None. by left. }
    assert (evict order (from_ip ip) (entries s) = entries s) as ->.
    { unfold evict. rewrite (proj2 (Z.leb_gt _ _)) by lia. by rewrite andb_false_r. }
    rewrite (proj2 (Z.leb_gt _ _)), andb_false_r, Hs by lia. cbn [default].
    unfold fail_record, checked_duration_since, reset. cbn [banned_until window_start].
    rewrite (proj2 (Z.leb_le t1 t1)), Z.sub_diag, (proj2 (Z.leb_gt _ 0)) by lia.
    cbn [failures banned_until window_start]. rewrite Z.min_l by lia.
    destruct (Z.leb_spec (max_failures (config l)) (0 + 1)).
    - rewrite bool_decide_true by lia. eexists. split; [done|]. split_and!; [done..|intros; lia].
    - rewrite bool_decide_false by lia. eexists. split; [done|]. split_and!; [done..|].
      intros _. unfold counted. cbn [records entries]. by rewrite lookup_insert_eq. }
  rewrite Hr. destruct (fails l1 ip calls) as [bs l2] eqn:Hf. cbn [fst].
  destruct (decide (calls = [])) as [->|Hne].
  - simpl in *. simplify_eq. by rewrite bool_decide_true by lia.
  - assert (0 < length calls)%nat by (destruct calls; [done|simpl; lia]).
    rewrite bool_decide_false by lia.
    assert ((fails l1 ip calls).1 = replicate (length calls - 1) false ++ [true]) as Hbs.
    { apply (fails_counted calls l1 ip 1 t1); rewrite ?Hc; [|apply Hc1; lia|lia|lia|done|done].
      unfold limited, is_allowlisted in *. by rewrite Ha, Hc. }
    rewrite Hf in Hbs. cbn [fst] in Hbs. rewrite Hbs.
    destruct (length calls) as [|n]; [lia|]. simpl. by rewrite Nat.sub_0_r.
Qed.

Lemma fails_app l ip a b :
  fails l ip (a ++ b) =
    ((fails l ip a).1 ++ (fails (fails l ip a).2 ip b).1, (fails (fails l ip a).2 ip b).2).
Proof.
  revert l. induction a as [|[t o] a IH]; intros l; simpl; [by destruct (fails l ip b)|].
  destruct (record_failure l t o ip) as [x l1]. rewrite IH. by destruct (fails l1 ip a).
Qed.

Lemma fails_config l ip calls :
  config (fails l ip calls).2 = config l ∧ allowlist (fails l ip calls).2 = allowlist l.
Proof.
  revert l. induction calls as [|[t o] calls IH]; intros l; [done|]. cbn [fails].
  pose proof (step_config l (Failure t o ip)) as [Hc Ha]. simpl in Hc, Ha.
  destruct (record_failure l t o ip) as [x l1]. cbn [snd] in *. specialize (IH l1).
  destruct (fails l1 ip calls) as [bs l2]. cbn [snd] in *. split; [rewrite (proj1 IH)|rewrite (proj2 IH)]; done.
Qed.

(** After the last of [max_failures] failures inside one window the address is
    refused for the ban duration. *)
Lemma fails_ban l ip t1 o1 calls t2 o2 ip' t :
  limited l ip → entries (records l) !! from_ip ip = None →
  Z.of_nat (size (entries (records l))) < MAX_ENTRIES →
  0 < window_secs (config l) * SECOND → 0 ≤ ban (config l) → representable (config l) t2 →
  zlen ((t1, o1) :: calls) = max_failures (config l) →
  (∃ pre, (t1, o1) :: calls = pre ++ [(t2, o2)]) →
  Forall (λ '(t, _), t1 ≤ t < t1 + window_secs (config l) * SECOND) calls →
  same_client ip ip' → is_allowlisted l ip' = false → t2 ≤ t < t2 + ban (config l) →
  (check_ip (fails l ip ((t1, o1) :: calls)).2 t ip').1 = false.
Proof.
  intros Hlim Hk Hsz Hwin Hban Hrep Hlen [pre Hpre] Ht Hip Hal Htt.
  pose proof (ban_at_threshold l ip t1 o1 calls Hlim Hk Hsz Hwin) as Hb.
  specialize (Hb ltac:(cbn [length] in Hlen; lia) Ht). rewrite Hpre, fails_app in *.
  cbn [fails fst snd] in *. destruct (fails_config l ip pre) as [Hc Ha].
  set (l1 := (fails l ip pre).2) in *. destruct (record_failure l1 t2 o2 ip) as [b l2] eqn:Hr.
  cbn [fst snd] in *. apply app_inj_tail in Hb as [_ ->]. rewrite <- Hc in *.
  destruct (record_failure_bans l1 t2 o2 ip l2 Hrep Hban Hr) as (Hb2 & _ & Hnz & Hc2 & Ha2).
  rewrite (same_client_key ip ip' Hip) in Hb2. apply (banned_check _ _ _ _ Hb2).
  - unfold is_allowlisted in *. by rewrite Ha2, Ha.
  - by rewrite Hc2.
  - lia.
Qed.

(** ** Witnesses *)

Definition demo_limiter : AuthRateLimiter :=
  with_allowlist {| max_failures := 2; window_secs := 60; ban_secs := 300 |}
    [Policy.V4 (ipv4_new 10 0 0 0) 8] 0.

Definition attacker : IpAddr := IpV6 (0x20010db8 * 2 ^ 96 + 5).
Definition neighbour : IpAddr := IpV6 (0x20010db8 * 2 ^ 96 + 6).

Definition demo_warned : AuthRateLimiter := (record_failure demo_limiter 1 [] attacker).2.

End RateLimit.
