(* ===== verification/ServerConfig.v ===== *)
(** * ServerConfig: the server's configuration (crates/uk-server/src/config.rs)

    The configuration record as the TOML parser fills it, the accessors with their
    defaults, the validation of limits, endpoints and credentials, and the checks of
    file permissions.  Strings are their UTF-8 bytes; what the file system answers
    about a path is an argument. *)

From S2P Require Import Prelude Wire FrameCodec RustStd Endpoint TargetCodec RelayPayload Settings Auth Policy.
From S2P Require Import Mask MaskReplay RateLimit.

Module ServerConfig.

(* @src crates/uk-server/src/config.rs 25-26 DEFAULT_AUTH_SKEW_SECONDS *)
Definition DEFAULT_AUTH_SKEW_SECONDS : Z := 30.
(* @src crates/uk-server/src/config.rs 28-29 DEFAULT_MAX_TOTAL_STREAMS *)
Definition DEFAULT_MAX_TOTAL_STREAMS : Z := 65536.
(* @src crates/uk-server/src/config.rs 31-32 DEFAULT_MAX_TOTAL_BUFFERED_BYTES *)
Definition DEFAULT_MAX_TOTAL_BUFFERED_BYTES : Z := 512 * 1024 * 1024.
(* @src crates/uk-server/src/config.rs 34-36 MAX_TOTAL_LIMIT *)
Definition MAX_TOTAL_LIMIT : Z := 1024 * 1024 * 1024 * 1024.
(* @src crates/uk-server/src/config.rs 38-43 MAX_AUTH_SKEW_SECONDS *)
Definition MAX_AUTH_SKEW_SECONDS : Z := 300.
(* @src crates/uk-mask/src/lib.rs 91-92 DEFAULT_REPLAY_IDENTITIES *)
Definition DEFAULT_REPLAY_IDENTITIES : Z := 16384.
(* @src crates/uk-mask/src/lib.rs 94-95 MAX_REPLAY_IDENTITIES *)
Definition MAX_REPLAY_IDENTITIES : Z := 1048576.
(* @src crates/uk-server/src/quic.rs 64-65 DEFAULT_QUIC_STREAM_RECEIVE_WINDOW *)
Definition DEFAULT_QUIC_STREAM_RECEIVE_WINDOW : Z := 1024 * 1024.
(* @src crates/uk-server/src/quic.rs 66-67 DEFAULT_QUIC_CONNECTION_RECEIVE_WINDOW *)
Definition DEFAULT_QUIC_CONNECTION_RECEIVE_WINDOW : Z := 1024 * 1024.
(* @src crates/uk-server/src/quic.rs 68-69 MIN_QUIC_RECEIVE_WINDOW *)
Definition MIN_QUIC_RECEIVE_WINDOW : Z := 64 * 1024.
(* @src crates/uk-server/src/quic.rs 70-71 MAX_QUIC_RECEIVE_WINDOW *)
Definition MAX_QUIC_RECEIVE_WINDOW : Z := 16 * 1024 * 1024.

(* @src crates/uk-server/src/config.rs 746-760 MaskingConfig *)
Record MaskingConfig : Set := {
  enabled : option bool;
  replay_identities : option Z;
  quic : option bool;
  quic_key_id : option Bytes
}.

(* @src crates/uk-server/src/config.rs 762-825 LimitConfig *)
Record LimitConfig : Set := {
  c_max_pre_auth_bytes : option Z;
  c_max_frame_size : option Z;
  c_max_sessions : option Z;
  c_max_handshakes : option Z;
  c_max_streams : option Z;
  c_max_udp_flows : option Z;
  c_max_outbound_dials_per_session : option Z;
  c_max_buffered_bytes_per_session : option Z;
  c_idle_timeout_seconds : option Z;
  c_max_buffered_bytes_per_flow : option Z;
  c_max_total_streams : option Z;
  c_max_total_buffered_bytes : option Z;
  c_handshake_timeout_seconds : option Z;
  c_target_connect_timeout_seconds : option Z;
  c_tcp_half_close_timeout_seconds : option Z;
  c_carrier_write_timeout_seconds : option Z;
  c_tcp_keepalive_seconds : option Z;
  c_udp_flow_idle_timeout_seconds : option Z;
  c_shutdown_timeout_seconds : option Z;
  c_replay_cache_window_seconds : option Z;
  c_replay_cache_max_entries : option Z;
  c_relay_buffer_size : option Z;
  c_auth_rate_limit_failures : option Z;
  c_auth_rate_limit_window_seconds : option Z;
  c_auth_rate_limit_ban_seconds : option Z;
  c_auth_rate_limit_allowlist : option (list Bytes);
  c_quic_stream_receive_window : option Z;
  c_quic_connection_receive_window : option Z
}.

(* @src crates/uk-server/src/config.rs 827-843 CredentialConfig *)
Record CredentialConfig : Set := {
  cc_key_id : Bytes;
  cc_secret : Bytes;
  cc_status : option Bytes;
  cc_not_before : option Z;
  cc_not_after : option Z;
  cc_policy_group : option Bytes
}.

(* @src crates/uk-server/src/config.rs 45-70 ServerConfig *)
Record ServerConfig : Set := {
  listen : Bytes;
  quic_listen : option Bytes;
  observability_listen : option Bytes;
  cert_path : Bytes;
  key_path : Bytes;
  c_auth_skew_seconds : option Z;
  limits : option LimitConfig;
  policy_path : option Bytes;
  credentials : list CredentialConfig;
  masking : option MaskingConfig
}.

(** What a refused configuration is refused for. *)
Inductive ConfigError : Set :=
  | NotPositive (name : string)
  | BelowMinimum (name : string) (minimum : Z)
  | AboveMaximum (name : string) (maximum : Z)
  | TooLargeForPlatform (name : string)
  | Refused (message : string)
  | BadEndpoint (e : Endpoint.EndpointError)
  | BadCredential (e : Auth.AuthError)
  | BadPolicy (e : Policy.PolicyError)
  | NoMetadata (label : string)
  | NotRegularFile (label : string)
  | TooPermissive (label : string).

Abbreviation ConfigResult := (result ConfigError).

(** ** Accessors *)

Definition opt_limit (f : LimitConfig → option Z) (c : ServerConfig) : option Z := limits c ≫= f.

(* @src crates/uk-server/src/config.rs 422-424 ServerConfig::auth_skew_seconds *)
Definition auth_skew_seconds (c : ServerConfig) : Z := default DEFAULT_AUTH_SKEW_SECONDS (c_auth_skew_seconds c).
(* @src crates/uk-server/src/config.rs 427-432 ServerConfig::max_pre_auth_bytes *)
Definition max_pre_auth_bytes (c : ServerConfig) : Z := default 4096 (opt_limit c_max_pre_auth_bytes c).
(* @src crates/uk-server/src/config.rs 435-440 ServerConfig::max_frame_size *)
Definition max_frame_size (c : ServerConfig) : Z := default 65536 (opt_limit c_max_frame_size c).
(* @src crates/uk-server/src/config.rs 443-448 ServerConfig::max_sessions *)
Definition max_sessions (c : ServerConfig) : Z := default 1024 (opt_limit c_max_sessions c).
(* @src crates/uk-server/src/config.rs 451-456 ServerConfig::max_handshakes *)
Definition max_handshakes (c : ServerConfig) : Z := default (max_sessions c) (opt_limit c_max_handshakes c).
(* @src crates/uk-server/src/config.rs 459-464 ServerConfig::max_streams *)
Definition max_streams (c : ServerConfig) : Z := default 64 (opt_limit c_max_streams c).
(* @src crates/uk-server/src/config.rs 467-472 ServerConfig::max_total_streams *)
Definition max_total_streams (c : ServerConfig) : Z :=
  default DEFAULT_MAX_TOTAL_STREAMS (opt_limit c_max_total_streams c).
(* @src crates/uk-server/src/config.rs 475-480 ServerConfig::max_total_buffered_bytes *)
Definition max_total_buffered_bytes (c : ServerConfig) : Z :=
  default DEFAULT_MAX_TOTAL_BUFFERED_BYTES (opt_limit c_max_total_buffered_bytes c).
(* @src crates/uk-server/src/config.rs 484-489 ServerConfig::max_udp_flows *)
Definition max_udp_flows (c : ServerConfig) : Z := default (max_streams c) (opt_limit c_max_udp_flows c).
(* @src crates/uk-server/src/config.rs 492-497 ServerConfig::max_outbound_dials_per_session *)
Definition max_outbound_dials_per_session (c : ServerConfig) : Z :=
  default 16 (opt_limit c_max_outbound_dials_per_session c).
(* @src crates/uk-server/src/config.rs 500-505 ServerConfig::max_buffered_bytes_per_session *)
Definition max_buffered_bytes_per_session (c : ServerConfig) : Z :=
  default Frame.MAX_FRAME_PAYLOAD_SIZE (opt_limit c_max_buffered_bytes_per_session c).
(* @src crates/uk-server/src/config.rs 508-513 ServerConfig::idle_timeout_seconds *)
Definition idle_timeout_seconds (c : ServerConfig) : Z := default 300 (opt_limit c_idle_timeout_seconds c).
(* @src crates/uk-server/src/config.rs 516-521 ServerConfig::max_buffered_bytes_per_flow *)
Definition max_buffered_bytes_per_flow (c : ServerConfig) : Z :=
  default 2097152 (opt_limit c_max_buffered_bytes_per_flow c).
(* @src crates/uk-server/src/config.rs 524-529 ServerConfig::handshake_timeout_seconds *)
Definition handshake_timeout_seconds (c : ServerConfig) : Z := default 10 (opt_limit c_handshake_timeout_seconds c).
(* @src crates/uk-server/src/config.rs 532-537 ServerConfig::target_connect_timeout_seconds *)
Definition target_connect_timeout_seconds (c : ServerConfig) : Z :=
  default 10 (opt_limit c_target_connect_timeout_seconds c).
(* @src crates/uk-server/src/config.rs 540-545 ServerConfig::tcp_half_close_timeout_seconds *)
Definition tcp_half_close_timeout_seconds (c : ServerConfig) : Z :=
  default 30 (opt_limit c_tcp_half_close_timeout_seconds c).
(* @src crates/uk-server/src/config.rs 552-557 ServerConfig::carrier_write_timeout_seconds *)
Definition carrier_write_timeout_seconds (c : ServerConfig) : Z :=
  default 30 (opt_limit c_carrier_write_timeout_seconds c).
(* @src crates/uk-server/src/config.rs 565-570 ServerConfig::tcp_keepalive_seconds *)
Definition tcp_keepalive_seconds (c : ServerConfig) : Z := default 60 (opt_limit c_tcp_keepalive_seconds c).
(* @src crates/uk-server/src/config.rs 573-578 ServerConfig::udp_flow_idle_timeout_seconds *)
Definition udp_flow_idle_timeout_seconds (c : ServerConfig) : Z :=
  default 120 (opt_limit c_udp_flow_idle_timeout_seconds c).
(* @src crates/uk-server/src/config.rs 581-586 ServerConfig::shutdown_timeout_seconds *)
Definition shutdown_timeout_seconds (c : ServerConfig) : Z := default 30 (opt_limit c_shutdown_timeout_seconds c).
(* @src crates/uk-server/src/config.rs 589-594 ServerConfig::replay_cache_window_seconds *)
Definition replay_cache_window_seconds (c : ServerConfig) : Z :=
  default Auth.DEFAULT_REPLAY_CACHE_WINDOW_SECONDS (opt_limit c_replay_cache_window_seconds c).
(* @src crates/uk-server/src/config.rs 597-602 ServerConfig::replay_cache_max_entries *)
Definition replay_cache_max_entries (c : ServerConfig) : Z :=
  default Auth.DEFAULT_REPLAY_CACHE_MAX_ENTRIES (opt_limit c_replay_cache_max_entries c).
(* @src crates/uk-server/src/config.rs 605-610 ServerConfig::relay_buffer_size *)
Definition relay_buffer_size (c : ServerConfig) : Z := default (16 * 1024) (opt_limit c_relay_buffer_size c).
(* @src crates/uk-server/src/config.rs 613-624 ServerConfig::auth_rate_limit_config *)
Definition auth_rate_limit_config (c : ServerConfig) : RateLimit.AuthRateLimitConfig :=
  {| RateLimit.max_failures := default 5 (opt_limit c_auth_rate_limit_failures c);
     RateLimit.window_secs := default 60 (opt_limit c_auth_rate_limit_window_seconds c);
     RateLimit.ban_secs := default 300 (opt_limit c_auth_rate_limit_ban_seconds c) |}.
(* @src crates/uk-server/src/config.rs 627-632 ServerConfig::masking_enabled *)
Definition masking_enabled (c : ServerConfig) : bool := default false (masking c ≫= enabled).
(* @src crates/uk-server/src/config.rs 635-639 ServerConfig::masking_quic_enabled *)
Definition masking_quic_enabled (c : ServerConfig) : bool := default false (masking c ≫= quic).
(* @src crates/uk-server/src/config.rs 650-655 ServerConfig::masking_replay_identities *)
Definition masking_replay_identities (c : ServerConfig) : Z :=
  default DEFAULT_REPLAY_IDENTITIES (masking c ≫= replay_identities).

(** [w as u32]. *)
(* @src crates/uk-server/src/config.rs 658-665 ServerConfig::quic_stream_receive_window *)
Definition quic_stream_receive_window (c : ServerConfig) : Z :=
  match opt_limit c_quic_stream_receive_window c with
  | Some w => truncate 32 w
  | None => DEFAULT_QUIC_STREAM_RECEIVE_WINDOW
  end.
(* @src crates/uk-server/src/config.rs 668-675 ServerConfig::quic_connection_receive_window *)
Definition quic_connection_receive_window (c : ServerConfig) : Z :=
  match opt_limit c_quic_connection_receive_window c with
  | Some w => truncate 32 w
  | None => DEFAULT_QUIC_CONNECTION_RECEIVE_WINDOW
  end.
(* @src crates/uk-server/src/config.rs 348-353 ServerConfig::auth_rate_limit_allowlist *)
Definition auth_rate_limit_allowlist (c : ServerConfig) : list Bytes :=
  default [] (limits c ≫= c_auth_rate_limit_allowlist).

(** ** Validation of limits *)

(* @src crates/uk-server/src/config.rs 698-704 reject_zero_limit *)
Definition reject_zero_limit (name : string) (value : Z) : ConfigResult unit :=
  if value =? 0 then Err (NotPositive name) else Ok tt.
(* @src crates/uk-server/src/config.rs 706-716 reject_small_limit *)
Definition reject_small_limit (name : string) (value minimum : Z) : ConfigResult unit :=
  if value <? minimum then Err (BelowMinimum name minimum) else Ok tt.
(* @src crates/uk-server/src/config.rs 718-728 reject_large_limit *)
Definition reject_large_limit (name : string) (value maximum : Z) : ConfigResult unit :=
  if maximum <? value then Err (AboveMaximum name maximum) else Ok tt.

(* @src crates/uk-server/src/config.rs 687-696 parse_allowlist_entry *)
Definition parse_allowlist_entry (entry : Bytes) : option Policy.Cidr :=
  match Policy.cidr_from_str entry with
  | Ok cidr => Some cidr
  | _ =>
    match parse_ip entry with
    | Some (IpV4 ip) => Policy.new_v4 ip 32
    | Some (IpV6 ip) => Policy.new_v6 ip 128
    | None => None
    end
  end.

(* @src crates/uk-server/src/config.rs 356-361 ServerConfig::auth_rate_limit_allowlist_cidrs *)
Definition auth_rate_limit_allowlist_cidrs (c : ServerConfig) : list Policy.Cidr :=
  omap parse_allowlist_entry (auth_rate_limit_allowlist c).

(** [if let Some(x) = o { f(x)? }]. *)
Definition if_some {A} (o : option A) (f : A → ConfigResult unit) : ConfigResult unit :=
  match o with Some x => f x | None => Ok tt end.

(* @src crates/uk-server/src/config.rs 313-345 ServerConfig::validate_masking *)
Definition validate_masking (c : ServerConfig) : ConfigResult unit :=
  if_some (masking c) (λ m,
    let? _ := if_some (replay_identities m) (λ n,
      let? _ := reject_small_limit "masking.replay_identities" n 1024 in
      reject_large_limit "masking.replay_identities" n MAX_REPLAY_IDENTITIES) in
    if default false (enabled m) && bool_decide (credentials c = [])
    then Err (Refused "masking.enabled requires at least one credential") else
    if default false (quic m) then
      match quic_key_id m with
      | None => Err (Refused "masking.quic_key_id is required when masking.quic is enabled")
      | Some key_id =>
        if existsb (λ credential, bool_decide (cc_key_id credential = key_id)) (credentials c) then Ok tt
        else Err (Refused "masking.quic_key_id does not match any configured credential")
      end
    else Ok tt).

(* @src crates/uk-server/src/config.rs 368-379 ServerConfig::validate_replay_cache_covers_auth_skew *)
Definition validate_replay_cache_covers_auth_skew (c : ServerConfig) : ConfigResult unit :=
  let skew := auth_skew_seconds c in
  let required_window := Z.min (skew * 2) U64_MAX in
  if replay_cache_window_seconds c <? required_window
  then Err (Refused "replay_cache_window_seconds must be at least twice auth_skew_seconds") else Ok tt.

Definition validate_window (name : string) (o : option Z) : ConfigResult unit :=
  if_some o (λ w,
    let? _ := reject_small_limit name w MIN_QUIC_RECEIVE_WINDOW in
    reject_large_limit name w MAX_QUIC_RECEIVE_WINDOW).

(* @src crates/uk-server/src/config.rs 230-270 ServerConfig::validate_quic_window_limits *)
Definition validate_quic_window_limits (c : ServerConfig) : ConfigResult unit :=
  let? _ := validate_window "quic_stream_receive_window" (opt_limit c_quic_stream_receive_window c) in
  let? _ := validate_window "quic_connection_receive_window" (opt_limit c_quic_connection_receive_window c) in
  if quic_connection_receive_window c <? quic_stream_receive_window c
  then Err (Refused "quic_connection_receive_window must be greater than or equal to quic_stream_receive_window")
  else Ok tt.

(* @src crates/uk-server/src/config.rs 272-304 ServerConfig::validate_auth_rate_limits *)
Definition validate_auth_rate_limits (c : ServerConfig) : ConfigResult unit :=
  let rate_limit := auth_rate_limit_config c in
  let? _ := reject_large_limit "auth_rate_limit_failures" (RateLimit.max_failures rate_limit) 100000 in
  let? _ := (if 0 <? RateLimit.max_failures rate_limit then
               let? _ := reject_zero_limit "auth_rate_limit_window_seconds" (RateLimit.window_secs rate_limit) in
               reject_zero_limit "auth_rate_limit_ban_seconds" (RateLimit.ban_secs rate_limit)
             else Ok tt) in
  let? _ := reject_large_limit "auth_rate_limit_window_seconds" (RateLimit.window_secs rate_limit) 2592000 in
  let? _ := reject_large_limit "auth_rate_limit_ban_seconds" (RateLimit.ban_secs rate_limit) 2592000 in
  if forallb (λ entry, bool_decide (is_Some (parse_allowlist_entry entry))) (auth_rate_limit_allowlist c)
  then Ok tt else Err (Refused "auth_rate_limit_allowlist entry is not a valid CIDR or IP").

Section Limits.
Context {P : Platform}.

(** tokio's [Semaphore::MAX_PERMITS]. *)
Definition MAX_PERMITS : Z := Z.shiftr USIZE_MAX 3.

(* @src crates/uk-server/src/config.rs 730-735 reject_semaphore_permit_limit *)
Definition reject_semaphore_permit_limit (name : string) (value : Z) : ConfigResult unit :=
  reject_large_limit name value MAX_PERMITS.
(* @src crates/uk-server/src/config.rs 737-741 reject_usize_limit *)
Definition reject_usize_limit (name : string) (value : Z) : ConfigResult unit :=
  let? _ := ok_or (TooLargeForPlatform name) (usize_try_from value) in Ok tt.

(* @src crates/uk-server/src/config.rs 131-228 ServerConfig::validate_limits *)
Definition validate_limits (c : ServerConfig) : ConfigResult unit :=
  let? _ := validate_masking c in
  let? _ := reject_zero_limit "max_pre_auth_bytes" (max_pre_auth_bytes c) in
  let? _ := reject_small_limit "max_pre_auth_bytes" (max_pre_auth_bytes c) Auth.MIN_AUTH_RESPONSE_PAYLOAD_SIZE in
  let? _ := reject_large_limit "max_pre_auth_bytes" (max_pre_auth_bytes c) Frame.MAX_FRAME_PAYLOAD_SIZE in
  let? _ := reject_zero_limit "max_frame_size" (max_frame_size c) in
  let? _ := reject_small_limit "max_frame_size" (max_frame_size c) Tcp.MIN_TCP_RELAY_FRAME_SIZE in
  let? _ := reject_large_limit "max_frame_size" (max_frame_size c) Frame.MAX_FRAME_PAYLOAD_SIZE in
  let? _ := reject_zero_limit "max_sessions" (max_sessions c) in
  let? _ := reject_semaphore_permit_limit "max_sessions" (max_sessions c) in
  let? _ := reject_zero_limit "max_handshakes" (max_handshakes c) in
  let? _ := reject_semaphore_permit_limit "max_handshakes" (max_handshakes c) in
  let? _ := reject_zero_limit "max_streams" (max_streams c) in
  let? _ := reject_large_limit "max_streams" (max_streams c) Settings.MAX_NEGOTIATED_FLOWS in
  let? _ := reject_large_limit "max_udp_flows" (max_udp_flows c) (max_streams c) in
  let? _ := reject_large_limit "max_udp_flows" (max_udp_flows c) Settings.MAX_NEGOTIATED_FLOWS in
  let? _ := reject_zero_limit "max_total_streams" (max_total_streams c) in
  let? _ := reject_large_limit "max_total_streams" (max_total_streams c) MAX_TOTAL_LIMIT in
  let? _ := reject_usize_limit "max_total_streams" (max_total_streams c) in
  let? _ := reject_zero_limit "max_total_buffered_bytes" (max_total_buffered_bytes c) in
  let? _ := reject_large_limit "max_total_buffered_bytes" (max_total_buffered_bytes c) MAX_TOTAL_LIMIT in
  let? _ := reject_usize_limit "max_total_buffered_bytes" (max_total_buffered_bytes c) in
  let? _ := reject_zero_limit "max_outbound_dials_per_session" (max_outbound_dials_per_session c) in
  let? _ := reject_semaphore_permit_limit "max_outbound_dials_per_session" (max_outbound_dials_per_session c) in
  let? _ := reject_zero_limit "max_buffered_bytes_per_session" (max_buffered_bytes_per_session c) in
  let? _ := reject_large_limit "max_buffered_bytes_per_session" (max_buffered_bytes_per_session c)
              Frame.MAX_FRAME_PAYLOAD_SIZE in
  let? _ := reject_zero_limit "max_buffered_bytes_per_flow" (max_buffered_bytes_per_flow c) in
  let? _ := reject_large_limit "max_buffered_bytes_per_flow" (max_buffered_bytes_per_flow c)
              Frame.MAX_FRAME_PAYLOAD_SIZE in
  let? _ := reject_zero_limit "replay_cache_window_seconds" (replay_cache_window_seconds c) in
  let? _ := reject_zero_limit "replay_cache_max_entries" (replay_cache_max_entries c) in
  let? _ := reject_usize_limit "replay_cache_max_entries" (replay_cache_max_entries c) in
  let? _ := reject_zero_limit "auth_skew_seconds" (auth_skew_seconds c) in
  let? _ := reject_large_limit "auth_skew_seconds" (auth_skew_seconds c) MAX_AUTH_SKEW_SECONDS in
  let? _ := reject_large_limit "idle_timeout_seconds" (idle_timeout_seconds c)
              Settings.MAX_NEGOTIATED_IDLE_TIMEOUT_SECONDS in
  let? _ := validate_replay_cache_covers_auth_skew c in
  let? _ := if_some (opt_limit c_relay_buffer_size c) (λ n,
    let? _ := reject_small_limit "relay_buffer_size" n 1024 in
    reject_large_limit "relay_buffer_size" n (1024 * 1024)) in
  let? _ := validate_quic_window_limits c in
  let? _ := validate_auth_rate_limits c in
  Ok tt.
End Limits.

(** ** Endpoints *)

(* @src crates/uk-server/src/config.rs 381-406 ServerConfig::validate_network_endpoints *)
Definition validate_network_endpoints (c : ServerConfig) : ConfigResult unit :=
  let? _ := map_err BadEndpoint (Endpoint.validate_host_port_endpoint "listen" (listen c)) in
  let? _ := if_some (quic_listen c) (λ l,
    let? _ := map_err BadEndpoint (Endpoint.validate_host_port_endpoint "quic_listen" l) in
    let? _ := ok_or (Refused "invalid quic_listen address") (parse_socket_addr l) in
    Ok tt) in
  if_some (observability_listen c) (λ l,
    let? _ := map_err BadEndpoint (Endpoint.validate_observability_bind "observability_listen" l) in Ok tt).

(** ** Credentials *)

(* @src crates/uk-server/src/config.rs 902-904 invalid_policy_group *)
Definition invalid_policy_group (group : Bytes) : bool :=
  bool_decide (group = []) || existsb is_ascii_control group.

(* @src crates/uk-server/src/config.rs 864-893 CredentialConfig::to_credential *)
Definition to_credential (c : CredentialConfig) : Auth.AuthResult Auth.Credential :=
  let status_text := default (bytes_of_string "active") (cc_status c) in
  let? status :=
    (if bool_decide (status_text = bytes_of_string "active") then Ok Auth.Active
     else if bool_decide (status_text = bytes_of_string "disabled") then Ok Auth.Disabled
     else if bool_decide (status_text = bytes_of_string "retired") then Ok Auth.Retired
     else Err Auth.InvalidCredentialStatus) in
  if match cc_policy_group c with Some g => invalid_policy_group g | None => false end
  then Err Auth.InvalidCredentialPolicyGroup else
  if match cc_not_before c, cc_not_after c with
     | Some not_before, Some not_after => not_after <? not_before
     | _, _ => false
     end
  then Err Auth.InvalidCredentialValidityWindow else
  let? credential := Auth.credential_active (cc_key_id c) (cc_secret c) in
  Ok {| Auth.key_id := Auth.key_id credential; Auth.secret := Auth.secret credential; Auth.status := status;
        Auth.not_before := cc_not_before c; Auth.not_after := cc_not_after c;
        Auth.policy_group := cc_policy_group c |}.

(** The loop of [credentials], with the key ids already seen. *)
Fixpoint load_credentials (seen : gset Bytes) (cs : list CredentialConfig) : Auth.AuthResult (list Auth.Credential) :=
  match cs with
  | [] => Ok []
  | c :: cs' =>
    let? credential := to_credential c in
    if bool_decide (Auth.key_id credential ∈ seen) then Err Auth.DuplicateCredentialKeyId else
    let? rest := load_credentials ({[ Auth.key_id credential ]} ∪ seen) cs' in
    Ok (credential :: rest)
  end.

(* @src crates/uk-server/src/config.rs 91-105 ServerConfig::credentials *)
Definition load (c : ServerConfig) : Auth.AuthResult (list Auth.Credential) :=
  if bool_decide (credentials c = []) then Err Auth.NoCredentials else load_credentials ∅ (credentials c).

(** ** Files *)

(** What [symlink_metadata] says about a path. *)
Record Metadata : Set := { is_file : bool; mode : Z }.

(* @src crates/uk-server/src/config.rs 907-929 validate_sensitive_file_permissions *)
Definition validate_sensitive_file_permissions (m : option Metadata) (label : string) : ConfigResult unit :=
  let? m := ok_or (NoMetadata label) m in
  if negb (is_file m) then Err (NotRegularFile label) else
  if negb (Z.land (mode m) 0x3f =? 0) then Err (TooPermissive label) else Ok tt.

(* @src crates/uk-server/src/config.rs 947-969 validate_owner_only_writable_file *)
Definition validate_owner_only_writable_file (m : option Metadata) (label : string) : ConfigResult unit :=
  let? m := ok_or (NoMetadata label) m in
  if negb (is_file m) then Err (NotRegularFile label) else
  if negb (Z.land (mode m) 0x12 =? 0) then Err (TooPermissive label) else Ok tt.

(** The files the configuration names: their metadata, and the rules the TOML
    parser reads from the policy file. *)
Record Files : Type := {
  metadata : Bytes → option Metadata;
  policy_text : Bytes → option Policy.RawPolicySet
}.

(* @src crates/uk-server/src/config.rs 408-419 ServerConfig::validate_sensitive_paths *)
Definition validate_sensitive_paths (fs : Files) (c : ServerConfig) : ConfigResult unit :=
  validate_sensitive_file_permissions (metadata fs (key_path c)) "private key".

(* @src crates/uk-server/src/config.rs 107-128 ServerConfig::policy_set *)
Definition policy_set (fs : Files) (c : ServerConfig) : ConfigResult Policy.PolicySet :=
  match policy_path c with
  | None => Ok {| Policy.rules := [] |}
  | Some path =>
    let? _ := validate_owner_only_writable_file (metadata fs path) "policy file" in
    let? raw := ok_or (Refused "invalid policy file") (policy_text fs path) in
    map_err BadPolicy (Policy.from_raw raw)
  end.

(** ** Lemmas *)

Lemma then_Ok {E B} (r : result E unit) (k : result E B) b : (let? _ := r in k) = Ok b ↔ r = Ok tt ∧ k = Ok b.
Proof. rewrite rbind_Ok. split; [intros ([] & ? & ?)|intros [? ?]]; eauto. Qed.
Lemma reject_zero_limit_Ok name v : reject_zero_limit name v = Ok tt ↔ v ≠ 0.
Proof. unfold reject_zero_limit. destruct (Z.eqb_spec v 0); done. Qed.
Lemma reject_small_limit_Ok name v m : reject_small_limit name v m = Ok tt ↔ m ≤ v.
Proof. unfold reject_small_limit. destruct (Z.ltb_spec v m); split; done || lia. Qed.
Lemma reject_large_limit_Ok name v m : reject_large_limit name v m = Ok tt ↔ v ≤ m.
Proof. unfold reject_large_limit. destruct (Z.ltb_spec m v); split; done || lia. Qed.
Lemma if_some_Ok {A} (o : option A) f : if_some o f = Ok tt ↔ ∀ x, o = Some x → f x = Ok tt.
Proof. destruct o; simpl; naive_solver. Qed.
Lemma reject_usize_Ok {P : Platform} name v : 0 ≤ v → reject_usize_limit name v = Ok tt ↔ v ≤ USIZE_MAX.
Proof.
  intros Hv. unfold reject_usize_limit. rewrite rbind_Ok. setoid_rewrite ok_or_Ok. split.
  - intros (x & Hx%usize_try_from_Some & _). lia.
  - intros H. exists v. split; [|done]. apply usize_try_from_Some. lia.
Qed.

(** Takes a passed chain of checks apart. *)
Ltac passed H := repeat (let H' := fresh "Hp" in apply then_Ok in H as [H' H]).
Ltac checks :=
  repeat match goal with
  | H : reject_zero_limit _ _ = Ok _ |- _ => apply reject_zero_limit_Ok in H
  | H : reject_small_limit _ _ _ = Ok _ |- _ => apply reject_small_limit_Ok in H
  | H : reject_large_limit _ _ _ = Ok _ |- _ => apply reject_large_limit_Ok in H
  | H : if_some _ _ = Ok _ |- _ => rewrite if_some_Ok in H
  | H : reject_usize_limit _ _ = Ok _ |- _ => apply reject_usize_Ok in H; [|lia]
  | |- (let? _ := _ in _) = Ok _ => apply then_Ok; split
  | |- reject_zero_limit _ _ = Ok _ => apply reject_zero_limit_Ok
  | |- reject_small_limit _ _ _ = Ok _ => apply reject_small_limit_Ok
  | |- reject_large_limit _ _ _ = Ok _ => apply reject_large_limit_Ok
  | |- if_some _ _ = Ok _ => apply if_some_Ok; intros ? ?
  | |- reject_usize_limit _ _ = Ok _ => apply reject_usize_Ok; [lia|]
  end.

(** What the TOML parser fills in has the width of its field. *)
Definition u64_fields : list (LimitConfig → option Z) :=
  [c_max_pre_auth_bytes; c_max_frame_size; c_max_sessions; c_max_handshakes; c_max_streams; c_max_udp_flows;
   c_max_outbound_dials_per_session; c_max_buffered_bytes_per_session; c_idle_timeout_seconds;
   c_max_buffered_bytes_per_flow; c_max_total_streams; c_max_total_buffered_bytes; c_handshake_timeout_seconds;
   c_target_connect_timeout_seconds; c_tcp_half_close_timeout_seconds; c_carrier_write_timeout_seconds;
   c_tcp_keepalive_seconds; c_udp_flow_idle_timeout_seconds; c_shutdown_timeout_seconds;
   c_replay_cache_window_seconds; c_replay_cache_max_entries; c_auth_rate_limit_failures;
   c_auth_rate_limit_window_seconds; c_auth_rate_limit_ban_seconds; c_quic_stream_receive_window;
   c_quic_connection_receive_window; c_relay_buffer_size].
Definition config_wf (c : ServerConfig) : Prop :=
  (∀ f v, In f u64_fields → opt_limit f c = Some v → is_u64 v) ∧
  (∀ v, c_auth_skew_seconds c = Some v → is_u64 v).

Lemma limit_u64 c f d : config_wf c → In f u64_fields → is_u64 d → is_u64 (default d (opt_limit f c)).
Proof. intros [Hc _] Hf Hd. destruct (opt_limit f c) as [v|] eqn:Hv; simpl; [by eapply Hc|done]. Qed.

(** The bounds of a configuration that can be run. *)
Definition window_ok (o : option Z) : Prop :=
  ∀ w, o = Some w → MIN_QUIC_RECEIVE_WINDOW ≤ w ≤ MAX_QUIC_RECEIVE_WINDOW.

Record sound_limits {P : Platform} (c : ServerConfig) : Prop := {
  sl_masking : validate_masking c = Ok tt;
  sl_pre_auth : Auth.MIN_AUTH_RESPONSE_PAYLOAD_SIZE ≤ max_pre_auth_bytes c ≤ Frame.MAX_FRAME_PAYLOAD_SIZE;
  sl_frame : Tcp.MIN_TCP_RELAY_FRAME_SIZE ≤ max_frame_size c ≤ Frame.MAX_FRAME_PAYLOAD_SIZE;
  sl_sessions : 1 ≤ max_sessions c ≤ MAX_PERMITS;
  sl_handshakes : 1 ≤ max_handshakes c ≤ MAX_PERMITS;
  sl_streams : 1 ≤ max_streams c ≤ Settings.MAX_NEGOTIATED_FLOWS;
  sl_udp : 0 ≤ max_udp_flows c ≤ max_streams c;
  sl_total_streams : 1 ≤ max_total_streams c ≤ Z.min MAX_TOTAL_LIMIT USIZE_MAX;
  sl_total_bytes : 1 ≤ max_total_buffered_bytes c ≤ Z.min MAX_TOTAL_LIMIT USIZE_MAX;
  sl_dials : 1 ≤ max_outbound_dials_per_session c ≤ MAX_PERMITS;
  sl_session_bytes : 1 ≤ max_buffered_bytes_per_session c ≤ Frame.MAX_FRAME_PAYLOAD_SIZE;
  sl_flow_bytes : 1 ≤ max_buffered_bytes_per_flow c ≤ Frame.MAX_FRAME_PAYLOAD_SIZE;
  sl_replay_entries : 1 ≤ replay_cache_max_entries c ≤ USIZE_MAX;
  sl_skew : 1 ≤ auth_skew_seconds c ≤ MAX_AUTH_SKEW_SECONDS;
  sl_replay_window : 2 * auth_skew_seconds c ≤ replay_cache_window_seconds c;
  sl_idle : 0 ≤ idle_timeout_seconds c ≤ Settings.MAX_NEGOTIATED_IDLE_TIMEOUT_SECONDS;
  sl_buffer : 1024 ≤ relay_buffer_size c ≤ 1024 * 1024;
  sl_stream_window : window_ok (opt_limit c_quic_stream_receive_window c);
  sl_connection_window : window_ok (opt_limit c_quic_connection_receive_window c);
  sl_windows : quic_stream_receive_window c ≤ quic_connection_receive_window c;
  sl_rate : validate_auth_rate_limits c = Ok tt
}.

Lemma permits_usize {P : Platform} : MAX_PERMITS ≤ USIZE_MAX.
Proof.
  unfold MAX_PERMITS, USIZE_MAX. rewrite Z.shiftr_div_pow2 by lia.
  destruct usize_bits_ok as [-> | ->]; vm_compute; discriminate.
Qed.

Lemma limits_nonneg c :
  config_wf c →
  0 ≤ max_pre_auth_bytes c ∧ 0 ≤ max_frame_size c ∧ 0 ≤ max_sessions c ∧ 0 ≤ max_handshakes c ∧ 0 ≤ max_streams c ∧
  0 ≤ max_udp_flows c ∧ 0 ≤ max_total_streams c ∧ 0 ≤ max_total_buffered_bytes c ∧
  0 ≤ max_outbound_dials_per_session c ∧ 0 ≤ max_buffered_bytes_per_session c ∧ 0 ≤ max_buffered_bytes_per_flow c ∧
  0 ≤ replay_cache_max_entries c ∧ 0 ≤ auth_skew_seconds c ∧ 0 ≤ idle_timeout_seconds c.
Proof.
  intros Hc. assert (∀ f d, In f u64_fields → is_u64 d → 0 ≤ default d (opt_limit f c)) as Hl
    by (intros f d Hf Hd; apply (limit_u64 c f d Hc Hf Hd)).
  assert (is_u64 (max_sessions c) ∧ is_u64 (max_streams c)) as [H1 H2]
    by (split; apply limit_u64; simpl; tauto || done).
  split_and!; try (apply Hl; simpl; tauto || done).
  unfold auth_skew_seconds. destruct (c_auth_skew_seconds c) as [v|] eqn:Hv; simpl; [|done].
  by apply (proj2 Hc) in Hv as [? _].
Qed.

Lemma validate_quic_window_Ok c :
  validate_quic_window_limits c = Ok tt ↔
  window_ok (opt_limit c_quic_stream_receive_window c) ∧ window_ok (opt_limit c_quic_connection_receive_window c) ∧
  quic_stream_receive_window c ≤ quic_connection_receive_window c.
Proof.
  assert (∀ n o, validate_window n o = Ok tt ↔ window_ok o) as Hw.
  { intros n o. unfold validate_window, window_ok. rewrite if_some_Ok. split; intros H w Hw; specialize (H w Hw).
    - passed H. checks. done.
    - destruct H. by checks. }
  unfold validate_quic_window_limits. rewrite !then_Ok, !Hw.
  destruct (Z.ltb_spec (quic_connection_receive_window c) (quic_stream_receive_window c)); split.
  - by intros (_ & _ & ?).
  - intros (_ & _ & ?). lia.
  - by intros (? & ? & _).
  - by intros (? & ? & _).
Qed.

Lemma covers_skew_Ok c :
  0 ≤ auth_skew_seconds c ≤ MAX_AUTH_SKEW_SECONDS →
  validate_replay_cache_covers_auth_skew c = Ok tt ↔ 2 * auth_skew_seconds c ≤ replay_cache_window_seconds c.
Proof.
  unfold MAX_AUTH_SKEW_SECONDS. intros Hs. unfold validate_replay_cache_covers_auth_skew.
  rewrite Z.min_l by (change U64_MAX with 18446744073709551615; lia).
  destruct (Z.ltb_spec (replay_cache_window_seconds c) (auth_skew_seconds c * 2)); split; done || lia.
Qed.

Lemma buffer_Ok c :
  if_some (opt_limit c_relay_buffer_size c) (λ n,
    let? _ := reject_small_limit "relay_buffer_size" n 1024 in
    reject_large_limit "relay_buffer_size" n (1024 * 1024)) = Ok tt ↔
  1024 ≤ relay_buffer_size c ≤ 1024 * 1024.
Proof.
  unfold relay_buffer_size. destruct (opt_limit c_relay_buffer_size c) as [n|]; simpl; [|done].
  rewrite then_Ok, reject_small_limit_Ok, reject_large_limit_Ok. done.
Qed.

(** Validation accepts exactly the configurations within these bounds. *)
Lemma validate_limits_iff {P : Platform} c : config_wf c → validate_limits c = Ok tt ↔ sound_limits c.
Proof.
  intros Hc. destruct (limits_nonneg c Hc) as (? & ? & ? & ? & ? & ? & ? & ? & ? & ? & ? & ? & ? & ?).
  unfold validate_limits, reject_semaphore_permit_limit. split.
  - intros H'. passed H'. checks.
    repeat match goal with
    | H : validate_quic_window_limits c = Ok _ |- _ => apply validate_quic_window_Ok in H as (? & ? & ?)
    | H : validate_replay_cache_covers_auth_skew c = Ok _ |- _ => apply covers_skew_Ok in H; [|lia]
    end.
    split; try done; try lia.
    apply buffer_Ok. by apply if_some_Ok.
  - intros []. unfold Auth.MIN_AUTH_RESPONSE_PAYLOAD_SIZE, Tcp.MIN_TCP_RELAY_FRAME_SIZE in *.
    assert (validate_quic_window_limits c = Ok tt) by (by apply validate_quic_window_Ok).
    repeat first [assumption|apply then_Ok; split]; first
      [done|by apply buffer_Ok|apply covers_skew_Ok; lia|checks; lia].
Qed.

(** ** Credentials that load *)

Lemma load_credentials_Ok seen cs creds :
  load_credentials seen cs = Ok creds ↔
  Forall2 (λ c cr, to_credential c = Ok cr) cs creds ∧ NoDup (Auth.key_id <$> creds) ∧
  Forall (λ cr, Auth.key_id cr ∉ seen) creds.
Proof.
  revert seen creds. induction cs as [|c cs IH]; intros seen creds; simpl.
  { split; [intros [= <-]; split_and!; constructor|]. by intros (->%Forall2_nil_inv_l & _). }
  rewrite rbind_Ok. split.
  - intros (cr & Hc & H). case_bool_decide as Hs; [done|]. apply rbind_Ok in H as (rest & (Hf & Hn & Hd)%IH & [= <-]).
    rewrite fmap_cons, NoDup_cons, Forall_cons. split_and!; [by constructor| |done|done|].
    + rewrite list_elem_of_fmap. intros (x & Hx & Hin). rewrite Forall_forall in Hd. specialize (Hd x Hin). set_solver.
    + eapply Forall_impl; [exact Hd|]. set_solver.
  - intros (Hf & Hn & Hd). apply Forall2_cons_inv_l in Hf as (cr & rest & Hc & Hf & ->).
    rewrite fmap_cons in Hn. apply NoDup_cons in Hn as [Hn1 Hn2]. apply Forall_cons in Hd as [Hd1 Hd2].
    exists cr. split; [done|]. rewrite bool_decide_false by done. apply rbind_Ok. exists rest. split; [|done].
    apply IH. split_and!; [done|done|]. rewrite Forall_forall in *. intros x Hx. rewrite list_elem_of_fmap in Hn1.
    specialize (Hd2 x Hx). set_solver.
Qed.

Lemma to_credential_Ok c cr :
  to_credential c = Ok cr →
  Auth.key_id cr = cc_key_id c ∧ Auth.secret cr = cc_secret c ∧ Auth.not_before cr = cc_not_before c ∧
  Auth.not_after cr = cc_not_after c ∧ Auth.policy_group cr = cc_policy_group c ∧
  Auth.validate_auth_material cr = Ok tt.
Proof.
  unfold to_credential. intros (st & _ & H)%rbind_Ok.
  destruct (match cc_policy_group c with Some g => invalid_policy_group g | None => false end); [done|].
  destruct (match cc_not_before c, cc_not_after c with Some b, Some a => a <? b | _, _ => false end); [done|].
  apply rbind_Ok in H as (k & Hk & [= <-]).
  unfold Auth.credential_active in Hk. apply rbind_Ok in Hk as ([] & Hv & [= <-]). simpl. split_and!; done.
Qed.

(** *** Loading a configuration never panics *)

Lemma if_some_no_panic {A} (o : option A) f : (∀ a, f a ≠ Panic) → if_some o f ≠ Panic.
Proof. destruct o; simpl; [auto|done]. Qed.

Lemma reject_no_panic name v m :
  reject_zero_limit name v ≠ Panic ∧ reject_small_limit name v m ≠ Panic ∧ reject_large_limit name v m ≠ Panic.
Proof. unfold reject_zero_limit, reject_small_limit, reject_large_limit. split_and!; no_panic. Qed.
#[local] Hint Resolve if_some_no_panic : no_panic.
#[local] Hint Extern 1 (reject_zero_limit _ _ ≠ Panic) => apply (reject_no_panic _ _ 0) : no_panic.
#[local] Hint Extern 1 (reject_small_limit _ _ _ ≠ Panic) => apply reject_no_panic : no_panic.
#[local] Hint Extern 1 (reject_large_limit _ _ _ ≠ Panic) => apply reject_no_panic : no_panic.

Lemma endpoint_no_panic n v :
  Endpoint.validate_host_port_endpoint n v ≠ Panic ∧ Endpoint.validate_observability_bind n v ≠ Panic.
Proof.
  unfold Endpoint.validate_observability_bind, Endpoint.validate_host_port_endpoint, Endpoint.validate_port.
  split; no_panic.
Qed.

Lemma validate_network_endpoints_no_panic c : validate_network_endpoints c ≠ Panic.
Proof.
  unfold validate_network_endpoints. pose proof endpoint_no_panic as Hn.
  apply rbind_no_panic; [apply map_err_no_panic, Hn|intros _ _]. apply rbind_no_panic.
  - apply if_some_no_panic. intros l. apply rbind_no_panic; [apply map_err_no_panic, Hn|]. intros. no_panic.
  - intros _ _. apply if_some_no_panic. intros l. apply rbind_no_panic; [apply map_err_no_panic, Hn|]. intros. no_panic.
Qed.

Lemma load_no_panic c : load c ≠ Panic.
Proof.
  unfold load. case_bool_decide as Hnil; [done|]. clear Hnil. generalize (∅ : gset Bytes). induction (credentials c) as [|x l IH]; [done|].
  intros seen. cbn [load_credentials]. apply rbind_no_panic; [|intros; no_panic; apply IH].
  unfold to_credential, Auth.credential_active, Auth.validate_auth_material, Auth.validate_key_id.
  unfold Auth.validate_shared_secret. no_panic.
Qed.

Lemma rules_try_from_no_panic raw : Policy.rules_try_from raw ≠ Panic.
Proof.
  induction raw as [|r l IH]; [done|].
  cbn [Policy.rules_try_from]. unfold Policy.rule_try_from, Policy.opt_transpose, Policy.validate_key_id_match.
  unfold Policy.validate_policy_group_match, Policy.validate_domain_match, Policy.validate_domain_suffix_match.
  unfold Policy.cidr_from_str, Auth.validate_key_id. no_panic.
Qed.

Lemma policy_set_no_panic fs c : policy_set fs c ≠ Panic.
Proof.
  unfold policy_set, validate_owner_only_writable_file, Policy.from_raw. no_panic. apply rules_try_from_no_panic.
Qed.

Lemma validate_limits_no_panic {P : Platform} c : validate_limits c ≠ Panic.
Proof.
  unfold validate_limits, reject_usize_limit, reject_semaphore_permit_limit, validate_masking.
  unfold validate_replay_cache_covers_auth_skew, validate_quic_window_limits, validate_window.
  unfold validate_auth_rate_limits, if_some. no_panic.
Qed.

Lemma validate_sensitive_paths_no_panic fs c : validate_sensitive_paths fs c ≠ Panic.
Proof. unfold validate_sensitive_paths, validate_sensitive_file_permissions. no_panic. Qed.
End ServerConfig.
