(* ===== verification/ClientConfig.v ===== *)
(** * ClientConfig: the client's configuration (crates/uk-client/src/config.rs)

    What a client reads from its file, what it refuses before it opens a
    connection, and the carrier an endpoint asks for.  Reading TOML is another
    crate's; the record is what it yields. *)

From S2P Require Import Prelude Wire FrameCodec RustStd Endpoint Auth Mask ServerConfig.

Module ClientConfig.

(* @src crates/uk-client/src/config.rs 17-18 DEFAULT_MAX_CARRIER_SESSIONS *)
Definition DEFAULT_MAX_CARRIER_SESSIONS : Z := 4.

(* @src crates/uk-client/src/config.rs 75-84 ClientMaskingConfig *)
Record ClientMaskingConfig : Set := {
  enabled : option bool;
  prelude_policy : option Bytes;
  quic : option bool
}.

(* @src crates/uk-client/src/config.rs 20-68 ClientConfig *)
Record ClientConfig : Set := {
  server_addr : Bytes;
  c_server_addrs : option (list Bytes);
  server_name : Bytes;
  observability_listen : option Bytes;
  ca_cert_path : Bytes;
  key_id : Bytes;
  secret : Bytes;
  c_handshake_timeout_seconds : option Z;
  c_server_connect_retry_delay_millis : option Z;
  c_socks_handshake_timeout_seconds : option Z;
  c_tcp_open_timeout_seconds : option Z;
  c_udp_flow_idle_timeout_seconds : option Z;
  c_shutdown_timeout_seconds : option Z;
  c_max_pending_open_bytes : option Z;
  c_max_socks_connections : option Z;
  c_max_buffered_bytes_per_session : option Z;
  c_max_buffered_bytes_per_flow : option Z;
  c_max_carrier_sessions : option Z;
  c_relay_buffer_size : option Z;
  masking : option ClientMaskingConfig
}.

(** What a configuration is refused for. *)
Inductive ClientConfigError : Set :=
  | BadEndpoint (e : Endpoint.EndpointError)
  | UnsupportedScheme
  | DuplicateEndpoint (index : nat)
  | BadMaterial (e : Auth.AuthError)
  | Refused (message : string).

Abbreviation ClientResult := (result ClientConfigError).

(** ** Values with their defaults *)

(* @src crates/uk-client/src/config.rs 160-162 ClientConfig::handshake_timeout_seconds *)
Definition handshake_timeout_seconds (c : ClientConfig) : Z := default 10 (c_handshake_timeout_seconds c).
(* @src crates/uk-client/src/config.rs 165-167 ClientConfig::server_connect_retry_delay_millis *)
Definition server_connect_retry_delay_millis (c : ClientConfig) : Z :=
  default 250 (c_server_connect_retry_delay_millis c).
(* @src crates/uk-client/src/config.rs 170-172 ClientConfig::socks_handshake_timeout_seconds *)
Definition socks_handshake_timeout_seconds (c : ClientConfig) : Z := default 10 (c_socks_handshake_timeout_seconds c).
(* @src crates/uk-client/src/config.rs 175-177 ClientConfig::tcp_open_timeout_seconds *)
Definition tcp_open_timeout_seconds (c : ClientConfig) : Z := default 10 (c_tcp_open_timeout_seconds c).
(* @src crates/uk-client/src/config.rs 180-182 ClientConfig::udp_flow_idle_timeout_seconds *)
Definition udp_flow_idle_timeout_seconds (c : ClientConfig) : Z := default 120 (c_udp_flow_idle_timeout_seconds c).
(* @src crates/uk-client/src/config.rs 185-187 ClientConfig::shutdown_timeout_seconds *)
Definition shutdown_timeout_seconds (c : ClientConfig) : Z := default 30 (c_shutdown_timeout_seconds c).
(* @src crates/uk-client/src/config.rs 190-192 ClientConfig::max_pending_open_bytes *)
Definition max_pending_open_bytes (c : ClientConfig) : Z := default 65536 (c_max_pending_open_bytes c).
(* @src crates/uk-client/src/config.rs 195-197 ClientConfig::max_socks_connections *)
Definition max_socks_connections (c : ClientConfig) : Z := default 1024 (c_max_socks_connections c).
(* @src crates/uk-client/src/config.rs 200-203 ClientConfig::max_buffered_bytes_per_session *)
Definition max_buffered_bytes_per_session (c : ClientConfig) : Z :=
  default Frame.MAX_FRAME_PAYLOAD_SIZE (c_max_buffered_bytes_per_session c).
(* @src crates/uk-client/src/config.rs 206-208 ClientConfig::max_buffered_bytes_per_flow *)
Definition max_buffered_bytes_per_flow (c : ClientConfig) : Z := default 2097152 (c_max_buffered_bytes_per_flow c).
(* @src crates/uk-client/src/config.rs 211-214 ClientConfig::max_carrier_sessions *)
Definition max_carrier_sessions (c : ClientConfig) : Z :=
  default DEFAULT_MAX_CARRIER_SESSIONS (c_max_carrier_sessions c).
(* @src crates/uk-client/src/config.rs 365-367 ClientConfig::relay_buffer_size *)
Definition relay_buffer_size (c : ClientConfig) : Z := default (16 * 1024) (c_relay_buffer_size c).

(* @src crates/uk-client/src/config.rs 217-221 ClientConfig::masking_quic_enabled *)
Definition masking_quic_enabled (c : ClientConfig) : bool := default false (masking c ≫= quic).
(* @src crates/uk-client/src/config.rs 224-229 ClientConfig::masking_enabled *)
Definition masking_enabled (c : ClientConfig) : bool := default false (masking c ≫= enabled).
(* @src crates/uk-client/src/config.rs 235-245 ClientConfig::masking_prelude_policy *)
Definition masking_prelude_policy (c : ClientConfig) : ClientResult Mask.PreludePolicy :=
  let policy := default (Mask.policy_as_str Mask.Fade) (masking c ≫= prelude_policy) in
  ok_or (Refused "masking.prelude_policy must be one of fade, full8, low7") (Mask.policy_parse policy).

(* @src crates/uk-client/src/config.rs 285-288 ClientConfig::server_addrs *)
Definition server_addrs (c : ClientConfig) : list Bytes := default [] (c_server_addrs c).
(* @src crates/uk-client/src/config.rs 290-295 ClientConfig::server_endpoints *)
Definition server_endpoints (c : ClientConfig) : list Bytes := server_addr c :: server_addrs c.

(** ** Validation *)

(* @src crates/uk-client/src/config.rs 248-251 ClientConfig::validate_auth_material *)
Definition validate_auth_material (c : ClientConfig) : Auth.AuthResult unit :=
  let? _ := Auth.validate_key_id (key_id c) in
  Auth.validate_shared_secret (secret c).

(* @src crates/uk-client/src/config.rs 377-382 CarrierKind *)
Inductive CarrierKind : Set := Tls | Quic.

#[global] Instance CarrierKind_eq_dec : EqDecision CarrierKind.
Proof. solve_decision. Defined.

Definition QUIC_SCHEME : Bytes := bytes_of_string "quic://".
Definition TLS_SCHEME : Bytes := bytes_of_string "tls://".
Definition SCHEME_SEPARATOR : Bytes := bytes_of_string "://".

(* @src crates/uk-client/src/config.rs 383-400 parse_endpoint *)
Definition parse_endpoint (raw : Bytes) : ClientResult (CarrierKind * Bytes) :=
  match strip_prefix QUIC_SCHEME raw with
  | Some rest => Ok (Quic, rest)
  | None =>
    match strip_prefix TLS_SCHEME raw with
    | Some rest => Ok (Tls, rest)
    | None => if contains_str SCHEME_SEPARATOR raw then Err UnsupportedScheme else Ok (Tls, raw)
    end
  end.

(* @src crates/uk-client/src/config.rs 402-410 validate_endpoint *)
Definition validate_endpoint (name : string) (value : Bytes) : ClientResult unit :=
  let? '(_, addr) := parse_endpoint value in
  map_err BadEndpoint (Endpoint.validate_host_port_endpoint name addr).

(** The loop over the fallback endpoints, with those already seen. *)
(* @src crates/uk-client/src/config.rs 274-281 ClientConfig::validate_network_endpoints *)
Fixpoint validate_fallbacks (index : nat) (seen : gset Bytes) (addrs : list Bytes) : ClientResult unit :=
  match addrs with
  | [] => Ok tt
  | endpoint :: addrs' =>
    let? _ := validate_endpoint "server_addrs" endpoint in
    if bool_decide (endpoint ∈ seen) then Err (DuplicateEndpoint index)
    else validate_fallbacks (S index) ({[ endpoint ]} ∪ seen) addrs'
  end.

(* @src crates/uk-client/src/config.rs 257-283 ClientConfig::validate_network_endpoints *)
Definition validate_network_endpoints (c : ClientConfig) : ClientResult unit :=
  let? _ := validate_endpoint "server_addr" (server_addr c) in
  let? _ :=
    match observability_listen c with
    | Some listen =>
      let? _ := map_err BadEndpoint (Endpoint.validate_observability_bind "observability_listen" listen) in Ok tt
    | None => Ok tt
    end in
  validate_fallbacks 0 {[ server_addr c ]} (server_addrs c).

Section Limits.
Context {P : Platform}.

Definition refuse_if (b : bool) (message : string) : ClientResult unit := if b then Err (Refused message) else Ok tt.

(* @src crates/uk-client/src/config.rs 298-362 ClientConfig::validate_resource_limits *)
Definition validate_resource_limits (c : ClientConfig) : ClientResult unit :=
  let? _ := masking_prelude_policy c in
  let connections := max_socks_connections c in
  let? _ := refuse_if (connections =? 0) "max_socks_connections must be greater than zero" in
  let? _ := ok_or (Refused "max_socks_connections is too large for this platform") (usize_try_from connections) in
  let? _ := refuse_if (ServerConfig.MAX_PERMITS <? connections) "max_socks_connections is too large" in
  let pending := max_pending_open_bytes c in
  let? _ := refuse_if (pending =? 0) "max_pending_open_bytes must be greater than zero" in
  let? _ := refuse_if (Frame.MAX_FRAME_PAYLOAD_SIZE <? pending) "max_pending_open_bytes is too large" in
  let session := max_buffered_bytes_per_session c in
  let? _ := refuse_if (session =? 0) "max_buffered_bytes_per_session must be greater than zero" in
  let? _ := refuse_if (Frame.MAX_FRAME_PAYLOAD_SIZE <? session) "max_buffered_bytes_per_session is too large" in
  let flow := max_buffered_bytes_per_flow c in
  let? _ := refuse_if (flow =? 0) "max_buffered_bytes_per_flow must be greater than zero" in
  let? _ := refuse_if (Frame.MAX_FRAME_PAYLOAD_SIZE <? flow) "max_buffered_bytes_per_flow is too large" in
  let sessions := max_carrier_sessions c in
  let? _ := refuse_if (sessions =? 0) "max_carrier_sessions must be greater than zero" in
  let? _ := ok_or (Refused "max_carrier_sessions is too large for this platform") (usize_try_from sessions) in
  let? _ :=
    match c_relay_buffer_size c with
    | Some size =>
      let? _ := refuse_if (size <? 1024) "relay_buffer_size must be at least 1024" in
      refuse_if (1024 * 1024 <? size) "relay_buffer_size must be at most 1048576"
    | None => Ok tt
    end in
  match c_socks_handshake_timeout_seconds c with
  | Some timeout => refuse_if (timeout =? 0) "socks_handshake_timeout_seconds must be greater than zero"
  | None => Ok tt
  end.

(** What rustls makes of the CA file and of the server's name. *)
Context (ca_ok server_name_ok : Bytes → bool).

(* @src crates/uk-client/src/lib.rs 107-114 check_config *)
Definition check_config (c : ClientConfig) : ClientResult unit :=
  let? _ := validate_network_endpoints c in
  let? _ := validate_resource_limits c in
  let? _ := map_err BadMaterial (validate_auth_material c) in
  let? _ := refuse_if (negb (ca_ok (ca_cert_path c))) "CA certificates" in
  refuse_if (negb (server_name_ok (server_name c))) "server name".
End Limits.

(** ** The configuration in force (config_state.rs) *)

(* @src crates/uk-client/src/config_state.rs 10-10 INITIAL_GENERATION *)
Definition INITIAL_GENERATION : Z := 1.

(* @src crates/uk-client/src/config_state.rs 18-21 ClientConfigGeneration *)
Record ClientConfigGeneration : Set := { generation : Z; config : ClientConfig }.

(* @src crates/uk-client/src/config_state.rs 12-16 ClientConfigState *)
Record ClientConfigState : Set := { current : ClientConfigGeneration; next_generation : Z }.

(* @src crates/uk-client/src/config_state.rs 30-40 ClientConfigState::new *)
Definition state_new (c : ClientConfig) : ClientConfigState :=
  {| current := {| generation := INITIAL_GENERATION; config := c |}; next_generation := INITIAL_GENERATION + 1 |}.

(* @src crates/uk-client/src/config_state.rs 46-52 ClientConfigState::snapshot *)
Definition snapshot (s : ClientConfigState) : ClientConfigGeneration := current s.

(** The atomic counter wraps at 64 bits. *)
(* @src crates/uk-client/src/config_state.rs 54-61 ClientConfigState::replace *)
Definition replace (s : ClientConfigState) (c : ClientConfig) : Z * ClientConfigState :=
  let g := next_generation s in
  (g, {| current := {| generation := g; config := c |}; next_generation := truncate 64 (g + 1) |}).

(** ** Lemmas *)

Lemma refuse_if_Ok b m : refuse_if b m = Ok tt ↔ b = false.
Proof. by destruct b. Qed.

Lemma refuse_then {B} b m (k : ClientResult B) u : (let? _ := refuse_if b m in k) = Ok u ↔ b = false ∧ k = Ok u.
Proof. by rewrite ServerConfig.then_Ok, refuse_if_Ok. Qed.

Lemma usize_then {P : Platform} {B} e z (k : ClientResult B) u :
  (let? _ := ok_or e (usize_try_from z) in k) = Ok u ↔ z ≤ USIZE_MAX ∧ k = Ok u.
Proof.
  unfold usize_try_from. destruct (decide (z ≤ USIZE_MAX)); simpl; naive_solver.
Qed.

(** The bounds of a configuration the client can run. *)
Record sound_limits {P : Platform} (c : ClientConfig) : Prop := {
  cl_policy : ∃ p, masking_prelude_policy c = Ok p;
  cl_connections : 1 ≤ max_socks_connections c ≤ ServerConfig.MAX_PERMITS;
  cl_pending : 1 ≤ max_pending_open_bytes c ≤ Frame.MAX_FRAME_PAYLOAD_SIZE;
  cl_session : 1 ≤ max_buffered_bytes_per_session c ≤ Frame.MAX_FRAME_PAYLOAD_SIZE;
  cl_flow : 1 ≤ max_buffered_bytes_per_flow c ≤ Frame.MAX_FRAME_PAYLOAD_SIZE;
  cl_sessions : 1 ≤ max_carrier_sessions c ≤ USIZE_MAX;
  cl_buffer : 1024 ≤ relay_buffer_size c ≤ 1024 * 1024;
  cl_socks_timeout : 1 ≤ socks_handshake_timeout_seconds c
}.

(** The fields are [u64]s and a [usize]. *)
Definition config_wf (c : ClientConfig) : Prop :=
  0 ≤ max_socks_connections c ∧ 0 ≤ max_pending_open_bytes c ∧ 0 ≤ max_buffered_bytes_per_session c ∧
  0 ≤ max_buffered_bytes_per_flow c ∧ 0 ≤ max_carrier_sessions c ∧ 0 ≤ relay_buffer_size c ∧
  0 ≤ socks_handshake_timeout_seconds c.

Lemma validate_resource_limits_iff {P : Platform} c :
  config_wf c → validate_resource_limits c = Ok tt ↔ sound_limits c.
Proof.
  intros (H1 & H2 & H3 & H4 & H5 & H6 & H7). pose proof ServerConfig.permits_usize.
  assert (∀ z, 0 ≤ z → (z =? 0) = false ↔ 1 ≤ z) as Hz by (intros; rewrite Z.eqb_neq; lia).
  assert (match c_relay_buffer_size c with
          | Some size =>
            let? _ := refuse_if (size <? 1024) "relay_buffer_size must be at least 1024" in
            refuse_if (1024 * 1024 <? size) "relay_buffer_size must be at most 1048576"
          | None => Ok tt
          end = Ok tt ↔ 1024 ≤ relay_buffer_size c ≤ 1024 * 1024) as Hb.
  { unfold relay_buffer_size. destruct (c_relay_buffer_size c) as [z|]; simpl; [|split; [lia|done]].
    by rewrite ServerConfig.then_Ok, !refuse_if_Ok, !Z.ltb_ge. }
  assert (match c_socks_handshake_timeout_seconds c with
          | Some timeout => refuse_if (timeout =? 0) "socks_handshake_timeout_seconds must be greater than zero"
          | None => Ok tt
          end = Ok tt ↔ 1 ≤ socks_handshake_timeout_seconds c) as Ht.
  { unfold socks_handshake_timeout_seconds in *. destruct (c_socks_handshake_timeout_seconds c); simpl in *.
    - by rewrite refuse_if_Ok, Hz.
    - split; [lia|done]. }
  unfold validate_resource_limits. rewrite rbind_Ok.
  assert (∀ p : Prop, p ↔ (∃ a, masking_prelude_policy c = Ok a ∧ sound_limits c) → p ↔ sound_limits c) as Hp.
  { intros p ->. split; [by intros (? & _ & ?)|]. intros Hs. by destruct (cl_policy c Hs) as [a ?]; exists a. }
  apply Hp. f_equiv. intros a. split; intros [Ha Hr]; (split; [done|]).
  - repeat rewrite ?refuse_then, ?usize_then in Hr. rewrite !Z.ltb_ge, !Hz in Hr by done.
    rewrite ServerConfig.then_Ok, Hb, Ht in Hr. split; naive_solver.
  - destruct Hr. repeat rewrite ?refuse_then, ?usize_then. rewrite !Z.ltb_ge, !Hz by done.
    rewrite ServerConfig.then_Ok, Hb, Ht. split_and!; lia.
Qed.

(** Validated endpoints are pairwise different and each names a carrier and an
    address to dial. *)
Definition dialable (endpoint : Bytes) : Prop :=
  ∃ kind addr name, parse_endpoint endpoint = Ok (kind, addr) ∧
    Endpoint.validate_host_port_endpoint name addr = Ok tt.

Lemma validate_endpoint_dialable name endpoint : validate_endpoint name endpoint = Ok tt → dialable endpoint.
Proof. intros ([kind addr] & Hp & He%map_err_Ok)%rbind_Ok. by exists kind, addr, name. Qed.

Lemma validate_fallbacks_Ok i seen addrs :
  validate_fallbacks i seen addrs = Ok tt →
  Forall dialable addrs ∧ NoDup addrs ∧ ∀ a, a ∈ addrs → a ∉ seen.
Proof.
  revert i seen. induction addrs as [|a addrs IH]; intros i seen; simpl.
  { intros _. split_and!; [done|constructor|]. by intros a ?%elem_of_nil. }
  intros (u & Hv & H)%rbind_Ok. destruct u. case_bool_decide as Hs; [done|].
  apply IH in H as (Hf & Hn & Hd). split_and!.
  - constructor; [by eapply validate_endpoint_dialable|done].
  - constructor; [|done]. intros Ha%Hd. set_solver.
  - intros b [->|Hb]%elem_of_cons; [done|]. apply Hd in Hb. set_solver.
Qed.

Lemma validated_endpoints c :
  validate_network_endpoints c = Ok tt → NoDup (server_endpoints c) ∧ Forall dialable (server_endpoints c).
Proof.
  unfold validate_network_endpoints, server_endpoints. intros H. apply ServerConfig.then_Ok in H as [Hv H].
  apply rbind_Ok in H as (u & _ & (Hf & Hn & Hd)%validate_fallbacks_Ok). split.
  - constructor; [|done]. intros Ha%Hd. set_solver.
  - constructor; [by eapply validate_endpoint_dialable|done].
Qed.

(** A client whose configuration was checked can build its answer to a challenge. *)
Lemma check_config_Ok {P : Platform} ca_ok name_ok c :
  config_wf c → check_config ca_ok name_ok c = Ok tt ↔
  validate_network_endpoints c = Ok tt ∧ sound_limits c ∧ validate_auth_material c = Ok tt ∧
  ca_ok (ca_cert_path c) = true ∧ name_ok (server_name c) = true.
Proof.
  intros Hwf. unfold check_config. rewrite !ServerConfig.then_Ok, map_err_Ok, !refuse_if_Ok, !negb_false_iff.
  by rewrite validate_resource_limits_iff.
Qed.
End ClientConfig.
