(* ===== verification/Security.v ===== *)
(** * Security: the hot-reloadable security generation (crates/uk-server/src/security.rs)

    Credentials, masking keys and the policy live in one immutable generation
    behind a watch channel.  A handshake takes an authentication snapshot, every
    flow open takes a policy snapshot, and a reload replaces the generation as a
    whole.  The TLS acceptor is another crate's and only passed along: its type
    is a parameter. *)

From S2P Require Import Prelude Wire RustStd TargetCodec Auth Policy Mask.

Module Security.
Import Auth.

Section Generations.
Context {TlsAcceptor : Type}.

(* @src crates/uk-server/src/security.rs 15-15 INITIAL_GENERATION *)
Definition INITIAL_GENERATION : Z := 1.

(* @src crates/uk-server/src/security.rs 23-34 SecurityGeneration *)
Record SecurityGeneration : Type := {
  generation : Z;
  tls_acceptor : TlsAcceptor;
  credentials : list Credential;
  mask_keys : list Mask.MaskKeys;
  policy_set : Policy.PolicySet;
  auth_skew : Z
}.

(** What a reload reads from the configuration, before it is numbered. *)
Record Material : Type := {
  m_acceptor : TlsAcceptor;
  m_credentials : list Credential;
  m_keys : list Mask.MaskKeys;
  m_policy : Policy.PolicySet;
  m_skew : Z
}.

Definition numbered (g : Z) (m : Material) : SecurityGeneration :=
  {| generation := g; tls_acceptor := m_acceptor m; credentials := m_credentials m;
     mask_keys := m_keys m; policy_set := m_policy m; auth_skew := m_skew m |}.

(* @src crates/uk-server/src/security.rs 17-21 SecurityState *)
Record SecurityState : Type := { current : SecurityGeneration; next_generation : Z }.

(* @src crates/uk-server/src/security.rs 36-42 AuthenticationSnapshot *)
Record AuthenticationSnapshot : Type := {
  as_generation : Z;
  as_acceptor : TlsAcceptor;
  as_credentials : list Credential;
  as_mask_keys : list Mask.MaskKeys;
  as_skew : Z
}.

(* @src crates/uk-server/src/security.rs 44-47 PolicySnapshot *)
Record PolicySnapshot : Type := { ps_generation : Z; ps_policy_set : Policy.PolicySet }.

(* @src crates/uk-server/src/security.rs 50-70 SecurityState::new *)
Definition state_new (m : Material) : SecurityState :=
  {| current := numbered INITIAL_GENERATION m; next_generation := INITIAL_GENERATION + 1 |}.

(* @src crates/uk-server/src/security.rs 72-74 SecurityState::generation *)
Definition generation_of (s : SecurityState) : Z := generation (current s).

(* @src crates/uk-server/src/security.rs 76-85 SecurityState::authentication_snapshot *)
Definition authentication_snapshot (s : SecurityState) : AuthenticationSnapshot :=
  let g := current s in
  {| as_generation := generation g; as_acceptor := tls_acceptor g;
     as_credentials := credentials g; as_mask_keys := mask_keys g; as_skew := auth_skew g |}.

(** The closure of the search in [policy_snapshot]. *)
Definition names (identity : AuthenticatedIdentity) (now : Z) (c : Credential) : bool :=
  bool_decide (key_id c = id_key_id identity)
  && bool_decide (policy_group c = id_policy_group identity)
  && is_active_at c now.

(* @src crates/uk-server/src/security.rs 87-102 SecurityState::policy_snapshot *)
Definition policy_snapshot (s : SecurityState) (identity : AuthenticatedIdentity) (now : Z)
    : option PolicySnapshot :=
  let g := current s in
  match find (names identity now) (credentials g) with
  | Some _ => Some {| ps_generation := generation g; ps_policy_set := policy_set g |}
  | None => None
  end.

(** The atomic counter wraps at 64 bits. *)
(* @src crates/uk-server/src/security.rs 104-123 SecurityState::replace *)
Definition replace (s : SecurityState) (m : Material) : Z * SecurityState :=
  let g := next_generation s in
  (g, {| current := numbered g m; next_generation := truncate 64 (g + 1) |}).

(** A series of reloads. *)
Definition reloads (s : SecurityState) (ms : list Material) : SecurityState :=
  foldl (λ s m, (replace s m).2) s ms.

(** ** Lemmas *)

Lemma names_true identity now c :
  names identity now c = true ↔ identity_from c = identity ∧ is_active_at c now = true.
Proof.
  unfold names, identity_from. rewrite !andb_true_iff, !bool_decide_eq_true.
  destruct identity as [k g]. simpl. split; [by intros [[-> ->] ?]|intros [[= -> ->] ?]; done].
Qed.

Lemma policy_snapshot_Some s identity now p :
  policy_snapshot s identity now = Some p ↔
  p = {| ps_generation := generation (current s); ps_policy_set := policy_set (current s) |} ∧
  ∃ c, In c (credentials (current s)) ∧ identity_from c = identity ∧ is_active_at c now = true.
Proof.
  unfold policy_snapshot. destruct (find _ _) as [c|] eqn:Hf.
  - apply find_some in Hf as [Hin Hn%names_true]. split; [|by intros [-> _]]. intros [= <-]. eauto.
  - split; [done|]. intros (_ & c & Hin & Hn). apply (find_none _ _ Hf) in Hin.
    apply names_true in Hn. congruence.
Qed.

Lemma reloads_app s a b : reloads s (a ++ b) = reloads (reloads s a) b.
Proof. apply foldl_app. Qed.

(** Up to 2^64 - 3 reloads, the generations are numbered 2, 3, ... in order. *)
Lemma reloads_numbered m0 ms :
  zlen ms < 2 ^ 64 - 2 →
  next_generation (reloads (state_new m0) ms) = zlen ms + 2 ∧
  current (reloads (state_new m0) ms) =
    numbered (zlen ms + 1) (List.last ms m0).
Proof.
  induction ms as [|m ms IH] using rev_ind; intros Hlen; [done|].
  rewrite length_app in Hlen. simpl in Hlen. destruct IH as [Hn Hc]; [lia|].
  rewrite reloads_app. cbn [reloads foldl replace snd next_generation current].
  rewrite Hn, List.last_last, length_app. cbn [length]. unfold truncate.
  change (2 ^ 64) with 18446744073709551616 in *. rewrite Z.mod_small by lia.
  split; [lia|]. f_equal. lia.
Qed.
End Generations.
Arguments SecurityGeneration : clear implicits.
Arguments SecurityState : clear implicits.
Arguments Material : clear implicits.
Arguments AuthenticationSnapshot : clear implicits.

(** C33: Revocation takes effect at the next flow.  After any series of reloads
    (fewer than 2^64 - 2 of them) an authenticated session gets a policy snapshot
    exactly while the latest generation still lists an active credential with its
    key id and policy group, and what it gets is that generation's policy under
    that generation's number; a session whose credential was removed, disabled,
    moved to another group or has expired gets none, whatever generation it
    authenticated under. *)
Theorem revocation_at_next_open {T} (m0 : Material T) ms identity now p :
  zlen ms < 2 ^ 64 - 2 →
  let latest := List.last ms m0 in
  policy_snapshot (reloads (state_new m0) ms) identity now = Some p ↔
  p = {| ps_generation := zlen ms + 1; ps_policy_set := m_policy latest |} ∧
  ∃ c, In c (m_credentials latest) ∧ identity_from c = identity ∧ is_active_at c now = true.
Proof.
  intros Hlen latest. rewrite policy_snapshot_Some.
  by rewrite (proj2 (reloads_numbered m0 ms Hlen)).
Qed.

Definition demo_credential (s : CredentialStatus) : Credential :=
  {| key_id := [97]; secret := replicate 32 7; policy_group := None; status := s;
     not_before := None; not_after := None |}.
Definition demo_material (s : CredentialStatus) : Material unit :=
  {| m_acceptor := tt; m_credentials := [demo_credential s]; m_keys := [];
     m_policy := {| Policy.rules := [] |}; m_skew := 0 |}.

Lemma revocation_at_next_open_witness :
  policy_snapshot (reloads (state_new (demo_material Active)) [demo_material Disabled])
    {| id_key_id := [97]; id_policy_group := None |} 1700000000 = None.
Proof.
  destruct (policy_snapshot _ _ _) as [p|] eqn:Hp; [|reflexivity].
  apply (revocation_at_next_open (demo_material Active) [demo_material Disabled]) in Hp; [|reflexivity].
  destruct Hp as (_ & c & [<-|[]] & _ & Ha). vm_compute in Ha. discriminate Ha.
Defined.
End Security.
