(* ===== verification/Masking.v ===== *)
(** * Masking: the admission gate of masked carriers (crates/uk-server/src/masking.rs)

    Admission reads the prelude, verifies it, prechecks its counter against the
    replay registry and wraps the stream; the counter is committed by the
    [CommitGate] in front of the first TLS record that is not an alert.  A
    rejected connection counts as an authentication failure and is drained in
    silence.  The connections share the registry, so the commits interleave as
    the connection tasks write.  What the socket and the clock do is an argument
    of each operation. *)

From S2P Require Import Prelude Wire RustStd TargetCodec Auth Policy Mask MaskReplay MaskStream RateLimit.

Module Masking.
Import Mask Replay Stream.

Section Admission.
Context {H : HmacSha256} {C : ChaCha20}.

(* @src crates/uk-server/src/masking.rs 48-48 DRAIN_READ_BYTES *)
Definition DRAIN_READ_BYTES : Z := 4096.
(* @src crates/uk-server/src/masking.rs 49-49 DRAIN_MAX_READS *)
Definition DRAIN_MAX_READS : Z := 64.
(* @src crates/uk-server/src/masking.rs 268-269 TLS_ALERT_CONTENT_TYPE *)
Definition TLS_ALERT_CONTENT_TYPE : Z := 21.

(** The registry sits behind a mutex, which is poisoned if a holder panicked. *)
(* @src crates/uk-server/src/masking.rs 66-75 MaskingState *)
Record MaskingState : Type := {
  registry : ReplayRegistry;
  poisoned : bool;
  quic_keys : option MaskKeys
}.

(* @src crates/uk-server/src/masking.rs 78-83 MaskingState::new *)
Definition masking_new (capacity : Z) (quic : option MaskKeys) : result MaskError MaskingState :=
  let? r := registry_new capacity in
  Ok {| registry := r; poisoned := false; quic_keys := quic |}.

(* @src crates/uk-server/src/masking.rs 279-283 CommitGate *)
Record CommitGate : Type := { inner : MaskedStream; pending : option (Z * Z) }.

(* @src crates/uk-server/src/masking.rs 285-293 CommitGate::new *)
Definition gate_new (s : MaskedStream) (p : Z * Z) : CommitGate := {| inner := s; pending := Some p |}.

(* @src crates/uk-server/src/masking.rs 220-223 RejectKind *)
Inductive RejectKind : Set := PreludeKind | ReplayKind.

(** The counters of the metrics registry that admission touches. *)
Record MaskMetrics : Set := { prelude_rejects : Z; replay_rejects : Z; failed_auth : Z }.

Definition count (n : Z) : Z := truncate 64 (n + 1).

Definition record_rejection (kind : RejectKind) (m : MaskMetrics) : MaskMetrics :=
  match kind with
  | PreludeKind => {| prelude_rejects := count (prelude_rejects m); replay_rejects := replay_rejects m;
                      failed_auth := count (failed_auth m) |}
  | ReplayKind => {| prelude_rejects := prelude_rejects m; replay_rejects := count (replay_rejects m);
                     failed_auth := count (failed_auth m) |}
  end.

(** What wakes the draining loop. *)
Inductive drain_event : Set :=
  | DrainRead (n : Z)
  | DrainEnd
  | DrainShutdown
  | DrainDeadline.

(** What was read off a rejected connection, and whether it is closed with a
    reset. *)
Record Drained : Set := { drain_reads : Z; drain_bytes : Z; abortive : bool }.

(** [None]: the loop still waits when the script of events ends. *)
(* @src crates/uk-server/src/masking.rs 238-266 silent_drain *)
Fixpoint silent_drain (shutdown : bool) (evs : list drain_event) (reads bytes : Z) : option Drained :=
  let stop r b := Some {| drain_reads := r; drain_bytes := b; abortive := true |} in
  if shutdown then stop reads bytes else
  match evs with
  | [] => None
  | DrainShutdown :: _ | DrainEnd :: _ | DrainDeadline :: _ => stop reads bytes
  | DrainRead n :: evs' =>
    if n =? 0 then stop reads bytes
    else if DRAIN_MAX_READS <=? reads + 1 then stop (reads + 1) (bytes + n)
    else silent_drain shutdown evs' (reads + 1) (bytes + n)
  end.

(** Everything admission shares with the other connections. *)
Record World : Type := {
  masking : MaskingState;
  metrics : MaskMetrics;
  limiter : RateLimit.AuthRateLimiter
}.

(** The clock and the hash map's iteration order at the failure record, the
    peer, the shutdown flag, and what the socket does while it is drained. *)
Record Surroundings : Type := {
  now : Z;
  visit : list RateLimit.RateLimitKey;
  peer : IpAddr;
  stopping : bool;
  drain : list drain_event
}.

(** How a connection that is not admitted ends: the reason and its drain. *)
Record MaskRejected : Set := { reason : string; drained : option Drained }.

(* @src crates/uk-server/src/masking.rs 193-217 MaskingState::reject *)
Definition reject (w : World) (s : Surroundings) (with_drain : bool) (kind : RejectKind) (why : string)
    : MaskRejected * World :=
  let '(_, l) := RateLimit.record_failure (limiter w) (now s) (visit s) (peer s) in
  ({| reason := why;
      drained := if with_drain then silent_drain (stopping s) (drain s) 0 0 else None |},
   {| masking := masking w; metrics := record_rejection kind (metrics w); limiter := l |}).

(** [read] is what [read_exact] under the admission timeout gave: the 76 bytes,
    or [None] on an error, the end of the stream or the timeout. *)
(* @src crates/uk-server/src/masking.rs 94-188 MaskingState::admit *)
Definition masking_admit (w : World) (s : Surroundings) (read : option Bytes) (mask_keys : list MaskKeys)
    : result MaskRejected CommitGate * World :=
  let refuse with_drain kind why :=
    let '(r, w') := reject w s with_drain kind why in (Err r, w') in
  match read with
  | None => refuse false PreludeKind "masking prelude read failed"
  | Some wire =>
    let prelude := take PRELUDE_LEN wire in
    let nonce := drop PRELUDE_LEN wire in
    match verify_prelude mask_keys prelude nonce with
    | None => refuse true PreludeKind "masking prelude rejected"
    | Some (keys, authenticated) =>
      let precheck_passed :=
        if poisoned (masking w) then false
        else bool_decide (precheck (registry (masking w)) (identity authenticated) (counter authenticated)
                          = Accepted) in
      if precheck_passed
      then (Ok (gate_new (new_server keys nonce) (identity authenticated, counter authenticated)), w)
      else refuse true ReplayKind "masking prelude replayed"
    end
  end.

(** The commit closure of [masking_admit]. *)
(* @src crates/uk-server/src/masking.rs 177-182 MaskingState::admit *)
Definition commit_fn (m : MaskingState) (p : Z * Z) : bool * MaskingState :=
  if poisoned m then (false, m) else
  let '(d, r) := commit (registry m) p.1 p.2 in
  (bool_decide (d = Accepted), {| registry := r; poisoned := poisoned m; quic_keys := quic_keys m |}).

Inductive GatePoll : Type :=
  | Through (r : Poll Z)
  | ReplayedAtCommit.

(** A buffer that makes no handshake progress: empty, or an alert record. *)
Definition no_progress (buf : Bytes) : bool :=
  match buf with [] => true | b :: _ => b =? TLS_ALERT_CONTENT_TYPE end.

(** [ans] is what the socket under the masked stream answers to a write. *)
(* @src crates/uk-server/src/masking.rs 314-338 CommitGate::poll_write *)
Definition gate_write (m : MaskingState) (g : CommitGate) (buf : Bytes) (ans : Poll Z)
    : GatePoll * MaskingState * CommitGate :=
  let through m p :=
    let '(r, s) := poll_write (inner g) buf ans in (Through r, m, {| inner := s; pending := p |}) in
  match pending g with
  | Some p =>
    if no_progress buf then through m (pending g) else
    let '(committed, m') := commit_fn m p in
    if committed then through m' None
    else (ReplayedAtCommit, m', {| inner := inner g; pending := None |})
  | None => through m None
  end.

(* @src crates/uk-server/src/masking.rs 304-312 CommitGate::poll_read *)
Definition gate_read (g : CommitGate) (ans : Poll Bytes) : Poll Bytes * CommitGate :=
  let '(r, s) := poll_read (inner g) ans in (r, {| inner := s; pending := pending g |}).

(** The admitted connections by number.  A connection whose write fails is torn
    down: the handshake that owns the gate returns the error. *)
Abbreviation Gates := (gmap Z CommitGate).

Record write_call : Type := { conn : Z; data : Bytes; answer : Poll Z }.

(** One write of one connection, and whether a record that is not an alert went
    through to the masked stream. *)
Definition gate_step (st : MaskingState * Gates) (w : write_call) : option Z * (MaskingState * Gates) :=
  let '(m, gs) := st in
  match gs !! conn w with
  | None => (None, st)
  | Some g =>
    let '(r, m', g') := gate_write m g (data w) (answer w) in
    match r with
    | Through _ => (if no_progress (data w) then None else Some (conn w), (m', <[conn w := g']> gs))
    | ReplayedAtCommit => (None, (m', delete (conn w) gs))
    end
  end.

Fixpoint gate_run (st : MaskingState * Gates) (ws : list write_call) : list Z * (MaskingState * Gates) :=
  match ws with
  | [] => ([], st)
  | w :: ws' =>
    let '(o, st1) := gate_step st w in
    let '(l, st2) := gate_run st1 ws' in
    (match o with Some k => k :: l | None => l end, st2)
  end.

(** ** Lemmas: admission *)

Lemma reject_world w s b kind why :
  masking (reject w s b kind why).2 = masking w ∧
  limiter (reject w s b kind why).2 =
    (RateLimit.record_failure (limiter w) (now s) (visit s) (peer s)).2.
Proof. unfold reject. by destruct (RateLimit.record_failure _ _ _ _). Qed.

(** Admission never touches the replay registry; it touches the limiter exactly
    when it refuses, by one failure of the peer. *)
Lemma admit_world w s read keys :
  masking (masking_admit w s read keys).2 = masking w ∧
  limiter (masking_admit w s read keys).2 =
    match (masking_admit w s read keys).1 with
    | Ok _ => limiter w
    | _ => (RateLimit.record_failure (limiter w) (now s) (visit s) (peer s)).2
    end.
Proof.
  assert (∀ b kind why,
    let '(r, w') := reject w s b kind why in
    masking w' = masking w ∧
    limiter w' = (RateLimit.record_failure (limiter w) (now s) (visit s) (peer s)).2) as Hr.
  { intros b kind why. pose proof (reject_world w s b kind why) as Hw. by destruct (reject w s b kind why). }
  unfold masking_admit. destruct read as [wire|].
  - destruct (verify_prelude _ _ _) as [[k a]|].
    + destruct (if poisoned _ then _ else _); [done|].
      specialize (Hr true ReplayKind "masking prelude replayed"). by destruct (reject _ _ _ _ _).
    + specialize (Hr true PreludeKind "masking prelude rejected"). by destruct (reject _ _ _ _ _).
  - specialize (Hr false PreludeKind "masking prelude read failed"). by destruct (reject _ _ _ _ _).
Qed.

(** The draining loop ends after at most [DRAIN_MAX_READS] reads. *)
Lemma silent_drain_bound shutdown evs reads bytes :
  0 ≤ reads < DRAIN_MAX_READS →
  Forall (λ e, match e with DrainRead n => 0 ≤ n ≤ DRAIN_READ_BYTES | _ => True end) evs →
  (∀ d, silent_drain shutdown evs reads bytes = Some d →
     drain_reads d ≤ DRAIN_MAX_READS ∧
     drain_bytes d ≤ bytes + (DRAIN_MAX_READS - reads) * DRAIN_READ_BYTES ∧ abortive d = true) ∧
  (DRAIN_MAX_READS - reads ≤ zlen evs → is_Some (silent_drain shutdown evs reads bytes)).
Proof.
  intros Hr Hevs. unfold DRAIN_MAX_READS, DRAIN_READ_BYTES in *. revert reads bytes Hr.
  induction Hevs as [|e evs He Hevs IH]; intros reads bytes Hr; cbn [silent_drain]; destruct shutdown.
  1,3: split; [intros d [= <-]; cbn; split_and!; [lia..|done]|done].
  { split; [done|]. simpl. lia. }
  destruct e as [n| | |]; [|(split; [intros d [= <-]; cbn; split_and!; [lia..|done]|done])..].
  destruct (Z.eqb_spec n 0).
  { split; [intros d [= <-]; cbn; split_and!; [lia..|done]|done]. }
  unfold DRAIN_MAX_READS. destruct (Z.leb_spec 64 (reads + 1)).
  { split; [intros d [= <-]; cbn; split_and!; [lia..|done]|done]. }
  destruct (IH (reads + 1) (bytes + n)) as [IH1 IH2]; [lia|]. split.
  - intros d Hd. destruct (IH1 d Hd) as (? & ? & ?). split_and!; [lia..|done].
  - intros Hl. apply IH2. cbn [length] in Hl. lia.
Qed.

(** The budget is 64 reads of 4 KiB each. *)
Example drain_discards_256k :
  silent_drain false (replicate 64 (DrainRead 4096)) 0 0 =
  Some {| drain_reads := 64; drain_bytes := 262144; abortive := true |}.
Proof. vm_compute. reflexivity. Qed.

(** A refused gate does not stay shut: a second write goes through, without a
    commit. *)
Lemma refused_gate_opens m g buf ans m' g' :
  gate_write m g buf ans = (ReplayedAtCommit, m', g') →
  ∀ buf2 ans2, gate_write m' g' buf2 ans2 =
    (Through (poll_write (inner g) buf2 ans2).1, m',
     {| inner := (poll_write (inner g) buf2 ans2).2; pending := None |}).
Proof.
  unfold gate_write at 1. intros Hw buf2 ans2.
  assert (g' = {| inner := inner g; pending := None |}) as ->.
  { destruct (pending g); [|by destruct (poll_write _ _ _)].
    destruct (no_progress buf); [by destruct (poll_write _ _ _)|].
    destruct (commit_fn m p) as [[|] m1]; [by destruct (poll_write _ _ _)|congruence]. }
  unfold gate_write. cbn [pending inner]. by destruct (poll_write (inner g) buf2 ans2).
Qed.

(** ** Lemmas: connections that race with the same prelude *)

(** The connections that still have to commit for an identity other than [i]. *)
Definition is_other (i : Z) (g : CommitGate) : bool :=
  match pending g with Some p => negb (p.1 =? i) | None => false end.
Definition others (i : Z) (gs : Gates) : Z :=
  Z.of_nat (size (filter (λ '(_, g), is_other i g = true) gs)).

Lemma others_new i gs k g :
  gs !! k = None → others i (<[k := g]> gs) = others i gs + (if is_other i g then 1 else 0).
Proof.
  intros Hk. unfold others. destruct (is_other i g) eqn:Ho.
  - rewrite map_filter_insert_True by done. rewrite map_size_insert_None; [lia|].
    apply map_lookup_filter_None. by left.
  - rewrite map_filter_insert_not'; [lia|by rewrite Ho|by rewrite Hk].
Qed.

Lemma others_delete i gs k g :
  gs !! k = Some g → others i (delete k gs) = others i gs - (if is_other i g then 1 else 0).
Proof.
  intros Hk. rewrite <- (insert_delete_id gs k g Hk) at 2.
  rewrite others_new by apply lookup_delete_eq. lia.
Qed.

Lemma others_insert i gs k g g' :
  gs !! k = Some g →
  others i (<[k := g']> gs) =
    others i gs - (if is_other i g then 1 else 0) + (if is_other i g' then 1 else 0).
Proof.
  intros Hk. rewrite <- insert_delete_eq, others_new by apply lookup_delete_eq.
  by rewrite (others_delete i gs k g Hk).
Qed.

Lemma survives_le r i n n' : 0 ≤ n' ≤ n → survives r i n → survives r i n'.
Proof. intros Hn (? & pre & post & E & Hle). split; [lia|]. exists pre, post. split; [done|lia]. Qed.

(** The connections [D] opened with the prelude [(i, c)]; [win] is the one of
    them that committed. *)
Definition race_inv (D : Z → Prop) (i c : Z) (win : option Z) (st : MaskingState * Gates) : Prop :=
  let '(m, gs) := st in
  poisoned m = false ∧ registry_ok (registry m) ∧
  map_Forall (λ k g, ∀ p, pending g = Some p → 0 ≤ p.2 ∧ (p.1 = i → D k ∧ p.2 = c)) gs ∧
  match win with
  | None => entries (registry m) !! i = None ∧ others i gs < capacity (registry m) ∧
            ∀ k, D k → ∃ g, gs !! k = Some g ∧ pending g = Some (i, c)
  | Some n => survives (registry m) i (others i gs) ∧
              (∃ e, entries (registry m) !! i = Some e ∧ marked e c) ∧
              ∀ k g, D k → gs !! k = Some g → pending g = Some (i, c) ∨ n = k
  end.

(** Committing for another identity leaves an untracked one untracked. *)
Lemma commit_other_untracked r i j c :
  registry_ok r → i ≠ j → entries r !! i = None → entries (commit r j c).2 !! i = None.
Proof.
  intros Hok Hij Hi. destruct (entries r !! j) as [e|] eqn:Hj.
  - rewrite (commit_tracked _ _ _ _ Hj). destruct (admits e c); [|done].
    cbn [snd entries]. by rewrite lookup_insert_ne.
  - pose proof (commit_untracked r j c Hok Hj) as Hun. case_decide; [by rewrite Hun|].
    destruct Hun as (o & m & -> & Hcase). cbn [snd entries]. rewrite lookup_insert_ne by done.
    destruct Hcase as [(_ & _ & ->)|(x & _ & _ & ->)]; [done|]. by apply lookup_delete_None; right.
Qed.

(** A write that does not commit changes the connection's stream only. *)
Lemma gate_step_quiet m gs w g :
  gs !! conn w = Some g → pending g = None ∨ no_progress (data w) = true →
  ∃ s, gate_step (m, gs) w =
    (if no_progress (data w) then None else Some (conn w),
     (m, <[conn w := {| inner := s; pending := pending g |}]> gs)).
Proof.
  intros Hg Hq. unfold gate_step. rewrite Hg. unfold gate_write.
  destruct (poll_write (inner g) (data w) (answer w)) as [r s]. exists s.
  destruct (pending g) as [p|] eqn:Hp; [|done]. destruct Hq as [?| ->]; [done|]. done.
Qed.

Definition with_registry (m : MaskingState) (r : ReplayRegistry) : MaskingState :=
  {| registry := r; poisoned := poisoned m; quic_keys := quic_keys m |}.

Lemma gate_step_commit m gs w g p :
  gs !! conn w = Some g → pending g = Some p → no_progress (data w) = false → poisoned m = false →
  let '(d, r) := commit (registry m) p.1 p.2 in
  ∃ s, gate_step (m, gs) w =
    if decide (d = Accepted)
    then (Some (conn w), (with_registry m r, <[conn w := {| inner := s; pending := None |}]> gs))
    else (None, (with_registry m r, delete (conn w) gs)).
Proof.
  intros Hg Hp Hn Hm. unfold gate_step. rewrite Hg. unfold gate_write, commit_fn. rewrite Hp, Hn, Hm.
  destruct (commit (registry m) p.1 p.2) as [d r].
  destruct (poll_write (inner g) (data w) (answer w)) as [r1 s]. exists s. unfold with_registry. rewrite Hm.
  destruct d; [by rewrite decide_True|by rewrite decide_False].
Qed.

(** What a step leaves behind: the invariant for a possibly new winner, the
    winner never changes, only the winner's records go through, and the first
    duplicate that makes progress wins. *)
Definition race_post (D : Z → Prop) (i c : Z) (win : option Z) (w : write_call)
    (out : option Z * (MaskingState * Gates)) : Prop :=
  ∃ win', race_inv D i c win' out.2 ∧ (win = None ∨ win' = win) ∧
    (∀ k, out.1 = Some k → D k → win' = Some k) ∧
    (∀ n, win = None → win' = Some n → D n ∧ out.1 = Some n) ∧
    (win = None → D (conn w) → no_progress (data w) = false → out.1 = Some (conn w)).

Lemma race_quiet D i c win m gs w g :
  race_inv D i c win (m, gs) → gs !! conn w = Some g →
  pending g = None ∨ no_progress (data w) = true →
  race_post D i c win w (gate_step (m, gs) w).
Proof.
  intros (Hm & Hok & Hall & Hwin) Hg Hq.
  destruct (gate_step_quiet m gs w g Hg Hq) as (s & ->). exists win. cbn [fst snd].
  set (g' := {| inner := s; pending := pending g |}).
  assert (others i (<[conn w := g']> gs) = others i gs) as Ho.
  { rewrite (others_insert i gs _ g) by done. change (is_other i g') with (is_other i g). lia. }
  split_and!; [split_and!; [done|done| |]|by right| | |].
  - by apply map_Forall_insert_2; [apply (Hall _ _ Hg)|].
  - destruct win as [n|]; rewrite Ho; destruct Hwin as (Hs1 & He & Hd); (split_and!; [done|done|]).
    + intros k g1 Hk Hl.
      apply lookup_insert_Some in Hl as [[<- <-]|[_ Hl]]; [exact (Hd _ _ Hk Hg)|exact (Hd _ _ Hk Hl)].
    + intros k Hk. destruct (decide (conn w = k)) as [<-|Hne].
      * rewrite lookup_insert_eq. exists g'. split; [done|]. destruct (Hd _ Hk) as (g1 & Hg1 & Hp).
        rewrite Hg in Hg1. by injection Hg1 as ->.
      * rewrite lookup_insert_ne by done. by apply Hd.
  - intros k Hk Hd. destruct (no_progress (data w)) eqn:Hn; [done|]. injection Hk as <-.
    destruct Hq as [Hq|]; [|done]. destruct win as [n|]; destruct Hwin as (_ & _ & Hw).
    + destruct (Hw _ _ Hd Hg); congruence.
    + destruct (Hw _ Hd) as (g1 & Hg1 & Hp). congruence.
  - by intros n ->.
  - by intros _ _ ->.
Qed.

(** After a commit attempt the connection has nothing pending, or is gone. *)
Definition settled (gs : Gates) (k : Z) (gs' : Gates) : Prop :=
  (∃ s, gs' = <[k := {| inner := s; pending := None |}]> gs) ∨ gs' = delete k gs.

Lemma settled_spec i gs k g gs' :
  gs !! k = Some g → settled gs k gs' →
  others i gs' = others i gs - (if is_other i g then 1 else 0) ∧
  (∀ k' g', gs' !! k' = Some g' → (k' = k ∧ pending g' = None) ∨ gs !! k' = Some g') ∧
  (∀ k', k' ≠ k → gs' !! k' = gs !! k').
Proof.
  intros Hg [[s ->]| ->].
  - rewrite (others_insert i gs k g) by done. split_and!.
    + change (is_other i {| inner := s; pending := None |}) with false. cbn match. lia.
    + intros k' g'. rewrite lookup_insert_Some. intros [[<- <-]|[_ Hl]]; [by left|by right].
    + intros k' Hk. by rewrite lookup_insert_ne.
  - rewrite (others_delete i gs k g) by done. split_and!; [done| |].
    + intros k' g'. rewrite lookup_delete_Some. intros [_ Hl]. by right.
    + intros k' Hk. by rewrite lookup_delete_ne.
Qed.

Lemma race_commit_other D i c win m gs w g p gs' o :
  race_inv D i c win (m, gs) → gs !! conn w = Some g → pending g = Some p → p.1 ≠ i →
  settled gs (conn w) gs' → o = Some (conn w) ∨ o = None →
  race_post D i c win w (o, (with_registry m (commit (registry m) p.1 p.2).2, gs')).
Proof.
  intros (Hm & Hok & Hall & Hwin) Hg Hp Hpi Hset Ho.
  destruct (settled_spec i gs (conn w) g gs' Hg Hset) as (Hoth & Hinv & Hsame).
  assert (is_other i g = true) as Hio.
  { unfold is_other. rewrite Hp. by apply negb_true_iff, Z.eqb_neq. } rewrite Hio in Hoth.
  assert (pending g ≠ Some (i, c)) as Hne by (rewrite Hp; by intros [= ->]).
  destruct (Hall _ _ Hg p Hp) as [Hp0 _]. destruct (commit_ok (registry m) p.1 p.2 Hp0 Hok) as [Hok' Hcap'].
  assert (map_Forall (λ k g, ∀ p, pending g = Some p → 0 ≤ p.2 ∧ (p.1 = i → D k ∧ p.2 = c)) gs') as Hall'.
  { intros k g1 [[-> Hn]|Hl]%Hinv p' Hp'; [congruence|exact (Hall _ _ Hl p' Hp')]. }
  exists win. unfold race_inv. cbn [fst snd with_registry registry poisoned].
  destruct win as [n|]; destruct Hwin as (H1 & H2 & H3).
  - destruct (survives_commit (registry m) i (others i gs) p.1 p.2 Hok) as [Hs Hsame']; [|done|].
    { intros _. pose proof (Nat2Z.is_nonneg (size (filter (λ '(_, g), is_other i g = true) gs'))).
      unfold others in *. lia. }
    split_and!; [done..| | | |by right| |by intros|done].
    + eapply survives_le; [|exact Hs]. unfold others in *. case_decide; lia.
    + rewrite Hsame' by done. done.
    + intros k g1 Hk [[-> _]|Hl]%Hinv; [|exact (H3 _ _ Hk Hl)].
      destruct (H3 _ _ Hk Hg); [done|by right].
    + intros k Hk Hd. destruct Ho as [->| ->]; [|done]. injection Hk as <-.
      destruct (H3 _ _ Hd Hg); [done|by subst].
  - assert (¬ D (conn w)) as HnD.
    { intros Hd. destruct (H3 _ Hd) as (g1 & Hg1 & Hp1). rewrite Hg in Hg1. by injection Hg1 as ->. }
    split_and!; [done..| | | |by right| |by intros|done].
    + by apply commit_other_untracked.
    + lia.
    + intros k Hk. destruct (decide (k = conn w)) as [->|]; [done|]. rewrite Hsame by done. by apply H3.
    + intros k Hk Hd. destruct Ho as [->| ->]; [|done]. injection Hk as <-. done.
Qed.

Lemma race_commit_dup D i c win m gs w g :
  1 ≤ c → race_inv D i c win (m, gs) → gs !! conn w = Some g → pending g = Some (i, c) →
  no_progress (data w) = false → race_post D i c win w (gate_step (m, gs) w).
Proof.
  intros Hc (Hm & Hok & Hall & Hwin) Hg Hp Hn.
  destruct (Hall _ _ Hg _ Hp) as [_ HD]. destruct (HD eq_refl) as [HDw _]. clear HD. cbn [snd fst] in *.
  pose proof (gate_step_commit m gs w g _ Hg Hp Hn Hm) as Hs. cbn [fst snd] in Hs.
  assert (∀ gs', settled gs (conn w) gs' →
    map_Forall (λ k g, ∀ p, pending g = Some p → 0 ≤ p.2 ∧ (p.1 = i → D k ∧ p.2 = c)) gs' ∧
    others i gs' = others i gs ∧
    ∀ k' g', gs' !! k' = Some g' → (k' = conn w ∧ pending g' = None) ∨ gs !! k' = Some g') as Hset.
  { intros gs' Hset. destruct (settled_spec i gs (conn w) g gs' Hg Hset) as (Hoth & Hinv & _).
    unfold is_other in Hoth. rewrite Hp in Hoth. cbn [fst] in Hoth. rewrite Z.eqb_refl in Hoth.
    split_and!; [|cbn in Hoth; lia|done].
    intros k g1 [[-> Hpn]|Hl]%Hinv p' Hp'; [congruence|exact (Hall _ _ Hl p' Hp')]. }
  destruct win as [n|]; destruct Hwin as (H1 & H2 & H3).
  - destruct H2 as (e & He & Hmk). rewrite (commit_tracked _ _ _ _ He), admits_marked in Hs by done.
    destruct Hs as (s & Hs). rewrite decide_False in Hs by done. rewrite Hs.
    destruct (Hset (delete (conn w) gs)) as (Ha & Ho & _); [by right|].
    exists (Some n). unfold race_inv. cbn [fst snd with_registry registry poisoned]. rewrite Ho.
    split_and!; [done..|by exists e| |by right|done|by intros|done].
    intros k g1 Hk [_ Hl]%lookup_delete_Some. exact (H3 _ _ Hk Hl).
  - pose proof (commit_untracked (registry m) i c Hok H1) as Hun. rewrite decide_False in Hun by lia.
    destruct Hun as (o & mm & Hcom & _). pose proof (commit_survives (registry m) i c _ ltac:(lia) Hok H1 Hcom) as Hsv.
    destruct (commit_ok (registry m) i c ltac:(lia) Hok) as [Hok' _].
    destruct (commit_Accepted (registry m) i c _ ltac:(lia) Hok Hcom) as (_ & e & He & Hmk).
    rewrite Hcom in Hs, Hok'. destruct Hs as (s & Hs). rewrite decide_True in Hs by done. rewrite Hs.
    destruct (Hset (<[conn w := {| inner := s; pending := None |}]> gs)) as (Ha & Ho & Hinv); [by left; exists s|].
    exists (Some (conn w)). unfold race_inv. cbn [fst snd with_registry registry poisoned] in *. rewrite Ho.
    split_and!; [done..| |by exists e| |by left|by intros k [= <-]|by intros n _ [= <-]|done].
    + eapply survives_le; [|exact Hsv]. unfold others in *. lia.
    + intros k g1 Hk [[-> _]|Hl]%Hinv; [by right|]. destruct (H3 _ Hk) as (g2 & Hg2 & Hp2). left. congruence.
Qed.

Lemma race_step D i c win st w :
  1 ≤ c → race_inv D i c win st → race_post D i c win w (gate_step st w).
Proof.
  destruct st as [m gs]. intros Hc Hinv. pose proof Hinv as (Hm & Hok & Hall & Hwin).
  destruct (gs !! conn w) as [g|] eqn:Hg.
  2:{ unfold gate_step. rewrite Hg. exists win. split_and!; try done; [by right|by intros n ->|].
      intros -> Hd _. destruct Hwin as (_ & _ & Hd'). destruct (Hd' _ Hd) as (g & Hg' & _). congruence. }
  destruct (pending g) as [p|] eqn:Hp; [|by eapply race_quiet; [..|left]].
  destruct (no_progress (data w)) eqn:Hn; [by eapply race_quiet; [..|right]|].
  destruct (decide (p.1 = i)) as [Hi|Hi].
  - destruct (Hall _ _ Hg p Hp) as [_ Hpc]. destruct (Hpc Hi) as [_ Hc'].
    destruct p as [i' c']. simpl in Hi, Hc'. subst. by eapply race_commit_dup.
  - pose proof (gate_step_commit m gs w g p Hg Hp Hn Hm) as Hs.
    pose proof (race_commit_other D i c win m gs w g p) as Hpost.
    destruct (commit (registry m) p.1 p.2) as [d r]. destruct Hs as (s & ->). cbn [snd] in Hpost.
    case_decide; apply Hpost; try done; [left; by exists s|by left|by right|by right].
Qed.

Lemma race_run D i c ws : ∀ win st,
  1 ≤ c → race_inv D i c win st →
  ∃ win', (win = None ∨ win' = win) ∧ (∀ k, k ∈ (gate_run st ws).1 → D k → win' = Some k) ∧
    (win = None → (∃ w, w ∈ ws ∧ D (conn w) ∧ no_progress (data w) = false) →
     ∃ k, D k ∧ k ∈ (gate_run st ws).1).
Proof.
  induction ws as [|w ws IH]; intros win st Hc Hinv; cbn [gate_run].
  { exists win. split_and!; [by right|by intros k ?%elem_of_nil|]. by intros _ (w & ?%elem_of_nil & _). }
  destruct (race_step D i c win st w Hc Hinv) as (win1 & Hinv1 & Hw1 & Ho1 & Hn1 & Hf1).
  destruct (gate_step st w) as [o st1]. cbn [fst snd] in *.
  destruct (IH win1 st1 Hc Hinv1) as (win2 & Hw2 & Ho2 & Hf2).
  destruct (gate_run st1 ws) as [l st2]. cbn [fst snd] in *.
  assert (∀ k, k ∈ match o with Some k => k :: l | None => l end ↔ o = Some k ∨ k ∈ l) as Hin.
  { intros k. destruct o; [rewrite elem_of_cons|]; naive_solver. }
  exists win2. setoid_rewrite Hin. split_and!.
  - destruct Hw1 as [?|Hw1]; [by left|]. destruct Hw2 as [?|Hw2]; [left|right]; congruence.
  - intros k [Hk|Hk] Hd; [|by apply Ho2]. specialize (Ho1 k Hk Hd). destruct Hw2; congruence.
  - intros Hnone (w' & [->|Hw']%elem_of_cons & Hd & Hp).
    + exists (conn w). split; [done|]. left. by apply Hf1.
    + destruct win1 as [n|]; [destruct (Hn1 n Hnone eq_refl) as [? ?]; exists n; naive_solver|].
      destruct (Hf2 eq_refl) as (k & ? & ?); [by exists w'|]. exists k. naive_solver.
Qed.

(** ** Lemmas: probing *)

(** Connections one after the other. *)
Fixpoint probes (w : World) (keys : list MaskKeys) (calls : list (Surroundings * option Bytes))
    : list (result MaskRejected CommitGate) * World :=
  match calls with
  | [] => ([], w)
  | (s, read) :: calls' =>
    let '(r, w1) := masking_admit w s read keys in
    let '(rs, w2) := probes w1 keys calls' in (r :: rs, w2)
  end.

Lemma probes_fail ip keys calls : ∀ w,
  Forall (λ '(s, _), peer s = ip) calls →
  Forall (λ r, is_ok r = false) (probes w keys calls).1 →
  masking (probes w keys calls).2 = masking w ∧
  limiter (probes w keys calls).2 =
    (RateLimit.fails (limiter w) ip ((λ '(s, _), (now s, visit s)) <$> calls)).2.
Proof.
  induction calls as [|[s read] calls IH]; intros w Hip Hrs; [done|].
  apply Forall_cons in Hip as [Hs Hip]. cbn [probes fmap list_fmap RateLimit.fails] in *.
  destruct (admit_world w s read keys) as [Hm Hl]. destruct (masking_admit w s read keys) as [r w1]. cbn [fst snd] in *.
  specialize (IH w1 Hip). destruct (probes w1 keys calls) as [rs w2]. cbn [fst snd] in *.
  apply Forall_cons in Hrs as [Hr Hrs]. destruct (IH Hrs) as [IHm IHl].
  assert (limiter w1 = (RateLimit.record_failure (limiter w) (now s) (visit s) ip).2) as Hl1
    by (destruct r; [done|by rewrite <- Hs..]).
  destruct (RateLimit.record_failure (limiter w) (now s) (visit s) ip) as [x l1]. cbn [snd] in Hl1. subst l1.
  destruct (RateLimit.fails (limiter w1) ip _) as [bs l2]. split; [congruence|exact IHl].
Qed.

(** Reads through the gate. *)
Fixpoint gate_reads (g : CommitGate) (polls : list (Poll Bytes)) : Bytes :=
  match polls with
  | [] => []
  | p :: polls' =>
    let '(r, g1) := gate_read g p in
    (match r with Ready (Ok b) => b | _ => [] end) ++ gate_reads g1 polls'
  end.

Lemma gate_reads_inner g polls : gate_reads g polls = (reads (inner g) polls).1.1.
Proof.
  revert g. induction polls as [|p polls IH]; intros g; [done|]. cbn [gate_reads reads]. unfold gate_read.
  destruct (poll_read (inner g) p) as [r s]. rewrite IH. cbn [inner].
  by destruct (reads s polls) as [[? ?] ?].
Qed.
End Admission.

(** ** Theorems *)

(** C30: A masked carrier works end to end.  A client's prelude, sent with its
    nonce, is admitted by a server that has its keys (and no later credential
    that also accepts it) whenever the replay window has room for its counter;
    admission leaves the registry, the limiter and the metrics as they were; and
    what the client then writes through its masked stream, however the socket
    splits it, is what the server's TLS stack reads through the gate. *)
Theorem masked_carrier_end_to_end {H : HmacSha256} {C : ChaCha20} k policy d ident ctr cp w s pre post
    calls plain wire tx polls :
  draws_ok d → is_u64 ident → 0 ≤ ctr → encode_prelude k policy d ident ctr = Ok cp →
  (∀ k' a, k' ∈ post → decode_prelude k' (bytes cp) (nonce cp) ≠ Ok a) →
  poisoned (masking w) = false → precheck (registry (masking w)) ident ctr = Accepted →
  calls_ok calls → writes (new_client k (nonce cp)) calls = (plain, wire, tx) → delivered polls = wire →
  ∃ gate, masking_admit w s (Some (bytes cp ++ nonce cp)) (pre ++ k :: post) = (Ok gate, w) ∧
    pending gate = Some (ident, ctr) ∧ gate_reads gate polls = plain.
Proof.
  intros Hd Hi Hc Henc Hpost Hm Hpre Hcalls Hw Hdel.
  destruct (encode_prelude_decodes k policy d ident ctr cp Hd Hi Hc Henc) as (Hdec & Hlen & _).
  assert (verify_prelude (pre ++ k :: post) (bytes cp) (nonce cp)
          = Some (k, {| identity := ident; counter := ctr |})) as Hv.
  { apply (last_accepted_iff (λ k, decode_prelude k (bytes cp) (nonce cp))). split; [exact Hdec|].
    exists pre, post. split; [reflexivity|exact Hpost]. }
  unfold masking_admit. rewrite take_app_length', drop_app_length', Hv, Hm by done. cbn [identity counter].
  rewrite bool_decide_true by done. eexists. split; [done|]. split; [done|].
  rewrite gate_reads_inner. cbn [gate_new inner].
  destruct (writes_spec (tcp_c2s k) (nonce cp) calls (new_client k (nonce cp)) plain wire tx
              (direction_new_ok _ _) Hcalls Hw) as ([_ Hlim] & _ & Hwire & Hoff).
  change (offset (write (new_client k (nonce cp)))) with 0 in *. rewrite Z.add_0_l in Hoff.
  destruct (reads (new_server k (nonce cp)) polls) as [[got rs] rx] eqn:Hr. cbn [fst].
  destruct (reads_spec (tcp_c2s k) (nonce cp) polls (new_server k (nonce cp)) got rs rx
              (direction_new_ok _ _) Hr) as [-> _].
  { change (offset (read (new_server k (nonce cp)))) with 0. rewrite Hdel, Hwire, length_xor_at. lia. }
  change (offset (read (new_server k (nonce cp)))) with 0. by rewrite Hdel, Hwire, xor_at_involutive.
Qed.


(** Blind probing is banned like password guessing.  As many connections
    from one address as [max_failures] that are all refused (a prelude that does
    not arrive, does not verify or is replayed), inside one window, ban the
    address: until the ban has passed every check from its IPv4 address or IPv6
    /64 fails, and the probes left no trace in the replay registry. *)
Theorem probing_is_banned {H : HmacSha256} {C : ChaCha20} w keys ip s1 read1 calls s2 read2 pre ip' t :
  let l := limiter w in let c := RateLimit.config l in
  RateLimit.limited l ip → RateLimit.entries (RateLimit.records l) !! RateLimit.from_ip ip = None →
  Z.of_nat (size (RateLimit.entries (RateLimit.records l))) < RateLimit.MAX_ENTRIES →
  0 < RateLimit.window_secs c * RateLimit.SECOND → 0 ≤ RateLimit.ban c → RateLimit.representable c (now s2) →
  (s1, read1) :: calls = pre ++ [(s2, read2)] → zlen ((s1, read1) :: calls) = RateLimit.max_failures c →
  Forall (λ '(s, _), peer s = ip) ((s1, read1) :: calls) →
  Forall (λ '(s, _), now s1 ≤ now s < now s1 + RateLimit.window_secs c * RateLimit.SECOND) calls →
  Forall (λ r, is_ok r = false) (probes w keys ((s1, read1) :: calls)).1 →
  RateLimit.same_client ip ip' → RateLimit.is_allowlisted l ip' = false →
  now s2 ≤ t < now s2 + RateLimit.ban c →
  (RateLimit.check_ip (limiter (probes w keys ((s1, read1) :: calls)).2) t ip').1 = false ∧
  masking (probes w keys ((s1, read1) :: calls)).2 = masking w.
Proof.
  intros l c Hlim Hk Hsz Hwin Hban Hrep Hlast Hlen Hip Ht Hrs Hsame Hal Htt.
  destruct (probes_fail ip keys ((s1, read1) :: calls) w Hip Hrs) as [Hm Hl]. split; [|exact Hm].
  rewrite Hl. cbn [fmap list_fmap].
  apply (RateLimit.fails_ban l ip (now s1) (visit s1) _ (now s2) (visit s2)); try done.
  - cbn [length] in *. by rewrite length_fmap.
  - apply (f_equal (fmap (λ '(s, _), (now s, visit s)))) in Hlast. rewrite fmap_app in Hlast. by eexists.
  - apply Forall_fmap. eapply Forall_impl; [exact Ht|]. by intros [s r].
Qed.

(** ** Witnesses *)

#[local] Existing Instance demo_hmac_sha256.
#[local] Existing Instance demo_chacha.

Definition demo_masking : MaskingState :=
  {| registry := {| order := []; entries := ∅; capacity := 2 |}; poisoned := false; quic_keys := None |}.
Definition demo_world : World :=
  {| masking := demo_masking; metrics := {| prelude_rejects := 0; replay_rejects := 0; failed_auth := 0 |};
     limiter := RateLimit.demo_limiter |}.
Definition demo_at (t : Z) : Surroundings :=
  {| now := t; visit := []; peer := RateLimit.attacker; stopping := false; drain := [DrainRead 7; DrainEnd] |}.
Definition demo_client_calls : list (Bytes * Poll Z) := [([22; 3; 1], Ready (Ok 2)); ([1], Ready (Ok 1))].
Definition demo_client_wire : Bytes :=
  (writes (new_client demo_keys (nonce demo_prelude)) demo_client_calls).1.2.

Lemma masked_carrier_end_to_end_witness :
  ∃ gate, masking_admit demo_world (demo_at 5) (Some (bytes demo_prelude ++ nonce demo_prelude)) [demo_keys]
            = (Ok gate, demo_world) ∧
    pending gate = Some (77, 5) ∧ gate_reads gate [Ready (Ok demo_client_wire)] = [22; 3; 1].
Proof.
  apply (masked_carrier_end_to_end demo_keys Low7 demo_draws 77 5 demo_prelude demo_world (demo_at 5) [] []
           demo_client_calls [22; 3; 1] demo_client_wire
           (writes (new_client demo_keys (nonce demo_prelude)) demo_client_calls).2).
  - exact demo_draws_ok.
  - done.
  - done.
  - vm_compute. reflexivity.
  - intros k' a Hin. apply elem_of_nil in Hin. destruct Hin.
  - reflexivity.
  - vm_compute. reflexivity.
  - unfold calls_ok, demo_client_calls. rewrite !Forall_cons. split_and!; done.
  - unfold demo_client_wire.
    assert (Hp : (writes (new_client demo_keys (nonce demo_prelude)) demo_client_calls).1.1 = [22; 3; 1])
      by (vm_compute; reflexivity).
    rewrite <- Hp. by destruct (writes _ _) as [[? ?] ?].
  - unfold delivered. cbn [fmap list_fmap concat]. apply app_nil_r.
Defined.

Definition demo_gate (p : Z * Z) : CommitGate := gate_new (new_server demo_mask_keys [7]) p.
Definition demo_gates : gmap Z CommitGate :=
  {[ 1 := demo_gate (77, 5); 2 := demo_gate (77, 5); 3 := demo_gate (8, 1) ]}.
Definition hello (k : Z) : write_call := {| conn := k; data := [22; 3; 3]; answer := Ready (Ok 3) |}.
Definition alert (k : Z) : write_call := {| conn := k; data := [21; 3; 3]; answer := Ready (Ok 3) |}.


End Masking.
