(* ===== verification/Budget.v ===== *)
(** * Budget: the lock-free byte and flow budgets (crates/uk-server/src/relay/context.rs)

    [reserve_bytes] and [release_bytes] are compare-and-exchange loops on one
    [AtomicUsize] that many tasks share.  They are modelled twice: as the atomic
    operation each of them implements, and as the loop itself, one atomic access
    per step, for any number of tasks in any interleaving; the two are related
    by a linearizability theorem.  On top of them: the three-level reservation of
    [TargetFlowControl] and the permits of [GlobalFlowBudget]. *)

From S2P Require Import Prelude.

Module Budget.

Section Atomics.
Context {P : Platform}.

(** ** The atomic operations *)

(** What one undisturbed pass of the loop does to the cell. *)
(* @src crates/uk-server/src/relay/context.rs 786-800 reserve_bytes *)
Definition reserve_bytes (cell amount limit : Z) : bool * Z :=
  match usize_checked_add cell amount with
  | None => (false, cell)
  | Some next => if limit <? next then (false, cell) else (true, next)
  end.

(** [saturating_sub]. *)
(* @src crates/uk-server/src/relay/context.rs 802-811 release_bytes *)
Definition release_bytes (cell amount : Z) : Z := Z.max 0 (cell - amount).

(** ** The loops, one atomic access at a time *)

Inductive op : Set :=
  | Reserve (amount limit : Z)
  | Release (amount : Z).

#[global] Instance op_eq_dec : EqDecision op.
Proof. solve_decision. Defined.

Definition apply_op (o : op) (cell : Z) : bool * Z :=
  match o with
  | Reserve a l => reserve_bytes cell a l
  | Release a => (true, release_bytes cell a)
  end.

(** A task before the initial [load], at the head of the loop with [current] in
    its register, and after the [return]. *)
Inductive task : Set :=
  | Start (o : op)
  | Loop (o : op) (current : Z)
  | Finished (o : op) (ok : bool).

(** [compare_exchange]: the cell afterwards, and the value found. *)
Definition compare_exchange (cell expected new : Z) : Z * result Z Z :=
  if cell =? expected then (new, Ok cell) else (cell, Err cell).

(** One step of a task: the load, or one iteration of the loop. *)
Definition task_step (cell : Z) (t : task) : Z * task :=
  match t with
  | Start o => (cell, Loop o cell)
  | Loop (Reserve a l) current =>
    match usize_checked_add current a with
    | None => (cell, Finished (Reserve a l) false)
    | Some next =>
      if l <? next then (cell, Finished (Reserve a l) false) else
      match compare_exchange cell current next with
      | (cell', Ok _) => (cell', Finished (Reserve a l) true)
      | (cell', Err actual) => (cell', Loop (Reserve a l) actual)
      | (cell', Panic) => (cell', t)
      end
    end
  | Loop (Release a) current =>
    match compare_exchange cell current (Z.max 0 (current - a)) with
    | (cell', Ok _) => (cell', Finished (Release a) true)
    | (cell', Err actual) => (cell', Loop (Release a) actual)
    | (cell', Panic) => (cell', t)
    end
  | Finished o ok => (cell, Finished o ok)
  end.

(** The scheduler picks task [i]. *)
Definition pool_step (st : Z * list task) (i : nat) : Z * list task :=
  let '(cell, ts) := st in
  match ts !! i with
  | Some t => let '(cell', t') := task_step cell t in (cell', <[i := t']> ts)
  | None => st
  end.

Definition pool_run (st : Z * list task) (schedule : list nat) : Z * list task :=
  foldl pool_step st schedule.

(** A sequence of atomic operations with their answers, replayed one by one. *)
Fixpoint replay (cell : Z) (log : list (op * bool)) : option Z :=
  match log with
  | [] => Some cell
  | (o, b) :: log' =>
    let '(b', cell') := apply_op o cell in
    if Bool.eqb b b' then replay cell' log' else None
  end.

(** ** Three budgets at once *)

(** The counters a reservation for one flow goes through; the session and the
    global one are shared. *)
Record Counters : Set := { flow_bytes : Z; session_bytes : Z; global_bytes : Z }.

(* @src crates/uk-server/src/relay/context.rs 694-713 TargetFlowControl::reserve_bytes *)
Definition control_reserve (c : Counters) (amount flow_limit session_limit global_limit : Z)
    : bool * Counters :=
  let '(ok1, f) := reserve_bytes (flow_bytes c) amount flow_limit in
  if negb ok1 then (false, c) else
  let '(ok2, s) := reserve_bytes (session_bytes c) amount session_limit in
  if negb ok2
  then (false, {| flow_bytes := release_bytes f amount; session_bytes := s; global_bytes := global_bytes c |})
  else
  let '(ok3, g) := reserve_bytes (global_bytes c) amount global_limit in
  if negb ok3
  then (false, {| flow_bytes := release_bytes f amount; session_bytes := release_bytes s amount;
                  global_bytes := g |})
  else (true, {| flow_bytes := f; session_bytes := s; global_bytes := g |}).

(* @src crates/uk-server/src/relay/context.rs 715-719 TargetFlowControl::release_bytes *)
Definition control_release (c : Counters) (amount : Z) : Counters :=
  {| flow_bytes := release_bytes (flow_bytes c) amount;
     session_bytes := release_bytes (session_bytes c) amount;
     global_bytes := release_bytes (global_bytes c) amount |}.

(** A flow permit counts one in the global flow budget until it is dropped. *)
(* @src crates/uk-server/src/relay/context.rs 324-331 GlobalFlowBudget::try_acquire *)
Definition try_acquire (current limit : Z) : option Z :=
  match reserve_bytes current 1 limit with
  | (true, current') => Some current'
  | (false, _) => None
  end.

(* @src crates/uk-server/src/relay/context.rs 353-357 FlowPermit::drop *)
Definition permit_drop (current : Z) : Z := release_bytes current 1.

(** ** Lemmas *)

Lemma reserve_bytes_spec cell a l :
  reserve_bytes cell a l =
    if decide (cell + a ≤ USIZE_MAX ∧ cell + a ≤ l) then (true, cell + a) else (false, cell).
Proof.
  unfold reserve_bytes, usize_checked_add, usize_try_from.
  destruct (decide (cell + a ≤ USIZE_MAX)).
  - destruct (Z.ltb_spec l (cell + a)); [rewrite decide_False by lia|rewrite decide_True by lia]; done.
  - by rewrite decide_False by lia.
Qed.

(** The operations a task has already taken effect with: those that returned,
    and reservations that read a value they do not fit on top of. *)
Definition linearized (t : task) : option (op * bool) :=
  match t with
  | Start _ => None
  | Loop (Reserve a l) current =>
    if (reserve_bytes current a l).1 then None else Some (Reserve a l, false)
  | Loop (Release _) _ => None
  | Finished o ok => Some (o, ok)
  end.

(** A load is where a reservation that does not fit takes effect. *)
Lemma linearized_load o cell :
  linearized (Loop o cell) = None ∨
  ∃ b, linearized (Loop o cell) = Some (o, b) ∧ apply_op o cell = (b, cell).
Proof.
  destruct o as [a l|a]; [|by left]. simpl. rewrite reserve_bytes_spec.
  case_decide; [by left|]. right. by exists false.
Qed.

Lemma task_step_linearized cell t cell' t' :
  task_step cell t = (cell', t') →
  (linearized t' = linearized t ∧ cell' = cell) ∨
  (linearized t = None ∧ ∃ o b, linearized t' = Some (o, b) ∧ apply_op o cell = (b, cell')).
Proof.
  assert (∀ o, linearized (Loop o cell) = None ∧ cell = cell ∨
    ∃ o' b, linearized (Loop o cell) = Some (o', b) ∧ apply_op o' cell = (b, cell)) as Hload.
  { intros o. destruct (linearized_load o cell) as [?|(b & ? & ?)]; [by left|right; by exists o, b]. }
  destruct t as [o|[a l|a] cur|o ok]; cbn [task_step]; [| | |by intros [= <- <-]; left].
  - intros [= <- <-]. destruct (Hload o) as [[-> _]|?]; [by left|by right].
  - cbn [linearized]. rewrite reserve_bytes_spec. unfold usize_checked_add, usize_try_from.
    destruct (decide (cur + a ≤ USIZE_MAX)); [|intros [= <- <-]; left; by rewrite decide_False by lia].
    destruct (Z.ltb_spec l (cur + a)); [intros [= <- <-]; left; by rewrite decide_False by lia|].
    rewrite decide_True by lia. cbn [fst]. unfold compare_exchange.
    destruct (Z.eqb_spec cell cur) as [->|_]; intros [= <- <-].
    + right. split; [done|]. exists (Reserve a l), true. split; [done|]. simpl.
      rewrite reserve_bytes_spec. by rewrite decide_True by lia.
    + destruct (Hload (Reserve a l)) as [[-> _]|?]; [by left|by right].
  - cbn [linearized]. unfold compare_exchange. destruct (Z.eqb_spec cell cur) as [->|_]; intros [= <- <-].
    + right. split; [done|]. by exists (Release a), true.
    + by left.
Qed.

Lemma replay_app cell log1 log2 :
  replay cell (log1 ++ log2) = c ← replay cell log1; replay c log2.
Proof.
  revert cell. induction log1 as [|[o b] log1 IH]; intros cell; [done|]. simpl.
  destruct (apply_op o cell) as [b' cell']. by destruct (Bool.eqb b b').
Qed.

Lemma omap_insert_perm (ts : list task) i t t' :
  ts !! i = Some t →
  (linearized t' = linearized t → omap linearized (<[i := t']> ts) ≡ₚ omap linearized ts) ∧
  (linearized t = None → ∀ x, linearized t' = Some x →
   omap linearized (<[i := t']> ts) ≡ₚ omap linearized ts ++ [x]).
Proof.
  intros Hi. pose proof (lookup_lt_Some _ _ _ Hi) as Hlen.
  assert (omap linearized ts = omap linearized (take i ts ++ t :: drop (S i) ts)) as ->
    by (by rewrite take_drop_middle).
  rewrite insert_take_drop by done. rewrite !omap_app. cbn [omap list_omap]. split.
  - by intros ->.
  - intros -> x ->. rewrite <- app_assoc. apply Permutation_app_head.
    by rewrite Permutation_cons_append.
Qed.

Lemma pool_linearizable cell0 ops schedule :
  let st := pool_run (cell0, Start <$> ops) schedule in
  ∃ log, replay cell0 log = Some st.1 ∧ log ≡ₚ omap linearized st.2.
Proof.
  induction schedule as [|i schedule IH] using rev_ind; intros st; subst st.
  { exists []. split; [done|]. simpl. induction ops; [done|]. done. }
  unfold pool_run. rewrite foldl_app. cbn [foldl]. fold (pool_run (cell0, Start <$> ops) schedule).
  destruct IH as (log & Hlog & Hperm). destruct (pool_run _ schedule) as [cell ts]. cbn [fst snd] in *.
  unfold pool_step. destruct (ts !! i) as [t|] eqn:Hi; [|by exists log].
  destruct (task_step cell t) as [cell' t'] eqn:Hs. cbn [fst snd].
  destruct (omap_insert_perm ts i t t' Hi) as [Hsame Hnew].
  destruct (task_step_linearized cell t cell' t' Hs) as [[Hl ->]|(Hl & o & b & Hl' & Ha)].
  - exists log. split; [done|]. by rewrite Hsame.
  - exists (log ++ [(o, b)]). split; [|by rewrite (Hnew Hl _ Hl'), Hperm].
    rewrite replay_app, Hlog. simpl. rewrite Ha. by rewrite Bool.eqb_reflx.
Qed.

(** What the atomic operations keep. *)
Definition op_ok (limit : Z) (o : op) : Prop :=
  match o with Reserve a l => 0 ≤ a ∧ l = limit | Release a => 0 ≤ a end.

Lemma replay_bounded limit log cell0 cell :
  0 ≤ cell0 ≤ limit → Forall (λ '(o, _), op_ok limit o) log → replay cell0 log = Some cell →
  0 ≤ cell ≤ limit.
Proof.
  intros H0 Hlog. revert cell0 H0. induction Hlog as [|[o b] log Ho Hlog IH]; intros cell0 H0; simpl.
  { by intros [= <-]. }
  destruct o as [a l|a]; simpl.
  - destruct Ho as [Ha ->]. rewrite reserve_bytes_spec.
    case_decide; (destruct (Bool.eqb _ _); [|done]); apply IH; lia.
  - destruct (Bool.eqb _ _); [|done]. apply IH. simpl in Ho. unfold release_bytes. lia.
Qed.

(** The operation of a task does not change. *)
Definition task_op (t : task) : op :=
  match t with Start o | Loop o _ | Finished o _ => o end.

Lemma task_step_op cell t : task_op (task_step cell t).2 = task_op t.
Proof.
  destruct t as [o|[a l|a] cur|o ok]; simpl; try done.
  - destruct (usize_checked_add cur a) as [n|]; [|done]. destruct (l <? n); [done|].
    unfold compare_exchange. by destruct (cell =? cur).
  - unfold compare_exchange. by destruct (cell =? cur).
Qed.

Lemma pool_run_ops cell0 ops schedule :
  task_op <$> (pool_run (cell0, Start <$> ops) schedule).2 = ops.
Proof.
  induction schedule as [|i schedule IH] using rev_ind.
  { simpl. rewrite <- list_fmap_compose. apply list_fmap_id. }
  unfold pool_run in *. rewrite foldl_app. cbn [foldl].
  destruct (foldl pool_step (cell0, Start <$> ops) schedule) as [cell ts]. cbn [snd] in *.
  unfold pool_step. destruct (ts !! i) as [t|] eqn:Hi; [|done].
  pose proof (task_step_op cell t) as Ho. destruct (task_step cell t) as [cell' t']. cbn [snd] in *.
  rewrite list_fmap_insert, Ho, IH. rewrite list_insert_id; [done|].
  rewrite <- IH, list_lookup_fmap, Hi. done.
Qed.

Lemma linearized_op t o b : linearized t = Some (o, b) → task_op t = o.
Proof.
  destruct t as [|[a l|a] cur|]; simpl; try done; [|by intros [= -> ->]].
  destruct (reserve_bytes cur a l) as [[] ?]; simpl; [done|]. by intros [= <- <-].
Qed.

(** Left alone, a task returns after a load and two passes at most. *)
Lemma task_solo cell t :
  ∃ ok, (task_step (task_step (task_step cell t).1 (task_step cell t).2).1
           (task_step (task_step cell t).1 (task_step cell t).2).2).2 = Finished (task_op t) ok.
Proof.
  assert (∀ o c, ∃ ok, (task_step c (Loop o c)).2 = Finished o ok) as Hl.
  { intros [a l|a] c; simpl; unfold compare_exchange; rewrite Z.eqb_refl; [|by eexists].
    destruct (usize_checked_add c a) as [n|]; [|by eexists]. destruct (l <? n); by eexists. }
  assert (∀ c o ok, task_step c (Finished o ok) = (c, Finished o ok)) as Hf by done.
  assert (∀ c t, (∃ ok, (task_step c t).2 = Finished (task_op t) ok) ∨
                 task_step c t = (c, Loop (task_op t) c)) as Hone.
  { intros c [o|[a l|a] cur|o ok]; simpl; [by right| | |left; by eexists].
    - destruct (usize_checked_add cur a) as [n|]; [|left; by eexists].
      destruct (l <? n); [left; by eexists|]. unfold compare_exchange.
      destruct (c =? cur); [left; by eexists|by right].
    - unfold compare_exchange. destruct (c =? cur); [left; by eexists|by right]. }
  destruct (Hone cell t) as [[ok Hs]| ->].
  - exists ok. rewrite Hs, !Hf. done.
  - cbn [fst snd]. destruct (Hl (task_op t) cell) as [ok ->]. by exists ok.
Qed.
End Atomics.

(** ** Theorems *)

(** C32: The budget counters are linearizable.  However the loads and
    compare-exchanges of any number of tasks interleave on one counter, the
    counter's value and every answer are those of some sequential order of the
    atomic operations; the counter stays within the limit at every moment; and a
    task that runs undisturbed for three accesses returns. *)
Theorem budget_linearizable {P : Platform} cell0 limit ops schedule :
  0 ≤ cell0 ≤ limit → Forall (op_ok limit) ops →
  let st := pool_run (cell0, Start <$> ops) schedule in
  (∃ log, replay cell0 log = Some st.1 ∧ log ≡ₚ omap linearized st.2 ∧
     ∀ i o ok, st.2 !! i = Some (Finished o ok) → ops !! i = Some o ∧ (o, ok) ∈ log) ∧
  0 ≤ st.1 ≤ limit ∧
  (∀ i, (i < length ops)%nat →
   ∃ o ok, ops !! i = Some o ∧ (pool_run st [i; i; i]).2 !! i = Some (Finished o ok)).
Proof.
  intros H0 Hops st. destruct (pool_linearizable cell0 ops schedule) as (log & Hlog & Hperm). fold st in Hlog, Hperm.
  pose proof (pool_run_ops cell0 ops schedule) as Htasks. fold st in Htasks.
  assert (∀ i t, st.2 !! i = Some t → ops !! i = Some (task_op t)) as Hop.
  { intros i t Hi. by rewrite <- Htasks, list_lookup_fmap, Hi. }
  assert (0 ≤ st.1 ≤ limit) as Hb.
  { eapply (replay_bounded limit log cell0); [done| |done]. rewrite Hperm. apply Forall_forall.
    intros [o b] (t & Ht & Hl)%list_elem_of_omap. apply linearized_op in Hl as <-.
    apply list_elem_of_lookup_1 in Ht as [i Hi]. apply Hop in Hi. by eapply Forall_lookup_1. }
  split; [|split; [exact Hb|]].
  - exists log. split_and!; [done..|]. intros i o ok Hi. split; [by apply (Hop i (Finished o ok))|].
    rewrite Hperm. apply list_elem_of_omap. exists (Finished o ok). split; [by eapply list_elem_of_lookup_2|done].
  - intros i Hi. assert (is_Some (st.2 !! i)) as [t Ht].
    { apply lookup_lt_is_Some. by rewrite <- (length_fmap task_op), Htasks. }
    exists (task_op t). destruct st as [cell ts]. cbn [fst snd] in *. pose proof (task_solo cell t) as [ok Hok].
    exists ok. split; [by apply Hop|]. cbn [pool_run foldl]. unfold pool_step at 3. rewrite Ht.
    pose proof (lookup_lt_Some _ _ _ Ht) as Hlt.
    destruct (task_step cell t) as [c1 t1]. unfold pool_step at 2. rewrite list_lookup_insert_eq by done.
    cbn [fst snd] in Hok. destruct (task_step c1 t1) as [c2 t2]. unfold pool_step.
    rewrite list_lookup_insert_eq by (by rewrite length_insert). cbn [fst snd] in Hok.
    destruct (task_step c2 t2) as [c3 t3]. cbn [snd] in *. subst.
    by rewrite list_lookup_insert_eq by (by rewrite !length_insert).
Qed.

(** What a reservation leaves behind, without the converse. *)
Lemma control_reserve_cases {P : Platform} c a fl sl gl :
  0 ≤ flow_bytes c → 0 ≤ session_bytes c → 0 ≤ global_bytes c →
  match control_reserve c a fl sl gl with
  | (true, c') => c' = {| flow_bytes := flow_bytes c + a; session_bytes := session_bytes c + a;
                          global_bytes := global_bytes c + a |} ∧
                  flow_bytes c + a ≤ fl ∧ session_bytes c + a ≤ sl ∧ global_bytes c + a ≤ gl
  | (false, c') => c' = c
  end.
Proof.
  intros Hf Hs Hg. unfold control_reserve. destruct c as [f s g]. simpl in *.
  assert (∀ x, 0 ≤ x → release_bytes (x + a) a = x) as Hrel by (intros; unfold release_bytes; lia).
  rewrite !reserve_bytes_spec. case_decide; cbn [negb]; [|done].
  case_decide; cbn [negb]; [|by rewrite Hrel]. case_decide; cbn [negb]; [|by rewrite !Hrel].
  split; [done|]. lia.
Qed.

(** A reservation is all or nothing across the three budgets: it succeeds
    exactly when the payload fits the flow, the session and the global budget,
    and then counts in all three; otherwise all three counters are back where
    they were.  Releasing what was reserved restores them. *)
Theorem reservation_all_or_nothing {P : Platform} c a fl sl gl :
  0 ≤ a → 0 ≤ flow_bytes c → 0 ≤ session_bytes c → 0 ≤ global_bytes c →
  fl ≤ USIZE_MAX → sl ≤ USIZE_MAX → gl ≤ USIZE_MAX →
  let fits := flow_bytes c + a ≤ fl ∧ session_bytes c + a ≤ sl ∧ global_bytes c + a ≤ gl in
  let '(ok, c') := control_reserve c a fl sl gl in
  (ok = true ↔ fits) ∧
  (ok = true → c' = {| flow_bytes := flow_bytes c + a; session_bytes := session_bytes c + a;
                       global_bytes := global_bytes c + a |} ∧ control_release c' a = c) ∧
  (ok = false → c' = c).
Proof.
  intros Ha Hf Hs Hg Hfl Hsl Hgl fits. unfold control_reserve. destruct c as [f s g]. simpl in *.
  assert (∀ x, 0 ≤ x → release_bytes (x + a) a = x) as Hrel by (intros; unfold release_bytes; lia).
  assert (∀ x l, l ≤ USIZE_MAX →
    reserve_bytes x a l = if decide (x + a ≤ l) then (true, x + a) else (false, x)) as Hres.
  { intros x l Hl. rewrite reserve_bytes_spec. do 2 case_decide; (done || lia). }
  rewrite !Hres by done. unfold fits, control_release.
  destruct (decide (f + a ≤ fl)); cbn [negb]; [|by split_and!; try done; split; [done|lia]].
  destruct (decide (s + a ≤ sl)); cbn [negb].
  2:{ split_and!; [split; [done|lia]|done|]. intros _. by rewrite Hrel. }
  destruct (decide (g + a ≤ gl)); cbn [negb].
  2:{ split_and!; [split; [done|lia]|done|]. intros _. by rewrite !Hrel. }
  split_and!; [done| |done]. intros _. split; [done|]. cbn [flow_bytes session_bytes global_bytes].
  by rewrite !Hrel.
Qed.

(** ** Witnesses *)

Lemma budget_linearizable_witness :
  0 ≤ (pool_run (P := platform64) (0, Start <$> [Reserve 6 10; Reserve 5 10; Release 6])
         [0; 1; 0; 1; 1; 2; 2]%nat).1 ≤ 10.
Proof.
  apply (budget_linearizable (P := platform64) 0 10 [Reserve 6 10; Reserve 5 10; Release 6]); [done|].
  rewrite !Forall_cons. split_and!; done.
Defined.

End Budget.
