(* ===== verification/Dialer.v ===== *)
(** * Dialer: connecting to targets (crates/uk-server/src/relay/dialer.rs)

    Policy check, name resolution, policy check of the resolved addresses, and
    the race of up to four connection attempts under the session's dial budget.
    The resolver, the sockets and the clock are outside: what they do is given
    as an argument, one [iteration] per pass of the connect loop. *)

From S2P Require Import Prelude Wire RustStd TargetCodec Auth Policy.

Module Dialer.
Import Target Policy.

(* @src crates/uk-server/src/relay/context.rs 34-34 TARGET_CONNECT_PARALLELISM *)
Definition TARGET_CONNECT_PARALLELISM : nat := 4.
(* @src crates/uk-server/src/relay/context.rs 35-35 TARGET_RESOLUTION_ADDR_LIMIT *)
Definition TARGET_RESOLUTION_ADDR_LIMIT : nat := 64.

(** [SocketAddr]: an address and a port. *)
Abbreviation SocketAddr := (IpAddr * Z)%type.

(** The kinds of [io::Error] the dialer makes, and those of the system. *)
Inductive DialError : Set := NotFound | InvalidData | OsError (code : Z) | JoinFailed.

(* @src crates/uk-server/src/relay/context.rs 144-150 OpenFailure *)
Inductive OpenFailure : Set :=
  | PolicyDenied
  | ResourceLimit
  | TargetUnavailable (e : DialError)
  | TargetTimeout.

Definition policy_context (t : Target) (id : Auth.AuthenticatedIdentity) (ips : list IpAddr)
    : PolicyContext :=
  {| ctx_key_id := Auth.id_key_id id; ctx_policy_group := Auth.id_policy_group id;
     Policy.target := t; Policy.resolved_ips := ips |}.

(* @src crates/uk-server/src/relay/dialer.rs 42-57 pre_resolve_policy_check *)
Definition pre_resolve_policy_check (t : Target) (id : Auth.AuthenticatedIdentity) (p : PolicySet)
    : result OpenFailure unit :=
  match evaluate_pre_resolve p (policy_context t id []) with
  | DeniedWithoutResolution => Err PolicyDenied
  | NeedsResolution => Ok tt
  end.

(* @src crates/uk-server/src/relay/dialer.rs 130-150 collect_resolved_addrs *)
Definition collect_resolved_addrs (addrs : list SocketAddr) : result OpenFailure (list SocketAddr) :=
  let addrs := take (TARGET_RESOLUTION_ADDR_LIMIT + 1) addrs in
  match addrs with
  | [] => Err (TargetUnavailable NotFound)
  | _ => if (TARGET_RESOLUTION_ADDR_LIMIT <? length addrs)%nat
         then Err (TargetUnavailable InvalidData) else Ok addrs
  end.

(** [dns] is what the system resolver answers for the name. *)
(* @src crates/uk-server/src/relay/dialer.rs 117-128 resolve_target *)
Definition resolve_target (t : Target) (dns : result DialError (list SocketAddr))
    : result OpenFailure (list SocketAddr) :=
  match t with
  | Domain _ _ =>
    let? addrs := map_err TargetUnavailable dns in
    collect_resolved_addrs addrs
  | Ipv4 ip port => Ok [(IpV4 ip, port)]
  | Ipv6 ip port => Ok [(IpV6 ip, port)]
  end.

(* @src crates/uk-server/src/relay/dialer.rs 152-157 resolved_ips *)
Definition resolved_ips (t : Target) (addrs : list SocketAddr) : list IpAddr :=
  match t with
  | Domain _ _ => fst <$> addrs
  | Ipv4 _ _ | Ipv6 _ _ => []
  end.

(** [expired]: the deadline passes before the future completes. *)
(* @src crates/uk-server/src/relay/dialer.rs 394-408 with_target_connect_deadline *)
Definition with_target_connect_deadline {A} (deadline : option Z) (expired : bool)
    (r : result OpenFailure A) : result OpenFailure A :=
  match deadline with
  | Some _ => if expired then Err TargetTimeout else r
  | None => r
  end.

(** ** The connection race *)

(** What the connector's future ends with; a success is the socket, connected to
    the address it was given. *)
Inductive attempt : Set := Connected | Failed (e : DialError) | Crashed.

(** What ends the wait of one pass: the [which]-th of the attempts in flight
    completes, or the deadline passes. *)
Inductive wake : Set :=
  | Completed (which : nat) (r : attempt)
  | DeadlinePassed.

(** The surroundings of one pass: whether the deadline has passed at its head,
    how many dial permits the session's other opens hold, and what wakes it. *)
Record iteration : Set := { past_deadline : bool; others_hold : Z; woken_by : wake }.

(** The attempts in flight, each with one permit of the session's semaphore. *)
(* @src crates/uk-server/src/relay/tasks.rs 44-47 ConnectTasks *)
Record ConnectTasks : Set := { in_flight : list SocketAddr }.

(* @src crates/uk-server/src/relay/dialer.rs 237-242 ConnectTasks::new *)
Definition tasks_new : ConnectTasks := {| in_flight := [] |}.

(* @src crates/uk-server/src/relay/dialer.rs 252-261 ConnectTasks::spawn *)
Definition tasks_spawn (t : ConnectTasks) (a : SocketAddr) : ConnectTasks :=
  {| in_flight := in_flight t ++ [a] |}.

(** The finished attempt's permit goes with it. *)
(* @src crates/uk-server/src/relay/dialer.rs 263-278 ConnectTasks::join_next *)
Definition tasks_join (t : ConnectTasks) (which : nat) (r : attempt)
    : option ((SocketAddr * attempt) * ConnectTasks) :=
  let i := (which `mod` length (in_flight t))%nat in
  match in_flight t !! i with
  | Some a => Some ((a, r), {| in_flight := delete i (in_flight t) |})
  | None => None
  end.

(* @src crates/uk-server/src/relay/dialer.rs 280-284 ConnectTasks::abort_all *)
Definition tasks_abort_all (t : ConnectTasks) : ConnectTasks := {| in_flight := [] |}.

(** [try_acquire] on a semaphore of [limit] permits of which [others] and the
    attempts in flight hold theirs. *)
(* @src crates/uk-server/src/relay/context.rs 568-573 OpenDialLimiter::try_acquire *)
Definition can_acquire (limit others : Z) (t : ConnectTasks) : bool :=
  others + zlen (in_flight t) <? limit.

(** [next_index] is the number of addresses already taken: the loop is given
    those that remain. *)
(* @src crates/uk-server/src/relay/dialer.rs 371-388 spawn_target_connects *)
Fixpoint spawn_target_connects (limit others : Z) (remaining : list SocketAddr) (t : ConnectTasks)
    : list SocketAddr * ConnectTasks :=
  match remaining with
  | [] => ([], t)
  | a :: rest =>
    if (length (in_flight t) <? TARGET_CONNECT_PARALLELISM)%nat && can_acquire limit others t
    then spawn_target_connects limit others rest (tasks_spawn t a)
    else (a :: rest, t)
  end.

(** The loop has returned, or still waits when the script ends; [failed] are the
    candidates it logged as failed. *)
Inductive dialing : Type :=
  | Done (r : result OpenFailure SocketAddr) (t : ConnectTasks) (failed : list SocketAddr)
  | Waiting (remaining : list SocketAddr) (t : ConnectTasks) (failed : list SocketAddr).

(* @src crates/uk-server/src/relay/dialer.rs 344-362 join_next_connect_task *)
Definition join_next_connect_task (deadline : option Z) (t : ConnectTasks) (w : wake)
    : result OpenFailure (option (SocketAddr * attempt)) * ConnectTasks :=
  match w, deadline with
  | DeadlinePassed, Some _ => (Err TargetTimeout, tasks_abort_all t)
  | DeadlinePassed, None => (Ok None, t)
  | Completed which r, _ =>
    match tasks_join t which r with
    | Some (x, t') => (Ok (Some x), t')
    | None => (Ok None, t)
    end
  end.

(* @src crates/uk-server/src/relay/dialer.rs 287-342 connect_first_successful *)
Fixpoint connect_first_successful (limit : Z) (deadline : option Z) (its : list iteration)
    (remaining : list SocketAddr) (t : ConnectTasks) (last_error : option DialError)
    (failed : list SocketAddr) : dialing :=
  match its with
  | [] => Waiting remaining t failed
  | it :: its' =>
    if (match deadline with Some _ => past_deadline it | None => false end)
    then Done (Err TargetTimeout) (tasks_abort_all t) failed else
    let '(remaining, t) := spawn_target_connects limit (others_hold it) remaining t in
    let unavailable t := Done (Err (TargetUnavailable (default NotFound last_error))) t failed in
    if bool_decide (in_flight t = []) then
      if (0 <? length remaining)%nat then Done (Err ResourceLimit) t failed else unavailable t
    else
    let '(r, t') := join_next_connect_task deadline t (woken_by it) in
    match r with
    | Err e => Done (Err e) t' failed
    | Panic => Done Panic t' failed
    | Ok None => unavailable t'
    | Ok (Some (a, Connected)) => Done (Ok a) (tasks_abort_all t') failed
    | Ok (Some (a, Failed e)) =>
      connect_first_successful limit deadline its' remaining t' (Some e) (failed ++ [a])
    | Ok (Some (a, Crashed)) =>
      connect_first_successful limit deadline its' remaining t' (Some JoinFailed) (failed ++ [a])
    end
  end.

(** TCP and UDP opens differ in the connector only; [None]: still dialing. *)
(* @src crates/uk-server/src/relay/dialer.rs 59-80 connect_allowed_target_inner *)
Definition connect_allowed (t : Target) (id : Auth.AuthenticatedIdentity) (p : PolicySet) (limit : Z)
    (deadline : option Z) (dns : result DialError (list SocketAddr)) (dns_expired : bool)
    (its : list iteration) : option (result OpenFailure SocketAddr) :=
  match pre_resolve_policy_check t id p with
  | Ok _ =>
    match with_target_connect_deadline deadline dns_expired (resolve_target t dns) with
    | Ok addrs =>
      if bool_decide (evaluate p (policy_context t id (resolved_ips t addrs)) = Allow) then
        match connect_first_successful limit deadline its addrs tasks_new None [] with
        | Done r _ _ => Some r
        | Waiting _ _ _ => None
        end
      else Some (Err PolicyDenied)
    | Err e => Some (Err e)
    | Panic => Some Panic
    end
  | Err e => Some (Err e)
  | Panic => Some Panic
  end.

(** The UDP twin of [connect_allowed_target_inner]. *)
(* @src crates/uk-server/src/relay/dialer.rs 94-115 connect_allowed_udp_target_inner *)
Definition connect_allowed_udp := connect_allowed.

(** ** Lemmas *)

(** Without a deadline nothing but a completed attempt wakes the loop. *)
Definition script_ok (deadline : option Z) (its : list iteration) : Prop :=
  Forall (λ it, 0 ≤ others_hold it ∧ (deadline = None → woken_by it ≠ DeadlinePassed)) its.

Lemma spawn_spec limit others remaining t rem' t' :
  (length (in_flight t) ≤ TARGET_CONNECT_PARALLELISM)%nat →
  spawn_target_connects limit others remaining t = (rem', t') →
  in_flight t' ++ rem' = in_flight t ++ remaining ∧
  (length (in_flight t') ≤ TARGET_CONNECT_PARALLELISM)%nat ∧
  (rem' ≠ [] → length (in_flight t') = TARGET_CONNECT_PARALLELISM ∨
               limit ≤ others + zlen (in_flight t')).
Proof.
  revert t. induction remaining as [|a rest IH]; intros t Hlen; cbn [spawn_target_connects].
  { intros [= <- <-]. done. }
  destruct (Nat.ltb_spec (length (in_flight t)) TARGET_CONNECT_PARALLELISM) as [Hl|Hl]; cbn [andb].
  2:{ intros [= <- <-]. split_and!; [done..|]. intros _. left. lia. }
  unfold can_acquire. destruct (Z.ltb_spec (others + zlen (in_flight t)) limit) as [Hc|Hc].
  2:{ intros [= <- <-]. split_and!; [done..|]. intros _. by right. }
  intros Hs. apply IH in Hs as (He & Hb & Hr); cbn [tasks_spawn in_flight] in *.
  - split_and!; [|done..]. by rewrite He, <- app_assoc.
  - rewrite length_app. simpl. lia.
Qed.

Lemma tasks_join_spec t which r :
  in_flight t ≠ [] →
  ∃ a t', tasks_join t which r = Some ((a, r), t') ∧ a :: in_flight t' ≡ₚ in_flight t.
Proof.
  intros Hne. unfold tasks_join. set (i := (which `mod` length (in_flight t))%nat).
  assert (i < length (in_flight t))%nat as Hi.
  { apply Nat.mod_upper_bound. by destruct (in_flight t). }
  apply lookup_lt_is_Some in Hi as [a Ha]. rewrite Ha. eexists a, _. split; [done|]. cbn [in_flight].
  symmetry. by apply delete_Permutation.
Qed.

(** What holds whenever the loop waits or has returned. *)
Definition race_result (limit : Z) (deadline : option Z) (its : list iteration) (addrs : list SocketAddr)
    (failed0 : nat) (d : dialing) : Prop :=
  match d with
  | Done r t failed =>
    in_flight t = [] ∧
    match r with
    | Ok a => a ∈ addrs
    | Err PolicyDenied | Panic => False
    | Err ResourceLimit => ∃ it, it ∈ its ∧ limit ≤ others_hold it
    | Err (TargetUnavailable _) => failed ≡ₚ addrs
    | Err TargetTimeout => deadline ≠ None
    end
  | Waiting remaining t failed =>
    (length (in_flight t) ≤ TARGET_CONNECT_PARALLELISM)%nat ∧
    failed ++ in_flight t ++ remaining ≡ₚ addrs ∧ (length failed = failed0 + length its)%nat
  end.

Lemma race_spec limit deadline addrs its : ∀ remaining t last failed,
  script_ok deadline its → (length (in_flight t) ≤ TARGET_CONNECT_PARALLELISM)%nat →
  failed ++ in_flight t ++ remaining ≡ₚ addrs →
  race_result limit deadline its addrs (length failed)
    (connect_first_successful limit deadline its remaining t last failed).
Proof.
  assert (∀ it its n d, race_result limit deadline its addrs (S n) d →
                        race_result limit deadline (it :: its) addrs n d) as Hcons.
  { intros it its' n [r t failed|rem t failed]; simpl; [|intros (? & ? & ?); split_and!; (done || lia)].
    intros [Ht Hr]. split; [done|]. destruct r as [a|[| | |]|]; try done.
    destruct Hr as (x & Hx & ?). exists x. split; [by right|done]. }
  induction its as [|it its IH]; intros remaining t last failed Hits Hlen Hperm; cbn [connect_first_successful].
  { simpl. split_and!; [done..|lia]. }
  apply Forall_cons in Hits as [[Ho Hw] Hits].
  destruct (match deadline with Some _ => past_deadline it | None => false end) eqn:Hpast.
  { split; [done|]. by destruct deadline. }
  destruct (spawn_target_connects limit (others_hold it) remaining t) as [rem' t'] eqn:Hs.
  destruct (spawn_spec _ _ _ _ _ _ Hlen Hs) as (He & Hb & Hrem). rewrite <- He in Hperm. clear Hs He Hlen t remaining.
  case_bool_decide as Hempty.
  { rewrite Hempty in *. destruct rem' as [|a rem']; cbn [length Nat.ltb Nat.leb].
    - split; [done|]. by rewrite !app_nil_r in Hperm.
    - split; [done|]. exists it. split; [by left|]. destruct Hrem as [?|?]; [done|done|]. simpl in *. lia. }
  assert (∀ which r a t'', tasks_join t' which r = Some ((a, r), t'') →
    a :: in_flight t'' ≡ₚ in_flight t' → ∀ last',
    race_result limit deadline (it :: its) addrs (length failed)
      (connect_first_successful limit deadline its rem' t'' last' (failed ++ [a]))) as Hnext.
  { intros which r a t'' _ Hp last'. apply Hcons. pose proof (Permutation_length Hp) as Hl. simpl in Hl.
    specialize (IH rem' t'' last' (failed ++ [a]) Hits). rewrite length_app, Nat.add_comm in IH. apply IH; [lia|].
    rewrite <- Hperm, <- Hp, <- !app_assoc. done. }
  destruct (woken_by it) as [which r|] eqn:Hwake; unfold join_next_connect_task.
  2:{ destruct deadline; [done|]. by destruct (Hw eq_refl). }
  destruct (tasks_join_spec t' which r Hempty) as (a & t'' & Hj & Hp). rewrite Hj.
  destruct r as [|e|]; [|by eapply Hnext..].
  split; [done|]. rewrite <- Hperm. apply elem_of_app. right. apply elem_of_app. left. rewrite <- Hp. by left.
Qed.

Lemma resolve_target_ips t dns addrs a :
  resolve_target t dns = Ok addrs → a ∈ addrs →
  (1 ≤ length addrs ≤ TARGET_RESOLUTION_ADDR_LIMIT)%nat ∧
  a.1 ∈ target_ips t (resolved_ips t addrs) ∧
  match t with Domain _ _ => True | Ipv4 ip port => a = (IpV4 ip, port) | Ipv6 ip port => a = (IpV6 ip, port) end.
Proof.
  unfold resolve_target. destruct t as [d port|ip port|ip port].
  - intros (l & _ & Hl)%rbind_Ok Ha. unfold collect_resolved_addrs in Hl.
    set (l' := take _ l) in Hl. clearbody l'. destruct l' as [|x l']; [done|].
    destruct (Nat.ltb_spec TARGET_RESOLUTION_ADDR_LIMIT (length (x :: l'))); [done|]. injection Hl as <-.
    split_and!; [simpl; lia|done| |done]. apply list_elem_of_fmap. by exists a.
  - intros [= <-] ->%list_elem_of_singleton. simpl. split_and!; [lia|unfold TARGET_RESOLUTION_ADDR_LIMIT; lia|by left|done].
  - intros [= <-] ->%list_elem_of_singleton. simpl. split_and!; [lia|unfold TARGET_RESOLUTION_ADDR_LIMIT; lia|by left|done].
Qed.

(** What the policy must have said about a connected address: it allowed the target
    with the resolution the address is taken from. *)
Definition dial_permitted (t : Target) (id : Auth.AuthenticatedIdentity) (p : PolicySet) (a : SocketAddr) : Prop :=
  ∃ ips, let ctx := policy_context t id ips in
    evaluate p ctx = Allow ∧ a.1 ∈ ctx_ips ctx ∧ is_metadata_service_ip a.1 = false ∧
    ((∃ r, first_match (rules p) ctx r ∧ private r = Some true) ∨ is_private a.1 = false) ∧
    match t with
    | Domain _ _ => (1 ≤ length ips ≤ TARGET_RESOLUTION_ADDR_LIMIT)%nat
    | Ipv4 ip port => a = (IpV4 ip, port)
    | Ipv6 ip port => a = (IpV6 ip, port)
    end.

Lemma connect_allowed_permitted t id p limit deadline dns expired its a :
  script_ok deadline its →
  connect_allowed t id p limit deadline dns expired its = Some (Ok a) → dial_permitted t id p a.
Proof.
  intros Hits. unfold connect_allowed. destruct (pre_resolve_policy_check t id p) as [[]| |]; [|done..].
  destruct (with_target_connect_deadline _ _ _) as [addrs| |] eqn:Hres; [|done..].
  assert (resolve_target t dns = Ok addrs) as Hr.
  { unfold with_target_connect_deadline in Hres. destruct deadline, expired; done. }
  case_bool_decide as Hallow; [|done].
  pose proof (race_spec limit deadline addrs its addrs tasks_new None [] Hits) as Hrace.
  destruct (connect_first_successful _ _ _ _ _ _ _) as [r tt' f|]; [|done]. intros [= ->].
  destruct Hrace as [_ Ha]; [simpl; unfold TARGET_CONNECT_PARALLELISM; lia|done|].
  destruct (resolve_target_ips t dns addrs a Hr Ha) as (Hn & Hin & Hlit).
  exists (resolved_ips t addrs). cbv zeta. split; [done|]. split; [done|].
  apply evaluate_Allow in Hallow as (Hmeta & r & Hf & _ & Hp). rewrite Forall_forall in Hmeta.
  split; [by apply Hmeta|]. split; [|destruct t; [simpl; by rewrite length_fmap|done..]].
  destruct Hp as [Hp|[_ Hp]%target_private_false]; [left; eauto|right].
  rewrite Forall_forall in Hp. by apply Hp.
Qed.

(** A resolver that answers or fails never makes a dial panic. *)
Lemma connect_allowed_Panic t id p limit deadline dns expired its :
  script_ok deadline its → dns ≠ Panic → connect_allowed t id p limit deadline dns expired its ≠ Some Panic.
Proof.
  intros Hits Hdns. unfold connect_allowed, pre_resolve_policy_check. destruct (evaluate_pre_resolve _ _); [done|].
  destruct (with_target_connect_deadline _ _ _) as [addrs|e|] eqn:Hres; [|done|].
  - case_bool_decide; [|done]. pose proof (race_spec limit deadline addrs its addrs tasks_new None [] Hits) as Hrace.
    destruct (connect_first_successful _ _ _ _ _ _ _) as [r tt' f|]; [|done]. intros [= ->].
    destruct Hrace as [_ Ha]; [simpl; unfold TARGET_CONNECT_PARALLELISM; lia|done|done].
  - exfalso. unfold with_target_connect_deadline, resolve_target, collect_resolved_addrs in Hres.
    destruct deadline, expired, t; try done; destruct dns as [addrs| |]; try done; simpl in Hres;
      destruct (take _ addrs); try done; by destruct (_ <? _)%nat.
Qed.

(** ** Theorems *)

(** The server connects only to addresses its policy allowed.  When an open
    ends with a connected socket, the policy allowed the target with exactly the
    resolution the socket's address is taken from (no second lookup), between 1
    and 64 addresses; the address is no metadata endpoint, it is public unless
    the deciding rule opted in to private destinations, and for a literal target
    it is that literal.  A target the policy denies without resolution is denied
    whatever the resolver would have said, and would have been denied for every
    resolution: the resolver is not consulted and reveals nothing. *)
Theorem dial_only_allowed t id p limit deadline dns expired its :
  script_ok deadline its →
  (∀ a, connect_allowed t id p limit deadline dns expired its = Some (Ok a) → dial_permitted t id p a) ∧
  (pre_resolve_policy_check t id p = Err PolicyDenied →
   (∀ dns' e' its', connect_allowed t id p limit deadline dns' e' its' = Some (Err PolicyDenied)) ∧
   ∀ ips, evaluate p (policy_context t id ips) = Deny).
Proof.
  intros Hits. split; [by intros a; apply connect_allowed_permitted|].
  intros Hd. split; [intros; unfold connect_allowed; by rewrite Hd|]. intros ips.
  apply (pre_resolve_denied p (policy_context t id []) ips).
  unfold pre_resolve_policy_check in Hd. by destruct (evaluate_pre_resolve _ _).
Qed.


(** ** Witnesses *)

Definition demo_identity : Auth.AuthenticatedIdentity :=
  {| Auth.id_key_id := [97]; Auth.id_policy_group := None |}.
Definition demo_target : Target := Domain (bytes_of_string "www.example.com") 443.
Definition demo_addr (x : Z) : SocketAddr := (IpV4 (ipv4_new 8 8 8 x), 443).
Definition pass (w : wake) : iteration := {| past_deadline := false; others_hold := 0; woken_by := w |}.
Definition demo_passes : list iteration :=
  [pass (Completed 1 (Failed (OsError 111))); pass (Completed 0 Connected)].

End Dialer.
