(* ===== verification/RelayState.v ===== *)
(** * RelayState: the state of a relay session (crates/uk-server/src/relay/context.rs)

    One authenticated session of the server: its flow table, the shared objects
    the table's flows and the spawned tasks both hold (a control block and, for
    TCP, a command channel per flow, each named by the flow's token), the tasks
    themselves, the event queue between them and the session loop, the budgets,
    and the carrier.  The operations of [TargetFlow] and the other small types of
    context.rs are functions on this state.

    What the world does, the outcome of each carrier write, of each UDP send, the
    clock, the current security generation, is part of the state as well
    ([io]), so that a session's run is a function of it. *)

From S2P Require Import Prelude Wire Varint FrameCodec RustStd TargetCodec RelayPayload Settings FrameIo.
From S2P Require Import Auth Policy Mask Security Budget Dialer.

Module Relay.
Import Target.

(** The result of an open attempt: the peer the socket is connected to. *)
Abbreviation OpenResult := (result Dialer.OpenFailure Dialer.SocketAddr).

Section State.
Context {P : Platform}.

(* @src crates/uk-server/src/relay/context.rs 33-33 RELAY_BUFFER_SIZE *)
Definition RELAY_BUFFER_SIZE : Z := 16 * 1024.
(* @src crates/uk-server/src/relay/context.rs 36-36 TARGET_WRITE_QUEUE_MIN_CAPACITY *)
Definition TARGET_WRITE_QUEUE_MIN_CAPACITY : Z := 64.
(* @src crates/uk-server/src/relay/context.rs 37-37 TARGET_WRITE_QUEUE_MAX_CAPACITY *)
Definition TARGET_WRITE_QUEUE_MAX_CAPACITY : Z := 8192.
(* @src crates/uk-server/src/relay/context.rs 38-38 TARGET_WRITE_QUEUE_NOMINAL_FRAME_BYTES *)
Definition TARGET_WRITE_QUEUE_NOMINAL_FRAME_BYTES : Z := 1024.
(* @src crates/uk-server/src/relay/context.rs 39-39 SESSION_EVENT_QUEUE_BASE_CAPACITY *)
Definition SESSION_EVENT_QUEUE_BASE_CAPACITY : Z := 64.
(* @src crates/uk-server/src/relay/context.rs 40-40 SESSION_EVENT_QUEUE_PER_FLOW_CAPACITY *)
Definition SESSION_EVENT_QUEUE_PER_FLOW_CAPACITY : Z := 4.
(* @src crates/uk-server/src/relay/context.rs 41-41 SESSION_EVENT_QUEUE_MAX_CAPACITY *)
Definition SESSION_EVENT_QUEUE_MAX_CAPACITY : Z := 4096.
(* @src crates/uk-server/src/relay/context.rs 42-42 UDP_TARGET_BUFFER_SIZE *)
Definition UDP_TARGET_BUFFER_SIZE : Z := 65536.

(** Durations are in nanoseconds. *)
(* @src crates/uk-server/src/relay/context.rs 103-117 RelayLimits *)
Record RelayLimits : Set := {
  frame : Frame.FrameLimits;
  max_streams : Z;
  max_udp_flows : Z;
  max_outbound_dials_per_session : Z;
  data_frame_size : Z;
  max_buffered_bytes_per_session : Z;
  max_buffered_bytes_per_flow : Z;
  target_connect_timeout : option Z;
  tcp_half_close_timeout : option Z;
  carrier_write_timeout : option Z;
  udp_flow_idle_timeout : option Z;
  session_task_shutdown_timeout : option Z
}.

(* @src crates/uk-server/src/relay/context.rs 1056-1059 tcp_data_frame_size *)
Definition tcp_data_frame_size (limits : Frame.FrameLimits) (relay_buffer_size : option Z) : Z :=
  let buf_size := default RELAY_BUFFER_SIZE relay_buffer_size in
  match usize_try_from (Frame.max_frame_size limits) with
  | Some limit => Z.min limit buf_size
  | None => buf_size
  end.

(* @src crates/uk-server/src/relay/context.rs 135-142 ServerSessionState *)
Inductive ServerSessionState : Set := Authenticated | Relaying | Draining | Closing | Closed.

#[global] Instance ServerSessionState_eq_dec : EqDecision ServerSessionState.
Proof. solve_decision. Defined.

(* @src crates/uk-server/src/relay/context.rs 1037-1054 is_valid_session_transition *)
Definition is_valid_session_transition (from next : ServerSessionState) : bool :=
  match from, next with
  | Authenticated, Relaying
  | Relaying, Draining | Relaying, Closing | Relaying, Closed
  | Draining, Closing | Draining, Closed
  | Closing, Closed => true
  | _, _ => false
  end.

(* @src crates/uk-server/src/relay/context.rs 210-214 HalfCloseSide *)
Inductive HalfCloseSide : Set := TargetToClient | ClientToTarget.

(* @src crates/uk-server/src/relay/context.rs 152-156 OpenSlotRejection *)
Inductive OpenSlotRejection : Set := DuplicateFlowId | SlotLimit.

(* @src crates/uk-server/src/relay/context.rs 158-163 UdpOpenSlotRejection *)
Inductive UdpOpenSlotRejection : Set := UdpDuplicateFlowId | UdpSlotLimit | UdpFlowLimit.

(* @src crates/uk-server/src/relay/context.rs 165-169 FlowIdRejection *)
Inductive FlowIdRejection : Set := ZeroId | ReservedId.

(* @src crates/uk-server/src/relay/context.rs 247-251 EnqueueError *)
Inductive EnqueueError : Set := EnqueueClosed | EnqueueLimit.

(* @src crates/uk-server/src/relay/context.rs 253-260 TcpDataDisposition *)
Inductive TcpDataDisposition : Set :=
  TcpUnknownFlow | TcpOpeningFlow | TcpOtherProtocolFlow | TcpEmptyPayload | TcpForwardPayload.

(* @src crates/uk-server/src/relay/context.rs 262-268 UdpDataDisposition *)
Inductive UdpDataDisposition : Set :=
  UdpUnknownFlow | UdpOpeningFlow | UdpTcpFlow | UdpForwardPayload.

(** [SessionEvent::Flow(None)] cannot occur: the session holds a sender. *)
(* @src crates/uk-server/src/relay/context.rs 171-208 FlowEvent *)
Inductive FlowEvent : Set :=
  | OpenCompleted (flow_id token : Z) (target : Target) (r : OpenResult)
  | UdpOpenCompleted (flow_id token : Z) (target : Target) (r : OpenResult)
  | ReadClosed (flow_id token : Z)
  | UdpReadClosed (flow_id token : Z)
  | UdpActivity (flow_id : Z)
  | InboundDatagram (flow_id : Z) (payload : Bytes)
  | HalfCloseDrainExpired (flow_id token : Z) (closed_side : HalfCloseSide)
  | WriteClosed (flow_id token : Z)
  | Activity.

(* @src crates/uk-server/src/relay/context.rs 241-245 TargetCommand *)
Inductive TargetCommand : Set :=
  | Data (payload : Bytes)
  | Close.

(** What [TargetFlowControl] shares between a flow and its tasks; its session
    and global counters are those of the session state. *)
(* @src crates/uk-server/src/relay/context.rs 371-379 TargetFlowControl *)
Record Control : Set := { buffered_bytes : Z; closed : bool; aborted : bool }.

(** The command channel of a TCP flow, with the payload its writer task is
    writing.  [written] is what the target has taken so far and [accepted]
    everything that was ever queued; no operation reads either. *)
Record Channel : Set := {
  queue : list TargetCommand;
  capacity : Z;
  sender : bool;
  receiver : bool;
  writing : option Bytes;
  written : Bytes;
  accepted : Bytes
}.

(** A pending open names its attempt by a token; its flow permit carries the
    same name. *)
(* @src crates/uk-server/src/relay/context.rs 413-425 OpenFlowCancel *)
Record OpenFlowCancel : Set := { open_token : Z; open_permit : option Z }.

(* @src crates/uk-server/src/relay/context.rs 447-458 TargetFlow *)
Record TargetFlow : Set := {
  token : Z;
  commands : bool;
  target_to_client_open : bool;
  client_to_target_open : bool;
  target_write_open : bool;
  half_close_timer : option Z;
  flow_permit : option Z;
  peer : Dialer.SocketAddr
}.

(* @src crates/uk-server/src/relay/context.rs 460-471 UdpTargetFlow *)
Record UdpTargetFlow : Set := {
  udp_token : Z;
  last_activity : Z;
  udp_permit : option Z;
  udp_peer : Dialer.SocketAddr
}.

(* @src crates/uk-server/src/relay/context.rs 405-411 FlowSlot *)
Inductive FlowSlot : Set :=
  | OpeningTcp (c : OpenFlowCancel)
  | OpeningUdp (c : OpenFlowCancel)
  | Tcp (t : TargetFlow)
  | Udp (t : UdpTargetFlow).

Inductive Protocol : Set := TcpProto | UdpProto.
Inductive Failure : Set := FProtocol | FResource | FPolicy | FUnavailable | FTimeout.

(** What the metrics registry is told. *)
Inductive Metric : Set :=
  | OpenRequest (p : Protocol)
  | OpenFailed (p : Protocol) (why : Failure)
  | FlowBegun (p : Protocol)
  | FlowEnded (p : Protocol)
  | RelayedToTarget (p : Protocol) (n : Z)
  | RelayedToClient (p : Protocol) (n : Z).

(** The tasks a session spawns; [Sending] is a task at its last await, handing
    its final event to the session loop, with the flow permit it still holds; a
    timer that has [fired] is at that await too. *)
(* @src crates/uk-server/src/relay/context.rs 230-239 SessionTaskKind *)
Inductive Task : Set :=
  | OpenTask (p : Protocol) (flow_id : Z) (target : Target) (policy : Policy.PolicySet) (c : OpenFlowCancel)
  | TargetReader (flow_id tok : Z)
  | UdpReader (flow_id tok : Z)
  | TargetWriter (flow_id tok : Z)
  | HalfCloseTimer (timer flow_id tok : Z) (side : HalfCloseSide) (fired : bool)
  | DatagramReader
  | Sending (e : FlowEvent) (permit : option Z).

(** What the next write to the carrier does: it completes, fails, runs into the
    write deadline, or another task closes the session (before or after the lock
    was obtained) or aborts the flow while it waits for the lock. *)
Inductive write_outcome : Set :=
  | Wrote
  | WriteFailed (code : Z)
  | WriteTimedOut
  | ClosedMeanwhile (locked : bool)
  | AbortedMeanwhile.

(** [UdpSocket::try_send]: the bytes taken, a full buffer, or an error. *)
Inductive udp_outcome : Set := UdpSent (n : Z) | UdpWouldBlock | UdpFailed (code : Z).

Inductive AnyError : Set :=
  | EProtocol (e : ProtocolError)
  | EFrameIo (e : FrameIo.FrameIoError)
  | EIo (code : Z)
  | EWriteTimeout
  | ESessionShutdown
  | ECarrierUnusable
  | EMessage (s : string).

(** ** The session *)

Record Config : Set := {
  limits : RelayLimits;
  identity : Auth.AuthenticatedIdentity;
  global_buffer_limit : Z;
  global_flow_limit : Z
}.

Record Heap : Set := { controls : gmap Z Control; channels : gmap Z Channel }.

(** The allocators, and the session's and the server's shared counters. *)
Record Counts : Set := {
  next_token : Z;
  next_timer : Z;
  session_bytes : Z;
  global_bytes : Z;
  global_flows : Z
}.

Record Io : Type := {
  sent : list Frame.Frame;
  carrier_script : list write_outcome;
  udp_script : list udp_outcome;
  shutdown : bool;
  now : Z;
  unix_now : Z;
  security : Security.SecurityState unit
}.

(** An open request that was admitted. *)
Record Request : Set := {
  rq_protocol : Protocol;
  rq_flow : Z;
  rq_target : Target;
  rq_policy : Policy.PolicySet
}.

(** [requested] remembers the admitted open requests by token; no operation
    reads it. *)
(* @src crates/uk-server/src/relay/context.rs 479-495 RelaySessionContext *)
Record Session : Type := {
  cfg : Config;
  state : ServerSessionState;
  client_settings_received : bool;
  table : gmap Z FlowSlot;
  heap : Heap;
  tasks : list Task;
  cancelled : gset Z;
  events : list FlowEvent;
  counts : Counts;
  io : Io;
  metrics : list Metric;
  requested : gmap Z Request
}.

(** Functional updates. *)
Definition with_state (v : ServerSessionState) (s : Session) : Session :=
  {| cfg := cfg s; state := v; client_settings_received := client_settings_received s;
     table := table s; heap := heap s; tasks := tasks s; cancelled := cancelled s;
     events := events s; counts := counts s; io := io s; metrics := metrics s;
     requested := requested s |}.
Definition with_settings (v : bool) (s : Session) : Session :=
  {| cfg := cfg s; state := state s; client_settings_received := v; table := table s;
     heap := heap s; tasks := tasks s; cancelled := cancelled s; events := events s;
     counts := counts s; io := io s; metrics := metrics s; requested := requested s |}.
Definition with_table (v : gmap Z FlowSlot) (s : Session) : Session :=
  {| cfg := cfg s; state := state s; client_settings_received := client_settings_received s;
     table := v; heap := heap s; tasks := tasks s; cancelled := cancelled s;
     events := events s; counts := counts s; io := io s; metrics := metrics s;
     requested := requested s |}.
Definition with_heap (v : Heap) (s : Session) : Session :=
  {| cfg := cfg s; state := state s; client_settings_received := client_settings_received s;
     table := table s; heap := v; tasks := tasks s; cancelled := cancelled s;
     events := events s; counts := counts s; io := io s; metrics := metrics s;
     requested := requested s |}.
Definition with_tasks (v : list Task) (s : Session) : Session :=
  {| cfg := cfg s; state := state s; client_settings_received := client_settings_received s;
     table := table s; heap := heap s; tasks := v; cancelled := cancelled s;
     events := events s; counts := counts s; io := io s; metrics := metrics s;
     requested := requested s |}.
Definition with_cancelled (v : gset Z) (s : Session) : Session :=
  {| cfg := cfg s; state := state s; client_settings_received := client_settings_received s;
     table := table s; heap := heap s; tasks := tasks s; cancelled := v; events := events s;
     counts := counts s; io := io s; metrics := metrics s; requested := requested s |}.
Definition with_events (v : list FlowEvent) (s : Session) : Session :=
  {| cfg := cfg s; state := state s; client_settings_received := client_settings_received s;
     table := table s; heap := heap s; tasks := tasks s; cancelled := cancelled s;
     events := v; counts := counts s; io := io s; metrics := metrics s;
     requested := requested s |}.
Definition with_counts (v : Counts) (s : Session) : Session :=
  {| cfg := cfg s; state := state s; client_settings_received := client_settings_received s;
     table := table s; heap := heap s; tasks := tasks s; cancelled := cancelled s;
     events := events s; counts := v; io := io s; metrics := metrics s;
     requested := requested s |}.
Definition with_io (v : Io) (s : Session) : Session :=
  {| cfg := cfg s; state := state s; client_settings_received := client_settings_received s;
     table := table s; heap := heap s; tasks := tasks s; cancelled := cancelled s;
     events := events s; counts := counts s; io := v; metrics := metrics s;
     requested := requested s |}.
Definition with_metrics (v : list Metric) (s : Session) : Session :=
  {| cfg := cfg s; state := state s; client_settings_received := client_settings_received s;
     table := table s; heap := heap s; tasks := tasks s; cancelled := cancelled s;
     events := events s; counts := counts s; io := io s; metrics := v;
     requested := requested s |}.
Definition with_requested (v : gmap Z Request) (s : Session) : Session :=
  {| cfg := cfg s; state := state s; client_settings_received := client_settings_received s;
     table := table s; heap := heap s; tasks := tasks s; cancelled := cancelled s;
     events := events s; counts := counts s; io := io s; metrics := metrics s; requested := v |}.
Definition set_sent (v : list Frame.Frame) (r : Io) : Io :=
  {| sent := v; carrier_script := carrier_script r; udp_script := udp_script r;
     shutdown := shutdown r; now := now r; unix_now := unix_now r; security := security r |}.
Definition set_carrier_script (v : list write_outcome) (r : Io) : Io :=
  {| sent := sent r; carrier_script := v; udp_script := udp_script r;
     shutdown := shutdown r; now := now r; unix_now := unix_now r; security := security r |}.
Definition set_udp_script (v : list udp_outcome) (r : Io) : Io :=
  {| sent := sent r; carrier_script := carrier_script r; udp_script := v;
     shutdown := shutdown r; now := now r; unix_now := unix_now r; security := security r |}.
Definition set_shutdown (v : bool) (r : Io) : Io :=
  {| sent := sent r; carrier_script := carrier_script r; udp_script := udp_script r;
     shutdown := v; now := now r; unix_now := unix_now r; security := security r |}.
Definition set_next_token (v : Z) (r : Counts) : Counts :=
  {| next_token := v; next_timer := next_timer r; session_bytes := session_bytes r;
     global_bytes := global_bytes r; global_flows := global_flows r |}.
Definition set_next_timer (v : Z) (r : Counts) : Counts :=
  {| next_token := next_token r; next_timer := v; session_bytes := session_bytes r;
     global_bytes := global_bytes r; global_flows := global_flows r |}.
Definition set_session_bytes (v : Z) (r : Counts) : Counts :=
  {| next_token := next_token r; next_timer := next_timer r; session_bytes := v;
     global_bytes := global_bytes r; global_flows := global_flows r |}.
Definition set_global_bytes (v : Z) (r : Counts) : Counts :=
  {| next_token := next_token r; next_timer := next_timer r; session_bytes := session_bytes r;
     global_bytes := v; global_flows := global_flows r |}.
Definition set_global_flows (v : Z) (r : Counts) : Counts :=
  {| next_token := next_token r; next_timer := next_timer r; session_bytes := session_bytes r;
     global_bytes := global_bytes r; global_flows := v |}.

(** ** Control blocks and budgets *)

Definition control_new : Control := {| buffered_bytes := 0; closed := false; aborted := false |}.
Definition control_of (s : Session) (tok : Z) : Control := default control_new (controls (heap s) !! tok).
Definition put_control (tok : Z) (c : Control) (s : Session) : Session :=
  with_heap {| controls := <[tok := c]> (controls (heap s)); channels := channels (heap s) |} s.

(* @src crates/uk-server/src/relay/context.rs 726-728 TargetFlowControl::close *)
Definition control_close (tok : Z) (s : Session) : Session :=
  let c := control_of s tok in
  put_control tok {| buffered_bytes := buffered_bytes c; closed := true; aborted := aborted c |} s.

(* @src crates/uk-server/src/relay/context.rs 734-739 TargetFlowControl::abort *)
Definition control_abort (tok : Z) (s : Session) : Session :=
  let c := control_of s tok in
  put_control tok {| buffered_bytes := buffered_bytes c; closed := true; aborted := true |} s.

(* @src crates/uk-server/src/relay/context.rs 730-732 TargetFlowControl::is_closed *)
Definition is_closed (s : Session) (tok : Z) : bool := closed (control_of s tok).
(* @src crates/uk-server/src/relay/context.rs 741-743 TargetFlowControl::is_aborted *)
Definition is_aborted (s : Session) (tok : Z) : bool := aborted (control_of s tok).

Definition counters_of (s : Session) (tok : Z) : Budget.Counters :=
  {| Budget.flow_bytes := buffered_bytes (control_of s tok);
     Budget.session_bytes := session_bytes (counts s); Budget.global_bytes := global_bytes (counts s) |}.
Definition put_counters (tok : Z) (b : Budget.Counters) (s : Session) : Session :=
  let c := control_of s tok in
  with_counts (set_session_bytes (Budget.session_bytes b) (set_global_bytes (Budget.global_bytes b) (counts s)))
    (put_control tok {| buffered_bytes := Budget.flow_bytes b; closed := closed c; aborted := aborted c |} s).

(** Reserving for a payload; the data is dropped by [drop_data]. *)
(* @src crates/uk-server/src/relay/context.rs 757-773 BufferedTargetData::new *)
Definition buffer_data (tok : Z) (payload : Bytes) (flow_limit session_limit : Z) (s : Session)
    : bool * Session :=
  let '(ok, b) := Budget.control_reserve (counters_of s tok) (zlen payload) flow_limit session_limit
                    (global_buffer_limit (cfg s)) in
  (ok, put_counters tok b s).

(* @src crates/uk-server/src/relay/context.rs 780-784 BufferedTargetData::drop *)
Definition drop_data (tok : Z) (payload : Bytes) (s : Session) : Session :=
  put_counters tok (Budget.control_release (counters_of s tok) (zlen payload)) s.

(** ** Command channels *)

Definition channel_new (cap : Z) : Channel :=
  {| queue := []; capacity := cap; sender := true; receiver := true; writing := None; written := [];
     accepted := [] |}.
Definition channel_of (s : Session) (tok : Z) : Channel :=
  default {| queue := []; capacity := 0; sender := false; receiver := false; writing := None; written := [];
              accepted := [] |}
    (channels (heap s) !! tok).
Definition put_channel (tok : Z) (c : Channel) (s : Session) : Session :=
  with_heap {| controls := controls (heap s); channels := <[tok := c]> (channels (heap s)) |} s.

Definition command_bytes (cmd : TargetCommand) : Bytes := match cmd with Data p => p | Close => [] end.

Inductive send_result : Set := SendOk | SendClosed | SendFull.

(** [mpsc::Sender::try_send]. *)
Definition try_send (tok : Z) (cmd : TargetCommand) (s : Session) : send_result * Session :=
  let c := channel_of s tok in
  if negb (receiver c) then (SendClosed, s) else
  if capacity c <=? zlen (queue c) then (SendFull, s) else
  (SendOk, put_channel tok {| queue := queue c ++ [cmd]; capacity := capacity c; sender := sender c;
                              receiver := receiver c; writing := writing c; written := written c;
                              accepted := accepted c ++ command_bytes cmd |} s).

Definition drop_sender (tok : Z) (s : Session) : Session :=
  let c := channel_of s tok in
  put_channel tok {| queue := queue c; capacity := capacity c; sender := false; receiver := receiver c;
                     writing := writing c; written := written c; accepted := accepted c |} s.

(** ** Flow permits *)

Definition slot_permit (slot : FlowSlot) : option Z :=
  match slot with
  | OpeningTcp c | OpeningUdp c => open_permit c
  | Tcp t => flow_permit t
  | Udp t => udp_permit t
  end.
Definition task_permit (t : Task) : option Z :=
  match t with
  | OpenTask _ _ _ _ c => open_permit c
  | Sending _ p => p
  | _ => None
  end.
Definition opt_set (o : option Z) : gset Z := match o with Some x => {[ x ]} | None => ∅ end.

(** The permits some slot or task holds a reference to. *)
Definition table_permits (m : gmap Z FlowSlot) : gset Z :=
  map_fold (λ _ slot acc, opt_set (slot_permit slot) ∪ acc) ∅ m.
Definition task_permits (ts : list Task) : gset Z := ⋃ (opt_set ∘ task_permit <$> ts).
Definition live_permits (s : Session) : gset Z := table_permits (table s) ∪ task_permits (tasks s).

(** Dropping a reference gives the permit back when it was the last one. *)
Definition drop_permit (p : option Z) (s : Session) : Session :=
  match p with
  | Some x =>
    if decide (x ∈ live_permits s) then s
    else with_counts (set_global_flows (Budget.permit_drop (global_flows (counts s))) (counts s)) s
  | None => s
  end.

(** ** Flows *)

Definition record (m : Metric) (s : Session) : Session := with_metrics (metrics s ++ [m]) s.

Definition is_timer (timer : Z) (t : Task) : bool :=
  match t with HalfCloseTimer i _ _ _ _ => i =? timer | _ => false end.

(* @src crates/uk-server/src/relay/context.rs 441-444 SessionTaskHandle::abort *)
Definition abort_timer (timer : Z) (s : Session) : Session :=
  with_tasks (filter (λ t, is_timer timer t = false) (tasks s)) s.

Definition set_timer (h : option Z) (t : TargetFlow) : TargetFlow :=
  {| token := token t; commands := commands t; target_to_client_open := target_to_client_open t;
     client_to_target_open := client_to_target_open t; target_write_open := target_write_open t;
     half_close_timer := h; flow_permit := flow_permit t; peer := peer t |}.
Definition set_sides (t2c c2t tw : bool) (t : TargetFlow) : TargetFlow :=
  {| token := token t; commands := commands t; target_to_client_open := t2c;
     client_to_target_open := c2t; target_write_open := tw;
     half_close_timer := half_close_timer t; flow_permit := flow_permit t; peer := peer t |}.
Definition set_commands (b : bool) (t : TargetFlow) : TargetFlow :=
  {| token := token t; commands := b; target_to_client_open := target_to_client_open t;
     client_to_target_open := client_to_target_open t; target_write_open := target_write_open t;
     half_close_timer := half_close_timer t; flow_permit := flow_permit t; peer := peer t |}.

(* @src crates/uk-server/src/relay/context.rs 814-840 TargetFlow::new *)
Definition target_flow_new (tok : Z) (permit : option Z) (addr : Dialer.SocketAddr) : TargetFlow :=
  {| token := tok; commands := true; target_to_client_open := true; client_to_target_open := true;
     target_write_open := true; half_close_timer := None; flow_permit := permit; peer := addr |}.

(* @src crates/uk-server/src/relay/context.rs 842-846 TargetFlow::set_half_close_timer *)
Definition set_half_close_timer (timer : Z) (t : TargetFlow) (s : Session) : TargetFlow * Session :=
  (set_timer (Some timer) t, match half_close_timer t with Some old => abort_timer old s | None => s end).

(* @src crates/uk-server/src/relay/context.rs 848-852 TargetFlow::cancel_half_close_timer *)
Definition cancel_half_close_timer (t : TargetFlow) (s : Session) : TargetFlow * Session :=
  (set_timer None t, match half_close_timer t with Some old => abort_timer old s | None => s end).

(* @src crates/uk-server/src/relay/context.rs 895-909 TargetFlow::close_client_to_target_queue *)
Definition close_client_to_target_queue (t : TargetFlow) (s : Session) : TargetFlow * Session :=
  let s := control_close (token t) s in
  if commands t then
    match try_send (token t) Close s with
    | (SendOk, s) => (t, s)
    | (_, s) => (set_commands false t, drop_sender (token t) s)
    end
  else (t, s).

(* @src crates/uk-server/src/relay/context.rs 888-893 TargetFlow::close_client_to_target *)
Definition close_client_to_target (t : TargetFlow) (s : Session) : TargetFlow * Session :=
  if client_to_target_open t
  then close_client_to_target_queue (set_sides (target_to_client_open t) false (target_write_open t) t) s
  else (t, s).

(* @src crates/uk-server/src/relay/context.rs 854-886 TargetFlow::enqueue_data *)
Definition enqueue_data (payload : Bytes) (flow_limit session_limit : Z) (t : TargetFlow) (s : Session)
    : result EnqueueError unit * TargetFlow * Session :=
  if is_closed s (token t) then (Err EnqueueClosed, t, s) else
  let '(ok, s) := buffer_data (token t) payload flow_limit session_limit s in
  if negb ok then
    let '(t, s) := close_client_to_target_queue t s in (Err EnqueueLimit, t, s)
  else if negb (commands t) then (Err EnqueueClosed, t, drop_data (token t) payload s)
  else
    match try_send (token t) (Data payload) s with
    | (SendOk, s) => (Ok tt, t, s)
    | (SendClosed, s) => (Err EnqueueClosed, t, drop_data (token t) payload s)
    | (SendFull, s) =>
      let '(t, s) := close_client_to_target_queue t s in
      (Err EnqueueLimit, t, drop_data (token t) payload s)
    end.

(* @src crates/uk-server/src/relay/context.rs 911-918 TargetFlow::abort *)
Definition flow_abort (t : TargetFlow) (s : Session) : TargetFlow * Session :=
  let '(t, s) := cancel_half_close_timer t s in
  let t := set_sides false false false t in
  close_client_to_target_queue t (control_abort (token t) s).

(* @src crates/uk-server/src/relay/context.rs 920-922 TargetFlow::mark_target_to_client_closed *)
Definition mark_target_to_client_closed (t : TargetFlow) : TargetFlow :=
  set_sides false (client_to_target_open t) (target_write_open t) t.

(* @src crates/uk-server/src/relay/context.rs 924-927 TargetFlow::mark_client_to_target_closed *)
Definition mark_client_to_target_closed (t : TargetFlow) (s : Session) : TargetFlow * Session :=
  (set_sides (target_to_client_open t) false (target_write_open t) t, control_close (token t) s).

(* @src crates/uk-server/src/relay/context.rs 929-933 TargetFlow::mark_target_write_closed *)
Definition mark_target_write_closed (t : TargetFlow) (s : Session) : TargetFlow * Session :=
  (set_sides (target_to_client_open t) false false t, control_close (token t) s).

(* @src crates/uk-server/src/relay/context.rs 935-937 TargetFlow::is_removable *)
Definition is_removable (t : TargetFlow) : bool :=
  negb (target_to_client_open t) && negb (client_to_target_open t) && negb (target_write_open t).

(* @src crates/uk-server/src/relay/context.rs 940-942 TargetFlow::is_fully_closed *)
Definition is_fully_closed (t : TargetFlow) : bool :=
  negb (target_to_client_open t) && negb (client_to_target_open t).

(** [impl Drop for TargetFlow], and then its fields: the command sender, the
    metrics guard and the flow permit. *)
(* @src crates/uk-server/src/relay/context.rs 945-956 TargetFlow::drop *)
Definition drop_target_flow (t : TargetFlow) (s : Session) : Session :=
  let '(t, s) := cancel_half_close_timer t s in
  let s := if is_fully_closed t then s else control_abort (token t) s in
  let s := if commands t then drop_sender (token t) s else s in
  drop_permit (flow_permit t) (record (FlowEnded TcpProto) s).

(* @src crates/uk-server/src/relay/context.rs 993-997 UdpTargetFlow::drop *)
Definition drop_udp_flow (t : UdpTargetFlow) (s : Session) : Session :=
  drop_permit (udp_permit t) (record (FlowEnded UdpProto) (control_abort (udp_token t) s)).

(* @src crates/uk-server/src/relay/context.rs 622-627 OpenFlowCancel::cancel *)
Definition cancel_open (c : OpenFlowCancel) (s : Session) : Session :=
  with_cancelled ({[ open_token c ]} ∪ cancelled s) s.

(** A slot that is no longer in the table. *)
Definition drop_slot (slot : FlowSlot) (s : Session) : Session :=
  match slot with
  | OpeningTcp c | OpeningUdp c => drop_permit (open_permit c) s
  | Tcp t => drop_target_flow t s
  | Udp t => drop_udp_flow t s
  end.

(** Every caller drops the slot it gets back. *)
(* @src crates/uk-server/src/relay/context.rs 1019-1025 remove_flow_slot *)
Definition remove_flow_slot (flow_id : Z) (s : Session) : Session :=
  match table s !! flow_id with
  | None => s
  | Some slot =>
    let s := with_table (delete flow_id (table s)) s in
    let s := match slot with OpeningTcp c | OpeningUdp c => cancel_open c s | _ => s end in
    drop_slot slot s
  end.

(* @src crates/uk-server/src/relay/context.rs 999-1007 open_target_flow_mut *)
Definition open_target_flow (s : Session) (flow_id : Z) : option TargetFlow :=
  match table s !! flow_id with Some (Tcp t) => Some t | _ => None end.

(* @src crates/uk-server/src/relay/context.rs 1009-1017 udp_target_flow_mut *)
Definition udp_target_flow (s : Session) (flow_id : Z) : option UdpTargetFlow :=
  match table s !! flow_id with Some (Udp t) => Some t | _ => None end.

(** Writing back through the [&mut]. *)
Definition put_slot (flow_id : Z) (slot : FlowSlot) (s : Session) : Session :=
  with_table (<[flow_id := slot]> (table s)) s.

(* @src crates/uk-server/src/relay/context.rs 555-559 FlowTokenAllocator::next *)
Definition next_flow_token (s : Session) : Z * Session :=
  (next_token (counts s), with_counts (set_next_token (truncate 64 (next_token (counts s) + 1)) (counts s)) s).

Definition spawn (t : Task) (s : Session) : Session := with_tasks (tasks s ++ [t]) s.

(** ** Fallible steps *)

Definition M (A : Type) : Type := Session → result AnyError A * Session.
Definition ret {A} (a : A) : M A := λ s, (Ok a, s).
Definition fail {A} (e : AnyError) : M A := λ s, (Err e, s).
Definition bind {A B} (m : M A) (k : A → M B) : M B := λ s,
  match m s with
  | (Ok a, s') => k a s'
  | (Err e, s') => (Err e, s')
  | (Panic, s') => (Panic, s')
  end.
Definition modify (f : Session → Session) : M unit := λ s, (Ok tt, f s).
Definition gets {A} (f : Session → A) : M A := λ s, (Ok (f s), s).

(** The debug assertion panics in debug builds. *)
(* @src crates/uk-server/src/relay/context.rs 1027-1035 transition *)
Definition transition (next : ServerSessionState) : M unit := λ s,
  if is_valid_session_transition (state s) next then (Ok tt, with_state next s) else (Panic, s).
End State.
End Relay.
