(* ===== verification/RelayHandlers.v ===== *)
(** * RelayHandlers: the frame and event handlers of a relay session
    (crates/uk-server/src/relay/tcp.rs, udp.rs and the senders of session.rs)

    Each handler is a fallible step on the session state, with the frames it
    writes appended to [sent], in the order of the source, and every early return
    of a failed write. *)

From S2P Require Import Prelude Wire Varint FrameCodec RustStd TargetCodec RelayPayload Settings FrameIo.
From S2P Require Import Auth Policy Mask Security Budget Dialer RelayState.

Module Handlers.
Import Relay.
Import RelayPayload.Flow.

Declare Scope relay_scope.
Delimit Scope relay_scope with relay.
Notation "'let!' x := m 'in' k" := (bind m (fun x => k))
  (at level 10, x binder, m at level 200, k at level 200) : relay_scope.
Notation "'do!' m 'in' k" := (bind m (fun _ : unit => k))
  (at level 10, m at level 200, k at level 200) : relay_scope.
#[local] Open Scope relay_scope.

Section Handlers.
Context {P : Platform}.

(** ** Writing to the carrier *)

Definition lift {A} (r : ProtocolResult A) : M A := λ s, (map_err EProtocol r, s).

Definition take_outcome (s : Session) : write_outcome * Session :=
  (hd Wrote (carrier_script (io s)), with_io (set_carrier_script (tl (carrier_script (io s))) (io s)) s).
Definition close_shutdown (s : Session) : Session := with_io (set_shutdown true (io s)) s.
Definition push_sent (f : Frame.Frame) (s : Session) : Session := with_io (set_sent (sent (io s) ++ [f]) (io s)) s.

(** The write under the lock, with its deadline. *)
Definition write_outcome_of (f : Frame.Frame) (o : write_outcome) (s : Session)
    : result AnyError unit * Session :=
  match o with
  | Wrote | ClosedMeanwhile _ | AbortedMeanwhile => (Ok tt, push_sent f s)
  | WriteFailed code => (Err (EIo code), s)
  | WriteTimedOut =>
    match carrier_write_timeout (limits (cfg s)) with
    | Some _ => (Err EWriteTimeout, close_shutdown s)
    | None => (Ok tt, push_sent f s)
    end
  end.

(* @src crates/uk-server/src/relay/session.rs 828-858 write_frame_locked *)
Definition write_frame_locked (f : Frame.Frame) : M unit := λ s,
  if shutdown (io s) then (Err ESessionShutdown, s) else
  match Frame.frame_encode f with
  | Err e => (Err (EProtocol e), s)
  | Panic => (Panic, s)
  | Ok _ =>
    let '(o, s) := take_outcome s in
    match o with
    | ClosedMeanwhile _ => (Err ESessionShutdown, close_shutdown s)
    | _ => write_outcome_of f o s
    end
  end.

(* @src crates/uk-server/src/relay/session.rs 863-894 write_flow_frame_locked *)
Definition write_flow_frame_locked (f : Frame.Frame) (tok : Z) : M unit := λ s,
  if shutdown (io s) || is_aborted s tok then (Ok tt, s) else
  match Frame.frame_encode f with
  | Err e => (Err (EProtocol e), s)
  | Panic => (Panic, s)
  | Ok _ =>
    let '(o, s) := take_outcome s in
    match o with
    | ClosedMeanwhile false => (Err ESessionShutdown, close_shutdown s)
    | ClosedMeanwhile true => (Ok tt, close_shutdown s)
    | AbortedMeanwhile => (Ok tt, control_abort tok s)
    | _ => write_outcome_of f o s
    end
  end.

(* @src crates/uk-server/src/relay/session.rs 795-805 send_status_frame *)
Definition send_status_frame (ft : Frame.FrameType) (flow_id : Z) (code : Status.ErrorCode) : M unit :=
  let! payload := lift (Status.error_encode {| Status.code := code |}) in
  let! f := lift (Frame.frame_new ft 0 flow_id payload) in
  write_frame_locked f.

(* @src crates/uk-server/src/relay/session.rs 761-772 send_policy_denied *)
Definition send_policy_denied (flow_id : Z) : M unit :=
  send_status_frame Frame.PolicyDenied flow_id Status.PolicyDenied.
(* @src crates/uk-server/src/relay/session.rs 774-785 send_resource_limit *)
Definition send_resource_limit (flow_id : Z) : M unit :=
  send_status_frame Frame.ResourceLimit flow_id Status.ResourceLimit.
(* @src crates/uk-server/src/relay/session.rs 787-793 send_error *)
Definition send_error (flow_id : Z) (code : Status.ErrorCode) : M unit :=
  send_status_frame Frame.Error flow_id code.

(* @src crates/uk-server/src/relay/tcp.rs 709-718 send_tcp_close *)
Definition send_tcp_close (flow_id close_code : Z) : M unit :=
  let! payload := lift (RelayPayload.Tcp.close_encode {| RelayPayload.Tcp.close_code := close_code |}) in
  let! f := lift (Frame.frame_new Frame.TcpClose 0 flow_id payload) in
  write_frame_locked f.

(* @src crates/uk-server/src/relay/udp.rs 585-594 send_udp_close *)
Definition send_udp_close (flow_id close_code : Z) : M unit :=
  let! payload := lift (RelayPayload.Udp.close_encode {| RelayPayload.Udp.close_code := close_code |}) in
  let! f := lift (Frame.frame_new Frame.UdpClose 0 flow_id payload) in
  write_frame_locked f.

(* @src crates/uk-server/src/relay/tcp.rs 699-707 send_tcp_data *)
Definition send_tcp_data (flow_id : Z) (payload : Bytes) (tok : Z) : M unit :=
  let! f := lift (Frame.frame_new Frame.TcpData 0 flow_id payload) in
  write_flow_frame_locked f tok.

(* @src crates/uk-server/src/relay/udp.rs 575-583 send_udp_data *)
Definition send_udp_data (flow_id : Z) (payload : Bytes) (tok : Z) : M unit :=
  let! f := lift (Frame.frame_new Frame.UdpData 0 flow_id payload) in
  write_flow_frame_locked f tok.

(* @src crates/uk-server/src/relay/session.rs 807-818 write_pong *)
Definition write_pong (request : Frame.Frame) : M unit :=
  let! f := lift (Frame.frame_new Frame.Pong 0 (Frame.id (Frame.header request)) (Frame.payload request)) in
  write_frame_locked f.

Definition TCP_NORMAL := RelayPayload.Tcp.TCP_CLOSE_NORMAL.
Definition TCP_ERROR := RelayPayload.Tcp.TCP_CLOSE_ERROR.
Definition UDP_NORMAL := RelayPayload.Udp.UDP_CLOSE_NORMAL.
Definition UDP_ERROR := RelayPayload.Udp.UDP_CLOSE_ERROR.

(** ** Flow ids *)

(* @src crates/uk-server/src/relay/session.rs 703-711 validate_client_relay_flow_id *)
Definition validate_client_relay_flow_id (flow_id : Z) : result FlowIdRejection unit :=
  if flow_id =? 0 then Err ZeroId
  else if negb (is_client_initiated_flow_id flow_id) then Err ReservedId else Ok tt.

(* @src crates/uk-server/src/relay/session.rs 671-685 reject_invalid_client_relay_flow_id *)
Definition reject_invalid_client_relay_flow_id (flow_id : Z) (r : FlowIdRejection) (zero_id_error : string)
    : M unit :=
  do! send_error flow_id Status.Protocol in
  match r with
  | ZeroId => fail (EMessage zero_id_error)
  | ReservedId => send_tcp_close flow_id TCP_ERROR
  end.

(* @src crates/uk-server/src/relay/session.rs 687-701 reject_invalid_udp_relay_flow_id *)
Definition reject_invalid_udp_relay_flow_id (flow_id : Z) (r : FlowIdRejection) (zero_id_error : string)
    : M unit :=
  do! send_error flow_id Status.Protocol in
  match r with
  | ZeroId => fail (EMessage zero_id_error)
  | ReservedId => send_udp_close flow_id UDP_ERROR
  end.

(* @src crates/uk-server/src/relay/session.rs 713-718 target_write_queue_capacity *)
Definition target_write_queue_capacity (max_buffered_bytes_per_flow : Z) : Z :=
  Z.min (Z.max (max_buffered_bytes_per_flow / TARGET_WRITE_QUEUE_NOMINAL_FRAME_BYTES)
               TARGET_WRITE_QUEUE_MIN_CAPACITY) TARGET_WRITE_QUEUE_MAX_CAPACITY.

(** [len() as u64] of the table. *)
Definition table_len (m : gmap Z FlowSlot) : Z := Z.of_nat (size m).

(* @src crates/uk-server/src/relay/tcp.rs 403-418 check_open_slot *)
Definition check_open_slot (flow_id : Z) (m : gmap Z FlowSlot) (max_streams : Z)
    : result OpenSlotRejection unit :=
  if negb (is_client_initiated_flow_id flow_id) then Ok tt else
  if bool_decide (is_Some (m !! flow_id)) then Err DuplicateFlowId else
  if max_streams <=? table_len m then Err SlotLimit else Ok tt.

Definition is_udp_slot (slot : FlowSlot) : bool :=
  match slot with OpeningUdp _ | Udp _ => true | _ => false end.

(* @src crates/uk-server/src/relay/udp.rs 362-367 udp_flow_count *)
Definition udp_flow_count (m : gmap Z FlowSlot) : Z :=
  Z.of_nat (size (filter (λ '(_, slot), is_udp_slot slot = true) m)).

(* @src crates/uk-server/src/relay/udp.rs 345-360 check_udp_open_slot *)
Definition check_udp_open_slot (flow_id : Z) (m : gmap Z FlowSlot) (max_streams max_udp_flows : Z)
    : result UdpOpenSlotRejection unit :=
  let? _ := map_err (λ e, match e with DuplicateFlowId => UdpDuplicateFlowId | SlotLimit => UdpSlotLimit end)
              (check_open_slot flow_id m max_streams) in
  let max_udp_flows := default USIZE_MAX (usize_try_from max_udp_flows) in
  if is_client_initiated_flow_id flow_id && (max_udp_flows <=? udp_flow_count m)
  then Err UdpFlowLimit else Ok tt.

(** ** TCP *)

Definition panic {A} : M A := λ s, (Panic, s).

Definition next_token_m : M Z := λ s, let '(tok, s) := next_flow_token s in (Ok tok, s).

(** [global_flows.try_acquire()]. *)
Definition acquire_flow_permit : M bool := λ s,
  match Budget.try_acquire (global_flows (counts s)) (global_flow_limit (cfg s)) with
  | Some n => (Ok true, with_counts (set_global_flows n (counts s)) s)
  | None => (Ok false, s)
  end.

(* @src crates/uk-server/src/relay/tcp.rs 646-697 reject_open_failure *)
Definition reject_open_failure (flow_id : Z) (failure : Dialer.OpenFailure) : M unit :=
  match failure with
  | Dialer.PolicyDenied =>
    do! modify (record (OpenFailed TcpProto FPolicy)) in
    do! send_policy_denied flow_id in
    send_tcp_close flow_id TCP_NORMAL
  | Dialer.ResourceLimit =>
    do! modify (record (OpenFailed TcpProto FResource)) in
    do! send_resource_limit flow_id in
    send_tcp_close flow_id TCP_ERROR
  | Dialer.TargetUnavailable _ =>
    do! modify (record (OpenFailed TcpProto FUnavailable)) in
    do! send_error flow_id Status.TargetUnavailable in
    send_tcp_close flow_id TCP_ERROR
  | Dialer.TargetTimeout =>
    do! modify (record (OpenFailed TcpProto FTimeout)) in
    do! send_error flow_id Status.TargetTimeout in
    send_tcp_close flow_id TCP_ERROR
  end.

(* @src crates/uk-server/src/relay/tcp.rs 503-553 validate_tcp_open_request *)
Definition validate_tcp_open_request (f : Frame.Frame) : M (option (Z * Target.Target)) :=
  let flow_id := Frame.id (Frame.header f) in
  let refuse := modify (record (OpenFailed TcpProto FProtocol)) in
  if flow_id =? 0 then
    do! refuse in
    do! send_error flow_id Status.Protocol in
    fail (EMessage "tcp flow id must be non-zero")
  else if negb (is_client_initiated_flow_id flow_id) then
    do! refuse in
    do! send_error flow_id Status.Protocol in
    do! send_tcp_close flow_id TCP_ERROR in
    ret None
  else
  match RelayPayload.Tcp.open_decode (Frame.payload f) with
  | Panic => panic
  | Err err =>
    do! refuse in
    do! send_error flow_id (Status.from_protocol_error err) in
    do! send_tcp_close flow_id TCP_ERROR in
    ret None
  | Ok open =>
    if negb (RelayPayload.Tcp.open_flags open =? RelayPayload.Tcp.TCP_OPEN_FLAGS_NONE) then
      do! refuse in
      do! send_error flow_id Status.Protocol in
      do! send_tcp_close flow_id TCP_ERROR in
      ret None
    else ret (Some (flow_id, RelayPayload.Tcp.target open))
  end.

(** [spawn_target_open] and [spawn_udp_open]. *)
(* @src crates/uk-server/src/relay/tasks.rs 222-253 spawn_target_open *)
Definition spawn_open (p : Protocol) (flow_id : Z) (target : Target.Target) (policy : Policy.PolicySet)
    (c : OpenFlowCancel) : M unit := modify (spawn (OpenTask p flow_id target policy c)).

Definition remember (tok : Z) (r : Request) (s : Session) : Session :=
  with_requested (<[tok := r]> (requested s)) s.

(** The slot under a new token, and its open task. *)
Definition begin_open (p : Protocol) (flow_id : Z) (target : Target.Target) (policy : Policy.PolicySet)
    : M unit :=
  let! tok := next_token_m in
  let cancel := {| open_token := tok; open_permit := Some tok |} in
  do! modify (put_slot flow_id (match p with TcpProto => OpeningTcp cancel | UdpProto => OpeningUdp cancel end)) in
  do! modify (remember tok {| rq_protocol := p; rq_flow := flow_id; rq_target := target; rq_policy := policy |}) in
  spawn_open p flow_id target policy cancel.

(* @src crates/uk-server/src/relay/tcp.rs 434-501 handle_tcp_open_frame *)
Definition handle_tcp_open_frame (f : Frame.Frame) : M unit :=
  let frame_id := Frame.id (Frame.header f) in
  do! modify (record (OpenRequest TcpProto)) in
  let! slot := gets (λ s, check_open_slot frame_id (table s) (max_streams (limits (cfg s)))) in
  match slot with
  | Panic => panic
  | Err DuplicateFlowId =>
    do! modify (record (OpenFailed TcpProto FProtocol)) in
    do! send_error frame_id Status.Protocol in
    do! send_tcp_close frame_id TCP_ERROR in
    modify (remove_flow_slot frame_id)
  | Err SlotLimit =>
    do! modify (record (OpenFailed TcpProto FResource)) in
    do! send_resource_limit frame_id in
    send_tcp_close frame_id TCP_ERROR
  | Ok _ =>
    let! request := validate_tcp_open_request f in
    match request with
    | None => ret tt
    | Some (flow_id, target) =>
      let! policy := gets (λ s, Security.policy_snapshot (security (io s)) (identity (cfg s)) (unix_now (io s))) in
      match policy with
      | None => reject_open_failure flow_id Dialer.PolicyDenied
      | Some policy =>
        let! acquired := acquire_flow_permit in
        if negb acquired then
          do! modify (record (OpenFailed TcpProto FResource)) in
          do! send_resource_limit flow_id in
          send_tcp_close flow_id TCP_ERROR
        else begin_open TcpProto flow_id target (Security.ps_policy_set policy)
      end
    end
  end.

(** The command channel enters the heap when its ends are handed out. *)
(* @src crates/uk-server/src/relay/tcp.rs 595-644 accept_open_target *)
Definition accept_open_target (flow_id : Z) (addr : Dialer.SocketAddr) (permit : option Z) : M TargetFlow :=
  let! cap := gets (λ s, target_write_queue_capacity (max_buffered_bytes_per_flow (limits (cfg s)))) in
  let! tok := next_token_m in
  do! modify (put_control tok control_new) in
  do! send_tcp_data flow_id [] tok in
  do! modify (record (FlowBegun TcpProto)) in
  do! modify (put_channel tok (channel_new cap)) in
  do! modify (spawn (TargetReader flow_id tok)) in
  do! modify (spawn (TargetWriter flow_id tok)) in
  ret (target_flow_new tok permit addr).

(* @src crates/uk-server/src/relay/tcp.rs 555-593 handle_tcp_open_completed *)
Definition handle_tcp_open_completed (flow_id tok : Z) (r : OpenResult) : M unit :=
  let! slot := gets (λ s, table s !! flow_id) in
  match slot with
  | Some (OpeningTcp cancel) =>
    if negb (open_token cancel =? tok) then ret tt else
    match r with
    | Ok addr =>
      let! t := accept_open_target flow_id addr (open_permit cancel) in
      modify (put_slot flow_id (Tcp t))
    | Err err =>
      do! reject_open_failure flow_id err in
      modify (remove_flow_slot flow_id)
    | Panic => panic
    end
  | _ => ret tt
  end.

(* @src crates/uk-server/src/relay/tcp.rs 30-37 should_start_half_close_drain *)
Definition should_start_half_close_drain (t : TargetFlow) : bool :=
  client_to_target_open t && target_to_client_open t.

(** The task of the timer; its handle goes into the flow. *)
(* @src crates/uk-server/src/relay/tasks.rs 473-499 spawn_half_close_timer *)
Definition spawn_half_close_timer (flow_id tok : Z) (side : HalfCloseSide) (s : Session) : Z * Session :=
  let timer := next_timer (counts s) in
  (timer, spawn (HalfCloseTimer timer flow_id tok side false)
            (with_counts (set_next_timer (timer + 1) (counts s)) s)).

Definition start_drain_timer (flow_id : Z) (side : HalfCloseSide) (t : TargetFlow) (s : Session)
    : TargetFlow * Session :=
  match tcp_half_close_timeout (limits (cfg s)) with
  | Some _ =>
    let '(timer, s) := spawn_half_close_timer flow_id (token t) side s in
    set_half_close_timer timer t s
  | None => (t, s)
  end.

(* @src crates/uk-server/src/relay/tcp.rs 39-80 handle_target_read_closed *)
Definition handle_target_read_closed (flow_id tok : Z) (s : Session) : Session :=
  match open_target_flow s flow_id with
  | None => s
  | Some t =>
    if negb (token t =? tok) then s else
    if is_aborted s (token t) then
      let '(t, s) := flow_abort t s in remove_flow_slot flow_id (put_slot flow_id (Tcp t) s)
    else
      let t := mark_target_to_client_closed t in
      let '(t, s) := if client_to_target_open t then start_drain_timer flow_id TargetToClient t s else (t, s) in
      if is_removable t then
        let '(t, s) := cancel_half_close_timer t s in remove_flow_slot flow_id (put_slot flow_id (Tcp t) s)
      else put_slot flow_id (Tcp t) s
  end.

(* @src crates/uk-server/src/relay/tcp.rs 151-156 HalfCloseDrainDecision *)
Inductive HalfCloseDrainDecision : Set :=
  | Ignored
  | ClosePeer (remove : bool)
  | AbortFlow (remove : bool).

(* @src crates/uk-server/src/relay/tcp.rs 117-149 expire_half_close_drain *)
Definition expire_half_close_drain (flow_id tok : Z) (side : HalfCloseSide) (s : Session)
    : HalfCloseDrainDecision * Session :=
  match open_target_flow s flow_id with
  | None => (Ignored, s)
  | Some t =>
    if negb (token t =? tok) then (Ignored, s) else
    match side with
    | TargetToClient =>
      if negb (target_to_client_open t) && client_to_target_open t then
        let '(t, s) := flow_abort t s in (AbortFlow (is_removable t), put_slot flow_id (Tcp t) s)
      else (Ignored, s)
    | ClientToTarget =>
      if negb (client_to_target_open t) && target_to_client_open t then
        let '(t, s) := flow_abort t s in (ClosePeer (is_removable t), put_slot flow_id (Tcp t) s)
      else (Ignored, s)
    end
  end.

(** [if let Err(err) = m { warn!(..) }]. *)
Definition ignore_error (m : M unit) : M unit := λ s,
  match m s with
  | (Err _, s) => (Ok tt, s)
  | r => r
  end.

(* @src crates/uk-server/src/relay/tcp.rs 82-115 handle_half_close_drain_expired *)
Definition handle_half_close_drain_expired (flow_id tok : Z) (side : HalfCloseSide) : M unit :=
  let! decision := (λ s, let '(d, s) := expire_half_close_drain flow_id tok side s in (Ok d, s)) in
  match decision with
  | Ignored => ret tt
  | ClosePeer remove =>
    do! send_tcp_close flow_id TCP_NORMAL in
    if remove then modify (remove_flow_slot flow_id) else ret tt
  | AbortFlow remove =>
    do! ignore_error (send_tcp_close flow_id TCP_ERROR) in
    if remove then modify (remove_flow_slot flow_id) else ret tt
  end.

(* @src crates/uk-server/src/relay/tcp.rs 158-177 handle_target_write_closed *)
Definition handle_target_write_closed (flow_id tok : Z) (s : Session) : Session :=
  match open_target_flow s flow_id with
  | None => s
  | Some t =>
    if negb (token t =? tok) then s else
    let '(t, s) := mark_target_write_closed t s in
    let '(t, s) := if is_aborted s (token t) then flow_abort t s else (t, s) in
    if is_removable t then
      let '(t, s) := cancel_half_close_timer t s in remove_flow_slot flow_id (put_slot flow_id (Tcp t) s)
    else put_slot flow_id (Tcp t) s
  end.

(* @src crates/uk-server/src/relay/tcp.rs 420-432 tcp_data_disposition *)
Definition tcp_data_disposition (flow_id : Z) (payload : Bytes) (m : gmap Z FlowSlot) : TcpDataDisposition :=
  match m !! flow_id with
  | None => TcpUnknownFlow
  | Some (OpeningTcp _) => TcpOpeningFlow
  | Some (OpeningUdp _) | Some (Udp _) => TcpOtherProtocolFlow
  | Some (Tcp _) => if bool_decide (payload = []) then TcpEmptyPayload else TcpForwardPayload
  end.

(* @src crates/uk-server/src/relay/tcp.rs 224-260 forward_tcp_data_frame *)
Definition forward_tcp_data_frame (flow_id : Z) (payload : Bytes) : M unit :=
  let! flow := gets (λ s, open_target_flow s flow_id) in
  match flow with
  | None => send_error flow_id Status.Protocol
  | Some t =>
    let! decision := (λ s,
      let l := limits (cfg s) in
      let '(r, t, s) := enqueue_data payload (max_buffered_bytes_per_flow l)
                          (max_buffered_bytes_per_session l) t s in
      match r with
      | Err EnqueueClosed =>
        let '(t, s) := mark_client_to_target_closed t s in
        (Ok (is_removable t, false), put_slot flow_id (Tcp t) s)
      | Err EnqueueLimit =>
        let '(t, s) := flow_abort t s in (Ok (true, true), put_slot flow_id (Tcp t) s)
      | _ => (Ok (false, false), put_slot flow_id (Tcp t) s)
      end) in
    let '(should_remove, should_send_resource_limit) := decision : bool * bool in
    do! (if should_send_resource_limit
         then do! send_resource_limit flow_id in send_tcp_close flow_id TCP_ERROR
         else ret tt) in
    if should_remove then modify (remove_flow_slot flow_id) else ret tt
  end.

(* @src crates/uk-server/src/relay/tcp.rs 187-222 handle_tcp_data_frame *)
Definition handle_tcp_data_frame (f : Frame.Frame) : M unit :=
  let flow_id := Frame.id (Frame.header f) in
  match validate_client_relay_flow_id flow_id with
  | Err rejection =>
    reject_invalid_client_relay_flow_id flow_id rejection "tcp data flow id must be non-zero"
  | Panic => panic
  | Ok _ =>
    let! disposition := gets (λ s, tcp_data_disposition flow_id (Frame.payload f) (table s)) in
    match disposition with
    | TcpUnknownFlow => send_error flow_id Status.Protocol
    | TcpOtherProtocolFlow =>
      do! send_error flow_id Status.Protocol in
      do! send_udp_close flow_id UDP_ERROR in
      modify (remove_flow_slot flow_id)
    | TcpOpeningFlow =>
      do! send_error flow_id Status.Protocol in
      do! send_tcp_close flow_id TCP_ERROR in
      modify (remove_flow_slot flow_id)
    | TcpEmptyPayload => ret tt
    | TcpForwardPayload => forward_tcp_data_frame flow_id (Frame.payload f)
    end
  end.

(** The match on the slot in [handle_tcp_close_frame]: whether to remove the slot
    and whether to report a protocol error. *)
Definition tcp_close_slot (flow_id close_code : Z) (s : Session) : bool * bool * Session :=
  match table s !! flow_id with
  | Some (OpeningTcp _) => (true, false, s)
  | Some (Tcp t) =>
    if close_code =? TCP_NORMAL then
      let should_start_drain_timer := should_start_half_close_drain t in
      let '(t, s) := close_client_to_target t s in
      if target_to_client_open t then
        let '(t, s) := if should_start_drain_timer then start_drain_timer flow_id ClientToTarget t s else (t, s) in
        (false, false, put_slot flow_id (Tcp t) s)
      else
        let '(t, s) := cancel_half_close_timer t s in
        (is_removable t, false, put_slot flow_id (Tcp t) s)
    else
      let '(t, s) := flow_abort t s in (true, false, put_slot flow_id (Tcp t) s)
  | Some (OpeningUdp _) | Some (Udp _) => (true, true, s)
  | None => (false, false, s)
  end.

(* @src crates/uk-server/src/relay/tcp.rs 262-337 handle_tcp_close_frame *)
Definition handle_tcp_close_frame (f : Frame.Frame) : M unit :=
  let flow_id := Frame.id (Frame.header f) in
  match validate_client_relay_flow_id flow_id with
  | Err rejection =>
    reject_invalid_client_relay_flow_id flow_id rejection "tcp close flow id must be non-zero"
  | Panic => panic
  | Ok _ =>
    match RelayPayload.Tcp.close_decode (Frame.payload f) with
    | Panic => panic
    | Err err => do! send_error flow_id Status.Protocol in fail (EProtocol err)
    | Ok close =>
      let! decision := (λ s,
        let '(remove, protocol_error, s) := tcp_close_slot flow_id (RelayPayload.Tcp.close_code close) s in
        (Ok (remove, protocol_error), s)) in
      let '(should_remove, protocol_error) := decision : bool * bool in
      do! (if protocol_error then send_error flow_id Status.Protocol else ret tt) in
      do! (if protocol_error then send_udp_close flow_id UDP_ERROR else ret tt) in
      if should_remove then modify (remove_flow_slot flow_id) else ret tt
    end
  end.

(* @src crates/uk-server/src/relay/tcp.rs 387-401 validate_client_flow_status_payload *)
Definition validate_client_flow_status_payload (ft : Frame.FrameType) (payload : Bytes) : result AnyError unit :=
  let? status := map_err EProtocol (Status.error_decode payload) in
  match ft with
  | Frame.Error => Ok tt
  | Frame.PolicyDenied =>
    if bool_decide (Status.code status = Status.PolicyDenied) then Ok tt
    else Err (EMessage "unexpected client flow status code")
  | Frame.ResourceLimit =>
    if bool_decide (Status.code status = Status.ResourceLimit) then Ok tt
    else Err (EMessage "unexpected client flow status code")
  | _ => Err (EMessage "unexpected client flow status frame")
  end.

(* @src crates/uk-server/src/relay/tcp.rs 367-385 abort_client_flow *)
Definition abort_client_flow (flow_id : Z) (s : Session) : Session :=
  match table s !! flow_id with
  | Some (OpeningTcp _) | Some (OpeningUdp _) => remove_flow_slot flow_id s
  | Some (Tcp t) =>
    let '(t, s) := flow_abort t s in remove_flow_slot flow_id (put_slot flow_id (Tcp t) s)
  | Some (Udp t) => remove_flow_slot flow_id (control_abort (udp_token t) s)
  | None => s
  end.

Definition of_result {A} (r : result AnyError A) : M A := λ s, (r, s).

(* @src crates/uk-server/src/relay/tcp.rs 339-365 handle_client_flow_status_frame *)
Definition handle_client_flow_status_frame (f : Frame.Frame) : M unit :=
  let flow_id := Frame.id (Frame.header f) in
  let ft := Frame.frame_type (Frame.header f) in
  if (flow_id =? 0) && bool_decide (ft = Frame.Error) then
    do! of_result (validate_client_flow_status_payload ft (Frame.payload f)) in
    fail (EMessage "connection error from client")
  else
  match validate_client_relay_flow_id flow_id with
  | Err rejection =>
    reject_invalid_client_relay_flow_id flow_id rejection "flow status id must be non-zero"
  | Panic => panic
  | Ok _ =>
    match validate_client_flow_status_payload ft (Frame.payload f) with
    | Err err => do! send_error flow_id Status.Protocol in fail err
    | Panic => panic
    | Ok _ => modify (abort_client_flow flow_id)
    end
  end.

(** ** UDP *)

(* @src crates/uk-server/src/relay/udp.rs 445-496 reject_udp_open_failure *)
Definition reject_udp_open_failure (flow_id : Z) (failure : Dialer.OpenFailure) : M unit :=
  match failure with
  | Dialer.PolicyDenied =>
    do! modify (record (OpenFailed UdpProto FPolicy)) in
    do! send_policy_denied flow_id in
    send_udp_close flow_id UDP_NORMAL
  | Dialer.ResourceLimit =>
    do! modify (record (OpenFailed UdpProto FResource)) in
    do! send_resource_limit flow_id in
    send_udp_close flow_id UDP_ERROR
  | Dialer.TargetUnavailable _ =>
    do! modify (record (OpenFailed UdpProto FUnavailable)) in
    do! send_error flow_id Status.TargetUnavailable in
    send_udp_close flow_id UDP_ERROR
  | Dialer.TargetTimeout =>
    do! modify (record (OpenFailed UdpProto FTimeout)) in
    do! send_error flow_id Status.TargetTimeout in
    send_udp_close flow_id UDP_ERROR
  end.

(* @src crates/uk-server/src/relay/udp.rs 119-161 validate_udp_open_request *)
Definition validate_udp_open_request (f : Frame.Frame) : M (option (Z * Target.Target)) :=
  let flow_id := Frame.id (Frame.header f) in
  let refuse := modify (record (OpenFailed UdpProto FProtocol)) in
  if flow_id =? 0 then
    do! refuse in
    do! send_error flow_id Status.Protocol in
    fail (EMessage "udp flow id must be non-zero")
  else if negb (is_client_initiated_flow_id flow_id) then
    do! refuse in
    do! send_error flow_id Status.Protocol in
    do! send_udp_close flow_id UDP_ERROR in
    ret None
  else
  match RelayPayload.Udp.open_decode (Frame.payload f) with
  | Panic => panic
  | Err err =>
    do! refuse in
    do! send_error flow_id (Status.from_protocol_error err) in
    do! send_udp_close flow_id UDP_ERROR in
    ret None
  | Ok open => ret (Some (flow_id, RelayPayload.Udp.target open))
  end.

(* @src crates/uk-server/src/relay/udp.rs 40-117 handle_udp_open_frame *)
Definition handle_udp_open_frame (f : Frame.Frame) : M unit :=
  let frame_id := Frame.id (Frame.header f) in
  do! modify (record (OpenRequest UdpProto)) in
  let! slot := gets (λ s, check_udp_open_slot frame_id (table s) (max_streams (limits (cfg s)))
                            (max_udp_flows (limits (cfg s)))) in
  match slot with
  | Panic => panic
  | Err UdpDuplicateFlowId =>
    do! modify (record (OpenFailed UdpProto FProtocol)) in
    do! send_error frame_id Status.Protocol in
    do! send_udp_close frame_id UDP_ERROR in
    modify (remove_flow_slot frame_id)
  | Err UdpSlotLimit | Err UdpFlowLimit =>
    do! modify (record (OpenFailed UdpProto FResource)) in
    do! send_resource_limit frame_id in
    send_udp_close frame_id UDP_ERROR
  | Ok _ =>
    let! request := validate_udp_open_request f in
    match request with
    | None => ret tt
    | Some (flow_id, target) =>
      let! policy := gets (λ s, Security.policy_snapshot (security (io s)) (identity (cfg s)) (unix_now (io s))) in
      match policy with
      | None => reject_udp_open_failure flow_id Dialer.PolicyDenied
      | Some policy =>
        let! acquired := acquire_flow_permit in
        if negb acquired then
          do! modify (record (OpenFailed UdpProto FResource)) in
          do! send_resource_limit flow_id in
          send_udp_close flow_id UDP_ERROR
        else begin_open UdpProto flow_id target (Security.ps_policy_set policy)
      end
    end
  end.

(* @src crates/uk-server/src/relay/udp.rs 404-443 accept_open_udp_target *)
Definition accept_open_udp_target (flow_id : Z) (addr : Dialer.SocketAddr) (permit : option Z) : M UdpTargetFlow :=
  let! tok := next_token_m in
  do! modify (put_control tok control_new) in
  do! send_udp_data flow_id [] tok in
  let! t := gets (λ s, {| udp_token := tok; last_activity := now (io s); udp_permit := permit; udp_peer := addr |}) in
  do! modify (record (FlowBegun UdpProto)) in
  do! modify (spawn (UdpReader flow_id tok)) in
  ret t.

(* @src crates/uk-server/src/relay/udp.rs 369-402 handle_udp_open_completed *)
Definition handle_udp_open_completed (flow_id tok : Z) (r : OpenResult) : M unit :=
  let! slot := gets (λ s, table s !! flow_id) in
  match slot with
  | Some (OpeningUdp cancel) =>
    if negb (open_token cancel =? tok) then ret tt else
    match r with
    | Ok addr =>
      let! t := accept_open_udp_target flow_id addr (open_permit cancel) in
      modify (put_slot flow_id (Udp t))
    | Err err =>
      do! reject_udp_open_failure flow_id err in
      modify (remove_flow_slot flow_id)
    | Panic => panic
    end
  | _ => ret tt
  end.

(* @src crates/uk-server/src/relay/udp.rs 26-38 handle_udp_read_closed *)
Definition handle_udp_read_closed (flow_id tok : Z) (s : Session) : Session :=
  match table s !! flow_id with
  | Some (Udp t) => if udp_token t =? tok then remove_flow_slot flow_id s else s
  | _ => s
  end.

(* @src crates/uk-server/src/relay/udp.rs 336-343 udp_data_disposition *)
Definition udp_data_disposition (flow_id : Z) (m : gmap Z FlowSlot) : UdpDataDisposition :=
  match m !! flow_id with
  | None => UdpUnknownFlow
  | Some (OpeningUdp _) => UdpOpeningFlow
  | Some (OpeningTcp _) | Some (Tcp _) => UdpTcpFlow
  | Some (Udp _) => UdpForwardPayload
  end.

(* @src crates/uk-server/src/relay/context.rs 988-990 UdpTargetFlow::record_activity *)
Definition record_activity (flow_id : Z) (t : UdpTargetFlow) (s : Session) : Session :=
  put_slot flow_id (Udp {| udp_token := udp_token t; last_activity := now (io s); udp_permit := udp_permit t;
                           udp_peer := udp_peer t |}) s.

Definition take_udp_outcome (s : Session) : udp_outcome * Session :=
  (hd UdpWouldBlock (udp_script (io s)), with_io (set_udp_script (tl (udp_script (io s))) (io s)) s).

(** The flow's socket is tried once, after the activity mark. *)
Definition udp_try_send (flow_id : Z) (t : UdpTargetFlow) : M udp_outcome := λ s,
  let '(o, s) := take_udp_outcome (record_activity flow_id t s) in
  (Ok o, match o with UdpSent n => record (RelayedToTarget UdpProto n) s | _ => s end).

(* @src crates/uk-server/src/relay/udp.rs 199-232 forward_udp_data_frame *)
Definition forward_udp_data_frame (flow_id : Z) (payload : Bytes) : M unit :=
  let! flow := gets (λ s, udp_target_flow s flow_id) in
  match flow with
  | None => send_error flow_id Status.Protocol
  | Some t =>
    let! o := udp_try_send flow_id t in
    match o with
    | UdpSent _ | UdpWouldBlock => ret tt
    | UdpFailed _ =>
      do! send_error flow_id Status.TargetUnavailable in
      do! send_udp_close flow_id UDP_ERROR in
      modify (remove_flow_slot flow_id)
    end
  end.

(* @src crates/uk-server/src/relay/udp.rs 239-260 forward_udp_datagram *)
Definition forward_udp_datagram (flow_id : Z) (payload : Bytes) : M unit :=
  let! flow := gets (λ s, udp_target_flow s flow_id) in
  match flow with
  | None => ret tt
  | Some t => let! _ := udp_try_send flow_id t in ret tt
  end.

(* @src crates/uk-server/src/relay/udp.rs 163-197 handle_udp_data_frame *)
Definition handle_udp_data_frame (f : Frame.Frame) : M unit :=
  let flow_id := Frame.id (Frame.header f) in
  match validate_client_relay_flow_id flow_id with
  | Err rejection => reject_invalid_udp_relay_flow_id flow_id rejection "udp data flow id must be non-zero"
  | Panic => panic
  | Ok _ =>
    let! disposition := gets (λ s, udp_data_disposition flow_id (table s)) in
    match disposition with
    | UdpUnknownFlow => send_error flow_id Status.Protocol
    | UdpTcpFlow =>
      do! send_error flow_id Status.Protocol in
      do! send_tcp_close flow_id TCP_ERROR in
      modify (remove_flow_slot flow_id)
    | UdpOpeningFlow =>
      do! send_error flow_id Status.Protocol in
      do! send_udp_close flow_id UDP_ERROR in
      modify (remove_flow_slot flow_id)
    | UdpForwardPayload => forward_udp_data_frame flow_id (Frame.payload f)
    end
  end.

(* @src crates/uk-server/src/relay/udp.rs 262-308 handle_udp_close_frame *)
Definition handle_udp_close_frame (f : Frame.Frame) : M unit :=
  let flow_id := Frame.id (Frame.header f) in
  match validate_client_relay_flow_id flow_id with
  | Err rejection => reject_invalid_udp_relay_flow_id flow_id rejection "udp close flow id must be non-zero"
  | Panic => panic
  | Ok _ =>
    match RelayPayload.Udp.close_decode (Frame.payload f) with
    | Panic => panic
    | Err err => do! send_error flow_id Status.Protocol in fail (EProtocol err)
    | Ok close =>
      let! slot := gets (λ s, table s !! flow_id) in
      match slot with
      | Some (OpeningUdp _) => modify (remove_flow_slot flow_id)
      | Some (Udp t) =>
        do! (if RelayPayload.Udp.close_code close =? UDP_NORMAL then ret tt
             else modify (control_abort (udp_token t))) in
        modify (remove_flow_slot flow_id)
      | Some (OpeningTcp _) | Some (Tcp _) =>
        do! send_error flow_id Status.Protocol in
        do! send_tcp_close flow_id TCP_ERROR in
        modify (remove_flow_slot flow_id)
      | None => ret tt
      end
    end
  end.

(** [Instant::duration_since] saturates. *)
Definition idle_since (t_now t : Z) : Z := Z.max 0 (t_now - t).

Definition udp_expired (t_now idle : Z) (m : gmap Z FlowSlot) (flow_id : Z) : bool :=
  match m !! flow_id with
  | Some (Udp t) => idle <=? idle_since t_now (last_activity t)
  | _ => false
  end.

Fixpoint close_udp_flows (flow_ids : list Z) : M unit :=
  match flow_ids with
  | [] => ret tt
  | flow_id :: rest =>
    do! send_udp_close flow_id UDP_NORMAL in
    do! modify (remove_flow_slot flow_id) in
    close_udp_flows rest
  end.

(** [visit] is the order in which the hash map yields its keys. *)
(* @src crates/uk-server/src/relay/udp.rs 310-334 close_idle_udp_flows *)
Definition close_idle_udp_flows (visit : list Z) : M unit :=
  let! idle := gets (λ s, udp_flow_idle_timeout (limits (cfg s))) in
  match idle with
  | None => ret tt
  | Some idle =>
    let! expired := gets (λ s, filter (λ i, udp_expired (now (io s)) idle (table s) i = true) visit) in
    close_udp_flows expired
  end.
End Handlers.
End Handlers.
