(* ===== verification/RelaySession.v ===== *)
(** * RelaySession: the session loop and its tasks
    (crates/uk-server/src/relay/session.rs and tasks.rs)

    The dispatch of frames and events, the loop with its deadlines and its
    teardown, and one function per task that performs the task's next step.  The
    step relation at the end interleaves the loop, the tasks and the outside
    world in every order the runtime allows. *)

From S2P Require Import Prelude Wire Varint FrameCodec RustStd TargetCodec RelayPayload Settings FrameIo.
From S2P Require Import Auth Policy Mask Security Budget Dialer RelayState RelayHandlers.

Module Session.
Import Relay Handlers.
Import RelayPayload.Flow.
#[local] Open Scope relay_scope.

Section Session.
Context {P : Platform}.

(* @src crates/uk-server/src/relay/session.rs 439-446 session_event_queue_capacity *)
Definition session_event_queue_capacity (l : RelayLimits) : Z :=
  let stream_capacity :=
    Z.min (default USIZE_MAX (usize_try_from (max_streams l)) * SESSION_EVENT_QUEUE_PER_FLOW_CAPACITY)
          USIZE_MAX in
  Z.min (usize_saturating_add SESSION_EVENT_QUEUE_BASE_CAPACITY stream_capacity)
        SESSION_EVENT_QUEUE_MAX_CAPACITY.

(** ** Frames *)

(* @src crates/uk-server/src/relay/session.rs 650-660 validate_or_report_session_control_frame *)
Definition validate_or_report_session_control_frame (f : Frame.Frame) (expected : Frame.FrameType) : M unit :=
  match Frame.validate_connection_frame f expected with
  | Ok _ => ret tt
  | Err err => do! send_error 0 Status.Protocol in fail (EProtocol err)
  | Panic => panic
  end.

(* @src crates/uk-server/src/relay/session.rs 636-642 reject_unexpected_session_frame *)
Definition reject_unexpected_session_frame (f : Frame.Frame) : M unit :=
  do! send_error (Frame.id (Frame.header f)) Status.Protocol in
  fail (EMessage "unexpected frame while relaying session").

(** The SETTINGS branch of [handle_session_frame]. *)
(* @src crates/uk-server/src/relay/session.rs 595-620 handle_session_frame *)
Definition handle_settings_frame (f : Frame.Frame) : M unit :=
  do! validate_or_report_session_control_frame f Frame.Settings in
  let! received := gets client_settings_received in
  if (received : bool) then
    do! send_error 0 Status.Protocol in fail (EMessage "duplicate client settings frame")
  else
  let! empty := gets (λ s, bool_decide (table s = ∅)) in
  if negb empty then
    do! send_error 0 Status.Protocol in
    fail (EMessage "client settings arrived after relay flows started")
  else
  match Settings.decode (Frame.payload f) with
  | Panic => panic
  | Err err => do! send_error 0 Status.Protocol in fail (EProtocol err)
  | Ok settings =>
    match Settings.negotiated_v1_0 settings with
    | Panic => panic
    | Err err => do! send_error 0 Status.Protocol in fail (EProtocol err)
    | Ok _ => modify (with_settings true)
    end
  end.

(* @src crates/uk-server/src/relay/session.rs 544-634 handle_session_frame *)
Definition handle_session_frame (f : Frame.Frame) : M unit :=
  let ft := Frame.frame_type (Frame.header f) in
  let frame_id := Frame.id (Frame.header f) in
  let! draining := gets (λ s, bool_decide (state s = Draining)) in
  match (draining : bool), ft with
  | true, Frame.TcpOpen =>
    do! modify (record (OpenFailed TcpProto FResource)) in
    do! send_resource_limit frame_id in
    send_tcp_close frame_id TCP_ERROR
  | true, Frame.UdpOpen =>
    do! modify (record (OpenFailed UdpProto FResource)) in
    do! send_resource_limit frame_id in
    send_udp_close frame_id UDP_ERROR
  | _, Frame.TcpOpen => handle_tcp_open_frame f
  | _, Frame.TcpData => handle_tcp_data_frame f
  | _, Frame.TcpClose => handle_tcp_close_frame f
  | _, Frame.UdpOpen => handle_udp_open_frame f
  | _, Frame.UdpData => handle_udp_data_frame f
  | _, Frame.UdpClose => handle_udp_close_frame f
  | _, Frame.Settings => handle_settings_frame f
  | _, Frame.Error | _, Frame.PolicyDenied | _, Frame.ResourceLimit => handle_client_flow_status_frame f
  | _, Frame.Ping =>
    do! validate_or_report_session_control_frame f Frame.Ping in write_pong f
  | _, Frame.Pong => validate_or_report_session_control_frame f Frame.Pong
  | _, Frame.AuthChallenge | _, Frame.AuthResponse => reject_unexpected_session_frame f
  end.

(** ** Events *)

(* @src crates/uk-server/src/relay/session.rs 289-366 handle_flow_event *)
Definition handle_flow_event (e : FlowEvent) : M unit :=
  match e with
  | OpenCompleted flow_id tok _ r => handle_tcp_open_completed flow_id tok r
  | UdpOpenCompleted flow_id tok _ r => handle_udp_open_completed flow_id tok r
  | ReadClosed flow_id tok => modify (handle_target_read_closed flow_id tok)
  | UdpReadClosed flow_id tok => modify (handle_udp_read_closed flow_id tok)
  | UdpActivity flow_id =>
    modify (λ s, match udp_target_flow s flow_id with Some t => record_activity flow_id t s | None => s end)
  | InboundDatagram flow_id payload => forward_udp_datagram flow_id payload
  | HalfCloseDrainExpired flow_id tok side => handle_half_close_drain_expired flow_id tok side
  | WriteClosed flow_id tok => modify (handle_target_write_closed flow_id tok)
  | Activity => ret tt
  end.

(* @src crates/uk-server/src/relay/session.rs 499-510 flow_event_counts_as_session_activity *)
Definition flow_event_counts_as_session_activity (e : FlowEvent) (m : gmap Z FlowSlot) : bool :=
  match e with
  | Activity => true
  | UdpActivity flow_id | InboundDatagram flow_id _ =>
    match m !! flow_id with Some (Udp _) => true | _ => false end
  | _ => false
  end.

(* @src crates/uk-server/src/relay/session.rs 512-514 session_has_activity_flows *)
Definition session_has_activity_flows (m : gmap Z FlowSlot) : bool := negb (bool_decide (m = ∅)).

(* @src crates/uk-server/src/relay/context.rs 216-228 SessionEvent *)
Inductive SessionEvent : Type :=
  | FlowEv (e : FlowEvent)
  | FrameEv (f : Frame.Frame)
  | FrameReadError (e : FrameIo.FrameIoError)
  | SessionTaskCompleted
  | IdleTimeout
  | UdpIdleMaintenance (visit : list Z)
  | PeerClosed
  | ShutdownEv
  | DrainTimeout
  | CarrierFailed.

(* @src crates/uk-server/src/relay/session.rs 536-542 map_frame_event *)
Definition map_frame_event (r : FrameIo.FrameIoResult Frame.Frame) : option SessionEvent :=
  match r with
  | Ok f => Some (FrameEv f)
  | Err FrameIo.Closed => Some PeerClosed
  | Err e => Some (FrameReadError e)
  | Panic => None
  end.

(* @src crates/uk-server/src/relay/session.rs 644-648 report_frame_io_error *)
Definition report_frame_io_error (e : FrameIo.FrameIoError) (s : Session) : Session :=
  match e with
  | FrameIo.Protocol err => (send_error 0 (Status.from_protocol_error err) s).2
  | _ => s
  end.

(* @src crates/uk-server/src/relay/session.rs 164-170 SessionStep *)
Inductive SessionStep : Type :=
  | Continue (counts_as_activity : bool)
  | Stop (r : result AnyError unit).

Definition continue_with (counts : bool) (r : result AnyError unit * Session) : SessionStep * Session :=
  match r with
  | (Ok _, s) => (Continue counts, s)
  | (Err e, s) => (Stop (Err e), s)
  | (Panic, s) => (Stop Panic, s)
  end.

(* @src crates/uk-server/src/relay/session.rs 179-264 handle_session_event *)
Definition handle_session_event (ev : SessionEvent) (s : Session) : SessionStep * Session :=
  match ev with
  | FlowEv e =>
    let counts := flow_event_counts_as_session_activity e (table s) in
    continue_with counts (handle_flow_event e s)
  | FrameEv f =>
    let ft := Frame.frame_type (Frame.header f) in
    let counts := bool_decide (ft = Frame.Ping) || bool_decide (ft = Frame.Pong)
                  || session_has_activity_flows (table s) in
    continue_with counts (handle_session_frame f s)
  | SessionTaskCompleted => (Continue false, s)
  | UdpIdleMaintenance visit => continue_with false (close_idle_udp_flows visit s)
  | FrameReadError e => (Stop (Err (EFrameIo e)), report_frame_io_error e s)
  | IdleTimeout | PeerClosed | DrainTimeout => (Stop (Ok tt), s)
  | ShutdownEv =>
    let '(r, s) := if bool_decide (state s = Relaying) then transition Draining s else (Ok tt, s) in
    match r with
    | Ok _ => if bool_decide (table s = ∅) then (Stop (Ok tt), s) else (Continue false, s)
    | Err e => (Stop (Err e), s)
    | Panic => (Stop Panic, s)
    end
  | CarrierFailed => (Stop (Err ECarrierUnusable), s)
  end.

(** ** Teardown *)

Definition close_slot (slot : FlowSlot) (s : Session) : Session :=
  match slot with
  | OpeningTcp c | OpeningUdp c => drop_permit (open_permit c) (cancel_open c s)
  | Tcp t =>
    let t := mark_target_to_client_closed t in
    let '(t, s) := close_client_to_target t s in
    drop_target_flow t s
  | Udp t => drop_udp_flow t (control_abort (udp_token t) s)
  end.

(** [visit] is the order in which [drain] yields the slots; a slot leaves the
    table before it is closed. *)
(* @src crates/uk-server/src/relay/session.rs 720-731 close_target_flows *)
Fixpoint close_target_flows (visit : list Z) (s : Session) : Session :=
  match visit with
  | [] => s
  | flow_id :: rest =>
    match table s !! flow_id with
    | Some slot => close_target_flows rest (close_slot slot (with_table (delete flow_id (table s)) s))
    | None => close_target_flows rest s
    end
  end.

(** Up to the point where the teardown waits for the tasks. *)
(* @src crates/uk-server/src/relay/session.rs 272-282 close_session *)
Definition begin_close (visit : list Z) (s : Session) : Session :=
  close_target_flows visit (close_shutdown (transition Closing s).2).

(** After the tasks are joined. *)
(* @src crates/uk-server/src/relay/session.rs 283-287 close_session *)
Definition finish_close (s : Session) : Session := (transition Closed (with_table ∅ s)).2.

(** ** The loop *)

(** The loop's own variables around the session. *)
Record Loop : Type := {
  session : Session;
  idle_timeout : option Z;
  idle_deadline : option Z;
  drain_deadline_set : bool;
  drain_deadline : option Z;
  outcome : option (result AnyError unit)
}.

(** [Instant::checked_add]; tokio's instants are as wide as std's. *)
Definition INSTANT_MAX : Z := 2 ^ 63 * 1000000000 - 1.
Definition checked_add (t d : Z) : option Z := if t + d <=? INSTANT_MAX then Some (t + d) else None.

(* @src crates/uk-server/src/relay/session.rs 516-521 next_idle_deadline *)
Definition next_idle_deadline (t : Z) (idle : option Z) : option Z := idle ≫= checked_add t.

(** The session before its first event. *)
(* @src crates/uk-server/src/relay/session.rs 57-99 relay_session *)
Definition loop_start (c : Config) (w : Io) (idle : option Z) (datagrams : bool) (bytes flows : Z) : Loop :=
  let s := {| cfg := c; state := Authenticated; client_settings_received := false; table := ∅;
              heap := {| controls := ∅; channels := ∅ |};
              tasks := if datagrams then [DatagramReader] else []; cancelled := ∅; events := [];
              counts := {| next_token := 1; next_timer := 0; session_bytes := 0; global_bytes := bytes;
                           global_flows := flows |};
              io := w; metrics := []; requested := ∅ |} in
  {| session := (transition Relaying s).2; idle_timeout := idle;
     idle_deadline := next_idle_deadline (now w) idle;
     drain_deadline_set := false; drain_deadline := None; outcome := None |}.

Definition with_session (s : Session) (l : Loop) : Loop :=
  {| session := s; idle_timeout := idle_timeout l; idle_deadline := idle_deadline l;
     drain_deadline_set := drain_deadline_set l; drain_deadline := drain_deadline l; outcome := outcome l |}.

Definition stop (visit : list Z) (r : result AnyError unit) (l : Loop) (s : Session) : Loop :=
  {| session := begin_close visit s; idle_timeout := idle_timeout l; idle_deadline := idle_deadline l;
     drain_deadline_set := drain_deadline_set l; drain_deadline := drain_deadline l; outcome := Some r |}.

(** One turn of the loop: the event is handled, the deadlines are updated, and
    the loop is left for the teardown when it must be. *)
(* @src crates/uk-server/src/relay/session.rs 101-150 relay_session *)
Definition loop_turn (ev : SessionEvent) (visit : list Z) (l : Loop) : Loop :=
  match handle_session_event ev (session l) with
  | (Stop r, s) => stop visit r l s
  | (Continue counts, s) =>
    let idle := if counts : bool then next_idle_deadline (now (io s)) (idle_timeout l) else idle_deadline l in
    let '(set, deadline) :=
      if bool_decide (state s = Draining) && negb (drain_deadline_set l)
      then (true, session_task_shutdown_timeout (limits (cfg s)) ≫= checked_add (now (io s)))
      else (drain_deadline_set l, drain_deadline l) in
    if bool_decide (state s = Draining) && bool_decide (table s = ∅)
    then stop visit (Ok tt) l s
    else {| session := s; idle_timeout := idle_timeout l; idle_deadline := idle;
            drain_deadline_set := set; drain_deadline := deadline; outcome := None |}
  end.

(** Which events [next_session_event] can return: [stopping] is the server's
    shutdown flag.  A flow event is the head of the queue, taken off it. *)
(* @src crates/uk-server/src/relay/session.rs 375-430 next_session_event *)
Definition event_enabled (l : Loop) (stopping : bool) (ev : SessionEvent) : Prop :=
  let s := session l in
  let draining := state s = Draining in
  if bool_decide draining || negb stopping then
    match ev with
    | FlowEv e => head (events s) = Some e
    | FrameEv f => bytes_ok (Frame.payload f) ∧ zlen (Frame.payload f) ≤ USIZE_MAX
    | FrameReadError _ | PeerClosed => True
    | SessionTaskCompleted => True
    | IdleTimeout => ∃ d, idle_deadline l = Some d ∧ d ≤ now (io s)
    | UdpIdleMaintenance visit =>
      udp_flow_idle_timeout (limits (cfg s)) ≠ None ∧ visit ≡ₚ (map_to_list (table s)).*1
    | ShutdownEv => ¬ draining
    | DrainTimeout => draining ∧ ∃ d, drain_deadline l = Some d ∧ d ≤ now (io s)
    | CarrierFailed => shutdown (io s) = true
    end
  else ev = ShutdownEv.

Definition take_event (ev : SessionEvent) (s : Session) : Session :=
  match ev with FlowEv _ => with_events (tail (events s)) s | _ => s end.

(** ** Tasks *)

(** What a task's next await gives it from outside: the outcome of a dial, a read
    from the target, a write to it, the end of a sleep, or a datagram; [Woken] is
    a wake-up by the session's own objects. *)
Inductive task_input : Type :=
  | Dialed (r : OpenResult)
  | TargetRead (bytes : Bytes)
  | TargetEof
  | TargetReadError
  | TargetWriteDone
  | TargetWriteError
  | TimerElapsed
  | DatagramReceived (bytes : Bytes)
  | DatagramError
  | DatagramOutcome (max_size : option Z) (accepted : bool) (bytes : Bytes)
  | Woken.

Definition queue_full (s : Session) : bool := session_event_queue_capacity (limits (cfg s)) <=? zlen (events s).
Definition push_event (e : FlowEvent) (s : Session) : Session := with_events (events s ++ [e]) s.

(** The hint is dropped when the queue is full. *)
(* @src crates/uk-server/src/relay/session.rs 491-497 try_record_flow_activity *)
Definition try_record_flow_activity (e : FlowEvent) (s : Session) : Session :=
  if queue_full s then s else push_event e s.

(** A task after its step: it waits again as the given task, or it has ended. *)
Abbreviation after := (option Task * Session)%type.

(** The last await of most tasks; when the session closes the event is dropped. *)
(* @src crates/uk-server/src/relay/session.rs 475-489 send_flow_event_or_shutdown *)
Definition send_flow_event_or_shutdown (e : FlowEvent) (permit : option Z) (s : Session) : option after :=
  if shutdown (io s) then Some (None, s)
  else if queue_full s then None
  else Some (None, push_event e s).

Definition open_completed (p : Protocol) (flow_id tok : Z) (target : Target.Target) (r : OpenResult) : FlowEvent :=
  match p with
  | TcpProto => OpenCompleted flow_id tok target r
  | UdpProto => UdpOpenCompleted flow_id tok target r
  end.

(* @src crates/uk-server/src/relay/tasks.rs 288-301 wait_for_open_task *)
Definition open_task_step (p : Protocol) (flow_id : Z) (target : Target.Target) (policy : Policy.PolicySet)
    (c : OpenFlowCancel) (input : task_input) (s : Session) : option after :=
  if shutdown (io s) || bool_decide (open_token c ∈ cancelled s) then Some (None, s) else
  match input with
  | Dialed r => Some (Some (Sending (open_completed p flow_id (open_token c) target r) (open_permit c)), s)
  | _ => None
  end.

(** A relay task that ended with an error reports it, unless the session closes. *)
(* @src crates/uk-server/src/relay/tasks.rs 318-326 spawn_target_reader *)
Definition report_tcp_error (flow_id tok : Z) (s : Session) : Session :=
  if shutdown (io s) then s else
  let s := control_abort tok s in
  let s := (send_error flow_id Status.TargetUnavailable s).2 in
  (send_tcp_close flow_id TCP_ERROR s).2.

(* @src crates/uk-server/src/relay/tasks.rs 415-424 spawn_udp_reader *)
Definition report_udp_error (flow_id tok : Z) (s : Session) : Session :=
  if shutdown (io s) then s else
  let s := control_abort tok s in
  let s := (send_error flow_id Status.TargetUnavailable s).2 in
  (send_udp_close flow_id UDP_ERROR s).2.

(* @src crates/uk-server/src/relay/tasks.rs 610-650 relay_target_to_client *)
Definition target_reader_step (flow_id tok : Z) (input : task_input) (s : Session) : option after :=
  let finish s := Some (Some (Sending (ReadClosed flow_id tok) None), s) in
  let finish_with r := match r with
    | (Ok _, s) => finish s
    | (_, s) => finish (report_tcp_error flow_id tok s)
    end in
  if shutdown (io s) || is_aborted s tok then finish s else
  match input with
  | TargetRead bytes =>
    if bool_decide (bytes = []) || (data_frame_size (limits (cfg s)) <? zlen bytes) then None else
    match send_tcp_data flow_id bytes tok s with
    | (Ok _, s) =>
      Some (Some (TargetReader flow_id tok),
            try_record_flow_activity Activity (record (RelayedToClient TcpProto (zlen bytes)) s))
    | (_, s) => finish (report_tcp_error flow_id tok s)
    end
  | TargetEof => finish_with (send_tcp_close flow_id TCP_NORMAL s)
  | TargetReadError => finish (report_tcp_error flow_id tok s)
  | _ => None
  end.

(** The datagram channel's limit, its answer, and the payload. *)
(* @src crates/uk-server/src/relay/udp.rs 545-569 try_send_udp_datagram *)
Definition try_send_udp_datagram (max_size : option Z) (accepted : bool) (flow_id : Z) (payload : Bytes) : bool :=
  match max_size with
  | None => false
  | Some max_datagram_size =>
    match RelayPayload.Datagram.overhead flow_id with
    | Ok overhead =>
      if max_datagram_size <? usize_saturating_add overhead (zlen payload) then false else
      match RelayPayload.Datagram.encode flow_id payload with
      | Ok _ => accepted
      | _ => false
      end
    | _ => false
    end
  end.

(** [None] of the limit: the carrier has no datagram channel, or it is closed. *)
(* @src crates/uk-server/src/relay/udp.rs 510-535 emit_udp_to_client *)
Definition emit_udp_to_client (max_size : option Z) (accepted : bool) (flow_id : Z) (payload : Bytes) (tok : Z)
    : M bool := λ s,
  if try_send_udp_datagram max_size accepted flow_id payload then (Ok true, s) else
  if data_frame_size (limits (cfg s)) <? zlen payload then (Ok false, s) else
  (do! send_udp_data flow_id payload tok in ret true) s.

(* @src crates/uk-server/src/relay/tasks.rs 653-705 relay_udp_target_to_client *)
Definition udp_reader_step (flow_id tok : Z) (input : task_input) (s : Session) : option after :=
  let finish s := Some (Some (Sending (UdpReadClosed flow_id tok) None), s) in
  if shutdown (io s) || is_aborted s tok then finish s else
  match input with
  | DatagramOutcome max_size accepted bytes =>
    if UDP_TARGET_BUFFER_SIZE <? zlen bytes then None else
    match emit_udp_to_client max_size accepted flow_id bytes tok s with
    | (Ok true, s) =>
      Some (Some (UdpReader flow_id tok),
            try_record_flow_activity (UdpActivity flow_id) (record (RelayedToClient UdpProto (zlen bytes)) s))
    | (Ok false, s) => Some (Some (UdpReader flow_id tok), s)
    | (_, s) => finish (report_udp_error flow_id tok s)
    end
  | TargetReadError => finish (report_udp_error flow_id tok s)
  | _ => None
  end.

Definition put_queue (tok : Z) (q : list TargetCommand) (w : option Bytes) (s : Session) : Session :=
  let c := channel_of s tok in
  put_channel tok {| queue := q; capacity := capacity c; sender := sender c; receiver := receiver c;
                     writing := w; written := written c; accepted := accepted c |} s.
Definition push_written (tok : Z) (bytes : Bytes) (s : Session) : Session :=
  let c := channel_of s tok in
  put_channel tok {| queue := queue c; capacity := capacity c; sender := sender c; receiver := receiver c;
                     writing := None; written := written c ++ bytes; accepted := accepted c |} s.

Definition drop_command (tok : Z) (cmd : TargetCommand) (s : Session) : Session :=
  match cmd with Data payload => drop_data tok payload s | Close => s end.

(** The receiver goes away with everything still queued. *)
Definition drop_receiver (tok : Z) (s : Session) : Session :=
  let c := channel_of s tok in
  let s := foldl (λ s cmd, drop_command tok cmd s) s (queue c) in
  put_channel tok {| queue := []; capacity := capacity c; sender := sender c; receiver := false;
                     writing := None; written := written c; accepted := accepted c |} s.

(* @src crates/uk-server/src/relay/tasks.rs 437-471 spawn_target_writer *)
Definition writer_finish (flow_id tok : Z) (failed : bool) (s : Session) : option after :=
  let s := drop_receiver tok s in
  let s := if failed then report_tcp_error flow_id tok s else s in
  Some (Some (Sending (WriteClosed flow_id tok) None), s).

(** Between commands [writing] is [None]; the write of a payload is a step of its
    own, in which the payload still counts as buffered. *)
(* @src crates/uk-server/src/relay/tasks.rs 501-608 relay_client_to_target *)
Definition target_writer_step (flow_id tok : Z) (input : task_input) (s : Session) : option after :=
  let c := channel_of s tok in
  match writing c with
  | Some payload =>
    let done s := drop_data tok payload s in
    if is_aborted s tok then writer_finish flow_id tok false (done (put_queue tok (queue c) None s)) else
    match input with
    | TargetWriteDone =>
      let s := push_written tok payload s in
      let s := try_record_flow_activity Activity (record (RelayedToTarget TcpProto (zlen payload)) s) in
      Some (Some (TargetWriter flow_id tok), done s)
    | TargetWriteError => writer_finish flow_id tok true (done (put_queue tok (queue c) None s))
    | _ => None
    end
  | None =>
    if is_aborted s tok then writer_finish flow_id tok false s else
    let shutdown_target s :=
      match input with
      | TargetWriteError => writer_finish flow_id tok true s
      | _ => writer_finish flow_id tok false s
      end in
    match queue c with
    | Data payload :: q => Some (Some (TargetWriter flow_id tok), put_queue tok q (Some payload) s)
    | Close :: q => shutdown_target (control_close tok (put_queue tok q None s))
    | [] =>
      if negb (sender c) || shutdown (io s) then
        if is_closed s tok then shutdown_target s else writer_finish flow_id tok false s
      else None
    end
  end.

(** The sleep of a half-close timer, then its event. *)
Definition timer_step (timer flow_id tok : Z) (side : HalfCloseSide) (fired : bool) (input : task_input)
    (s : Session) : option after :=
  if fired then send_flow_event_or_shutdown (HalfCloseDrainExpired flow_id tok side) None s
  else if shutdown (io s) then Some (None, s) else
  match input with
  | TimerElapsed => Some (Some (HalfCloseTimer timer flow_id tok side true), s)
  | _ => None
  end.

(** A datagram is received when the queue has room for it. *)
(* @src crates/uk-server/src/relay/tasks.rs 361-398 spawn_datagram_reader *)
Definition datagram_reader_step (input : task_input) (s : Session) : option after :=
  if shutdown (io s) then Some (None, s) else
  match input with
  | DatagramError => Some (None, s)
  | DatagramReceived bytes =>
    match RelayPayload.Datagram.decode bytes with
    | Ok (flow_id, payload) =>
      if negb (is_client_initiated_flow_id flow_id) then Some (Some DatagramReader, s) else
      if queue_full s then None
      else Some (Some DatagramReader, push_event (InboundDatagram flow_id payload) s)
    | _ => Some (Some DatagramReader, s)
    end
  | _ => None
  end.

Definition task_step (t : Task) (input : task_input) (s : Session) : option after :=
  match t with
  | OpenTask p flow_id target policy c => open_task_step p flow_id target policy c input s
  | TargetReader flow_id tok => target_reader_step flow_id tok input s
  | UdpReader flow_id tok => udp_reader_step flow_id tok input s
  | TargetWriter flow_id tok => target_writer_step flow_id tok input s
  | HalfCloseTimer timer flow_id tok side fired => timer_step timer flow_id tok side fired input s
  | DatagramReader => datagram_reader_step input s
  | Sending e permit => send_flow_event_or_shutdown e permit s
  end.

(** Task [i] takes a step; what it holds is dropped when it ends. *)
Definition run_task (i : nat) (input : task_input) (s : Session) : option Session :=
  match tasks s !! i with
  | None => None
  | Some t =>
    match task_step t input s with
    | None => None
    | Some (Some t', s') => Some (with_tasks (<[i := t']> (tasks s')) s')
    | Some (None, s') => Some (drop_permit (task_permit t) (with_tasks (delete i (tasks s')) s'))
    end
  end.

(** A dial ends the way [Dialer.connect_allowed] does, for some behaviour of the
    resolver and the network. *)
Definition input_ok (s : Session) (t : Task) (input : task_input) : Prop :=
  match t, input with
  | OpenTask _ _ target policy _, Dialed r =>
    ∃ deadline dns expired its,
      Dialer.script_ok deadline its ∧ dns ≠ Panic ∧
      Dialer.connect_allowed target (identity (cfg s)) policy
        (max_outbound_dials_per_session (limits (cfg s))) deadline dns expired its = Some r
  | _, _ => True
  end.

(** What an aborted task holds goes away. *)
Definition abort_task (i : nat) (s : Session) : Session :=
  match tasks s !! i with
  | None => s
  | Some t =>
    let s := with_tasks (delete i (tasks s)) s in
    match t with
    | TargetWriter _ tok =>
      let c := channel_of s tok in
      drop_receiver tok (match writing c with Some p => drop_data tok p (put_queue tok (queue c) None s) | None => s end)
    | _ => drop_permit (task_permit t) s
    end
  end.

(** ** The step relation *)

(** What the rest of the world may change: the clock, the scripts of outcomes, the
    security generation, and the other sessions' shares of the global budgets. *)
Definition world_step (s s' : Session) : Prop :=
  ∃ script udp t unix sec bytes flows,
    now (io s) ≤ t ∧ session_bytes (counts s) ≤ bytes ≤ global_buffer_limit (cfg s) ∧
    Z.of_nat (size (live_permits s)) ≤ flows ≤ global_flow_limit (cfg s) ∧
    s' = with_counts (set_global_bytes bytes (set_global_flows flows (counts s)))
           (with_io {| sent := sent (io s); carrier_script := script; udp_script := udp;
                       shutdown := shutdown (io s); now := t; unix_now := unix; security := sec |} s).

(** A session allocates fewer than 2^64 flow tokens. *)
Definition tokens_left (s : Session) : Prop := next_token (counts s) < 2 ^ 64 - 1.

(** The loop and the tasks interleave at their awaits.  The teardown waits for the
    tasks ([drain_session_tasks]), aborting them when its deadline passes. *)
(* @src crates/uk-server/src/relay/session.rs 448-465 drain_session_tasks *)
Inductive step : Loop → Loop → Prop :=
  | step_turn l stopping ev visit :
      outcome l = None → event_enabled l stopping ev → tokens_left (session l) →
      let l' := with_session (take_event ev (session l)) l in
      visit ≡ₚ (map_to_list (table (handle_session_event ev (session l')).2)).*1 →
      step l (loop_turn ev visit l')
  | step_task l i t input s' :
      tasks (session l) !! i = Some t → input_ok (session l) t input →
      run_task i input (session l) = Some s' →
      step l (with_session s' l)
  | step_world l s' : world_step (session l) s' → step l (with_session s' l)
  | step_abort l i :
      outcome l ≠ None → state (session l) = Closing → is_Some (tasks (session l) !! i) →
      session_task_shutdown_timeout (limits (cfg (session l))) ≠ None →
      step l (with_session (abort_task i (session l)) l)
  | step_finish l :
      outcome l ≠ None → state (session l) = Closing → tasks (session l) = [] →
      step l (with_session (finish_close (session l)) l).

(** The states a session can reach from its start. *)
Definition reachable (start l : Loop) : Prop := rtc step start l.
End Session.
End Session.
