(* ===== verification/RelayEdits.v ===== *)
(** * RelayEdits: the elementary changes of a session

    Every handler, every task step and the teardown is a sequence of the few
    elementary edits listed here, each with the conditions under which the code
    makes it.  What is invariant under the edits is then invariant under the whole
    session; the invariants themselves are in RelayInv. *)

From S2P Require Import Prelude Wire Varint FrameCodec RustStd TargetCodec RelayPayload Settings FrameIo.
From S2P Require Import Auth Policy Mask Security Budget Dialer RelayState RelayHandlers RelaySession.

Module Edits.
Import Relay Handlers Session.
Import RelayPayload.Flow.
#[local] Open Scope relay_scope.

Create HintDb relay.

Section Frames.
Context {P : Platform}.

(** ** Steps and preorders *)

(** [m] moves the state along [R], whatever it returns. *)
Definition keeps {A} (R : Session → Session → Prop) (m : M A) : Prop := ∀ s, R s (m s).2.

Section Keeps.
Context (R : Session → Session → Prop) {HR : PreOrder R}.

Lemma keeps_ret {A} (a : A) : keeps R (ret a).
Proof. intros s. done. Qed.
Lemma keeps_fail {A} e : keeps R (@fail A e).
Proof. intros s. done. Qed.
Lemma keeps_panic {A} : keeps R (@panic A).
Proof. intros s. done. Qed.
Lemma keeps_gets {A} (f : Session → A) : keeps R (gets f).
Proof. intros s. done. Qed.
Lemma keeps_lift {A} (r : ProtocolResult A) : keeps R (lift r).
Proof. intros s. done. Qed.
Lemma keeps_of_result {A} (r : result AnyError A) : keeps R (of_result r).
Proof. intros s. done. Qed.
Lemma keeps_modify f : (∀ s, R s (f s)) → keeps R (modify f).
Proof. intros Hf s. apply Hf. Qed.
Lemma keeps_bind {A B} (m : M A) (k : A → M B) :
  keeps R m → (∀ a, keeps R (k a)) → keeps R (bind m k).
Proof.
  intros Hm Hk s. unfold bind. specialize (Hm s). destruct (m s) as [[a|e|] s']; [|done..].
  etrans; [exact Hm|apply Hk].
Qed.
Lemma keeps_ignore (m : M unit) : keeps R m → keeps R (ignore_error m).
Proof. intros Hm s. unfold ignore_error. specialize (Hm s). by destruct (m s) as [[]]. Qed.
(** A continuation that looks at the state it was reached in. *)
Lemma keeps_gets_bind {A B} (f : Session → A) (k : A → M B) :
  (∀ s, R s (k (f s) s).2) → keeps R (bind (gets f) k).
Proof. intros Hk s. apply Hk. Qed.
End Keeps.
End Frames.

#[export] Hint Resolve keeps_ret keeps_fail keeps_panic keeps_gets keeps_lift keeps_of_result : relay.

(** One step of a structural argument on a handler. *)
Ltac keeps_step :=
  match goal with
  | |- keeps _ (bind _ _) => apply keeps_bind; [apply _| |intros ?]
  | |- keeps _ (modify _) => apply keeps_modify; [intros ?]
  | |- keeps _ (ignore_error _) => apply keeps_ignore
  | |- keeps _ (if ?b then _ else _) => destruct b
  | |- keeps _ (match ?x with _ => _ end) => destruct x
  | |- keeps _ (let '(_, _) := ?x in _) => destruct x
  | |- keeps _ _ => solve [eauto with relay typeclass_instances]
  end.

Section Quiet.
Context {P : Platform}.

(** ** What writing to the carrier leaves alone *)

(** Everything but the carrier, the metrics and the flags of control blocks. *)
Definition core (s : Session) :=
  (cfg s, state s, client_settings_received s, table s, tasks s, cancelled s, events s, counts s,
   requested s, channels (heap s)).

Definition quiet (s s' : Session) : Prop :=
  core s' = core s ∧
  (∀ tok, buffered_bytes (control_of s' tok) = buffered_bytes (control_of s tok)) ∧
  (∀ tok, (closed (control_of s tok) = true → closed (control_of s' tok) = true) ∧
          (aborted (control_of s tok) = true → aborted (control_of s' tok) = true)) ∧
  (shutdown (io s) = true → shutdown (io s') = true) ∧ now (io s') = now (io s) ∧
  security (io s') = security (io s).

#[global] Instance quiet_preorder : PreOrder quiet.
Proof.
  split; [done|]. intros s1 s2 s3 (Hc & Hb & Hf & Hs & Hn & Hse) (Hc' & Hb' & Hf' & Hs' & Hn' & Hse').
  split_and!; [congruence|intros; by rewrite Hb'| |auto|congruence|congruence].
  intros tok. destruct (Hf tok), (Hf' tok). split; auto.
Qed.

Lemma control_of_put tok c s tok' :
  control_of (put_control tok c s) tok' = if decide (tok = tok') then c else control_of s tok'.
Proof.
  unfold control_of, put_control. simpl. case_decide as Ht; [subst; by rewrite lookup_insert_eq|].
  by rewrite lookup_insert_ne.
Qed.

Lemma control_of_put_eq tok c s : control_of (put_control tok c s) tok = c.
Proof. by rewrite control_of_put, decide_True. Qed.

Lemma control_abort_quiet tok s : quiet s (control_abort tok s).
Proof.
  unfold control_abort. split_and!; try done; intros tok'; rewrite control_of_put; case_decide; subst; done.
Qed.

Lemma control_close_quiet tok s : quiet s (control_close tok s).
Proof.
  unfold control_close. split_and!; try done; intros tok'; rewrite control_of_put; case_decide; subst; done.
Qed.

Lemma record_quiet m s : quiet s (record m s).
Proof. done. Qed.

Lemma close_shutdown_quiet s : quiet s (close_shutdown s).
Proof. done. Qed.

Lemma write_outcome_of_quiet f o s : quiet s (write_outcome_of f o s).2.
Proof. destruct o; try done. simpl. by destruct (carrier_write_timeout _). Qed.

Lemma take_outcome_quiet s : quiet s (take_outcome s).2.
Proof. done. Qed.

Lemma write_frame_locked_quiet f : keeps quiet (write_frame_locked f).
Proof.
  intros s. unfold write_frame_locked. destruct (shutdown (io s)); [done|].
  destruct (Frame.frame_encode f); [|done..].
  pose proof (take_outcome_quiet s) as Hs. destruct (take_outcome s) as [o s1].
  etrans; [exact Hs|]. destruct o; try apply write_outcome_of_quiet. apply close_shutdown_quiet.
Qed.

Lemma write_flow_frame_locked_quiet f tok : keeps quiet (write_flow_frame_locked f tok).
Proof.
  intros s. unfold write_flow_frame_locked. destruct (shutdown (io s) || is_aborted s tok); [done|].
  destruct (Frame.frame_encode f); [|done..].
  pose proof (take_outcome_quiet s) as Hs. destruct (take_outcome s) as [o s1].
  etrans; [exact Hs|]. destruct o as [| | |[]|]; try apply write_outcome_of_quiet;
    [apply close_shutdown_quiet..|apply control_abort_quiet].
Qed.
End Quiet.

#[export] Hint Resolve write_frame_locked_quiet write_flow_frame_locked_quiet record_quiet
  control_abort_quiet control_close_quiet close_shutdown_quiet : relay.

Section Edit.
Context {P : Platform}.

(** ** The edits *)

(** The reader of a TCP flow, until the session loop has handled its last event. *)
Definition ev_reader (e : FlowEvent) : option Z :=
  match e with ReadClosed _ tok => Some tok | _ => None end.
Definition tcp_reader (t : Task) : option Z :=
  match t with TargetReader _ tok => Some tok | Sending e _ => ev_reader e | _ => None end.
Definition readers (s : Session) : list Z := omap tcp_reader (tasks s) ++ omap ev_reader (events s).

(** A completed dial reports an address the policy of its own request permits, or a
    failure. *)
Definition dialed_for (s : Session) (p : Protocol) (flow_id tok : Z) (addr : Dialer.SocketAddr) : Prop :=
  ∃ rq, requested s !! tok = Some rq ∧ rq_protocol rq = p ∧ rq_flow rq = flow_id ∧
        Dialer.dial_permitted (rq_target rq) (identity (cfg s)) (rq_policy rq) addr.
Definition dial_ok (s : Session) (e : FlowEvent) : Prop :=
  match e with
  | OpenCompleted flow_id tok _ (Ok addr) => dialed_for s TcpProto flow_id tok addr
  | UdpOpenCompleted flow_id tok _ (Ok addr) => dialed_for s UdpProto flow_id tok addr
  | OpenCompleted _ _ _ Panic | UdpOpenCompleted _ _ _ Panic => False
  | _ => True
  end.

Definition is_half_timer (t : Task) : bool := match t with HalfCloseTimer _ _ _ _ _ => true | _ => false end.
Definition non_timers (ts : list Task) : list Task := filter (λ t, is_half_timer t = false) ts.

Definition is_writer (t : Task) : bool := match t with TargetWriter _ _ => true | _ => false end.

(** The event a task at its last await hands over. *)
Definition task_event (t : Task) : option FlowEvent :=
  match t with
  | Sending e _ => Some e
  | HalfCloseTimer _ flow_id tok side true => Some (HalfCloseDrainExpired flow_id tok side)
  | _ => None
  end.

Definition same_flow (t t' : TargetFlow) : Prop :=
  token t' = token t ∧ flow_permit t' = flow_permit t ∧ peer t' = peer t.

(** A command at the end of a channel's queue. *)
Definition push_command (tok : Z) (cmd : TargetCommand) (s : Session) : Session :=
  let c := channel_of s tok in
  put_channel tok {| queue := queue c ++ [cmd]; capacity := capacity c; sender := sender c;
                     receiver := receiver c; writing := writing c; written := written c;
                     accepted := accepted c ++ command_bytes cmd |} s.

(** A writer goes away with its receiver and the payload it is writing. *)
Definition drop_writing (tok : Z) (s : Session) : Session :=
  let c := channel_of s tok in
  match writing c with Some p => drop_data tok p (put_queue tok (queue c) None s) | None => s end.
Definition drop_channel (tok : Z) (s : Session) : Session := drop_receiver tok (drop_writing tok s).

Definition slot_free (p : Protocol) (flow_id : Z) (s : Session) : Prop :=
  is_client_initiated_flow_id flow_id = true ∧ table s !! flow_id = None ∧
  table_len (table s) < max_streams (limits (cfg s)) ∧
  (p = UdpProto → udp_flow_count (table s) < max_udp_flows (limits (cfg s))).

(** A control block under a fresh token. *)
Definition fresh_control (s : Session) : Session :=
  let '(tok, s) := next_flow_token s in put_control tok control_new s.

Definition opened_tcp (flow_id tok cap : Z) (permit : option Z) (addr : Dialer.SocketAddr) (s : Session) : Session :=
  put_slot flow_id (Tcp (target_flow_new tok permit addr))
    (spawn (TargetWriter flow_id tok) (spawn (TargetReader flow_id tok) (put_channel tok (channel_new cap) s))).
Definition opened_udp (flow_id tok t_now : Z) (permit : option Z) (addr : Dialer.SocketAddr) (s : Session) : Session :=
  put_slot flow_id (Udp {| udp_token := tok; last_activity := t_now; udp_permit := permit; udp_peer := addr |})
    (spawn (UdpReader flow_id tok) s).

(** A task that waits again: the same task, one that fired, or one that now hands
    over its last event. *)
Definition task_moves (s : Session) (t t' : Task) : Prop :=
  t' = t ∨
  (tcp_reader t' = tcp_reader t ∧ task_permit t' = task_permit t ∧ is_writer t = false ∧
   (∃ e, task_event t' = Some e ∧ dial_ok s e)).

Inductive edit (s : Session) : Session → Prop :=
  | edit_quiet s' : quiet s s' → edit s s'
  | edit_settings : edit s (with_settings true s)
  | edit_timers ts n :
      non_timers ts = non_timers (tasks s) →
      edit s (with_counts (set_next_timer n (counts s)) (with_tasks ts s))
  | edit_close_command tok :
      receiver (channel_of s tok) = true → is_closed s tok = true → edit s (push_command tok Close s)
  | edit_drop_sender tok : edit s (drop_sender tok s)
  | edit_enqueue tok payload b :
      receiver (channel_of s tok) = true → is_closed s tok = false →
      Budget.control_reserve (counters_of s tok) (zlen payload) (max_buffered_bytes_per_flow (limits (cfg s)))
        (max_buffered_bytes_per_session (limits (cfg s))) (global_buffer_limit (cfg s)) = (true, b) →
      edit s (push_command tok (Data payload) (put_counters tok b s))
  | edit_tcp flow_id t t' :
      table s !! flow_id = Some (Tcp t) → same_flow t t' →
      target_to_client_open t' = target_to_client_open t ∨ is_aborted s (token t) = true ∨ token t ∉ readers s →
      edit s (put_slot flow_id (Tcp t') s)
  | edit_udp flow_id t t_now :
      table s !! flow_id = Some (Udp t) →
      edit s (put_slot flow_id (Udp {| udp_token := udp_token t; last_activity := t_now;
                                       udp_permit := udp_permit t; udp_peer := udp_peer t |}) s)
  | edit_remove flow_id : edit s (remove_flow_slot flow_id s)
  | edit_open p flow_id target policy s1 :
      tokens_left s → slot_free p flow_id s → state s ≠ Draining → acquire_flow_permit s = (Ok true, s1) →
      edit s (begin_open p flow_id target policy s1).2
  | edit_fresh : tokens_left s → edit s (fresh_control s)
  | edit_accept_tcp flow_id c addr cap s2 :
      tokens_left s → table s !! flow_id = Some (OpeningTcp c) → dialed_for s TcpProto flow_id (open_token c) addr →
      quiet (fresh_control s) s2 →
      edit s (opened_tcp flow_id (next_token (counts s)) cap (open_permit c) addr s2)
  | edit_accept_udp flow_id c addr t_now s2 :
      tokens_left s → table s !! flow_id = Some (OpeningUdp c) → dialed_for s UdpProto flow_id (open_token c) addr →
      quiet (fresh_control s) s2 →
      edit s (opened_udp flow_id (next_token (counts s)) t_now (open_permit c) addr s2)
  | edit_close_slot flow_id slot :
      shutdown (io s) = true → table s !! flow_id = Some slot →
      edit s (close_slot slot (with_table (delete flow_id (table s)) s))
  | edit_pop e es : events s = e :: es → edit s (with_events es s)
  | edit_push e : ev_reader e = None → dial_ok s e → queue_full s = false → edit s (push_event e s)
  | edit_task i t t' :
      tasks s !! i = Some t → task_moves s t t' → edit s (with_tasks (<[i := t']> (tasks s)) s)
  | edit_end i t :
      tasks s !! i = Some t → is_writer t = false →
      edit s (drop_permit (task_permit t) (with_tasks (delete i (tasks s)) s))
  | edit_send i t e :
      tasks s !! i = Some t → task_event t = Some e → queue_full s = false →
      edit s (drop_permit (task_permit t) (with_tasks (delete i (tasks s)) (push_event e s)))
  | edit_take i flow_id tok payload q :
      tasks s !! i = Some (TargetWriter flow_id tok) → writing (channel_of s tok) = None →
      queue (channel_of s tok) = Data payload :: q → edit s (put_queue tok q (Some payload) s)
  | edit_take_close i flow_id tok q :
      tasks s !! i = Some (TargetWriter flow_id tok) → writing (channel_of s tok) = None →
      queue (channel_of s tok) = Close :: q → edit s (put_queue tok q None s)
  | edit_written i flow_id tok payload :
      tasks s !! i = Some (TargetWriter flow_id tok) → writing (channel_of s tok) = Some payload →
      edit s (drop_data tok payload (push_written tok payload s))
  | edit_writer_end i flow_id tok s2 :
      tasks s !! i = Some (TargetWriter flow_id tok) → quiet (drop_channel tok s) s2 →
      is_aborted s2 tok = true ∨ shutdown (io s2) = true ∨
        (writing (channel_of s tok) = None ∧ Forall (λ cmd, cmd = Close) (queue (channel_of s tok))) →
      edit s (with_tasks (<[i := Sending (WriteClosed flow_id tok) None]> (tasks s2)) s2)
  | edit_abort_writer i flow_id tok :
      tasks s !! i = Some (TargetWriter flow_id tok) → shutdown (io s) = true →
      edit s (drop_channel tok (with_tasks (delete i (tasks s)) s)).

End Edit.

(** A run of edits. *)
Abbreviation edits := (rtc edit).

Section Sends.
Context {P : Platform}.

Lemma quiet_edits s s' : quiet s s' → edits s s'.
Proof. intros Hq. by apply rtc_once, edit_quiet. Qed.

Lemma keeps_quiet {A} (m : M A) : keeps quiet m → keeps edits m.
Proof. intros Hm s. apply quiet_edits, Hm. Qed.

(** ** Sends *)

Lemma send_status_frame_quiet ft id c : keeps quiet (send_status_frame ft id c).
Proof. unfold send_status_frame. repeat keeps_step. Qed.
Lemma send_tcp_close_quiet id c : keeps quiet (send_tcp_close id c).
Proof. unfold send_tcp_close. repeat keeps_step. Qed.
Lemma send_udp_close_quiet id c : keeps quiet (send_udp_close id c).
Proof. unfold send_udp_close. repeat keeps_step. Qed.
Lemma send_tcp_data_quiet id p tok : keeps quiet (send_tcp_data id p tok).
Proof. unfold send_tcp_data. repeat keeps_step. Qed.
Lemma send_udp_data_quiet id p tok : keeps quiet (send_udp_data id p tok).
Proof. unfold send_udp_data. repeat keeps_step. Qed.
Lemma write_pong_quiet f : keeps quiet (write_pong f).
Proof. unfold write_pong. repeat keeps_step. Qed.

End Sends.

#[export] Hint Resolve send_status_frame_quiet send_tcp_close_quiet send_udp_close_quiet send_tcp_data_quiet
  send_udp_data_quiet write_pong_quiet : relay.


#[export] Hint Extern 2 (keeps (rtc edit) _) => apply keeps_quiet : relay.
#[export] Hint Extern 1 (keeps _ (send_error _ _)) => apply send_status_frame_quiet : relay.
#[export] Hint Extern 1 (keeps _ (send_policy_denied _)) => apply send_status_frame_quiet : relay.
#[export] Hint Extern 1 (keeps _ (send_resource_limit _)) => apply send_status_frame_quiet : relay.
#[export] Hint Extern 1 (rtc edit _ (record _ _)) => apply quiet_edits, record_quiet : relay.
#[export] Hint Extern 1 (rtc edit _ (control_abort _ _)) => apply quiet_edits, control_abort_quiet : relay.
#[export] Hint Extern 1 (rtc edit _ (remove_flow_slot _ _)) => apply rtc_once, edit_remove : relay.

(** Quiet handlers, and handlers that only remove slots besides. *)
Ltac keeps_auto := repeat first [keeps_step | progress eauto with relay].

Section Handlers.
Context {P : Platform}.

Lemma reject_open_failure_quiet id e : keeps quiet (reject_open_failure id e).
Proof. unfold reject_open_failure. keeps_auto. Qed.
Lemma reject_udp_open_failure_quiet id e : keeps quiet (reject_udp_open_failure id e).
Proof. unfold reject_udp_open_failure. keeps_auto. Qed.
Lemma reject_tcp_id_quiet id r m : keeps quiet (reject_invalid_client_relay_flow_id id r m).
Proof. unfold reject_invalid_client_relay_flow_id. keeps_auto. Qed.
Lemma reject_udp_id_quiet id r m : keeps quiet (reject_invalid_udp_relay_flow_id id r m).
Proof. unfold reject_invalid_udp_relay_flow_id. keeps_auto. Qed.
Lemma validate_tcp_open_quiet f : keeps quiet (validate_tcp_open_request f).
Proof. unfold validate_tcp_open_request. cbv zeta. keeps_auto. Qed.
Lemma validate_udp_open_quiet f : keeps quiet (validate_udp_open_request f).
Proof. unfold validate_udp_open_request. cbv zeta. keeps_auto. Qed.
Lemma validate_control_quiet f ft : keeps quiet (validate_or_report_session_control_frame f ft).
Proof. unfold validate_or_report_session_control_frame. keeps_auto. Qed.
Lemma reject_unexpected_quiet f : keeps quiet (reject_unexpected_session_frame f).
Proof. unfold reject_unexpected_session_frame. keeps_auto. Qed.
End Handlers.

#[export] Hint Resolve reject_open_failure_quiet reject_udp_open_failure_quiet reject_tcp_id_quiet
  reject_udp_id_quiet validate_tcp_open_quiet validate_udp_open_quiet validate_control_quiet
  reject_unexpected_quiet : relay.

Section Flows.
Context {P : Platform}.

(** ** Operations on a flow that is held outside the table *)

Lemma omap_non_timers {B} (f : Task → option B) ts :
  (∀ t, is_half_timer t = true → f t = None) → omap f (non_timers ts) = omap f ts.
Proof.
  intros Hf. unfold non_timers. induction ts as [|t ts IH]; [done|]. rewrite filter_cons. cbn [omap list_omap].
  case_decide as Ht; [by cbn [omap list_omap]; rewrite IH|].
  rewrite (Hf t); [done|]. by destruct (is_half_timer t).
Qed.

Lemma non_timers_abort timer ts : non_timers (filter (λ t, is_timer timer t = false) ts) = non_timers ts.
Proof.
  unfold non_timers. rewrite list_filter_filter. apply list_filter_iff. intros t. split; [tauto|].
  intros Ht. split; [done|]. by destruct t.
Qed.

(** What an operation on the flow [x.1] in the state [x.2] does. *)
Definition carries (x y : TargetFlow * Session) : Prop :=
  edits x.2 y.2 ∧ same_flow x.1 y.1 ∧ table y.2 = table x.2 ∧
  (∀ tok, is_aborted x.2 tok = true → is_aborted y.2 tok = true) ∧
  readers y.2 = readers x.2 ∧
  (target_to_client_open y.1 = target_to_client_open x.1 ∨ is_aborted y.2 (token x.1) = true).

#[global] Instance carries_preorder : PreOrder carries.
Proof.
  split; [intros x; split_and!; auto; done|].
  intros x y z (He & (Ht & Hp & Ha) & Htb & Hab & Hr & Ho) (He' & (Ht' & Hp' & Ha') & Htb' & Hab' & Hr' & Ho').
  split_and!; [by etrans|split_and!; congruence|congruence|auto|congruence|].
  rewrite Ht in Ho'. destruct Ho as [Ho|Ho]; [|right; auto]. destruct Ho' as [Ho'|Ho']; [left; congruence|by right].
Qed.

Lemma flow_carries t t' s :
  same_flow t t' → target_to_client_open t' = target_to_client_open t → carries (t, s) (t', s).
Proof. intros Hf Ho. split_and!; try done. by left. Qed.

Lemma quiet_carries t s s' : quiet s s' → carries (t, s) (t, s').
Proof.
  intros Hq. split_and!; [by apply quiet_edits|done| | | |by left]; destruct Hq as (Hc & _ & Hf & _);
    unfold core in Hc; simplify_eq/=; [done| |].
  - intros tok. apply Hf.
  - unfold readers. congruence.
Qed.

Lemma timers_carries t t' s s' ts :
  s' = with_counts (set_next_timer (next_timer (counts s')) (counts s)) (with_tasks ts s) →
  non_timers ts = non_timers (tasks s) → same_flow t t' →
  target_to_client_open t' = target_to_client_open t → carries (t, s) (t', s').
Proof.
  intros -> Hts Hf Ho. split_and!; [by apply rtc_once, edit_timers|done|done|done| |by left].
  unfold readers. simpl. f_equal. rewrite <-(omap_non_timers _ ts), Hts; [|by intros []].
  apply omap_non_timers. by intros [].
Qed.

Lemma with_next_timer_id s ts :
  with_tasks ts s = with_counts (set_next_timer (next_timer (counts s)) (counts s)) (with_tasks ts s).
Proof. by destruct s as [? ? ? ? ? ? ? ? []]. Qed.

Lemma cancel_timer_carries t s : carries (t, s) (cancel_half_close_timer t s).
Proof.
  unfold cancel_half_close_timer. destruct (half_close_timer t) as [timer|]; [|by apply flow_carries].
  eapply timers_carries; [exact (with_next_timer_id s _)|apply non_timers_abort|by split_and!|done].
Qed.

Lemma set_timer_carries t s timer : carries (t, s) (set_half_close_timer timer t s).
Proof.
  unfold set_half_close_timer. destruct (half_close_timer t) as [old|]; [|by apply flow_carries].
  eapply timers_carries; [exact (with_next_timer_id s _)|apply non_timers_abort|by split_and!|done].
Qed.

Lemma start_drain_timer_carries id side t s : carries (t, s) (start_drain_timer id side t s).
Proof.
  unfold start_drain_timer. destruct (tcp_half_close_timeout _) as [d|]; [|done].
  etrans; [|apply set_timer_carries]. apply (timers_carries t t s _ (tasks s ++ [HalfCloseTimer (next_timer (counts s)) id (token t) side false]));
    [done| |done|done].
  unfold non_timers. rewrite filter_app. simpl. by rewrite app_nil_r.
Qed.

Lemma sides_carries t s b1 b2 : carries (t, s) (set_sides (target_to_client_open t) b1 b2 t, s).
Proof. by apply flow_carries. Qed.

Lemma channel_carries t t' s c tok :
  edit s (put_channel tok c s) → same_flow t t' → target_to_client_open t' = target_to_client_open t →
  carries (t, s) (t', put_channel tok c s).
Proof. intros He Hf Ho. split_and!; [by apply rtc_once|done|done|done|done|by left]. Qed.

Lemma is_closed_control_close tok s : is_closed (control_close tok s) tok = true.
Proof. unfold is_closed, control_close. rewrite control_of_put. by rewrite decide_True. Qed.
Lemma is_aborted_control_abort tok s : is_aborted (control_abort tok s) tok = true.
Proof. unfold is_aborted, control_abort. rewrite control_of_put. by rewrite decide_True. Qed.

Lemma try_send_spec tok cmd s :
  match try_send tok cmd s with
  | (SendOk, s') => receiver (channel_of s tok) = true ∧ s' = push_command tok cmd s
  | (_, s') => s' = s
  end.
Proof.
  unfold try_send. destruct (negb (receiver (channel_of s tok))) eqn:Hr; [done|].
  destruct (_ <=? _); [done|]. split; [by apply negb_false_iff|done].
Qed.

Lemma close_queue_carries t s : carries (t, s) (close_client_to_target_queue t s).
Proof.
  unfold close_client_to_target_queue. set (s1 := control_close (token t) s).
  transitivity (t, s1); [apply quiet_carries, control_close_quiet|].
  destruct (commands t); [|done]. pose proof (try_send_spec (token t) Close s1) as Hs.
  destruct (try_send (token t) Close s1) as [[] s2].
  - destruct Hs as [Hr ->]. apply channel_carries; [|done|done].
    apply (edit_close_command s1 (token t)); [done|apply is_closed_control_close].
  - subst s2. apply channel_carries; [apply edit_drop_sender|by split_and!|done].
  - subst s2. apply channel_carries; [apply edit_drop_sender|by split_and!|done].
Qed.

Lemma close_client_carries t s : carries (t, s) (close_client_to_target t s).
Proof.
  unfold close_client_to_target. destruct (client_to_target_open t); [|done].
  etrans; [apply sides_carries|apply close_queue_carries].
Qed.

Lemma flow_abort_carries t s :
  carries (t, s) (flow_abort t s) ∧ is_aborted (flow_abort t s).2 (token t) = true.
Proof.
  unfold flow_abort. pose proof (cancel_timer_carries t s) as Hc.
  destruct (cancel_half_close_timer t s) as [t1 s1].
  pose proof Hc as (_ & (Ht & _) & _). simpl in Ht.
  set (t2 := set_sides false false false t1). set (s2 := control_abort (token t2) s1).
  assert (is_aborted s2 (token t2) = true) as Ha by apply is_aborted_control_abort.
  pose proof (close_queue_carries t2 s2) as Hq. split.
  - etrans; [exact Hc|]. etrans; [apply quiet_carries, (control_abort_quiet (token t2))|].
    etrans; [|exact Hq]. split_and!; [done|done|done|done|done|]. by right.
  - destruct Hq as (_ & _ & _ & Hq & _). rewrite <-Ht. by apply Hq.
Qed.

(** Writing the flow back. *)
Lemma carry_put id t t1 t' s s' :
  table s !! id = Some (Tcp t) → same_flow t t1 → carries (t1, s) (t', s') →
  target_to_client_open t1 = target_to_client_open t ∨ is_aborted s' (token t) = true ∨ token t ∉ readers s →
  edits s (put_slot id (Tcp t') s').
Proof.
  intros Ht (Hk & Hp & Ha) (He & (Hk' & Hp' & Ha') & Htb & Hab & Hr & Ho) Hc. simpl in *.
  eapply rtc_r; [exact He|]. apply (edit_tcp s' id t t'); [congruence|split_and!; congruence|].
  rewrite Hr. destruct Hc as [Hc|[Hc|Hc]]; [|by auto..]. rewrite Hk in Ho.
  destruct Ho as [Ho|Ho]; [left; congruence|auto].
Qed.

(** ** What dropping and closing slots leaves alone *)

Definition frame_of (s : Session) :=
  (cfg s, state s, client_settings_received s, table s, events s, io s, requested s).

Lemma drop_permit_frame p s : frame_of (drop_permit p s) = frame_of s.
Proof. unfold drop_permit. destruct p; [|done]. by case_decide. Qed.
Lemma cancel_timer_frame t s : frame_of (cancel_half_close_timer t s).2 = frame_of s.
Proof. unfold cancel_half_close_timer. by destruct (half_close_timer t). Qed.
Lemma drop_target_flow_frame t s : frame_of (drop_target_flow t s) = frame_of s.
Proof.
  unfold drop_target_flow. pose proof (cancel_timer_frame t s) as Hc.
  destruct (cancel_half_close_timer t s) as [t' s']. rewrite drop_permit_frame.
  by destruct (is_fully_closed t'), (commands t').
Qed.
Lemma drop_udp_flow_frame t s : frame_of (drop_udp_flow t s) = frame_of s.
Proof. unfold drop_udp_flow. by rewrite drop_permit_frame. Qed.
Lemma drop_slot_frame slot s : frame_of (drop_slot slot s) = frame_of s.
Proof.
  destruct slot; cbn [drop_slot];
    [apply drop_permit_frame..|apply drop_target_flow_frame|apply drop_udp_flow_frame].
Qed.
Lemma close_client_frame t s : frame_of (close_client_to_target t s).2 = frame_of s.
Proof.
  unfold close_client_to_target, close_client_to_target_queue, try_send.
  destruct (client_to_target_open t); [|done]. destruct (commands _); [|done].
  destruct (negb _); [done|]. by destruct (_ <=? _).
Qed.
Lemma close_slot_frame slot s : frame_of (close_slot slot s) = frame_of s.
Proof.
  destruct slot; cbn [close_slot]; [by rewrite drop_permit_frame..| |by rewrite drop_udp_flow_frame].
  pose proof (close_client_frame (mark_target_to_client_closed t) s) as Hc.
  destruct (close_client_to_target _ s) as [t' s']. by rewrite drop_target_flow_frame.
Qed.
Lemma remove_flow_slot_frame i s :
  frame_of (remove_flow_slot i s) = frame_of (with_table (delete i (table s)) s).
Proof.
  unfold remove_flow_slot. destruct (table s !! i) as [slot|] eqn:Hi.
  - rewrite drop_slot_frame. by destruct slot.
  - rewrite delete_id by done. by destruct s.
Qed.
End Flows.
End Edits.
