(* ===== verification/RelayTotal.v ===== *)
(** * RelayTotal: the handlers of a session do not panic

    Whatever frame the client sends, decoding it and answering it ends in a value
    or an error.  The only panics of the model are the codecs' reads past a buffer
    and the assertion on state transitions, and neither can happen. *)

From S2P Require Import Prelude Wire Varint FrameCodec RustStd TargetCodec RelayPayload Settings FrameIo.
From S2P Require Import Auth Policy Mask Security Budget Dialer RelayState RelayHandlers RelaySession.
From S2P Require Import RelayEdits.

Module Total.
Import Relay Handlers Session Edits.
Import RelayPayload.Flow.
#[local] Open Scope relay_scope.

Create HintDb total.

Definition total {A} (m : M A) : Prop := ∀ s, (m s).1 ≠ Panic.

Section Monad.
Context {P : Platform}.

Lemma total_ret {A} (a : A) : total (ret a).
Proof. done. Qed.
Lemma total_fail {A} e : total (@fail A e).
Proof. done. Qed.
Lemma total_gets {A} (f : Session → A) : total (gets f).
Proof. done. Qed.
Lemma total_modify f : total (modify f).
Proof. done. Qed.
Lemma total_lift {A} (r : ProtocolResult A) : r ≠ Panic → total (lift r).
Proof. intros Hr s. by destruct r. Qed.
Lemma total_of_result {A} (r : result AnyError A) : r ≠ Panic → total (of_result r).
Proof. intros Hr s. by destruct r. Qed.
Lemma total_bind {A B} (m : M A) (k : A → M B) : total m → (∀ a, total (k a)) → total (bind m k).
Proof. intros Hm Hk s. unfold bind. specialize (Hm s). destruct (m s) as [[a|e|] s']; [apply Hk|done..]. Qed.
Lemma total_gets_bind {A B} (f : Session → A) (k : A → M B) : (∀ s, total (k (f s))) → total (bind (gets f) k).
Proof. intros Hk s. apply Hk. Qed.
Lemma total_ignore (m : M unit) : total m → total (ignore_error m).
Proof. intros Hm s. unfold ignore_error. specialize (Hm s). by destruct (m s) as [[]]. Qed.
End Monad.

#[export] Hint Resolve total_ret total_fail total_gets total_modify total_lift total_of_result : total.

Ltac total_step :=
  match goal with
  | |- total (bind _ _) => apply total_bind; [|intros ?]
  | |- total (ignore_error _) => apply total_ignore
  | |- total (if ?b then _ else _) => destruct b
  | |- total (match ?x with _ => _ end) => destruct x
  | |- total _ => solve [eauto with total]
  end.
Ltac total_auto := repeat total_step.

Section Codecs.
Context {P : Platform}.

Lemma frame_new_Panic ft fl i p : Frame.frame_new ft fl i p ≠ Panic.
Proof.
  unfold Frame.frame_new, Frame.header_new. intros H.
  repeat (apply rbind_Panic in H as [H|(? & _ & H)]); try done.
  - by eapply Frame.validate_flags_Panic.
  - by eapply Varint.encoded_len_Panic.
  - by eapply Varint.encoded_len_Panic.
Qed.

Lemma frame_encode_Panic f : Frame.frame_encode f ≠ Panic.
Proof.
  unfold Frame.frame_encode, Frame.frame_encode_into. destruct (negb _); [done|]. intros H.
  apply rbind_Panic in H as [H|(? & _ & H)]; [|done].
  apply rbind_Panic in H as [H|(? & _ & H)]; [by eapply Frame.header_encode_Panic|done].
Qed.

Lemma error_encode_Panic e : Status.error_encode e ≠ Panic.
Proof. apply Varint.encode_Panic. Qed.

Lemma tcp_close_encode_Panic c : RelayPayload.Tcp.close_encode c ≠ Panic.
Proof.
  unfold RelayPayload.Tcp.close_encode, RelayPayload.Tcp.validate_close_code.
  by destruct (is_valid_close_code _).
Qed.

Lemma udp_close_encode_Panic c : RelayPayload.Udp.close_encode c ≠ Panic.
Proof.
  unfold RelayPayload.Udp.close_encode, RelayPayload.Udp.validate_close_code.
  by destruct (is_valid_close_code _).
Qed.

Lemma negotiated_Panic s : Settings.negotiated_v1_0 s ≠ Panic.
Proof.
  unfold Settings.negotiated_v1_0, ok_or, Settings.reject_zero_setting, Settings.reject_boolean_setting,
    Settings.reject_small_setting, Settings.reject_large_setting. intros H.
  repeat (apply rbind_Panic in H as [H|(? & _ & H)] || case_match; try done).
Qed.

Lemma check_open_slot_Panic i m n : check_open_slot i m n ≠ Panic.
Proof. unfold check_open_slot. by repeat case_match. Qed.

Lemma check_udp_open_slot_Panic i m n k : check_udp_open_slot i m n k ≠ Panic.
Proof.
  unfold check_udp_open_slot. intros [H%map_err_Panic|(? & _ & H)]%rbind_Panic.
  - by apply check_open_slot_Panic in H.
  - by destruct (_ && _).
Qed.

Lemma validate_flow_id_Panic i : validate_client_relay_flow_id i ≠ Panic.
Proof. unfold validate_client_relay_flow_id. by repeat case_match. Qed.

Lemma flow_status_Panic ft payload : bytes_ok payload → validate_client_flow_status_payload ft payload ≠ Panic.
Proof.
  intros Hp. unfold validate_client_flow_status_payload. intros [H%map_err_Panic|(? & _ & H)]%rbind_Panic.
  - exact (pl_total _ Hp H).
  - by repeat case_match.
Qed.

Lemma connection_frame_Panic f ft : Frame.validate_connection_frame f ft ≠ Panic.
Proof. unfold Frame.validate_connection_frame. by repeat case_match. Qed.
End Codecs.

#[export] Hint Resolve frame_new_Panic error_encode_Panic tcp_close_encode_Panic udp_close_encode_Panic
  flow_status_Panic : total.

Section Senders.
Context {P : Platform}.

Lemma write_frame_total f : total (write_frame_locked f).
Proof.
  intros s. unfold write_frame_locked. destruct (shutdown (io s)); [done|].
  destruct (Frame.frame_encode f) eqn:Hf; [|done|by apply frame_encode_Panic in Hf].
  simpl. unfold write_outcome_of. by repeat case_match.
Qed.

Lemma write_flow_frame_total f tok : total (write_flow_frame_locked f tok).
Proof.
  intros s. unfold write_flow_frame_locked. destruct (_ || _); [done|].
  destruct (Frame.frame_encode f) eqn:Hf; [|done|by apply frame_encode_Panic in Hf].
  simpl. unfold write_outcome_of. by repeat case_match.
Qed.
#[local] Hint Resolve write_frame_total write_flow_frame_total : total.

Lemma send_status_total ft i c : total (send_status_frame ft i c).
Proof. unfold send_status_frame. total_auto. Qed.
#[local] Hint Resolve send_status_total : total.
Lemma send_error_total i c : total (send_error i c).
Proof. apply send_status_total. Qed.
Lemma send_policy_denied_total i : total (send_policy_denied i).
Proof. apply send_status_total. Qed.
Lemma send_resource_limit_total i : total (send_resource_limit i).
Proof. apply send_status_total. Qed.
Lemma send_tcp_close_total i c : total (send_tcp_close i c).
Proof. unfold send_tcp_close. total_auto. Qed.
Lemma send_udp_close_total i c : total (send_udp_close i c).
Proof. unfold send_udp_close. total_auto. Qed.
Lemma send_tcp_data_total i p tok : total (send_tcp_data i p tok).
Proof. unfold send_tcp_data. total_auto. Qed.
Lemma send_udp_data_total i p tok : total (send_udp_data i p tok).
Proof. unfold send_udp_data. total_auto. Qed.
Lemma write_pong_total f : total (write_pong f).
Proof. unfold write_pong. total_auto. Qed.
End Senders.

#[export] Hint Resolve write_frame_total write_flow_frame_total send_error_total send_policy_denied_total
  send_resource_limit_total send_tcp_close_total send_udp_close_total send_tcp_data_total send_udp_data_total
  write_pong_total : total.
#[export] Hint Extern 1 (total (λ _, _)) => (intros ?; simpl; repeat case_match; done) : total.

Section Handlers.
Context {P : Platform}.

Lemma next_token_total : total next_token_m.
Proof. done. Qed.
Lemma acquire_total : total acquire_flow_permit.
Proof. intros s. unfold acquire_flow_permit. by case_match. Qed.
#[local] Hint Resolve next_token_total acquire_total : total.

Lemma reject_client_total i r e : total (reject_invalid_client_relay_flow_id i r e).
Proof. unfold reject_invalid_client_relay_flow_id. total_auto. Qed.
Lemma reject_udp_total i r e : total (reject_invalid_udp_relay_flow_id i r e).
Proof. unfold reject_invalid_udp_relay_flow_id. total_auto. Qed.
Lemma reject_open_total i e : total (reject_open_failure i e).
Proof. unfold reject_open_failure. total_auto. Qed.
Lemma reject_udp_open_total i e : total (reject_udp_open_failure i e).
Proof. unfold reject_udp_open_failure. total_auto. Qed.
Lemma begin_open_total p i t pol : total (begin_open p i t pol).
Proof. unfold begin_open, spawn_open. total_auto. Qed.
#[local] Hint Resolve reject_client_total reject_udp_total reject_open_total reject_udp_open_total begin_open_total : total.

Lemma validate_tcp_open_total f : bytes_ok (Frame.payload f) → total (validate_tcp_open_request f).
Proof.
  intros Hp. unfold validate_tcp_open_request. cbv zeta.
  destruct (RelayPayload.Tcp.open_decode (Frame.payload f)) eqn:Hd; [| |by apply pl_total in Hd]; total_auto.
Qed.
Lemma validate_udp_open_total f : bytes_ok (Frame.payload f) → total (validate_udp_open_request f).
Proof.
  intros Hp. unfold validate_udp_open_request. cbv zeta.
  destruct (RelayPayload.Udp.open_decode (Frame.payload f)) eqn:Hd; [| |by apply pl_total in Hd]; total_auto.
Qed.
#[local] Hint Resolve validate_tcp_open_total validate_udp_open_total : total.

Lemma handle_tcp_open_total f : bytes_ok (Frame.payload f) → total (handle_tcp_open_frame f).
Proof.
  intros Hp. unfold handle_tcp_open_frame. cbv zeta. apply total_bind; [done|]. intros _.
  apply total_gets_bind. intros s.
  destruct (check_open_slot _ _ _) eqn:Hc; [| |by apply check_open_slot_Panic in Hc]; total_auto.
Qed.
Lemma handle_udp_open_total f : bytes_ok (Frame.payload f) → total (handle_udp_open_frame f).
Proof.
  intros Hp. unfold handle_udp_open_frame. cbv zeta. apply total_bind; [done|]. intros _.
  apply total_gets_bind. intros s.
  destruct (check_udp_open_slot _ _ _ _) eqn:Hc; [| |by apply check_udp_open_slot_Panic in Hc]; total_auto.
Qed.

Lemma forward_tcp_total i p : total (forward_tcp_data_frame i p).
Proof. unfold forward_tcp_data_frame. total_auto. Qed.
Lemma forward_udp_total i p : total (forward_udp_data_frame i p).
Proof. unfold forward_udp_data_frame, udp_try_send. total_auto. Qed.
Lemma forward_datagram_total i p : total (forward_udp_datagram i p).
Proof. unfold forward_udp_datagram, udp_try_send. total_auto. Qed.
#[local] Hint Resolve forward_tcp_total forward_udp_total forward_datagram_total : total.

Lemma handle_tcp_data_total f : total (handle_tcp_data_frame f).
Proof.
  unfold handle_tcp_data_frame. cbv zeta.
  destruct (validate_client_relay_flow_id _) eqn:Hv; [| |by apply validate_flow_id_Panic in Hv]; total_auto.
Qed.
Lemma handle_udp_data_total f : total (handle_udp_data_frame f).
Proof.
  unfold handle_udp_data_frame. cbv zeta.
  destruct (validate_client_relay_flow_id _) eqn:Hv; [| |by apply validate_flow_id_Panic in Hv]; total_auto.
Qed.
Lemma handle_tcp_close_total f : bytes_ok (Frame.payload f) → total (handle_tcp_close_frame f).
Proof.
  intros Hp. unfold handle_tcp_close_frame. cbv zeta.
  destruct (validate_client_relay_flow_id _) eqn:Hv; [| |by apply validate_flow_id_Panic in Hv]; [|total_auto].
  destruct (RelayPayload.Tcp.close_decode _) eqn:Hd; [| |by apply pl_total in Hd]; total_auto.
Qed.
Lemma handle_udp_close_total f : bytes_ok (Frame.payload f) → total (handle_udp_close_frame f).
Proof.
  intros Hp. unfold handle_udp_close_frame. cbv zeta.
  destruct (validate_client_relay_flow_id _) eqn:Hv; [| |by apply validate_flow_id_Panic in Hv]; [|total_auto].
  destruct (RelayPayload.Udp.close_decode _) eqn:Hd; [| |by apply pl_total in Hd]; total_auto.
Qed.
Lemma handle_flow_status_total f : bytes_ok (Frame.payload f) → total (handle_client_flow_status_frame f).
Proof.
  intros Hp. unfold handle_client_flow_status_frame. cbv zeta. destruct (_ && _); [total_auto|].
  destruct (validate_client_relay_flow_id _) eqn:Hv; [| |by apply validate_flow_id_Panic in Hv]; [|total_auto].
  destruct (validate_client_flow_status_payload _ _) eqn:Hd; [| |by apply flow_status_Panic in Hd]; total_auto.
Qed.

Lemma validate_control_total f ft : total (validate_or_report_session_control_frame f ft).
Proof.
  unfold validate_or_report_session_control_frame.
  destruct (Frame.validate_connection_frame _ _) eqn:Hv; [| |by apply connection_frame_Panic in Hv]; total_auto.
Qed.
#[local] Hint Resolve handle_tcp_open_total handle_udp_open_total handle_tcp_data_total handle_udp_data_total
  handle_tcp_close_total handle_udp_close_total handle_flow_status_total validate_control_total : total.

Lemma handle_settings_total f :
  bytes_ok (Frame.payload f) → zlen (Frame.payload f) ≤ USIZE_MAX → total (handle_settings_frame f).
Proof.
  intros Hp Hl. unfold handle_settings_frame.
  destruct (Settings.decode (Frame.payload f)) as [settings| |] eqn:Hd;
    [|total_auto|by apply (Settings.settings_decode_iff _ Settings.Settings_default Hp Hl) in Hd].
  destruct (Settings.negotiated_v1_0 settings) eqn:Hn; [| |by apply negotiated_Panic in Hn]; total_auto.
Qed.
#[local] Hint Resolve handle_settings_total : total.

Lemma handle_session_frame_total f :
  bytes_ok (Frame.payload f) → zlen (Frame.payload f) ≤ USIZE_MAX → total (handle_session_frame f).
Proof. intros Hp Hl. unfold handle_session_frame, reject_unexpected_session_frame. cbv zeta. total_auto. Qed.

Lemma accept_open_total i addr p : total (accept_open_target i addr p).
Proof. unfold accept_open_target. total_auto. Qed.
Lemma accept_udp_total i addr p : total (accept_open_udp_target i addr p).
Proof. unfold accept_open_udp_target. total_auto. Qed.
Lemma half_close_total i tok side : total (handle_half_close_drain_expired i tok side).
Proof. unfold handle_half_close_drain_expired. total_auto. Qed.
#[local] Hint Resolve accept_open_total accept_udp_total half_close_total : total.

Lemma handle_flow_event_total s e : dial_ok s e → total (handle_flow_event e).
Proof.
  intros Hd. destruct e; simpl in *;
    unfold handle_tcp_open_completed, handle_udp_open_completed; total_auto.
Qed.

Lemma close_udp_flows_total visit : total (close_udp_flows visit).
Proof. induction visit; simpl; total_auto. Qed.
#[local] Hint Resolve close_udp_flows_total : total.
Lemma close_idle_total visit : total (close_idle_udp_flows visit).
Proof. unfold close_idle_udp_flows. total_auto. Qed.

(** The step of the loop that an event gives does not carry a panic, provided the
    dials reported did not panic and a frame carries bytes. *)
Definition event_sound (s : Session) (ev : SessionEvent) : Prop :=
  match ev with
  | FlowEv e => dial_ok s e
  | FrameEv f => bytes_ok (Frame.payload f) ∧ zlen (Frame.payload f) ≤ USIZE_MAX
  | _ => True
  end.

Lemma continue_with_total counts r : r.1 ≠ Panic → (continue_with counts r).1 ≠ Stop Panic.
Proof. by destruct r as [[]]. Qed.

Lemma handle_session_event_total ev s : event_sound s ev → (handle_session_event ev s).1 ≠ Stop Panic.
Proof.
  intros Hev. destruct ev as [e|f| | | |visit| | | |]; simpl in *; try done.
  - by eapply continue_with_total, handle_flow_event_total.
  - destruct Hev. by apply continue_with_total, handle_session_frame_total.
  - apply continue_with_total, close_idle_total.
  - unfold transition. case_bool_decide as Hs; [rewrite Hs|]; simpl; by case_match.
Qed.
End Handlers.
End Total.
