(* ===== verification/RelaySim.v ===== *)
(** * RelaySim: the session is a sequence of edits

    Every frame handler, event handler and task step, and the teardown, runs as a
    sequence of the edits of RelayEdits.  The conditions a handler needs on the
    state it starts in are hypotheses here; RelayInv shows that they hold in every
    reachable state. *)

From S2P Require Import Prelude Wire Varint FrameCodec RustStd TargetCodec RelayPayload Settings FrameIo.
From S2P Require Import Auth Policy Mask Security Budget Dialer RelayState RelayHandlers RelaySession.
From S2P Require Import RelayEdits.

Module Sim.
Import Relay Handlers Session Edits.
Import RelayPayload.Flow.
#[local] Open Scope relay_scope.

(** The fields a quiet step leaves alone. *)
Ltac quiet_fields H :=
  let Hc := fresh in pose proof H as [Hc _]; unfold core in Hc;
  injection Hc as ? ? ? ? ? ? ? ? ? ?.

Lemma quiet_counts {P : Platform} s s' : quiet s s' → counts s' = counts s.
Proof. intros Hq. by quiet_fields Hq. Qed.
Lemma quiet_tasks {P : Platform} s s' : quiet s s' → tasks s' = tasks s.
Proof. intros Hq. by quiet_fields Hq. Qed.

Ltac run_auto :=
  match goal with |- rtc edit ?s (snd (?m ?s)) => refine ((_ : keeps edits m) s); keeps_auto end.

Section Opens.
Context {P : Platform}.

Lemma runs_bind {A B} (m : M A) (k : A → M B) s :
  edits s (m s).2 → (∀ a s', m s = (Ok a, s') → edits s' (k a s').2) → edits s (bind m k s).2.
Proof. unfold bind. intros Hm Hk. destruct (m s) as [[a|e|] s']; [|done..]. etrans; [exact Hm|by apply Hk]. Qed.

Lemma runs_quiet_bind {A B} (m : M A) (k : A → M B) s :
  keeps quiet m → (∀ a s', quiet s s' → m s = (Ok a, s') → edits s' (k a s').2) → edits s (bind m k s).2.
Proof.
  intros Hm Hk. specialize (Hm s). apply runs_bind; [by apply quiet_edits|].
  intros a s' Hms. apply Hk; [by rewrite Hms in Hm|done].
Qed.

Lemma runs_gets {A B} (f : Session → A) (k : A → M B) s :
  edits s (k (f s) s).2 → edits s (bind (gets f) k s).2.
Proof. done. Qed.

(** ** Opening *)

Lemma check_open_slot_Ok id m max :
  is_client_initiated_flow_id id = true → check_open_slot id m max = Ok tt →
  m !! id = None ∧ table_len m < max.
Proof.
  intros Hc. unfold check_open_slot. rewrite Hc. simpl. case_bool_decide as Hi; [done|].
  destruct (Z.leb_spec max (table_len m)); [done|]. split; [|done]. by apply eq_None_not_Some.
Qed.

Lemma check_udp_open_slot_Ok i m max maxu :
  is_client_initiated_flow_id i = true → check_udp_open_slot i m max maxu = Ok tt →
  m !! i = None ∧ table_len m < max ∧ udp_flow_count m < maxu.
Proof.
  intros Hc. unfold check_udp_open_slot. destruct (check_open_slot i m max) as [[]| |] eqn:Hs; [|done..].
  cbn. rewrite Hc. simpl. destruct (Z.leb_spec (default USIZE_MAX (usize_try_from maxu)) (udp_flow_count m)); [done|].
  destruct (check_open_slot_Ok i m max Hc Hs) as [? ?]. intros _. split_and!; [done|done|].
  unfold usize_try_from in *. destruct (decide (maxu ≤ USIZE_MAX)) eqn:?; simpl in *; unfold id in *; lia.
Qed.

Lemma bind_None {A B} (m : M A) (k : A → M (option B)) s x s' :
  (∀ a s1 s2, k a s1 ≠ (Ok (Some x), s2)) → bind m k s ≠ (Ok (Some x), s').
Proof. unfold bind. intros Hk. destruct (m s) as [[a|e|] s1]; [apply Hk|done..]. Qed.

Lemma validate_tcp_open_Some f s i target s' :
  validate_tcp_open_request f s = (Ok (Some (i, target)), s') →
  i = Frame.id (Frame.header f) ∧ is_client_initiated_flow_id i = true ∧
  ∃ open, RelayPayload.Tcp.open_decode (Frame.payload f) = Ok open ∧ RelayPayload.Tcp.target open = target.
Proof.
  unfold validate_tcp_open_request. cbv zeta. destruct (_ =? 0).
  { intros []%bind_None. intros ? ? ?. by apply bind_None. }
  destruct (is_client_initiated_flow_id _) eqn:Hc; cbn [negb].
  2:{ intros []%bind_None. intros ? ? ?. apply bind_None. intros ? ? ?. by apply bind_None. }
  destruct (RelayPayload.Tcp.open_decode _) as [open|e|].
  - destruct (negb _); [intros []%bind_None; intros ? ? ?; apply bind_None; intros ? ? ?; by apply bind_None|].
    intros [= <- <- <-]. eauto.
  - intros []%bind_None. intros ? ? ?. apply bind_None. intros ? ? ?. by apply bind_None.
  - done.
Qed.

Lemma validate_udp_open_Some f s i target s' :
  validate_udp_open_request f s = (Ok (Some (i, target)), s') →
  i = Frame.id (Frame.header f) ∧ is_client_initiated_flow_id i = true ∧
  ∃ open, RelayPayload.Udp.open_decode (Frame.payload f) = Ok open ∧ RelayPayload.Udp.target open = target.
Proof.
  unfold validate_udp_open_request. cbv zeta. destruct (_ =? 0).
  { intros []%bind_None. intros ? ? ?. by apply bind_None. }
  destruct (is_client_initiated_flow_id _) eqn:Hc; cbn [negb].
  2:{ intros []%bind_None. intros ? ? ?. apply bind_None. intros ? ? ?. by apply bind_None. }
  destruct (RelayPayload.Udp.open_decode _) as [open|e|].
  - intros [= <- <- <-]. eauto.
  - intros []%bind_None. intros ? ? ?. apply bind_None. intros ? ? ?. by apply bind_None.
  - done.
Qed.

Lemma acquire_cases s :
  (∃ n, Budget.try_acquire (global_flows (counts s)) (global_flow_limit (cfg s)) = Some n ∧
        acquire_flow_permit s = (Ok true, with_counts (set_global_flows n (counts s)) s)) ∨
  (Budget.try_acquire (global_flows (counts s)) (global_flow_limit (cfg s)) = None ∧
   acquire_flow_permit s = (Ok false, s)).
Proof. unfold acquire_flow_permit. destruct (Budget.try_acquire _ _); eauto. Qed.

(** The last part of both open handlers. *)
Lemma admit_open_edits p i target policy (refused : M unit) s :
  tokens_left s → slot_free p i s → state s ≠ Draining → keeps edits refused →
  edits s ((let! acquired := acquire_flow_permit in
            if negb acquired then refused else begin_open p i target policy) s).2.
Proof.
  intros Htk Hf Hd Hr. unfold bind. destruct (acquire_cases s) as [(n & _ & Ha)|[_ Ha]]; rewrite Ha.
  - apply rtc_once. cbn [negb]. by apply (edit_open s p i target policy).
  - apply Hr.
Qed.

Lemma handle_tcp_open_edits f s :
  tokens_left s → state s ≠ Draining → edits s (handle_tcp_open_frame f s).2.
Proof.
  intros Htk Hd. unfold handle_tcp_open_frame. apply runs_quiet_bind; [by keeps_auto|]. intros _ s1 Hq1 _.
  apply runs_gets. destruct (check_open_slot _ _ _) as [[]|[]|] eqn:Hslot; [|run_auto..].
  apply runs_quiet_bind; [by keeps_auto|]. intros [[i target]|] s2 Hq2 Hv; [|done].
  apply validate_tcp_open_Some in Hv as (-> & Hc & _).
  apply (check_open_slot_Ok _ _ _ Hc) in Hslot as [Hn Hl]. quiet_fields Hq1. quiet_fields Hq2.
  apply runs_gets. destruct (Security.policy_snapshot _ _ _) as [policy|]; [|run_auto].
  apply admit_open_edits; [unfold tokens_left in *; congruence|split_and!; [done|congruence|congruence|done]|congruence|by keeps_auto].
Qed.

Lemma handle_udp_open_edits f s :
  tokens_left s → state s ≠ Draining → edits s (handle_udp_open_frame f s).2.
Proof.
  intros Htk Hd. unfold handle_udp_open_frame. apply runs_quiet_bind; [by keeps_auto|]. intros _ s1 Hq1 _.
  apply runs_gets. destruct (check_udp_open_slot _ _ _ _) as [[]|[]|] eqn:Hslot; [|run_auto..].
  apply runs_quiet_bind; [by keeps_auto|]. intros [[i target]|] s2 Hq2 Hv; [|done].
  apply validate_udp_open_Some in Hv as (-> & Hc & _).
  apply (check_udp_open_slot_Ok _ _ _ _ Hc) in Hslot as (Hn & Hl & Hu). quiet_fields Hq1. quiet_fields Hq2.
  apply runs_gets. destruct (Security.policy_snapshot _ _ _) as [policy|]; [|run_auto].
  apply admit_open_edits; [unfold tokens_left in *; congruence|split_and!; [done|congruence|congruence|]|congruence|by keeps_auto].
  intros _. congruence.
Qed.

Lemma handle_tcp_open_completed_edits i tok target r s :
  tokens_left s → dial_ok s (OpenCompleted i tok target r) → edits s (handle_tcp_open_completed i tok r s).2.
Proof.
  intros Htk Hd. unfold handle_tcp_open_completed. apply runs_gets.
  destruct (table s !! i) as [[c| | |]|] eqn:Hi; [|done..].
  destruct (Z.eqb_spec (open_token c) tok) as [<-|]; cbn [negb]; [|done].
  destruct r as [addr|e|]; [|run_auto..]. simpl in Hd.
  unfold accept_open_target, bind at 1, bind at 1, gets at 1. unfold bind at 1, next_token_m at 1.
  cbn [next_flow_token]. unfold bind at 1, modify at 1.
  change (put_control _ _ _) with (fresh_control s). unfold bind at 1.
  pose proof (send_tcp_data_quiet i [] (next_token (counts s)) (fresh_control s)) as Hq.
  destruct (send_tcp_data i [] (next_token (counts s)) (fresh_control s)) as [[[]|e|] s2]; cbn [snd] in Hq |- *;
    [|eapply rtc_r; [by apply rtc_once, edit_fresh|by apply edit_quiet]..].
  apply rtc_once. refine (edit_accept_tcp s i c addr _ (record (FlowBegun TcpProto) s2) Htk Hi Hd _).
  etrans; [exact Hq|apply record_quiet].
Qed.

Lemma handle_udp_open_completed_edits i tok target r s :
  tokens_left s → dial_ok s (UdpOpenCompleted i tok target r) → edits s (handle_udp_open_completed i tok r s).2.
Proof.
  intros Htk Hd. unfold handle_udp_open_completed. apply runs_gets.
  destruct (table s !! i) as [[|c| |]|] eqn:Hi; [done| |done..].
  destruct (Z.eqb_spec (open_token c) tok) as [<-|]; cbn [negb]; [|done].
  destruct r as [addr|e|]; [|run_auto..]. simpl in Hd.
  unfold accept_open_udp_target, bind at 1, bind at 1, next_token_m at 1.
  cbn [next_flow_token]. unfold bind at 1, modify at 1.
  change (put_control _ _ _) with (fresh_control s). unfold bind at 1.
  pose proof (send_udp_data_quiet i [] (next_token (counts s)) (fresh_control s)) as Hq.
  destruct (send_udp_data i [] (next_token (counts s)) (fresh_control s)) as [[[]|e|] s2]; cbn [snd] in Hq |- *;
    [|eapply rtc_r; [by apply rtc_once, edit_fresh|by apply edit_quiet]..].
  apply rtc_once. refine (edit_accept_udp s i c addr _ (record (FlowBegun UdpProto) s2) Htk Hi Hd _).
  etrans; [exact Hq|apply record_quiet].
Qed.
End Opens.

Section Budgets.
Context {P : Platform}.

(** ** Reservations *)

Definition counters_ok (s : Session) (tok : Z) : Prop :=
  0 ≤ buffered_bytes (control_of s tok) ∧ 0 ≤ session_bytes (counts s) ∧ 0 ≤ global_bytes (counts s).

Lemma counters_of_put tok b s : counters_of (put_counters tok b s) tok = b.
Proof.
  unfold counters_of, put_counters. simpl.
  change (control_of (with_counts _ ?x) tok) with (control_of x tok).
  rewrite control_of_put_eq. by destruct b.
Qed.

Lemma put_counters_put tok b c s : put_counters tok c (put_counters tok b s) = put_counters tok c s.
Proof.
  unfold put_counters. change (control_of (with_counts _ ?x) tok) with (control_of x tok).
  rewrite control_of_put_eq. unfold put_control, with_heap, with_counts. simpl.
  by rewrite insert_insert_eq.
Qed.

Lemma control_of_put_counters tok b s tok' :
  control_of (put_counters tok b s) tok' =
    if decide (tok = tok')
    then {| buffered_bytes := Budget.flow_bytes b; closed := closed (control_of s tok);
            aborted := aborted (control_of s tok) |}
    else control_of s tok'.
Proof. exact (control_of_put tok _ s tok'). Qed.

Lemma put_counters_quiet tok s : quiet s (put_counters tok (counters_of s tok) s).
Proof.
  unfold put_counters, counters_of. cbn [Budget.session_bytes Budget.global_bytes Budget.flow_bytes].
  split; [by destruct s as [? ? ? ? ? ? ? ? []]|].
  split_and!; try done; intros tok'; change (control_of (with_counts _ ?x) tok') with (control_of x tok');
    rewrite control_of_put; case_decide; subst; done.
Qed.

(** A reservation that is given back leaves nothing. *)
Lemma undo_reservation tok payload b s fl sl gl :
  counters_ok s tok → Budget.control_reserve (counters_of s tok) (zlen payload) fl sl gl = (true, b) →
  quiet s (drop_data tok payload (put_counters tok b s)).
Proof.
  intros (Hf & Hs & Hg) Hr.
  pose proof (Budget.control_reserve_cases (counters_of s tok) (zlen payload) fl sl gl Hf Hs Hg) as Hc.
  rewrite Hr in Hc. destruct Hc as [-> _]. unfold drop_data. rewrite counters_of_put, put_counters_put.
  replace (Budget.control_release _ _) with (counters_of s tok); [apply put_counters_quiet|].
  unfold Budget.control_release, Budget.release_bytes, counters_of. simpl. f_equal; lia.
Qed.

Lemma close_queue_counters t b s :
  close_client_to_target_queue t (put_counters (token t) b s) =
    ((close_client_to_target_queue t s).1, put_counters (token t) b (close_client_to_target_queue t s).2).
Proof.
  assert (control_close (token t) (put_counters (token t) b s) =
          put_counters (token t) b (control_close (token t) s)) as Hc.
  { unfold control_close, put_counters. change (control_of (with_counts _ ?x) ?k) with (control_of x k).
    rewrite !control_of_put_eq. unfold put_control, with_heap, with_counts. simpl.
    by rewrite !insert_insert_eq. }
  unfold close_client_to_target_queue. rewrite Hc. destruct (commands t); [|done]. unfold try_send.
  change (channel_of (put_counters _ _ ?x) ?k) with (channel_of x k).
  destruct (negb _); [done|]. by destruct (_ <=? _).
Qed.

Lemma close_queue_counts t s :
  counts (close_client_to_target_queue t s).2 = counts s ∧
  counters_of (close_client_to_target_queue t s).2 (token t) = counters_of s (token t).
Proof.
  assert (counters_of (control_close (token t) s) (token t) = counters_of s (token t)) as Hc.
  { unfold counters_of, control_close. by rewrite control_of_put_eq. }
  unfold close_client_to_target_queue. destruct (commands t); [|done]. unfold try_send.
  destruct (negb _); [done|]. by destruct (_ <=? _).
Qed.

Lemma enqueue_carries payload t s :
  counters_ok s (token t) →
  let '(r, t', s') := enqueue_data payload (max_buffered_bytes_per_flow (limits (cfg s)))
                        (max_buffered_bytes_per_session (limits (cfg s))) t s in
  carries (t, s) (t', s').
Proof.
  intros Hok. pose proof Hok as (Hf & Hs & Hg). unfold enqueue_data, buffer_data.
  destruct (is_closed s (token t)) eqn:Hcl; [done|].
  pose proof (Budget.control_reserve_cases (counters_of s (token t)) (zlen payload)
    (max_buffered_bytes_per_flow (limits (cfg s))) (max_buffered_bytes_per_session (limits (cfg s)))
    (global_buffer_limit (cfg s)) Hf Hs Hg) as Hc.
  destruct (Budget.control_reserve _ _ _ _ _) as [[] b] eqn:Hr; cbn [negb].
  2:{ subst b. pose proof (close_queue_carries t (put_counters (token t) (counters_of s (token t)) s)) as Hq.
      destruct (close_client_to_target_queue _ _) as [t' s'].
      etrans; [apply quiet_carries, put_counters_quiet|exact Hq]. }
  destruct (commands t); cbn [negb]; [|by apply quiet_carries; eapply undo_reservation].
  pose proof (try_send_spec (token t) (Data payload) (put_counters (token t) b s)) as Ht.
  destruct (try_send _ _ _) as [[] s1].
  - destruct Ht as [Hrc ->]. split_and!; [|done|done| |done|by left].
    + apply rtc_once. by apply edit_enqueue.
    + intros tok'. unfold is_aborted, push_command. cbn [fst snd].
      change (control_of (put_channel _ _ ?x) ?k) with (control_of x k). rewrite control_of_put_counters.
      case_decide; subst; done.
  - subst s1. by apply quiet_carries; eapply undo_reservation.
  - subst s1. rewrite close_queue_counters. pose proof (close_queue_carries t s) as Hq.
    destruct (close_client_to_target_queue t s) as [t' s'] eqn:Hcq. cbn [fst snd].
    etrans; [exact Hq|]. apply quiet_carries.
    destruct (close_queue_counts t s) as [Hn He]. rewrite Hcq in Hn, He. simpl in Hn, He.
    pose proof Hq as (_ & (Htk & _) & _). simpl in Htk. rewrite Htk.
    eapply (undo_reservation (token t) payload b s'); [|by rewrite He].
    unfold counters_ok. rewrite Hn. split; [|done]. by injection He as ->.
Qed.
End Budgets.

Section Handlers.
Context {P : Platform}.

(** ** TCP *)

Lemma open_target_flow_Some s i t : open_target_flow s i = Some t → table s !! i = Some (Tcp t).
Proof. unfold open_target_flow. by destruct (table s !! i) as [[]|]; intros [= ->]. Qed.
Lemma udp_target_flow_Some s i t : udp_target_flow s i = Some t → table s !! i = Some (Udp t).
Proof. unfold udp_target_flow. by destruct (table s !! i) as [[]|]; intros [= ->]. Qed.

Lemma carries_put i t t' s s' :
  table s !! i = Some (Tcp t) → carries (t, s) (t', s') → edits s (put_slot i (Tcp t') s').
Proof. intros Hi Hc. eapply carry_put; [done| |exact Hc|by left]. by split_and!. Qed.

Lemma then_remove i s s' : edits s s' → edits s (remove_flow_slot i s').
Proof. intros He. eapply rtc_r; [exact He|apply edit_remove]. Qed.

Lemma handle_target_read_closed_edits i tok s :
  tok ∉ readers s → edits s (handle_target_read_closed i tok s).
Proof.
  intros Hr. unfold handle_target_read_closed.
  destruct (open_target_flow s i) as [t|] eqn:Hi; [|done]. apply open_target_flow_Some in Hi.
  destruct (Z.eqb_spec (token t) tok) as [<-|]; cbn [negb]; [|done].
  destruct (is_aborted s (token t)) eqn:Ha.
  - destruct (flow_abort_carries t s) as [Hc _]. destruct (flow_abort t s) as [t' s'].
    apply then_remove. by eapply carries_put.
  - set (t1 := mark_target_to_client_closed t). assert (same_flow t t1) as Hf by by split_and!.
    pose proof (start_drain_timer_carries i TargetToClient t1 s) as Hd.
    destruct (if client_to_target_open t1 then _ else _) as [t2 s2] eqn:H2.
    assert (carries (t1, s) (t2, s2)) as Hc.
    { destruct (client_to_target_open t1); [by rewrite <-H2|by injection H2 as <- <-]. }
    destruct (is_removable t2).
    + pose proof (cancel_timer_carries t2 s2) as H3. destruct (cancel_half_close_timer t2 s2) as [t3 s3].
      apply then_remove. eapply (carry_put i t t1); [done|done|by etrans|auto].
    + eapply (carry_put i t t1); [done|done|done|auto].
Qed.

Lemma mark_write_closed_carries t s : carries (t, s) (mark_target_write_closed t s).
Proof.
  etrans; [apply (sides_carries t s false false)|]. apply quiet_carries. apply control_close_quiet.
Qed.
Lemma mark_client_closed_carries t s : carries (t, s) (mark_client_to_target_closed t s).
Proof.
  etrans; [apply (sides_carries t s false (target_write_open t))|]. apply quiet_carries. apply control_close_quiet.
Qed.

Lemma handle_target_write_closed_edits i tok s : edits s (handle_target_write_closed i tok s).
Proof.
  unfold handle_target_write_closed. destruct (open_target_flow s i) as [t|] eqn:Hi; [|done].
  apply open_target_flow_Some in Hi. destruct (negb _); [done|].
  pose proof (mark_write_closed_carries t s) as H1. destruct (mark_target_write_closed t s) as [t1 s1].
  destruct (flow_abort_carries t1 s1) as [Hab _].
  destruct (if is_aborted s1 (token t1) then _ else _) as [t2 s2] eqn:H2.
  assert (carries (t, s) (t2, s2)) as Hc.
  { etrans; [exact H1|]. destruct (is_aborted s1 _); [by rewrite <-H2|by injection H2 as <- <-]. }
  destruct (is_removable t2); [|by eapply carries_put].
  pose proof (cancel_timer_carries t2 s2) as H3. destruct (cancel_half_close_timer t2 s2) as [t3 s3].
  apply then_remove. eapply carries_put; [done|by etrans].
Qed.

Lemma expire_half_close_edits i tok side s : edits s (expire_half_close_drain i tok side s).2.
Proof.
  unfold expire_half_close_drain. destruct (open_target_flow s i) as [t|] eqn:Hi; [|done].
  apply open_target_flow_Some in Hi. destruct (negb _); [done|].
  destruct (flow_abort_carries t s) as [Hc _].
  destruct side; (destruct (_ && _); [|done]); destruct (flow_abort t s) as [t' s'];
    by eapply carries_put.
Qed.

Lemma handle_half_close_expired_edits i tok side : keeps edits (handle_half_close_drain_expired i tok side).
Proof.
  unfold handle_half_close_drain_expired. apply keeps_bind; [apply _| |].
  - intros s. pose proof (expire_half_close_edits i tok side s) as He.
    by destruct (expire_half_close_drain i tok side s).
  - intros []; keeps_auto.
Qed.

Lemma forward_tcp_data_edits i payload s :
  (∀ tok, counters_ok s tok) → edits s (forward_tcp_data_frame i payload s).2.
Proof.
  intros Hok. unfold forward_tcp_data_frame. apply runs_gets.
  destruct (open_target_flow s i) as [t|] eqn:Hi; [|run_auto]. apply open_target_flow_Some in Hi.
  apply runs_bind.
  - cbv zeta. pose proof (enqueue_carries payload t s (Hok _)) as Hc.
    destruct (enqueue_data payload _ _ t s) as [[r t1] s1].
    destruct r as [[]|[]|]; [by eapply carries_put| | |by eapply carries_put].
    + pose proof (mark_client_closed_carries t1 s1) as H2. destruct (mark_client_to_target_closed t1 s1).
      eapply carries_put; [done|by etrans].
    + destruct (flow_abort_carries t1 s1) as [H2 _]. destruct (flow_abort t1 s1).
      eapply carries_put; [done|by etrans].
  - intros [rm lim] s' _. run_auto.
Qed.

Lemma handle_tcp_data_edits f s :
  (∀ tok, counters_ok s tok) → edits s (handle_tcp_data_frame f s).2.
Proof.
  intros Hok. unfold handle_tcp_data_frame. destruct (validate_client_relay_flow_id _) as [[]|r|]; [|run_auto..].
  apply runs_gets. destruct (tcp_data_disposition _ _ _); [run_auto..|]. by apply forward_tcp_data_edits.
Qed.

Lemma tcp_close_slot_edits i code s : edits s (tcp_close_slot i code s).2.
Proof.
  unfold tcp_close_slot. destruct (table s !! i) as [[| |t|]|] eqn:Hi; try done.
  destruct (code =? TCP_NORMAL).
  - pose proof (close_client_carries t s) as H1. destruct (close_client_to_target t s) as [t1 s1].
    destruct (target_to_client_open t1).
    + pose proof (start_drain_timer_carries i ClientToTarget t1 s1) as H2.
      destruct (should_start_half_close_drain t); [destruct (start_drain_timer i ClientToTarget t1 s1)|];
        eapply carries_put; try done; by etrans.
    + pose proof (cancel_timer_carries t1 s1) as H2. destruct (cancel_half_close_timer t1 s1).
      eapply carries_put; [done|by etrans].
  - destruct (flow_abort_carries t s) as [H1 _]. destruct (flow_abort t s). by eapply carries_put.
Qed.

Lemma handle_tcp_close_edits f : keeps edits (handle_tcp_close_frame f).
Proof.
  unfold handle_tcp_close_frame. cbv zeta.
  destruct (validate_client_relay_flow_id _) as [[]|r|]; [|keeps_auto..].
  destruct (RelayPayload.Tcp.close_decode _) as [c|e|]; [|keeps_auto..].
  apply keeps_bind; [apply _| |intros [[] []]; keeps_auto].
  intros s. pose proof (tcp_close_slot_edits (Frame.id (Frame.header f)) (RelayPayload.Tcp.close_code c) s) as He.
  by destruct (tcp_close_slot _ _ s) as [[]].
Qed.

Lemma abort_client_flow_edits i s : edits s (abort_client_flow i s).
Proof.
  unfold abort_client_flow. destruct (table s !! i) as [[| |t|t]|] eqn:Hi; try done; [by auto with relay..| |].
  - destruct (flow_abort_carries t s) as [Hc _]. destruct (flow_abort t s).
    apply then_remove. by eapply carries_put.
  - apply then_remove. apply quiet_edits, control_abort_quiet.
Qed.

Lemma handle_status_edits f : keeps edits (handle_client_flow_status_frame f).
Proof.
  unfold handle_client_flow_status_frame. cbv zeta. destruct (_ && _); [keeps_auto|].
  destruct (validate_client_relay_flow_id _) as [[]|r|]; [|keeps_auto..].
  destruct (validate_client_flow_status_payload _ _) as [[]|e|]; [|keeps_auto..].
  apply keeps_modify. apply abort_client_flow_edits.
Qed.

(** ** UDP *)

Lemma record_activity_edits i t s : table s !! i = Some (Udp t) → edits s (record_activity i t s).
Proof. intros Hi. by apply rtc_once, edit_udp. Qed.

Lemma udp_try_send_edits i t s : table s !! i = Some (Udp t) → edits s (udp_try_send i t s).2.
Proof.
  intros Hi. unfold udp_try_send. set (s1 := record_activity i t s). cbn [take_udp_outcome].
  etrans; [by apply record_activity_edits|]. apply quiet_edits. by destruct (hd _ _).
Qed.

Lemma forward_udp_data_edits i payload s : edits s (forward_udp_data_frame i payload s).2.
Proof.
  unfold forward_udp_data_frame. apply runs_gets.
  destruct (udp_target_flow s i) as [t|] eqn:Hi; [|run_auto]. apply udp_target_flow_Some in Hi.
  apply runs_bind; [by apply udp_try_send_edits|]. intros [] s' _; run_auto.
Qed.

Lemma forward_udp_datagram_edits i payload s : edits s (forward_udp_datagram i payload s).2.
Proof.
  unfold forward_udp_datagram. apply runs_gets.
  destruct (udp_target_flow s i) as [t|] eqn:Hi; [|done]. apply udp_target_flow_Some in Hi.
  apply runs_bind; [by apply udp_try_send_edits|done].
Qed.

Lemma handle_udp_data_edits f : keeps edits (handle_udp_data_frame f).
Proof.
  unfold handle_udp_data_frame. cbv zeta. destruct (validate_client_relay_flow_id _) as [[]|r|]; [|keeps_auto..].
  apply keeps_bind; [apply _|keeps_auto|]. intros []; [keeps_auto..|]. intros s. apply forward_udp_data_edits.
Qed.

Lemma handle_udp_close_edits f : keeps edits (handle_udp_close_frame f).
Proof. unfold handle_udp_close_frame. cbv zeta. keeps_auto. Qed.

Lemma close_udp_flows_edits ids : keeps edits (close_udp_flows ids).
Proof. induction ids; cbn [close_udp_flows]; keeps_auto. Qed.

Lemma close_idle_udp_edits visit : keeps edits (close_idle_udp_flows visit).
Proof.
  unfold close_idle_udp_flows. apply keeps_bind; [apply _|keeps_auto|]. intros []; [|keeps_auto].
  apply keeps_bind; [apply _|keeps_auto|]. intros ids. apply close_udp_flows_edits.
Qed.

(** ** Dispatch *)

Lemma handle_settings_edits f : keeps edits (handle_settings_frame f).
Proof.
  unfold handle_settings_frame. keeps_auto. apply rtc_once, edit_settings.
Qed.

#[local] Hint Resolve handle_settings_edits handle_tcp_close_edits handle_udp_data_edits handle_udp_close_edits
  handle_status_edits : relay.

Lemma handle_session_frame_edits f s :
  tokens_left s → (∀ tok, counters_ok s tok) → edits s (handle_session_frame f s).2.
Proof.
  intros Htk Hok. unfold handle_session_frame. apply runs_gets.
  case_bool_decide as Hd; destruct (Frame.frame_type _);
    first [by apply handle_tcp_data_edits | by apply handle_tcp_open_edits | by apply handle_udp_open_edits
          | run_auto].
Qed.

(** What a queued event says about the state it is handled in. *)
Definition event_pre (s : Session) (e : FlowEvent) : Prop :=
  dial_ok s e ∧ match ev_reader e with Some tok => tok ∉ readers s | None => True end.

Lemma handle_flow_event_edits e s : tokens_left s → event_pre s e → edits s (handle_flow_event e s).2.
Proof.
  intros Htk [Hd Hr]. destruct e; cbn [handle_flow_event].
  - by eapply handle_tcp_open_completed_edits.
  - by eapply handle_udp_open_completed_edits.
  - by apply handle_target_read_closed_edits.
  - cbn. unfold handle_udp_read_closed. destruct (table s !! flow_id) as [[]|]; try done.
    destruct (_ =? _); [auto with relay|done].
  - cbn. destruct (udp_target_flow s flow_id) as [t|] eqn:Hi; [|done].
    apply udp_target_flow_Some in Hi. by apply record_activity_edits.
  - apply forward_udp_datagram_edits.
  - apply handle_half_close_expired_edits.
  - apply handle_target_write_closed_edits.
  - done.
Qed.

Lemma continue_with_state counts r : (continue_with counts r).2 = r.2.
Proof. by destruct r as [[]]. Qed.

(** The state an event is handled in, and what must hold there. *)
Definition session_event_pre (s : Session) (ev : SessionEvent) : Prop :=
  tokens_left s ∧ (∀ tok, counters_ok s tok) ∧ match ev with FlowEv e => event_pre s e | _ => True end.

Lemma with_state_id s : with_state (state s) s = s.
Proof. by destruct s. Qed.

(** Besides edits, handling an event can only start the drain. *)
Lemma handle_session_event_edits ev s :
  session_event_pre s ev →
  ∃ st, edits (with_state st s) (handle_session_event ev s).2 ∧
        (st = state s ∨ state s = Relaying ∧ st = Draining).
Proof.
  intros (Htk & Hok & Hev).
  assert (edits s (handle_session_event ev s).2 → ∃ st, edits (with_state st s) (handle_session_event ev s).2 ∧
    (st = state s ∨ state s = Relaying ∧ st = Draining)) as Hsame.
  { intros He. exists (state s). rewrite with_state_id. auto. }
  destruct ev; cbn [handle_session_event] in *; try (by apply Hsame).
  - apply Hsame. rewrite continue_with_state. by apply handle_flow_event_edits.
  - apply Hsame. rewrite continue_with_state. by apply handle_session_frame_edits.
  - apply Hsame. destruct e; try done. cbn. apply quiet_edits, send_status_frame_quiet.
  - apply Hsame. rewrite continue_with_state. apply close_idle_udp_edits.
  - case_bool_decide as Hst; [|apply Hsame; by case_bool_decide].
    exists Draining. split; [|by right]. unfold transition. rewrite Hst. cbn. by case_bool_decide.
Qed.

(** ** Teardown *)

Lemma close_target_flows_edits visit s : shutdown (io s) = true → edits s (close_target_flows visit s).
Proof.
  revert s. induction visit as [|i visit IH]; intros s Hs; [done|]. cbn [close_target_flows].
  destruct (table s !! i) as [slot|] eqn:Hi; [|by apply IH].
  etrans; [by eapply rtc_once, edit_close_slot|]. apply IH.
  pose proof (close_slot_frame slot (with_table (delete i (table s)) s)) as [= _ _ _ _ _ -> _]. done.
Qed.

Lemma begin_close_edits visit s : edits (transition Closing s).2 (begin_close visit s).
Proof. unfold begin_close. etrans; [apply quiet_edits, close_shutdown_quiet|]. by apply close_target_flows_edits. Qed.
End Handlers.

Section Tasks.
Context {P : Platform}.

(** ** Tasks *)

Lemma quiet_is_aborted s s' tok : quiet s s' → is_aborted s tok = true → is_aborted s' tok = true.
Proof. intros (_ & _ & Hf & _). apply Hf. Qed.
Lemma quiet_shutdown s s' : quiet s s' → shutdown (io s) = true → shutdown (io s') = true.
Proof. intros (_ & _ & _ & Hs & _). exact Hs. Qed.

Lemma report_tcp_error_quiet id tok s : quiet s (report_tcp_error id tok s).
Proof.
  unfold report_tcp_error. destruct (shutdown (io s)); [done|].
  etrans; [apply (control_abort_quiet tok)|].
  etrans; [apply send_status_frame_quiet|apply send_tcp_close_quiet].
Qed.
Lemma report_udp_error_quiet id tok s : quiet s (report_udp_error id tok s).
Proof.
  unfold report_udp_error. destruct (shutdown (io s)); [done|].
  etrans; [apply (control_abort_quiet tok)|].
  etrans; [apply send_status_frame_quiet|apply send_udp_close_quiet].
Qed.
Lemma report_tcp_error_reason id tok s :
  is_aborted (report_tcp_error id tok s) tok = true ∨ shutdown (io (report_tcp_error id tok s)) = true.
Proof.
  unfold report_tcp_error. destruct (shutdown (io s)) eqn:Hs; [by right|left].
  eapply quiet_is_aborted; [apply send_tcp_close_quiet|].
  eapply quiet_is_aborted; [apply send_status_frame_quiet|]. apply is_aborted_control_abort.
Qed.

Lemma try_record_edits e s : ev_reader e = None → dial_ok s e → edits s (try_record_flow_activity e s).
Proof.
  intros Hr Hd. unfold try_record_flow_activity. destruct (queue_full s) eqn:Hq; [done|]. by apply rtc_once, edit_push.
Qed.

(** A task step that is quiet up to the task itself. *)
Lemma quiet_task i t t' s s1 :
  tasks s !! i = Some t → quiet s s1 → task_moves s1 t t' →
  edits s (with_tasks (<[i := t']> (tasks s1)) s1).
Proof.
  intros Hi Hq Hm. etrans; [by apply quiet_edits|]. quiet_fields Hq. apply rtc_once.
  apply (edit_task s1 i t t'); [congruence|done].
Qed.

(** A task step that may also have queued a hint. *)
Lemma hint_task i t s s1 e :
  tasks s !! i = Some t → quiet s s1 → ev_reader e = None → dial_ok s1 e →
  edits s (with_tasks (<[i := t]> (tasks (try_record_flow_activity e s1))) (try_record_flow_activity e s1)).
Proof.
  intros Hi Hq Hr Hd. etrans; [by apply quiet_edits|]. etrans; [by apply try_record_edits|].
  quiet_fields Hq. apply rtc_once. apply (edit_task _ i t t); [|by left].
  unfold try_record_flow_activity. destruct (queue_full s1); simpl; congruence.
Qed.

Lemma send_event_edits i t e s r :
  tasks s !! i = Some t → is_writer t = false → task_event t = Some e →
  send_flow_event_or_shutdown e (task_permit t) s = Some r →
  r.1 = None ∧ edits s (drop_permit (task_permit t) (with_tasks (delete i (tasks r.2)) r.2)).
Proof.
  intros Hi Hw He. unfold send_flow_event_or_shutdown. destruct (shutdown (io s)) eqn:Hs; [|destruct (queue_full s) eqn:Hq].
  - intros [= <-]. split; [done|]. by apply rtc_once, edit_end.
  - done.
  - intros [= <-]. split; [done|]. by apply rtc_once, (edit_send s i t e).
Qed.

Lemma control_of_put_queue tok q w s k : control_of (put_queue tok q w s) k = control_of s k.
Proof. done. Qed.

(** The flags and the other fields when data is dropped. *)
Lemma drop_data_flags tok p s k :
  closed (control_of (drop_data tok p s) k) = closed (control_of s k) ∧
  aborted (control_of (drop_data tok p s) k) = aborted (control_of s k).
Proof. unfold drop_data. rewrite control_of_put_counters. case_decide; by subst. Qed.

Lemma drop_commands_flags tok q s k :
  closed (control_of (foldl (λ s cmd, drop_command tok cmd s) s q) k) = closed (control_of s k) ∧
  aborted (control_of (foldl (λ s cmd, drop_command tok cmd s) s q) k) = aborted (control_of s k).
Proof.
  revert s. induction q as [|[p|] q IH]; intros s; [done| |apply IH]. cbn [foldl drop_command].
  destruct (IH (drop_data tok p s)) as [-> ->]. apply drop_data_flags.
Qed.

Lemma drop_writing_flags tok s k :
  closed (control_of (drop_writing tok s) k) = closed (control_of s k) ∧
  aborted (control_of (drop_writing tok s) k) = aborted (control_of s k).
Proof.
  unfold drop_writing. destruct (writing _) as [p|]; [|done].
  exact (drop_data_flags tok p (put_queue tok (queue (channel_of s tok)) None s) k).
Qed.

Lemma drop_channel_flags tok s k :
  closed (control_of (drop_channel tok s) k) = closed (control_of s k) ∧
  aborted (control_of (drop_channel tok s) k) = aborted (control_of s k).
Proof.
  destruct (drop_commands_flags tok (queue (channel_of (drop_writing tok s) tok)) (drop_writing tok s) k) as [H1 H2].
  destruct (drop_writing_flags tok s k) as [H3 H4].
  split; [by rewrite <-H3, <-H1|by rewrite <-H4, <-H2].
Qed.

(** The state without heap and byte counts, which dropping data leaves alone. *)
Definition beside_heap (s : Session) :=
  (frame_of s, tasks s, cancelled s, metrics s, next_token (counts s), global_flows (counts s)).

Lemma drop_commands_beside tok q s : beside_heap (foldl (λ s cmd, drop_command tok cmd s) s q) = beside_heap s.
Proof. revert s. induction q as [|[p|] q IH]; intros s; [done| |apply IH]. cbn [foldl drop_command]. by rewrite IH. Qed.

Lemma drop_channel_beside tok s : beside_heap (drop_channel tok s) = beside_heap s.
Proof.
  transitivity (beside_heap (drop_writing tok s)).
  - exact (drop_commands_beside tok (queue (channel_of (drop_writing tok s) tok)) (drop_writing tok s)).
  - unfold drop_writing. by destruct (writing _).
Qed.

Lemma drop_channel_token tok s : next_token (counts (drop_channel tok s)) = next_token (counts s).
Proof. pose proof (drop_channel_beside tok s) as Hb. unfold beside_heap in Hb. congruence. Qed.

Lemma drop_channel_io tok s : io (drop_channel tok s) = io s.
Proof. pose proof (drop_channel_beside tok s) as Hb. unfold beside_heap, frame_of in Hb. congruence. Qed.

Lemma writer_finish_edits i flow_id tok failed s r :
  tasks s !! i = Some (TargetWriter flow_id tok) →
  failed = true ∨ is_aborted s tok = true ∨ shutdown (io s) = true ∨
    (writing (channel_of s tok) = None ∧ Forall (λ cmd, cmd = Close) (queue (channel_of s tok))) →
  writer_finish flow_id tok failed (drop_writing tok s) = Some r →
  ∃ t', r.1 = Some t' ∧ edits s (with_tasks (<[i := t']> (tasks r.2)) r.2).
Proof.
  intros Hi Hreason [= <-]. eexists; split; [done|]. apply rtc_once. cbn [snd].
  change (drop_receiver tok (drop_writing tok s)) with (drop_channel tok s).
  destruct failed.
  - eapply edit_writer_end; [done|apply report_tcp_error_quiet|].
    destruct (report_tcp_error_reason flow_id tok (drop_channel tok s)); auto.
  - eapply edit_writer_end; [done|done|]. destruct Hreason as [|[Ha|[Hs|Hq]]]; [done| | |by auto].
    + left. unfold is_aborted. destruct (drop_channel_flags tok s tok) as [_ ->]. done.
    + right; left. by rewrite drop_channel_io.
Qed.

(** What a task's step relies on. *)
Definition task_pre (s : Session) (t : Task) : Prop :=
  match t with
  | OpenTask p flow_id target policy c =>
    requested s !! open_token c =
      Some {| rq_protocol := p; rq_flow := flow_id; rq_target := target; rq_policy := policy |}
  | TargetWriter _ tok =>
    ∀ q, queue (channel_of s tok) = Close :: q → Forall (λ cmd, cmd = Close) q
  | _ => True
  end.

Definition stepped (i : nat) (t : Task) (s : Session) (r : option Task * Session) : Prop :=
  match r with
  | (Some t', s') => edits s (with_tasks (<[i := t']> (tasks s')) s')
  | (None, s') => edits s (drop_permit (task_permit t) (with_tasks (delete i (tasks s')) s'))
  end.

Lemma open_task_stepped i p flow_id target policy c input s r :
  let t := OpenTask p flow_id target policy c in
  tasks s !! i = Some t → task_pre s t → input_ok s t input →
  open_task_step p flow_id target policy c input s = Some r → stepped i t s r.
Proof.
  intros t Hi Hpre Hin. unfold open_task_step. destruct (_ || _).
  { intros [= <-]. by apply rtc_once, edit_end. }
  destruct input as [d| | | | | | | | | |]; try done. intros [= <-].
  eapply quiet_task; [done|done|]. right. split; [by destruct p|]. split; [done|]. split; [done|].
  eexists. split; [done|]. destruct Hin as (deadline & dns & expired & its & Hs & Hdns & Hc).
  destruct d as [addr|e|]; [|by destruct p|by apply Dialer.connect_allowed_Panic in Hc].
  apply Dialer.connect_allowed_permitted in Hc; [|done]. destruct p; (eexists; split; [exact Hpre|done]).
Qed.

(** A reader that ends hands over its last event. *)
Lemma reader_ends i t e s s1 :
  tasks s !! i = Some t → quiet s s1 → tcp_reader t = ev_reader e → task_permit t = None →
  is_writer t = false → dial_ok s1 e → stepped i t s (Some (Sending e None), s1).
Proof.
  intros Hi Hq Hr Hp Hw Hd. eapply quiet_task; [done|done|]. right. split; [done|]. split; [done|].
  split; [done|]. by exists e.
Qed.

Lemma target_reader_stepped i flow_id tok input s r :
  tasks s !! i = Some (TargetReader flow_id tok) →
  target_reader_step flow_id tok input s = Some r → stepped i (TargetReader flow_id tok) s r.
Proof.
  intros Hi. unfold target_reader_step. destruct (_ || _); [intros [= <-]; by apply reader_ends|].
  destruct input as [|bytes| | | | | | | | |]; try done.
  - destruct (_ || _); [done|]. pose proof (send_tcp_data_quiet flow_id bytes tok s) as Hq.
    destruct (send_tcp_data flow_id bytes tok s) as [[[]|e|] s1]; intros [= <-]; simpl in Hq.
    + apply (hint_task i _ s); [done| |done|done]. etrans; [exact Hq|apply record_quiet].
    + apply reader_ends; try done. etrans; [exact Hq|apply report_tcp_error_quiet].
    + apply reader_ends; try done. etrans; [exact Hq|apply report_tcp_error_quiet].
  - pose proof (send_tcp_close_quiet flow_id TCP_NORMAL s) as Hq.
    destruct (send_tcp_close flow_id TCP_NORMAL s) as [[[]|e|] s1]; intros [= <-]; simpl in Hq;
      apply reader_ends; try done; (etrans; [exact Hq|apply report_tcp_error_quiet]).
  - intros [= <-]. apply reader_ends; try done. apply report_tcp_error_quiet.
Qed.

Lemma emit_udp_quiet max_size accepted flow_id payload tok :
  keeps quiet (emit_udp_to_client max_size accepted flow_id payload tok).
Proof.
  intros s. unfold emit_udp_to_client. destruct (try_send_udp_datagram _ _ _ _); [done|].
  destruct (_ <? _); [done|]. refine ((_ : keeps quiet _) s). keeps_auto.
Qed.

Lemma udp_reader_stepped i flow_id tok input s r :
  tasks s !! i = Some (UdpReader flow_id tok) →
  udp_reader_step flow_id tok input s = Some r → stepped i (UdpReader flow_id tok) s r.
Proof.
  intros Hi. unfold udp_reader_step. destruct (_ || _); [intros [= <-]; by apply reader_ends|].
  destruct input as [| | | | | | | | |max_size accepted bytes|]; try done.
  - intros [= <-]. apply reader_ends; try done. apply report_udp_error_quiet.
  - destruct (_ <? _); [done|]. pose proof (emit_udp_quiet max_size accepted flow_id bytes tok s) as Hq.
    destruct (emit_udp_to_client _ _ _ _ _ s) as [[[]|e|] s1]; intros [= <-]; simpl in Hq.
    + apply (hint_task i _ s); [done| |done|done]. etrans; [exact Hq|apply record_quiet].
    + apply quiet_task with (t := UdpReader flow_id tok); [done|done|by left].
    + apply reader_ends; try done. etrans; [exact Hq|apply report_udp_error_quiet].
    + apply reader_ends; try done. etrans; [exact Hq|apply report_udp_error_quiet].
Qed.

Lemma timer_stepped i timer flow_id tok side fired input s r :
  let t := HalfCloseTimer timer flow_id tok side fired in
  tasks s !! i = Some t → timer_step timer flow_id tok side fired input s = Some r → stepped i t s r.
Proof.
  intros t Hi. unfold timer_step. destruct fired.
  - intros Hr. apply (send_event_edits i t) in Hr as [Hn He]; [|done..]. destruct r as [o s']. simpl in Hn. by subst o.
  - destruct (shutdown (io s)); [intros [= <-]; by apply rtc_once, edit_end|].
    destruct input; try done. intros [= <-]. eapply quiet_task; [done|done|]. right. split; [done|]. split; [done|].
    split; [done|]. by exists (HalfCloseDrainExpired flow_id tok side).
Qed.

Lemma datagram_reader_stepped i input s r :
  tasks s !! i = Some DatagramReader → datagram_reader_step input s = Some r → stepped i DatagramReader s r.
Proof.
  intros Hi. unfold datagram_reader_step. destruct (shutdown (io s)).
  { intros [= <-]. by apply rtc_once, (edit_end s i DatagramReader). }
  assert (stepped i DatagramReader s (Some DatagramReader, s)) as Hsame
    by (eapply quiet_task; [done|done|by left]).
  destruct input; try done.
  - destruct (RelayPayload.Datagram.decode bytes) as [[flow_id payload]| |]; [|by intros [= <-]..].
    destruct (negb _); [by intros [= <-]|]. destruct (queue_full s) eqn:Hq; [done|]. intros [= <-].
    eapply rtc_r; [by apply rtc_once, (edit_push s (InboundDatagram flow_id payload))|].
    apply (edit_task (push_event _ s) i DatagramReader); [done|by left].
  - intros [= <-]. by apply rtc_once, (edit_end s i DatagramReader).
Qed.

(** Between commands the writer holds no payload. *)
Lemma drop_writing_idle tok s : writing (channel_of s tok) = None → drop_writing tok s = s.
Proof. unfold drop_writing. by intros ->. Qed.

Lemma stepped_after i t s s1 r :
  edits s s1 → stepped i t s1 r → stepped i t s r.
Proof. intros He. unfold stepped. destruct r as [[t'|] s']; by etrans. Qed.

Lemma finish_stepped i flow_id tok failed s r :
  tasks s !! i = Some (TargetWriter flow_id tok) →
  failed = true ∨ is_aborted s tok = true ∨ shutdown (io s) = true ∨
    (writing (channel_of s tok) = None ∧ Forall (λ cmd, cmd = Close) (queue (channel_of s tok))) →
  writer_finish flow_id tok failed (drop_writing tok s) = Some r →
  stepped i (TargetWriter flow_id tok) s r.
Proof.
  intros Hi Hreason Hr. destruct (writer_finish_edits _ _ _ _ _ _ Hi Hreason Hr) as (t' & Ht & He).
  destruct r as [o s']. simpl in Ht. by subst o.
Qed.

Lemma written_stepped i flow_id tok payload e s :
  tasks s !! i = Some (TargetWriter flow_id tok) → writing (channel_of s tok) = Some payload →
  ev_reader e = None → (∀ s', dial_ok s' e) →
  let s1 := try_record_flow_activity e (record (RelayedToTarget TcpProto (zlen payload)) (push_written tok payload s)) in
  stepped i (TargetWriter flow_id tok) s (Some (TargetWriter flow_id tok), drop_data tok payload s1).
Proof.
  intros Hi Hw Hr Hd. cbv zeta. set (s2 := drop_data tok payload (push_written tok payload s)).
  replace (drop_data _ _ (try_record_flow_activity _ _))
    with (try_record_flow_activity e (record (RelayedToTarget TcpProto (zlen payload)) s2)).
  - eapply stepped_after; [by eapply rtc_once, edit_written|].
    apply (hint_task i _ s2); [done|apply record_quiet|done|apply Hd].
  - unfold try_record_flow_activity. change (queue_full (record _ ?x)) with (queue_full x).
    change (queue_full s2) with (queue_full (push_written tok payload s)).
    by destruct (queue_full (push_written tok payload s)).
Qed.

Lemma target_writer_stepped i flow_id tok input s r :
  tasks s !! i = Some (TargetWriter flow_id tok) → task_pre s (TargetWriter flow_id tok) →
  target_writer_step flow_id tok input s = Some r → stepped i (TargetWriter flow_id tok) s r.
Proof.
  intros Hi Hpre. unfold target_writer_step. destruct (writing (channel_of s tok)) as [payload|] eqn:Hw.
  - assert (drop_data tok payload (put_queue tok (queue (channel_of s tok)) None s) = drop_writing tok s) as ->
      by (unfold drop_writing; by rewrite Hw).
    destruct (is_aborted s tok) eqn:Ha; [by apply finish_stepped; auto|].
    destruct input; try done; [|by apply finish_stepped; auto]. intros [= <-]. by apply written_stepped.
  - destruct (is_aborted s tok) eqn:Ha.
    { rewrite <-(drop_writing_idle tok s Hw) at 1. apply finish_stepped; auto. }
    destruct (queue (channel_of s tok)) as [|[payload|] q] eqn:Hq.
    + destruct (negb _ || _); [|done].
      assert (∀ failed, writer_finish flow_id tok failed s = Some r → stepped i (TargetWriter flow_id tok) s r) as Hfin.
      { intros failed. rewrite <-(drop_writing_idle tok s Hw) at 1. apply finish_stepped; [done|].
        do 3 right. by rewrite Hq. }
      destruct (is_closed s tok); [destruct input|]; apply Hfin.
    + intros [= <-]. eapply stepped_after; [by eapply rtc_once, edit_take|].
      apply (quiet_task i (TargetWriter flow_id tok)); [done|done|by left].
    + set (s1 := put_queue tok q None s). set (s2 := control_close tok s1).
      assert (edits s s2) as He.
      { etrans; [by eapply rtc_once, edit_take_close|]. apply quiet_edits, control_close_quiet. }
      assert (channel_of s2 tok = channel_of s1 tok) as Hch by done.
      assert (writing (channel_of s1 tok) = None ∧ queue (channel_of s1 tok) = q) as [Hw1 Hq1].
      { unfold s1, put_queue, channel_of, put_channel. simpl. by rewrite lookup_insert_eq. }
      assert (∀ failed, writer_finish flow_id tok failed s2 = Some r → stepped i (TargetWriter flow_id tok) s r) as Hfin.
      { intros failed Hr. eapply stepped_after; [exact He|]. eapply (finish_stepped i _ _ failed); [done| |].
        - do 3 right. rewrite Hch, Hw1, Hq1. split; [done|]. by apply Hpre.
        - rewrite drop_writing_idle; [done|]. by rewrite Hch. }
      destruct input; apply Hfin.
Qed.

Lemma run_task_edits i input s s' t :
  tasks s !! i = Some t → task_pre s t → input_ok s t input → run_task i input s = Some s' → edits s s'.
Proof.
  intros Hi Hpre Hin. unfold run_task. rewrite Hi. destruct (task_step t input s) as [r|] eqn:Hr; [|done].
  assert (stepped i t s r) as Hst.
  { destruct t; cbn [task_step] in Hr.
    - by eapply open_task_stepped.
    - by eapply target_reader_stepped.
    - by eapply udp_reader_stepped.
    - by eapply target_writer_stepped.
    - by eapply timer_stepped.
    - by eapply datagram_reader_stepped.
    - apply (send_event_edits i (Sending e permit)) in Hr as [Hn He]; [|done..].
      destruct r as [o s1]. simpl in Hn. by subst o. }
  destruct r as [[t'|] s1]; by intros [= <-].
Qed.

Lemma abort_task_edits i s : shutdown (io s) = true → edits s (abort_task i s).
Proof.
  intros Hs. unfold abort_task. destruct (tasks s !! i) as [t|] eqn:Hi; [|done].
  destruct t; try (by apply rtc_once, (edit_end s i _ Hi)). by eapply rtc_once, edit_abort_writer.
Qed.
End Tasks.
End Sim.
