(* ===== verification/RelayInv.v ===== *)
(** * RelayInv: the invariants of a relay session

    What an edit does to the flow table, the requests, the tasks and the event
    queue, and the invariants on them: the table stays within its limits, and every
    flow, task and event belongs to the request it answers.  RelayBudgets and
    RelayStreams have the invariants on permits, bytes and streams. *)

From S2P Require Import Prelude Wire Varint FrameCodec RustStd TargetCodec RelayPayload Settings FrameIo.
From S2P Require Import Auth Policy Mask Security Budget Dialer RelayState RelayHandlers RelaySession.
From S2P Require Import RelayEdits RelaySim.

Module Inv.
Import Relay Handlers Session Edits Sim.
Import RelayPayload.Flow.

(** The equations of a frame lemma. *)
Ltac frame_fields H :=
  let Hf := fresh in pose proof H as Hf; unfold beside_heap, frame_of in Hf;
  injection Hf; clear Hf; intros.

Section Table.
Context {P : Platform}.

(** ** The flow table *)

(** How an occupied slot may change. *)
Inductive slot_becomes (s : Session) (i : Z) : FlowSlot → FlowSlot → Prop :=
  | sb_tcp t t' :
      same_flow t t' →
      target_to_client_open t' = target_to_client_open t ∨ is_aborted s (token t) = true ∨ token t ∉ readers s →
      slot_becomes s i (Tcp t) (Tcp t')
  | sb_udp t n : slot_becomes s i (Udp t) (Udp {| udp_token := udp_token t; last_activity := n;
                                                  udp_permit := udp_permit t; udp_peer := udp_peer t |})
  | sb_accept_tcp c t' :
      dialed_for s TcpProto i (open_token c) (peer t') → flow_permit t' = open_permit c →
      token t' = next_token (counts s) → target_to_client_open t' = true →
      slot_becomes s i (OpeningTcp c) (Tcp t')
  | sb_accept_udp c t' :
      dialed_for s UdpProto i (open_token c) (udp_peer t') → udp_permit t' = open_permit c →
      udp_token t' = next_token (counts s) →
      slot_becomes s i (OpeningUdp c) (Udp t').

Definition opening (p : Protocol) (tok : Z) : FlowSlot :=
  let c := {| open_token := tok; open_permit := Some tok |} in
  match p with TcpProto => OpeningTcp c | UdpProto => OpeningUdp c end.

(** Whoever still reads for a slot that goes away is told to stop. *)
Definition silenced (s' : Session) (slot : FlowSlot) : Prop :=
  match slot with
  | Tcp t => target_to_client_open t = true → is_aborted s' (token t) = true ∨ shutdown (io s') = true
  | Udp t => is_aborted s' (udp_token t) = true
  | _ => True
  end.

(** What an edit does to the table and the requests. *)
Inductive table_edit (s s' : Session) : Prop :=
  | te_same : table s' = table s → requested s' = requested s → table_edit s s'
  | te_delete i :
      table s' = delete i (table s) → requested s' = requested s →
      (∀ slot, table s !! i = Some slot → silenced s' slot) → table_edit s s'
  | te_replace i slot slot' :
      table s !! i = Some slot → slot_becomes s i slot slot' →
      table s' = <[i := slot']> (table s) → requested s' = requested s → table_edit s s'
  | te_open p i target policy :
      slot_free p i s → state s ≠ Draining →
      table s' = <[i := opening p (next_token (counts s))]> (table s) →
      requested s' = <[next_token (counts s) := {| rq_protocol := p; rq_flow := i; rq_target := target;
                                                   rq_policy := policy |}]> (requested s) →
      next_token (counts s') = next_token (counts s) + 1 → table_edit s s'.

Lemma slot_becomes_kind s i slot slot' : slot_becomes s i slot slot' → is_udp_slot slot' = is_udp_slot slot.
Proof. by destruct 1. Qed.
Lemma slot_becomes_permit s i slot slot' : slot_becomes s i slot slot' → slot_permit slot' = slot_permit slot.
Proof. by destruct 1 as [t t' (_ & Hp & _) _| | |]. Qed.

Lemma acquired_with s s1 :
  acquire_flow_permit s = (Ok true, s1) →
  ∃ n, Budget.try_acquire (global_flows (counts s)) (global_flow_limit (cfg s)) = Some n ∧
       s1 = with_counts (set_global_flows n (counts s)) s.
Proof. destruct (acquire_cases s) as [(n & Ht & ->)|[_ ->]]; intros [= <-]; eauto. Qed.

Lemma next_token_succ s :
  0 ≤ next_token (counts s) → tokens_left s →
  truncate 64 (next_token (counts s) + 1) = next_token (counts s) + 1.
Proof. unfold tokens_left, truncate. intros. apply Z.mod_small. lia. Qed.

Lemma drop_permit_heap p s : heap (drop_permit p s) = heap s.
Proof. unfold drop_permit. destruct p; [|done]. by case_decide. Qed.

Lemma is_aborted_heap s s' tok : heap s' = heap s → is_aborted s' tok = is_aborted s tok.
Proof. unfold is_aborted, control_of. by intros ->. Qed.

Lemma drop_target_flow_silences t s :
  target_to_client_open t = true → is_aborted (drop_target_flow t s) (token t) = true.
Proof.
  intros Ho. unfold drop_target_flow. destruct (cancel_half_close_timer t s) as [t' s'] eqn:Hc.
  assert (t' = set_timer None t) as -> by (unfold cancel_half_close_timer in Hc; congruence).
  erewrite is_aborted_heap by apply drop_permit_heap.
  assert (is_fully_closed (set_timer None t) = false) as -> by (unfold is_fully_closed; simpl; by rewrite Ho).
  destruct (commands (set_timer None t)); apply (is_aborted_control_abort (token t) s').
Qed.

Lemma drop_udp_flow_silences t s : is_aborted (drop_udp_flow t s) (udp_token t) = true.
Proof.
  unfold drop_udp_flow. erewrite is_aborted_heap by apply drop_permit_heap. apply is_aborted_control_abort.
Qed.

Lemma remove_silences i s slot : table s !! i = Some slot → silenced (remove_flow_slot i s) slot.
Proof.
  intros Hi. unfold remove_flow_slot. rewrite Hi. destruct slot; try done; cbn [drop_slot silenced].
  - intros Ho. left. by apply drop_target_flow_silences.
  - apply drop_udp_flow_silences.
Qed.

Lemma close_silences slot s : shutdown (io s) = true → silenced (close_slot slot s) slot.
Proof.
  intros Hs. pose proof (close_slot_frame slot s) as Hf. unfold frame_of in Hf.
  destruct slot; try done; cbn [silenced].
  - right. congruence.
  - apply drop_udp_flow_silences.
Qed.

Lemma edit_table_edit s s' : 0 ≤ next_token (counts s) → edit s s' → cfg s' = cfg s ∧ table_edit s s'.
Proof.
  intros Hn. destruct 1 as [s' Hq| | | | | |i t t' Hi Hf Hrd| i t n Hi|i|p i target policy s1 Htk Hf Hd Ha|
    |i c addr cap s2 Htk Hi Hd Hq|i c addr n s2 Htk Hi Hd Hq|i slot Hs Hi| | |i t t' Hi Hm|i t Hi|i t e Hi| | |
    |i id tok s2 Hi Hq|i id tok Hi];
    try (by split; [|apply te_same]).
  - quiet_fields Hq. split; [done|by apply te_same].
  - split; [done|]. eapply (te_replace _ _ i _ _ Hi); [|reflexivity|done]. by apply sb_tcp.
  - split; [done|]. eapply (te_replace _ _ i _ _ Hi); [|reflexivity|done]. apply sb_udp.
  - frame_fields (remove_flow_slot_frame i s). split; [done|]. apply (te_delete _ _ i); [done|done|].
    apply remove_silences.
  - destruct (acquired_with _ _ Ha) as (n & _ & ->). split; [done|].
    apply (te_open _ _ p i target policy Hf Hd); [done|done|by apply (next_token_succ s)].
  - quiet_fields Hq. split; [done|].
    eapply (te_replace _ _ i _ _ Hi); [|simpl; f_equal; done|done]. by apply sb_accept_tcp.
  - quiet_fields Hq. split; [done|].
    eapply (te_replace _ _ i _ _ Hi); [|simpl; f_equal; done|done]. by apply sb_accept_udp.
  - frame_fields (close_slot_frame slot (with_table (delete i (table s)) s)). split; [done|].
    apply (te_delete _ _ i); [done|done|]. intros slot' Hi'. simplify_eq. by apply close_silences.
  - frame_fields (drop_permit_frame (task_permit t) (with_tasks (delete i (tasks s)) s)).
    split; [done|by apply te_same].
  - frame_fields (drop_permit_frame (task_permit t) (with_tasks (delete i (tasks s)) (push_event e s))).
    split; [done|by apply te_same].
  - quiet_fields Hq. frame_fields (drop_channel_beside tok s). split; simpl; [congruence|apply te_same; simpl; congruence].
  - frame_fields (drop_channel_beside tok (with_tasks (delete i (tasks s)) s)). split; [done|by apply te_same].
Qed.

Lemma udp_count_delete i m : udp_flow_count (delete i m) ≤ udp_flow_count m.
Proof.
  unfold udp_flow_count. rewrite map_filter_delete. apply inj_le, map_subseteq_size, delete_subseteq.
Qed.

Lemma udp_count_insert i slot m :
  udp_flow_count (<[i := slot]> m) ≤ udp_flow_count m + (if is_udp_slot slot then 1 else 0).
Proof.
  pose proof (udp_count_delete i m) as Hd. unfold udp_flow_count in *. rewrite map_filter_insert.
  case_decide as Hu; [rewrite Hu|destruct (is_udp_slot slot); [done|cbn match; lia]].
  rewrite map_size_insert. destruct (filter _ m !! i); unfold id; lia.
Qed.

Lemma udp_count_replace i slot slot' m :
  m !! i = Some slot → is_udp_slot slot' = is_udp_slot slot →
  udp_flow_count (<[i := slot']> m) = udp_flow_count m.
Proof.
  intros Hi Hk. unfold udp_flow_count. rewrite map_filter_insert. case_decide as Hu.
  - rewrite map_size_insert_Some; [done|]. exists slot. apply map_lookup_filter_Some. by rewrite <-Hk.
  - rewrite map_filter_delete, delete_id; [done|]. apply map_lookup_filter_None. right.
    intros x. rewrite Hi. intros [= <-]. by rewrite <-Hk.
Qed.

(** The table stays within the configured limits, and only ids the client may use
    occur in it. *)
Definition table_inv (s : Session) : Prop :=
  0 ≤ next_token (counts s) ∧
  map_Forall (λ i _, is_client_initiated_flow_id i = true) (table s) ∧
  table_len (table s) ≤ max_streams (limits (cfg s)) ∧
  udp_flow_count (table s) ≤ max_udp_flows (limits (cfg s)).

Lemma drop_permit_token p s : next_token (counts (drop_permit p s)) = next_token (counts s).
Proof. unfold drop_permit. destruct p; [|done]. by case_decide. Qed.

Lemma drop_target_flow_token t s : next_token (counts (drop_target_flow t s)) = next_token (counts s).
Proof.
  unfold drop_target_flow, cancel_half_close_timer. rewrite drop_permit_token.
  by destruct (half_close_timer t), (is_fully_closed _), (commands _).
Qed.

Lemma remove_flow_slot_token i s : next_token (counts (remove_flow_slot i s)) = next_token (counts s).
Proof.
  unfold remove_flow_slot. destruct (table s !! i) as [[]|]; cbn [drop_slot]; unfold drop_udp_flow; try done;
    by rewrite ?drop_permit_token, ?drop_target_flow_token.
Qed.

Lemma close_slot_token slot s : next_token (counts (close_slot slot s)) = next_token (counts s).
Proof.
  destruct slot; cbn [close_slot]; unfold drop_udp_flow; rewrite ?drop_permit_token; try done.
  unfold close_client_to_target, close_client_to_target_queue, try_send.
  destruct (client_to_target_open _); [|by rewrite drop_target_flow_token].
  destruct (commands _); [|by rewrite drop_target_flow_token].
  destruct (negb _); [by rewrite drop_target_flow_token|]. by destruct (_ <=? _); rewrite drop_target_flow_token.
Qed.

(** Tokens are never reused. *)
Lemma edit_next_token s s' :
  0 ≤ next_token (counts s) → edit s s' → next_token (counts s) ≤ next_token (counts s').
Proof.
  intros Hn. destruct 1 as [s' Hq| | | | | |i t t' Hi Hf| i t n Hi|i|p i target policy s1 Htk Hf Hd Ha|Htk
    |i c addr cap s2 Htk Hi Hd Hq|i c addr n s2 Htk Hi Hd Hq|i slot Hs Hi| | |i t t' Hi Hm|i t Hi|i t e Hi| | |
    |i id tok s2 Hi Hq|i id tok Hi]; try done.
  - by rewrite (quiet_counts _ _ Hq).
  - by rewrite remove_flow_slot_token.
  - destruct (acquired_with _ _ Ha) as (n & _ & ->). simpl. rewrite (next_token_succ s) by done. lia.
  - simpl. rewrite next_token_succ by done. lia.
  - simpl. rewrite (quiet_counts _ _ Hq). simpl. rewrite next_token_succ by done. lia.
  - simpl. rewrite (quiet_counts _ _ Hq). simpl. rewrite next_token_succ by done. lia.
  - by rewrite close_slot_token.
  - by rewrite drop_permit_token.
  - by rewrite drop_permit_token.
  - simpl. rewrite (quiet_counts _ _ Hq). by rewrite drop_channel_token.
  - by rewrite drop_channel_token.
Qed.

Lemma table_inv_edit s s' : table_inv s → edit s s' → table_inv s'.
Proof.
  intros (Hn & Hid & Hlen & Hudp) He. destruct (edit_table_edit s s' Hn He) as [Hc Ht].
  split; [pose proof (edit_next_token s s' Hn He); lia|].
  unfold table_inv, table_len in *. rewrite Hc.
  destruct Ht as [-> _|i -> _ _|i slot slot' Hi Hb -> _|p i target policy (Hci & Hi & Hl & Hu) _ -> _ _].
  - done.
  - split_and!; [by apply map_Forall_delete| |].
    + pose proof (map_subseteq_size _ _ (delete_subseteq (table s) i)). lia.
    + pose proof (udp_count_delete i (table s)). lia.
  - rewrite (udp_count_replace _ _ _ _ Hi (slot_becomes_kind _ _ _ _ Hb)), map_size_insert_Some by eauto.
    split_and!; [|done|done]. apply map_Forall_insert_2; [|done]. by apply (Hid i slot).
  - rewrite map_size_insert_None by done. split_and!; [by apply map_Forall_insert_2|unfold table_len in Hl; lia|].
    pose proof (udp_count_insert i (opening p (next_token (counts s))) (table s)).
    destruct p; simpl in *; [lia|]. specialize (Hu eq_refl). lia.
Qed.
End Table.

Section Tasks.
Context {P : Platform}.

(** ** Tasks and events *)

(** What an open or an accepted dial spawns under the token [tok], in the state [s]
    it leads to. *)
Inductive spawned (s : Session) (tok : Z) : list Task → Prop :=
  | spawned_open p i target policy :
      requested s !! tok =
        Some {| rq_protocol := p; rq_flow := i; rq_target := target; rq_policy := policy |} →
      spawned s tok [OpenTask p i target policy {| open_token := tok; open_permit := Some tok |}]
  | spawned_tcp i t :
      table s !! i = Some (Tcp t) → token t = tok → target_to_client_open t = true →
      spawned s tok [TargetReader i tok; TargetWriter i tok]
  | spawned_udp i t :
      table s !! i = Some (Udp t) → udp_token t = tok → spawned s tok [UdpReader i tok].

(** What an edit does to the tasks, up to timers, and to the event queue. *)
Inductive tasks_edit (s s' : Session) : Prop :=
  | ke_same : non_timers (tasks s') = non_timers (tasks s) → events s' = events s → tasks_edit s s'
  | ke_pop e : tasks s' = tasks s → events s = e :: events s' → tasks_edit s s'
  | ke_push e :
      tasks s' = tasks s → events s' = events s ++ [e] → ev_reader e = None → dial_ok s e →
      queue_full s = false → tasks_edit s s'
  | ke_move i t t' :
      tasks s !! i = Some t → task_moves s t t' → tasks s' = <[i := t']> (tasks s) → events s' = events s →
      tasks_edit s s'
  | ke_writer i flow_id tok :
      tasks s !! i = Some (TargetWriter flow_id tok) → receiver (channel_of s' tok) = false →
      tasks s' = <[i := Sending (WriteClosed flow_id tok) None]> (tasks s) → events s' = events s → tasks_edit s s'
  | ke_end i t :
      tasks s !! i = Some t →
      (∀ flow_id tok, t = TargetWriter flow_id tok → receiver (channel_of s' tok) = false) →
      tasks s' = delete i (tasks s) → events s' = events s →
      tasks_edit s s'
  | ke_send i t e :
      tasks s !! i = Some t → task_event t = Some e → queue_full s = false →
      tasks s' = delete i (tasks s) → events s' = events s ++ [e] → tasks_edit s s'
  | ke_spawn ts :
      spawned s' (next_token (counts s)) ts → next_token (counts s') = next_token (counts s) + 1 →
      tasks s' = tasks s ++ ts → events s' = events s → tasks_edit s s'.

Lemma drop_permit_tasks p s : tasks (drop_permit p s) = tasks s.
Proof. unfold drop_permit. destruct p; [|done]. by case_decide. Qed.

Lemma cancel_timer_tasks t s : non_timers (tasks (cancel_half_close_timer t s).2) = non_timers (tasks s).
Proof. unfold cancel_half_close_timer. destruct (half_close_timer t); [apply non_timers_abort|done]. Qed.

Lemma drop_target_flow_tasks t s : non_timers (tasks (drop_target_flow t s)) = non_timers (tasks s).
Proof.
  unfold drop_target_flow. pose proof (cancel_timer_tasks t s) as Hc.
  destruct (cancel_half_close_timer t s) as [t' s']. rewrite drop_permit_tasks.
  by destruct (is_fully_closed t'), (commands t').
Qed.

Lemma close_client_tasks t s : tasks (close_client_to_target t s).2 = tasks s.
Proof.
  unfold close_client_to_target, close_client_to_target_queue, try_send.
  destruct (client_to_target_open t); [|done]. destruct (commands _); [|done].
  destruct (negb _); [done|]. by destruct (_ <=? _).
Qed.

Lemma remove_flow_slot_tasks i s : non_timers (tasks (remove_flow_slot i s)) = non_timers (tasks s).
Proof.
  unfold remove_flow_slot. destruct (table s !! i) as [[c|c|t|t]|]; cbn [drop_slot]; [| | | |done].
  - by rewrite drop_permit_tasks.
  - by rewrite drop_permit_tasks.
  - by rewrite drop_target_flow_tasks.
  - unfold drop_udp_flow. by rewrite drop_permit_tasks.
Qed.

Lemma close_slot_tasks slot s : non_timers (tasks (close_slot slot s)) = non_timers (tasks s).
Proof.
  destruct slot; cbn [close_slot]; [by rewrite drop_permit_tasks..| |unfold drop_udp_flow; by rewrite drop_permit_tasks].
  pose proof (close_client_tasks (mark_target_to_client_closed t) s) as Hc.
  destruct (close_client_to_target _ s) as [t' s']. rewrite drop_target_flow_tasks. simpl in Hc. by rewrite Hc.
Qed.

Lemma drop_channel_receiver tok s : receiver (channel_of (drop_channel tok s) tok) = false.
Proof. unfold drop_channel, drop_receiver, channel_of. simpl. by rewrite lookup_insert_eq. Qed.


Lemma begin_open_state p i target policy s :
  (begin_open p i target policy s).2 =
    let tok := next_token (counts s) in
    let c := {| open_token := tok; open_permit := Some tok |} in
    spawn (OpenTask p i target policy c)
      (remember tok {| rq_protocol := p; rq_flow := i; rq_target := target; rq_policy := policy |}
        (put_slot i (match p with TcpProto => OpeningTcp c | UdpProto => OpeningUdp c end) (next_flow_token s).2)).
Proof. done. Qed.

Lemma edit_tasks_edit s s' : 0 ≤ next_token (counts s) → edit s s' → tasks_edit s s'.
Proof.
  intros Hn. destruct 1 as [s' Hq| |ts n Hts| | | |i t t' Hi| i t n Hi|i|p i target policy s1 Htk Hf Hd Ha|
    |i c addr cap s2 Htk Hi Hd Hq|i c addr n s2 Htk Hi Hd Hq|i slot Hs Hi|e es He|e Hr Hd Hq|i t t' Hi Hm|i t Hi Hw
    |i t e Hi He Hq| | | |i id tok s2 Hi Hq|i id tok Hi];
    try (by apply ke_same).
  - quiet_fields Hq. apply ke_same; congruence.
  - apply ke_same; [apply remove_flow_slot_tasks|]. by frame_fields (remove_flow_slot_frame i s).
  - destruct (acquired_with _ _ Ha) as (n & _ & ->). rewrite begin_open_state.
    eapply ke_spawn; [by apply spawned_open; simpl; rewrite lookup_insert_eq|by apply (next_token_succ s)|done|done].
  - quiet_fields Hq. apply (ke_spawn _ _ [TargetReader i (next_token (counts s)); TargetWriter i (next_token (counts s))]).
    + by eapply spawned_tcp; [simpl; apply lookup_insert_eq|..].
    + simpl. rewrite <-(next_token_succ s) by done. by rewrite (quiet_counts _ _ Hq).
    + simpl. rewrite <-app_assoc. by rewrite (quiet_tasks _ _ Hq).
    + done.
  - quiet_fields Hq. apply (ke_spawn _ _ [UdpReader i (next_token (counts s))]).
    + by eapply spawned_udp; [simpl; apply lookup_insert_eq|..].
    + simpl. rewrite <-(next_token_succ s) by done. by rewrite (quiet_counts _ _ Hq).
    + simpl. by rewrite (quiet_tasks _ _ Hq).
    + done.
  - apply ke_same; [by rewrite close_slot_tasks|]. by frame_fields (close_slot_frame slot (with_table (delete i (table s)) s)).
  - by apply (ke_pop _ _ e).
  - by apply (ke_push _ _ e).
  - by apply (ke_move _ _ i t t').
  - apply (ke_end _ _ i t); [done|by intros ? ? ->|by rewrite drop_permit_tasks|].
    by frame_fields (drop_permit_frame (task_permit t) (with_tasks (delete i (tasks s)) s)).
  - apply (ke_send _ _ i t e); [done..|by rewrite drop_permit_tasks|].
    by frame_fields (drop_permit_frame (task_permit t) (with_tasks (delete i (tasks s)) (push_event e s))).
  - quiet_fields Hq. frame_fields (drop_channel_beside tok s). apply (ke_writer _ _ i id tok); [done| |simpl; congruence..].
    unfold channel_of. simpl. replace (channels (heap s2)) with (channels (heap (drop_channel tok s))) by done.
    exact (drop_channel_receiver tok s).
  - frame_fields (drop_channel_beside tok (with_tasks (delete i (tasks s)) s)).
    apply (ke_end _ _ i (TargetWriter id tok)); [done| |done|done]. intros ? ? [= <- <-]. apply drop_channel_receiver.
Qed.
End Tasks.

Section Wiring.
Context {P : Platform}.

(** ** Flows and the requests they answer *)

(** [tok] names the latest request for the flow id. *)
Definition current_request (s : Session) (i tok : Z) (rq : Request) : Prop :=
  requested s !! tok = Some rq ∧ rq_flow rq = i ∧
  ∀ tok' rq', requested s !! tok' = Some rq' → rq_flow rq' = i → tok' ≤ tok.

Definition slot_protocol (slot : FlowSlot) : Protocol := if is_udp_slot slot then UdpProto else TcpProto.
Definition slot_peer (slot : FlowSlot) : option Dialer.SocketAddr :=
  match slot with Tcp t => Some (peer t) | Udp t => Some (udp_peer t) | _ => None end.
Definition slot_opening (slot : FlowSlot) : option Z :=
  match slot with OpeningTcp c | OpeningUdp c => Some (open_token c) | _ => None end.

Definition slot_wired (s : Session) (i : Z) (slot : FlowSlot) : Prop :=
  ∃ tok rq, slot_permit slot = Some tok ∧ current_request s i tok rq ∧ rq_protocol rq = slot_protocol slot ∧
    (∀ k, slot_opening slot = Some k → k = tok) ∧
    (∀ addr, slot_peer slot = Some addr →
       Dialer.dial_permitted (rq_target rq) (identity (cfg s)) (rq_policy rq) addr).

Definition task_wired (s : Session) (t : Task) : Prop :=
  match t with
  | OpenTask p i target policy c =>
    requested s !! open_token c =
      Some {| rq_protocol := p; rq_flow := i; rq_target := target; rq_policy := policy |} ∧
    open_permit c = Some (open_token c)
  | Sending e permit => dial_ok s e ∧ ∀ tok, permit = Some tok → is_Some (requested s !! tok)
  | _ => True
  end.

Definition wire_inv (s : Session) : Prop :=
  (∀ tok rq, requested s !! tok = Some rq → tok < next_token (counts s)) ∧
  map_Forall (slot_wired s) (table s) ∧ Forall (task_wired s) (tasks s) ∧ Forall (dial_ok s) (events s).

Lemma dial_ok_mono s s' e : cfg s' = cfg s → requested s ⊆ requested s' → dial_ok s e → dial_ok s' e.
Proof.
  intros Hc Hr. assert (∀ p i tok addr, dialed_for s p i tok addr → dialed_for s' p i tok addr) as Hd.
  { intros p i tok addr (rq & H1 & H2 & H3 & H4). exists rq. rewrite Hc. split_and!; [|done..].
    by eapply lookup_weaken. }
  destruct e as [? ? ? []|? ? ? []| | | | | | |]; try done; apply Hd.
Qed.

Lemma task_wired_mono s s' t : cfg s' = cfg s → requested s ⊆ requested s' → task_wired s t → task_wired s' t.
Proof.
  intros Hc Hr. destruct t; try done; simpl.
  - intros [H1 H2]. split; [by eapply lookup_weaken|done].
  - intros [H1 H2]. split; [by eapply dial_ok_mono|]. intros tok Htok. destruct (H2 tok Htok) as [rq Hrq].
    exists rq. by eapply lookup_weaken.
Qed.

Lemma Forall_non_timers (Q : Task → Prop) ts :
  (∀ t, is_half_timer t = true → Q t) → Forall Q (non_timers ts) ↔ Forall Q ts.
Proof.
  intros Ht. unfold non_timers. induction ts as [|t ts IH]; [done|]. rewrite filter_cons, (Forall_cons Q t ts).
  case_decide as Hd; [by rewrite Forall_cons, IH|]. rewrite IH. destruct (is_half_timer t) eqn:Hh; [|done].
  naive_solver.
Qed.

Lemma edit_requested_mono s s' :
  0 ≤ next_token (counts s) → (∀ tok rq, requested s !! tok = Some rq → tok < next_token (counts s)) →
  edit s s' → requested s ⊆ requested s' ∧ cfg s' = cfg s.
Proof.
  intros Hn Hb He. destruct (edit_table_edit s s' Hn He) as [Hc Ht]. split; [|done].
  destruct Ht as [_ ->|i _ -> _|i slot slot' _ _ _ ->|p i target policy _ _ _ -> _]; try done.
  apply insert_subseteq. destruct (requested s !! next_token (counts s)) eqn:Hr; [|done].
  apply Hb in Hr. lia.
Qed.

Lemma slot_wired_becomes s i slot slot' :
  slot_becomes s i slot slot' → slot_wired s i slot → slot_wired s i slot'.
Proof.
  intros Hb (tok & rq & Hp & Hcur & Hproto & Ho & Hperm). exists tok, rq.
  split; [by rewrite (slot_becomes_permit _ _ _ _ Hb)|]. split; [done|].
  split; [unfold slot_protocol; by rewrite (slot_becomes_kind _ _ _ _ Hb)|].
  destruct Hb as [t t' (_ & _ & Hpe) _|t n|c t' (rq' & Hrq & _ & _ & Hd) _ _ _|c t' (rq' & Hrq & _ & _ & Hd) _ _]; simpl in *;
    (split; [done|]).
  - by rewrite Hpe.
  - done.
  - intros addr [= <-]. specialize (Ho _ eq_refl). subst tok. destruct Hcur as [Hcur _]. by simplify_eq.
  - intros addr [= <-]. specialize (Ho _ eq_refl). subst tok. destruct Hcur as [Hcur _]. by simplify_eq.
Qed.

Lemma slot_wired_same s s' i slot :
  cfg s' = cfg s → requested s' = requested s → slot_wired s i slot → slot_wired s' i slot.
Proof. intros Hc Hr. unfold slot_wired, current_request. by rewrite Hc, Hr. Qed.

Lemma slots_wired_edit s s' :
  0 ≤ next_token (counts s) → wire_inv s → edit s s' →
  (∀ tok rq, requested s' !! tok = Some rq → tok < next_token (counts s')) ∧ map_Forall (slot_wired s') (table s').
Proof.
  intros Hn (Hb & Hslots & _ & _) He. pose proof (edit_next_token s s' Hn He) as Hmono.
  destruct (edit_table_edit s s' Hn He) as [Hc Ht].
  destruct Ht as [Ht Hr|i Ht Hr _|i slot slot' Hi Hbc Ht Hr|p i target policy (Hci & Hi & _) _ Ht Hr Htok].
  - rewrite Ht, Hr. split; [intros tok rq Hrq; apply Hb in Hrq; lia|].
    intros j slot Hj. by eapply slot_wired_same, Hslots.
  - rewrite Ht, Hr. split; [intros tok rq Hrq; apply Hb in Hrq; lia|]. apply map_Forall_delete.
    intros j slot Hj. by eapply slot_wired_same, Hslots.
  - rewrite Ht, Hr. split; [intros tok rq Hrq; apply Hb in Hrq; lia|]. apply map_Forall_insert_2.
    + eapply slot_wired_same; [done..|]. eapply slot_wired_becomes; [done|by apply Hslots].
    + intros j slot0 Hj. by eapply slot_wired_same, Hslots.
  - assert (requested s !! next_token (counts s) = None) as Hnone.
    { destruct (requested s !! _) eqn:Hx; [|done]. apply Hb in Hx. lia. }
    rewrite Ht, Hr, Htok. split.
    + intros tok rq [[<- _]|[_ Hrq]]%lookup_insert_Some; [lia|]. apply Hb in Hrq. lia.
    + intros j slot [[<- <-]|[Hj Hslot]]%lookup_insert_Some.
      * eexists (next_token (counts s)), _. split; [by destruct p|]. split.
        { unfold current_request. rewrite Hr, lookup_insert_eq. split_and!; [done|done|].
          intros tok' rq' [[<- _]|[_ Hrq]]%lookup_insert_Some _; [lia|]. apply Hb in Hrq. lia. }
        split; [by destruct p|]. split; [by destruct p; intros k [= <-]|by destruct p].
      * destruct (Hslots j slot Hslot) as (tok & rq & Hp & (Hcur & Hfl & Hlast) & Hrest). exists tok, rq.
        rewrite Hc. split; [done|]. split; [|done]. unfold current_request. rewrite Hr. split_and!; [|done|].
        { rewrite lookup_insert_ne; [done|]. intros <-. by rewrite Hnone in Hcur. }
        intros tok' rq' [[_ <-]|[_ Hrq]]%lookup_insert_Some; [done|by eapply Hlast].
Qed.

Lemma task_moves_wired s t t' : task_moves s t t' → task_wired s t → task_wired s t'.
Proof.
  intros [->|(_ & Hp & _ & e & He & Hd)]; [done|]. intros Hw.
  destruct t' as [| | | | | |e' p']; try done. injection He as ->. split; [done|]. simpl in Hp. subst p'.
  intros tok Htok. destruct t; simpl in *; try done; [|by apply Hw].
  destruct Hw as [Hreq Hperm]. rewrite Hperm in Htok. injection Htok as <-. eauto.
Qed.

Lemma task_event_wired s t e : task_event t = Some e → task_wired s t → dial_ok s e.
Proof. destruct t as [| | | |? ? ? ? []| |]; try done; intros [= <-]; [done|]. by intros []. Qed.

Lemma wire_inv_edit s s' : table_inv s → wire_inv s → edit s s' → wire_inv s'.
Proof.
  intros (Hn & _) Hw He. destruct (slots_wired_edit s s' Hn Hw He) as [Hb' Hs'].
  destruct Hw as (Hb & Hslots & Htasks & Hevents).
  destruct (edit_requested_mono s s' Hn Hb He) as [Hmono Hc].
  assert (Forall (task_wired s') (tasks s)) as Ht1.
  { eapply Forall_impl; [exact Htasks|]. intros t. by apply task_wired_mono. }
  assert (Forall (dial_ok s') (events s)) as Hd1.
  { eapply Forall_impl; [exact Hevents|]. intros e. by apply dial_ok_mono. }
  split; [done|]. split; [done|].
  destruct (edit_tasks_edit s s' Hn He) as [Ht He'|e Ht He'|e Ht He' _ Hd _|i t t' Hi Hm Ht He'|i id tok Hi _ Ht He'
    |i t Hi _ Ht He'|i t e Hi Hev _ Ht He'|ts Hsp _ Ht He'].
  - rewrite He'. split; [|done]. apply Forall_non_timers; [by intros []|]. rewrite Ht.
    apply Forall_non_timers; [by intros []|done].
  - rewrite Ht. rewrite He' in Hd1. apply Forall_cons in Hd1 as [_ Hd1]. done.
  - rewrite Ht, He'. split; [done|]. apply Forall_app. split; [done|]. apply Forall_singleton. by eapply dial_ok_mono.
  - rewrite Ht, He'. split; [|done]. apply Forall_insert; [done|]. eapply task_wired_mono; [done..|].
    eapply task_moves_wired; [done|]. by eapply Forall_lookup_1.
  - rewrite Ht, He'. split; [|done]. apply Forall_insert; [done|]. split; [done|]. done.
  - rewrite Ht, He'. split; [|done]. by apply Forall_delete.
  - rewrite Ht, He'. split; [by apply Forall_delete|]. apply Forall_app. split; [done|]. apply Forall_singleton.
    eapply dial_ok_mono; [done..|]. eapply task_event_wired; [done|]. by eapply Forall_lookup_1.
  - rewrite Ht, He'. split; [|done]. apply Forall_app. split; [done|]. destruct Hsp as [p i target policy Hreq| |].
    + by repeat constructor.
    + by repeat constructor.
    + by repeat constructor.
Qed.
End Wiring.
End Inv.
