(* ===== verification/RelayBudgets.v ===== *)
(** * RelayBudgets: flow permits and buffered bytes of a session

    Every edit conserves the session's share of the global flow budget and of the
    global byte budget, and keeps the byte counters equal to what the command
    channels hold. *)

From S2P Require Import Prelude Wire Varint FrameCodec RustStd TargetCodec RelayPayload Settings FrameIo.
From S2P Require Import Auth Policy Mask Security Budget Dialer RelayState RelayHandlers RelaySession.
From S2P Require Import RelayEdits RelaySim RelayInv.

Module Budgets.
Import Relay Handlers Session Edits Sim Inv.

Section Permits.
Context {P : Platform}.

(** ** Flow permits *)

Lemma elem_of_opt_set x o : x ∈ opt_set o ↔ o = Some x.
Proof. destruct o; simpl; set_solver. Qed.

Lemma elem_of_table_permits x m :
  x ∈ table_permits m ↔ ∃ i slot, m !! i = Some slot ∧ slot_permit slot = Some x.
Proof.
  unfold table_permits. revert x. apply (map_fold_weak_ind (λ acc m, ∀ x, x ∈ acc ↔
    ∃ i slot, m !! i = Some slot ∧ slot_permit slot = Some x)).
  - intros x. split; [set_solver|]. intros (i & slot & Hi & _). by rewrite lookup_empty in Hi.
  - intros i slot m' acc Hi IH x. rewrite elem_of_union, elem_of_opt_set, IH. split.
    + intros [Hx|(j & slot' & Hj & Hx)]; [exists i, slot; by rewrite lookup_insert_eq|].
      exists j, slot'. rewrite lookup_insert_ne; [done|]. intros ->. by rewrite Hi in Hj.
    + intros (j & slot' & [[<- <-]|[_ Hj]]%lookup_insert_Some & Hx); [by left|right; eauto].
Qed.

Lemma elem_of_task_permits x ts : x ∈ task_permits ts ↔ ∃ t, t ∈ ts ∧ task_permit t = Some x.
Proof.
  unfold task_permits. rewrite elem_of_union_list. split.
  - intros (X & (t & -> & Ht)%list_elem_of_fmap & Hx). exists t. split; [done|]. by apply elem_of_opt_set.
  - intros (t & Ht & Hx). exists (opt_set (task_permit t)). split; [|by apply elem_of_opt_set].
    apply list_elem_of_fmap. by exists t.
Qed.

Lemma task_permits_non_timers ts : task_permits (non_timers ts) = task_permits ts.
Proof.
  apply set_eq. intros x. rewrite !elem_of_task_permits. unfold non_timers.
  setoid_rewrite list_elem_of_filter. split; [naive_solver|]. intros (t & Ht & Hp). exists t.
  split; [|done]. split; [by destruct t|done].
Qed.

Lemma task_permits_insert i t t' ts :
  ts !! i = Some t → task_permit t' = task_permit t → task_permits (<[i := t']> ts) = task_permits ts.
Proof.
  intros Hi Hp. unfold task_permits. rewrite list_fmap_insert. f_equal. apply list_insert_id.
  rewrite list_lookup_fmap, Hi. simpl. by rewrite Hp.
Qed.

Lemma task_permits_delete i t ts :
  ts !! i = Some t → task_permits ts = opt_set (task_permit t) ∪ task_permits (delete i ts).
Proof.
  intros Hi. apply set_eq. intros x.
  rewrite elem_of_union, elem_of_opt_set, !elem_of_task_permits.
  assert (ts ≡ₚ t :: delete i ts) as Hp by by apply delete_Permutation.
  setoid_rewrite Hp at 1. setoid_rewrite elem_of_cons. naive_solver.
Qed.

Lemma task_permits_app ts ts' : task_permits (ts ++ ts') = task_permits ts ∪ task_permits ts'.
Proof. unfold task_permits. rewrite fmap_app, union_list_app_L. done. Qed.

Lemma task_permits_cons t ts : task_permits (t :: ts) = opt_set (task_permit t) ∪ task_permits ts.
Proof. done. Qed.
Lemma task_permits_nil : task_permits [] = ∅.
Proof. done. Qed.

Lemma table_permits_delete i slot m :
  m !! i = Some slot → table_permits m = opt_set (slot_permit slot) ∪ table_permits (delete i m).
Proof.
  intros Hi. apply set_eq. intros x. rewrite elem_of_union, elem_of_opt_set, !elem_of_table_permits. split.
  - intros (j & slot' & Hj & Hx). destruct (decide (j = i)) as [->|]; [left; congruence|].
    right. exists j, slot'. by rewrite lookup_delete_ne.
  - intros [Hx|(j & slot' & [_ Hj]%lookup_delete_Some & Hx)]; eauto.
Qed.

Lemma table_permits_replace i slot slot' m :
  m !! i = Some slot → slot_permit slot' = slot_permit slot → table_permits (<[i := slot']> m) = table_permits m.
Proof.
  intros Hi Hp. rewrite (table_permits_delete i slot m), (table_permits_delete i slot') by (done || apply lookup_insert_eq).
  by rewrite delete_insert_eq, Hp.
Qed.

Lemma table_permits_new i slot m :
  m !! i = None → table_permits (<[i := slot]> m) = opt_set (slot_permit slot) ∪ table_permits m.
Proof.
  intros Hi. rewrite (table_permits_delete i slot) by apply lookup_insert_eq.
  by rewrite delete_insert_id.
Qed.

(** The live permits only depend on the table and the tasks that are no timers. *)
Lemma live_permits_eq s s' :
  table s' = table s → non_timers (tasks s') = non_timers (tasks s) → live_permits s' = live_permits s.
Proof.
  intros Ht Hk. unfold live_permits. rewrite Ht, <-(task_permits_non_timers (tasks s')), Hk.
  by rewrite task_permits_non_timers.
Qed.

Lemma drop_permit_live p s : live_permits (drop_permit p s) = live_permits s.
Proof. unfold drop_permit. destruct p; [|done]. by case_decide. Qed.

(** What an edit does to the permits. *)
Inductive permit_edit (s s' : Session) : Prop :=
  | pe_same :
      live_permits s' = live_permits s → global_flows (counts s') = global_flows (counts s) → permit_edit s s'
  | pe_drop p s1 :
      live_permits s = opt_set p ∪ live_permits s1 → global_flows (counts s1) = global_flows (counts s) →
      live_permits s' = live_permits s1 → global_flows (counts s') = global_flows (counts (drop_permit p s1)) →
      permit_edit s s'
  | pe_open :
      live_permits s' = {[ next_token (counts s) ]} ∪ live_permits s →
      Budget.try_acquire (global_flows (counts s)) (global_flow_limit (cfg s)) = Some (global_flows (counts s')) →
      permit_edit s s'.

Lemma pe_drop_last p s s1 :
  live_permits s = opt_set p ∪ live_permits s1 → global_flows (counts s1) = global_flows (counts s) →
  permit_edit s (drop_permit p s1).
Proof. intros Hl Hg. apply (pe_drop _ _ p s1); [done|done|apply drop_permit_live|done]. Qed.

(** Taking a slot out of the table. *)
Lemma live_permits_delete i slot s s1 :
  table s !! i = Some slot → table s1 = delete i (table s) → non_timers (tasks s1) = non_timers (tasks s) →
  live_permits s = opt_set (slot_permit slot) ∪ live_permits s1.
Proof.
  intros Hi Ht Hk. unfold live_permits. rewrite (table_permits_delete i slot) by done.
  rewrite Ht, <-(task_permits_non_timers (tasks s1)), Hk, task_permits_non_timers. by rewrite assoc_L by apply _.
Qed.

(** The last step of dropping a slot gives its permit back. *)
Definition releases (p : option Z) (s s' : Session) : Prop :=
  ∃ s1, s' = drop_permit p s1 ∧ table s1 = table s ∧ non_timers (tasks s1) = non_timers (tasks s) ∧
        global_flows (counts s1) = global_flows (counts s).

Lemma drop_target_flow_releases t s : releases (flow_permit t) s (drop_target_flow t s).
Proof.
  unfold drop_target_flow. pose proof (cancel_timer_tasks t s) as Hk.
  destruct (cancel_half_close_timer t s) as [t' s'] eqn:Hc.
  assert (flow_permit t' = flow_permit t ∧ table s' = table s ∧
          global_flows (counts s') = global_flows (counts s)) as (-> & Ht & Hg).
  { unfold cancel_half_close_timer in Hc. by destruct (half_close_timer t); injection Hc as <- <-. }
  eexists; split; [done|]. by destruct (is_fully_closed t'), (commands t').
Qed.

Lemma drop_slot_releases slot s : releases (slot_permit slot) s (drop_slot slot s).
Proof.
  destruct slot; [by eexists..|apply drop_target_flow_releases|].
  by exists (record (FlowEnded UdpProto) (control_abort (udp_token t) s)).
Qed.

Lemma close_client_keeps t s :
  flow_permit (close_client_to_target t s).1 = flow_permit t ∧
  table (close_client_to_target t s).2 = table s ∧ tasks (close_client_to_target t s).2 = tasks s ∧
  global_flows (counts (close_client_to_target t s).2) = global_flows (counts s).
Proof.
  unfold close_client_to_target, close_client_to_target_queue, try_send.
  destruct (client_to_target_open t); [|done]. destruct (commands _); [|done].
  destruct (negb _); [done|]. by destruct (_ <=? _).
Qed.

Lemma close_slot_releases slot s : releases (slot_permit slot) s (close_slot slot s).
Proof.
  destruct slot as [c|c|t|t]; cbn [close_slot].
  - by exists (cancel_open c s).
  - by exists (cancel_open c s).
  - destruct (close_client_keeps (mark_target_to_client_closed t) s) as (Hp & Ht & Hk & Hg).
    destruct (close_client_to_target _ s) as [t' s']. simpl in *.
    destruct (drop_target_flow_releases t' s') as (s1 & -> & Ht1 & Hk1 & Hg1). exists s1.
    split; [by f_equal|]. split_and!; congruence.
  - by exists (record (FlowEnded UdpProto) (control_abort (udp_token t) (control_abort (udp_token t) s))).
Qed.

Lemma edit_permit_edit s s' : 0 ≤ next_token (counts s) → edit s s' → permit_edit s s'.
Proof.
  intros Hn He. assert (∀ p s1 i slot, table s !! i = Some slot → slot_permit slot = p →
    releases p s1 s' → table s1 = delete i (table s) → tasks s1 = tasks s →
    global_flows (counts s1) = global_flows (counts s) → permit_edit s s') as Hrel.
  { intros p s1 i slot Hi <- (s2 & -> & Ht2 & Hk2 & Hg2) Ht1 Hk1 Hg1. apply pe_drop_last; [|congruence].
    eapply live_permits_delete; [done|congruence..]. }
  destruct He as [s' Hq| |ts n Hts| | | |i t t' Hi (_ & Hp & _)| i t n Hi|i|p i target policy s1 Htk Hf Hd Ha|Htk
    |i c addr cap s2 Htk Hi Hd Hq|i c addr n s2 Htk Hi Hd Hq|i slot Hs Hi| | |i t t' Hi Hm|i t Hi Hw|i t e Hi Hev Hq| | |
    |i id tok s2 Hi Hq|i id tok Hi]; try (by apply pe_same).
  - quiet_fields Hq. apply pe_same; [apply live_permits_eq; congruence|congruence].
  - apply pe_same; [|done]. by apply live_permits_eq.
  - apply pe_same; [|done]. unfold live_permits. simpl. by rewrite (table_permits_replace _ _ _ _ Hi).
  - apply pe_same; [|done]. unfold live_permits. simpl. by rewrite (table_permits_replace _ _ _ _ Hi).
  - unfold remove_flow_slot in *. destruct (table s !! i) as [slot|] eqn:Hi; [|by apply pe_same].
    eapply (Hrel _ _ i slot Hi eq_refl); [apply drop_slot_releases|by destruct slot..].
  - destruct (acquired_with _ _ Ha) as (n & Hacq & ->). apply pe_open; [|done]. rewrite begin_open_state.
    destruct Hf as (_ & Hi & _). unfold live_permits. simpl. rewrite table_permits_new by done.
    rewrite task_permits_app, task_permits_cons, task_permits_nil.
    destruct p; cbn [slot_permit task_permit open_permit opt_set]; clear; set_solver.
  - quiet_fields Hq. apply pe_same; [|simpl; by rewrite (quiet_counts _ _ Hq)]. unfold live_permits. simpl.
    rewrite (quiet_tasks _ _ Hq), !task_permits_app.
    replace (table s2) with (table s) by done. rewrite (table_permits_replace _ _ _ _ Hi) by done.
    rewrite ?task_permits_cons, task_permits_nil. cbn [task_permit opt_set]. clear; set_solver.
  - quiet_fields Hq. apply pe_same; [|simpl; by rewrite (quiet_counts _ _ Hq)]. unfold live_permits. simpl.
    rewrite (quiet_tasks _ _ Hq), !task_permits_app.
    replace (table s2) with (table s) by done. rewrite (table_permits_replace _ _ _ _ Hi) by done.
    rewrite ?task_permits_cons, task_permits_nil. cbn [task_permit opt_set]. clear; set_solver.
  - eapply (Hrel _ _ i slot Hi eq_refl); [apply close_slot_releases|done..].
  - apply pe_same; [|done]. unfold live_permits. simpl. rewrite (task_permits_insert _ t); [done|done|].
    destruct Hm as [->|(_ & Hm & _)]; done.
  - apply pe_drop_last; [|done]. unfold live_permits. simpl. rewrite (task_permits_delete i t) by done. clear; set_solver.
  - apply pe_drop_last; [|done]. unfold live_permits. simpl. rewrite (task_permits_delete i t) by done. clear; set_solver.
  - quiet_fields Hq. frame_fields (drop_channel_beside tok s). apply pe_same; [|simpl; congruence].
    unfold live_permits. simpl. rewrite (task_permits_insert _ (TargetWriter id tok)); [congruence|congruence|done].
  - frame_fields (drop_channel_beside tok (with_tasks (delete i (tasks s)) s)). apply pe_same; [|done].
    transitivity (live_permits (with_tasks (delete i (tasks s)) s)); [apply live_permits_eq; [done|by f_equal]|].
    unfold live_permits. rewrite (task_permits_delete i _ _ Hi). cbn [task_permit opt_set].
    by rewrite (left_id_L ∅ (∪)).
Qed.

(** What the rest of the process holds of the global flow budget. *)
Definition other_flows (s : Session) : Z := global_flows (counts s) - Z.of_nat (size (live_permits s)).

(** The session's permits are counted in the global budget, within its limit. *)
Definition permit_inv (s : Session) : Prop :=
  Z.of_nat (size (live_permits s)) ≤ global_flows (counts s) ≤ global_flow_limit (cfg s).

Lemma live_permit_requested s tok : wire_inv s → tok ∈ live_permits s → is_Some (requested s !! tok).
Proof.
  intros (_ & Hslots & Htasks & _). unfold live_permits. rewrite elem_of_union.
  intros [(i & slot & Hi & Hp)%elem_of_table_permits|(t & Ht & Hp)%elem_of_task_permits].
  - destruct (Hslots i slot Hi) as (tok' & rq & Hp' & (Hrq & _) & _). rewrite Hp in Hp'. injection Hp' as <-. eauto.
  - rewrite Forall_forall in Htasks. specialize (Htasks t Ht). destruct t; try done; simpl in *.
    + destruct Htasks as [Hrq Ho]. rewrite Ho in Hp. injection Hp as <-. eauto.
    + by apply Htasks.
Qed.

Lemma drop_permit_conserves p s s1 :
  live_permits s = opt_set p ∪ live_permits s1 → global_flows (counts s1) = global_flows (counts s) →
  Z.of_nat (size (live_permits s)) ≤ global_flows (counts s) →
  global_flows (counts (drop_permit p s1)) - Z.of_nat (size (live_permits s1)) = other_flows s.
Proof.
  intros Hl Hg Hle. unfold other_flows. rewrite Hl in *. unfold drop_permit. destruct p as [x|]; cbn [opt_set] in *.
  - case_decide as Hx.
    + rewrite (subseteq_union_1_L {[x]}) by set_solver. lia.
    + rewrite size_union in * by set_solver. rewrite size_singleton in *.
      simpl. unfold Budget.permit_drop, Budget.release_bytes. lia.
  - rewrite (left_id_L ∅ (∪)) in *. lia.
Qed.

Lemma permits_edit s s' :
  table_inv s → wire_inv s → permit_inv s → edit s s' →
  permit_inv s' ∧ other_flows s' = other_flows s.
Proof.
  intros (Hn & _) Hw [Hle Hlim] He. destruct (edit_table_edit s s' Hn He) as [Hc _].
  unfold permit_inv. rewrite Hc.
  destruct (edit_permit_edit s s' Hn He) as [Hl Hg|p s1 Hl Hg Hl' Hg'|Hl Hacq].
  - unfold other_flows. by rewrite Hl, Hg.
  - pose proof (drop_permit_conserves p s s1 Hl Hg Hle) as Hcon. unfold other_flows in *. rewrite Hl', Hg'.
    assert (Z.of_nat (size (live_permits s1)) ≤ Z.of_nat (size (live_permits s))) by
      (apply inj_le, subseteq_size; rewrite Hl; set_solver).
    split; lia.
  - assert (next_token (counts s) ∉ live_permits s) as Hfresh.
    { intros [rq Hrq]%live_permit_requested; [|done]. destruct Hw as (Hb & _). apply Hb in Hrq. lia. }
    unfold Budget.try_acquire in Hacq. rewrite Budget.reserve_bytes_spec in Hacq.
    case_decide; [|done]. injection Hacq as Hacq. unfold other_flows.
    rewrite Hl, size_union, size_singleton by set_solver. split; lia.
Qed.
End Permits.

Section Bytes.
Context {P : Platform}.

(** ** Buffered bytes *)

Definition queued_bytes (q : list TargetCommand) : Z := zlen (mjoin (command_bytes <$> q)).
(** What a channel holds, the payload in the writer's hands included. *)
Definition held_bytes (c : Channel) : Z :=
  match writing c with Some p => zlen p | None => 0 end + queued_bytes (queue c).
Definition total_bytes (m : gmap Z Channel) : Z := map_fold (λ _ c acc, held_bytes c + acc) 0 m.

Lemma queued_bytes_cons cmd q : queued_bytes (cmd :: q) = zlen (command_bytes cmd) + queued_bytes q.
Proof.
  unfold queued_bytes. rewrite fmap_cons. change (mjoin (?x :: ?l)) with (x ++ mjoin l).
  rewrite length_app. lia.
Qed.
Lemma queued_bytes_snoc cmd q : queued_bytes (q ++ [cmd]) = queued_bytes q + zlen (command_bytes cmd).
Proof.
  unfold queued_bytes. rewrite fmap_app, join_app, length_app. simpl. rewrite app_nil_r. lia.
Qed.
Lemma held_bytes_nonneg c : 0 ≤ held_bytes c.
Proof. unfold held_bytes, queued_bytes. destruct (writing c); lia. Qed.

Lemma total_bytes_new tok c m : m !! tok = None → total_bytes (<[tok := c]> m) = held_bytes c + total_bytes m.
Proof. intros Hm. unfold total_bytes. rewrite map_fold_insert_L; [done| |done]. intros. lia. Qed.

Lemma total_bytes_delete tok c m :
  m !! tok = Some c → total_bytes m = held_bytes c + total_bytes (delete tok m).
Proof.
  intros Hm. rewrite <-(insert_delete_id m tok c Hm) at 1. by rewrite total_bytes_new by apply lookup_delete_eq.
Qed.

Definition held_at (m : gmap Z Channel) (tok : Z) : Z := from_option held_bytes 0 (m !! tok).

Lemma total_bytes_insert tok c m :
  total_bytes (<[tok := c]> m) = total_bytes m - held_at m tok + held_bytes c.
Proof.
  unfold held_at. rewrite (total_bytes_delete tok c) by apply lookup_insert_eq. rewrite delete_insert_eq.
  destruct (m !! tok) as [c0|] eqn:Hm; simpl; [rewrite (total_bytes_delete tok c0 m) by done; lia|].
  rewrite delete_id by done. lia.
Qed.

Lemma total_bytes_nonneg m : 0 ≤ total_bytes m.
Proof.
  induction m as [|tok c m Hm IH] using map_ind; [done|]. rewrite total_bytes_new by done.
  pose proof (held_bytes_nonneg c). lia.
Qed.

Lemma held_at_le_total m tok : 0 ≤ held_at m tok ≤ total_bytes m.
Proof.
  unfold held_at. destruct (m !! tok) as [c|] eqn:Hm; simpl; [|split; [done|apply total_bytes_nonneg]].
  rewrite (total_bytes_delete tok c m) by done. pose proof (held_bytes_nonneg c). pose proof (total_bytes_nonneg (delete tok m)). lia.
Qed.

Lemma held_at_channel s tok : held_at (channels (heap s)) tok = held_bytes (channel_of s tok).
Proof. unfold held_at, channel_of. by destruct (channels (heap s) !! tok). Qed.

(** [n] bytes of the flow [tok] are given back. *)
Definition gives_back (tok n : Z) (s s' : Session) : Prop :=
  buffered_bytes (control_of s' tok) = buffered_bytes (control_of s tok) - n ∧
  session_bytes (counts s') = session_bytes (counts s) - n ∧
  global_bytes (counts s') = global_bytes (counts s) - n ∧
  (∀ tok', tok' ≠ tok → control_of s' tok' = control_of s tok').

(** The counters cover [n] bytes of the flow. *)
Definition covers (tok n : Z) (s : Session) : Prop :=
  n ≤ buffered_bytes (control_of s tok) ∧ n ≤ session_bytes (counts s) ∧ n ≤ global_bytes (counts s).

Lemma drop_data_bytes tok p s : covers tok (zlen p) s → gives_back tok (zlen p) s (drop_data tok p s).
Proof.
  intros (Hf & Hs & Hg). unfold gives_back, drop_data. rewrite control_of_put_counters, decide_True by done. simpl.
  unfold Budget.release_bytes. split_and!; [lia..|].
  intros tok' Ht. by rewrite control_of_put_counters, decide_False.
Qed.

Lemma gives_back_trans tok m n s1 s2 s3 :
  gives_back tok m s1 s2 → gives_back tok n s2 s3 → gives_back tok (m + n) s1 s3.
Proof.
  intros (Hf1 & Hs1 & Hg1 & Ho1) (Hf2 & Hs2 & Hg2 & Ho2). unfold gives_back. split_and!; [lia..|].
  intros tok' Ht. by rewrite Ho2, Ho1.
Qed.

Lemma drop_commands_bytes tok q : ∀ s,
  covers tok (queued_bytes q) s →
  gives_back tok (queued_bytes q) s (foldl (λ s cmd, drop_command tok cmd s) s q).
Proof.
  induction q as [|cmd q IH]; intros s (Hf & Hs & Hg); cbn [foldl].
  - change (queued_bytes []) with 0. unfold gives_back. rewrite !Z.sub_0_r. done.
  - rewrite queued_bytes_cons in *. assert (0 ≤ queued_bytes q) by (unfold queued_bytes; lia).
    destruct cmd as [p|]; simpl drop_command.
    + cbn [command_bytes] in *.
      assert (gives_back tok (zlen p) s (drop_data tok p s)) as Hd by (apply drop_data_bytes; unfold covers; lia).
      eapply gives_back_trans; [exact Hd|]. destruct Hd as (Hf1 & Hs1 & Hg1 & _). apply IH. unfold covers. lia.
    + change (zlen (command_bytes Close)) with 0 in *. rewrite !Z.add_0_l in *. by apply IH.
Qed.

Lemma drop_commands_channels tok q s :
  channels (heap (foldl (λ s cmd, drop_command tok cmd s) s q)) = channels (heap s).
Proof. revert s. induction q as [|[p|] q IH]; intros s; [done| |apply IH]. cbn [foldl drop_command]. by rewrite IH. Qed.

(** A channel whose writer is gone. *)
Definition dropped (c : Channel) : Channel :=
  {| queue := []; capacity := capacity c; sender := sender c; receiver := false; writing := None;
     written := written c; accepted := accepted c |}.

Lemma channel_of_put tok c s k :
  channel_of (put_channel tok c s) k = if decide (tok = k) then c else channel_of s k.
Proof.
  unfold channel_of, put_channel. simpl. case_decide as Hk; [subst; by rewrite lookup_insert_eq|].
  by rewrite lookup_insert_ne.
Qed.

Lemma channel_of_insert tok c s s' k :
  channels (heap s') = <[tok := c]> (channels (heap s)) →
  channel_of s' k = if decide (k = tok) then c else channel_of s k.
Proof.
  intros Hc. unfold channel_of. rewrite Hc. case_decide; [subst; by rewrite lookup_insert_eq|by rewrite lookup_insert_ne].
Qed.

Lemma drop_channel_bytes tok s :
  covers tok (held_bytes (channel_of s tok)) s →
  gives_back tok (held_bytes (channel_of s tok)) s (drop_channel tok s) ∧
  channels (heap (drop_channel tok s)) = <[tok := dropped (channel_of s tok)]> (channels (heap s)).
Proof.
  intros (Hf & Hs & Hg). unfold held_bytes in *. assert (0 ≤ queued_bytes (queue (channel_of s tok))) by (unfold queued_bytes; lia).
  unfold drop_channel, drop_writing. destruct (writing (channel_of s tok)) as [p|] eqn:Hw.
  - set (s0 := put_queue tok (queue (channel_of s tok)) None s).
    assert (channel_of s0 tok = {| queue := queue (channel_of s tok); capacity := capacity (channel_of s tok);
      sender := sender (channel_of s tok); receiver := receiver (channel_of s tok); writing := None;
      written := written (channel_of s tok); accepted := accepted (channel_of s tok) |}) as Hc0.
    { unfold s0, put_queue. by rewrite channel_of_put, decide_True. }
    assert (gives_back tok (zlen p) s (drop_data tok p s0)) as Hd.
    { apply (drop_data_bytes tok p s0). unfold covers. change (control_of s0) with (control_of s).
      change (counts s0) with (counts s). lia. }
    unfold drop_receiver. change (channel_of (drop_data tok p s0) tok) with (channel_of s0 tok). rewrite Hc0.
    cbn [queue capacity sender written accepted]. split.
    + pose proof Hd as (Hf1 & Hs1 & Hg1 & _). refine (gives_back_trans _ _ _ _ _ _ Hd _).
      apply (drop_commands_bytes tok (queue (channel_of s tok)) (drop_data tok p s0)). unfold covers. lia.
    + simpl. rewrite drop_commands_channels. simpl. by rewrite insert_insert_eq.
  - unfold drop_receiver. split.
    + rewrite Z.add_0_l in *. by apply (drop_commands_bytes tok (queue (channel_of s tok)) s).
    + simpl. by rewrite drop_commands_channels.
Qed.

(** A channel nobody uses yet. *)
Definition idle (c : Channel) : Prop :=
  queue c = [] ∧ writing c = None ∧ receiver c = false ∧ written c = [] ∧ accepted c = [].

(** The counters say what the channels hold, and respect every limit. *)
Definition bytes_inv (s : Session) : Prop :=
  (∀ tok, buffered_bytes (control_of s tok) = held_bytes (channel_of s tok)) ∧
  session_bytes (counts s) = total_bytes (channels (heap s)) ∧
  session_bytes (counts s) ≤ global_bytes (counts s) ≤ global_buffer_limit (cfg s) ∧
  (∀ tok, buffered_bytes (control_of s tok) ≤ max_buffered_bytes_per_flow (limits (cfg s))) ∧
  session_bytes (counts s) ≤ max_buffered_bytes_per_session (limits (cfg s)) ∧
  (∀ tok, next_token (counts s) ≤ tok → idle (channel_of s tok)).

(** A channel that at most loses its sender or gets close commands. *)
Definition calm (s' : Session) (tok : Z) (c c' : Channel) : Prop :=
  ∃ n, queue c' = queue c ++ replicate n Close ∧ (n ≠ 0%nat → receiver c = true ∧ is_closed s' tok = true) ∧
       receiver c' = receiver c ∧ writing c' = writing c ∧ written c' = written c ∧ accepted c' = accepted c.

Definition set_queue (q : list TargetCommand) (w : option Bytes) (c : Channel) : Channel :=
  {| queue := q; capacity := capacity c; sender := sender c; receiver := receiver c; writing := w;
     written := written c; accepted := accepted c |}.

(** How one channel changes otherwise; [d] is what it holds more. *)
Inductive chan_move (s s' : Session) (tok : Z) (c : Channel) : Channel → Z → Prop :=
  | cm_new cap : tok = next_token (counts s) → next_token (counts s') = tok + 1 →
      (∃ i, TargetWriter i tok ∈ tasks s') →
      chan_move s s' tok c (channel_new cap) 0
  | cm_take payload q : writing c = None → queue c = Data payload :: q →
      chan_move s s' tok c (set_queue q (Some payload) c) 0
  | cm_take_close q : writing c = None → queue c = Close :: q → chan_move s s' tok c (set_queue q None c) 0
  | cm_enqueue payload :
      receiver c = true → is_closed s tok = false →
      buffered_bytes (control_of s' tok) ≤ max_buffered_bytes_per_flow (limits (cfg s)) →
      session_bytes (counts s') ≤ max_buffered_bytes_per_session (limits (cfg s)) →
      global_bytes (counts s') ≤ global_buffer_limit (cfg s) →
      chan_move s s' tok c {| queue := queue c ++ [Data payload]; capacity := capacity c; sender := sender c;
        receiver := receiver c; writing := writing c; written := written c; accepted := accepted c ++ payload |}
        (zlen payload)
  | cm_written payload : writing c = Some payload →
      chan_move s s' tok c {| queue := queue c; capacity := capacity c; sender := sender c;
        receiver := receiver c; writing := None; written := written c ++ payload; accepted := accepted c |}
        (- zlen payload)
  | cm_drop :
      is_aborted s' tok = true ∨ shutdown (io s') = true ∨
        (writing c = None ∧ Forall (λ cmd, cmd = Close) (queue c)) →
      chan_move s s' tok c (dropped c) (- held_bytes c).

(** What an edit does to channels and byte counters. *)
Inductive heap_edit (s s' : Session) : Prop :=
  | he_calm :
      (∀ tok, calm s' tok (channel_of s tok) (channel_of s' tok)) →
      total_bytes (channels (heap s')) = total_bytes (channels (heap s)) →
      (∀ tok, buffered_bytes (control_of s' tok) = buffered_bytes (control_of s tok)) →
      session_bytes (counts s') = session_bytes (counts s) →
      global_bytes (counts s') = global_bytes (counts s) → heap_edit s s'
  | he_move tok c' d :
      chan_move s s' tok (channel_of s tok) c' d →
      channels (heap s') = <[tok := c']> (channels (heap s)) →
      (∀ tok', buffered_bytes (control_of s' tok') =
               buffered_bytes (control_of s tok') + if decide (tok' = tok) then d else 0) →
      session_bytes (counts s') = session_bytes (counts s) + d →
      global_bytes (counts s') = global_bytes (counts s) + d → heap_edit s s'.

Lemma chan_move_held s s' tok c c' d :
  chan_move s s' tok c c' d → (tok = next_token (counts s) → idle c) → held_bytes c' = held_bytes c + d.
Proof.
  intros Hm Hidle. destruct Hm as [cap Htok _ _|payload q Hw Hq|q Hw Hq|payload _ _ _ _ _|payload Hw|_].
  - destruct (Hidle Htok) as (Hq & Hw & _). unfold held_bytes. by rewrite Hq, Hw.
  - unfold held_bytes. simpl. rewrite Hw, Hq, queued_bytes_cons. simpl. lia.
  - unfold held_bytes. simpl. rewrite Hw, Hq, queued_bytes_cons. simpl. lia.
  - unfold held_bytes. simpl. rewrite queued_bytes_snoc. simpl. lia.
  - unfold held_bytes. simpl. rewrite Hw. lia.
  - change (held_bytes (dropped c)) with 0. lia.
Qed.

Lemma calm_held s' tok c c' : calm s' tok c c' → held_bytes c' = held_bytes c.
Proof.
  intros (n & Hq & _ & _ & Hw & _). unfold held_bytes. rewrite Hw, Hq. f_equal. clear.
  induction n as [|n IH]; [by rewrite app_nil_r|]. rewrite replicate_S_end, assoc, queued_bytes_snoc, IH by apply _.
  simpl. lia.
Qed.

Definition calms (s s' : Session) : Prop :=
  (∀ tok, calm s' tok (channel_of s tok) (channel_of s' tok)) ∧
  total_bytes (channels (heap s')) = total_bytes (channels (heap s)) ∧
  (∀ tok, buffered_bytes (control_of s' tok) = buffered_bytes (control_of s tok)) ∧
  session_bytes (counts s') = session_bytes (counts s) ∧ global_bytes (counts s') = global_bytes (counts s) ∧
  (∀ tok, is_closed s tok = true → is_closed s' tok = true) ∧
  (∀ tok, is_aborted s tok = true → is_aborted s' tok = true).

Lemma calm_refl s' tok c : calm s' tok c c.
Proof. exists 0%nat. by rewrite app_nil_r. Qed.

#[global] Instance calms_preorder : PreOrder calms.
Proof.
  split; [intros s; split_and!; try done; intros tok; apply calm_refl|].
  intros s1 s2 s3 (Hc & Ht & Hb & Hs & Hg & Hcl & Hab) (Hc' & Ht' & Hb' & Hs' & Hg' & Hcl' & Hab').
  split_and!; [|congruence|intros; by rewrite Hb'|congruence|congruence|auto|auto].
  intros tok. destruct (Hc tok) as (n & Hq & Hn & Hr & Hw & Hwr & Ha).
  destruct (Hc' tok) as (n' & Hq' & Hn' & Hr' & Hw' & Hwr' & Ha'). exists (n + n')%nat.
  rewrite replicate_add, (assoc_L (++)), <-Hq. split_and!; [done| |congruence..].
  intros Hne. destruct (decide (n' = 0%nat)) as [->|Hn'0].
  - destruct Hn as [Hr1 Hcl1]; [lia|]. split; [done|by apply Hcl'].
  - destruct (Hn' Hn'0) as [Hr1 Hcl1]. split; [congruence|done].
Qed.

Lemma heap_calms s s' :
  heap s' = heap s → session_bytes (counts s') = session_bytes (counts s) →
  global_bytes (counts s') = global_bytes (counts s) → calms s s'.
Proof.
  intros Hh Hs Hg. unfold calms, channel_of, is_closed, is_aborted, control_of. rewrite Hh.
  split_and!; try done. intros tok. apply calm_refl.
Qed.

Lemma quiet_calms s s' : quiet s s' → calms s s'.
Proof.
  intros Hq. pose proof Hq as (_ & Hb & Hf & _). quiet_fields Hq. unfold calms, channel_of.
  split_and!; [|congruence|done|congruence|congruence|apply Hf|apply Hf].
  replace (channels (heap s')) with (channels (heap s)) by done. intros tok. apply calm_refl.
Qed.

Lemma put_calms tok c s :
  calm (put_channel tok c s) tok (channel_of s tok) c → calms s (put_channel tok c s).
Proof.
  intros Hc. split_and!; try done.
  - intros k. rewrite channel_of_put. case_decide; [by subst|apply calm_refl].
  - simpl. rewrite total_bytes_insert, held_at_channel, (calm_held _ _ _ _ Hc). lia.
Qed.

Lemma drop_sender_calms tok s : calms s (drop_sender tok s).
Proof. apply put_calms. exists 0%nat. by rewrite app_nil_r. Qed.

Lemma push_close_calms tok s :
  receiver (channel_of s tok) = true → is_closed s tok = true → calms s (push_command tok Close s).
Proof. intros Hr Hc. apply put_calms. exists 1%nat. simpl. by rewrite app_nil_r. Qed.

Lemma drop_permit_calms p s : calms s (drop_permit p s).
Proof. unfold drop_permit. destruct p; [|done]. case_decide; [done|by apply heap_calms]. Qed.

Lemma drop_target_flow_calms t s : calms s (drop_target_flow t s).
Proof.
  unfold drop_target_flow. destruct (cancel_half_close_timer t s) as [t' s'] eqn:Hc.
  etrans; [|apply drop_permit_calms]. etrans; [|apply quiet_calms, record_quiet].
  assert (calms s s') as H1.
  { unfold cancel_half_close_timer in Hc. destruct (half_close_timer t); injection Hc as <- <-; [|done].
    by apply heap_calms. }
  etrans; [exact H1|]. etrans; [|destruct (commands t'); [apply drop_sender_calms|reflexivity]].
  destruct (is_fully_closed t'); [done|apply quiet_calms, control_abort_quiet].
Qed.

Lemma drop_udp_flow_calms t s : calms s (drop_udp_flow t s).
Proof.
  unfold drop_udp_flow. etrans; [|apply drop_permit_calms]. etrans; [|apply quiet_calms, record_quiet].
  apply quiet_calms, control_abort_quiet.
Qed.

Lemma remove_flow_slot_calms i s : calms s (remove_flow_slot i s).
Proof.
  unfold remove_flow_slot. destruct (table s !! i) as [[c|c|t|t]|]; cbn [drop_slot]; [..|done].
  - etrans; [|apply drop_permit_calms]. by apply heap_calms.
  - etrans; [|apply drop_permit_calms]. by apply heap_calms.
  - etrans; [|apply drop_target_flow_calms]. by apply heap_calms.
  - etrans; [|apply drop_udp_flow_calms]. by apply heap_calms.
Qed.

Lemma close_client_calms t s : calms s (close_client_to_target t s).2.
Proof.
  unfold close_client_to_target. destruct (client_to_target_open t); [|done].
  unfold close_client_to_target_queue. set (t1 := set_sides _ _ _ t). set (s1 := control_close (token t1) s).
  etrans; [apply quiet_calms, (control_close_quiet (token t1))|]. fold s1.
  destruct (commands t1); [|done]. pose proof (try_send_spec (token t1) Close s1) as Hs.
  destruct (try_send _ _ _) as [[] s2]; [|subst s2; apply drop_sender_calms..].
  destruct Hs as [Hr ->]. apply push_close_calms; [done|apply is_closed_control_close].
Qed.

Lemma close_slot_calms slot s : calms s (close_slot slot s).
Proof.
  destruct slot as [c|c|t|t]; cbn [close_slot].
  - etrans; [|apply drop_permit_calms]. by apply heap_calms.
  - etrans; [|apply drop_permit_calms]. by apply heap_calms.
  - pose proof (close_client_calms (mark_target_to_client_closed t) s) as Hc.
    destruct (close_client_to_target _ s) as [t' s']. etrans; [exact Hc|apply drop_target_flow_calms].
  - etrans; [apply quiet_calms, (control_abort_quiet (udp_token t))|apply drop_udp_flow_calms].
Qed.

Lemma calms_heap_edit s s' : calms s s' → heap_edit s s'.
Proof. intros (? & ? & ? & ? & ? & _). apply he_calm; auto. Qed.

Lemma bytes_inv_covers s tok : bytes_inv s → covers tok (held_bytes (channel_of s tok)) s.
Proof.
  intros (Hb & Hs & [Hg _] & _). unfold covers. rewrite Hb, <-held_at_channel.
  pose proof (held_at_le_total (channels (heap s)) tok). lia.
Qed.

Lemma bytes_inv_counters s tok : bytes_inv s → counters_ok s tok.
Proof.
  intros (Hb & Hs & [Hg _] & _). unfold counters_ok. rewrite Hb, Hs in *.
  pose proof (held_bytes_nonneg (channel_of s tok)). pose proof (total_bytes_nonneg (channels (heap s))). lia.
Qed.

Lemma gives_back_buffered tok n s s' k :
  gives_back tok n s s' →
  buffered_bytes (control_of s' k) = buffered_bytes (control_of s k) + if decide (k = tok) then - n else 0.
Proof.
  intros (Hf & _ & _ & Ho). case_decide as Hk; [subst; lia|]. rewrite Ho by done. lia.
Qed.

Lemma fresh_control_calms s : bytes_inv s → 0 ≤ next_token (counts s) →
  heap (fresh_control s) = {| controls := <[next_token (counts s) := control_new]> (controls (heap s));
                              channels := channels (heap s) |} ∧
  (∀ tok, buffered_bytes (control_of (fresh_control s) tok) = buffered_bytes (control_of s tok)).
Proof.
  intros (Hb & _ & _ & _ & _ & Hidle) Hn. split; [done|]. intros tok. unfold fresh_control. cbn [next_flow_token].
  rewrite control_of_put. case_decide as Hk; [subst tok|done].
  rewrite Hb. destruct (Hidle (next_token (counts s))) as (Hq & Hw & _); [done|]. unfold held_bytes. by rewrite Hq, Hw.
Qed.

Lemma heap_move tok c' d s s' :
  chan_move s s' tok (channel_of s tok) c' d →
  channels (heap s') = <[tok := c']> (channels (heap s)) →
  gives_back tok (- d) s s' → heap_edit s s'.
Proof.
  intros Hm Hc Hg. apply (he_move _ _ tok c' d Hm Hc).
  - intros k. rewrite (gives_back_buffered _ _ _ _ k Hg). case_decide; lia.
  - destruct Hg as (_ & Hs & _). lia.
  - destruct Hg as (_ & _ & Hg & _). lia.
Qed.

Lemma gives_back_none tok s s' :
  (∀ k, control_of s' k = control_of s k) → session_bytes (counts s') = session_bytes (counts s) →
  global_bytes (counts s') = global_bytes (counts s) → gives_back tok (- 0) s s'.
Proof. intros Hc Hs Hg. unfold gives_back. rewrite Hc. split_and!; try lia. auto. Qed.

Lemma written_heap_edit tok payload s :
  bytes_inv s → writing (channel_of s tok) = Some payload →
  heap_edit s (drop_data tok payload (push_written tok payload s)).
Proof.
  intros Hinv Hw. pose proof (bytes_inv_covers s tok Hinv) as (Hf & Hs & Hg). unfold held_bytes in Hf, Hs, Hg.
  rewrite Hw in Hf, Hs, Hg. assert (0 ≤ queued_bytes (queue (channel_of s tok))) by (unfold queued_bytes; lia).
  refine (heap_move tok _ (- zlen payload) _ _ (cm_written _ _ _ _ payload Hw) _ _); [done|].
  rewrite Z.opp_involutive. refine (drop_data_bytes tok payload (push_written tok payload s) _).
  split_and!; simpl; [|lia..]. change (control_of (push_written _ _ ?x)) with (control_of x). lia.
Qed.

Lemma drop_heap_edit tok s s1 s2 :
  bytes_inv s → heap s1 = heap s → session_bytes (counts s1) = session_bytes (counts s) →
  global_bytes (counts s1) = global_bytes (counts s) → quiet (drop_channel tok s1) s2 →
  is_aborted s2 tok = true ∨ shutdown (io s2) = true ∨
    (writing (channel_of s tok) = None ∧ Forall (λ cmd, cmd = Close) (queue (channel_of s tok))) →
  ∀ s3, heap s3 = heap s2 → counts s3 = counts s2 → io s3 = io s2 → heap_edit s s3.
Proof.
  intros Hinv Hh Hs Hg Hq Hreason s3 Hh3 Hc3 Hio3.
  assert (channel_of s1 = channel_of s ∧ control_of s1 = control_of s) as [Hch Hco]
    by (unfold channel_of, control_of; by rewrite Hh).
  destruct (drop_channel_bytes tok s1) as [Hgb Hchan].
  { unfold covers. rewrite Hch, Hco, Hs, Hg. by apply bytes_inv_covers. }
  rewrite Hch, Hh in *. quiet_fields Hq. destruct Hq as (_ & Hbuf & _).
  destruct Hgb as (Hf & Hse & Hgl & Ho).
  apply (he_move _ _ tok (dropped (channel_of s tok)) (- held_bytes (channel_of s tok))).
  - apply cm_drop. unfold is_aborted, control_of in *. by rewrite Hh3, Hio3.
  - by rewrite Hh3, <-Hchan.
  - intros k. unfold control_of at 1. rewrite Hh3. fold (control_of s2 k). rewrite Hbuf.
    case_decide as Hk; [subst k; rewrite Hf, Hco; lia|]. rewrite Ho, Hco by done. lia.
  - rewrite Hc3. replace (counts s2) with (counts (drop_channel tok s1)) by done. lia.
  - rewrite Hc3. replace (counts s2) with (counts (drop_channel tok s1)) by done. lia.
Qed.

Lemma enqueue_heap_edit tok payload b s :
  bytes_inv s → receiver (channel_of s tok) = true → is_closed s tok = false →
  Budget.control_reserve (counters_of s tok) (zlen payload) (max_buffered_bytes_per_flow (limits (cfg s)))
    (max_buffered_bytes_per_session (limits (cfg s))) (global_buffer_limit (cfg s)) = (true, b) →
  heap_edit s (push_command tok (Data payload) (put_counters tok b s)).
Proof.
  intros Hinv Hr Hcl Hres. destruct (bytes_inv_counters s tok Hinv) as (Hf & Hs & Hg).
  pose proof (Budget.control_reserve_cases (counters_of s tok) (zlen payload)
    (max_buffered_bytes_per_flow (limits (cfg s))) (max_buffered_bytes_per_session (limits (cfg s)))
    (global_buffer_limit (cfg s)) Hf Hs Hg) as Hc. rewrite Hres in Hc. destruct Hc as [-> (Hl1 & Hl2 & Hl3)].
  set (s' := push_command _ _ _).
  assert (∀ k, buffered_bytes (control_of s' k) =
               buffered_bytes (control_of s k) + if decide (k = tok) then zlen payload else 0) as Hbuf.
  { intros k. unfold s', push_command. change (control_of (put_channel _ _ ?x) k) with (control_of x k).
    rewrite control_of_put_counters. destruct (decide (tok = k)) as [->|]; [by rewrite decide_True|].
    rewrite decide_False by done. lia. }
  eapply (he_move s s' tok _ (zlen payload)); [|reflexivity|exact Hbuf|reflexivity|reflexivity].
  apply (cm_enqueue _ _ _ _ payload Hr Hcl); [|exact Hl2|exact Hl3]. rewrite Hbuf, decide_True by done. exact Hl1.
Qed.

Lemma accept_heap_edit s s2 s3 cap :
  bytes_inv s → 0 ≤ next_token (counts s) → tokens_left s → quiet (fresh_control s) s2 →
  channels (heap s3) = <[next_token (counts s) := channel_new cap]> (channels (heap s2)) →
  controls (heap s3) = controls (heap s2) → counts s3 = counts s2 →
  (∃ i, TargetWriter i (next_token (counts s)) ∈ tasks s3) → heap_edit s s3.
Proof.
  intros Hinv Hn Htk Hq Hch Hco Hct Hw. destruct (fresh_control_calms s Hinv Hn) as [Hh Hb].
  pose proof (quiet_counts _ _ Hq) as Hc2. quiet_fields Hq. destruct Hq as (_ & Hbuf & _).
  apply (he_move _ _ (next_token (counts s)) (channel_new cap) 0).
  - apply cm_new; [done| |done]. rewrite Hct, Hc2. simpl. by apply next_token_succ.
  - rewrite Hch. by f_equal.
  - intros k. unfold control_of at 1. rewrite Hco. fold (control_of s2 k). rewrite Hbuf, Hb. case_decide; lia.
  - rewrite Hct, Hc2. simpl. lia.
  - rewrite Hct, Hc2. simpl. lia.
Qed.

Lemma fresh_heap_edit s s3 s2 :
  bytes_inv s → 0 ≤ next_token (counts s) → quiet (fresh_control s) s2 → heap s3 = heap s2 →
  counts s3 = counts s2 → heap_edit s s3.
Proof.
  intros Hinv Hn Hq Hh3 Hc3. destruct (fresh_control_calms s Hinv Hn) as [Hh Hb].
  pose proof (quiet_counts _ _ Hq) as Hc2. quiet_fields Hq. destruct Hq as (_ & Hbuf & _).
  apply he_calm.
  - intros tok. unfold channel_of. rewrite Hh3. replace (channels (heap s2)) with (channels (heap s)) by done.
    apply calm_refl.
  - rewrite Hh3. by f_equal.
  - intros tok. unfold control_of at 1. rewrite Hh3. fold (control_of s2 tok). by rewrite Hbuf, Hb.
  - by rewrite Hc3, Hc2.
  - by rewrite Hc3, Hc2.
Qed.

Lemma edit_heap_edit s s' : table_inv s → bytes_inv s → edit s s' → heap_edit s s'.
Proof.
  intros (Hn & _) Hinv. destruct 1 as [s' Hq| |ts n Hts|tok Hr Hc|tok|tok payload b Hr Hc Hres|i t t' Hi Hf| i t n Hi|i
    |p i target policy s1 Htk Hf Hd Ha|Htk|i c addr cap s2 Htk Hi Hd Hq|i c addr n s2 Htk Hi Hd Hq|i slot Hs Hi| |
    |i t t' Hi Hm|i t Hi Hw|i t e Hi Hev Hq|i id tok payload q Hi Hw Hq|i id tok q Hi Hw Hq|i id tok payload Hi Hw
    |i id tok s2 Hi Hq Hreason|i id tok Hi Hs]; try (by apply calms_heap_edit, heap_calms).
  - by apply calms_heap_edit, quiet_calms.
  - by apply calms_heap_edit, push_close_calms.
  - apply calms_heap_edit, drop_sender_calms.
  - by apply enqueue_heap_edit.
  - apply calms_heap_edit, remove_flow_slot_calms.
  - destruct (acquired_with _ _ Ha) as (n & _ & ->). by apply calms_heap_edit, heap_calms.
  - by eapply (fresh_heap_edit s).
  - eapply (accept_heap_edit s s2); try done. exists i. simpl. set_solver.
  - by eapply (fresh_heap_edit s _ s2).
  - apply calms_heap_edit. etrans; [|apply close_slot_calms]. by apply heap_calms.
  - apply calms_heap_edit. etrans; [|apply drop_permit_calms]. by apply heap_calms.
  - apply calms_heap_edit. etrans; [|apply drop_permit_calms]. by apply heap_calms.
  - refine (heap_move tok _ 0 _ _ (cm_take _ _ _ _ payload q Hw Hq) _ _); [done|by apply gives_back_none].
  - refine (heap_move tok _ 0 _ _ (cm_take_close _ _ _ _ q Hw Hq) _ _); [done|by apply gives_back_none].
  - by apply written_heap_edit.
  - by eapply (drop_heap_edit tok s s s2).
  - refine (drop_heap_edit tok s (with_tasks (delete i (tasks s)) s) _ Hinv eq_refl eq_refl eq_refl
      (reflexivity _) _ _ eq_refl eq_refl eq_refl). right; left. by rewrite drop_channel_io.
Qed.

Lemma calm_idle s' tok c c' : calm s' tok c c' → idle c → idle c'.
Proof.
  intros (n & Hq & Hn & Hr & Hw & Hwr & Ha) (Hq0 & Hw0 & Hr0 & Hwr0 & Ha0).
  assert (n = 0%nat) as ->. { destruct n; [done|]. destruct Hn as [Hr1 _]; [done|]. congruence. }
  unfold idle. rewrite Hq, Hq0. split_and!; try congruence. done.
Qed.

Lemma chan_move_idle s s' tok c c' d :
  chan_move s s' tok c c' d → tok ≠ next_token (counts s) ∨ next_token (counts s') ≤ tok → idle c → idle c'.
Proof.
  intros Hm Htok (Hq0 & Hw0 & Hr0 & Hwr0 & Ha0).
  destruct Hm as [cap -> Hn _|payload q Hw Hq|q Hw Hq|payload Hr _ _ _ _|payload Hw|_]; try congruence; [lia|done].
Qed.

Lemma chan_move_limits s s' tok c c' d : chan_move s s' tok c c' d →
  d ≤ 0 ∨ (buffered_bytes (control_of s' tok) ≤ max_buffered_bytes_per_flow (limits (cfg s)) ∧
           session_bytes (counts s') ≤ max_buffered_bytes_per_session (limits (cfg s)) ∧
           global_bytes (counts s') ≤ global_buffer_limit (cfg s)).
Proof. destruct 1; auto with lia. left. pose proof (held_bytes_nonneg c). lia. Qed.

(** What the rest of the process holds of the global byte budget. *)
Definition other_bytes (s : Session) : Z := global_bytes (counts s) - session_bytes (counts s).

Lemma bytes_edit s s' :
  table_inv s → bytes_inv s → edit s s' →
  bytes_inv s' ∧ other_bytes s' = other_bytes s.
Proof.
  intros Htab Hinv He. pose proof Htab as (Hn & _). destruct (edit_table_edit s s' Hn He) as [Hcfg _].
  pose proof (edit_next_token s s' Hn He) as Hmono. pose proof (edit_heap_edit s s' Htab Hinv He) as Hh.
  destruct Hinv as (Hb & Hs & [Hg Hgl] & Hf & Hsl & Hidle). unfold bytes_inv, other_bytes. rewrite Hcfg.
  destruct Hh as [Hcalm Htot Hbuf Hses Hglob|tok c' d Hm Hch Hbuf Hses Hglob].
  - split; [|congruence]. split_and!.
    + intros tok. by rewrite Hbuf, Hb, (calm_held _ _ _ _ (Hcalm tok)).
    + congruence.
    + lia.
    + lia.
    + intros tok. by rewrite Hbuf.
    + lia.
    + intros tok Htok. eapply calm_idle; [apply Hcalm|]. apply Hidle. lia.
  - assert (held_bytes c' = held_bytes (channel_of s tok) + d) as Hheld.
    { eapply chan_move_held; [done|]. intros ->. by apply Hidle. }
    pose proof (λ k, channel_of_insert tok c' s s' k Hch) as Hco.
    pose proof (chan_move_limits _ _ _ _ _ _ Hm) as Hlim.
    split; [|lia]. split_and!.
    + intros k. rewrite Hbuf, Hco, Hb. case_decide; [subst; lia|lia].
    + rewrite Hch, total_bytes_insert, held_at_channel. lia.
    + lia.
    + lia.
    + intros k. specialize (Hf k). destruct (decide (k = tok)) as [->|Hk]; [|rewrite Hbuf, decide_False by done; lia].
      destruct Hlim as [|[? _]]; [rewrite Hbuf, decide_True by done; lia|done].
    + lia.
    + intros k Hk. rewrite Hco. case_decide as Hkt; [subst k|apply Hidle; lia].
      eapply chan_move_idle; [done|by right|]. apply Hidle. lia.
Qed.
End Bytes.
End Budgets.
