(* ===== verification/RelayStreams.v ===== *)
(** * RelayStreams: readers, writers and what they relay

    A reader only speaks for the flow that still owns its id, and a TCP flow's
    command channel delivers what was queued in order and completely unless the
    flow is aborted or the session closes. *)

From S2P Require Import Prelude Wire Varint FrameCodec RustStd TargetCodec RelayPayload Settings FrameIo.
From S2P Require Import Auth Policy Mask Security Budget Dialer RelayState RelayHandlers RelaySession.
From S2P Require Import RelayEdits RelaySim RelayInv RelayBudgets.

Module Streams.
Import Relay Handlers Session Edits Sim Inv Budgets.

Section Flags.
Context {P : Platform}.

(** ** Flags are never taken back *)

Definition flags_grow (s s' : Session) : Prop :=
  (∀ tok, tok ≠ next_token (counts s) →
     (is_closed s tok = true → is_closed s' tok = true) ∧ (is_aborted s tok = true → is_aborted s' tok = true)) ∧
  (shutdown (io s) = true → shutdown (io s') = true).

Lemma calms_flags s s' :
  calms s s' → (shutdown (io s) = true → shutdown (io s') = true) → flags_grow s s'.
Proof. intros (_ & _ & _ & _ & _ & Hc & Ha) Hs. split; auto. Qed.

Lemma same_flags s s' :
  (∀ k, closed (control_of s' k) = closed (control_of s k) ∧ aborted (control_of s' k) = aborted (control_of s k)) →
  io s' = io s → flags_grow s s'.
Proof.
  intros Hf Hio. unfold flags_grow, is_closed, is_aborted. rewrite Hio. split; [|done]. intros tok _.
  destruct (Hf tok) as [-> ->]. done.
Qed.

Lemma quiet_flags s s1 s2 s' :
  quiet s1 s2 → controls (heap s') = controls (heap s2) → io s' = io s2 → (∀ k, k ≠ next_token (counts s) →
    closed (control_of s1 k) = closed (control_of s k) ∧ aborted (control_of s1 k) = aborted (control_of s k)) →
  io s1 = io s → flags_grow s s'.
Proof.
  intros (_ & _ & Hf & Hs & _) Hh Hio' H1 Hio. rewrite Hio in Hs. split; [|by rewrite Hio']. intros k Hk.
  destruct (H1 k Hk) as [Hc Ha]. destruct (Hf k) as [Hfc Hfa]. unfold is_closed, is_aborted.
  unfold control_of at 2 4. rewrite Hh. fold (control_of s2 k). rewrite <-Hc, <-Ha. auto.
Qed.

Lemma edit_flags s s' : edit s s' → flags_grow s s'.
Proof.
  destruct 1 as [s' Hq| |ts n Hts|tok Hr Hc|tok|tok payload b Hr Hc Hres|i t t' Hi Hf| i t n Hi|i
    |p i target policy s1 Htk Hf Hd Ha|Htk|i c addr cap s2 Htk Hi Hd Hq|i c addr n s2 Htk Hi Hd Hq|i slot Hs Hi| |
    |i t t' Hi Hm|i t Hi Hw|i t e Hi Hev Hq|i id tok payload q Hi Hw Hq|i id tok q Hi Hw Hq|i id tok payload Hi Hw
    |i id tok s2 Hi Hq Hreason|i id tok Hi Hs]; try (by apply same_flags).
  - by apply (quiet_flags s s s').
  - apply same_flags; [|done]. intros k. unfold push_command.
    change (control_of (put_channel _ _ ?x) k) with (control_of x k). rewrite control_of_put_counters.
    case_decide; by subst.
  - apply calms_flags; [apply remove_flow_slot_calms|]. by frame_fields (remove_flow_slot_frame i s); congruence.
  - destruct (acquired_with _ _ Ha) as (n & _ & ->). by apply same_flags.
  - split; [|done]. intros k Hk. unfold is_closed, is_aborted, fresh_control. cbn [next_flow_token].
    by rewrite control_of_put, decide_False.
  - apply (quiet_flags s (fresh_control s) s2); [done..| |done]. intros k Hk. unfold fresh_control. cbn [next_flow_token].
    by rewrite control_of_put, decide_False.
  - apply (quiet_flags s (fresh_control s) s2); [done..| |done]. intros k Hk. unfold fresh_control. cbn [next_flow_token].
    by rewrite control_of_put, decide_False.
  - apply calms_flags; [etrans; [|apply close_slot_calms]; by apply heap_calms|].
    frame_fields (close_slot_frame slot (with_table (delete i (table s)) s)). congruence.
  - apply calms_flags; [etrans; [|apply drop_permit_calms]; by apply heap_calms|].
    frame_fields (drop_permit_frame (task_permit t) (with_tasks (delete i (tasks s)) s)). congruence.
  - apply calms_flags; [etrans; [|apply drop_permit_calms]; by apply heap_calms|].
    frame_fields (drop_permit_frame (task_permit t) (with_tasks (delete i (tasks s)) (push_event e s))). congruence.
  - apply same_flags; [|done]. intros k. apply (drop_data_flags tok payload (push_written tok payload s)).
  - apply (quiet_flags s (drop_channel tok s) s2); [done..|intros k _; apply drop_channel_flags|apply drop_channel_io].
  - apply same_flags; [|by rewrite drop_channel_io]. intros k.
    exact (drop_channel_flags tok (with_tasks (delete i (tasks s)) s) k).
Qed.
End Flags.

Section Readers.
Context {P : Platform}.

(** ** Readers *)

Lemma readers_insert i t t' (ts : list Task) :
  ts !! i = Some t → tcp_reader t' = tcp_reader t → omap tcp_reader (<[i := t']> ts) = omap tcp_reader ts.
Proof.
  revert i. induction ts as [|u ts IH]; intros [|i] Hi Hr; simplify_eq/=; [by rewrite Hr|].
  by rewrite (IH i).
Qed.

Lemma readers_delete i t (ts : list Task) :
  ts !! i = Some t → omap tcp_reader ts ≡ₚ option_list (tcp_reader t) ++ omap tcp_reader (delete i ts).
Proof.
  intros Hi. rewrite (delete_Permutation ts i t Hi) at 1. cbn [omap list_omap]. by destruct (tcp_reader t).
Qed.

Lemma tcp_reader_event t e : task_event t = Some e → tcp_reader t = ev_reader e.
Proof. by destruct t as [| | | |? ? ? ? []| |]; intros [= <-]. Qed.

Lemma spawned_readers s tok ts :
  spawned s tok ts → omap tcp_reader ts = [] ∨ omap tcp_reader ts = [tok].
Proof. destruct 1; simpl; auto. Qed.

(** Readers come with fresh tokens and otherwise only go. *)
Lemma readers_edit s s' :
  0 ≤ next_token (counts s) → edit s s' →
  (∃ gone, readers s ≡ₚ gone ++ readers s') ∨
  (readers s' ≡ₚ next_token (counts s) :: readers s ∧ next_token (counts s') = next_token (counts s) + 1).
Proof.
  intros Hn He. unfold readers.
  destruct (edit_tasks_edit s s' Hn He) as [Ht He'|e Ht He'|e Ht He' Hr Hd _|i t t' Hi Hm Ht He'|i id tok Hi _ Ht He'
    |i t Hi _ Ht He'|i t e Hi Hev _ Ht He'|ts Hsp Htok Ht He'].
  - left. exists []. rewrite He', <-(omap_non_timers _ (tasks s')), Ht, omap_non_timers; [done|by intros []..].
  - left. exists (option_list (ev_reader e)). rewrite Ht, He'. cbn [omap list_omap].
    destruct (ev_reader e); [|done]. simpl. by rewrite Permutation_middle.
  - left. exists []. rewrite Ht, He', omap_app. cbn [omap list_omap]. by rewrite Hr, app_nil_r.
  - left. exists []. rewrite Ht, He', (readers_insert i t); [done|done|]. destruct Hm as [->|[Hm _]]; done.
  - left. exists []. by rewrite Ht, He', (readers_insert i (TargetWriter id tok)).
  - left. exists (option_list (tcp_reader t)). rewrite Ht, He', (readers_delete i t) by done. by rewrite app_assoc.
  - left. exists []. rewrite Ht, He', (readers_delete i t), omap_app by done. cbn [omap list_omap].
    rewrite (tcp_reader_event t e Hev). destruct (ev_reader e); simpl; [|by rewrite app_nil_r].
    rewrite app_assoc. by rewrite <-Permutation_cons_append.
  - rewrite Ht, He', omap_app. destruct (spawned_readers _ _ _ Hsp) as [->| ->].
    + left. exists []. by rewrite app_nil_r.
    + right. split; [|done]. by rewrite <-Permutation_cons_append.
Qed.

(** A task that is a reader or writer was there, or has just been spawned. *)
Definition relays (t : Task) : bool :=
  match t with TargetReader _ _ | UdpReader _ _ | TargetWriter _ _ => true | _ => false end.

Lemma elem_of_insert_inv (x y : Task) (i : nat) (ts : list Task) : x ∈ <[i := y]> ts → x = y ∨ x ∈ ts.
Proof.
  intros [j Hj]%list_elem_of_lookup. apply list_lookup_insert_Some in Hj as [(_ & <- & _)|[_ Hj]]; [by left|right].
  by eapply list_elem_of_lookup_2.
Qed.

Lemma relaying_task_origin s s' t :
  0 ≤ next_token (counts s) → edit s s' → t ∈ tasks s' → relays t = true →
  t ∈ tasks s ∨
  next_token (counts s') = next_token (counts s) + 1 ∧ ∃ ts, spawned s' (next_token (counts s)) ts ∧ t ∈ ts.
Proof.
  intros Hn He Ht Hr.
  destruct (edit_tasks_edit s s' Hn He) as [Hk _|e Hk _|e Hk _ _ _ _|i u u' Hi Hm Hk _|i id tok Hi _ Hk _
    |i u Hi _ Hk _|i u e Hi Hev _ Hk _|ts Hsp Hnt Hk _].
  - left. assert (t ∈ non_timers (tasks s')) as Hin by (apply list_elem_of_filter; by destruct t).
    rewrite Hk in Hin. by apply list_elem_of_filter in Hin as [_ Hin].
  - left. by rewrite <-Hk.
  - left. by rewrite <-Hk.
  - left. rewrite Hk in Ht. apply elem_of_insert_inv in Ht as [->|Ht]; [|done].
    destruct Hm as [->|(_ & _ & _ & e & Hev & _)]; [by eapply list_elem_of_lookup_2|]. by destruct u'.
  - left. rewrite Hk in Ht. by apply elem_of_insert_inv in Ht as [->|Ht].
  - left. rewrite Hk in Ht. rewrite (delete_Permutation (tasks s) i u Hi). by right.
  - left. rewrite Hk in Ht. rewrite (delete_Permutation (tasks s) i u Hi). by right.
  - rewrite Hk in Ht. apply elem_of_app in Ht as [Ht|Ht]; [by left|right; eauto].
Qed.

(** A reader has been told to stop, or its flow still owns the id. *)
Definition speaks_for (s : Session) (i tok : Z) : Prop :=
  ∃ t, table s !! i = Some (Tcp t) ∧ token t = tok ∧ target_to_client_open t = true.
Definition speaks_for_udp (s : Session) (i tok : Z) : Prop :=
  ∃ t, table s !! i = Some (Udp t) ∧ udp_token t = tok.
Definition told_to_stop (s : Session) (tok : Z) : Prop := is_aborted s tok = true ∨ shutdown (io s) = true.

Definition reader_inv (s : Session) : Prop :=
  NoDup (readers s) ∧ (∀ tok, tok ∈ readers s → tok < next_token (counts s)) ∧
  (∀ i tok, TargetReader i tok ∈ tasks s → told_to_stop s tok ∨ speaks_for s i tok) ∧
  (∀ i tok, UdpReader i tok ∈ tasks s → tok < next_token (counts s) ∧ (told_to_stop s tok ∨ speaks_for_udp s i tok)).

Lemma told_to_stop_mono s s' tok :
  flags_grow s s' → tok ≠ next_token (counts s) → told_to_stop s tok → told_to_stop s' tok.
Proof. intros [Hf Hs] Hne [Ha|Hsh]; [left; by apply Hf|right; auto]. Qed.

Lemma speaks_for_edit s s' i tok :
  0 ≤ next_token (counts s) → edit s s' → tok ∈ readers s → tok < next_token (counts s) →
  speaks_for s i tok → told_to_stop s' tok ∨ speaks_for s' i tok.
Proof.
  intros Hn He Hin Hlt (t & Hi & <- & Ho). pose proof (edit_flags s s' He) as Hfl.
  destruct (edit_table_edit s s' Hn He) as [_ Ht].
  destruct Ht as [Ht _|j Ht _ Hsil|j slot slot' Hj Hb Ht _|p j target policy (_ & Hj & _) _ Ht _ _].
  - right. exists t. by rewrite Ht.
  - destruct (decide (j = i)) as [->|Hne]; [left; by apply Hsil in Hi; apply Hi|].
    right. exists t. by rewrite Ht, lookup_delete_ne.
  - destruct (decide (j = i)) as [->|Hne]; [|right; exists t; by rewrite Ht, lookup_insert_ne].
    rewrite Hi in Hj. injection Hj as <-. inversion Hb as [? t' (Hk & _ & _) Hc| | |]; subst.
    destruct Hc as [Hc|[Hc|Hc]]; [|left; apply (told_to_stop_mono s s' _ Hfl); [lia|by left]|done].
    right. exists t'. rewrite Ht, lookup_insert_eq. split_and!; congruence.
  - right. exists t. rewrite Ht, lookup_insert_ne; [done|]. intros ->. by rewrite Hi in Hj.
Qed.

Lemma speaks_for_udp_edit s s' i tok :
  0 ≤ next_token (counts s) → edit s s' → speaks_for_udp s i tok → told_to_stop s' tok ∨ speaks_for_udp s' i tok.
Proof.
  intros Hn He (t & Hi & <-). destruct (edit_table_edit s s' Hn He) as [_ Ht].
  destruct Ht as [Ht _|j Ht _ Hsil|j slot slot' Hj Hb Ht _|p j target policy (_ & Hj & _) _ Ht _ _].
  - right. exists t. by rewrite Ht.
  - destruct (decide (j = i)) as [->|Hne]; [left; left; by apply Hsil in Hi|].
    right. exists t. by rewrite Ht, lookup_delete_ne.
  - destruct (decide (j = i)) as [->|Hne]; [|right; exists t; by rewrite Ht, lookup_insert_ne].
    rewrite Hi in Hj. injection Hj as <-. inversion Hb; subst. right. eexists. by rewrite Ht, lookup_insert_eq.
  - right. exists t. rewrite Ht, lookup_insert_ne; [done|]. intros ->. by rewrite Hi in Hj.
Qed.

Lemma target_reader_in s i tok : TargetReader i tok ∈ tasks s → tok ∈ readers s.
Proof. intros Ht. apply elem_of_app. left. apply list_elem_of_omap. by exists (TargetReader i tok). Qed.

Lemma reader_inv_edit s s' : table_inv s → reader_inv s → edit s s' → reader_inv s'.
Proof.
  intros (Hn & _) (Hnd & Hlt & Htcp & Hudp) He. pose proof (edit_flags s s' He) as Hfl.
  pose proof (edit_next_token s s' Hn He) as Hmono. split; [|split; [|split]].
  - destruct (readers_edit s s' Hn He) as [[gone Hp]|[Hp _]].
    + rewrite Hp in Hnd. by apply NoDup_app in Hnd as (_ & _ & Hnd).
    + rewrite Hp. apply NoDup_cons. split; [|done]. intros Hin%Hlt. lia.
  - intros tok Htok. destruct (readers_edit s s' Hn He) as [[gone Hp]|[Hp Hnt]].
    + assert (tok ∈ readers s) as Hin by (rewrite Hp; apply elem_of_app; by right). apply Hlt in Hin. lia.
    + rewrite Hp in Htok. apply elem_of_cons in Htok as [->|Hin]; [lia|]. apply Hlt in Hin. lia.
  - intros i tok Ht. destruct (relaying_task_origin s s' _ Hn He Ht eq_refl) as [Hold|(Hnt & ts & Hsp & Hin)].
    + pose proof (target_reader_in _ _ _ Hold) as Hr. pose proof (Hlt _ Hr).
      destruct (Htcp i tok Hold) as [Hs|Hs]; [left; eapply told_to_stop_mono; [done|lia|done]|by eapply speaks_for_edit].
    + right. destruct Hsp as [|j t Hj Hk Ho|]; [set_solver| |set_solver]. exists t. set_solver.
  - intros i tok Ht. destruct (relaying_task_origin s s' _ Hn He Ht eq_refl) as [Hold|(Hnt & ts & Hsp & Hin)].
    + destruct (Hudp i tok Hold) as [Hl Hs]. split; [lia|].
      destruct Hs as [Hs|Hs]; [left; eapply told_to_stop_mono; [done|lia|done]|by eapply speaks_for_udp_edit].
    + destruct Hsp as [| |j t Hj Hk]; [set_solver..|]. apply list_elem_of_singleton in Hin as [= -> ->].
      split; [lia|right; by exists t].
Qed.
End Readers.

Section Channels.
Context {P : Platform}.

(** ** Command channels *)

Definition queue_content (q : list TargetCommand) : Bytes := mjoin (command_bytes <$> q).

(** Close commands come last, and only to a closed flow. *)
Definition queue_ok (s : Session) (tok : Z) (q : list TargetCommand) : Prop :=
  ∃ ds n, q = (Data <$> ds) ++ replicate n Close ∧ (n ≠ 0%nat → is_closed s tok = true).

(** What the target has taken is the beginning of what was queued; while the writer
    lives the rest is in its hands or in the queue, and when it ended by itself
    nothing is missing. *)
Definition stream_ok (s : Session) (tok : Z) (c : Channel) : Prop :=
  if receiver c
  then accepted c = written c ++ default [] (writing c) ++ queue_content (queue c)
  else queue c = [] ∧ writing c = None ∧ (∃ rest, accepted c = written c ++ rest) ∧
       (told_to_stop s tok ∨ written c = accepted c).

Definition chan_ok (s : Session) (tok : Z) : Prop :=
  queue_ok s tok (queue (channel_of s tok)) ∧ stream_ok s tok (channel_of s tok) ∧
  (receiver (channel_of s tok) = true → tok < next_token (counts s) ∧ ∃ i, TargetWriter i tok ∈ tasks s).

Definition chan_inv (s : Session) : Prop := ∀ tok, chan_ok s tok.

Lemma queue_ok_nil s tok : queue_ok s tok [].
Proof. by exists [], 0%nat. Qed.

Lemma queue_ok_closed s s' tok q : (is_closed s tok = true → is_closed s' tok = true) → queue_ok s tok q → queue_ok s' tok q.
Proof. intros Hc (ds & n & -> & Hn). exists ds, n. split; [done|]. auto. Qed.

Lemma queue_ok_push_close s tok q n : queue_ok s tok q → (n ≠ 0%nat → is_closed s tok = true) →
  queue_ok s tok (q ++ replicate n Close).
Proof.
  intros (ds & m & -> & Hm) Hn. exists ds, (m + n)%nat. rewrite replicate_add, app_assoc. split; [done|].
  intros Hmn. destruct (decide (n = 0%nat)) as [->|]; [apply Hm; lia|auto].
Qed.

Lemma queue_ok_push_data s tok q p : queue_ok s tok q → is_closed s tok = false → queue_ok s tok (q ++ [Data p]).
Proof.
  intros (ds & n & -> & Hn) Hc. destruct n; [|exfalso; rewrite Hn in Hc; done].
  exists (ds ++ [p]), 0%nat. rewrite fmap_app. split; [|done]. simpl. by rewrite !app_nil_r.
Qed.

Lemma queue_ok_tail s tok cmd q : queue_ok s tok (cmd :: q) → queue_ok s tok q.
Proof.
  intros ([|d ds] & n & Heq & Hn); simpl in Heq.
  - destruct n as [|n]; [done|]. injection Heq as -> ->. exists [], n. split; [done|]. intros _. by apply Hn.
  - injection Heq as -> ->. by exists ds, n.
Qed.

(** After a close command there are only more of them. *)
Lemma queue_ok_after_close s tok q : queue_ok s tok (Close :: q) → Forall (λ cmd, cmd = Close) q.
Proof.
  intros ([|d ds] & n & Heq & Hn); simpl in Heq; [|done]. destruct n as [|n]; [done|].
  injection Heq as ->. by apply Forall_replicate.
Qed.

Lemma queue_content_app q q' : queue_content (q ++ q') = queue_content q ++ queue_content q'.
Proof. unfold queue_content. by rewrite fmap_app, join_app. Qed.

Lemma queue_content_close q : Forall (λ cmd, cmd = Close) q → queue_content q = [].
Proof. induction 1 as [|cmd q -> _ IH]; [done|]. exact IH. Qed.

Lemma queue_content_replicate n : queue_content (replicate n Close) = [].
Proof. apply queue_content_close. by apply Forall_replicate. Qed.

Lemma stream_ok_prefix s tok c : stream_ok s tok c → ∃ rest, accepted c = written c ++ rest.
Proof. unfold stream_ok. destruct (receiver c); [eauto|]. by intros (_ & _ & ? & _). Qed.

Lemma chan_ok_idle s tok : idle (channel_of s tok) → chan_ok s tok.
Proof.
  intros (Hq & Hw & Hr & Hwr & Ha). unfold chan_ok, stream_ok. rewrite Hq, Hw, Hr, Hwr, Ha.
  split; [apply queue_ok_nil|]. split; [|done]. split_and!; [done|done|by exists []|by right].
Qed.

(** A writer stays until its receiver is gone. *)
Lemma writer_edit s s' i tok :
  0 ≤ next_token (counts s) → edit s s' → TargetWriter i tok ∈ tasks s →
  TargetWriter i tok ∈ tasks s' ∨ receiver (channel_of s' tok) = false.
Proof.
  intros Hn He Ht. apply list_elem_of_lookup in Ht as [j Hj].
  assert (∀ k u, tasks s !! k = Some u → u ≠ TargetWriter i tok → TargetWriter i tok ∈ delete k (tasks s)) as Hdel.
  { intros k u Hk Hu. apply list_elem_of_lookup_2 in Hj. rewrite (delete_Permutation _ _ _ Hk) in Hj.
    apply elem_of_cons in Hj as [Hj|Hj]; [congruence|done]. }
  destruct (edit_tasks_edit s s' Hn He) as [Hk _|e Hk _|e Hk _ _ _ _|k u u' Hi Hm Hk _|k id tok' Hi Hrc Hk _
    |k u Hi Hrc Hk _|k u e Hi Hev _ Hk _|ts Hsp _ Hk _].
  - left. assert (TargetWriter i tok ∈ non_timers (tasks s')) as Hin.
    { rewrite Hk. apply list_elem_of_filter. split; [done|by eapply list_elem_of_lookup_2]. }
    by apply list_elem_of_filter in Hin as [_ Hin].
  - left. rewrite Hk. by eapply list_elem_of_lookup_2.
  - left. rewrite Hk. by eapply list_elem_of_lookup_2.
  - left. rewrite Hk. destruct (decide (j = k)) as [->|Hne].
    + rewrite Hi in Hj. injection Hj as ->. destruct Hm as [->|(_ & _ & Hm & _)]; [|done].
      rewrite list_insert_id by done. by eapply list_elem_of_lookup_2.
    + eapply (list_elem_of_lookup_2 _ j). by rewrite list_lookup_insert_ne.
  - destruct (decide (j = k)) as [->|Hne].
    + right. rewrite Hi in Hj. by injection Hj as -> ->.
    + left. rewrite Hk. eapply (list_elem_of_lookup_2 _ j). by rewrite list_lookup_insert_ne.
  - destruct (is_writer u) eqn:Hu; [|left; rewrite Hk; eapply Hdel; [done|]; by intros ->].
    destruct u as [| | |i' tok'| | |]; try done.
    destruct (decide (tok' = tok)) as [->|Hne]; [right; by eapply Hrc|left; rewrite Hk; eapply Hdel; [done|congruence]].
  - left. rewrite Hk. eapply Hdel; [done|]. by intros ->.
  - left. rewrite Hk. apply elem_of_app. left. by eapply list_elem_of_lookup_2.
Qed.

Lemma chan_writer_edit s s' tok :
  0 ≤ next_token (counts s) → edit s s' → chan_ok s tok →
  (receiver (channel_of s' tok) = true → receiver (channel_of s tok) = true) →
  receiver (channel_of s' tok) = true → tok < next_token (counts s') ∧ ∃ i, TargetWriter i tok ∈ tasks s'.
Proof.
  intros Hn He (_ & _ & Hw) Hr Hr'. destruct (Hw (Hr Hr')) as [Hlt [i Hi]].
  pose proof (edit_next_token s s' Hn He). split; [lia|].
  destruct (writer_edit s s' i tok Hn He Hi) as [Ht|Ht]; [by exists i|congruence].
Qed.

Lemma chan_ok_calm s s' tok :
  0 ≤ next_token (counts s) → edit s s' → tok ≠ next_token (counts s) → chan_ok s tok →
  calm s' tok (channel_of s tok) (channel_of s' tok) → chan_ok s' tok.
Proof.
  intros Hn He Hne Hok (n & Hq & Hcl & Hr & Hw & Hwr & Ha). pose proof (edit_flags s s' He) as Hfl.
  pose proof (chan_writer_edit s s' tok Hn He Hok) as Hwriter. rewrite Hr in Hwriter.
  destruct Hok as (Hqo & Hst & _). destruct Hfl as [Hf Hs]. destruct (Hf tok Hne) as [Hfc Hfa].
  split; [|split; [|rewrite Hr; auto]].
  - rewrite Hq. apply queue_ok_push_close; [by eapply queue_ok_closed|]. intros Hn0. by apply Hcl.
  - unfold stream_ok in *. rewrite Hr, Hw, Hwr, Ha, Hq. destruct (receiver (channel_of s tok)).
    + by rewrite queue_content_app, queue_content_replicate, app_nil_r.
    + assert (n = 0%nat) as -> by (destruct n; [done|]; by destruct Hcl). rewrite app_nil_r.
      destruct Hst as (H1 & H2 & H3 & H4). split_and!; [done..|].
      destruct H4 as [[Hab|Hsh]|H4]; [left; left; auto|left; right; auto|by right].
Qed.

Lemma stream_ok_move s s' tok c c' d :
  chan_move s s' tok c c' d → flags_grow s s' → tok ≠ next_token (counts s) → stream_ok s tok c →
  stream_ok s' tok c'.
Proof.
  intros Hm Hfl Hne Hst.
  destruct Hm as [cap Heq _ _|payload q Hw Hq|q Hw Hq|payload Hr Hcl _ _ _|payload Hw|Hreason]; [done| | | | |].
  - unfold stream_ok, set_queue in *. simpl. rewrite Hw, Hq in Hst. destruct (receiver c); [exact Hst|].
    by destruct Hst as (? & _).
  - unfold stream_ok, set_queue in *. simpl. rewrite Hw, Hq in Hst. destruct (receiver c); [exact Hst|].
    by destruct Hst as (? & _).
  - unfold stream_ok in *. simpl. rewrite Hr in *. rewrite Hst, queue_content_app. unfold queue_content at 3. simpl.
    by rewrite app_nil_r, !app_assoc.
  - unfold stream_ok in *. simpl. rewrite Hw in Hst. destruct (receiver c); [|by destruct Hst as (_ & ? & _)].
    rewrite Hst. simpl. by rewrite app_assoc.
  - destruct (stream_ok_prefix _ _ _ Hst) as [rest Hrest]. unfold stream_ok, dropped. simpl.
    split_and!; [done|done|eauto|]. destruct Hreason as [Ha|[Hs|[Hw Hq]]]; [left; by left|left; by right|].
    unfold stream_ok in Hst. rewrite Hw in Hst. destruct (receiver c).
    + right. rewrite Hst, queue_content_close by done. simpl. by rewrite !app_nil_r.
    + destruct Hst as (_ & _ & _ & [H4|H4]); [left|by right].
      by eapply told_to_stop_mono.
Qed.

Lemma queue_ok_move s s' tok c c' d :
  chan_move s s' tok c c' d → flags_grow s s' → tok ≠ next_token (counts s) → queue_ok s tok (queue c) →
  queue_ok s' tok (queue c').
Proof.
  intros Hm [Hf _] Hne Hq. destruct (Hf tok Hne) as [Hc _]. apply (queue_ok_closed s s' tok _ Hc).
  destruct Hm as [cap Heq _ _|payload q Hw Heq|q Hw Heq|payload Hr Hcl _ _ _|payload Hw|_]; simpl.
  - apply queue_ok_nil.
  - rewrite Heq in Hq. by eapply queue_ok_tail.
  - rewrite Heq in Hq. by eapply queue_ok_tail.
  - by apply queue_ok_push_data.
  - done.
  - apply queue_ok_nil.
Qed.

Lemma chan_move_receiver s s' tok c c' d :
  chan_move s s' tok c c' d → tok ≠ next_token (counts s) → receiver c' = true → receiver c = true.
Proof. by destruct 1. Qed.

Lemma chan_ok_new s s' tok c c' d :
  chan_move s s' tok c c' d → tok = next_token (counts s) → idle c → channel_of s' tok = c' → chan_ok s' tok.
Proof.
  intros Hm Htok Hid Hc. destruct Hm as [cap _ Hn Hw|payload q Hw Hq|q Hw Hq|payload Hr Hcl _ _ _|payload Hw|_];
    try (by destruct Hid as (? & ? & ? & _); congruence).
  - unfold chan_ok. rewrite Hc. split_and!; [apply queue_ok_nil|done|]. intros _. split; [lia|done].
  - apply chan_ok_idle. rewrite Hc. destruct Hid as (? & ? & ? & ? & ?). done.
Qed.

Lemma chan_inv_edit s s' : table_inv s → bytes_inv s → chan_inv s → edit s s' → chan_inv s'.
Proof.
  intros Htab Hby Hinv He. pose proof Htab as (Hn & _). pose proof (edit_flags s s' He) as Hfl.
  pose proof Hby as (_ & _ & _ & _ & _ & Hidle).
  assert (∀ tok, calm s' tok (channel_of s tok) (channel_of s' tok) → chan_ok s' tok) as Hcalm.
  { intros tok Hc. destruct (decide (tok = next_token (counts s))) as [->|Hne].
    - apply chan_ok_idle. eapply calm_idle; [exact Hc|]. by apply Hidle.
    - by apply (chan_ok_calm s s' tok). }
  destruct (edit_heap_edit s s' Htab Hby He) as [Hc _ _ _ _|tok c' d Hm Hch _ _ _]; [by intros tok; apply Hcalm|].
  intros k. pose proof (channel_of_insert tok c' s s' k Hch) as Hco.
  destruct (decide (k = tok)) as [->|Hk]; [|apply Hcalm; rewrite Hco; apply calm_refl].
  destruct (decide (tok = next_token (counts s))) as [Heq|Hne].
  - eapply chan_ok_new; [done|done| |done]. apply Hidle. lia.
  - destruct (Hinv tok) as (Hq & Hst & _). split; [rewrite Hco; by eapply queue_ok_move|].
    split; [rewrite Hco; by eapply stream_ok_move|].
    apply (chan_writer_edit s s' tok Hn He (Hinv tok)). rewrite Hco. by eapply chan_move_receiver.
Qed.
End Channels.
End Streams.
