(* ===== verification/RelaySafety.v ===== *)
(** * RelaySafety: what every reachable relay session satisfies

    The invariants of RelayInv, RelayBudgets and RelayStreams hold in every state a
    session reaches, whatever its client, its targets, the network and the other
    sessions do and in whatever order its tasks run.  The theorems read off what
    that means for the flow table, for the destinations of flows, for the shared
    budgets, for the relayed streams and for the teardown. *)

From S2P Require Import Prelude Wire Varint FrameCodec RustStd TargetCodec RelayPayload Settings FrameIo.
From S2P Require Import Auth Policy Mask Security Budget Dialer RelayState RelayHandlers RelaySession.
From S2P Require Import RelayEdits RelayTotal RelaySim RelayInv RelayBudgets RelayStreams.

Module Safety.
Import Relay Handlers Session Edits Total Sim Inv Budgets Streams.
Import RelayPayload.Flow.

Section Safety.
Context {P : Platform}.

(** ** The invariant of a session *)

Definition queue_inv (s : Session) : Prop :=
  zlen (events s) ≤ session_event_queue_capacity (limits (cfg s)).

Record session_inv (s : Session) : Prop := {
  inv_table : table_inv s;
  inv_wire : wire_inv s;
  inv_permits : permit_inv s;
  inv_bytes : bytes_inv s;
  inv_readers : reader_inv s;
  inv_channels : chan_inv s;
  inv_queue : queue_inv s
}.

Lemma queue_inv_edit s s' : table_inv s → queue_inv s → edit s s' → queue_inv s'.
Proof.
  intros (Hn & _) Hq He. destruct (edit_table_edit s s' Hn He) as [Hc _]. unfold queue_inv in *. rewrite Hc.
  assert (∀ e, queue_full s = false → events s' = events s ++ [e] →
    zlen (events s') ≤ session_event_queue_capacity (limits (cfg s))) as Hpush.
  { intros e Hf Hev. rewrite Hev, length_app. unfold queue_full in Hf. apply Z.leb_gt in Hf. simpl. lia. }
  destruct (edit_tasks_edit s s' Hn He) as [_ He'|e _ He'|e _ He' _ _ Hf|i t t' _ _ _ He'|i id tok _ _ _ He'
    |i t _ _ _ He'|i t e _ _ Hf _ He'|ts _ _ _ He']; try (by rewrite He'); [|by eapply Hpush..].
  rewrite He' in Hq. simpl in Hq. lia.
Qed.

Lemma session_inv_edit s s' :
  session_inv s → edit s s' →
  session_inv s' ∧ other_flows s' = other_flows s ∧ other_bytes s' = other_bytes s.
Proof.
  intros [Ht Hw Hp Hb Hr Hc Hq] He. destruct (permits_edit s s' Ht Hw Hp He) as [Hp' Hof].
  destruct (bytes_edit s s' Ht Hb He) as [Hb' Hob]. split; [|done]. split; [..|done|done| | |].
  - by eapply table_inv_edit.
  - by eapply wire_inv_edit.
  - by eapply reader_inv_edit.
  - by eapply chan_inv_edit.
  - by eapply queue_inv_edit.
Qed.

Lemma session_inv_edits s s' :
  edits s s' → session_inv s →
  session_inv s' ∧ other_flows s' = other_flows s ∧ other_bytes s' = other_bytes s.
Proof.
  induction 1 as [s|s s1 s' He _ IH]; [done|]. intros Hs.
  destruct (session_inv_edit s s1 Hs He) as (Hs1 & Hf & Hb). destruct (IH Hs1) as (Hs' & Hf' & Hb').
  split_and!; [done|congruence..].
Qed.

(** The state of the session is no part of the invariant. *)
Lemma session_inv_state st s : session_inv s → session_inv (with_state st s).
Proof. by intros []. Qed.

Lemma session_inv_world s s' : world_step s s' → session_inv s → session_inv s'.
Proof.
  intros (script & udp & t & unix & sec & bytes & flows & _ & [Hb1 Hb2] & Hf & ->) [Ht Hw Hp Hb Hr Hc Hq].
  split; try done. destruct Hb as (H1 & H2 & _ & H4 & H5 & H6). by split_and!.
Qed.

Lemma edit_state_same s s' : edit s s' → state s' = state s.
Proof.
  destruct 1 as [s' Hq| |ts n Hts|tok Hr Hc|tok|tok payload b Hr Hc Hres|i t t' Hi Hf| i t n Hi|i
    |p i target policy s1 Htk Hf Hd Ha|Htk|i c addr cap s2 Htk Hi Hd Hq|i c addr n s2 Htk Hi Hd Hq|i slot Hs Hi| |
    |i t t' Hi Hm|i t Hi Hw|i t e Hi Hev Hq|i id tok payload q Hi Hw Hq|i id tok q Hi Hw Hq|i id tok payload Hi Hw
    |i id tok s2 Hi Hq Hreason|i id tok Hi Hs]; try done.
  - by quiet_fields Hq.
  - by frame_fields (remove_flow_slot_frame i s).
  - by destruct (acquired_with _ _ Ha) as (n & _ & ->).
  - by quiet_fields Hq.
  - by quiet_fields Hq.
  - by frame_fields (close_slot_frame slot (with_table (delete i (table s)) s)).
  - by frame_fields (drop_permit_frame (task_permit t) (with_tasks (delete i (tasks s)) s)).
  - by frame_fields (drop_permit_frame (task_permit t) (with_tasks (delete i (tasks s)) (push_event e s))).
  - quiet_fields Hq. frame_fields (drop_channel_beside tok s). simpl. congruence.
  - by frame_fields (drop_channel_beside tok (with_tasks (delete i (tasks s)) s)).
Qed.

Lemma edits_state s s' : edits s s' → state s' = state s.
Proof. induction 1 as [|s s1 s' He _ IH]; [done|]. rewrite IH. by apply edit_state_same. Qed.

Lemma edits_shutdown s s' : edits s s' → shutdown (io s) = true → shutdown (io s') = true.
Proof. induction 1 as [|s s1 s' He _ IH]; [done|]. intros Hs. apply IH. by apply (edit_flags s s1 He). Qed.

(** ** The invariant of the loop *)

Definition start_ok (c : Config) (bytes flows : Z) : Prop :=
  0 ≤ max_streams (limits c) ∧ 0 ≤ max_udp_flows (limits c) ∧ 0 ≤ max_buffered_bytes_per_flow (limits c) ∧
  0 ≤ max_buffered_bytes_per_session (limits c) ∧ 0 ≤ session_event_queue_capacity (limits c) ∧
  0 ≤ bytes ≤ global_buffer_limit c ∧ 0 ≤ flows ≤ global_flow_limit c.

(** While the loop runs the session relays, or drains flows under a deadline; after
    it the session is closing, with every flow gone, until its tasks are; it was not
    left by a panic. *)
Definition phase_ok (l : Loop) : Prop :=
  match outcome l with
  | None => state (session l) = Relaying ∨
            state (session l) = Draining ∧ table (session l) ≠ ∅ ∧ drain_deadline_set l = true
  | Some r => r ≠ Panic ∧ table (session l) = ∅ ∧ shutdown (io (session l)) = true ∧
              (state (session l) = Closing ∨ state (session l) = Closed ∧ tasks (session l) = [])
  end.

Definition loop_inv (l : Loop) : Prop := session_inv (session l) ∧ phase_ok l.

Lemma loop_start_inv c w idle datagrams bytes flows :
  start_ok c bytes flows → loop_inv (loop_start c w idle datagrams bytes flows).
Proof.
  intros (H1 & H2 & H3 & H4 & H5 & H6 & H7). split; [|by left].
  set (s := session _). assert (tasks s = [] ∨ tasks s = [DatagramReader]) as Htasks by (destruct datagrams; auto).
  assert (∀ tok, control_of s tok = control_new) as Hco by done.
  split.
  - split_and!; [done| | |]; simpl; [apply map_Forall_empty|done|done].
  - split_and!; simpl; [done|apply map_Forall_empty| |done]. by destruct datagrams; repeat constructor.
  - unfold permit_inv, live_permits. simpl. destruct datagrams; simpl; done.
  - split_and!; simpl; try done; try lia.
  - assert (readers s = []) as Hr by (unfold readers; by destruct Htasks as [-> | ->]).
    split; [rewrite Hr; constructor|]. rewrite Hr. split_and!; [by intros ? ?%elem_of_nil| |];
      intros i tok Ht; destruct Htasks as [Hts|Hts]; rewrite Hts in Ht; set_solver.
  - intros tok. by apply chan_ok_idle.
  - done.
Qed.

Lemma close_target_flows_table visit s i slot :
  table (close_target_flows visit s) !! i = Some slot → table s !! i = Some slot ∧ i ∉ visit.
Proof.
  revert s. induction visit as [|j visit IH]; intros s; cbn [close_target_flows]; [set_solver|].
  destruct (table s !! j) as [slot'|] eqn:Hj.
  - intros [Ht Hni]%IH. frame_fields (close_slot_frame slot' (with_table (delete j (table s)) s)).
    replace (table (close_slot _ _)) with (delete j (table s)) in Ht by done.
    apply lookup_delete_Some in Ht as [Hne Ht]. set_solver.
  - intros [Ht Hni]%IH. split; [done|]. intros [->|?]%elem_of_cons; [by rewrite Hj in Ht|done].
Qed.

Lemma begin_close_table visit s :
  visit ≡ₚ (map_to_list (table s)).*1 → table (begin_close visit s) = ∅.
Proof.
  intros Hv. apply map_empty. intros i. apply eq_None_not_Some. intros [slot Hi].
  apply close_target_flows_table in Hi as [Hi Hni]. apply Hni. rewrite Hv.
  apply list_elem_of_fmap. exists (i, slot). split; [done|]. apply elem_of_map_to_list.
  unfold transition in Hi. by destruct (is_valid_session_transition _ _).
Qed.

(** Taking an event off the queue gives its handler what it relies on. *)
Lemma take_event_pre l stopping ev :
  session_inv (session l) → event_enabled l stopping ev → tokens_left (session l) →
  edits (session l) (take_event ev (session l)) ∧ session_event_pre (take_event ev (session l)) ev.
Proof.
  intros Hinv Hen Htk. set (s := session l) in *.
  assert (∀ tok, counters_ok s tok) as Hok by (intros; apply bytes_inv_counters, Hinv).
  destruct ev as [e| | | | | | | | |]; try (by split; [|split]). cbn [take_event].
  assert (∃ es, events s = e :: es) as [es Hes].
  { unfold event_enabled in Hen. destruct (_ || _); [|done]. fold s in Hen. destruct (events s); [done|].
    injection Hen as ->. eauto. }
  rewrite Hes. cbn [tail]. split; [by eapply rtc_once, edit_pop|]. split; [done|]. split; [exact Hok|]. split.
  - destruct (inv_wire s Hinv) as (_ & _ & _ & Hd). rewrite Hes in Hd. apply Forall_cons in Hd as [Hd _].
    by eapply (dial_ok_mono s).
  - destruct (inv_readers s Hinv) as (Hnd & _). unfold readers in *. rewrite Hes in Hnd. cbn [omap list_omap] in Hnd.
    destruct (ev_reader e) as [tok|]; [|done]. simpl. rewrite <-Permutation_middle in Hnd.
    by apply NoDup_cons in Hnd as [Hnd _].
Qed.

(** What closing the session does. *)
Lemma begin_close_inv visit s :
  session_inv s → state s = Relaying ∨ state s = Draining → visit ≡ₚ (map_to_list (table s)).*1 →
  let s' := begin_close visit s in
  session_inv s' ∧ other_flows s' = other_flows s ∧ other_bytes s' = other_bytes s ∧
  state s' = Closing ∧ table s' = ∅ ∧ shutdown (io s') = true.
Proof.
  intros Hinv Hst Hv. cbv zeta. pose proof (begin_close_edits visit s) as He.
  assert ((transition Closing s).2 = with_state Closing s) as Htr by (unfold transition; by destruct Hst as [-> | ->]).
  rewrite Htr in He. destruct (session_inv_edits _ _ He) as (Hi & Hf & Hb); [by apply session_inv_state|].
  split_and!; [done|done|done|by rewrite (edits_state _ _ He)|by apply begin_close_table|].
  unfold begin_close. eapply edits_shutdown; [by apply close_target_flows_edits|done].
Qed.

Lemma loop_turn_inv ev visit l :
  session_inv (session l) → state (session l) = Relaying ∨ state (session l) = Draining →
  session_event_pre (session l) ev → event_sound (session l) ev →
  visit ≡ₚ (map_to_list (table (handle_session_event ev (session l)).2)).*1 →
  loop_inv (loop_turn ev visit l) ∧
  other_flows (session (loop_turn ev visit l)) = other_flows (session l) ∧
  other_bytes (session (loop_turn ev visit l)) = other_bytes (session l).
Proof.
  intros Hinv Hst Hpre Hsound Hv. pose proof (handle_session_event_total ev (session l) Hsound) as Hnp.
  destruct (handle_session_event_edits ev (session l) Hpre) as (st & He & Hst').
  destruct (session_inv_edits _ _ He) as (Hi & Hf & Hb); [by apply session_inv_state|].
  assert (state (handle_session_event ev (session l)).2 = Relaying ∨
          state (handle_session_event ev (session l)).2 = Draining) as Hst2.
  { rewrite (edits_state _ _ He). simpl. destruct Hst' as [->|[_ ->]]; auto. }
  change (other_flows (with_state st (session l))) with (other_flows (session l)) in Hf.
  change (other_bytes (with_state st (session l))) with (other_bytes (session l)) in Hb.
  destruct (begin_close_inv visit _ Hi Hst2 Hv) as (Hc1 & Hc2 & Hc3 & Hc4 & Hc5 & Hc6).
  unfold loop_turn. destruct (handle_session_event ev (session l)) as [[counts|r] s]; cbn [fst snd] in *.
  - destruct (if _ && negb _ then _ else _) as [set d] eqn:Hset.
    destruct (bool_decide (state s = Draining) && bool_decide (table s = ∅)) eqn:Hempty.
    + split; [|split; [by rewrite <-Hf|by rewrite <-Hb]]. split; [done|]. split_and!; auto.
    + split; [|done]. split; [done|]. unfold phase_ok. cbn [outcome session drain_deadline_set].
      destruct Hst2 as [Hs|Hs]; [by left|right]. rewrite bool_decide_true in Hset, Hempty by done. simpl in *.
      apply bool_decide_eq_false in Hempty. split_and!; [done|done|].
      destruct (drain_deadline_set l); simpl in Hset; by injection Hset as <- _.
  - split; [|split; [by rewrite <-Hf|by rewrite <-Hb]]. split; [done|]. split_and!; auto. by intros ->.
Qed.

(** The event's frame carries bytes, and the dial it reports did not panic. *)
Lemma event_enabled_sound l stopping ev :
  event_enabled l stopping ev → session_event_pre (take_event ev (session l)) ev →
  event_sound (take_event ev (session l)) ev.
Proof.
  unfold event_enabled. intros Hen (_ & _ & Hpre). destruct (_ || _); [|by subst ev].
  destruct ev; try done. by destruct Hpre.
Qed.

(** ** Tasks leave the table alone *)

Lemma quiet_table s s' : quiet s s' → table s' = table s.
Proof. intros Hq. by quiet_fields Hq. Qed.

Lemma try_record_table e s : table (try_record_flow_activity e s) = table s.
Proof. unfold try_record_flow_activity. by destruct (queue_full s). Qed.

Lemma writer_finish_table flow_id tok failed s r : writer_finish flow_id tok failed s = Some r → table r.2 = table s.
Proof.
  intros [= <-]. simpl. assert (table (drop_receiver tok s) = table s) as Hd.
  { unfold drop_receiver. simpl. pose proof (drop_commands_beside tok (queue (channel_of s tok)) s) as Hb.
    unfold beside_heap, frame_of in Hb. congruence. }
  destruct failed; [|done]. by rewrite (quiet_table _ _ (report_tcp_error_quiet flow_id tok _)).
Qed.

Lemma target_writer_table flow_id tok input s r : target_writer_step flow_id tok input s = Some r → table r.2 = table s.
Proof.
  unfold target_writer_step. destruct (writing (channel_of s tok)) as [payload|].
  - destruct (is_aborted s tok); [by intros ->%writer_finish_table|].
    destruct input; try done; [|by intros ->%writer_finish_table].
    intros [= <-]. exact (try_record_table _ _).
  - destruct (is_aborted s tok); [by intros ->%writer_finish_table|].
    destruct (queue (channel_of s tok)) as [|[payload|] q].
    + destruct (_ || _); [|done]. destruct (is_closed s tok); [destruct input|]; by intros ->%writer_finish_table.
    + by intros [= <-].
    + destruct input; by intros ->%writer_finish_table.
Qed.

Lemma target_reader_table flow_id tok input s r : target_reader_step flow_id tok input s = Some r → table r.2 = table s.
Proof.
  unfold target_reader_step. destruct (_ || _); [by intros [= <-]|]. destruct input as [|bytes| | | | | | | | |]; try done.
  - destruct (_ || _); [done|]. pose proof (quiet_table _ _ (send_tcp_data_quiet flow_id bytes tok s)) as Hq.
    destruct (send_tcp_data flow_id bytes tok s) as [[[]|e|] s1]; intros [= <-]; simpl in *;
      rewrite ?try_record_table, ?(quiet_table _ _ (report_tcp_error_quiet flow_id tok s1)); done.
  - pose proof (quiet_table _ _ (send_tcp_close_quiet flow_id TCP_NORMAL s)) as Hq.
    destruct (send_tcp_close flow_id TCP_NORMAL s) as [[[]|e|] s1]; intros [= <-]; simpl in *;
      rewrite ?(quiet_table _ _ (report_tcp_error_quiet flow_id tok s1)); done.
  - intros [= <-]. apply quiet_table, report_tcp_error_quiet.
Qed.

Lemma udp_reader_table flow_id tok input s r : udp_reader_step flow_id tok input s = Some r → table r.2 = table s.
Proof.
  unfold udp_reader_step. destruct (_ || _); [by intros [= <-]|].
  destruct input as [| | | | | | | | |max_size accepted bytes|]; try done.
  - intros [= <-]. apply quiet_table, report_udp_error_quiet.
  - destruct (_ <? _); [done|].
    pose proof (quiet_table _ _ (emit_udp_quiet max_size accepted flow_id bytes tok s)) as Hq.
    destruct (emit_udp_to_client _ _ _ _ _ s) as [[[]|e|] s1]; intros [= <-]; simpl in *;
      rewrite ?try_record_table, ?(quiet_table _ _ (report_udp_error_quiet flow_id tok s1)); done.
Qed.

Lemma send_event_table e permit s r : send_flow_event_or_shutdown e permit s = Some r → table r.2 = table s.
Proof.
  unfold send_flow_event_or_shutdown. destruct (shutdown (io s)); [by intros [= <-]|].
  destruct (queue_full s); [done|]. by intros [= <-].
Qed.

Lemma run_task_table i input s s' : run_task i input s = Some s' → table s' = table s.
Proof.
  unfold run_task. destruct (tasks s !! i) as [t|]; [|done]. destruct (task_step t input s) as [r|] eqn:Hr; [|done].
  assert (table r.2 = table s) as Ht.
  { destruct t as [p id target policy c| | | |timer id tok side fired| |e permit]; cbn [task_step] in Hr.
    - unfold open_task_step in Hr. destruct (_ || _); [by injection Hr as <-|]. destruct input; try done. by injection Hr as <-.
    - by eapply target_reader_table.
    - by eapply udp_reader_table.
    - by eapply target_writer_table.
    - unfold timer_step in Hr. destruct fired; [by eapply send_event_table|].
      destruct (shutdown (io s)); [by injection Hr as <-|]. destruct input; try done. by injection Hr as <-.
    - unfold datagram_reader_step in Hr. destruct (shutdown (io s)); [by injection Hr as <-|].
      destruct input; try done; [|by injection Hr as <-].
      destruct (RelayPayload.Datagram.decode bytes) as [[]| |]; [|by injection Hr as <-..].
      destruct (negb _); [by injection Hr as <-|]. destruct (queue_full s); [done|]. by injection Hr as <-.
    - by eapply send_event_table. }
  destruct r as [[t'|] s1]; intros [= <-]; simpl in *; [done|].
  by frame_fields (drop_permit_frame (task_permit t) (with_tasks (delete i (tasks s1)) s1)); congruence.
Qed.

Lemma drop_permit_table p s : table (drop_permit p s) = table s.
Proof. unfold drop_permit. destruct p; [|done]. by case_decide. Qed.

Lemma abort_task_table i s : table (abort_task i s) = table s.
Proof.
  unfold abort_task. destruct (tasks s !! i) as [t|]; [|done].
  destruct t as [| | |id tok| | |]; try (by rewrite drop_permit_table).
  pose proof (drop_channel_beside tok (with_tasks (delete i (tasks s)) s)) as Hb.
  unfold beside_heap, frame_of in Hb. by injection Hb.
Qed.

(** ** Steps *)

Lemma task_pre_inv s t : session_inv s → t ∈ tasks s → task_pre s t.
Proof.
  intros Hinv Ht. destruct t as [| | |id tok| | |]; try done; simpl.
  - destruct (inv_wire s Hinv) as (_ & _ & Hts & _). rewrite Forall_forall in Hts. by apply Hts in Ht as [Ht _].
  - intros q Hq. destruct (inv_channels s Hinv tok) as (Hqo & _). rewrite Hq in Hqo. by eapply queue_ok_after_close.
Qed.

Lemma step_inv l l' :
  step l l' → loop_inv l →
  loop_inv l' ∧ (world_step (session l) (session l') ∨
                 other_flows (session l') = other_flows (session l) ∧
                 other_bytes (session l') = other_bytes (session l)).
Proof.
  intros Hstep [Hinv Hph]. destruct Hstep as [l stopping ev visit Ho Hen Htk l' Hv|l i t input s' Hi Hin Hrun|l s' Hw
    |l i Ho Hst _ Hto|l Ho Hst Hts].
  - destruct (take_event_pre l stopping ev Hinv Hen Htk) as [He Hpre].
    destruct (session_inv_edits _ _ He Hinv) as (Hi & Hf & Hb).
    unfold phase_ok in Hph. rewrite Ho in Hph.
    destruct (loop_turn_inv ev visit l') as (Hl & Hf' & Hb');
      [done| |done|by eapply event_enabled_sound|done|].
    { unfold l'. simpl. rewrite (edits_state _ _ He). destruct Hph as [?|[? _]]; auto. }
    split; [done|right]. split; [by rewrite Hf', <-Hf|by rewrite Hb', <-Hb].
  - assert (edits (session l) s') as He.
    { eapply run_task_edits; [done| |done|done]. apply task_pre_inv; [done|by eapply list_elem_of_lookup_2]. }
    destruct (session_inv_edits _ _ He Hinv) as (Hi' & Hf & Hb). split; [|by right]. split; [done|].
    unfold phase_ok in *. simpl. rewrite (edits_state _ _ He), (run_task_table _ _ _ _ Hrun).
    destruct (outcome l); [|done]. destruct Hph as (Hr & Htab & Hs & Hst). split_and!; [done|done|by eapply edits_shutdown|].
    destruct Hst as [Hst|[_ Hts]]; [by left|]. by rewrite Hts in Hi.
  - split; [|by left]. split; [by eapply session_inv_world|].
    by destruct Hw as (? & ? & ? & ? & ? & ? & ? & _ & _ & _ & ->).
  - unfold phase_ok in *. destruct (outcome l) eqn:Hout; [|done]. destruct Hph as (Hr & Htab & Hs & Hst').
    pose proof (abort_task_edits i (session l) Hs) as He.
    destruct (session_inv_edits _ _ He Hinv) as (Hi' & Hf & Hb). split; [|by right]. split; [done|].
    unfold phase_ok. simpl. rewrite Hout, abort_task_table, (edits_state _ _ He).
    split_and!; [done|done|by eapply edits_shutdown|by left].
  - unfold phase_ok in *. destruct (outcome l) eqn:Hout; [|done]. destruct Hph as (Hr & Htab & Hs & _).
    assert (finish_close (session l) = with_state Closed (session l)) as Hfin.
    { unfold finish_close. replace (with_table ∅ (session l)) with (session l) by (rewrite <-Htab; by destruct (session l)).
      unfold transition. by rewrite Hst. }
    rewrite Hfin. split; [|by right]. split; [by apply session_inv_state|].
    unfold phase_ok. simpl. rewrite Hout. split_and!; auto.
Qed.

Lemma reachable_inv start l : loop_inv start → reachable start l → loop_inv l.
Proof. intros Hs. induction 1 as [|l l1 l' Hst _ IH]; [done|]. apply IH. by apply (step_inv _ _ Hst Hs). Qed.

(** ** The teardown makes progress *)

(** How many steps a task can still take once the session is shut down. *)
Definition task_weight (s : Session) (t : Task) : nat :=
  match t with
  | TargetReader _ _ | UdpReader _ _ => 2
  | TargetWriter _ tok =>
    let c := channel_of s tok in
    3 + 2 * length (queue c) + (if writing c then 1 else 0)
  | _ => 1
  end.
Definition tasks_weight (s : Session) (ts : list Task) : nat := sum_list_with (task_weight s) ts.

(** What is left of the teardown. *)
Definition rank (l : Loop) : nat :=
  if bool_decide (state (session l) = Closed) then 0 else S (tasks_weight (session l) (tasks (session l))).

Lemma task_weight_pos s t : (0 < task_weight s t)%nat.
Proof. destruct t; simpl; lia. Qed.

Definition lighter (s s' : Session) : Prop := ∀ t, (task_weight s' t ≤ task_weight s t)%nat.

Lemma lighter_sum s s' ts : lighter s s' → (tasks_weight s' ts ≤ tasks_weight s ts)%nat.
Proof. intros Hl. unfold tasks_weight. induction ts as [|t ts IH]; simpl; [lia|]. specialize (Hl t). lia. Qed.

Lemma weight_insert s s' i t t' ts :
  lighter s s' → ts !! i = Some t → (task_weight s' t' < task_weight s t)%nat →
  (tasks_weight s' (<[i := t']> ts) < tasks_weight s ts)%nat.
Proof.
  intros Hl Hi Ht. revert i Hi. induction ts as [|u ts IH]; intros [|i] Hi; simplify_eq/=.
  - pose proof (lighter_sum s s' ts Hl). unfold tasks_weight in *. simpl. lia.
  - specialize (IH i Hi). specialize (Hl u). unfold tasks_weight in *. simpl. lia.
Qed.

Lemma weight_delete s s' i t ts :
  lighter s s' → ts !! i = Some t → (tasks_weight s' (delete i ts) < tasks_weight s ts)%nat.
Proof.
  intros Hl Hi. revert i Hi. induction ts as [|u ts IH]; intros [|i] Hi; simplify_eq/=.
  - pose proof (lighter_sum s s' ts Hl). pose proof (task_weight_pos s t). unfold tasks_weight in *. simpl. lia.
  - specialize (IH i Hi). specialize (Hl u). unfold tasks_weight in *. simpl. lia.
Qed.

Lemma lighter_channels s s' : channels (heap s') = channels (heap s) → lighter s s'.
Proof. intros Hc t. destruct t; simpl; unfold channel_of; rewrite ?Hc; lia. Qed.

Lemma lighter_insert s s' tok c :
  channels (heap s') = <[tok := c]> (channels (heap s)) →
  (2 * length (queue c) + (if writing c then 1 else 0) ≤
   2 * length (queue (channel_of s tok)) + (if writing (channel_of s tok) then 1 else 0))%nat →
  lighter s s'.
Proof.
  intros Hc Hle t. destruct t as [| | |id k| | |]; simpl; try lia. rewrite (channel_of_insert tok c s s' k Hc).
  case_decide; [subst k; lia|lia].
Qed.

Lemma drop_receiver_channels tok s :
  channels (heap (drop_receiver tok s)) = <[tok := dropped (channel_of s tok)]> (channels (heap s)).
Proof. unfold drop_receiver. simpl. by rewrite drop_commands_channels. Qed.

Lemma drop_receiver_tasks tok s : tasks (drop_receiver tok s) = tasks s.
Proof.
  unfold drop_receiver. simpl. pose proof (drop_commands_beside tok (queue (channel_of s tok)) s) as Hb.
  unfold beside_heap in Hb. congruence.
Qed.

Lemma drop_receiver_lighter tok s : lighter s (drop_receiver tok s).
Proof. eapply lighter_insert; [apply drop_receiver_channels|]. simpl. lia. Qed.

Lemma report_tcp_error_closed flow_id tok s : shutdown (io s) = true → report_tcp_error flow_id tok s = s.
Proof. unfold report_tcp_error. by intros ->. Qed.

Lemma lighter_trans s1 s2 s3 : lighter s1 s2 → lighter s2 s3 → lighter s1 s3.
Proof. intros H1 H2 t. specialize (H1 t). specialize (H2 t). lia. Qed.

(** The end of a writer, from any state reached without adding to its channel. *)
Lemma writer_finish_weight i flow_id tok failed s s1 r :
  shutdown (io s1) = true → lighter s s1 → tasks s1 = tasks s → tasks s !! i = Some (TargetWriter flow_id tok) →
  writer_finish flow_id tok failed s1 = Some r →
  ∃ t', r.1 = Some t' ∧ (tasks_weight r.2 (<[i := t']> (tasks r.2)) < tasks_weight s (tasks s))%nat.
Proof.
  intros Hs Hl Ht Hi [= <-]. eexists; split; [done|]. cbn [snd].
  assert (io (drop_receiver tok s1) = io s1) as Hio.
  { unfold drop_receiver. simpl. pose proof (drop_commands_beside tok (queue (channel_of s1 tok)) s1) as Hb.
    unfold beside_heap, frame_of in Hb. congruence. }
  replace (if failed then _ else _) with (drop_receiver tok s1)
    by (destruct failed; [by rewrite report_tcp_error_closed by congruence|done]).
  rewrite drop_receiver_tasks, Ht. eapply weight_insert; [|done|simpl; lia].
  eapply lighter_trans; [exact Hl|apply drop_receiver_lighter].
Qed.

Lemma try_record_keeps e s :
  tasks (try_record_flow_activity e s) = tasks s ∧ heap (try_record_flow_activity e s) = heap s.
Proof. unfold try_record_flow_activity. by destruct (queue_full s). Qed.

Lemma target_writer_weight i flow_id tok input s r :
  shutdown (io s) = true → tasks s !! i = Some (TargetWriter flow_id tok) →
  target_writer_step flow_id tok input s = Some r →
  ∃ t', r.1 = Some t' ∧ (tasks_weight r.2 (<[i := t']> (tasks r.2)) < tasks_weight s (tasks s))%nat.
Proof.
  intros Hs Hi. assert (lighter s s) as Hself by (by apply lighter_channels).
  unfold target_writer_step. destruct (writing (channel_of s tok)) as [payload|] eqn:Hw.
  - set (s1 := drop_data tok payload (put_queue tok (queue (channel_of s tok)) None s)).
    assert (lighter s s1) as Hl by (eapply (lighter_insert s s1 tok); [reflexivity|simpl; rewrite Hw; lia]).
    destruct (is_aborted s tok); [apply (writer_finish_weight i flow_id tok false s s1 _ Hs Hl eq_refl Hi)|].
    destruct input; try done; [|apply (writer_finish_weight i flow_id tok true s s1 _ Hs Hl eq_refl Hi)].
    intros [= <-]. eexists; split; [done|]. cbn [snd]. set (s2 := record _ (push_written tok payload s)).
    set (s3 := drop_data _ _ _). destruct (try_record_keeps Activity s2) as [Ht Hh].
    assert (tasks s3 = tasks s) as -> by exact Ht.
    assert (channels (heap s3) = channels (heap (push_written tok payload s))) as Hc by (simpl; by rewrite Hh).
    eapply weight_insert; [|done|].
    + eapply (lighter_insert s s3 tok); [exact Hc|]. simpl. lia.
    + simpl. rewrite (channel_of_insert tok _ s s3 tok Hc), decide_True by done. simpl. rewrite Hw. lia.
  - destruct (is_aborted s tok); [apply (writer_finish_weight i flow_id tok false s s _ Hs Hself eq_refl Hi)|].
    destruct (queue (channel_of s tok)) as [|[payload|] q] eqn:Hq.
    + destruct (negb _ || _); [|done].
      destruct (is_closed s tok); [destruct input|]; apply (writer_finish_weight i flow_id tok _ s s _ Hs Hself eq_refl Hi).
    + intros [= <-]. eexists; split; [done|]. cbn [snd]. eapply weight_insert; [|done|].
      * eapply (lighter_insert s _ tok); [reflexivity|]. simpl. rewrite Hq, Hw. simpl. lia.
      * simpl. unfold put_queue. rewrite channel_of_put, decide_True by done. simpl. rewrite Hq, Hw. simpl. lia.
    + set (s1 := control_close tok (put_queue tok q None s)).
      assert (lighter s s1) as Hl by (eapply (lighter_insert s s1 tok); [reflexivity|simpl; rewrite Hq, Hw; simpl; lia]).
      destruct input; apply (writer_finish_weight i flow_id tok _ s s1 _ Hs Hl eq_refl Hi).
Qed.

Lemma run_task_weight i input s s' :
  shutdown (io s) = true → run_task i input s = Some s' →
  (tasks_weight s' (tasks s') < tasks_weight s (tasks s))%nat.
Proof.
  intros Hs. unfold run_task. destruct (tasks s !! i) as [t|] eqn:Hi; [|done].
  assert (∀ t', (task_weight s t' < task_weight s t)%nat →
    (tasks_weight (with_tasks (<[i:=t']> (tasks s)) s) (<[i:=t']> (tasks s)) < tasks_weight s (tasks s))%nat) as Hins.
  { intros t' Ht. eapply weight_insert; [|done|exact Ht]. by apply lighter_channels. }
  assert (∀ p, (tasks_weight (drop_permit p (with_tasks (delete i (tasks s)) s))
    (tasks (drop_permit p (with_tasks (delete i (tasks s)) s))) < tasks_weight s (tasks s))%nat) as Hdel.
  { intros p. rewrite drop_permit_tasks. apply (weight_delete s _ i t); [|done].
    apply lighter_channels. by rewrite drop_permit_heap. }
  destruct t as [p id target policy c|id tok|id tok|id tok|timer id tok side fired| |e permit]; cbn [task_step].
  - unfold open_task_step. rewrite Hs. cbn [orb]. intros [= <-]. apply Hdel.
  - unfold target_reader_step. rewrite Hs. cbn [orb]. intros [= <-]. apply Hins. simpl. lia.
  - unfold udp_reader_step. rewrite Hs. cbn [orb]. intros [= <-]. apply Hins. simpl. lia.
  - destruct (target_writer_step id tok input s) as [r|] eqn:Hr; [|done].
    destruct (target_writer_weight i id tok input s r Hs Hi Hr) as (t' & Ht' & Hlt).
    destruct r as [o s1]. simpl in *. subst o. by intros [= <-].
  - unfold timer_step, send_flow_event_or_shutdown. rewrite Hs. destruct fired; intros [= <-]; exact (Hdel None).
  - unfold datagram_reader_step. rewrite Hs. intros [= <-]. exact (Hdel None).
  - unfold send_flow_event_or_shutdown. rewrite Hs. intros [= <-]. apply Hdel.
Qed.

Lemma abort_task_weight i s t :
  tasks s !! i = Some t → (tasks_weight (abort_task i s) (tasks (abort_task i s)) < tasks_weight s (tasks s))%nat.
Proof.
  intros Hi. unfold abort_task. rewrite Hi.
  destruct t as [| | |id tok| | |]; try (rewrite drop_permit_tasks; eapply (weight_delete s _ i); [|done];
    apply lighter_channels; by rewrite drop_permit_heap).
  set (s1 := with_tasks (delete i (tasks s)) s). set (s2 := match writing _ with Some _ => _ | None => _ end).
  assert (tasks s2 = delete i (tasks s)) as Ht by (unfold s2; by destruct (writing _)).
  rewrite drop_receiver_tasks, Ht. eapply weight_delete; [|done].
  apply (lighter_trans s s2); [|apply drop_receiver_lighter].
  unfold s2. destruct (writing (channel_of s1 tok)) as [p|] eqn:Hw; [|by apply lighter_channels].
  eapply (lighter_insert s _ tok); [reflexivity|]. change (channel_of s1 tok) with (channel_of s tok) in *. simpl. lia.
Qed.

(** A task can always go on when its target does. *)
Lemma task_can_step s i t :
  shutdown (io s) = true → tasks s !! i = Some t →
  ∃ input s', input_ok s t input ∧ run_task i input s = Some s'.
Proof.
  intros Hs Hi. exists TargetWriteDone. unfold run_task. rewrite Hi.
  assert (∃ r, task_step t TargetWriteDone s = Some r) as [r Hr].
  { destruct t as [p id target policy c|id tok|id tok|id tok|timer id tok side fired| |e permit]; cbn [task_step].
    - unfold open_task_step. rewrite Hs. simpl. eauto.
    - unfold target_reader_step. rewrite Hs. simpl. eauto.
    - unfold udp_reader_step. rewrite Hs. simpl. eauto.
    - unfold target_writer_step. destruct (writing _), (is_aborted s tok); unfold writer_finish; eauto.
      destruct (queue _) as [|[]]; eauto. rewrite Hs, orb_true_r. destruct (is_closed s tok); eauto.
    - unfold timer_step, send_flow_event_or_shutdown. rewrite Hs. destruct fired; eauto.
    - unfold datagram_reader_step. rewrite Hs. eauto.
    - unfold send_flow_event_or_shutdown. rewrite Hs. eauto. }
  rewrite Hr. destruct r as [[t'|] s1]; eexists; (split; [by destruct t|done]).
Qed.
End Safety.
End Safety.
