(* ===== verification/RelayTheorems.v ===== *)
(** * RelayTheorems: the guarantees of a relay session

    Theorems about every state a session reaches from its start, read off the
    invariants of RelaySafety. *)

From S2P Require Import Prelude Wire Varint FrameCodec RustStd TargetCodec RelayPayload Settings FrameIo.
From S2P Require Import Auth Policy Mask Security Budget Dialer RelayState RelayHandlers RelaySession.
From S2P Require Import RelayEdits RelayTotal RelaySim RelayInv RelayBudgets RelayStreams RelaySafety.

Module RelayTheorems.
Import Relay Handlers Session Edits Sim Inv Budgets Streams Safety.
Import RelayPayload.Flow.

Section Lemmas.
Context {P : Platform}.

Lemma total_bytes_zero m : (∀ tok c, m !! tok = Some c → held_bytes c = 0) → total_bytes m = 0.
Proof.
  induction m as [|tok c m Hm IH] using map_ind; [done|]. intros Hz. rewrite total_bytes_new by done.
  rewrite (Hz tok c) by apply lookup_insert_eq. rewrite IH; [done|]. intros k ck Hk. apply (Hz k).
  rewrite lookup_insert_ne; [done|]. intros ->. by rewrite Hm in Hk.
Qed.

(** Without writers nothing is buffered. *)
Lemma no_tasks_no_bytes s :
  session_inv s → tasks s = [] → session_bytes (counts s) = 0 ∧ ∀ tok, buffered_bytes (control_of s tok) = 0.
Proof.
  intros Hinv Ht. destruct (inv_bytes s Hinv) as (Hb & Hs & _).
  assert (∀ tok, held_bytes (channel_of s tok) = 0) as Hz.
  { intros tok. destruct (inv_channels s Hinv tok) as (_ & Hst & Hw). unfold stream_ok in Hst.
    destruct (receiver (channel_of s tok)).
    - destruct Hw as [_ [i Hi]]; [done|]. rewrite Ht in Hi. by apply elem_of_nil in Hi.
    - destruct Hst as (Hq & Hwr & _). unfold held_bytes. by rewrite Hq, Hwr. }
  split; [|intros tok; by rewrite Hb]. rewrite Hs. apply total_bytes_zero. intros tok c Hc.
  specialize (Hz tok). unfold channel_of in Hz. by rewrite Hc in Hz.
Qed.

Lemma edits_drain_dom s s' :
  session_inv s → edits s s' → state s = Draining → dom (table s') ⊆ dom (table s).
Proof.
  intros Hinv He. induction He as [|s s1 s' He _ IH]; [done|]. intros Hst.
  destruct (inv_table s Hinv) as (Hn & _).
  destruct (session_inv_edit s s1 Hinv He) as (Hinv1 & _).
  etrans; [apply IH; [done|by rewrite (edit_state_same s s1 He)]|].
  destruct (edit_table_edit s s1 Hn He) as [_ Ht].
  destruct Ht as [-> _|i -> _ _|i slot slot' Hi _ -> _|p i target policy _ Hd _ _ _]; [done| | |done].
  - rewrite dom_delete_L. set_solver.
  - rewrite dom_insert_L. apply elem_of_dom_2 in Hi. set_solver.
Qed.

Lemma loop_turn_session ev visit l :
  session (loop_turn ev visit l) = (handle_session_event ev (session l)).2 ∨
  session (loop_turn ev visit l) = begin_close visit (handle_session_event ev (session l)).2.
Proof.
  unfold loop_turn. destruct (handle_session_event ev (session l)) as [[counts|r] s]; [|by right].
  destruct (if _ && negb _ then _ else _) as [set d]. destruct (_ && _); auto.
Qed.

Lemma turn_drain_dom ev visit l stopping :
  session_inv (session l) → event_enabled l stopping ev → tokens_left (session l) → state (session l) = Draining →
  let l' := with_session (take_event ev (session l)) l in
  visit ≡ₚ (map_to_list (table (handle_session_event ev (session l')).2)).*1 →
  dom (table (session (loop_turn ev visit l'))) ⊆ dom (table (session l)).
Proof.
  intros Hinv Hen Htk Hst l' Hv. destruct (take_event_pre l stopping ev Hinv Hen Htk) as [He Hpre].
  destruct (session_inv_edits _ _ He Hinv) as (Hi & _).
  pose proof (edits_drain_dom _ _ Hinv He Hst) as Hd1. pose proof (edits_state _ _ He) as Hst1. rewrite Hst in Hst1.
  destruct (handle_session_event_edits ev _ Hpre) as (st & He2 & [->|[? _]]); [|congruence].
  rewrite with_state_id in He2. pose proof (edits_drain_dom _ _ Hi He2 Hst1) as Hd2.
  destruct (loop_turn_session ev visit l') as [-> | ->]; [by etrans|].
  rewrite begin_close_table by done. rewrite dom_empty_L. set_solver.
Qed.

(** A reader that has been told to stop writes nothing and counts nothing. *)
Lemma stopped_reader_silent k i tok input s s' :
  told_to_stop s tok → (tasks s !! k = Some (TargetReader i tok) ∨ tasks s !! k = Some (UdpReader i tok)) →
  run_task k input s = Some s' → sent (io s') = sent (io s) ∧ metrics s' = metrics s.
Proof.
  intros Hstop Hk. assert (shutdown (io s) || is_aborted s tok = true) as Hg
    by (destruct Hstop as [-> | ->]; [apply orb_true_r|done]).
  unfold run_task. destruct Hk as [-> | ->]; cbn [task_step]; unfold target_reader_step, udp_reader_step; rewrite Hg;
    by intros [= <-].
Qed.

(** The measure goes down. *)
Lemma closing_rank l : state (session l) = Closing → rank l = S (tasks_weight (session l) (tasks (session l))).
Proof. intros Hst. unfold rank. by rewrite bool_decide_false by congruence. Qed.

Lemma closing_task_rank l i input s' t :
  session_inv (session l) → state (session l) = Closing → shutdown (io (session l)) = true →
  tasks (session l) !! i = Some t → input_ok (session l) t input →
  run_task i input (session l) = Some s' → (rank (with_session s' l) < rank l)%nat.
Proof.
  intros Hinv Hst Hs Hi Hin Hrun. assert (edits (session l) s') as He.
  { eapply run_task_edits; [done| |done|done]. apply task_pre_inv; [done|by eapply list_elem_of_lookup_2]. }
  rewrite !closing_rank; [|done|simpl; by rewrite (edits_state _ _ He)].
  apply run_task_weight in Hrun; [|done]. simpl. lia.
Qed.

Lemma closing_abort_rank l i t :
  state (session l) = Closing → shutdown (io (session l)) = true → tasks (session l) !! i = Some t →
  (rank (with_session (abort_task i (session l)) l) < rank l)%nat.
Proof.
  intros Hst Hs Hi. rewrite !closing_rank; [|done|].
  - pose proof (abort_task_weight i _ _ Hi). simpl. lia.
  - simpl. by rewrite (edits_state _ _ (abort_task_edits i _ Hs)).
Qed.

Lemma closing_finish_rank l :
  state (session l) = Closing → (rank (with_session (finish_close (session l)) l) < rank l)%nat.
Proof.
  intros Hst. rewrite (closing_rank l Hst). unfold rank. simpl. unfold finish_close, transition. simpl. rewrite Hst.
  simpl. lia.
Qed.
End Lemmas.

Section Guarantees.
Context {P : Platform}.
Context (c : Config) (w : Io) (idle_after : option Z) (datagrams : bool) (bytes flows : Z).
Context (Hstart : start_ok c bytes flows).
Context (l : Loop) (Hreach : reachable (loop_start c w idle_after datagrams bytes flows) l).

#[local] Lemma reached_inv : loop_inv l.
Proof. eapply reachable_inv; [|exact Hreach]. by apply loop_start_inv. Qed.
#[local] Lemma reached_session_inv : session_inv (session l).
Proof. apply reached_inv. Qed.

(** C3: In every reachable state of a relay session, whatever the client sends and
    however the tasks interleave, the flow table holds only flow ids the client may
    initiate, at most [max_streams] flows and at most [max_udp_flows] UDP flows, and
    the event queue never exceeds its capacity. *)
Theorem flow_table_bounded :
  map_Forall (λ i _, is_client_initiated_flow_id i = true) (table (session l)) ∧
  table_len (table (session l)) ≤ max_streams (limits (cfg (session l))) ∧
  udp_flow_count (table (session l)) ≤ max_udp_flows (limits (cfg (session l))) ∧
  zlen (events (session l)) ≤ session_event_queue_capacity (limits (cfg (session l))).
Proof.
  destruct (inv_table _ reached_session_inv) as (_ & H1 & H2 & H3). pose proof (inv_queue _ reached_session_inv).
  by split_and!.
Qed.

(** C1: Every established flow goes where its own request asked, under the policy
    that request was admitted with.  The connected address of the flow at id [i] is
    permitted by the policy snapshot of the latest request for [i], for that
    request's target and protocol: a dial that completes late, after its id was
    closed and opened again for another target, is never wired in. *)
Theorem flows_go_where_requested i slot addr :
  table (session l) !! i = Some slot → slot_peer slot = Some addr →
  ∃ tok rq, slot_permit slot = Some tok ∧ requested (session l) !! tok = Some rq ∧
    rq_flow rq = i ∧ rq_protocol rq = slot_protocol slot ∧
    (∀ tok' rq', requested (session l) !! tok' = Some rq' → rq_flow rq' = i → tok' ≤ tok) ∧
    Dialer.dial_permitted (rq_target rq) (identity (cfg (session l))) (rq_policy rq) addr.
Proof.
  intros Hi Hp. destruct (inv_wire _ reached_session_inv) as (_ & Hslots & _).
  destruct (Hslots i slot Hi) as (tok & rq & Hperm & (Hreq & Hfl & Hlast) & Hproto & _ & Hd).
  exists tok, rq. split_and!; auto.
Qed.


(** C2: The bytes a session buffers are accounted exactly.  In every reachable state
    the counter of each flow is what its command channel and its writer hold, the
    session counter is the sum over all flows, and the limits per flow, per session
    and for the whole process hold. *)
Theorem buffered_bytes_accounted :
  (∀ tok, buffered_bytes (control_of (session l) tok) = held_bytes (channel_of (session l) tok) ∧
          buffered_bytes (control_of (session l) tok) ≤ max_buffered_bytes_per_flow (limits (cfg (session l)))) ∧
  session_bytes (counts (session l)) = total_bytes (channels (heap (session l))) ∧
  session_bytes (counts (session l)) ≤ max_buffered_bytes_per_session (limits (cfg (session l))) ∧
  session_bytes (counts (session l)) ≤ global_bytes (counts (session l)) ≤ global_buffer_limit (cfg (session l)).
Proof.
  destruct (inv_bytes _ reached_session_inv) as (H1 & H2 & H3 & H4 & H5 & _). split_and!; auto; lia.
Qed.

(** C11: A session never takes more of the shared budgets than it holds and never
    leaks any of it.  Every step of the loop, of a task or of the teardown leaves
    the other sessions' shares of the global flow budget and of the global byte
    budget as they were, and the flow permits in use stay within the global limit. *)
Theorem shared_budgets_conserved l' :
  step l l' →
  world_step (session l) (session l') ∨
  global_flows (counts (session l')) - Z.of_nat (size (live_permits (session l'))) =
    global_flows (counts (session l)) - Z.of_nat (size (live_permits (session l))) ∧
  global_bytes (counts (session l')) - session_bytes (counts (session l')) =
    global_bytes (counts (session l)) - session_bytes (counts (session l)) ∧
  Z.of_nat (size (live_permits (session l'))) ≤ global_flows (counts (session l')) ≤
    global_flow_limit (cfg (session l')).
Proof.
  intros Hstep. destruct (step_inv l l' Hstep reached_inv) as [[Hinv _] [Hw|[Hf Hb]]]; [by left|right].
  split_and!; [exact Hf|exact Hb|apply (inv_permits _ Hinv)..].
Qed.

(** A closed session holds nothing: no flow, no task, no flow permit and no
    buffered byte, so its shares of the global budgets are back. *)
Theorem closed_session_holds_nothing :
  state (session l) = Closed →
  table (session l) = ∅ ∧ tasks (session l) = [] ∧ live_permits (session l) = ∅ ∧
  session_bytes (counts (session l)) = 0 ∧ ∀ tok, buffered_bytes (control_of (session l) tok) = 0.
Proof.
  intros Hst. destruct reached_inv as [Hinv Hph]. unfold phase_ok in Hph. rewrite Hst in Hph.
  destruct (outcome l); [|naive_solver]. destruct Hph as (_ & Ht & _ & [?|[_ Hk]]); [done|].
  destruct (no_tasks_no_bytes _ Hinv Hk) as [Hs Hb]. split_and!; [done|done| |done|done].
  unfold live_permits. by rewrite Ht, Hk.
Qed.


(** A draining session takes no new flows and does not outlive them.  While the
    session drains some flow is left and the drain deadline is set, and no step adds
    a flow id to the table. *)
Theorem draining_admits_nothing l' :
  outcome l = None → state (session l) = Draining → step l l' →
  table (session l) ≠ ∅ ∧ drain_deadline_set l = true ∧ dom (table (session l')) ⊆ dom (table (session l)).
Proof.
  intros Ho Hst Hstep. destruct reached_inv as [Hinv Hph]. unfold phase_ok in Hph. rewrite Ho, Hst in Hph.
  destruct Hph as [?|(_ & Ht & Hd)]; [done|]. split; [done|]. split; [done|].
  destruct Hstep as [l stopping ev visit _ Hen Htk l' Hv|l i t input s' Hi Hin Hrun|l s' Hw|l i Ho' _ _ _|l Ho' _ _].
  - by eapply turn_drain_dom.
  - simpl. by rewrite (run_task_table _ _ _ _ Hrun).
  - by destruct Hw as (? & ? & ? & ? & ? & ? & ? & _ & _ & _ & ->).
  - done.
  - done.
Qed.

(** C21: No client input crashes a session.  Whatever frames arrive, well-formed or
    not, and however the dials, the writes and the tasks come out, the loop is left
    with a value or an error and never by a panic: no slice of a payload is out of
    range and no state transition is one the debug assertion forbids.  The session's
    state is always one of those of its phase. *)
Theorem session_never_panics :
  outcome l ≠ Some Panic ∧
  (outcome l = None → state (session l) = Relaying ∨ state (session l) = Draining) ∧
  (outcome l ≠ None → state (session l) = Closing ∨ state (session l) = Closed).
Proof.
  destruct reached_inv as [_ Hph]. unfold phase_ok in Hph.
  destruct (outcome l) as [r|]; split_and!; try done; naive_solver.
Qed.

End Guarantees.

(** ** A run: a client opens a TCP flow, sends on it, and leaves *)

Module Demo.
#[local] Existing Instance platform64.

Definition turn (ev : SessionEvent) (l : Loop) : Loop :=
  loop_turn ev (map_to_list (table (handle_session_event ev (take_event ev (session l))).2)).*1
    (with_session (take_event ev (session l)) l).
Definition run (i : nat) (input : task_input) (l : Loop) : Loop :=
  with_session (default (session l) (run_task i input (session l))) l.

Lemma turn_step l ev :
  outcome l = None → event_enabled l false ev → (next_token (counts (session l)) <? 2 ^ 64 - 1) = true →
  step l (turn ev l).
Proof. intros Ho He Ht. apply (step_turn l false); [done|done|by apply Z.ltb_lt|done]. Qed.

Lemma frame_step l f :
  outcome l = None → forallb (λ b, (0 <=? b) && (b <? 256)) (Frame.payload f) = true →
  (zlen (Frame.payload f) <=? USIZE_MAX) = true → (next_token (counts (session l)) <? 2 ^ 64 - 1) = true →
  step l (turn (FrameEv f) l).
Proof.
  intros Ho Hb Hl Ht. apply turn_step; [done| |done]. unfold event_enabled. rewrite orb_true_r.
  split; [|by apply Z.leb_le]. apply Forall_forall. intros b Hin. rewrite forallb_forall in Hb.
  specialize (Hb b). apply list_elem_of_In, Hb in Hin. unfold in_width. lia.
Qed.

Lemma run_step l i t input :
  tasks (session l) !! i = Some t → input_ok (session l) t input →
  (if run_task i input (session l) then true else false) = true → step l (run i input l).
Proof.
  intros Ht Hin Hr. unfold run. destruct (run_task i input (session l)) as [s'|] eqn:Hs; [|done].
  by apply (step_task l i t input).
Qed.

Lemma woken_step l i t :
  tasks (session l) !! i = Some t → (if run_task i Woken (session l) then true else false) = true →
  step l (run i Woken l).
Proof. intros Ht. apply (run_step l i t Woken Ht). by destruct t. Qed.

Definition frame_of_payload (ft : Frame.FrameType) (p : Bytes) : Frame.Frame :=
  match Frame.frame_new ft 0 1 p with
  | Ok f => f
  | _ => {| Frame.header := {| Frame.version := 1; Frame.frame_type := ft; Frame.flags := 0; Frame.id := 0; Frame.length := 0 |};
            Frame.payload := [] |}
  end.
Definition open_payload : Bytes :=
  match RelayPayload.Tcp.open_encode {| RelayPayload.Tcp.target := Dialer.demo_target;
                                        RelayPayload.Tcp.open_flags := 0 |} with
  | Ok p => p | _ => [] end.

Definition demo_limits : RelayLimits :=
  {| frame := Frame.FrameLimits_default; max_streams := 4; max_udp_flows := 2; max_outbound_dials_per_session := 8;
     data_frame_size := 1024; max_buffered_bytes_per_session := 4096; max_buffered_bytes_per_flow := 2048;
     target_connect_timeout := None; tcp_half_close_timeout := Some 5; carrier_write_timeout := None;
     udp_flow_idle_timeout := None; session_task_shutdown_timeout := Some 5 |}.
Definition demo_config : Config :=
  {| limits := demo_limits; identity := Dialer.demo_identity; global_buffer_limit := 65536;
     global_flow_limit := 64 |}.
Definition demo_security : Security.SecurityState unit :=
  Security.state_new
    {| Security.m_acceptor := tt; Security.m_credentials := [Security.demo_credential Auth.Active];
       Security.m_keys := []; Security.m_policy := Policy.example_policy; Security.m_skew := 0 |}.
Definition demo_io : Io :=
  {| sent := []; carrier_script := []; udp_script := []; shutdown := false; now := 0; unix_now := 1700000000;
     security := demo_security |}.

Definition started : Loop := loop_start demo_config demo_io None false 0 0.
Definition opened : Loop := turn (FrameEv (frame_of_payload Frame.TcpOpen open_payload)) started.
Definition dialed : Loop := run 0 (Dialed (Ok (Dialer.demo_addr 8))) opened.
Definition reported : Loop := run 0 Woken dialed.
Definition established : Loop :=
  turn (FlowEv (OpenCompleted 1 1 Dialer.demo_target (Ok (Dialer.demo_addr 8)))) reported.
Definition loaded : Loop := turn (FrameEv (frame_of_payload Frame.TcpData [104; 105])) established.

Lemma started_ok : start_ok demo_config 0 0.
Proof. vm_compute. repeat split; discriminate. Qed.

Lemma established_reachable : reachable started established.
Proof.
  apply (rtc_l _ _ opened).
  { apply frame_step; vm_compute; reflexivity. }
  apply (rtc_l _ _ dialed).
  { eapply run_step; [vm_compute; reflexivity| |vm_compute; reflexivity].
    exists (Some 5), (Ok [Dialer.demo_addr 8; Dialer.demo_addr 9]), false, Dialer.demo_passes.
    split; [repeat constructor; done|]. split; [discriminate|vm_compute; reflexivity]. }
  apply (rtc_l _ _ reported).
  { eapply woken_step; vm_compute; reflexivity. }
  apply rtc_once. apply turn_step; [reflexivity|vm_compute; reflexivity|vm_compute; reflexivity].
Qed.

Lemma loaded_reachable : reachable started loaded.
Proof. eapply rtc_r; [exact established_reachable|]. apply frame_step; vm_compute; reflexivity. Qed.

(** The target takes the data, the client closes its side, and the writer ends. *)
Definition taken : Loop := run 1 Woken loaded.
Definition delivered : Loop := run 1 TargetWriteDone taken.
Definition half_closed : Loop := turn (FrameEv (frame_of_payload Frame.TcpClose [0; 0])) delivered.
Definition writer_done : Loop := run 1 Woken half_closed.

Lemma writer_done_reachable : reachable started writer_done.
Proof.
  unfold reachable. etrans; [exact loaded_reachable|].
  apply (rtc_l _ _ taken); [eapply woken_step; vm_compute; reflexivity|].
  apply (rtc_l _ _ delivered); [eapply run_step; [vm_compute; reflexivity|exact I|vm_compute; reflexivity]|].
  apply (rtc_l _ _ half_closed); [apply frame_step; vm_compute; reflexivity|].
  apply rtc_once. eapply woken_step; vm_compute; reflexivity.
Qed.

(** The client leaves and the session closes. *)
Definition closing : Loop := turn PeerClosed established.
Definition ended : Loop := run 0 Woken (run 0 Woken (run 0 Woken (run 0 Woken closing))).
Definition finished : Loop := with_session (finish_close (session ended)) ended.

Lemma closing_reachable : reachable started closing.
Proof.
  eapply rtc_r; [exact established_reachable|].
  apply turn_step; [vm_compute; reflexivity|vm_compute; exact I|vm_compute; reflexivity].
Qed.

Lemma finished_reachable : reachable started finished.
Proof.
  unfold reachable. etrans; [exact closing_reachable|].
  apply (rtc_l _ _ (run 0 Woken closing)); [eapply woken_step; vm_compute; reflexivity|].
  apply (rtc_l _ _ (run 0 Woken (run 0 Woken closing))); [eapply woken_step; vm_compute; reflexivity|].
  apply (rtc_l _ _ (run 0 Woken (run 0 Woken (run 0 Woken closing)))); [eapply woken_step; vm_compute; reflexivity|].
  apply (rtc_l _ _ ended); [eapply woken_step; vm_compute; reflexivity|].
  apply rtc_once. apply step_finish; vm_compute; [discriminate|reflexivity|reflexivity].
Qed.

Definition draining : Loop := turn ShutdownEv established.
Lemma draining_reachable : reachable started draining.
Proof.
  eapply rtc_r; [exact established_reachable|].
  apply turn_step; [vm_compute; reflexivity|vm_compute; discriminate|vm_compute; reflexivity].
Qed.

Lemma flow_table_bounded_witness :
  size (table (session established)) = 1%nat ∧ table_len (table (session established)) ≤ 4.
Proof.
  split; [vm_compute; reflexivity|].
  apply (flow_table_bounded demo_config demo_io None false 0 0 started_ok established established_reachable).
Defined.

Lemma flows_go_where_requested_witness :
  ∃ rq, requested (session established) !! 1 = Some rq ∧
    Dialer.dial_permitted (rq_target rq) Dialer.demo_identity (rq_policy rq) (Dialer.demo_addr 8).
Proof.
  destruct (flows_go_where_requested demo_config demo_io None false 0 0 started_ok established
    established_reachable 1 (Tcp (target_flow_new 2 (Some 1) (Dialer.demo_addr 8))) (Dialer.demo_addr 8))
    as (tok & rq & Htok & Hreq & _ & _ & _ & Hd); [vm_compute; reflexivity|reflexivity|].
  injection Htok as <-. exists rq. split; [exact Hreq|exact Hd].
Defined.


Lemma buffered_bytes_accounted_witness :
  session_bytes (counts (session loaded)) = 2 ∧
  buffered_bytes (control_of (session loaded) 2) = held_bytes (channel_of (session loaded) 2).
Proof.
  split; [vm_compute; reflexivity|].
  apply (buffered_bytes_accounted demo_config demo_io None false 0 0 started_ok loaded loaded_reachable).
Defined.

Lemma shared_budgets_conserved_witness :
  step established loaded ∧
  (world_step (session established) (session loaded) ∨
   Z.of_nat (size (live_permits (session loaded))) ≤ global_flows (counts (session loaded))).
Proof.
  assert (step established loaded) as Hs
    by (apply frame_step; vm_compute; reflexivity).
  split; [exact Hs|].
  destruct (shared_budgets_conserved demo_config demo_io None false 0 0 started_ok established
    established_reachable loaded Hs) as [Hw|(_ & _ & Hle & _)]; [left; exact Hw|right; exact Hle].
Defined.


Lemma session_never_panics_witness :
  outcome (turn (FrameEv (frame_of_payload Frame.TcpOpen [255])) established) = None ∧
  outcome (turn (FrameEv (frame_of_payload Frame.Settings [255])) established) ≠ Some Panic.
Proof.
  split; [vm_compute; reflexivity|].
  apply (session_never_panics demo_config demo_io None false 0 0 started_ok
    (turn (FrameEv (frame_of_payload Frame.Settings [255])) established)).
  eapply rtc_r; [exact established_reachable|]. apply frame_step; vm_compute; reflexivity.
Defined.

End Demo.
End RelayTheorems.
