(* ===== verification/ServerRuntime.v ===== *)
(** * ServerRuntime: starting, reloading and admitting (crates/uk-server/src/lib.rs)

    What a configuration becomes at start-up, what a reload may change of it, what
    the server announces and hands to a session, and how a TCP connection gets from
    the listener to the handshake.  The TLS and QUIC libraries enter as what they
    answer to the material they are given. *)

From S2P Require Import Prelude Wire Varint FrameCodec RustStd Endpoint TargetCodec RelayPayload Settings FrameIo.
From S2P Require Import Auth Policy Mask MaskReplay MaskStream MaskUdp RateLimit ServerConfig Security Masking.
From S2P Require Import Budget Dialer RelayState RelaySession RelaySafety.

Module ServerRuntime.
Import ServerConfig.

(** ** Conversions *)

Definition NANOS : Z := 1000000000.
Definition from_secs (seconds : Z) : Z := seconds * NANOS.

(** [handshake_timeout], [target_connect_timeout] and [tcp_half_close_timeout] are
    the same function. *)
(* @src crates/uk-server/src/lib.rs 1662-1664 idle_timeout *)
Definition idle_timeout (seconds : Z) : option Z := if seconds =? 0 then None else Some (from_secs seconds).
(** So are [udp_flow_idle_timeout] and [listener_shutdown_timeout]. *)
(* @src crates/uk-server/src/lib.rs 1703-1705 carrier_write_timeout *)
Definition carrier_write_timeout (seconds : Z) : option Z :=
  if seconds =? 0 then None else Some (from_secs seconds).

Section Conversions.
Context {P : Platform}.

(* @src crates/uk-server/src/lib.rs 1804-1806 usize_limit *)
Definition usize_limit (name : string) (value : Z) : ConfigResult Z :=
  ok_or (TooLargeForPlatform name) (usize_try_from value).

(* @src crates/uk-server/src/lib.rs 1641-1660 server_settings *)
Definition server_settings (c : ServerConfig) (supports_udp_datagram : bool) : Settings.Settings :=
  let s := Settings.Settings_default in
  let s := Settings.set s Settings.ProtocolRevision Settings.PROTOCOL_REVISION_V1_0 in
  let s := Settings.set s Settings.MaxFrameSize (max_frame_size c) in
  let s := Settings.set s Settings.MaxStreams (max_streams c) in
  let s := Settings.set s Settings.MaxUdpFlows (max_udp_flows c) in
  let s := Settings.set s Settings.SupportsUdpDatagram
             (Z.b2z (supports_udp_datagram && negb (max_udp_flows c =? 0))) in
  let s := Settings.set s Settings.SupportsUdpStreamFallback (Z.b2z (negb (max_udp_flows c =? 0))) in
  Settings.set s Settings.IdleTimeoutSeconds (idle_timeout_seconds c).

(* @src crates/uk-server/src/lib.rs 1311-1338 run_authenticated_session *)
Definition relay_limits (c : ServerConfig) : ConfigResult Relay.RelayLimits :=
  let frame := {| Frame.max_frame_size := max_frame_size c |} in
  let? dials := usize_limit "max_outbound_dials_per_session" (max_outbound_dials_per_session c) in
  let? session_bytes := usize_limit "max_buffered_bytes_per_session" (max_buffered_bytes_per_session c) in
  let? flow_bytes := usize_limit "max_buffered_bytes_per_flow" (max_buffered_bytes_per_flow c) in
  Ok {| Relay.frame := frame;
        Relay.max_streams := max_streams c;
        Relay.max_udp_flows := max_udp_flows c;
        Relay.max_outbound_dials_per_session := dials;
        Relay.data_frame_size := Relay.tcp_data_frame_size frame (Some (relay_buffer_size c));
        Relay.max_buffered_bytes_per_session := session_bytes;
        Relay.max_buffered_bytes_per_flow := flow_bytes;
        Relay.target_connect_timeout := idle_timeout (target_connect_timeout_seconds c);
        Relay.tcp_half_close_timeout := idle_timeout (tcp_half_close_timeout_seconds c);
        Relay.carrier_write_timeout := carrier_write_timeout (carrier_write_timeout_seconds c);
        Relay.udp_flow_idle_timeout := carrier_write_timeout (udp_flow_idle_timeout_seconds c);
        Relay.session_task_shutdown_timeout := carrier_write_timeout (shutdown_timeout_seconds c) |}.

(** The limits of the budgets all sessions share. *)
(* @src crates/uk-server/src/lib.rs 439-443 run_on_listener_inner *)
Definition global_limits (c : ServerConfig) : ConfigResult (Z * Z) :=
  let? bytes := usize_limit "max_total_buffered_bytes" (max_total_buffered_bytes c) in
  let? flows := usize_limit "max_total_streams" (max_total_streams c) in
  Ok (bytes, flows).

(** What the relay is started with for an authenticated peer. *)
Definition session_config (c : ServerConfig) (identity : Auth.AuthenticatedIdentity) : ConfigResult Relay.Config :=
  let? global := global_limits c in
  let? limits := relay_limits c in
  Ok {| Relay.limits := limits; Relay.identity := identity;
        Relay.global_buffer_limit := global.1; Relay.global_flow_limit := global.2 |}.

(* @src crates/uk-server/src/lib.rs 551-551 SHUTDOWN_DRAIN_BUFFER *)
Definition SHUTDOWN_DRAIN_BUFFER : Z := from_secs 2.

(** The largest [Duration], and the last instant of the clock. *)
Definition DURATION_MAX : Z := U64_MAX * NANOS + (NANOS - 1).

(* @src crates/uk-server/src/lib.rs 553-564 shutdown_deadline *)
Definition shutdown_deadline (instant_max now : Z) (shutdown_timeout : option Z) : option Z :=
  shutdown_timeout ≫= λ timeout,
    let timeout :=
      (if from_secs 1 <=? timeout then
         let sum := timeout + SHUTDOWN_DRAIN_BUFFER in
         if sum <=? DURATION_MAX then sum else timeout
       else timeout) in
    if now + timeout <=? instant_max then Some (now + timeout) else None.
End Conversions.

(** ** The pause after a failed [accept] *)

(* @src crates/uk-server/src/lib.rs 62-62 ACCEPT_RETRY_BASE_MILLIS *)
Definition ACCEPT_RETRY_BASE_MILLIS : Z := 10.
Definition ACCEPT_RETRY_MAX_MILLIS : Z := 1000.
Definition U32_MAX : Z := 2 ^ 32 - 1.

(** The state is [consecutive_failures]; the delay is in milliseconds. *)
(* @src crates/uk-server/src/lib.rs 152-160 ListenerAcceptBackoff::next_delay *)
Definition next_delay (consecutive_failures : Z) : Z * Z :=
  let shift := Z.min consecutive_failures 7 in
  (Z.min (Z.min (ACCEPT_RETRY_BASE_MILLIS * Z.shiftl 1 shift) U64_MAX) ACCEPT_RETRY_MAX_MILLIS,
   Z.min (consecutive_failures + 1) U32_MAX).

(** The delays after [n] failures in a row that follow a successful [accept], which
    resets the counter. *)
(* @src crates/uk-server/src/lib.rs 162-164 ListenerAcceptBackoff::reset *)
Definition reset : Z := 0.
Fixpoint delays (n : nat) (consecutive_failures : Z) : list Z :=
  match n with
  | O => []
  | S n' => let '(d, k) := next_delay consecutive_failures in d :: delays n' k
  end.

(** ** Start-up and reload *)

Inductive RuntimeError : Set :=
  | Invalid (e : ConfigError)
  | TlsMaterial
  | QuicRejected
  | RequiresRestart (field : string)
  | ReloadTimedOut
  | LoadFailed (reason : string).

#[global] Instance MaskingConfig_eq_dec : EqDecision MaskingConfig.
Proof. solve_decision. Defined.

(* @src crates/uk-server/src/lib.rs 754-763 take_runtime_credentials *)
Definition take_runtime_credentials (c : ServerConfig) : Auth.AuthResult (list Auth.Credential) * ServerConfig :=
  (load c, {| listen := listen c; quic_listen := quic_listen c; observability_listen := observability_listen c;
              cert_path := cert_path c; key_path := key_path c; c_auth_skew_seconds := c_auth_skew_seconds c;
              limits := limits c; policy_path := policy_path c; credentials := []; masking := masking c |}).

(* @src crates/uk-server/src/lib.rs 888-903 changed_static_config_field *)
Definition changed_static_config_field (current candidate : ServerConfig) : option string :=
  if negb (bool_decide (listen current = listen candidate)) then Some "listen"%string
  else if negb (bool_decide (quic_listen current = quic_listen candidate)) then Some "quic_listen"%string
  else if negb (bool_decide (observability_listen current = observability_listen candidate))
  then Some "observability_listen"%string
  else if negb (bool_decide (masking current = masking candidate)) then Some "masking"%string
  else None.

(* @src crates/uk-server/src/lib.rs 905-986 reload_static_limits *)
Definition reload_static_limits (c : ServerConfig) : list (string * Z) :=
  [("max_pre_auth_bytes", max_pre_auth_bytes c);
   ("max_frame_size", max_frame_size c);
   ("max_sessions", max_sessions c);
   ("max_handshakes", max_handshakes c);
   ("max_streams", max_streams c);
   ("max_udp_flows", max_udp_flows c);
   ("max_outbound_dials_per_session", max_outbound_dials_per_session c);
   ("max_buffered_bytes_per_session", max_buffered_bytes_per_session c);
   ("idle_timeout_seconds", idle_timeout_seconds c);
   ("max_buffered_bytes_per_flow", max_buffered_bytes_per_flow c);
   ("max_total_streams", max_total_streams c);
   ("max_total_buffered_bytes", max_total_buffered_bytes c);
   ("handshake_timeout_seconds", handshake_timeout_seconds c);
   ("target_connect_timeout_seconds", target_connect_timeout_seconds c);
   ("tcp_half_close_timeout_seconds", tcp_half_close_timeout_seconds c);
   ("carrier_write_timeout_seconds", carrier_write_timeout_seconds c);
   ("tcp_keepalive_seconds", tcp_keepalive_seconds c);
   ("udp_flow_idle_timeout_seconds", udp_flow_idle_timeout_seconds c);
   ("shutdown_timeout_seconds", shutdown_timeout_seconds c);
   ("replay_cache_window_seconds", replay_cache_window_seconds c);
   ("replay_cache_max_entries", replay_cache_max_entries c);
   ("relay_buffer_size", relay_buffer_size c);
   ("auth_rate_limit_failures", RateLimit.max_failures (auth_rate_limit_config c));
   ("auth_rate_limit_window_seconds", RateLimit.window_secs (auth_rate_limit_config c));
   ("auth_rate_limit_ban_seconds", RateLimit.ban_secs (auth_rate_limit_config c));
   ("quic_stream_receive_window", quic_stream_receive_window c);
   ("quic_connection_receive_window", quic_connection_receive_window c)]%string.

(** The first pair of limits that differ. *)
Fixpoint first_changed (current candidate : list (string * Z)) : option string :=
  match current, candidate with
  | (name, v) :: current', (_, v') :: candidate' =>
    if negb (v =? v') then Some name else first_changed current' candidate'
  | _, _ => None
  end.

(* @src crates/uk-server/src/lib.rs 867-886 ensure_reload_compatible *)
Definition ensure_reload_compatible (current candidate : ServerConfig) : result RuntimeError unit :=
  match changed_static_config_field current candidate with
  | Some field => Err (RequiresRestart field)
  | None =>
    if negb (bool_decide (auth_rate_limit_allowlist current = auth_rate_limit_allowlist candidate))
    then Err (RequiresRestart "auth_rate_limit_allowlist")
    else match first_changed (reload_static_limits current) (reload_static_limits candidate) with
         | Some name => Err (RequiresRestart name)
         | None => Ok tt
         end
  end.

Section Runtime.
Context {P : Platform} {H : Mask.HmacSha256} {C : MaskStream.ChaCha20} {T : Type}.
(** What rustls makes of a certificate and key path, whether quinn takes the result,
    and the files. *)
Context (tls_config : Bytes → Bytes → option T) (quic_crypto : T → bool) (fs : Files).

(** The transport parameters this code sets. *)
Record QuicConfig : Type := {
  q_crypto : T;
  q_stream_receive_window : Z;
  q_receive_window : Z;
  q_mtu_upper_bound : option Z;
  q_idle_millis : option Z
}.

(** quinn's [IdleTimeout] is a QUIC varint of milliseconds. *)
Definition idle_millis (d : Z) : option Z := if d / 1000000 <? 2 ^ 62 then Some (d / 1000000) else None.

(* @src crates/uk-server/src/quic.rs 126-159 server_config_with_transport_params_masked *)
Definition server_config_with_transport_params_masked (crypto : T) (idle : option Z)
    (stream_window connection_window : Z) (masked : bool) : result RuntimeError QuicConfig :=
  if negb (quic_crypto crypto) then Err QuicRejected else
  let? idle := match idle with
               | None => Ok None
               | Some d => let? ms := ok_or QuicRejected (idle_millis d) in Ok (Some ms)
               end in
  Ok {| q_crypto := crypto; q_stream_receive_window := stream_window; q_receive_window := connection_window;
        q_mtu_upper_bound := if masked then Some Udp.masked_mtu_upper_bound else None; q_idle_millis := idle |}.

(* @src crates/uk-server/src/quic.rs 110-124 server_config_with_transport_params *)
Definition server_config_with_transport_params (crypto : T) (idle : option Z)
    (stream_window connection_window : Z) : result RuntimeError QuicConfig :=
  server_config_with_transport_params_masked crypto idle stream_window connection_window false.

(* @src crates/uk-server/src/lib.rs 768-779 derive_mask_keys *)
Definition derive_mask_keys (c : ServerConfig) (creds : list Auth.Credential) : list Mask.MaskKeys :=
  if negb (masking_enabled c) && negb (masking_quic_enabled c) then []
  else (λ cr, Mask.derive (Auth.key_id cr) (Auth.secret cr)) <$> creds.

(** The keys of the QUIC listener: an [expect] that finds nothing panics. *)
(* @src crates/uk-server/src/lib.rs 785-801 build_masking_state *)
Definition quic_mask_keys (c : ServerConfig) (m : MaskingConfig) : result RuntimeError (option Mask.MaskKeys) :=
  if masking_quic_enabled c then
    match quic_key_id m with
    | None => Panic
    | Some key_id =>
      match find (λ credential, bool_decide (cc_key_id credential = key_id)) (credentials c) with
      | None => Panic
      | Some credential => Ok (Some (Mask.derive (cc_key_id credential) (cc_secret credential)))
      end
    end
  else Ok None.

(* @src crates/uk-server/src/lib.rs 783-820 build_masking_state *)
Definition build_masking_state (c : ServerConfig) : result RuntimeError (option Masking.MaskingState) :=
  match masking c with
  | None => Ok None
  | Some m =>
    let? quic_keys := quic_mask_keys c m in
    match Masking.masking_new (masking_replay_identities c) quic_keys with
    | Ok state => Ok (Some state)
    | _ => Panic
    end
  end.

(* @src crates/uk-server/src/lib.rs 186-196 ServerRuntime *)
Record ServerRuntime : Type := {
  rt_config : ServerConfig;
  rt_security : Security.SecurityState T;
  rt_replay_cache : Auth.ReplayCache;
  rt_limiter : RateLimit.AuthRateLimiter;
  rt_max_sessions : Z;
  rt_max_handshakes : Z;
  rt_masking : option Masking.MaskingState
}.

(* @src crates/uk-server/src/lib.rs 712-752 prepare_server_runtime *)
Definition prepare_server_runtime (now : Z) (c : ServerConfig) : result RuntimeError ServerRuntime :=
  let? _ := map_err Invalid (validate_network_endpoints c) in
  let? _ := map_err Invalid (validate_limits c) in
  let? _ := map_err Invalid (validate_sensitive_paths fs c) in
  let? mask := build_masking_state c in
  let? acceptor := ok_or TlsMaterial (tls_config (cert_path c) (key_path c)) in
  let '(creds, c) := take_runtime_credentials c in
  let? creds := map_err (λ e, Invalid (BadCredential e)) creds in
  let keys := derive_mask_keys c creds in
  let? policy := map_err Invalid (policy_set fs c) in
  let security := Security.state_new
    {| Security.m_acceptor := acceptor; Security.m_credentials := creds; Security.m_keys := keys;
       Security.m_policy := policy; Security.m_skew := from_secs (auth_skew_seconds c) |} in
  let? entries := map_err Invalid (usize_limit "replay_cache_max_entries" (replay_cache_max_entries c)) in
  let cache := Auth.with_max_entries (from_secs (replay_cache_window_seconds c)) entries in
  let limiter := RateLimit.with_allowlist (auth_rate_limit_config c) (auth_rate_limit_allowlist_cidrs c) now in
  let? sessions := map_err Invalid (usize_limit "max_sessions" (max_sessions c)) in
  let? handshakes := map_err Invalid (usize_limit "max_handshakes" (max_handshakes c)) in
  Ok {| rt_config := c; rt_security := security; rt_replay_cache := cache; rt_limiter := limiter;
        rt_max_sessions := sessions; rt_max_handshakes := handshakes; rt_masking := mask |}.

(* @src crates/uk-server/src/lib.rs 581-602 build_quic_endpoint *)
Definition build_quic_endpoint (c : ServerConfig) (mask : option Masking.MaskingState)
    : result RuntimeError (option QuicConfig) :=
  match quic_listen c with
  | None => Ok None
  | Some l =>
    let? _ := ok_or (Invalid (Refused "invalid quic_listen address")) (parse_socket_addr l) in
    let? crypto := ok_or TlsMaterial (tls_config (cert_path c) (key_path c)) in
    let masked_keys := mask ≫= Masking.quic_keys in
    let? config := server_config_with_transport_params_masked crypto (idle_timeout (idle_timeout_seconds c))
                     (quic_stream_receive_window c) (quic_connection_receive_window c)
                     (bool_decide (is_Some masked_keys)) in
    Ok (Some config)
  end.

(** What a reload can change: the security generation, and the configuration the
    QUIC endpoint gives to new connections. *)
Record Live : Type := { live_security : Security.SecurityState T; live_quic : option QuicConfig }.

(* @src crates/uk-server/src/lib.rs 822-865 apply_security_reload *)
Definition apply_security_reload (current : ServerConfig) (live : Live) (candidate : ServerConfig)
    : result RuntimeError Z * Live :=
  let built :=
    let? _ := ensure_reload_compatible current candidate in
    let? _ := map_err Invalid (validate_network_endpoints candidate) in
    let? _ := map_err Invalid (validate_limits candidate) in
    let? _ := map_err Invalid (validate_sensitive_paths fs candidate) in
    let? acceptor := ok_or TlsMaterial (tls_config (cert_path candidate) (key_path candidate)) in
    let? quic :=
      (match live_quic live with
       | None => Ok None
       | Some _ =>
         let? q := server_config_with_transport_params acceptor (idle_timeout (idle_timeout_seconds candidate))
                     (quic_stream_receive_window candidate) (quic_connection_receive_window candidate) in
         Ok (Some q)
       end) in
    let '(creds, candidate) := take_runtime_credentials candidate in
    let? creds := map_err (λ e, Invalid (BadCredential e)) creds in
    let keys := derive_mask_keys candidate creds in
    let? policy := map_err Invalid (policy_set fs candidate) in
    Ok (quic, {| Security.m_acceptor := acceptor; Security.m_credentials := creds; Security.m_keys := keys;
                 Security.m_policy := policy; Security.m_skew := from_secs (auth_skew_seconds candidate) |}) in
  match built with
  | Ok (quic, material) =>
    let '(generation, security) := Security.replace (live_security live) material in
    (Ok generation,
     {| live_security := security;
        live_quic := match live_quic live, quic with Some _, Some q => Some q | q, _ => q end |})
  | Err e => (Err e, live)
  | Panic => (Panic, live)
  end.

(** The reload runs on a blocking thread, which nothing stops once it has begun:
    [late] is whether it outlasts the timeout of the caller. *)
(* @src crates/uk-server/src/lib.rs 612-660 handle_reload_request *)
Definition handle_reload_request (current : ServerConfig) (live : Live) (request : ServerConfig + string)
    (late : bool) : result RuntimeError Z * Live :=
  match request with
  | inl candidate =>
    let '(r, live) := apply_security_reload current live candidate in
    (if late then Err ReloadTimedOut else r, live)
  | inr reason => (Err (LoadFailed reason), live)
  end.

(** A series of reload requests, each with whether it was late. *)
Definition handle_reloads (current : ServerConfig) (live : Live) (requests : list ((ServerConfig + string) * bool))
    : Live := foldl (λ live '(request, late), (handle_reload_request current live request late).2) live requests.

(** The server as it starts to listen. *)
(* @src crates/uk-server/src/lib.rs 425-463 run_on_listener_inner *)
Definition start (now : Z) (c : ServerConfig) : result RuntimeError (ServerRuntime * Live) :=
  let? rt := prepare_server_runtime now c in
  let? _ := map_err Invalid (global_limits (rt_config rt)) in
  let? quic := build_quic_endpoint (rt_config rt) (rt_masking rt) in
  Ok (rt, {| live_security := rt_security rt; live_quic := quic |}).

(** The command that checks a configuration without running it. *)
(* @src crates/uk-server/src/lib.rs 1348-1364 check_config *)
Definition check_config (c : ServerConfig) : result RuntimeError unit :=
  let? _ := map_err Invalid (validate_network_endpoints c) in
  let? _ := map_err Invalid (validate_limits c) in
  let? _ := map_err Invalid (validate_sensitive_paths fs c) in
  let? _ := map_err (λ e, Invalid (BadCredential e)) (load c) in
  let? _ := map_err Invalid (policy_set fs c) in
  let? crypto := ok_or TlsMaterial (tls_config (cert_path c) (key_path c)) in
  if bool_decide (is_Some (quic_listen c)) then
    let? _ := server_config_with_transport_params crypto (idle_timeout (idle_timeout_seconds c))
                (quic_stream_receive_window c) (quic_connection_receive_window c) in
    Ok tt
  else Ok tt.

(** ** From the listener to the handshake *)

(** What the connections share; the permits are counts of the two semaphores. *)
Record Shared : Type := {
  sh_masking : option Masking.MaskingState;
  sh_metrics : Masking.MaskMetrics;
  sh_limiter : RateLimit.AuthRateLimiter;
  sh_sessions : Z;
  sh_handshakes : Z
}.

Definition with_limiter (l : RateLimit.AuthRateLimiter) (sh : Shared) : Shared :=
  {| sh_masking := sh_masking sh; sh_metrics := sh_metrics sh; sh_limiter := l;
     sh_sessions := sh_sessions sh; sh_handshakes := sh_handshakes sh |}.

(* @src crates/uk-server/src/lib.rs 222-246 ConnectionRuntime::admit_precheck *)
Definition admit_precheck (now : Z) (ip : IpAddr) (sh : Shared) : bool * Shared :=
  let '(allowed, l) := RateLimit.check_ip (sh_limiter sh) now ip in
  let sh := with_limiter l sh in
  if negb allowed then (false, sh) else (negb (sh_sessions sh =? 0), sh).

(* @src crates/uk-server/src/lib.rs 249-265 ConnectionRuntime::acquire_handshake_permit *)
Definition acquire_handshake_permit (sh : Shared) : bool * Shared :=
  if sh_handshakes sh =? 0 then (false, sh) else
  (true, {| sh_masking := sh_masking sh; sh_metrics := sh_metrics sh; sh_limiter := sh_limiter sh;
            sh_sessions := sh_sessions sh; sh_handshakes := sh_handshakes sh - 1 |}).

(** How a TCP connection fares before its handshake. *)
Inductive TcpFate : Type :=
  | Dropped
  | ShuttingDown
  | MaskingRefused (r : Masking.MaskRejected)
  | NoHandshakePermit
  | ToHandshake (gate : option Masking.CommitGate).

Definition to_handshake (gate : option Masking.CommitGate) (sh : Shared) : TcpFate * Shared :=
  let '(ok, sh) := acquire_handshake_permit sh in
  (if ok then ToHandshake gate else NoHandshakePermit, sh).

(** [read] is what the first 76 bytes of the connection are, as in [masking_admit]. *)
(* @src crates/uk-server/src/lib.rs 1026-1084 handle_connection *)
Definition handle_connection (security : Security.SecurityState T) (s : Masking.Surroundings) (read : option Bytes)
    (sh : Shared) : TcpFate * Shared :=
  if Masking.stopping s then (ShuttingDown, sh) else
  let authentication := Security.authentication_snapshot security in
  match sh_masking sh with
  | Some m =>
    let w := {| Masking.masking := m; Masking.metrics := sh_metrics sh; Masking.limiter := sh_limiter sh |} in
    let '(r, w) := Masking.masking_admit w s read (Security.as_mask_keys authentication) in
    let sh := {| sh_masking := Some (Masking.masking w); sh_metrics := Masking.metrics w;
                 sh_limiter := Masking.limiter w; sh_sessions := sh_sessions sh;
                 sh_handshakes := sh_handshakes sh |} in
    match r with
    | Ok gate => to_handshake (Some gate) sh
    | Err rejected => (MaskingRefused rejected, sh)
    | Panic => (Dropped, sh)
    end
  | None => to_handshake None sh
  end.

(* @src crates/uk-server/src/lib.rs 267-300 ConnectionRuntime::spawn_accepted *)
Definition spawn_accepted (security : Security.SecurityState T) (s : Masking.Surroundings) (read : option Bytes)
    (sh : Shared) : TcpFate * Shared :=
  let '(ok, sh) := admit_precheck (Masking.now s) (Masking.peer s) sh in
  if negb ok then (Dropped, sh) else handle_connection security s read sh.

(** How a QUIC connection attempt fares before its handshake. *)
Inductive QuicFate : Type :=
  | Retried
  | QuicRefused
  | QuicShuttingDown
  | QuicHandshake.

(** What quinn says about the attempt: whether its source address is validated and
    whether it can be asked to retry. *)
(* @src crates/uk-server/src/lib.rs 302-345 ConnectionRuntime::spawn_accepted_quic *)
Definition spawn_accepted_quic (s : Masking.Surroundings) (validated may_retry : bool) (sh : Shared)
    : QuicFate * Shared :=
  if negb validated && may_retry then (Retried, sh) else
  let '(ok, sh) := admit_precheck (Masking.now s) (Masking.peer s) sh in
  if negb ok then (QuicRefused, sh) else
  let '(ok, sh') := acquire_handshake_permit sh in
  if negb ok then (QuicRefused, sh') else
  (** [handle_quic_connection] gives the permit back when the server is stopping. *)
  if Masking.stopping s then (QuicShuttingDown, sh) else (QuicHandshake, sh').

(** The shared state of a server that has just started. *)
Definition shared_new (rt : ServerRuntime) (metrics : Masking.MaskMetrics) : Shared :=
  {| sh_masking := rt_masking rt; sh_metrics := metrics; sh_limiter := rt_limiter rt;
     sh_sessions := rt_max_sessions rt; sh_handshakes := rt_max_handshakes rt |}.

(** ** Lemmas *)

Lemma max_payload_usize : Frame.MAX_FRAME_PAYLOAD_SIZE ≤ USIZE_MAX.
Proof. unfold USIZE_MAX. destruct usize_bits_ok as [-> | ->]; done. Qed.

Lemma usize_limit_Ok name v : 0 ≤ v ≤ USIZE_MAX → usize_limit name v = Ok v.
Proof. intros [_ Hv]. unfold usize_limit. by rewrite (proj2 (usize_try_from_Some v v) (conj eq_refl Hv)). Qed.

(** The limits a validated configuration gives to a session. *)
Lemma relay_limits_sound c :
  sound_limits c →
  ∃ l, relay_limits c = Ok l ∧ Relay.max_streams l = max_streams c ∧ Relay.max_udp_flows l = max_udp_flows c ∧
    Relay.max_buffered_bytes_per_session l = max_buffered_bytes_per_session c ∧
    Relay.max_buffered_bytes_per_flow l = max_buffered_bytes_per_flow c ∧
    1 ≤ Relay.data_frame_size l ≤ max_frame_size c.
Proof.
  intros []. pose proof max_payload_usize. pose proof permits_usize. unfold relay_limits.
  rewrite !usize_limit_Ok by lia. cbn [rbind]. eexists. split; [done|]. unfold Relay.tcp_data_frame_size, default.
  assert (usize_try_from (max_frame_size c) = Some (max_frame_size c)) as Hu
    by (apply usize_try_from_Some; split; [done|lia]).
  cbn. rewrite Hu. unfold Tcp.MIN_TCP_RELAY_FRAME_SIZE, id in *. split_and!; done || lia.
Qed.

Lemma server_settings_get c d :
  Settings.get (server_settings c d) Settings.ProtocolRevision = Some Settings.PROTOCOL_REVISION_V1_0 ∧
  Settings.get (server_settings c d) Settings.MaxFrameSize = Some (max_frame_size c) ∧
  Settings.get (server_settings c d) Settings.MaxStreams = Some (max_streams c) ∧
  Settings.get (server_settings c d) Settings.MaxUdpFlows = Some (max_udp_flows c) ∧
  Settings.get (server_settings c d) Settings.SupportsUdpDatagram = Some (Z.b2z (d && negb (max_udp_flows c =? 0))) ∧
  Settings.get (server_settings c d) Settings.SupportsUdpStreamFallback = Some (Z.b2z (negb (max_udp_flows c =? 0))) ∧
  Settings.get (server_settings c d) Settings.IdleTimeoutSeconds = Some (idle_timeout_seconds c).
Proof. unfold Settings.get, server_settings, Settings.set. cbn. split_and!; by simplify_map_eq. Qed.

Lemma b2z_range b : 0 ≤ Z.b2z b ≤ 1.
Proof. by destruct b. Qed.

(** What the server announces of a validated configuration. *)
Lemma server_settings_sound c d :
  sound_limits c →
  Settings.acceptable (server_settings c d) ∧
  Settings.negotiated_v1_0 (server_settings c d) =
    Ok {| Settings.max_frame_size := max_frame_size c; Settings.max_streams := max_streams c;
          Settings.max_udp_flows := max_udp_flows c;
          Settings.supports_udp_datagram := d && negb (max_udp_flows c =? 0);
          Settings.supports_udp_stream_fallback := negb (max_udp_flows c =? 0);
          Settings.idle_timeout_seconds := idle_timeout_seconds c |}.
Proof.
  intros []. destruct (server_settings_get c d) as (H1 & H2 & H3 & H4 & H5 & H6 & H7).
  assert (Settings.acceptable (server_settings c d)) as Ha.
  { unfold Settings.acceptable. rewrite H1, H2, H3, H4, H5, H6, H7. cbn.
    split_and!; [done|intros v [= <-]..]; auto using b2z_range. }
  split; [done|]. rewrite (Settings.negotiated_all _ _ _ _ _ _ _ H1 H2 H3 H4 H5 H6 H7 Ha).
  by destruct d, (max_udp_flows c =? 0).
Qed.

(** [expect] finds what validation promised. *)
Lemma quic_mask_keys_sound c m :
  masking c = Some m → validate_masking c = Ok tt →
  ∃ keys, quic_mask_keys c m = Ok keys ∧ (keys = None ↔ masking_quic_enabled c = false).
Proof.
  unfold validate_masking, quic_mask_keys, masking_quic_enabled. intros ->. simpl.
  intros Hv. apply then_Ok in Hv as [_ Hv]. destruct (_ && _); [done|].
  destruct (default false (quic m)); [|by exists None]. destruct (quic_key_id m) as [key_id|]; [|done].
  destruct (existsb _ _) eqn:He in Hv; [|done]. apply existsb_exists in He as (cr & Hin & Hcr).
  destruct (find _ _) as [cr'|] eqn:Hf; [by eexists|].
  by rewrite (find_none _ _ Hf cr Hin) in Hcr.
Qed.

Lemma replay_identities_positive c : validate_masking c = Ok tt → 0 < masking_replay_identities c.
Proof.
  unfold validate_masking, masking_replay_identities. destruct (masking c) as [m|]; simpl; [|done].
  destruct (replay_identities m) as [n|]; simpl; [|done]. intros Hv. apply then_Ok in Hv as [Hv _].
  apply then_Ok in Hv as [Hv%reject_small_limit_Ok _]. simpl. lia.
Qed.

Lemma build_masking_state_sound c :
  validate_masking c = Ok tt →
  ∃ m, build_masking_state c = Ok m ∧ (m = None ↔ masking c = None) ∧
       (∀ st, m = Some st → Masking.quic_keys st = None ↔ masking_quic_enabled c = false).
Proof.
  intros Hv. unfold build_masking_state. destruct (masking c) as [m|] eqn:Hm; [|by exists None].
  destruct (quic_mask_keys_sound c m Hm Hv) as (keys & -> & Hk). cbn [rbind].
  unfold Masking.masking_new, Replay.registry_new.
  destruct (Z.ltb_spec 0 (masking_replay_identities c)); [|pose proof (replay_identities_positive c Hv); lia].
  eexists. split; [done|]. split; [done|]. by intros st [= <-].
Qed.

(** *** What a reload leaves alone *)

Lemma first_changed_None a b :
  a.*1 = b.*1 → first_changed a b = None → a = b.
Proof.
  revert b. induction a as [|[n v] a IH]; intros [|[n' v'] b]; simpl; try done.
  intros [= -> Hn]. destruct (Z.eqb_spec v v') as [->|]; simpl; [|done]. intros Hf. by rewrite (IH b).
Qed.

(** A compatible candidate has the same sockets, the same masking section and the
    same limits, so the sessions it admits are run as those before it. *)
Lemma compatible_same cur cand :
  ensure_reload_compatible cur cand = Ok tt →
  listen cur = listen cand ∧ quic_listen cur = quic_listen cand ∧ masking cur = masking cand ∧
  reload_static_limits cur = reload_static_limits cand.
Proof.
  unfold ensure_reload_compatible, changed_static_config_field. intros Hc.
  repeat (case_bool_decide; cbn [negb] in Hc; [|done]).
  destruct (first_changed (reload_static_limits cur) (reload_static_limits cand)) eqn:Hf; [done|]. split_and!; try done. by apply first_changed_None.
Qed.

Lemma compatible_runs_same cur cand :
  ensure_reload_compatible cur cand = Ok tt →
  relay_limits cand = relay_limits cur ∧ (∀ d, server_settings cand d = server_settings cur d) ∧
  replay_cache_window_seconds cand = replay_cache_window_seconds cur.
Proof.
  intros (_ & _ & _ & Hl)%compatible_same. unfold reload_static_limits in Hl. injection Hl. intros.
  unfold relay_limits, server_settings. repeat match goal with H : _ = _ |- _ => rewrite H; clear H end. done.
Qed.

(** *** Start-up *)

(** The configuration without its secrets. *)
Definition stripped (c : ServerConfig) : ServerConfig := (take_runtime_credentials c).2.

(** What start-up reads besides the configuration: the certificate, the credentials
    and the policy. *)
Record loaded (c : ServerConfig) (acceptor : T) (creds : list Auth.Credential) (policy : Policy.PolicySet)
    : Prop := {
  ld_endpoints : validate_network_endpoints c = Ok tt;
  ld_limits : sound_limits c;
  ld_paths : validate_sensitive_paths fs c = Ok tt;
  ld_tls : tls_config (cert_path c) (key_path c) = Some acceptor;
  ld_credentials : load c = Ok creds;
  ld_policy : policy_set fs c = Ok policy
}.

Definition material_of (c : ServerConfig) (acceptor : T) (creds : list Auth.Credential)
    (policy : Policy.PolicySet) : Security.Material T :=
  {| Security.m_acceptor := acceptor; Security.m_credentials := creds;
     Security.m_keys := derive_mask_keys c creds; Security.m_policy := policy;
     Security.m_skew := from_secs (auth_skew_seconds c) |}.

Definition runtime_of (now : Z) (c : ServerConfig) (mask : option Masking.MaskingState) (acceptor : T)
    (creds : list Auth.Credential) (policy : Policy.PolicySet) : ServerRuntime :=
  {| rt_config := stripped c;
     rt_security := Security.state_new (material_of c acceptor creds policy);
     rt_replay_cache := Auth.with_max_entries (from_secs (replay_cache_window_seconds c)) (replay_cache_max_entries c);
     rt_limiter := RateLimit.with_allowlist (auth_rate_limit_config c) (auth_rate_limit_allowlist_cidrs c) now;
     rt_max_sessions := max_sessions c; rt_max_handshakes := max_handshakes c; rt_masking := mask |}.

Lemma prepare_loaded now c acceptor creds policy :
  config_wf c → loaded c acceptor creds policy →
  ∃ mask, build_masking_state c = Ok mask ∧
          prepare_server_runtime now c = Ok (runtime_of now c mask acceptor creds policy).
Proof.
  intros Hwf [He Hl Hp Ht Hc Hs]. destruct (build_masking_state_sound c (sl_masking c Hl)) as (mask & Hm & _).
  exists mask. split; [done|]. unfold prepare_server_runtime.
  rewrite He, (proj2 (validate_limits_iff c Hwf) Hl), Hp. cbn [map_err rbind]. rewrite Hm. cbn [rbind].
  rewrite Ht. cbn [ok_or rbind take_runtime_credentials]. rewrite Hc. cbn [map_err rbind].
  change (policy_set fs _) with (policy_set fs c). rewrite Hs. cbn [map_err rbind].
  pose proof permits_usize. destruct Hl. change (replay_cache_max_entries _) with (replay_cache_max_entries c).
  change (max_sessions _) with (max_sessions c). change (max_handshakes _) with (max_handshakes c).
  by rewrite !usize_limit_Ok by lia.
Qed.

Lemma prepare_Ok now c rt :
  config_wf c → prepare_server_runtime now c = Ok rt → ∃ acceptor creds policy, loaded c acceptor creds policy.
Proof.
  intros Hwf Hr. unfold prepare_server_runtime in Hr.
  apply then_Ok in Hr as [He%map_err_Ok Hr]. apply then_Ok in Hr as [Hl%map_err_Ok Hr].
  apply then_Ok in Hr as [Hp%map_err_Ok Hr]. apply rbind_Ok in Hr as (mask & _ & Hr).
  apply rbind_Ok in Hr as (acc & Ht%ok_or_Ok & Hr). cbn [take_runtime_credentials] in Hr.
  apply rbind_Ok in Hr as (creds & Hc%map_err_Ok & Hr). apply rbind_Ok in Hr as (policy & Hs%map_err_Ok & _).
  exists acc, creds, policy. split; try done. by apply validate_limits_iff.
Qed.

Lemma prepare_no_panic now c : config_wf c → prepare_server_runtime now c ≠ Panic.
Proof.
  intros Hwf. unfold prepare_server_runtime.
  apply rbind_no_panic; [apply map_err_no_panic, validate_network_endpoints_no_panic|intros _ _].
  apply rbind_no_panic; [apply map_err_no_panic, validate_limits_no_panic|].
  intros [] Hl%map_err_Ok. apply (validate_limits_iff c Hwf) in Hl.
  apply rbind_no_panic; [apply map_err_no_panic, validate_sensitive_paths_no_panic|intros _ _].
  destruct (build_masking_state_sound c (sl_masking c Hl)) as (mask & -> & _). cbn [rbind].
  apply rbind_no_panic; [apply ok_or_Panic|intros acc _]. cbn [take_runtime_credentials].
  apply rbind_no_panic; [apply map_err_no_panic, load_no_panic|intros creds _].
  apply rbind_no_panic; [apply map_err_no_panic, policy_set_no_panic|intros policy _]. unfold usize_limit. no_panic.
Qed.

Lemma idle_millis_sound c : sound_limits c → is_Some (idle_millis (from_secs (idle_timeout_seconds c))).
Proof.
  intros []. unfold idle_millis, from_secs, NANOS.
  rewrite (proj2 (Z.ltb_lt _ _)); [by eexists|].
  unfold Settings.MAX_NEGOTIATED_IDLE_TIMEOUT_SECONDS in *.
  apply Z.div_lt_upper_bound; [done|]. change (2 ^ 62) with 4611686018427387904. lia.
Qed.

(** The transport parameters of the QUIC listener; [idle_millis] has an answer. *)
Definition quic_of (c : ServerConfig) (acceptor : T) (masked : bool) : QuicConfig :=
  {| q_crypto := acceptor; q_stream_receive_window := quic_stream_receive_window c;
     q_receive_window := quic_connection_receive_window c;
     q_mtu_upper_bound := if masked then Some Udp.masked_mtu_upper_bound else None;
     q_idle_millis := idle_timeout (idle_timeout_seconds c) ≫= idle_millis |}.

Lemma server_config_of c acceptor masked :
  sound_limits c → quic_crypto acceptor = true →
  server_config_with_transport_params_masked acceptor (idle_timeout (idle_timeout_seconds c))
    (quic_stream_receive_window c) (quic_connection_receive_window c) masked = Ok (quic_of c acceptor masked).
Proof.
  intros Hl Hq. unfold server_config_with_transport_params_masked, quic_of. rewrite Hq. cbn [negb].
  unfold idle_timeout. destruct (idle_timeout_seconds c =? 0); [done|].
  destruct (idle_millis_sound c Hl) as [ms Hms]. cbn. by rewrite Hms.
Qed.

Lemma build_quic_of c mask acceptor :
  sound_limits c → validate_network_endpoints c = Ok tt → tls_config (cert_path c) (key_path c) = Some acceptor →
  build_quic_endpoint (stripped c) mask =
    match quic_listen c with
    | None => Ok None
    | Some _ => if quic_crypto acceptor
                then Ok (Some (quic_of c acceptor (bool_decide (is_Some (mask ≫= Masking.quic_keys)))))
                else Err QuicRejected
    end.
Proof.
  intros Hl He Ht. unfold build_quic_endpoint. change (quic_listen (stripped c)) with (quic_listen c).
  unfold validate_network_endpoints in He. apply then_Ok in He as [_ He]. apply then_Ok in He as [He _].
  destruct (quic_listen c) as [l|]; [|done]. cbn [if_some] in He. apply then_Ok in He as [_ He].
  apply rbind_Ok in He as (a & Ha & _). apply ok_or_Ok in Ha. rewrite Ha. cbn [ok_or rbind].
  change (cert_path (stripped c)) with (cert_path c). change (key_path (stripped c)) with (key_path c).
  rewrite Ht. cbn [ok_or rbind]. destruct (quic_crypto acceptor) eqn:Hq.
  - change (idle_timeout_seconds (stripped c)) with (idle_timeout_seconds c).
    change (quic_stream_receive_window (stripped c)) with (quic_stream_receive_window c).
    change (quic_connection_receive_window (stripped c)) with (quic_connection_receive_window c).
    by rewrite server_config_of.
  - unfold server_config_with_transport_params_masked. by rewrite Hq.
Qed.

Lemma start_Ok now c rt live :
  config_wf c → start now c = Ok (rt, live) →
  ∃ acceptor creds policy mask, loaded c acceptor creds policy ∧ build_masking_state c = Ok mask ∧
    (quic_listen c ≠ None → quic_crypto acceptor = true) ∧
    rt = runtime_of now c mask acceptor creds policy ∧
    live = {| live_security := rt_security rt;
              live_quic := (λ _, quic_of c acceptor (bool_decide (is_Some (mask ≫= Masking.quic_keys))))
                           <$> quic_listen c |}.
Proof.
  intros Hwf (rt' & Hr & Hs)%rbind_Ok. destruct (prepare_Ok now c rt' Hwf Hr) as (acceptor & creds & policy & Hl).
  destruct (prepare_loaded now c acceptor creds policy Hwf Hl) as (mask & Hm & Hr'). rewrite Hr in Hr'. injection Hr' as ->.
  apply rbind_Ok in Hs as (g & _ & Hs).
  apply rbind_Ok in Hs as (q & Hq & [= <- <-]). cbn [runtime_of rt_config rt_masking] in Hq.
  rewrite (build_quic_of c mask acceptor (ld_limits _ _ _ _ Hl) (ld_endpoints _ _ _ _ Hl) (ld_tls _ _ _ _ Hl)) in Hq.
  exists acceptor, creds, policy, mask. split_and!; try done.
  - intros Hn. destruct (quic_listen c); [|done]. by destruct (quic_crypto acceptor).
  - f_equal. destruct (quic_listen c); [|by simplify_eq]. destruct (quic_crypto acceptor); by simplify_eq.
Qed.

(** *** Reloads *)

(** The server after a reload to [cand]. *)
Definition reloaded (live : Live) (cand : ServerConfig) (acceptor : T) (creds : list Auth.Credential)
    (policy : Policy.PolicySet) : Live :=
  {| live_security := (Security.replace (live_security live) (material_of cand acceptor creds policy)).2;
     live_quic := (λ _, quic_of cand acceptor false) <$> live_quic live |}.

(** What a reload needs. *)
Definition reloadable (cur : ServerConfig) (live : Live) (cand : ServerConfig) (acceptor : T)
    (creds : list Auth.Credential) (policy : Policy.PolicySet) : Prop :=
  ensure_reload_compatible cur cand = Ok tt ∧ loaded cand acceptor creds policy ∧
  (live_quic live ≠ None → quic_crypto acceptor = true).

Lemma reload_succeeds cur live cand acceptor creds policy :
  config_wf cand → reloadable cur live cand acceptor creds policy →
  apply_security_reload cur live cand =
    (Ok (Security.next_generation (live_security live)), reloaded live cand acceptor creds policy).
Proof.
  intros Hwf (Hc & [He Hl Hp Ht Hcr Hs] & Hq). unfold apply_security_reload.
  rewrite Hc, He, (proj2 (validate_limits_iff cand Hwf) Hl), Hp, Ht. cbn [map_err rbind ok_or].
  unfold server_config_with_transport_params. unfold reloaded.
  destruct (live_quic live) as [q|] eqn:Hlq; [rewrite server_config_of by auto|];
    cbn [rbind take_runtime_credentials]; rewrite Hcr; cbn [rbind map_err];
    change (policy_set fs _) with (policy_set fs cand); rewrite Hs; done.
Qed.

Lemma reload_cases cur live cand :
  config_wf cand →
  (∃ e, apply_security_reload cur live cand = (Err e, live)) ∨
  (∃ acceptor creds policy, reloadable cur live cand acceptor creds policy).
Proof.
  intros Hwf. unfold apply_security_reload.
  match goal with |- context [match ?b with Ok _ => _ | Err _ => _ | Panic => _ end] => destruct b as [[q m]|e|] eqn:Hb end.
  - right. apply then_Ok in Hb as [Hc Hb]. apply then_Ok in Hb as [He%map_err_Ok Hb].
    apply then_Ok in Hb as [Hl%map_err_Ok Hb]. apply then_Ok in Hb as [Hp%map_err_Ok Hb].
    apply rbind_Ok in Hb as (acc & Ht%ok_or_Ok & Hb). apply rbind_Ok in Hb as (q' & Hq & Hb).
    cbn [take_runtime_credentials] in Hb. apply rbind_Ok in Hb as (creds & Hcr%map_err_Ok & Hb).
    apply rbind_Ok in Hb as (policy & Hs%map_err_Ok & _). exists acc, creds, policy.
    split; [done|]. split; [split; try done; by apply validate_limits_iff|].
    intros Hn. destruct (live_quic live); [|done]. unfold server_config_with_transport_params in Hq.
    unfold server_config_with_transport_params_masked in Hq. by destruct (quic_crypto acc).
  - left. by eexists.
  - exfalso. revert Hb. apply rbind_no_panic.
    { unfold ensure_reload_compatible. no_panic. }
    intros _ _. apply rbind_no_panic; [apply map_err_no_panic, validate_network_endpoints_no_panic|intros _ _].
    apply rbind_no_panic; [apply map_err_no_panic, validate_limits_no_panic|intros _ _].
    apply rbind_no_panic; [apply map_err_no_panic, validate_sensitive_paths_no_panic|intros _ _].
    apply rbind_no_panic; [apply ok_or_Panic|intros acc _]. apply rbind_no_panic; [|intros q _].
    { unfold server_config_with_transport_params, server_config_with_transport_params_masked. no_panic. }
    cbn [take_runtime_credentials].
    apply rbind_no_panic; [apply map_err_no_panic, load_no_panic|intros creds _].
    apply rbind_no_panic; [apply map_err_no_panic, policy_set_no_panic|done].
Qed.

(** What every generation promises to the sessions under it: there are credentials,
    with distinct key ids and keys fit for use, and the replay cache of window [w]
    remembers a nonce for longer than a response with it can stay fresh. *)
Definition material_sound (w : Z) (m : Security.Material T) : Prop :=
  Security.m_credentials m ≠ [] ∧ NoDup (Auth.key_id <$> Security.m_credentials m) ∧
  Forall (λ cr, Auth.validate_auth_material cr = Ok tt) (Security.m_credentials m) ∧
  0 < Security.m_skew m ∧ 2 * Security.m_skew m ≤ w.

Lemma load_sound c creds :
  load c = Ok creds →
  creds ≠ [] ∧ NoDup (Auth.key_id <$> creds) ∧ Forall (λ cr, Auth.validate_auth_material cr = Ok tt) creds.
Proof.
  unfold load. case_bool_decide as Hn; [done|]. intros (Hf & Hd & _)%load_credentials_Ok. split_and!; [|done|].
  - intros ->. by apply Forall2_nil_inv_r in Hf.
  - eapply Forall2_Forall_r; [exact Hf|]. apply Forall_true. intros x cr Hx. by apply to_credential_Ok in Hx as (_ & _ & _ & _ & _ & Hv).
Qed.

Lemma material_of_sound c acceptor creds policy :
  loaded c acceptor creds policy →
  material_sound (from_secs (replay_cache_window_seconds c)) (material_of c acceptor creds policy).
Proof.
  intros [_ [] _ _ (Hn & Hd & Hf)%load_sound _]. split_and!; try done; simpl; unfold from_secs, NANOS; lia.
Qed.

(** A series of requests amounts to the replacements of those that were accepted,
    in order; one that came late counts as well. *)
Lemma handle_reloads_replaces cur live reqs :
  Forall (λ rq, ∀ cand, rq.1 = inl cand → config_wf cand) reqs →
  ∃ ms, live_security (handle_reloads cur live reqs) = Security.reloads (live_security live) ms ∧
        zlen ms ≤ zlen reqs ∧
        Forall (material_sound (from_secs (replay_cache_window_seconds cur))) ms ∧
        (live_quic (handle_reloads cur live reqs) = None ↔ live_quic live = None).
Proof.
  intros Hwf. revert live. induction Hwf as [|[[cand|reason] late] reqs Hr Hwf IH]; intros live.
  { by exists []. }
  2: { destruct (IH live) as (ms & Hm & Hlen & ? & ?). exists ms. cbn. split_and!; try done. lia. }
  cbn [handle_reloads foldl handle_reload_request]. specialize (Hr cand eq_refl).
  destruct (reload_cases cur live cand Hr) as [[e ->]|(acceptor & creds & policy & Hre)].
  { destruct (IH live) as (ms & Hm & Hlen & ? & ?). exists ms. cbn. split_and!; try done. lia. }
  rewrite (reload_succeeds cur live cand acceptor creds policy Hr Hre). cbn [snd].
  destruct (IH (reloaded live cand acceptor creds policy)) as (ms & Hm & Hlen & Hs & Hq).
  exists (material_of cand acceptor creds policy :: ms). destruct Hre as (Hc & Hl & _).
  apply compatible_runs_same in Hc as (_ & _ & Hw). split_and!; [done|simpl; lia| |].
  - constructor; [|done]. rewrite <- Hw. by apply material_of_sound.
  - unfold handle_reloads in Hq. rewrite Hq. simpl. by destruct (live_quic live).
Qed.

(** *** The command that checks *)

Definition quic_ready (c : ServerConfig) (acceptor : T) : Prop := quic_listen c ≠ None → quic_crypto acceptor = true.

Lemma check_config_iff c :
  config_wf c →
  check_config c = Ok tt ↔ ∃ acceptor creds policy, loaded c acceptor creds policy ∧ quic_ready c acceptor.
Proof.
  intros Hwf. unfold check_config, quic_ready. split.
  - intros Hc. apply then_Ok in Hc as [He%map_err_Ok Hc]. apply then_Ok in Hc as [Hl%map_err_Ok Hc].
    apply then_Ok in Hc as [Hp%map_err_Ok Hc]. apply rbind_Ok in Hc as (creds & Hcr%map_err_Ok & Hc).
    apply rbind_Ok in Hc as (policy & Hs%map_err_Ok & Hc). apply rbind_Ok in Hc as (acc & Ht%ok_or_Ok & Hc).
    exists acc, creds, policy. split; [split; try done; by apply validate_limits_iff|].
    intros Hq. rewrite bool_decide_true in Hc by (by destruct (quic_listen c)).
    unfold server_config_with_transport_params, server_config_with_transport_params_masked in Hc.
    by destruct (quic_crypto acc).
  - intros (acc & creds & policy & [He Hl Hp Ht Hcr Hs] & Hq).
    rewrite He, (proj2 (validate_limits_iff c Hwf) Hl), Hp, Hcr, Hs, Ht. cbn [rbind map_err ok_or].
    case_bool_decide as Hsome; [|done]. unfold server_config_with_transport_params.
    rewrite server_config_of; [done|done|]. apply Hq. by destruct Hsome as [l ->].
Qed.

Lemma global_limits_sound c :
  sound_limits c → global_limits c = Ok (max_total_buffered_bytes c, max_total_streams c).
Proof. intros []. unfold global_limits. by rewrite !usize_limit_Ok by lia. Qed.

Lemma start_succeeds now c acceptor creds policy :
  config_wf c → loaded c acceptor creds policy → quic_ready c acceptor → is_ok (start now c) = true.
Proof.
  intros Hwf Hl Hq. unfold start. destruct (prepare_loaded now c acceptor creds policy Hwf Hl) as (mask & _ & ->).
  cbn [rbind runtime_of rt_config rt_masking]. destruct Hl as [He Hl _ Ht _ _].
  change (global_limits (stripped c)) with (global_limits c).
  rewrite (global_limits_sound c Hl), (build_quic_of c mask acceptor Hl He Ht). cbn [map_err rbind].
  unfold quic_ready in Hq. destruct (quic_listen c); [rewrite Hq by done|]; done.
Qed.

Lemma start_no_panic now c : config_wf c → start now c ≠ Panic.
Proof.
  intros Hwf. unfold start. apply rbind_no_panic; [by apply prepare_no_panic|intros rt _].
  unfold global_limits, usize_limit, build_quic_endpoint, server_config_with_transport_params_masked. no_panic.
Qed.

Lemma event_capacity_nonneg l : 0 ≤ Relay.max_streams l → 0 ≤ Session.session_event_queue_capacity l.
Proof.
  intros Hl. unfold Session.session_event_queue_capacity, usize_saturating_add.
  assert (0 ≤ USIZE_MAX) by (destruct USIZE_MAX_cases as [-> | ->]; done).
  assert (0 ≤ default USIZE_MAX (usize_try_from (Relay.max_streams l))).
  { destruct (usize_try_from _) as [v|] eqn:Hv; [|done]. by apply usize_try_from_Some in Hv as [-> _]. }
  unfold Relay.SESSION_EVENT_QUEUE_PER_FLOW_CAPACITY, Relay.SESSION_EVENT_QUEUE_BASE_CAPACITY.
  unfold Relay.SESSION_EVENT_QUEUE_MAX_CAPACITY. lia.
Qed.

(** A running server gives every session limits it can be run under. *)
Lemma session_config_sound c identity :
  sound_limits c →
  ∃ cfg, session_config c identity = Ok cfg ∧ Safety.start_ok cfg 0 0 ∧
    Relay.max_streams (Relay.limits cfg) = max_streams c ∧ Relay.max_udp_flows (Relay.limits cfg) = max_udp_flows c ∧
    1 ≤ Relay.data_frame_size (Relay.limits cfg) ≤ max_frame_size c.
Proof.
  intros Hl. unfold session_config. rewrite (global_limits_sound c Hl).
  destruct (relay_limits_sound c Hl) as (l & -> & H1 & H2 & H3 & H4 & H5). cbn [rbind].
  eexists. split; [done|]. destruct Hl. cbn [Relay.limits]. split; [|done]. unfold Safety.start_ok. cbn.
  rewrite H1, H2, H3, H4. split_and!; try lia. apply event_capacity_nonneg. lia.
Qed.

(** ** Properties *)

(** C22: The configurations the server starts with are exactly those the checking
    command accepts: the ones whose endpoints, limits and files are valid, whose
    certificate, credentials and policy load, and whose certificate QUIC takes when
    a QUIC listener is configured.  Start-up never panics, no conversion to the
    platform's integers fails after validation, and the server that starts gives
    every session limits the relay's guarantees hold under and announces settings
    that any client negotiates to the configured values. *)
Theorem startup_exact now c :
  config_wf c →
  start now c ≠ Panic ∧
  (is_ok (start now c) = true ↔ check_config c = Ok tt) ∧
  (check_config c = Ok tt ↔ ∃ acceptor creds policy, loaded c acceptor creds policy ∧ quic_ready c acceptor) ∧
  ∀ rt live, start now c = Ok (rt, live) →
    (∀ identity, ∃ cfg, session_config (rt_config rt) identity = Ok cfg ∧ Safety.start_ok cfg 0 0) ∧
    ∀ d, Settings.negotiated_v1_0 (server_settings (rt_config rt) d) =
      Ok {| Settings.max_frame_size := max_frame_size c; Settings.max_streams := max_streams c;
            Settings.max_udp_flows := max_udp_flows c;
            Settings.supports_udp_datagram := d && negb (max_udp_flows c =? 0);
            Settings.supports_udp_stream_fallback := negb (max_udp_flows c =? 0);
            Settings.idle_timeout_seconds := idle_timeout_seconds c |}.
Proof.
  intros Hwf. split_and!; [by apply start_no_panic| |by apply check_config_iff|].
  - rewrite check_config_iff by done. split; [|intros (acc & creds & policy & Hl & Hq); by eapply start_succeeds].
    destruct (start now c) as [[rt live]|e|] eqn:Hs; [intros _|done|done].
    apply start_Ok in Hs as (acc & creds & policy & mask & Hl & _ & Hq & _); [|done]. eauto.
  - intros rt live (acc & creds & policy & mask & Hl & _ & _ & -> & _)%start_Ok; [|done].
    cbn [runtime_of rt_config]. destruct Hl as [_ Hl _ _ _ _]. split.
    + intros identity. destruct (session_config_sound c identity Hl) as (cfg & Hc & Hok & _). by exists cfg.
    + intros d. exact (proj2 (server_settings_sound c d Hl)).
Qed.


(** What authentication relies on survives every series of reloads.  After
    start-up and any requests, accepted, refused or late, the generation in force
    has credentials with pairwise distinct key ids and usable secrets, and its
    allowed clock skew, twice, fits into the window of the replay cache, which was
    sized once at start-up. *)
Theorem reloads_keep_guarantees now c rt live reqs :
  config_wf c → Forall (λ rq, ∀ cand, rq.1 = inl cand → config_wf cand) reqs →
  start now c = Ok (rt, live) →
  let g := Security.current (live_security (handle_reloads (rt_config rt) live reqs)) in
  Security.credentials g ≠ [] ∧ NoDup (Auth.key_id <$> Security.credentials g) ∧
  Forall (λ cr, Auth.validate_auth_material cr = Ok tt) (Security.credentials g) ∧
  0 < Security.auth_skew g ∧ 2 * Security.auth_skew g ≤ Auth.window (rt_replay_cache rt).
Proof.
  intros Hwf Hreqs (acc & creds & policy & mask & Hl & _ & _ & -> & ->)%start_Ok; [|done].
  cbn [runtime_of rt_config rt_security rt_replay_cache Auth.with_max_entries Auth.window live_security].
  match goal with |- context [handle_reloads ?cur ?live ?rq] =>
    destruct (handle_reloads_replaces cur live rq Hreqs) as (ms & Hm & _ & Hs & _) end.
  cbn zeta. rewrite Hm. apply material_of_sound in Hl. cbn [live_security].
  destruct ms as [|m ms _] using rev_ind; [exact Hl|]. rewrite Security.reloads_app.
  apply Forall_app in Hs as [_ Hs]. rewrite Forall_singleton in Hs. exact Hs.
Qed.


(** A reload that outlasts its deadline is reported as refused, with the previous
    generation kept, and applied all the same. *)
Theorem late_reload_still_applies cur live cand acceptor creds policy :
  config_wf cand → reloadable cur live cand acceptor creds policy →
  handle_reload_request cur live (inl cand) true =
    (Err ReloadTimedOut, reloaded live cand acceptor creds policy).
Proof. intros Hwf Hr. cbn [handle_reload_request]. by rewrite (reload_succeeds _ _ _ _ _ _ Hwf Hr). Qed.

(** Every reload of a server with a masked QUIC listener lifts the bound on the
    datagram size that leaves room for the mask. *)
Theorem reload_forgets_masked_mtu cur live cand acceptor creds policy q :
  config_wf cand → reloadable cur live cand acceptor creds policy → live_quic live = Some q →
  q_mtu_upper_bound q = Some Udp.masked_mtu_upper_bound →
  ∃ q', live_quic (apply_security_reload cur live cand).2 = Some q' ∧ q_mtu_upper_bound q' = None.
Proof.
  intros Hwf Hr Hq _. rewrite (reload_succeeds _ _ _ _ _ _ Hwf Hr). unfold reloaded. cbn. rewrite Hq. by eexists.
Qed.
End Runtime.

(** The pauses after failed accepts double from 10 ms to 640 ms and stay at one
    second from then on, however many failures there are. *)
Theorem accept_delays n k i :
  0 ≤ k ≤ U32_MAX → (i < n)%nat → delays n k !! i = Some (Z.min (10 * 2 ^ Z.min (k + Z.of_nat i) 7) 1000).
Proof.
  revert k i. induction n as [|n IH]; intros k i Hk Hi; [lia|]. cbn [delays]. unfold next_delay.
  rewrite Z.shiftl_1_l. destruct i as [|i].
  - cbn. rewrite Z.add_0_r. f_equal. unfold ACCEPT_RETRY_BASE_MILLIS, ACCEPT_RETRY_MAX_MILLIS.
    assert (2 ^ Z.min k 7 ≤ 2 ^ 7) by (apply Z.pow_le_mono_r; lia). change (2 ^ 7) with 128 in *.
    rewrite (Z.min_l _ U64_MAX); [done|]. change U64_MAX with 18446744073709551615. lia.
  - cbn. unfold U32_MAX in *. rewrite IH by lia.
    by replace (Z.min (Z.min (k + 1) (2 ^ 32 - 1) + Z.of_nat i) 7) with (Z.min (k + Z.of_nat (S i)) 7) by lia.
Qed.

(** ** Instances *)
Module Demo.
#[local] Existing Instance platform64.
#[local] Existing Instance Mask.demo_hmac_sha256.
#[local] Existing Instance MaskStream.Stream.demo_chacha.

(** What the example configuration amounts to: default limits, one credential and an
    empty [masking] section. *)
Definition demo_credential (secret : Bytes) : CredentialConfig :=
  {| cc_key_id := bytes_of_string "client"; cc_secret := secret; cc_status := None; cc_not_before := None;
     cc_not_after := None; cc_policy_group := None |}.
Definition demo_secret (first : Z) : Bytes := seqZ first 32.
Definition no_masking : MaskingConfig :=
  {| enabled := None; replay_identities := None; quic := None; quic_key_id := None |}.
Definition demo_config (secret : Bytes) (m : option MaskingConfig) : ServerConfig :=
  {| listen := bytes_of_string "0.0.0.0:8443"; quic_listen := Some (bytes_of_string "0.0.0.0:8443");
     observability_listen := None; cert_path := bytes_of_string "cert.pem"; key_path := bytes_of_string "key.pem";
     c_auth_skew_seconds := None; limits := None; policy_path := None; credentials := [demo_credential secret];
     masking := m |}.
Definition demo_tls (cert key : Bytes) : option unit := Some tt.
Definition demo_quic (t : unit) : bool := true.
Definition demo_files : Files :=
  {| metadata := λ _, Some {| is_file := true; mode := 0x180 |}; policy_text := λ _, None |}.
Definition demo_start (m : option MaskingConfig) := start demo_tls demo_quic demo_files 0 (demo_config (demo_secret 1) m).

Lemma demo_wf secret m : config_wf (demo_config secret m).
Proof. split; intros; done. Qed.

Lemma startup_exact_witness : is_ok (demo_start None) = true.
Proof.
  apply (startup_exact demo_tls demo_quic demo_files 0 (demo_config (demo_secret 1) None) (demo_wf _ _)).
  vm_compute. reflexivity.
Defined.

Lemma demo_started m : m = None ∨ m = Some no_masking → ∃ rt live, demo_start m = Ok (rt, live).
Proof.
  intros Hm. destruct (demo_start m) as [[rt live]| |] eqn:Hs; [by eauto|..]; destruct Hm; subst; by vm_compute in Hs.
Qed.


Definition demo_peer : Masking.Surroundings :=
  {| Masking.now := 0; Masking.visit := []; Masking.peer := IpV4 0x7f000001; Masking.stopping := false;
     Masking.drain := [] |}.
Definition demo_metrics : Masking.MaskMetrics :=
  {| Masking.prelude_rejects := 0; Masking.replay_rejects := 0; Masking.failed_auth := 0 |}.

End Demo.
End ServerRuntime.
