(* ===== verification/Handshake.v ===== *)
(** * Handshake: challenge, response and settings on both ends of a carrier
    (crates/uk-server/src/lib.rs and crates/uk-client/src/session.rs)

    What the server does with a carrier between its transport's handshake and the
    relay, and what the client does with the other end.  A carrier is a script of
    what its reads return and a writer; TLS and QUIC appear as the exporter secret
    both ends share.  A future that is dropped at an await point ends in
    [Dropped]: a deadline or the shutdown of the server. *)

From S2P Require Import Prelude Wire Varint FrameCodec RustStd Endpoint TargetCodec RelayPayload Settings FrameIo.
From S2P Require Import Auth Policy Mask MaskReplay MaskStream MaskUdp RateLimit ServerConfig ClientConfig Security.
From S2P Require Import Masking Budget Dialer RelayState RelayHandlers RelaySession RelaySafety ServerRuntime Duplex.

Module Handshake.
Import FrameIo Duplex.

(** ** The server's side *)

(* @src crates/uk-server/src/observability.rs 28-35 HandshakeFailureReason *)
Inductive HandshakeFailureReason : Set := Tls | Timeout | Auth | Protocol | Io | Other.

#[global] Instance HandshakeFailureReason_eq_dec : EqDecision HandshakeFailureReason.
Proof. solve_decision. Defined.

(** The error itself is only printed. *)
(* @src crates/uk-server/src/lib.rs 167-172 HandshakePhaseError *)
Record HandshakePhaseError : Set := { phase : string; failure_reason : HandshakeFailureReason }.

(* @src crates/uk-server/src/lib.rs 1715-1728 phase_error *)
Definition phase_error {X} (p : string) (reason : HandshakeFailureReason) (source : X) : HandshakePhaseError :=
  {| phase := p; failure_reason := reason |}.

(* @src crates/uk-server/src/lib.rs 1747-1752 frame_io_failure_reason *)
Definition frame_io_failure_reason (error : FrameIoError) : HandshakeFailureReason :=
  match error with
  | FrameIo.Protocol _ => Protocol
  | Closed | FrameIo.Io _ => Io
  end.

Section Server.
Context {P : Platform} (hmac : Bytes → Bytes → Bytes) (dummy_secret : Bytes).

(* @src crates/uk-server/src/lib.rs 1635-1639 connection_error_frame *)
Definition connection_error_frame (code : Status.ErrorCode) : ProtocolResult Frame.Frame :=
  let? payload := Status.error_encode {| Status.code := code |} in
  Frame.frame_new Frame.Error 0 0 payload.

(** The callers ignore how it ends, the five-second deadline included. *)
(* @src crates/uk-server/src/lib.rs 1617-1624 write_connection_error *)
Definition write_connection_error (code : Status.ErrorCode) (c : Carrier) : Carrier :=
  match connection_error_frame code with
  | Ok f => (send f c).2
  | _ => c
  end.

(* @src crates/uk-server/src/lib.rs 1626-1633 report_handshake_frame_io_error *)
Definition report_handshake_frame_io_error (error : FrameIoError) (c : Carrier) : Carrier :=
  match error with
  | FrameIo.Protocol e => write_connection_error (Status.from_protocol_error e) c
  | _ => c
  end.

(** What the server brings to one handshake: the clock at its two readings and at
    the replay check, the random nonce, the exporter secret of the channel, and the
    snapshot of credentials it authenticates against. *)
Record ServerSide : Set := {
  clock_at_challenge : Z;
  clock_at_verify : Z;
  instant : Z;
  server_random : Bytes;
  s_exporter : Bytes;
  s_credentials : list Auth.Credential;
  s_skew : Z
}.

(* @src crates/uk-server/src/lib.rs 1406-1428 send_auth_challenge *)
Definition send_auth_challenge (s : ServerSide) (now : Z) : hs HandshakePhaseError Auth.AuthChallenge :=
  let challenge := Auth.challenge_generate (server_random s) now in
  let* payload := hret (map_err (phase_error "encode auth challenge" Auth) (Auth.challenge_encode challenge)) in
  let* frame := hret (map_err (phase_error "build auth challenge frame" Auth)
                        (Frame.frame_new Frame.AuthChallenge 0 0 payload)) in
  let* _ := io (send frame) (λ err, phase_error "write auth challenge" (frame_io_failure_reason err) err) in
  hret (Ok challenge).

(** [let _ = write_connection_error(..).await; return Err(..)] *)
Definition refuse {A} (code : Status.ErrorCode) (e : HandshakePhaseError) : hs HandshakePhaseError A := λ c,
  (Finished (Err e), write_connection_error code c).

(** The answer to the challenge. *)
(* @src crates/uk-server/src/lib.rs 1463-1522 authenticate_carrier *)
Definition await_response (config : ServerConfig.ServerConfig) (s : ServerSide) (challenge : Auth.AuthChallenge)
    : hs HandshakePhaseError (Auth.AuthChallenge * Auth.AuthResponse * Auth.AuthenticatedIdentity) := λ c,
  match recv {| Frame.max_frame_size := ServerConfig.max_pre_auth_bytes config |} c with
  | (Cancelled, c) => (Dropped, c)
  | (Done Panic, c) => (Finished Panic, c)
  | (Done (Err err), c) =>
    (Finished (Err (phase_error "read auth response" (frame_io_failure_reason err) err)),
     report_handshake_frame_io_error err c)
  | (Done (Ok frame), c) =>
    match Frame.validate_connection_frame frame Frame.AuthResponse with
    | Panic => (Finished Panic, c)
    | Err err => refuse Status.Protocol (phase_error "validate auth response" Protocol err) c
    | Ok _ =>
      match Auth.response_decode (Frame.payload frame) with
      | Panic => (Finished Panic, c)
      | Err err => refuse Status.AuthFailed (phase_error "decode auth response" Auth err) c
      | Ok response =>
        match Auth.try_unix_now (clock_at_verify s) with
        | None => (Finished (Err (phase_error "read system clock" Auth tt)), c)
        | Some verify_now =>
          match Auth.verify_auth_response_identity_stateless hmac dummy_secret (s_credentials s) (s_exporter s)
                  challenge response verify_now (s_skew s) with
          | Panic => (Finished Panic, c)
          | Err err => refuse Status.AuthFailed (phase_error "verify auth response" Auth err) c
          | Ok identity => (Finished (Ok (challenge, response, identity)), c)
          end
        end
      end
    end
  end.

(** The handshake up to the replay check. *)
(* @src crates/uk-server/src/lib.rs 1452-1522 authenticate_carrier *)
Definition authenticate_exchange (config : ServerConfig.ServerConfig) (s : ServerSide)
    : hs HandshakePhaseError (Auth.AuthChallenge * Auth.AuthResponse * Auth.AuthenticatedIdentity) :=
  let* now := hret (ok_or (phase_error "read system clock" Auth tt) (Auth.try_unix_now (clock_at_challenge s))) in
  let* challenge := send_auth_challenge s now in
  await_response config s challenge.

(* @src crates/uk-server/src/lib.rs 1435-1543 authenticate_carrier *)
Definition authenticate_carrier (config : ServerConfig.ServerConfig) (s : ServerSide) (cache : Auth.ReplayCache) (c : Carrier)
    : fate HandshakePhaseError Auth.AuthenticatedIdentity * Carrier * Auth.ReplayCache :=
  match authenticate_exchange config s c with
  | (Dropped, c) => (Dropped, c, cache)
  | (Finished Panic, c) => (Finished Panic, c, cache)
  | (Finished (Err e), c) => (Finished (Err e), c, cache)
  | (Finished (Ok (challenge, response, identity)), c) =>
    let '(replay_result, cache) :=
      Auth.check_and_insert_at cache (instant s) (Auth.server_nonce challenge) (Auth.client_nonce response) in
    match replay_result with
    | Ok _ => (Finished (Ok identity), c, cache)
    | Err err => (refuse Status.AuthFailed (phase_error "verify auth response replay" Auth err) c, cache)
    | Panic => (Finished Panic, c, cache)
    end
  end.

(* @src crates/uk-server/src/lib.rs 1548-1574 write_server_settings *)
Definition write_server_settings (config : ServerConfig.ServerConfig) (supports_udp_datagram : bool)
    : hs HandshakePhaseError unit :=
  let settings := ServerRuntime.server_settings config supports_udp_datagram in
  let* payload := hret (map_err (phase_error "encode server settings" Other) (Settings.encode settings)) in
  let* frame := hret (map_err (phase_error "build server settings frame" Other)
                        (Frame.frame_new Frame.Settings 0 0 payload)) in
  io (send frame) (λ err, phase_error "write server settings" (frame_io_failure_reason err) err).

(** *** From the handshake to the relay *)

(** Why the handshake future was dropped. *)
Inductive Interrupt : Set := DeadlineExceeded | ShutdownSignalled.

(** What becomes of an admitted carrier. *)
Inductive Served : Type :=
  | Stopped
  | HandshakeFailed (e : HandshakePhaseError)
  | TaskPanicked
  | OverLimit
  | SettingsFailed
  | BadLimits
  | SessionStarted (config : Relay.Config) (idle_after : option Z) (datagrams : bool).

Definition return_handshake_permit (sh : ServerRuntime.Shared) : ServerRuntime.Shared :=
  {| ServerRuntime.sh_masking := ServerRuntime.sh_masking sh; ServerRuntime.sh_metrics := ServerRuntime.sh_metrics sh;
     ServerRuntime.sh_limiter := ServerRuntime.sh_limiter sh; ServerRuntime.sh_sessions := ServerRuntime.sh_sessions sh;
     ServerRuntime.sh_handshakes := ServerRuntime.sh_handshakes sh + 1 |}.

Definition take_session_permit (sh : ServerRuntime.Shared) : ServerRuntime.Shared :=
  {| ServerRuntime.sh_masking := ServerRuntime.sh_masking sh; ServerRuntime.sh_metrics := ServerRuntime.sh_metrics sh;
     ServerRuntime.sh_limiter := ServerRuntime.sh_limiter sh;
     ServerRuntime.sh_sessions := ServerRuntime.sh_sessions sh - 1;
     ServerRuntime.sh_handshakes := ServerRuntime.sh_handshakes sh |}.

(** A session over the limit is told so, as far as its writer takes it. *)
(* @src crates/uk-server/src/lib.rs 1577-1615 reject_over_limit_session *)
Definition reject_over_limit_session (c : Carrier) : Carrier := write_connection_error Status.ResourceLimit c.

(** [datagrams]: the carrier has a datagram channel with a maximum size.  The permit
    of a session that does not start is given back. *)
(* @src crates/uk-server/src/lib.rs 1234-1345 run_authenticated_session *)
Definition run_authenticated_session (config : ServerConfig.ServerConfig) (identity : Auth.AuthenticatedIdentity)
    (datagrams : bool) (sh : ServerRuntime.Shared) (c : Carrier) : Served * ServerRuntime.Shared * Carrier :=
  if ServerRuntime.sh_sessions sh =? 0 then (OverLimit, sh, reject_over_limit_session c) else
  match write_server_settings config datagrams c with
  | (Finished (Ok _), c) =>
    match ServerRuntime.session_config config identity with
    | Ok cfg => (SessionStarted cfg (ServerRuntime.idle_timeout (ServerConfig.idle_timeout_seconds config)) datagrams,
                 take_session_permit sh, c)
    | _ => (BadLimits, sh, c)
    end
  | (Finished Panic, c) => (TaskPanicked, sh, c)
  | (_, c) => (SettingsFailed, sh, c)
  end.

(* @src crates/uk-server/src/lib.rs 1140-1229 serve_authenticated_carrier *)
Definition serve_authenticated_carrier (config : ServerConfig.ServerConfig) (s : ServerSide) (why : Interrupt)
    (env : Masking.Surroundings) (datagrams : bool) (sh : ServerRuntime.Shared) (cache : Auth.ReplayCache) (c : Carrier)
    : Served * ServerRuntime.Shared * Auth.ReplayCache * Carrier :=
  let '(f, c, cache) := authenticate_carrier config s cache c in
  let sh := return_handshake_permit sh in
  let handshake_result :=
    match f with
    | Finished r => Some r
    | Dropped =>
      match why with
      | DeadlineExceeded => Some (Err (phase_error "handshake" Timeout tt))
      | ShutdownSignalled => None
      end
    end in
  match handshake_result with
  | None => (Stopped, sh, cache, c)
  | Some Panic => (TaskPanicked, sh, cache, c)
  | Some (Err err) =>
    let sh :=
      (if bool_decide (failure_reason err = Auth) then
         ServerRuntime.with_limiter
           (RateLimit.record_failure (ServerRuntime.sh_limiter sh) (Masking.now env) (Masking.visit env)
              (Masking.peer env)).2 sh
       else sh) in
    (HandshakeFailed err, sh, cache, c)
  | Some (Ok identity) =>
    let sh := ServerRuntime.with_limiter
                (RateLimit.record_success (ServerRuntime.sh_limiter sh) (Masking.peer env)) sh in
    if Masking.stopping env then (Stopped, sh, cache, c) else
    let '(served, sh, c) := run_authenticated_session config identity datagrams sh c in
    (served, sh, cache, c)
  end.
End Server.

(** ** The client's side *)

(* @src crates/uk-client/src/session.rs 121-129 EndpointFailurePhase *)
Inductive EndpointFailurePhase : Set := PTcp | PTls | PAuth | PSettings | PTimeout | PProtocol | POther.

#[global] Instance EndpointFailurePhase_eq_dec : EqDecision EndpointFailurePhase.
Proof. solve_decision. Defined.

(** An error of the client: one with a phase, the server's refusal, or another. *)
Inductive ClientError : Set :=
  | PhaseError (phase : string) (failure_phase : EndpointFailurePhase)
  | ServerHandshakeError (code : Status.ErrorCode)
  | OtherError (message : string).

(* @src crates/uk-client/src/session.rs 815-824 phase_error *)
Definition client_phase_error {X} (p : string) (failure_phase : EndpointFailurePhase) (source : X) : ClientError :=
  PhaseError p failure_phase.

Section Client.
Context {P : Platform} (hmac : Bytes → Bytes → Bytes).

(* @src crates/uk-client/src/session.rs 740-755 client_settings *)
Definition client_settings (config : ClientConfig.ClientConfig) (supports_udp_datagram : bool) : Settings.Settings :=
  let s := Settings.Settings_default in
  let s := Settings.set s Settings.ProtocolRevision Settings.PROTOCOL_REVISION_V1_0 in
  let s := Settings.set s Settings.MaxFrameSize Frame.MAX_FRAME_PAYLOAD_SIZE in
  let streams := Z.min (ClientConfig.max_socks_connections config) Settings.MAX_NEGOTIATED_FLOWS in
  let s := Settings.set s Settings.MaxStreams streams in
  let s := Settings.set s Settings.MaxUdpFlows streams in
  let s := Settings.set s Settings.SupportsUdpDatagram (Z.b2z supports_udp_datagram) in
  let s := Settings.set s Settings.SupportsUdpStreamFallback 1 in
  Settings.set s Settings.IdleTimeoutSeconds 0.

(* @src crates/uk-client/src/session.rs 757-813 decode_server_settings_frame *)
Definition decode_server_settings_frame (frame : Frame.Frame) : result ClientError Settings.Settings :=
  match Frame.frame_type (Frame.header frame) with
  | Frame.Settings =>
    let? _ := map_err (client_phase_error "validate server settings" PProtocol)
                (Frame.validate_connection_frame frame Frame.Settings) in
    let? settings := map_err (client_phase_error "decode server settings" PProtocol)
                       (Settings.decode (Frame.payload frame)) in
    let? _ := map_err (client_phase_error "negotiate server settings" PSettings)
                (Settings.negotiated_v1_0 settings) in
    Ok settings
  | Frame.Error =>
    let? _ := map_err (client_phase_error "validate server handshake error" PProtocol)
                (Frame.validate_connection_frame frame Frame.Error) in
    let? status := map_err (client_phase_error "decode server handshake error" PProtocol)
                     (Status.error_decode (Frame.payload frame)) in
    Err (ServerHandshakeError (Status.code status))
  | _ =>
    let? _ := map_err (client_phase_error "validate server response" PProtocol)
                (Frame.validate_connection_frame frame Frame.Settings) in
    Err (OtherError "unexpected connection frame type")
  end.

(** What the client brings: its clock, its random nonce, the exporter secret, and
    whether the carrier has a datagram channel. *)
Record ClientSide : Set := {
  client_clock : Z;
  client_random : Bytes;
  c_exporter : Bytes;
  c_datagrams : bool
}.

(** The challenge is answered. *)
(* @src crates/uk-client/src/session.rs 663-695 authenticate_over_carrier *)
Definition answer_challenge (config : ClientConfig.ClientConfig) (s : ClientSide) : hs ClientError unit :=
  let* challenge_frame := io (recv Frame.FrameLimits_default) (client_phase_error "read auth challenge" PAuth) in
  let* _ := hret (map_err (client_phase_error "validate auth challenge" PProtocol)
                    (Frame.validate_connection_frame challenge_frame Frame.AuthChallenge)) in
  let* challenge := hret (map_err (client_phase_error "decode auth challenge" PProtocol)
                            (Auth.challenge_decode (Frame.payload challenge_frame))) in
  let* response := hret (map_err (client_phase_error "build auth response" PAuth)
                           (Auth.for_challenge hmac (client_random s) (ClientConfig.key_id config)
                              (ClientConfig.secret config) (c_exporter s) challenge
                              (Auth.unix_now (client_clock s)) [])) in
  let* payload := hret (map_err (client_phase_error "encode auth response" PAuth) (Auth.response_encode response)) in
  let* frame := hret (map_err (client_phase_error "build auth response frame" PAuth)
                        (Frame.frame_new Frame.AuthResponse 0 0 payload)) in
  io (send frame) (client_phase_error "write auth response" PAuth).

(** Settings are exchanged. *)
(* @src crates/uk-client/src/session.rs 697-731 authenticate_over_carrier *)
Definition exchange_settings (config : ClientConfig.ClientConfig) (s : ClientSide) : hs ClientError Settings.Settings :=
  let* settings_frame := io (recv Frame.FrameLimits_default) (client_phase_error "read server settings" PAuth) in
  let* settings := hret (decode_server_settings_frame settings_frame) in
  let* _ := hret (map_err (client_phase_error "negotiate server settings" PSettings)
                    (Settings.negotiated_v1_0 settings)) in
  let* payload := hret (map_err (client_phase_error "encode client settings" PSettings)
                          (Settings.encode (client_settings config (c_datagrams s)))) in
  let* frame := hret (map_err (client_phase_error "build client settings frame" PSettings)
                        (Frame.frame_new Frame.Settings 0 0 payload)) in
  let* _ := io (send frame) (client_phase_error "write client settings" PSettings) in
  hret (Ok settings).

(* @src crates/uk-client/src/session.rs 656-738 authenticate_over_carrier *)
Definition authenticate_over_carrier (config : ClientConfig.ClientConfig) (s : ClientSide)
    : hs ClientError Settings.Settings :=
  let* _ := answer_challenge config s in
  exchange_settings config s.
End Client.
End Handshake.
