(* ===== verification/ClientConnect.v ===== *)
(** * ClientConnect: reaching a server (crates/uk-client/src/session.rs)

    A client tries its endpoints one after the other until one authenticates.  What
    the transports do (TCP, TLS, QUIC) is an input of each attempt; the challenge,
    the response and the settings run over the carrier as in [Handshake].  The
    endpoints that failed lately are remembered in a registry that all connection
    attempts of the process share and a reload clears. *)

From S2P Require Import Prelude Wire Varint FrameCodec RustStd Endpoint TargetCodec RelayPayload Settings FrameIo Duplex.
From S2P Require Import Auth Policy Mask MaskReplay MaskStream MaskUdp RateLimit ServerConfig ClientConfig Handshake.

Module ClientConnect.
Import FrameIo Duplex Handshake.

(** ** Endpoints that failed lately *)

(** [DEGRADED_ENDPOINTS] and [DEGRADED_EPOCH]: a deadline and the epoch of the
    configuration per endpoint. *)
(* @src crates/uk-client/src/session.rs 294-299 DEGRADED_ENDPOINTS *)
Record Registry : Type := { degraded : gmap Bytes (Z * Z); epoch : Z }.

(* @src crates/uk-client/src/session.rs 300-300 DEGRADED_COOLDOWN *)
Definition DEGRADED_COOLDOWN : Z := 180 * RateLimit.SECOND.

(* @src crates/uk-client/src/session.rs 306-317 is_endpoint_degraded *)
Definition is_endpoint_degraded (r : Registry) (now : Z) (endpoint : Bytes) (e : Z) : bool * Registry :=
  let map := filter (λ '(_, (until, _)), now < until) (degraded r) in
  (match map !! endpoint with Some (_, marked_epoch) => marked_epoch =? e | None => false end,
   {| degraded := map; epoch := epoch r |}).

(* @src crates/uk-client/src/session.rs 319-326 mark_endpoint_degraded *)
Definition mark_endpoint_degraded (r : Registry) (now : Z) (endpoint : Bytes) (e : Z) : Registry :=
  {| degraded := <[endpoint := (now + DEGRADED_COOLDOWN, e)]> (degraded r); epoch := epoch r |}.

(* @src crates/uk-client/src/session.rs 328-332 clear_endpoint_degraded *)
Definition clear_endpoint_degraded (r : Registry) (endpoint : Bytes) : Registry :=
  {| degraded := delete endpoint (degraded r); epoch := epoch r |}.

(* @src crates/uk-client/src/session.rs 341-346 clear_degraded_endpoints *)
Definition clear_degraded_endpoints (r : Registry) : Registry :=
  {| degraded := ∅; epoch := truncate 64 (epoch r + 1) |}.

(** Every access holds the lock, so what the process does to the registry is a
    sequence of these. *)
Inductive Access : Set :=
  | Query (now : Z) (endpoint : Bytes) (e : Z)
  | Mark (now : Z) (endpoint : Bytes) (e : Z)
  | Clear (endpoint : Bytes)
  | Reload.

Definition access (r : Registry) (a : Access) : Registry :=
  match a with
  | Query now endpoint e => (is_endpoint_degraded r now endpoint e).2
  | Mark now endpoint e => mark_endpoint_degraded r now endpoint e
  | Clear endpoint => clear_endpoint_degraded r endpoint
  | Reload => clear_degraded_endpoints r
  end.

Definition accesses (r : Registry) (l : list Access) : Registry := foldl access r l.

(** ** Errors *)

(* @src crates/uk-client/src/session.rs 115-118 EndpointAttemptOutcome *)
Inductive EndpointAttemptOutcome : Set :=
  | Succeeded
  | Failed (phase : EndpointFailurePhase).

(** The sources below a [PhaseError] are errors of the transport and the codecs. *)
(* @src crates/uk-client/src/session.rs 826-843 endpoint_failure_phase *)
Definition endpoint_failure_phase (error : ClientError) : EndpointFailurePhase :=
  match error with
  | ServerHandshakeError _ => PAuth
  | PhaseError _ failure_phase => failure_phase
  | OtherError _ => POther
  end.

(* @src crates/uk-client/src/session.rs 854-863 is_credential_rejection *)
Definition is_credential_rejection (error : ClientError) : bool :=
  match error with
  | ServerHandshakeError code => bool_decide (code = Status.AuthFailed)
  | _ => false
  end.

(* @src crates/uk-client/src/session.rs 865-867 handshake_timeout *)
Definition handshake_timeout (seconds : Z) : option Z :=
  if seconds =? 0 then None else Some (seconds * RateLimit.SECOND).

(** ** One attempt *)

(** How one await of the transport ends: with a result, or not before the attempt is
    dropped.  The errors themselves are only printed. *)
Abbreviation await := (option (result unit unit)).

(** What the world does in one attempt: the TCP connection, the random draws and the
    process-wide sequence for a masked one, the write of the prelude, the TLS or QUIC
    handshake, the negotiated protocol, the exporter, and the carrier that results. *)
Record Transport : Set := {
  tcp_connect : await;
  nodelay : result unit unit;
  draws : Mask.Draws;
  sequence : Mask.ClientSequence;
  prelude_write : await;
  tls_connect : await;
  alpn : result unit unit;
  exporter : result unit Bytes;
  quic_connect : await;
  random_nonce : Bytes;
  clock : Z;
  carrier : Carrier
}.

(** An established carrier, and what was sent ahead of the TLS bytes. *)
Record Established : Set := { e_exporter : Bytes; e_datagrams : bool; e_ahead : Bytes }.

Definition fbind {A B} (f : fate ClientError A) (k : A → fate ClientError B) : fate ClientError B :=
  match f with
  | Finished (Ok a) => k a
  | Finished (Err e) => Finished (Err e)
  | Finished Panic => Finished Panic
  | Dropped => Dropped
  end.
Notation "'let+' x := m 'in' k" := (fbind m (fun x => k))
  (at level 10, x binder, m at level 200, k at level 200) : uk_scope.

Definition awaiting (a : await) (error : ClientError) : fate ClientError unit :=
  match a with
  | Some r => Finished (map_err (λ _, error) r)
  | None => Dropped
  end.

Section Connect.
Context {P : Platform} {H : Mask.HmacSha256} (hmac : Bytes → Bytes → Bytes).

(* @src crates/uk-client/src/session.rs 596-617 finish_tls_carrier *)
Definition finish_tls_carrier (w : Transport) (ahead : Bytes) : fate ClientError Established :=
  let+ _ := Finished (map_err (client_phase_error "tls alpn verify" PTls) (alpn w)) in
  let+ exporter := Finished (map_err (client_phase_error "tls exporter" PTls) (exporter w)) in
  Finished (Ok {| e_exporter := exporter; e_datagrams := false; e_ahead := ahead |}).

(* @src crates/uk-client/src/session.rs 556-594 establish_masked_tls_carrier *)
Definition establish_masked_tls_carrier (config : ClientConfig.ClientConfig) (w : Transport)
    : fate ClientError Established :=
  let keys := Mask.derive (ClientConfig.key_id config) (ClientConfig.secret config) in
  let+ counter := Finished (map_err (client_phase_error "mask counter allocate" POther) (Mask.allocate (sequence w)).1) in
  let+ policy := Finished (map_err (client_phase_error "mask prelude policy" POther)
                             (ClientConfig.masking_prelude_policy config)) in
  let+ prelude := Finished (map_err (client_phase_error "mask prelude encode" POther)
                              (Mask.encode_prelude keys policy (draws w) (Mask.seq_identity (sequence w)) counter)) in
  let wire := Mask.bytes prelude ++ Mask.nonce prelude in
  let+ _ := awaiting (prelude_write w) (client_phase_error "mask prelude write" PTcp tt) in
  let+ _ := awaiting (tls_connect w) (client_phase_error "tls connect" PTls tt) in
  finish_tls_carrier w wire.

(* @src crates/uk-client/src/session.rs 524-551 establish_tls_carrier *)
Definition establish_tls_carrier (config : ClientConfig.ClientConfig) (w : Transport) : fate ClientError Established :=
  let+ _ := awaiting (tcp_connect w) (client_phase_error "tcp connect" PTcp tt) in
  let+ _ := Finished (map_err (client_phase_error "tcp nodelay" PTcp) (nodelay w)) in
  if ClientConfig.masking_enabled config then establish_masked_tls_carrier config w else
  let+ _ := awaiting (tls_connect w) (client_phase_error "tls connect" PTls tt) in
  finish_tls_carrier w [].

(** With masking the datagrams of QUIC are masked under the derived keys; the
    connection itself is quinn's. *)
(* @src crates/uk-client/src/session.rs 619-651 establish_quic_carrier *)
Definition establish_quic_carrier (config : ClientConfig.ClientConfig) (w : Transport) : fate ClientError Established :=
  let+ _ := awaiting (quic_connect w) (client_phase_error "quic connect" PTls tt) in
  let+ exporter := Finished (map_err (client_phase_error "quic connect" PTls) (exporter w)) in
  Finished (Ok {| e_exporter := exporter; e_datagrams := true; e_ahead := [] |}).

(* @src crates/uk-client/src/session.rs 500-522 connect_authenticated_endpoint *)
Definition connect_authenticated_endpoint (config : ClientConfig.ClientConfig) (endpoint : Bytes) (w : Transport)
    : fate ClientError Settings.Settings :=
  let+ kind := Finished (map_err (client_phase_error "parse endpoint" POther) (ClientConfig.parse_endpoint endpoint)) in
  let+ established :=
    match kind.1 with
    | ClientConfig.Tls => establish_tls_carrier config w
    | ClientConfig.Quic => establish_quic_carrier config w
    end in
  (authenticate_over_carrier hmac config
     {| client_clock := clock w; client_random := random_nonce w; c_exporter := e_exporter established;
        c_datagrams := e_datagrams established |} (carrier w)).1.

(** Without a timeout an attempt that never ends is never dropped. *)
(* @src crates/uk-client/src/session.rs 458-498 connect_authenticated_endpoint_with_timeout *)
Definition connect_authenticated_endpoint_with_timeout (config : ClientConfig.ClientConfig) (endpoint : Bytes)
    (endpoint_timeout : option Z) (w : Transport) : fate ClientError Settings.Settings :=
  match endpoint_timeout, connect_authenticated_endpoint config endpoint w with
  | Some timeout, Dropped => Finished (Err (client_phase_error "client handshake" PTimeout tt))
  | _, f => f
  end.

(** ** The loop over the endpoints *)

(** The world of a whole connect: whether the CA bundle loads and the server name
    parses, the clock at each query of the registry, and for each attempt the
    transport, the clock when it failed, and what other tasks did to the registry
    meanwhile. *)
Record World : Type := {
  ca_bundle : result unit unit;
  server_name_ok : result unit unit;
  query_clock : nat → Z;
  transport : nat → Transport;
  end_clock : nat → Z;
  meanwhile : nat → list Access
}.

(* @src crates/uk-client/src/session.rs 377-386 connect_authenticated_inner_with_overrides *)
Fixpoint by_health (clock : nat → Z) (e : Z) (i : nat) (endpoints : list Bytes) (r : Registry)
    : list Bytes * list Bytes * Registry :=
  match endpoints with
  | [] => ([], [], r)
  | ep :: endpoints =>
    let '(is_degraded, r) := is_endpoint_degraded r (clock i) ep e in
    let '(healthy, degraded, r) := by_health clock e (S i) endpoints r in
    if (is_degraded : bool) then (healthy, ep :: degraded, r) else (ep :: healthy, degraded, r)
  end.

(** How a connect ends: it does not get as far as dialling, it has a session, no
    endpoint would do, or it waits forever. *)
Inductive Outcome : Set :=
  | SetupFailed
  | Connected (endpoint : Bytes) (settings : Settings.Settings)
  | AttemptsFailed (attempts : list (nat * Bytes * ClientError)) (credential_rejection : bool)
  | Hanging
  | TaskPanicked.

(* @src crates/uk-client/src/session.rs 411-427 connect_authenticated_inner_with_overrides *)
Definition degrades (endpoint : Bytes) (err : ClientError) : bool :=
  let failure_phase := endpoint_failure_phase err in
  let is_quic_transport_failure :=
    match ClientConfig.parse_endpoint endpoint with
    | Ok (ClientConfig.Quic, _) => bool_decide (failure_phase ∈ [PTls; PTcp; PTimeout])
    | _ => false
    end in
  (bool_decide (failure_phase = PTimeout) || is_quic_transport_failure) && negb (is_credential_rejection err).

(* @src crates/uk-client/src/session.rs 394-456 connect_authenticated_inner_with_overrides *)
Fixpoint try_endpoints (config : ClientConfig.ClientConfig) (endpoint_timeout : option Z) (e : Z) (w : World) (index : nat)
    (endpoints : list Bytes) (attempts : list (nat * Bytes * ClientError)) (r : Registry)
    : Outcome * Registry * list EndpointAttemptOutcome :=
  match endpoints with
  | [] => (AttemptsFailed attempts false, r, [])
  | endpoint :: endpoints =>
    let f := connect_authenticated_endpoint_with_timeout config endpoint endpoint_timeout (transport w index) in
    let r := accesses r (meanwhile w index) in
    match f with
    | Finished (Ok settings) => (Connected endpoint settings, clear_endpoint_degraded r endpoint, [Succeeded])
    | Finished (Err err) =>
      let r := if degrades endpoint err then mark_endpoint_degraded r (end_clock w index) endpoint e else r in
      let attempts := attempts ++ [(index, endpoint, err)] in
      let observed := Failed (endpoint_failure_phase err) in
      if is_credential_rejection err then (AttemptsFailed attempts true, r, [observed]) else
      let '(o, r, seen) := try_endpoints config endpoint_timeout e w (S index) endpoints attempts r in
      (o, r, observed :: seen)
    | Finished Panic => (TaskPanicked, r, [])
    | Dropped => (Hanging, r, [])
    end
  end.

(* @src crates/uk-client/src/session.rs 359-456 connect_authenticated_inner_with_overrides *)
Definition connect_authenticated_inner (config : ClientConfig.ClientConfig) (endpoint_timeout : option Z) (w : World)
    (r : Registry) : Outcome * Registry * list EndpointAttemptOutcome :=
  match ca_bundle w, server_name_ok w with
  | Ok _, Ok _ =>
    let e := epoch r in
    let '(healthy, degraded, r) := by_health (query_clock w) e 0 (ClientConfig.server_endpoints config) r in
    let ordered_endpoints := if bool_decide (healthy = []) then degraded else healthy ++ degraded in
    try_endpoints config endpoint_timeout e w 0 ordered_endpoints [] r
  | _, _ => (SetupFailed, r, [])
  end.

(* @src crates/uk-client/src/session.rs 277-292 connect_authenticated_observed *)
Definition connect_authenticated_observed (config : ClientConfig.ClientConfig) (w : World) (r : Registry)
    : Outcome * Registry * list EndpointAttemptOutcome :=
  match ClientConfig.validate_network_endpoints config, ClientConfig.validate_auth_material config with
  | Ok _, Ok _ =>
    connect_authenticated_inner config (handshake_timeout (ClientConfig.handshake_timeout_seconds config)) w r
  | _, _ => (SetupFailed, r, [])
  end.

(** ** Lemmas: the loop *)

Lemma is_credential_rejection_true err :
  is_credential_rejection err = true ↔ err = ServerHandshakeError Status.AuthFailed.
Proof. destruct err as [|code|]; simpl; [done| |done]. case_bool_decide; naive_solver. Qed.

(** What the attempt at position [i] comes to. *)
Definition attempt (config : ClientConfig.ClientConfig) (timeout : option Z) (w : World) (i : nat) (ep : Bytes)
    : fate ClientError Settings.Settings :=
  connect_authenticated_endpoint_with_timeout config ep timeout (transport w i).

(** The first [k] endpoints failed, none of them for the credentials. *)
Definition failed_before config timeout w i (eps : list Bytes) (k : nat) : Prop :=
  (k ≤ length eps)%nat ∧
  ∀ j ep, (j < k)%nat → eps !! j = Some ep →
    ∃ err, attempt config timeout w (i + j) ep = Finished (Err err) ∧ err ≠ ServerHandshakeError Status.AuthFailed.

Lemma try_endpoints_spec config timeout e w i eps acc r o r' seen :
  try_endpoints config timeout e w i eps acc r = (o, r', seen) →
  ∃ k, failed_before config timeout w i eps k ∧
  match o with
  | Connected ep s => eps !! k = Some ep ∧ attempt config timeout w (i + k) ep = Finished (Ok s)
  | AttemptsFailed atts false => k = length eps ∧ atts.*1 = acc.*1 ++ imap (λ j ep, (i + j, ep)%nat) eps
  | AttemptsFailed atts true => ∃ ep, eps !! k = Some ep ∧
      attempt config timeout w (i + k) ep = Finished (Err (ServerHandshakeError Status.AuthFailed))
  | Hanging => ∃ ep, eps !! k = Some ep ∧ attempt config timeout w (i + k) ep = Dropped
  | TaskPanicked => ∃ ep, eps !! k = Some ep ∧ attempt config timeout w (i + k) ep = Finished Panic
  | SetupFailed => False
  end.
Proof.
  revert i acc r o r' seen. induction eps as [|ep eps IH]; intros i acc r o r' seen; cbn [try_endpoints].
  { intros [= <- <- <-]. exists 0%nat. split; [split; [done|]; intros; lia|]. split; [done|]. by rewrite app_nil_r. }
  fold (attempt config timeout w i ep).
  assert (failed_before config timeout w i (ep :: eps) 0) as H0 by (split; [simpl; lia|intros; lia]).
  destruct (attempt config timeout w i ep) as [[s|err|]|] eqn:Ha.
  - intros [= <- <- <-]. exists 0%nat. split; [done|]. by rewrite Nat.add_0_r.
  - destruct (is_credential_rejection err) eqn:Hrej.
    { intros [= <- <- <-]. exists 0%nat. split; [done|]. exists ep. apply is_credential_rejection_true in Hrej as ->.
      by rewrite Nat.add_0_r. }
    match goal with |- context [try_endpoints _ _ _ _ _ _ ?acc' ?r1] =>
      destruct (try_endpoints config timeout e w (S i) eps acc' r1) as [[o1 r2] seen1] eqn:Hrun end.
    intros [= <- <- <-]. destruct (IH _ _ _ _ _ _ Hrun) as (k & [Hk Hfail] & Hspec). exists (S k). split.
    { split; [simpl; lia|]. intros [|j] ep' Hj Hl; simplify_eq/=.
      - exists err. rewrite Nat.add_0_r. split; [done|]. intros E%is_credential_rejection_true. congruence.
      - rewrite Nat.add_succ_r. apply (Hfail j); [lia|done]. }
    rewrite Nat.add_succ_r. destruct o1 as [| |atts []| |]; try done.
    destruct Hspec as [-> ->]. split; [done|]. rewrite fmap_app, <- app_assoc. simpl. f_equal. rewrite Nat.add_0_r.
    f_equal. apply imap_ext. intros j x _. simpl. f_equal. lia.
  - intros [= <- <- <-]. exists 0%nat. split; [done|]. exists ep. by rewrite Nat.add_0_r.
  - intros [= <- <- <-]. exists 0%nat. split; [done|]. exists ep. by rewrite Nat.add_0_r.
Qed.

Lemma attempt_dropped config timeout w i ep : attempt config timeout w i ep = Dropped → timeout = None.
Proof.
  unfold attempt, connect_authenticated_endpoint_with_timeout. destruct timeout; [|done].
  by destruct (connect_authenticated_endpoint _ _ _) as [[]|].
Qed.
End Connect.

(** ** Lemmas: penalties *)

(** An endpoint is penalised in epoch [e]. *)
Definition penalised (r : Registry) (e now : Z) (ep : Bytes) : Prop :=
  ∃ until, degraded r !! ep = Some (until, e) ∧ now < until.

Lemma is_endpoint_degraded_true r now ep e : (is_endpoint_degraded r now ep e).1 = true ↔ penalised r e now ep.
Proof.
  unfold is_endpoint_degraded, penalised. simpl. split.
  - destruct (filter _ _ !! ep) as [[until e']|] eqn:Hl; [|done]. intros ->%Z.eqb_eq.
    apply map_lookup_filter_Some in Hl as [Hl Hn]. eauto.
  - intros (until & Hl & Hn). rewrite (proj2 (map_lookup_filter_Some _ _ ep (until, e))); [|done]. apply Z.eqb_refl.
Qed.

(** Looking endpoints up only drops penalties that are over. *)
Lemma query_penalised r now ep e e' now' ep' :
  now ≤ now' → penalised (is_endpoint_degraded r now ep e).2 e' now' ep' ↔ penalised r e' now' ep'.
Proof.
  intros Hn. unfold penalised. simpl. split.
  - intros (until & Hl & ?). apply map_lookup_filter_Some in Hl as [Hl _]. eauto.
  - intros (until & Hl & ?). exists until. split; [|done]. apply map_lookup_filter_Some. split; [done|lia].
Qed.

Lemma penalised_mono r e now now' ep : now ≤ now' → penalised r e now' ep → penalised r e now ep.
Proof. intros Hn (until & Hl & ?). exists until. split; [done|lia]. Qed.

Lemma by_health_spec clock e i eps r healthy deg r' :
  (∀ i j, (i ≤ j)%nat → clock i ≤ clock j) → by_health clock e i eps r = (healthy, deg, r') →
  healthy ++ deg ≡ₚ eps ∧ healthy `sublist_of` eps ∧ deg `sublist_of` eps ∧
  Forall (penalised r e (clock i)) deg ∧
  Forall (λ ep, ¬ penalised r e (clock (i + length eps)%nat) ep) healthy.
Proof.
  intros Hmono. revert i r healthy deg r'. induction eps as [|ep eps IH]; intros i r healthy deg r'; cbn [by_health].
  { intros [= <- <- <-]. by split_and!. }
  destruct (is_endpoint_degraded r (clock i) ep e) as [b r1] eqn:Hq.
  destruct (by_health clock e (S i) eps r1) as [[h d] r2] eqn:Hb.
  destruct (IH _ _ _ _ _ Hb) as (Hp & Hh & Hd & Hdeg & Hhea).
  assert (Forall (penalised r e (clock i)) d).
  { eapply Forall_impl; [exact Hdeg|]. intros x Hx. apply (penalised_mono _ _ _ (clock (S i))); [apply Hmono; lia|].
    replace r1 with (is_endpoint_degraded r (clock i) ep e).2 in Hx by (by rewrite Hq).
    by apply query_penalised in Hx; [|apply Hmono; lia]. }
  assert (Forall (λ x, ¬ penalised r e (clock (i + S (length eps))%nat) x) h).
  { eapply Forall_impl; [exact Hhea|]. intros x Hx Hpen. apply Hx.
    replace r1 with (is_endpoint_degraded r (clock i) ep e).2 by (by rewrite Hq).
    apply query_penalised; [apply Hmono; lia|]. by replace (S i + length eps)%nat with (i + S (length eps))%nat by lia. }
  pose proof (is_endpoint_degraded_true r (clock i) ep e) as Ht. rewrite Hq in Ht. simpl in Ht.
  destruct b; intros [= <- <- <-].
  - split_and!; [by rewrite <- Permutation_middle, Hp|by constructor|by constructor|constructor; [by apply Ht|done]|done].
  - split_and!; [simpl; by rewrite Hp|by constructor|by constructor|done|]. constructor; [|done].
    intros Hpen. apply (penalised_mono _ _ (clock i)) in Hpen; [|apply Hmono; lia]. by apply Ht in Hpen.
Qed.

(** Whether an access changes what is known of an endpoint. *)
Definition touches (ep : Bytes) (a : Access) : bool :=
  match a with
  | Query _ _ _ => false
  | Mark _ ep' _ | Clear ep' => bool_decide (ep' = ep)
  | Reload => true
  end.

Definition access_time (a : Access) : option Z :=
  match a with Query t _ _ | Mark t _ _ => Some t | _ => None end.

(** The last thing that happened to an endpoint is this penalty. *)
Definition last_marked (l : list Access) (ep : Bytes) (e t : Z) : Prop :=
  ∃ pre post, l = pre ++ Mark t ep e :: post ∧ Forall (λ a, touches ep a = false) post.

Lemma last_marked_snoc l a ep e t :
  last_marked (l ++ [a]) ep e t ↔ a = Mark t ep e ∨ (touches ep a = false ∧ last_marked l ep e t).
Proof.
  unfold last_marked. split.
  - intros (pre & post & Heq & Hpost). destruct post as [|x post _] using rev_ind.
    + apply app_inj_2 in Heq as [_ [= ->]]; [by left|done].
    + rewrite app_comm_cons, app_assoc in Heq. apply app_inj_2 in Heq as [-> [= ->]]; [|done].
      apply Forall_app in Hpost as [Hpost Hx]. rewrite Forall_singleton in Hx. right. split; [done|]. by exists pre, post.
  - intros [->|(Ht & pre & post & -> & Hpost)].
    + by exists l, [].
    + exists pre, (post ++ [a]). split; [by rewrite <- app_assoc|]. apply Forall_app. split; [done|]. by rewrite Forall_singleton.
Qed.

Lemma penalised_iff l ep e now :
  Forall (λ a, ∀ t, access_time a = Some t → t ≤ now) l →
  penalised (accesses {| degraded := ∅; epoch := 0 |} l) e now ep ↔
  ∃ t, last_marked l ep e t ∧ now < t + DEGRADED_COOLDOWN.
Proof.
  induction l as [|a l IH] using rev_ind; intros Hl.
  { split; [by intros (? & ? & _)|]. intros (t & (pre & post & Heq & _) & _). by destruct pre. }
  apply Forall_app in Hl as [Hl Ha]. rewrite Forall_singleton in Ha. specialize (IH Hl).
  setoid_rewrite last_marked_snoc. unfold accesses in *. rewrite foldl_app. cbn [foldl].
  set (r := foldl access _ l) in *. destruct a as [q ep' e'|t' ep' e'|ep'|]; cbn [access touches].
  - rewrite query_penalised by (by apply Ha). rewrite IH. naive_solver.
  - unfold penalised. cbn [degraded mark_endpoint_degraded]. case_bool_decide as He.
    + subst ep'. rewrite lookup_insert_eq. naive_solver.
    + rewrite lookup_insert_ne by done. fold (penalised r e now ep). rewrite IH. naive_solver.
  - unfold penalised. cbn [degraded clear_endpoint_degraded]. case_bool_decide as He.
    + subst ep'. rewrite lookup_delete_eq. naive_solver.
    + rewrite lookup_delete_ne by done. fold (penalised r e now ep). rewrite IH. naive_solver.
  - split; [by intros (? & ? & _)|]. naive_solver.
Qed.

Lemma next_epoch z : is_u64 z → truncate 64 (z + 1) ≠ z.
Proof.
  intros Hz. unfold truncate, in_width in *.
  destruct (decide (z = 2 ^ 64 - 1)) as [->|]; [done|]. rewrite Z.mod_small by lia. lia.
Qed.

Lemma epoch_u64 l r : is_u64 (epoch r) → is_u64 (epoch (accesses r l)).
Proof.
  revert r. induction l as [|a l IH]; intros r Hr; [done|]. apply IH. destruct a; try done.
  cbn [access epoch clear_degraded_endpoints]. unfold truncate, in_width. by apply Z.mod_pos_bound.
Qed.

Lemma marked_after l before after ep e t :
  l = before ++ Reload :: after → last_marked l ep e t → Mark t ep e ∈ after.
Proof.
  intros -> (pre & post & Heq & Hpost). apply app_eq_inv in Heq as [(k & -> & Hk)|(k & -> & Hk)].
  - destruct k as [|a k]; simplify_eq/=. apply Forall_app in Hpost as [_ [? _]%Forall_cons]. done.
  - destruct k as [|a k]; simplify_eq/=. set_solver.
Qed.

(** ** What the client can rely on *)

(** C25: the failover neither gives up early nor goes round in circles.  Every
    configured endpoint is in the order of attempts exactly once, those under a
    penalty after those without, each group in the order of the configuration.
    Endpoints are tried in that order, and the connect ends with the first that
    authenticates; it fails only when all of them have failed, in which case the
    error names each, or when a server has refused the credentials themselves.  With
    a handshake timeout it always ends; and it ends with a session whenever some
    endpoint would authenticate and none refuses the credentials or panics. *)
Theorem failover_reaches_a_server {P : Platform} {H : Mask.HmacSha256} hmac config timeout w r o r' seen :
  (∀ i j, (i ≤ j)%nat → query_clock w i ≤ query_clock w j) →
  ca_bundle w = Ok tt → server_name_ok w = Ok tt →
  connect_authenticated_inner hmac config timeout w r = (o, r', seen) →
  ∃ healthy deg, let order := healthy ++ deg in let eps := ClientConfig.server_endpoints config in
    order ≡ₚ eps ∧ healthy `sublist_of` eps ∧ deg `sublist_of` eps ∧
    Forall (penalised r (epoch r) (query_clock w 0)) deg ∧
    Forall (λ ep, ¬ penalised r (epoch r) (query_clock w (length eps)) ep) healthy ∧
    (∃ k, failed_before hmac config timeout w 0 order k ∧
       match o with
       | Connected ep s => order !! k = Some ep ∧ attempt hmac config timeout w k ep = Finished (Ok s)
       | AttemptsFailed atts false => k = length order ∧ atts.*1 = imap pair order
       | AttemptsFailed atts true => ∃ ep, order !! k = Some ep ∧
           attempt hmac config timeout w k ep = Finished (Err (ServerHandshakeError Status.AuthFailed))
       | Hanging => timeout = None
       | TaskPanicked => ∃ ep, order !! k = Some ep ∧ attempt hmac config timeout w k ep = Finished Panic
       | SetupFailed => False
       end) ∧
    (timeout ≠ None →
     (∃ i ep s, order !! i = Some ep ∧ attempt hmac config timeout w i ep = Finished (Ok s)) →
     (∀ i ep, order !! i = Some ep → attempt hmac config timeout w i ep ≠ Finished Panic ∧
        attempt hmac config timeout w i ep ≠ Finished (Err (ServerHandshakeError Status.AuthFailed))) →
     ∃ ep s, o = Connected ep s).
Proof.
  intros Hmono Hca Hname. unfold connect_authenticated_inner. rewrite Hca, Hname.
  destruct (by_health (query_clock w) (epoch r) 0 (ClientConfig.server_endpoints config) r) as [[healthy deg] r1] eqn:Hb.
  destruct (by_health_spec _ _ _ _ _ _ _ _ Hmono Hb) as (Hp & Hh & Hd & Hpen & Hfree).
  replace (if bool_decide (healthy = []) then deg else healthy ++ deg) with (healthy ++ deg)
    by (case_bool_decide as E; [by rewrite E|done]).
  intros Htry. apply try_endpoints_spec in Htry as (k & Hk & Hspec). exists healthy, deg. cbv zeta.
  split_and!; [done..| |].
  - exists k. split; [done|]. destruct o as [| |atts []| |]; try done.
    destruct Hspec as (ep & _ & Hdrop). by apply attempt_dropped in Hdrop.
  - intros Ht (i & ep & s & Hi & Hs) Hok. destruct Hk as [Hk Hfail]. simpl in *.
    assert (k ≤ i)%nat as Hki.
    { apply Nat.nlt_ge. intros Hlt. destruct (Hfail i ep Hlt Hi) as (err & He & _). congruence. }
    apply lookup_lt_Some in Hi. destruct o as [|ep' s'|atts []| |]; [done|eauto|..].
    + destruct Hspec as (ep' & Hl & He). by destruct (Hok _ _ Hl) as [_ ?].
    + destruct Hspec as [-> _]. lia.
    + destruct Hspec as (ep' & _ & Hdrop). by apply attempt_dropped in Hdrop.
    + destruct Hspec as (ep' & Hl & Hpan). by destruct (Hok _ _ Hl) as [? _].
Qed.

(** An endpoint is under a penalty exactly for the 180 seconds after it was last
    marked, in the epoch of the mark, unless it has authenticated or the
    configuration was reloaded since.  In particular a reload forgives everything:
    penalties that connects of the previous configuration record after it do not
    count for the new one.  Holds for every interleaving of the accesses of all
    connects and reloads of the process. *)
Theorem penalties_exact l now ep :
  Forall (λ a, ∀ t, access_time a = Some t → t ≤ now) l →
  let r := accesses {| degraded := ∅; epoch := 0 |} in
  (∀ e, (is_endpoint_degraded (r l) now ep e).1 = true ↔
     ∃ t, last_marked l ep e t ∧ now < t + DEGRADED_COOLDOWN) ∧
  (∀ before after, l = before ++ Reload :: after →
     (∀ t ep' e, Mark t ep' e ∈ after → e = epoch (r before)) →
     (is_endpoint_degraded (r l) now ep (epoch (r (before ++ [Reload])))).1 = false).
Proof.
  intros Hl r. subst r. cbv beta. split.
  { intros e. by rewrite is_endpoint_degraded_true, penalised_iff. }
  intros before after -> Hafter. apply not_true_iff_false. rewrite is_endpoint_degraded_true, penalised_iff by done.
  intros (t & Hlast & _). eapply marked_after in Hlast; [|done]. apply Hafter in Hlast.
  unfold accesses in Hlast. rewrite foldl_app in Hlast. cbn in Hlast.
  by apply next_epoch in Hlast; [|apply (epoch_u64 before {| degraded := ∅; epoch := 0 |})].
Qed.

(** ** An instance: the first endpoint hangs, the second refuses TLS, the third is down *)
Module Demo.
#[local] Existing Instance platform64.
#[local] Existing Instance Mask.demo_hmac_sha256.

Definition endpoint (s : string) : Bytes := bytes_of_string s.
Definition config : ClientConfig.ClientConfig :=
  {| ClientConfig.server_addr := endpoint "quic://a.example:443";
     ClientConfig.c_server_addrs := Some [endpoint "b.example:443"; endpoint "tls://c.example:443"];
     ClientConfig.server_name := endpoint "a.example"; ClientConfig.observability_listen := None;
     ClientConfig.ca_cert_path := endpoint "ca.pem"; ClientConfig.key_id := endpoint "client";
     ClientConfig.secret := seqZ 1 32; ClientConfig.c_handshake_timeout_seconds := None;
     ClientConfig.c_server_connect_retry_delay_millis := None; ClientConfig.c_socks_handshake_timeout_seconds := None;
     ClientConfig.c_tcp_open_timeout_seconds := None; ClientConfig.c_udp_flow_idle_timeout_seconds := None;
     ClientConfig.c_shutdown_timeout_seconds := None; ClientConfig.c_max_pending_open_bytes := None;
     ClientConfig.c_max_socks_connections := None; ClientConfig.c_max_buffered_bytes_per_session := None;
     ClientConfig.c_max_buffered_bytes_per_flow := None; ClientConfig.c_max_carrier_sessions := None;
     ClientConfig.c_relay_buffer_size := None; ClientConfig.masking := None |}.
Definition failing (i : nat) : Transport :=
  {| tcp_connect := if bool_decide (i = 2%nat) then Some (Err tt) else Some (Ok tt); nodelay := Ok tt;
     draws := Mask.demo_draws; sequence := Mask.sequence_new 7; prelude_write := None; tls_connect := Some (Err tt);
     alpn := Ok tt; exporter := Ok []; quic_connect := None; random_nonce := []; clock := 0;
     carrier := {| input := []; output := {| events := []; flush_result := Ok tt; wire := [] |} |} |}.
Definition world : World :=
  {| ca_bundle := Ok tt; server_name_ok := Ok tt; query_clock := λ _, 0; transport := failing; end_clock := λ _, 0;
     meanwhile := λ _, [] |}.
Definition run := connect_authenticated_observed (λ k m, []) config world {| degraded := ∅; epoch := 0 |}.

Lemma failover_reaches_a_server_witness :
  ∃ atts order, run.1.1 = AttemptsFailed atts false ∧ order ≡ₚ ClientConfig.server_endpoints config ∧
    atts.*1 = imap pair order.
Proof.
  assert (run = connect_authenticated_inner (λ k m, []) config (Some (10 * RateLimit.SECOND)) world
    {| degraded := ∅; epoch := 0 |}) as -> by reflexivity.
  destruct (connect_authenticated_inner _ _ _ _ _) as [[o r'] seen] eqn:Hrun. simpl.
  destruct (failover_reaches_a_server (λ k m, []) config (Some (10 * RateLimit.SECOND)) world {| degraded := ∅; epoch := 0 |}
    o r' seen (λ i j _, Z.le_refl 0) eq_refl eq_refl Hrun) as (healthy & deg & Hp & _ & _ & _ & _ & (k & _ & Hk) & _).
  assert (∃ atts, o = AttemptsFailed atts false) as [atts ->].
  { vm_compute in Hrun. injection Hrun as <- _ _. by eexists. }
  destruct Hk as [_ Hk]. by exists atts, (healthy ++ deg).
Defined.

End Demo.
End ClientConnect.
