(* ===== verification/ClientSession.v ===== *)
(** * ClientSession: one carrier of the client
    (crates/uk-client/src/relay/context.rs, carrier.rs, session_manager.rs)

    A client session carries the flows of many SOCKS connections.  Its reader routes
    frames into bounded queues, one per flow, charged to a flow budget and a session
    budget; the tasks of the flows take them out.  Slots of the flow ceilings are
    reserved ahead of an open.  The session drains when the configuration is reloaded
    and closes on the first error.

    Locks, atomics and channels make each operation below one step; between them the
    tasks interleave in any order. *)

From S2P Require Import Prelude Wire Varint FrameCodec RustStd Endpoint TargetCodec RelayPayload Settings FrameIo.
From S2P Require Import ServerConfig Socks5.

Module ClientSession.
Import FrameCodec.Frame.

(** ** Flows and their queues *)

(* @src crates/uk-client/src/relay/context.rs 422-426 FlowProtocol *)
Inductive FlowProtocol : Set := Tcp | Udp.

#[global] Instance FlowProtocol_eq_dec : EqDecision FlowProtocol.
Proof. solve_decision. Defined.

(* @src crates/uk-client/src/relay/context.rs 411-420 FlowFrameRoute *)
Inductive FlowFrameRoute : Set :=
  | InvalidFlowId | UnknownFlow | ProtocolMismatch | Enqueued | FlowClosed | FlowQueueFull | SessionQueueFull.

#[global] Instance FlowFrameRoute_eq_dec : EqDecision FlowFrameRoute.
Proof. solve_decision. Defined.

(* @src crates/uk-client/src/relay/context.rs 477-480 BufferReserveError *)
Inductive BufferReserveError : Set := FlowLimit | SessionLimit.

(** A flow's channel and its budget.  [queue] is what was sent and not yet received,
    [held] what was received and its bytes not yet released, [receiver] whether the
    flow still listens.  The last two fields are history: the reliable frames that
    arrived for the flow since it was reserved, and the frames it has taken. *)
(* @src crates/uk-client/src/relay/context.rs 452-456 ClientFlowRoute *)
Record Channel : Type := {
  protocol : FlowProtocol;
  queue : list Frame;
  held : list Frame;
  receiver : bool;
  flow_bytes : Z;
  arrived : list Frame;
  taken : list Frame
}.

(** The flow table: the routes in it, every channel there has been, and the bytes
    charged to the session. *)
Record Table : Type := {
  routes : gset Z;
  channels : gmap Z Channel;
  session_bytes : Z
}.

(** The limits of a session. *)
Record Limits : Set := {
  max_streams : Z;
  max_udp_flows : Z;
  max_buffered_bytes_per_flow : Z;
  max_buffered_bytes_per_session : Z;
  max_pending_open_bytes : Z;
  data_frame_size : Z;
  supports_udp_stream_fallback : bool;
  supports_udp_relay : bool
}.

(* @src crates/uk-client/src/relay/context.rs 32-46 flow_frame_queue_capacity *)
Definition flow_frame_queue_capacity (max_buffered_bytes_per_flow : Z) : Z :=
  Z.max 64 (Z.min 8192 (max_buffered_bytes_per_flow / 1024)).

Section Client.
Context {P : Platform}.

(** The compare-and-swap loops as the atomic updates they make. *)
(* @src crates/uk-client/src/relay/context.rs 683-702 reserve_bytes *)
Definition reserve_bytes (current amount limit : Z) : option Z :=
  let next := current + amount in
  if USIZE_MAX <? next then None else if limit <? next then None else Some next.

(* @src crates/uk-client/src/relay/context.rs 704-722 release_bytes *)
Definition release_bytes (current amount : Z) : Z := Z.max 0 (current - amount).

(** The flow's reservation is given back when the session has no room. *)
(* @src crates/uk-client/src/relay/context.rs 579-600 BufferedFlowFrame::new *)
Definition buffer_frame (l : Limits) (ch : Channel) (session len : Z) : BufferReserveError * Z + Z * Z :=
  match reserve_bytes (flow_bytes ch) len (max_buffered_bytes_per_flow l) with
  | None => inl (FlowLimit, flow_bytes ch)
  | Some flow =>
    match reserve_bytes session len (max_buffered_bytes_per_session l) with
    | None => inl (SessionLimit, release_bytes flow len)
    | Some session => inr (flow, session)
    end
  end.

Definition with_queue (ch : Channel) (q : list Frame) (bytes : Z) : Channel :=
  {| protocol := protocol ch; queue := q; held := held ch; receiver := receiver ch; flow_bytes := bytes;
     arrived := arrived ch; taken := taken ch |}.

Definition put_channel (t : Table) (flow_id : Z) (ch : Channel) (session : Z) : Table :=
  {| routes := routes t; channels := <[flow_id := ch]> (channels t); session_bytes := session |}.

Definition remove_route (t : Table) (flow_id : Z) : Table :=
  {| routes := routes t ∖ {[ flow_id ]}; channels := channels t; session_bytes := session_bytes t |}.

(** [flows.get]. *)
Definition route (t : Table) (flow_id : Z) : option Channel :=
  if bool_decide (flow_id ∈ routes t) then channels t !! flow_id else None.

(* @src crates/uk-client/src/relay/carrier.rs 432-451 flow_frame_matches_protocol *)
Definition flow_frame_matches_protocol (p : FlowProtocol) (t : FrameType) : bool :=
  match p, t with
  | Tcp, TcpData | Tcp, TcpClose | Udp, UdpData | Udp, UdpClose => true
  | _, Error | _, PolicyDenied | _, ResourceLimit => true
  | _, _ => false
  end.

(** [try_send]: the queue is bounded, and closed once the receiver is gone.  A frame
    that comes back is dropped, which releases its bytes. *)
(* @src crates/uk-client/src/relay/carrier.rs 418-429 route_flow_frame *)
Definition try_send (l : Limits) (t : Table) (flow_id : Z) (ch : Channel) (f : Frame) (flow session : Z)
  : FlowFrameRoute * Table :=
  let len := zlen (payload f) in
  let refused := put_channel t flow_id (with_queue ch (queue ch) (release_bytes flow len)) (release_bytes session len) in
  if negb (receiver ch) then (FlowClosed, refused) else
  if flow_frame_queue_capacity (max_buffered_bytes_per_flow l) <=? zlen (queue ch) then (FlowQueueFull, refused) else
  (Enqueued, put_channel t flow_id (with_queue ch (queue ch ++ [f]) flow) session).

(* @src crates/uk-client/src/relay/carrier.rs 377-430 route_flow_frame *)
Definition route_flow_frame (l : Limits) (f : Frame) (t : Table) : option FlowProtocol * FlowFrameRoute * Table :=
  let flow_id := id (header f) in
  if negb (Flow.is_client_initiated_flow_id flow_id) then (None, InvalidFlowId, t) else
  match route t flow_id with
  | None => (None, UnknownFlow, t)
  | Some ch =>
    let p := Some (protocol ch) in
    if negb (flow_frame_matches_protocol (protocol ch) (frame_type (header f)))
    then (p, ProtocolMismatch, remove_route t flow_id) else
    match buffer_frame l ch (session_bytes t) (zlen (payload f)) with
    | inl (e, flow) =>
      let t := put_channel t flow_id (with_queue ch (queue ch) flow) (session_bytes t) in
      (p, match e with FlowLimit => FlowQueueFull | SessionLimit => SessionQueueFull end, remove_route t flow_id)
    | inr (flow, session) =>
      let '(r, t) := try_send l t flow_id ch f flow session in
      (p, r, match r with FlowClosed | FlowQueueFull => remove_route t flow_id | _ => t end)
    end
  end.

(** A datagram is enqueued or dropped; the routes stay as they are. *)
(* @src crates/uk-client/src/relay/udp.rs 108-138 route_inbound_datagram *)
Definition route_inbound_datagram (l : Limits) (flow_id : Z) (payload : Bytes) (t : Table) : bool * Table :=
  if negb (Flow.is_client_initiated_flow_id flow_id) then (false, t) else
  match route t flow_id with
  | None => (false, t)
  | Some ch =>
    if negb (bool_decide (protocol ch = Udp)) then (false, t) else
    match frame_new UdpData 0 flow_id payload with
    | Ok f =>
      match buffer_frame l ch (session_bytes t) (zlen (Frame.payload f)) with
      | inl (_, flow) => (false, put_channel t flow_id (with_queue ch (queue ch) flow) (session_bytes t))
      | inr (flow, session) =>
        let '(r, t) := try_send l t flow_id ch f flow session in (bool_decide (r = Enqueued), t)
      end
    | _ => (false, t)
    end
  end.

(** History: a reliable frame reached the flow table. *)
Definition log_arrival (f : Frame) (t : Table) : Table :=
  {| routes := routes t; session_bytes := session_bytes t;
     channels := alter (λ ch, {| protocol := protocol ch; queue := queue ch; held := held ch; receiver := receiver ch;
                                 flow_bytes := flow_bytes ch; arrived := arrived ch ++ [f]; taken := taken ch |})
                   (id (header f)) (channels t) |}.

Inductive Received : Type := Waits | Ended | Took (f : Frame).

(** [frames.recv()]: the oldest frame; the end of the stream once the queue is empty
    and no route sends to it. *)
Definition recv (flow_id : Z) (t : Table) : Received * Table :=
  match channels t !! flow_id with
  | Some ch =>
    match queue ch with
    | f :: q =>
      (Took f,
       put_channel t flow_id
         {| protocol := protocol ch; queue := q; held := held ch ++ [f]; receiver := receiver ch; flow_bytes := flow_bytes ch;
            arrived := arrived ch; taken := taken ch ++ [f] |} (session_bytes t))
    | [] => (if bool_decide (flow_id ∈ routes t) then Waits else Ended, t)
    end
  | None => (Ended, t)
  end.

(* @src crates/uk-client/src/relay/context.rs 602-615 BufferedFlowFrame::into_frame *)
Definition into_frame (flow_id : Z) (t : Table) : Table :=
  match channels t !! flow_id with
  | Some ch =>
    match held ch with
    | f :: rest =>
      let len := zlen (payload f) in
      put_channel t flow_id
        {| protocol := protocol ch; queue := queue ch; held := rest; receiver := receiver ch;
           flow_bytes := release_bytes (flow_bytes ch) len; arrived := arrived ch; taken := taken ch |}
        (release_bytes (session_bytes t) len)
    | [] => t
    end
  | None => t
  end.

(** Dropping the receiver drops what is queued, each frame releasing its bytes. *)
(* @src crates/uk-client/src/relay/context.rs 619-621 BufferedFlowFrame::drop *)
Definition drop_receiver (flow_id : Z) (t : Table) : Table :=
  match channels t !! flow_id with
  | Some ch =>
    let release '(flow, session) f := (release_bytes flow (zlen (payload f)), release_bytes session (zlen (payload f))) in
    let '(flow, session) := foldl release (flow_bytes ch, session_bytes t) (queue ch) in
    put_channel t flow_id
      {| protocol := protocol ch; queue := []; held := held ch; receiver := false; flow_bytes := flow;
         arrived := arrived ch; taken := taken ch |} session
  | None => t
  end.

(** ** Frames of the relay, and what the server answers *)

Inductive AnyError : Set :=
  | SessionDrainingError
  | ProtocolFailure (e : ProtocolError)
  | Message (m : string).

Definition ErrOr : Type → Type := result AnyError.
Definition protocol_result {A} (r : ProtocolResult A) : ErrOr A := map_err ProtocolFailure r.

(* @src crates/uk-client/src/relay/context.rs 406-409 OpenResponse *)
Inductive OpenResponse : Set := Accepted | Rejected (r : Socks5.Reply).

(* @src crates/uk-client/src/relay/carrier.rs 531-538 expect_error_payload *)
Definition expect_error_payload (payload : Bytes) (code : Status.ErrorCode) : ErrOr unit :=
  let? status := protocol_result (Status.error_decode payload) in
  if bool_decide (Status.code status = code) then Ok tt else Err (Message "unexpected error payload code").

(* @src crates/uk-client/src/relay/carrier.rs 453-464 validate_flow_status *)
Definition validate_flow_status (t : FrameType) (payload : Bytes) : ErrOr unit :=
  match t with
  | Error => let? _ := protocol_result (Status.error_decode payload) in Ok tt
  | PolicyDenied => expect_error_payload payload Status.PolicyDenied
  | ResourceLimit => expect_error_payload payload Status.ResourceLimit
  | _ => Err (Message "unexpected flow status frame")
  end.

(* @src crates/uk-client/src/relay/carrier.rs 466-474 status_frame *)
Definition status_frame (t : FrameType) (flow_id : Z) (code : Status.ErrorCode) : ErrOr Frame :=
  let? payload := protocol_result (Status.error_encode {| Status.code := code |}) in
  protocol_result (frame_new t 0 flow_id payload).

(* @src crates/uk-client/src/relay/carrier.rs 540-556 map_error_payload *)
Definition map_error_payload (payload : Bytes) : ErrOr Socks5.Reply :=
  let? status := protocol_result (Status.error_decode payload) in
  Ok match Status.code status with
     | Status.InvalidTarget | Status.TargetUnavailable | Status.TargetTimeout => Socks5.HostUnreachable
     | Status.PolicyDenied => Socks5.NotAllowed
     | Status.ResourceLimit | Status.Protocol | Status.UnsupportedVersion | Status.UnsupportedFlag
     | Status.OversizedFrame | Status.TruncatedFrame | Status.AuthFailed => Socks5.GeneralFailure
     end.

(* @src crates/uk-client/src/relay/carrier.rs 476-503 decode_open_response *)
Definition decode_open_response (f : Frame) : ErrOr OpenResponse :=
  match frame_type (header f) with
  | TcpData => if bool_decide (payload f = []) then Ok Accepted
               else Err (Message "unexpected frame while opening tcp flow")
  | PolicyDenied => let? _ := expect_error_payload (payload f) Status.PolicyDenied in Ok (Rejected Socks5.NotAllowed)
  | ResourceLimit =>
    let? _ := expect_error_payload (payload f) Status.ResourceLimit in Ok (Rejected Socks5.GeneralFailure)
  | Error => let? r := map_error_payload (payload f) in Ok (Rejected r)
  | TcpClose =>
    let? close := protocol_result (Tcp.close_decode (payload f)) in
    Ok (Rejected (if Tcp.close_code close =? Tcp.TCP_CLOSE_NORMAL then Socks5.ConnectionRefused
                  else Socks5.GeneralFailure))
  | _ => Err (Message "unexpected frame while opening tcp flow")
  end.

(* @src crates/uk-client/src/relay/carrier.rs 505-529 decode_udp_open_response *)
Definition decode_udp_open_response (f : Frame) : ErrOr OpenResponse :=
  match frame_type (header f) with
  | UdpData => if bool_decide (payload f = []) then Ok Accepted
               else Err (Message "unexpected frame while opening udp flow")
  | PolicyDenied => let? _ := expect_error_payload (payload f) Status.PolicyDenied in Ok (Rejected Socks5.NotAllowed)
  | ResourceLimit =>
    let? _ := expect_error_payload (payload f) Status.ResourceLimit in Ok (Rejected Socks5.GeneralFailure)
  | Error => let? r := map_error_payload (payload f) in Ok (Rejected r)
  | UdpClose =>
    let? close := protocol_result (Udp.close_decode (payload f)) in
    Ok (Rejected (if Udp.close_code close =? Udp.UDP_CLOSE_NORMAL then Socks5.ConnectionRefused
                  else Socks5.GeneralFailure))
  | _ => Err (Message "unexpected frame while opening udp flow")
  end.

(* @src crates/uk-client/src/relay/session_manager.rs 1384-1390 send_tcp_open *)
Definition tcp_open_frame (flow_id : Z) (target : Target.Target) : ErrOr Frame :=
  let? payload := protocol_result (Tcp.open_encode {| Tcp.target := target; Tcp.open_flags := Tcp.TCP_OPEN_FLAGS_NONE |}) in
  protocol_result (frame_new TcpOpen 0 flow_id payload).

(* @src crates/uk-client/src/relay/session_manager.rs 1392-1398 send_udp_open *)
Definition udp_open_frame (flow_id : Z) (target : Target.Target) : ErrOr Frame :=
  let? payload := protocol_result (Udp.open_encode {| Udp.target := target |}) in
  protocol_result (frame_new UdpOpen 0 flow_id payload).

(* @src crates/uk-client/src/relay/session_manager.rs 1501-1510 send_tcp_close *)
Definition tcp_close_frame (flow_id close_code : Z) : ErrOr Frame :=
  let? payload := protocol_result (Tcp.close_encode {| Tcp.close_code := close_code |}) in
  protocol_result (frame_new TcpClose 0 flow_id payload).

(* @src crates/uk-client/src/relay/session_manager.rs 1512-1521 send_udp_close *)
Definition udp_close_frame (flow_id close_code : Z) : ErrOr Frame :=
  let? payload := protocol_result (Udp.close_encode {| Udp.close_code := close_code |}) in
  protocol_result (frame_new UdpClose 0 flow_id payload).

(* @src crates/uk-client/src/relay/carrier.rs 315-331 send_flow_error_close *)
Definition flow_error_close_frame (flow_id : Z) (p : option FlowProtocol) (t : FrameType) : ErrOr Frame :=
  match p with
  | Some Udp => udp_close_frame flow_id Udp.UDP_CLOSE_ERROR
  | Some Tcp => tcp_close_frame flow_id Tcp.TCP_CLOSE_ERROR
  | None =>
    match t with
    | UdpData | UdpClose => udp_close_frame flow_id Udp.UDP_CLOSE_ERROR
    | _ => tcp_close_frame flow_id Tcp.TCP_CLOSE_ERROR
    end
  end.

(* @src crates/uk-client/src/relay/carrier.rs 353-371 validate_server_flow_frame *)
Definition validate_server_flow_frame (f : Frame) : ErrOr unit :=
  match frame_type (header f) with
  | TcpData | UdpData => Ok tt
  | TcpClose => let? _ := protocol_result (Tcp.close_decode (payload f)) in Ok tt
  | UdpClose => let? _ := protocol_result (Udp.close_decode (payload f)) in Ok tt
  | Error | PolicyDenied | ResourceLimit => validate_flow_status (frame_type (header f)) (payload f)
  | _ => Err (Message "unexpected server flow frame")
  end.

(* @src crates/uk-client/src/relay/carrier.rs 373-375 is_connection_error_frame *)
Definition is_connection_error_frame (f : Frame) : bool :=
  bool_decide (frame_type (header f) = Error) && (id (header f) =? 0).

(** ** The session *)

(* @src crates/uk-client/src/relay/context.rs 311-318 AdmissionRefusal *)
Inductive AdmissionRefusal : Set := Unavailable | StreamLimit | UdpFlowLimit.

(** The semaphores of the flow ceilings: the permits left. *)
(* @src crates/uk-client/src/relay/context.rs 289-293 FlowAdmissionControl *)
Record FlowAdmissionControl : Set := { streams : Z; udp_flows : Z }.

(* @src crates/uk-client/src/relay/session_manager.rs 83-85 ClientSession *)
Record Keepalive : Set := { next_ping_nonce : Z; outstanding_ping_nonce : Z; last_pong_nonce : Z }.

(** [clearing]: the task that closed the session has not cleared the flow table yet.
    [checks]: tasks about to run [close_if_drained].  [written]: the frames written. *)
(* @src crates/uk-client/src/relay/session_manager.rs 52-87 ClientSession *)
Record Session : Type := {
  limits : Limits;
  table : Table;
  admission : FlowAdmissionControl;
  draining : bool;
  closed : bool;
  clearing : bool;
  checks : nat;
  next_flow_id : Z;
  ping : Keepalive;
  written : list Frame
}.

Definition with_table (s : Session) (t : Table) : Session :=
  {| limits := limits s; table := t; admission := admission s; draining := draining s; closed := closed s;
     clearing := clearing s; checks := checks s; next_flow_id := next_flow_id s; ping := ping s; written := written s |}.

Definition with_admission (s : Session) (a : FlowAdmissionControl) : Session :=
  {| limits := limits s; table := table s; admission := a; draining := draining s; closed := closed s;
     clearing := clearing s; checks := checks s; next_flow_id := next_flow_id s; ping := ping s; written := written s |}.

Definition with_life (s : Session) (draining closed clearing : bool) (checks : nat) : Session :=
  {| limits := limits s; table := table s; admission := admission s; draining := draining; closed := closed;
     clearing := clearing; checks := checks; next_flow_id := next_flow_id s; ping := ping s; written := written s |}.

Definition with_ping (s : Session) (k : Keepalive) : Session :=
  {| limits := limits s; table := table s; admission := admission s; draining := draining s; closed := closed s;
     clearing := clearing s; checks := checks s; next_flow_id := next_flow_id s; ping := k; written := written s |}.

Definition with_next (s : Session) (next : Z) : Session :=
  {| limits := limits s; table := table s; admission := admission s; draining := draining s; closed := closed s;
     clearing := clearing s; checks := checks s; next_flow_id := next; ping := ping s; written := written s |}.

Definition with_written (s : Session) (w : list Frame) : Session :=
  {| limits := limits s; table := table s; admission := admission s; draining := draining s; closed := closed s;
     clearing := clearing s; checks := checks s; next_flow_id := next_flow_id s; ping := ping s; written := w |}.

(** [Semaphore::MAX_PERMITS], [usize::MAX >> 3]. *)
Definition MAX_PERMITS : Z := Z.shiftr USIZE_MAX 3.

(* @src crates/uk-client/src/relay/context.rs 374-378 semaphore_permits *)
Definition semaphore_permits (limit : Z) : Z :=
  Z.min (match usize_try_from limit with Some n => n | None => MAX_PERMITS end) MAX_PERMITS.

(* @src crates/uk-client/src/relay/context.rs 331-337 FlowAdmissionControl::new *)
Definition admission_new (max_streams max_udp_flows : Z) : FlowAdmissionControl :=
  {| streams := semaphore_permits max_streams; udp_flows := semaphore_permits max_udp_flows |}.

(* @src crates/uk-client/src/relay/session_manager.rs 873-910 ClientSession::connect *)
Definition session_new (l : Limits) : Session :=
  {| limits := l;
     table := {| routes := ∅; channels := ∅; session_bytes := 0 |};
     admission := admission_new (max_streams l) (max_udp_flows l);
     draining := false; closed := false; clearing := false; checks := 0;
     next_flow_id := Flow.FIRST_CLIENT_FLOW_ID;
     ping := {| next_ping_nonce := 0; outstanding_ping_nonce := 0; last_pong_nonce := 0 |};
     written := [] |}.

(** The permit of the stream, then that of the UDP flow; a UDP refusal drops the
    first. *)
(* @src crates/uk-client/src/relay/context.rs 344-360 FlowAdmissionControl::try_admit *)
Definition admission_try_admit (a : FlowAdmissionControl) (p : FlowProtocol) : AdmissionRefusal + FlowAdmissionControl :=
  if streams a <=? 0 then inl StreamLimit else
  match p with
  | Tcp => inr {| streams := streams a - 1; udp_flows := udp_flows a |}
  | Udp => if udp_flows a <=? 0 then inl UdpFlowLimit
           else inr {| streams := streams a - 1; udp_flows := udp_flows a - 1 |}
  end.

(* @src crates/uk-client/src/relay/session_manager.rs 994-1007 ClientSession::try_admit *)
Definition try_admit (s : Session) (p : FlowProtocol) : AdmissionRefusal + Session :=
  if draining s || closed s then inl Unavailable else
  match admission_try_admit (admission s) p with
  | inl r => inl r
  | inr a => inr (with_admission s a)
  end.

(** A dropped slot returns its permits. *)
(* @src crates/uk-client/src/relay/context.rs 295-300 FlowSlot *)
Definition drop_slot (s : Session) (p : FlowProtocol) : Session :=
  let a := admission s in
  with_admission s
    {| streams := streams a + 1; udp_flows := udp_flows a + match p with Tcp => 0 | Udp => 1 end |}.

(** The swap of the closed flag; the flow table is cleared in a later step. *)
(* @src crates/uk-client/src/relay/session_manager.rs 1009-1025 ClientSession::close *)
Definition close (s : Session) : Session :=
  if closed s then s else with_life s (draining s) true true (checks s).

(* @src crates/uk-client/src/relay/session_manager.rs 1022-1022 ClientSession::close *)
Definition clear_flows (s : Session) : Session :=
  let t := table s in
  with_table (with_life s (draining s) (closed s) false (checks s))
    {| routes := ∅; channels := channels t; session_bytes := session_bytes t |}.

(* @src crates/uk-client/src/relay/session_manager.rs 974-983 close_if_drained *)
Definition close_if_drained (s : Session) : Session :=
  if draining s && bool_decide (routes (table s) = ∅) then close s else s.

(** The call of [close_if_drained] is a later step. *)
(* @src crates/uk-client/src/relay/session_manager.rs 936-956 begin_drain *)
Definition begin_drain (s : Session) : Session :=
  if draining s then s else with_life s true (closed s) (clearing s) (S (checks s)).

(* @src crates/uk-client/src/relay/session_manager.rs 958-972 remove_flow *)
Definition remove_flow (flow_id : Z) (s : Session) : Session :=
  let removed := bool_decide (flow_id ∈ routes (table s)) in
  let s := with_table s (remove_route (table s) flow_id) in
  if removed && draining s && bool_decide (routes (table s) = ∅) then close s else s.

(* @src crates/uk-client/src/relay/carrier.rs 37-54 allocate_client_flow_id *)
Definition allocate_client_flow_id (next : Z) : option (Z * Z) :=
  if Varint.MAX_VARINT <? next then None else Some (next, Z.min (next + Flow.FLOW_ID_STEP) U64_MAX).

(* @src crates/uk-client/src/relay/session_manager.rs 1659-1664 udp_route_count *)
Definition udp_route_count (t : Table) : Z :=
  Z.of_nat (size (filter (λ i, protocol <$> channels t !! i = Some Udp) (routes t))).

(* @src crates/uk-client/src/relay/session_manager.rs 1642-1656 reserve_flow_slot *)
Fixpoint reserve_attempts (n : nat) (t : Table) (p : FlowProtocol) (next : Z) : ErrOr Z * Table * Z :=
  match n with
  | O => (Err (Message "no available client flow id"), t, next)
  | S n =>
    match allocate_client_flow_id next with
    | None => (Err (Message "client flow id space exhausted"), t, next)
    | Some (flow_id, next) =>
      if negb (Flow.is_client_initiated_flow_id flow_id) then reserve_attempts n t p next else
      if bool_decide (flow_id ∈ routes t) then reserve_attempts n t p next else
      (Ok flow_id,
       {| routes := {[ flow_id ]} ∪ routes t;
          channels := <[flow_id := {| protocol := p; queue := []; held := []; receiver := true; flow_bytes := 0;
                                      arrived := []; taken := [] |}]> (channels t);
          session_bytes := session_bytes t |}, next)
    end
  end.

(* @src crates/uk-client/src/relay/session_manager.rs 1626-1657 reserve_flow_slot *)
Definition reserve_flow_slot (l : Limits) (t : Table) (p : FlowProtocol) (next : Z) : ErrOr (option Z) * Table * Z :=
  if max_streams l <=? Z.of_nat (size (routes t)) then (Ok None, t, next) else
  let max_udp_flows := match usize_try_from (max_udp_flows l) with Some n => n | None => USIZE_MAX end in
  if bool_decide (p = Udp) && (max_udp_flows <=? udp_route_count t) then (Ok None, t, next) else
  match reserve_attempts (Z.to_nat 1024) t p next with
  | (Ok flow_id, t, next) => (Ok (Some flow_id), t, next)
  | (Err e, t, next) => (Err e, t, next)
  | (Panic, t, next) => (Panic, t, next)
  end.

(* @src crates/uk-client/src/relay/session_manager.rs 1360-1382 reserve_flow *)
Definition reserve_flow (p : FlowProtocol) (s : Session) : ErrOr (option Z) * Session :=
  if draining s then (Err SessionDrainingError, s) else
  let '(r, t, next) := reserve_flow_slot (limits s) (table s) p (next_flow_id s) in
  (r, with_next (with_table s t) next).

(** [ok]: the carrier took the whole frame in time. *)
(* @src crates/uk-client/src/relay/session_manager.rs 1611-1623 write_frame *)
Definition write_frame (ok : bool) (f : Frame) (s : Session) : ErrOr unit * Session :=
  if closed s then (Err (Message "session shutdown"), close s) else
  if ok then (Ok tt, with_written s (written s ++ [f]))
  else (Err (Message "carrier write failed"), close s).

Definition send (ok : bool) (f : ErrOr Frame) (s : Session) : ErrOr unit * Session :=
  match f with
  | Ok f => write_frame ok f s
  | Err e => (Err e, s)
  | Panic => (Panic, s)
  end.

(** ** Keepalive *)

(* @src crates/uk-client/src/relay/context.rs 90-95 KeepalivePong *)
Inductive KeepalivePong : Set := Matched (nonce : Z) | InvalidPayload | Unexpected (nonce expected_nonce : Z).

(* @src crates/uk-client/src/relay/carrier.rs 56-65 next_keepalive_nonce *)
Definition next_keepalive_nonce (counter : Z) : option Z :=
  if U64_MAX <? counter + 1 then None else Some (counter + 1).

(* @src crates/uk-client/src/relay/carrier.rs 71-74 decode_keepalive_nonce *)
Definition decode_keepalive_nonce (payload : Bytes) : option Z :=
  if zlen payload =? 8 then Some (be_decode payload) else None.

(* @src crates/uk-client/src/relay/carrier.rs 76-93 record_matching_pong *)
Definition record_matching_pong (k : Keepalive) (payload : Bytes) : KeepalivePong * Keepalive :=
  match decode_keepalive_nonce payload with
  | None => (InvalidPayload, k)
  | Some nonce =>
    let expected := outstanding_ping_nonce k in
    if (expected =? 0) || negb (nonce =? expected) then (Unexpected nonce expected, k) else
    (Matched nonce, {| next_ping_nonce := next_ping_nonce k; outstanding_ping_nonce := expected; last_pong_nonce := nonce |})
  end.

(* @src crates/uk-client/src/relay/session_manager.rs 1589-1596 clear_outstanding_ping *)
Definition clear_outstanding_ping (nonce : Z) (k : Keepalive) : Keepalive :=
  if outstanding_ping_nonce k =? nonce
  then {| next_ping_nonce := next_ping_nonce k; outstanding_ping_nonce := 0; last_pong_nonce := last_pong_nonce k |}
  else k.

(* @src crates/uk-client/src/relay/session_manager.rs 1552-1562 write_ping *)
Definition write_ping (ok : bool) (s : Session) : ErrOr Z * Session :=
  let k := ping s in
  match next_keepalive_nonce (next_ping_nonce k) with
  | None => (Err (Message "keepalive nonce space exhausted"), s)
  | Some nonce =>
    let k := {| next_ping_nonce := nonce; outstanding_ping_nonce := nonce; last_pong_nonce := last_pong_nonce k |} in
    let s := with_ping s k in
    match protocol_result (frame_new Ping 0 0 (be_encode 8 nonce)) with
    | Ok f =>
      match write_frame ok f s with
      | (Ok _, s) => (Ok nonce, s)
      | (Err e, s) => (Err e, with_ping s (clear_outstanding_ping nonce (ping s)))
      | (Panic, s) => (Panic, s)
      end
    | Err e => (Err e, s)
    | Panic => (Panic, s)
    end
  end.

(** ** The reader *)

(** What the reader still has to do for the frame at hand: a send whose failure it
    returns, one whose failure it ignores, the drain check, and the failure that closes
    the session. *)
Inductive Todo : Type := Send (f : ErrOr Frame) | Report (f : ErrOr Frame) | CheckDrained | Break (e : AnyError) | Panicked.

(* @src crates/uk-client/src/relay/carrier.rs 333-335 report_protocol_error *)
Definition report_protocol_error : Todo := Report (status_frame Error 0 Status.Protocol).

(** Up to the first await after the flow table: the table is updated under its lock,
    the rest of the handler is the list returned. *)
(* @src crates/uk-client/src/relay/carrier.rs 220-313 handle_carrier_frame *)
Definition handle_carrier_frame (f : Frame) (s : Session) : list Todo * Session :=
  let protocol_error e := [report_protocol_error; Break e] in
  match frame_type (header f) with
  | TcpData | TcpClose | UdpData | UdpClose | Error | PolicyDenied | ResourceLimit =>
    match validate_server_flow_frame f with
    | Err e => (protocol_error e, s)
    | Panic => ([Panicked], s)
    | Ok _ =>
      if is_connection_error_frame f then ([Break (Message "connection error from server")], s) else
      let flow_id := id (header f) in
      let '(p, r, t) := route_flow_frame (limits s) f (log_arrival f (table s)) in
      let flow_close := Send (flow_error_close_frame flow_id p (frame_type (header f))) in
      (match r with
       | InvalidFlowId => protocol_error (Message "invalid relay flow id from server")
       | ProtocolMismatch => [Send (status_frame Error flow_id Status.Protocol); flow_close; CheckDrained]
       | FlowQueueFull | SessionQueueFull =>
         [Send (status_frame ResourceLimit flow_id Status.ResourceLimit); flow_close; CheckDrained]
       | FlowClosed => [CheckDrained]
       | UnknownFlow | Enqueued => []
       end, with_table s t)
    end
  | Ping =>
    match validate_connection_frame f Ping with
    | Ok _ => ([Send (protocol_result (frame_new Pong 0 (id (header f)) (payload f)))], s)
    | Err e => (protocol_error (ProtocolFailure e), s)
    | Panic => ([Panicked], s)
    end
  | Pong =>
    match validate_connection_frame f Pong with
    | Ok _ => ([], with_ping s (snd (record_matching_pong (ping s) (payload f))))
    | Err e => (protocol_error (ProtocolFailure e), s)
    | Panic => ([Panicked], s)
    end
  | _ => (protocol_error (Message "unexpected frame on client session"), s)
  end.

(** The reader: waiting for a frame, in the middle of one, or gone. *)
Inductive Reader : Type := Reading (todo : list Todo) | Stopped.

(** One thing the reader has to do.  A failure closes the session and ends the reader. *)
(* @src crates/uk-client/src/relay/carrier.rs 103-126 spawn_carrier_reader *)
Definition reader_step (ok : bool) (t : Todo) (rest : list Todo) (s : Session) : Reader * Session :=
  match t with
  | Send f =>
    match send ok f s with
    | (Ok _, s) => (Reading rest, s)
    | (Err _, s) => (Stopped, close s)
    | (Panic, s) => (Stopped, s)
    end
  | Report f => (Reading rest, snd (send ok f s))
  | CheckDrained => (Reading rest, close_if_drained s)
  | Break _ => (Stopped, close s)
  | Panicked => (Stopped, s)
  end.

(** What the reader does when the carrier fails: a protocol error is reported first. *)
(* @src crates/uk-client/src/relay/carrier.rs 117-124 spawn_carrier_reader *)
Definition read_failed (e : option ProtocolError) : list Todo :=
  match e with
  | Some e => [Report (status_frame Error 0 (Status.from_protocol_error e)); Break (ProtocolFailure e)]
  | None => [Break (Message "carrier closed")]
  end.
End Client.
End ClientSession.
