(* ===== verification/ClientFlows.v ===== *)
(** * ClientFlows: the tasks of a client session
    (crates/uk-client/src/relay/session_manager.rs, tcp.rs, udp.rs)

    A SOCKS connection opens a flow, relays both directions and takes the flow down; a
    UDP target has a worker that owns the flow and a task that relays what comes in.
    Every task is a machine whose states are its suspension points.  They run
    interleaved with each other, the carrier reader and the manager, over one
    [Session]. *)

From S2P Require Import Prelude Wire Varint FrameCodec RustStd Endpoint TargetCodec RelayPayload Settings FrameIo.
From S2P Require Import ServerConfig Socks5 ClientSession.

Module ClientFlows.
Import FrameCodec.Frame ClientSession.

(** ** Tasks *)

(** What is left of a teardown, in order. *)
Inductive Act : Set := SendClose (code : Z) | RemoveFlow | ReportProtocol | DropFlow.

(** Where a task is suspended.  [HasSlot] and [Checked] hold a slot and no flow yet; a
    frame is first taken from the queue, then in hand once its bytes are released. *)
Inductive Phase : Type :=
  | HasSlot
  | Checked
  | Reserved (flow_id : Z)
  | Opening (flow_id : Z) (pending : list Bytes)
  | OpenTaken (flow_id : Z) (pending : list Bytes) (f : Frame)
  | Replying (flow_id : Z) (pending : list Bytes)
  | Flushing (flow_id : Z) (chunks : list Bytes)
  | Relaying (flow_id : Z) (local_to_remote_open remote_to_local_open : bool)
  | FrameTaken (flow_id : Z) (local_to_remote_open remote_to_local_open : bool) (f : Frame)
  | FrameInHand (flow_id : Z) (local_to_remote_open remote_to_local_open : bool) (f : Frame)
  | DrainingUpload (flow_id : Z) (chunks : list Bytes)
  | HandingOver (flow_id : Z)
  | HandTaken (flow_id : Z) (f : Frame)
  | HandInHand (flow_id : Z) (f : Frame)
  | UdpOpened (flow_id : Z)
  | UdpOwner (flow_id : Z)
  | UdpInbound (flow_id : Z)
  | InboundTaken (flow_id : Z) (f : Frame)
  | InboundInHand (flow_id : Z) (f : Frame)
  | Ending (flow_id : Z) (acts : list Act).

(** A task: the protocol it was admitted for, whether it holds the slot (and with it,
    once there is a flow, the receiver), and what the local application has seen:
    the bytes read from it, those written to it, and whether its stream was ended. *)
(* @src crates/uk-client/src/relay/context.rs 258-267 ClientFlow *)
Record Task : Type := {
  proto : FlowProtocol;
  phase : Phase;
  slot : bool;
  uploaded : Bytes;
  delivered : Bytes;
  fin : bool
}.

Definition at_phase (t : Task) (p : Phase) : Task :=
  {| proto := proto t; phase := p; slot := slot t; uploaded := uploaded t; delivered := delivered t; fin := fin t |}.
Definition without_slot (t : Task) : Task :=
  {| proto := proto t; phase := phase t; slot := false; uploaded := uploaded t; delivered := delivered t; fin := fin t |}.
Definition reads (t : Task) (b : Bytes) : Task :=
  {| proto := proto t; phase := phase t; slot := slot t; uploaded := uploaded t ++ b; delivered := delivered t; fin := fin t |}.
Definition delivers (t : Task) (b : Bytes) : Task :=
  {| proto := proto t; phase := phase t; slot := slot t; uploaded := uploaded t; delivered := delivered t ++ b; fin := fin t |}.
Definition ends_stream (t : Task) : Task :=
  {| proto := proto t; phase := phase t; slot := slot t; uploaded := uploaded t; delivered := delivered t; fin := true |}.

(** How [write_all_or_shutdown] ends: written; written while shutting down, and the
    stream ended or not; failed after a prefix. *)
Inductive LocalWrite : Set := Wrote | WroteThenShut (shut : bool) | WriteFailed (prefix : nat).

(** What the environment decides for one step of a task: outcomes of carrier writes
    ([ok]), what the local application does, which branch of a [select!] is taken. *)
Inductive Event : Type :=
  | EvCheck
  | EvReserve
  | EvSendOpen (target : Target.Target) (ok : bool)
  | EvOpenRead (b : Bytes)
  | EvOpenCancel
  | EvRecv (shut : bool)
  | EvDecode
  | EvReply (ok : bool)
  | EvChunk (ok : bool)
  | EvRead (b : Bytes) (ok : bool)
  | EvReadEof (ok : bool)
  | EvReadError
  | EvFrame (w : LocalWrite) (shut : bool)
  | EvShutdown
  | EvDrainEnd (ok : bool)
  | EvHandOver (shut : bool)
  | EvUdpOpened (oversized : bool) (inbound : nat)
  | EvUdpSend (payload : Bytes) (datagram ok : bool)
  | EvUdpClose
  | EvInboundEnd
  | EvAct (ok : bool)
  | EvAbort.

Section Flows.
Context {P : Platform}.

(** [slice::chunks]. *)
Fixpoint chunks_fuel (fuel : nat) (size : nat) (b : Bytes) : list Bytes :=
  match fuel, b with
  | S fuel, _ :: _ => take size b :: chunks_fuel fuel size (drop size b)
  | _, _ => []
  end.
Definition chunks (size : Z) (b : Bytes) : list Bytes := chunks_fuel (Datatypes.length b) (Z.to_nat size) b.

Definition queued_bytes (pending : list Bytes) : Z := zlen (concat pending).

(* @src crates/uk-client/src/relay/tcp.rs 354-369 flush_pending_local_data *)
Definition flush_chunks (data_frame_size : Z) (pending : list Bytes) : list Bytes :=
  let size := Z.max data_frame_size 1 in
  pending ≫= λ b, if zlen b <=? size then [b] else chunks size b.

(* @src crates/uk-client/src/relay/session_manager.rs 1400-1410 send_tcp_data *)
Definition tcp_data_frame (flow_id : Z) (payload : Bytes) : ErrOr Frame :=
  protocol_result (frame_new TcpData 0 flow_id payload).

Definition close_frame (p : FlowProtocol) (flow_id code : Z) : ErrOr Frame :=
  match p with Tcp => tcp_close_frame flow_id code | Udp => udp_close_frame flow_id code end.

Definition open_frame (p : FlowProtocol) (flow_id : Z) (target : Target.Target) : ErrOr Frame :=
  match p with Tcp => tcp_open_frame flow_id target | Udp => udp_open_frame flow_id target end.

Definition decode_response (p : FlowProtocol) : Frame → ErrOr OpenResponse :=
  match p with Tcp => decode_open_response | Udp => decode_udp_open_response end.

(** The teardowns.  An open that is refused, cancelled or answered badly removes the
    flow while it still holds it; [relay_tcp] drops the flow when it returns, and the
    route goes after that. *)
(* @src crates/uk-client/src/relay/session_manager.rs 1350-1353 cancel_pending_open *)
Definition cancel_open (p : FlowProtocol) : list Act :=
  [SendClose match p with Tcp => Tcp.TCP_CLOSE_ERROR | Udp => Udp.UDP_CLOSE_ERROR end; RemoveFlow; DropFlow].
(* @src crates/uk-client/src/relay/session_manager.rs 1133-1136 ClientSession::open_flow *)
Definition refuse_open : list Act := [RemoveFlow; DropFlow].
(* @src crates/uk-client/src/relay/session_manager.rs 1137-1141 ClientSession::open_flow *)
Definition bad_open : list Act := [RemoveFlow; ReportProtocol; DropFlow].
(* @src crates/uk-client/src/relay/tcp.rs 89-95 handle_socks_connection *)
Definition relay_returns (ok : bool) : list Act :=
  if ok then [DropFlow; RemoveFlow] else [DropFlow; SendClose Tcp.TCP_CLOSE_ERROR; RemoveFlow].

(** A task that gives up before it has a flow drops its slot. *)
Definition withdraw (s : Session) (t : Task) : Session := if slot t then drop_slot s (proto t) else s.

(** Dropping the flow: the receiver with what is queued, then the slot. *)
Definition drop_flow (flow_id : Z) (s : Session) (t : Task) : Session :=
  withdraw (with_table s (drop_receiver flow_id (table s))) t.

(** A step of a task: the session, what becomes of the task, and a task it spawns. *)
Definition Outcome : Type := Session * option Task * option (nat * Task).
Definition goes (s : Session) (t : Task) (p : Phase) : option Outcome := Some (s, Some (at_phase t p), None).
Definition gone (s : Session) : option Outcome := Some (s, None, None).
Definition released (s : Session) (t : Task) (flow_id : Z) (p : Phase) : option Outcome :=
  goes (with_table s (into_frame flow_id (table s))) t p.

(** The loop of [relay_tcp] goes on while a direction is open. *)
Definition relay_continues (s : Session) (t : Task) (flow_id : Z) (l2r r2l : bool) : option Outcome :=
  if l2r || r2l then goes s t (Relaying flow_id l2r r2l) else goes s t (Ending flow_id (relay_returns true)).
Definition relay_fails (s : Session) (t : Task) (flow_id : Z) : option Outcome :=
  goes s t (Ending flow_id (relay_returns false)).

(** [local.shutdown().await?]. *)
Definition shutting (shut : bool) (s : Session) (t : Task) (flow_id : Z) (l2r r2l : bool) : option Outcome :=
  if shut then relay_continues s (ends_stream t) flow_id l2r r2l else relay_fails s t flow_id.

(** A sent chunk of the upload, or the failure of the relay. *)
(* @src crates/uk-client/src/relay/tcp.rs 159-166 relay_tcp *)
Definition upload (ok : bool) (s : Session) (t : Task) (flow_id : Z) (b : Bytes) (next : Phase) : option Outcome :=
  match send ok (tcp_data_frame flow_id b) s with
  | (Ok _, s) => goes s t next
  | (_, s) => relay_fails s t flow_id
  end.

(* @src crates/uk-client/src/relay/session_manager.rs 1068-1143 ClientSession::open_flow *)
Definition open_step (s : Session) (t : Task) (e : Event) : option Outcome :=
  match phase t, e with
  | HasSlot, EvCheck =>
    if draining s then gone (withdraw s t) else
    if closed s then gone (withdraw s t) else
    if bool_decide (proto t = Udp) && negb (supports_udp_relay (limits s)) then gone (withdraw s t) else goes s t Checked
  | Checked, EvReserve =>
    match reserve_flow (proto t) s with
    | (Ok (Some flow_id), s) => goes s t (Reserved flow_id)
    | (_, s) => gone (withdraw s t)
    end
  | Reserved flow_id, EvSendOpen target ok =>
    if closed s then goes s t (Ending flow_id refuse_open) else
    match send ok (open_frame (proto t) flow_id target) s with
    | (Ok _, s) => goes s t (Opening flow_id [])
    | (_, s) => goes s t (Ending flow_id refuse_open)
    end
  | OpenTaken flow_id pending f, EvDecode =>
    let s := with_table s (into_frame flow_id (table s)) in
    match decode_response (proto t) f with
    | Ok Accepted => goes s t (match proto t with Tcp => Replying flow_id pending | Udp => UdpOpened flow_id end)
    | Ok (Rejected _) => goes s t (Ending flow_id refuse_open)
    | _ => goes s t (Ending flow_id bad_open)
    end
  | _, _ => None
  end.

(** Waiting for the answer, local bytes are buffered up to the limit; a full buffer, the
    end of the local stream, the timeout and the shutdown all cancel the open. *)
(* @src crates/uk-client/src/relay/session_manager.rs 1302-1348 wait_for_open_frame_inner *)
Definition wait_step (s : Session) (t : Task) (e : Event) : option Outcome :=
  match phase t, e with
  | Opening flow_id pending, EvRecv _ =>
    match recv flow_id (table s) with
    | (Waits, _) => None
    | (Ended, _) => goes s t (Ending flow_id [DropFlow])
    | (Took f, tb) => goes (with_table s tb) t (OpenTaken flow_id pending f)
    end
  | Opening flow_id pending, EvOpenRead b =>
    let l := limits s in
    let remaining := Z.max 0 (max_pending_open_bytes l - queued_bytes pending) in
    if bool_decide (proto t = Tcp) && (0 <? zlen b) && (zlen b <=? Z.min (Z.max (data_frame_size l) 1) remaining)
    then goes s (reads t b) (Opening flow_id (pending ++ [b])) else None
  | Opening flow_id _, EvOpenCancel => goes s t (Ending flow_id (cancel_open (proto t)))
  | _, _ => None
  end.

(** A frame for the local application. *)
(* @src crates/uk-client/src/relay/tcp.rs 168-214 relay_tcp *)
Definition relay_frame (s : Session) (t : Task) (flow_id : Z) (l2r r2l : bool) (f : Frame) (w : LocalWrite) (shut : bool)
  : option Outcome :=
  match frame_type (header f) with
  | TcpData =>
    if negb r2l then relay_fails s t flow_id else
    if bool_decide (payload f = []) then relay_continues s t flow_id l2r r2l else
    match w with
    | Wrote => relay_continues s (delivers t (payload f)) flow_id l2r r2l
    | WroteThenShut shut => shutting shut s (delivers t (payload f)) flow_id false false
    | WriteFailed n => relay_fails s (delivers t (take n (payload f))) flow_id
    end
  | TcpClose =>
    match Tcp.close_decode (payload f) with
    | Ok close =>
      let stop := negb (Tcp.close_code close =? Tcp.TCP_CLOSE_NORMAL) || negb r2l in
      shutting shut s t flow_id (l2r && negb stop) false
    | _ => relay_fails s t flow_id
    end
  | Error | PolicyDenied | ResourceLimit =>
    match validate_flow_status (frame_type (header f)) (payload f) with
    | Ok _ => shutting shut s t flow_id false false
    | _ => relay_fails s t flow_id
    end
  | _ => relay_fails s t flow_id
  end.

(* @src crates/uk-client/src/relay/tcp.rs 113-220 relay_tcp *)
Definition relay_step (s : Session) (t : Task) (e : Event) : option Outcome :=
  match phase t, e with
  | Replying flow_id pending, EvReply ok =>
    if ok then goes s t (Flushing flow_id (flush_chunks (data_frame_size (limits s)) pending))
    else goes s t (Ending flow_id (cancel_open Tcp))
  | Flushing flow_id [], EvChunk _ => goes s t (Relaying flow_id true true)
  | Flushing flow_id (b :: rest), EvChunk ok => upload ok s t flow_id b (Flushing flow_id rest)
  | Relaying flow_id true r2l, EvRead b ok =>
    if (0 <? zlen b) && (zlen b <=? data_frame_size (limits s))
    then upload ok s (reads t b) flow_id b (Relaying flow_id true r2l) else None
  | Relaying flow_id true r2l, EvReadEof ok =>
    match send ok (tcp_close_frame flow_id Tcp.TCP_CLOSE_NORMAL) s with
    | (Ok _, s) => relay_continues s t flow_id false r2l
    | (_, s) => relay_fails s t flow_id
    end
  | Relaying flow_id true _, EvReadError => relay_fails s t flow_id
  | Relaying flow_id l2r r2l, EvRecv shut =>
    match recv flow_id (table s) with
    | (Waits, _) => None
    | (Ended, _) => shutting shut s t flow_id false false
    | (Took f, tb) => goes (with_table s tb) t (FrameTaken flow_id l2r r2l f)
    end
  | FrameTaken flow_id l2r r2l f, EvDecode => released s t flow_id (FrameInHand flow_id l2r r2l f)
  | FrameInHand flow_id l2r r2l f, EvFrame w shut => relay_frame s t flow_id l2r r2l f w shut
  | Relaying flow_id l2r _, EvShutdown =>
    goes s t (if l2r then DrainingUpload flow_id [] else HandingOver flow_id)
  | _, _ => None
  end.

(** The shutdown of the client: the upload is drained up to the end of the local stream
    or the deadline, then what is already queued is handed over, then the local stream
    is ended. *)
(* @src crates/uk-client/src/relay/tcp.rs 283-319 drain_upload_before_shutdown *)
Definition drain_step (s : Session) (t : Task) (e : Event) : option Outcome :=
  match phase t, e with
  | DrainingUpload flow_id [], EvRead b _ =>
    if (0 <? zlen b) && (zlen b <=? data_frame_size (limits s))
    then goes s (reads t b) (DrainingUpload flow_id (chunks (Z.max (data_frame_size (limits s)) 1) b)) else None
  | DrainingUpload flow_id (b :: rest), EvChunk ok => upload ok s t flow_id b (DrainingUpload flow_id rest)
  | DrainingUpload flow_id [], EvReadError => relay_fails s t flow_id
  | DrainingUpload flow_id [], EvDrainEnd ok =>
    goes (snd (send ok (tcp_close_frame flow_id Tcp.TCP_CLOSE_NORMAL) s)) t (HandingOver flow_id)
  | _, _ => None
  end.

(* @src crates/uk-client/src/relay/tcp.rs 330-352 flush_buffered_frames_before_shutdown *)
Definition hand_over_step (s : Session) (t : Task) (e : Event) : option Outcome :=
  match phase t, e with
  | HandingOver flow_id, EvHandOver shut =>
    match recv flow_id (table s) with
    | (Took f, tb) => goes (with_table s tb) t (HandTaken flow_id f)
    | _ => shutting shut s t flow_id false false
    end
  | HandTaken flow_id f, EvDecode => released s t flow_id (HandInHand flow_id f)
  | HandInHand flow_id f, EvFrame w shut =>
    if negb (bool_decide (frame_type (header f) = TcpData)) then shutting shut s t flow_id false false else
    match w with
    | Wrote => goes s (delivers t (payload f)) (HandingOver flow_id)
    | WriteFailed n => relay_fails s (delivers t (take n (payload f))) flow_id
    | WroteThenShut _ => None
    end
  | _, _ => None
  end.

(** [datagram]: the carrier took the payload as a QUIC datagram. *)
(* @src crates/uk-client/src/relay/session_manager.rs 1446-1473 send_udp_data *)
Definition send_udp_data (datagram ok : bool) (flow_id : Z) (payload : Bytes) (s : Session) : ErrOr unit * Session :=
  if datagram then (Ok tt, s) else
  if negb (supports_udp_stream_fallback (limits s)) then (Err (Message "no reliable UDP fallback"), s) else
  send ok (protocol_result (frame_new UdpData 0 flow_id payload)) s.

(** The worker of a UDP target owns the flow; the task it spawns holds the receiver and
    the slot, and only relays. *)
(* @src crates/uk-client/src/relay/udp.rs 594-683 ensure_worker_flow *)
Definition udp_step (s : Session) (t : Task) (e : Event) : option Outcome :=
  match phase t, e with
  | UdpOpened flow_id, EvUdpOpened oversized inbound =>
    if oversized then goes s t (Ending flow_id (cancel_open Udp)) else
    Some (s, Some (without_slot (at_phase t (UdpOwner flow_id))), Some (inbound, at_phase t (UdpInbound flow_id)))
  | UdpOwner flow_id, EvUdpSend payload datagram ok =>
    if closed s then goes s t (Ending flow_id [RemoveFlow]) else
    match send_udp_data datagram ok flow_id payload s with
    | (Ok _, s) => goes s t (UdpOwner flow_id)
    | (_, s) => goes s t (Ending flow_id [RemoveFlow])
    end
  | UdpOwner flow_id, EvUdpClose => goes s t (Ending flow_id [SendClose Udp.UDP_CLOSE_NORMAL; RemoveFlow])
  | _, _ => None
  end.

(* @src crates/uk-client/src/relay/udp.rs 850-895 relay_udp_flow_to_client_inner *)
Definition inbound_step (s : Session) (t : Task) (e : Event) : option Outcome :=
  match phase t, e with
  | UdpInbound flow_id, EvRecv _ =>
    match recv flow_id (table s) with
    | (Waits, _) => None
    | (Ended, _) => goes s t (Ending flow_id [DropFlow])
    | (Took f, tb) => goes (with_table s tb) t (InboundTaken flow_id f)
    end
  | UdpInbound flow_id, EvInboundEnd => goes s t (Ending flow_id [DropFlow])
  | InboundTaken flow_id f, EvDecode => released s t flow_id (InboundInHand flow_id f)
  | InboundInHand flow_id f, EvFrame w _ =>
    match frame_type (header f), w with
    | UdpData, Wrote => goes s t (UdpInbound flow_id)
    | _, _ => goes s t (Ending flow_id [DropFlow])
    end
  | _, _ => None
  end.

(** One action of a teardown. *)
Definition act_step (s : Session) (t : Task) (e : Event) : option Outcome :=
  match phase t, e with
  | Ending flow_id (a :: acts), EvAct ok =>
    match a with
    | SendClose code => goes (snd (send ok (close_frame (proto t) flow_id code) s)) t (Ending flow_id acts)
    | RemoveFlow => goes (remove_flow flow_id s) t (Ending flow_id acts)
    | ReportProtocol => goes (snd (send ok (status_frame Error 0 Status.Protocol) s)) t (Ending flow_id acts)
    | DropFlow => goes (drop_flow flow_id s t) (without_slot t) (Ending flow_id acts)
    end
  | Ending _ [], EvAct _ => gone s
  | _, _ => None
  end.

(** Aborting the worker of a UDP association drops what it holds, and nothing else. *)
(* @src crates/uk-client/src/relay/udp.rs 376-387 UdpAssociation::close *)
Definition abort_step (s : Session) (t : Task) (e : Event) : option Outcome :=
  match e, proto t, phase t with
  | EvAbort, Udp, (HasSlot | Checked) => gone (withdraw s t)
  | EvAbort, Udp, (Reserved flow_id | Opening flow_id _ | UdpOpened flow_id | UdpOwner flow_id | Ending flow_id _) =>
    gone (if slot t then drop_flow flow_id s t else s)
  | _, _, _ => None
  end.

(** A task in some phase is the business of one of these. *)
Definition task_step (s : Session) (t : Task) (e : Event) : option Outcome :=
  match e with
  | EvAbort => abort_step s t e
  | _ =>
    match phase t with
    | HasSlot | Checked | Reserved _ | OpenTaken _ _ _ => open_step s t e
    | Opening _ _ => wait_step s t e
    | Replying _ _ | Flushing _ _ | Relaying _ _ _ | FrameTaken _ _ _ _ | FrameInHand _ _ _ _ => relay_step s t e
    | DrainingUpload _ _ => drain_step s t e
    | HandingOver _ | HandTaken _ _ | HandInHand _ _ => hand_over_step s t e
    | UdpOpened _ | UdpOwner _ => udp_step s t e
    | UdpInbound _ | InboundTaken _ _ | InboundInHand _ _ => inbound_step s t e
    | Ending _ _ => act_step s t e
    end
  end.

(** ** The interleaving *)

Record System : Type := { session : Session; reader : Reader; tasks : gmap nat Task }.

Inductive Label : Type :=
  | LAdmit (n : nat) (p : FlowProtocol)
  | LTask (n : nat) (e : Event)
  | LFrame (f : Frame)
  | LReadFailed (e : option ProtocolError)
  | LReader (ok : bool)
  | LDatagram (flow_id : Z) (payload : Bytes)
  | LPing (ok : bool)
  | LDrain
  | LCheck
  | LClose
  | LClear.

Definition system_new (l : Limits) : System := {| session := session_new l; reader := Reading []; tasks := ∅ |}.
Definition with_session (g : System) (s : Session) : System := {| session := s; reader := reader g; tasks := tasks g |}.

Definition step (g : System) (lb : Label) : option System :=
  let s := session g in
  match lb with
  | LAdmit n p =>
    match tasks g !! n, try_admit s p with
    | None, inr s =>
      let t := {| proto := p; phase := HasSlot; slot := true; uploaded := []; delivered := []; fin := false |} in
      Some {| session := s; reader := reader g; tasks := <[n := t]> (tasks g) |}
    | _, _ => None
    end
  | LTask n e =>
    match tasks g !! n with
    | Some t =>
      match task_step s t e with
      | Some (s, t, None) => Some {| session := s; reader := reader g; tasks := partial_alter (λ _, t) n (tasks g) |}
      | Some (s, t, Some (m, t')) =>
        if bool_decide (tasks g !! m = None)
        then Some {| session := s; reader := reader g; tasks := <[m := t']> (partial_alter (λ _, t) n (tasks g)) |}
        else None
      | None => None
      end
    | None => None
    end
  | LFrame f =>
    match reader g with
    | Reading [] =>
      let '(todo, s) := handle_carrier_frame f s in
      Some {| session := s; reader := Reading todo; tasks := tasks g |}
    | _ => None
    end
  | LReadFailed e =>
    match reader g with
    | Reading [] => Some {| session := s; reader := Reading (read_failed e); tasks := tasks g |}
    | _ => None
    end
  | LReader ok =>
    match reader g with
    | Reading (t :: rest) =>
      let '(r, s) := reader_step ok t rest s in Some {| session := s; reader := r; tasks := tasks g |}
    | Reading [] => if closed s then Some {| session := s; reader := Stopped; tasks := tasks g |} else None
    | Stopped => None
    end
  | LDatagram flow_id payload =>
    Some (with_session g (with_table s (snd (route_inbound_datagram (limits s) flow_id payload (table s)))))
  | LPing ok =>
    match write_ping ok s with
    | (Ok _, s) => Some (with_session g s)
    | (_, s) => Some (with_session g (close s))
    end
  | LDrain => Some (with_session g (begin_drain s))
  | LCheck =>
    match checks s with
    | O => None
    | S n => Some (with_session g (close_if_drained (with_life s (draining s) (closed s) (clearing s) n)))
    end
  | LClose => Some (with_session g (close s))
  | LClear => if clearing s then Some (with_session g (clear_flows s)) else None
  end.

Fixpoint run (g : System) (ls : list Label) : option System :=
  match ls with
  | [] => Some g
  | lb :: ls => step g lb ≫= λ g, run g ls
  end.

End Flows.
End ClientFlows.
