(* ===== verification/ClientFlowsTheorems.v ===== *)
(** * ClientFlowsTheorems: what a client session guarantees, whatever the interleaving *)

From S2P Require Import Prelude Wire Varint FrameCodec RustStd Endpoint TargetCodec RelayPayload Settings FrameIo.
From S2P Require Import ServerConfig Socks5 ClientSession ClientFlows.

Create HintDb client.

Module ClientFlowsTheorems.
Import FrameCodec.Frame ClientSession ClientFlows.

(** ** What a channel holds *)

Definition frames_bytes (q : list Frame) : Z := foldr (λ f n, zlen (payload f) + n) 0 q.
Definition held_bytes (ch : Channel) : Z :=
  frames_bytes (held ch) + frames_bytes (queue ch).
Definition total_bytes (m : gmap Z Channel) : Z := map_fold (λ _ ch n, held_bytes ch + n) 0 m.

Lemma frames_bytes_app p q : frames_bytes (p ++ q) = frames_bytes p + frames_bytes q.
Proof. induction p as [|f p IH]; simpl; [done|]. rewrite IH. lia. Qed.
Lemma frames_bytes_nonneg q : 0 ≤ frames_bytes q.
Proof. induction q; simpl; lia. Qed.
Lemma channel_bytes_nonneg ch : 0 ≤ held_bytes ch.
Proof. unfold held_bytes. pose proof (frames_bytes_nonneg (held ch)). pose proof (frames_bytes_nonneg (queue ch)). lia. Qed.

Lemma session_total_new i ch m : m !! i = None → total_bytes (<[i := ch]> m) = held_bytes ch + total_bytes m.
Proof. intros Hm. unfold total_bytes. rewrite map_fold_insert_L; [done| |done]. intros. lia. Qed.
Lemma total_bytes_put i ch ch' m :
  m !! i = Some ch → total_bytes (<[i := ch']> m) = total_bytes m - held_bytes ch + held_bytes ch'.
Proof.
  intros Hm. rewrite <-(insert_delete_id m i ch Hm) at 2. rewrite <-(insert_delete_eq m i ch').
  rewrite !session_total_new by apply lookup_delete_eq. lia.
Qed.
Lemma session_total_nonneg m : 0 ≤ total_bytes m.
Proof.
  induction m as [|i ch m Hm IH] using map_ind; [done|].
  rewrite session_total_new by done. pose proof (channel_bytes_nonneg ch). lia.
Qed.
Lemma total_bytes_lookup i ch m : m !! i = Some ch → held_bytes ch ≤ total_bytes m.
Proof.
  intros Hm. rewrite <-(insert_delete_id m i ch Hm). rewrite session_total_new by apply lookup_delete_eq.
  pose proof (session_total_nonneg (delete i m)). lia.
Qed.

(** Case analysis of one task step down to its outcomes. *)
Ltac task_cases H :=
  unfold shutting, upload, relay_continues, relay_fails, released, gone, goes in H;
  try done; repeat first [progress simplify_eq | case_match]; try done.

Section Theorems.
Context {P : Platform}.

(** ** The invariant of the flow table *)

Definition limits_ok (l : Limits) : Prop :=
  0 ≤ max_streams l ∧ 0 ≤ max_udp_flows l ∧ 0 ≤ max_buffered_bytes_per_flow l ∧ 0 ≤ max_buffered_bytes_per_session l.

(** The budget of a flow is what it holds, within its limit; the queue is within its
    capacity; a flow that no longer listens has nothing queued; and the frames taken
    and queued for a TCP flow are the first of those that arrived. *)
Record channel_ok (l : Limits) (ch : Channel) : Prop := {
  ch_bytes : flow_bytes ch = held_bytes ch;
  ch_limit : held_bytes ch ≤ max_buffered_bytes_per_flow l;
  ch_queue : zlen (queue ch) ≤ flow_frame_queue_capacity (max_buffered_bytes_per_flow l);
  ch_closed : receiver ch = false → queue ch = [];
  ch_order : protocol ch = Tcp → taken ch ++ queue ch `prefix_of` arrived ch
}.

Definition complete (ch : Channel) : Prop :=
  protocol ch = Tcp → receiver ch = true → taken ch ++ queue ch = arrived ch.

Record table_ok (l : Limits) (t : Table) : Prop := {
  t_channels : ∀ i ch, channels t !! i = Some ch → channel_ok l ch;
  t_bytes : session_bytes t = total_bytes (channels t);
  t_limit : session_bytes t ≤ max_buffered_bytes_per_session l;
  t_routes : ∀ i, i ∈ routes t →
    Flow.is_client_initiated_flow_id i = true ∧ ∃ ch, channels t !! i = Some ch ∧ complete ch
}.

Lemma table_ok_put l t i ch ch' n :
  table_ok l t → channels t !! i = Some ch → channel_ok l ch' →
  n = session_bytes t - held_bytes ch + held_bytes ch' → n ≤ max_buffered_bytes_per_session l →
  (i ∈ routes t → complete ch') → table_ok l (put_channel t i ch' n).
Proof.
  intros [Hc Hb Hl Hr] Hi Hok Hn Hle Hcomp. split; simpl.
  - intros j c [[-> <-]|[? ?]]%lookup_insert_Some; [done|]. by eapply Hc.
  - rewrite (total_bytes_put _ _ _ _ Hi). lia.
  - done.
  - intros j Hj. destruct (Hr j Hj) as (Hid & c & ? & ?). split; [done|]. destruct (decide (i = j)) as [->|Hne].
    + exists ch'. rewrite lookup_insert_eq. auto.
    + exists c. by rewrite lookup_insert_ne.
Qed.

Lemma table_ok_routes l t r :
  table_ok l t → r ⊆ routes t → table_ok l {| routes := r; channels := channels t; session_bytes := session_bytes t |}.
Proof. intros [Hc Hb Hl Hr] Hsub. split; simpl; [done..|]. intros i Hi. apply Hr. set_solver. Qed.

Lemma table_ok_remove l t i : table_ok l t → table_ok l (remove_route t i).
Proof. intros H. apply table_ok_routes; [done|]. simpl. set_solver. Qed.

Lemma buffer_frame_room l ch n len flow session :
  buffer_frame l ch n len = inr (flow, session) →
  flow = flow_bytes ch + len ∧ flow ≤ max_buffered_bytes_per_flow l ∧
  session = n + len ∧ session ≤ max_buffered_bytes_per_session l.
Proof.
  unfold buffer_frame, reserve_bytes. intros H. repeat (case_match; simplify_eq; try done); bool_to_prop; lia.
Qed.
Lemma buffer_frame_refused l ch n len e flow :
  0 ≤ flow_bytes ch → buffer_frame l ch n len = inl (e, flow) → flow = flow_bytes ch.
Proof.
  unfold buffer_frame, reserve_bytes, release_bytes. intros ? H. repeat (case_match; simplify_eq; try done); lia.
Qed.

Lemma with_queue_same ch : with_queue ch (queue ch) (flow_bytes ch) = ch.
Proof. by destruct ch. Qed.
Lemma put_channel_same t i ch : channels t !! i = Some ch → put_channel t i ch (session_bytes t) = t.
Proof. intros H. destruct t as [r m n]. unfold put_channel. simpl in *. by rewrite insert_id. Qed.

(** A frame queued behind the others. *)
Definition queued (ch : Channel) (f : Frame) (flow : Z) : Channel := with_queue ch (queue ch ++ [f]) flow.

Lemma queued_bytes_eq ch f flow : held_bytes (queued ch f flow) = held_bytes ch + zlen (payload f).
Proof. unfold held_bytes. simpl. rewrite frames_bytes_app. simpl. lia. Qed.

Lemma try_send_cases l t i ch f flow session r t' :
  channel_ok l ch → channels t !! i = Some ch → flow = flow_bytes ch + zlen (payload f) →
  session = session_bytes t + zlen (payload f) → 0 ≤ session_bytes t →
  try_send l t i ch f flow session = (r, t') →
  (r = FlowClosed ∨ r = FlowQueueFull) ∧ t' = t ∨
  r = Enqueued ∧ receiver ch = true ∧ t' = put_channel t i (queued ch f flow) session ∧
  zlen (queue ch) < flow_frame_queue_capacity (max_buffered_bytes_per_flow l).
Proof.
  intros Hok Hi -> -> Hs. unfold try_send, release_bytes.
  pose proof (ch_bytes _ _ Hok) as Hb. pose proof (channel_bytes_nonneg ch).
  replace (Z.max 0 (flow_bytes ch + zlen (payload f) - zlen (payload f))) with (flow_bytes ch) by lia.
  replace (Z.max 0 (session_bytes t + zlen (payload f) - zlen (payload f))) with (session_bytes t) by lia.
  rewrite with_queue_same, put_channel_same by done.
  destruct (receiver ch); simpl; [|intros [= <- <-]; auto].
  case_match; intros [= <- <-]; bool_to_prop; [auto|]. right. split_and!; auto.
Qed.

Lemma route_Some t i ch : route t i = Some ch ↔ i ∈ routes t ∧ channels t !! i = Some ch.
Proof. unfold route. case_bool_decide; naive_solver. Qed.

(** A frame that arrived. *)
Definition logged (ch : Channel) (f : Frame) : Channel :=
  {| protocol := protocol ch; queue := queue ch; held := held ch; receiver := receiver ch; flow_bytes := flow_bytes ch;
     arrived := arrived ch ++ [f]; taken := taken ch |}.

(** The edits of the flow table: every step makes some of these. *)
Inductive table_edit (l : Limits) (t : Table) : Table → Prop :=
  | te_log f : id (header f) ∉ routes t → table_edit l t (log_arrival f t)
  | te_remove i : table_edit l t (remove_route t i)
  | te_clear : table_edit l t {| routes := ∅; channels := channels t; session_bytes := session_bytes t |}
  | te_queue i ch ch' f :
      i ∈ routes t → channels t !! i = Some ch → receiver ch = true →
      (ch' = logged ch f ∧ i = id (header f) ∨ ch' = ch ∧ protocol ch = Udp) →
      flow_bytes ch + zlen (payload f) ≤ max_buffered_bytes_per_flow l →
      session_bytes t + zlen (payload f) ≤ max_buffered_bytes_per_session l →
      zlen (queue ch) < flow_frame_queue_capacity (max_buffered_bytes_per_flow l) →
      table_edit l t
        (put_channel t i (queued ch' f (flow_bytes ch + zlen (payload f))) (session_bytes t + zlen (payload f)))
  | te_recv i f t' : recv i t = (Took f, t') → table_edit l t t'
  | te_into i : table_edit l t (into_frame i t)
  | te_drop i : table_edit l t (drop_receiver i t).

Lemma log_arrival_lookup f t i :
  channels (log_arrival f t) !! i =
    if bool_decide (id (header f) = i) then (λ ch, logged ch f) <$> channels t !! i else channels t !! i.
Proof. simpl. case_bool_decide as H; [subst; by rewrite lookup_alter_eq|by rewrite lookup_alter_ne]. Qed.

Lemma total_bytes_log f t : total_bytes (channels (log_arrival f t)) = total_bytes (channels t).
Proof.
  simpl. destruct (channels t !! id (header f)) as [ch|] eqn:Hi.
  - rewrite <-(insert_id (channels t) _ ch Hi) at 1. rewrite alter_insert_eq, (total_bytes_put _ ch) by done.
    unfold held_bytes. simpl. lia.
  - rewrite alter_id; [done|]. intros ch. by rewrite Hi.
Qed.

Lemma table_ok_log l f t : table_ok l t → id (header f) ∉ routes t → table_ok l (log_arrival f t).
Proof.
  intros [Hc Hb Hl Hr] Hni. split.
  - intros i ch. rewrite log_arrival_lookup. case_bool_decide; [|apply Hc].
    intros (c & Hi & ->)%fmap_Some. destruct (Hc _ _ Hi) as [? ? ? ? Ho]. split; try done.
    intros Ht. simpl. by apply prefix_app_r, Ho.
  - rewrite total_bytes_log. done.
  - done.
  - intros i Hi. destruct (Hr i Hi) as (? & ch & Hch & ?). split; [done|]. exists ch.
    rewrite log_arrival_lookup, bool_decide_false by (intros <-; done). done.
Qed.

Lemma table_ok_queue l t i ch ch' f :
  table_ok l t → i ∈ routes t → channels t !! i = Some ch → receiver ch = true →
  (ch' = logged ch f ∧ i = id (header f) ∨ ch' = ch ∧ protocol ch = Udp) →
  flow_bytes ch + zlen (payload f) ≤ max_buffered_bytes_per_flow l →
  session_bytes t + zlen (payload f) ≤ max_buffered_bytes_per_session l →
  zlen (queue ch) < flow_frame_queue_capacity (max_buffered_bytes_per_flow l) →
  table_ok l (put_channel t i (queued ch' f (flow_bytes ch + zlen (payload f))) (session_bytes t + zlen (payload f))).
Proof.
  intros Ht Hi Hch Hrcv Hch' Hf Hs Hq. destruct (t_channels _ _ Ht _ _ Hch) as [Hb Hl _ Hcl Ho].
  destruct (t_routes _ _ Ht _ Hi) as (_ & c & Hc & Hcomp). simplify_eq.
  assert (held_bytes ch' = held_bytes ch) as Hh by (by destruct Hch' as [[-> _]|[-> _]]).
  assert (queue ch' = queue ch) as Hqq by (by destruct Hch' as [[-> _]|[-> _]]).
  apply (table_ok_put _ _ _ ch); try done.
  - split.
    + rewrite queued_bytes_eq. simpl. lia.
    + rewrite queued_bytes_eq. lia.
    + simpl. rewrite Hqq, length_app. simpl. lia.
    + simpl. destruct Hch' as [[-> _]|[-> _]]; simpl; congruence.
    + simpl. destruct Hch' as [[-> _]|[-> ?]]; simpl; [|congruence]. intros Htcp. rewrite app_assoc, Hcomp by done. done.
  - rewrite queued_bytes_eq. lia.
  - intros _. unfold complete. simpl. destruct Hch' as [[-> _]|[-> ?]]; simpl; [|congruence].
    intros Htcp _. rewrite app_assoc, Hcomp by done. done.
Qed.

Lemma table_ok_session l t : table_ok l t → 0 ≤ session_bytes t.
Proof. intros Ht. rewrite (t_bytes _ _ Ht). apply session_total_nonneg. Qed.

Lemma table_ok_recv l t i f t' :
  table_ok l t → recv i t = (Took f, t') → table_ok l t'.
Proof.
  intros Ht. unfold recv. destruct (channels t !! i) as [ch|] eqn:Hi; [|done].
  destruct (t_channels _ _ Ht _ _ Hi) as [Hb Hl Hq Hcl Ho].
  destruct (queue ch) as [|f' q] eqn:Hqu; [by case_bool_decide|]. intros [= -> <-].
  set (ch' := {| protocol := protocol ch; queue := q |}).
  assert (held_bytes ch' = held_bytes ch) as Hh by (unfold held_bytes; simpl; rewrite frames_bytes_app, Hqu; simpl; lia).
  apply (table_ok_put _ _ _ ch); try done.
  - split; simpl.
    + lia.
    + lia.
    + rewrite length_cons in Hq. lia.
    + intros Hr. by specialize (Hcl Hr).
    + intros Htcp. rewrite <-app_assoc. by apply Ho.
  - lia.
  - apply (t_limit _ _ Ht).
  - intros Hin. destruct (t_routes _ _ Ht _ Hin) as (_ & c & Hc & Hcomp). simplify_eq.
    intros Htcp Hr. simpl. rewrite <-app_assoc, <-Hcomp by done. by rewrite Hqu.
Qed.

Lemma table_ok_into l t i : table_ok l t → table_ok l (into_frame i t).
Proof.
  intros Ht. unfold into_frame. destruct (channels t !! i) as [ch|] eqn:Hi; [|done].
  destruct (held ch) as [|f rest] eqn:Hheld; [done|]. destruct (t_channels _ _ Ht _ _ Hi) as [Hb Hl Hq Hcl Ho].
  pose proof (frames_bytes_nonneg rest). pose proof (frames_bytes_nonneg (queue ch)).
  pose proof (total_bytes_lookup _ _ _ Hi). rewrite <-(t_bytes _ _ Ht) in *.
  assert (held_bytes ch = zlen (payload f) + frames_bytes rest + frames_bytes (queue ch)) as Hh
    by (unfold held_bytes; rewrite Hheld; simpl; lia).
  assert (release_bytes (flow_bytes ch) (zlen (payload f)) = frames_bytes rest + frames_bytes (queue ch)) as Hf
    by (unfold release_bytes; lia).
  apply (table_ok_put _ _ _ ch); try done.
  - split; simpl; unfold held_bytes; simpl; try done; lia.
  - unfold held_bytes at 2. simpl. unfold release_bytes. lia.
  - pose proof (t_limit _ _ Ht). unfold release_bytes. lia.
  - intros Hin. destruct (t_routes _ _ Ht _ Hin) as (_ & c & Hc & Hcomp). by simplify_eq.
Qed.

Lemma release_all q flow session :
  frames_bytes q ≤ flow → frames_bytes q ≤ session →
  foldl (λ '(flow, session) f, (release_bytes flow (zlen (payload f)), release_bytes session (zlen (payload f))))
    (flow, session) q = (flow - frames_bytes q, session - frames_bytes q).
Proof.
  revert flow session. induction q as [|f q IH]; intros flow session Hf Hs; simpl in *; [f_equal; lia|].
  pose proof (frames_bytes_nonneg q). rewrite IH by (unfold release_bytes; lia). unfold release_bytes. f_equal; lia.
Qed.

Lemma table_ok_drop l t i : table_ok l t → table_ok l (drop_receiver i t).
Proof.
  intros Ht. unfold drop_receiver. destruct (channels t !! i) as [ch|] eqn:Hi; [|done].
  destruct (t_channels _ _ Ht _ _ Hi) as [Hb Hl Hq Hcl Ho].
  pose proof (frames_bytes_nonneg (held ch)). pose proof (frames_bytes_nonneg (queue ch)).
  pose proof (total_bytes_lookup _ _ _ Hi). rewrite <-(t_bytes _ _ Ht) in *. cbv zeta.
  assert (held_bytes ch = frames_bytes (held ch) + frames_bytes (queue ch)) as Hh by done.
  rewrite release_all by lia. apply (table_ok_put _ _ _ ch); try done.
  - split; simpl; unfold held_bytes; simpl; try done; [lia|lia| |].
    + unfold flow_frame_queue_capacity. lia.
    + intros Htcp. rewrite app_nil_r. etrans; [|by apply Ho]. by apply prefix_app_r.
  - unfold held_bytes at 2. simpl. lia.
  - pose proof (t_limit _ _ Ht). lia.
Qed.

Lemma table_edit_ok l t t' : table_edit l t t' → table_ok l t → table_ok l t'.
Proof.
  intros He Ht. destruct He.
  - by apply table_ok_log.
  - by apply table_ok_remove.
  - apply table_ok_routes; [done|]. set_solver.
  - by apply table_ok_queue.
  - by eapply table_ok_recv.
  - by apply table_ok_into.
  - by apply table_ok_drop.
Qed.

(** ** Routing *)

Definition sheds (r : FlowFrameRoute) : bool :=
  match r with ProtocolMismatch | FlowQueueFull | SessionQueueFull | FlowClosed => true | _ => false end.

Lemma logged_ok l ch f : channel_ok l ch → channel_ok l (logged ch f).
Proof. intros [? ? ? ? Ho]. split; try done. intros Ht. simpl. by apply prefix_app_r, Ho. Qed.

Lemma put_logged f t ch n :
  put_channel (log_arrival f t) (id (header f)) ch n = put_channel t (id (header f)) ch n.
Proof. unfold put_channel. simpl. f_equal. apply map_eq. intros j.
  destruct (decide (id (header f) = j)) as [<-|]; [by rewrite !lookup_insert_eq|].
  by rewrite !lookup_insert_ne, lookup_alter_ne.
Qed.

(** What the tasks have of a channel. *)
Definition grips (t : Table) (i : Z) : option (bool * list Frame * (FlowProtocol * list Frame)) :=
  (λ ch, (receiver ch, held ch, (protocol ch, taken ch))) <$> channels t !! i.

Lemma grips_put t i ch ch' n j :
  channels t !! i = Some ch → receiver ch' = receiver ch → held ch' = held ch →
  protocol ch' = protocol ch → taken ch' = taken ch → grips (put_channel t i ch' n) j = grips t j.
Proof.
  intros Hi Hr Hh Hp Ht. unfold grips. simpl. destruct (decide (i = j)) as [<-|].
  - rewrite lookup_insert_eq, Hi. simpl. by rewrite Hr, Hh, Hp, Ht.
  - by rewrite lookup_insert_ne.
Qed.
Lemma grips_log f t j : grips (log_arrival f t) j = grips t j.
Proof. unfold grips. rewrite log_arrival_lookup. case_bool_decide; [|done]. by destruct (channels t !! j). Qed.

(** A reliable frame is not for a flow of this session, or takes its flow out of the
    table, or is queued behind the others. *)
Lemma route_flow_frame_cases l f t p r t' :
  table_ok l t → route_flow_frame l f (log_arrival f t) = (p, r, t') →
  (r = InvalidFlowId ∨ r = UnknownFlow) ∧ id (header f) ∉ routes t ∧ t' = log_arrival f t ∨
  sheds r = true ∧ id (header f) ∈ routes t ∧ t' = log_arrival f (remove_route t (id (header f))) ∨
  r = Enqueued ∧ table_edit l t t' ∧ routes t' = routes t ∧ ∀ j, grips t' j = grips t j.
Proof.
  intros Ht. unfold route_flow_frame. cbv zeta. set (i := id (header f)).
  destruct (Flow.is_client_initiated_flow_id i) eqn:Hid; cbn [negb].
  2:{ intros [= <- <- <-]. left. split_and!; auto. intros Hi. apply (t_routes _ _ Ht) in Hi as [? _]. congruence. }
  destruct (route (log_arrival f t) i) as [c|] eqn:Hr.
  2:{ intros [= <- <- <-]. left. split_and!; auto. intros Hi. unfold route in Hr. rewrite bool_decide_true in Hr by done.
      destruct (t_routes _ _ Ht _ Hi) as (_ & ch & Hch & _). rewrite log_arrival_lookup in Hr.
      by rewrite bool_decide_true, Hch in Hr. }
  apply route_Some in Hr as [Hi Hc]. rewrite log_arrival_lookup, bool_decide_true in Hc by done.
  apply fmap_Some in Hc as (ch & Hch & ->). pose proof (t_channels _ _ Ht _ _ Hch) as Hok.
  assert (channels (log_arrival f t) !! i = Some (logged ch f)) as Hl
    by (rewrite log_arrival_lookup, bool_decide_true, Hch by done; done).
  destruct (flow_frame_matches_protocol _ _); cbn [negb]; [|intros [= <- <- <-]; right; left; done].
  destruct (buffer_frame _ _ _ _) as [[e flow]|[flow session]] eqn:Hbuf.
  - apply buffer_frame_refused in Hbuf as ->.
    2:{ simpl. rewrite (ch_bytes _ _ Hok). apply channel_bytes_nonneg. }
    rewrite with_queue_same, put_channel_same by done. intros [= <- <- <-]. right; left. by destruct e.
  - apply buffer_frame_room in Hbuf as (Hflow & Hfl & Hsess & Hsl).
    destruct (try_send _ _ _ _ _ _ _) as [r' t''] eqn:Hts.
    apply try_send_cases in Hts; [|by apply logged_ok|done|done|done|by apply (table_ok_session _ _ Ht)].
    destruct Hts as [[[-> | ->] ->]|(-> & Hrcv & -> & Hq)]; intros [= <- <- <-]; [right; left; done..|].
    right; right. subst flow session. rewrite put_logged. split_and!; [done| |done|intros j; by apply (grips_put _ _ ch)].
    change (session_bytes (log_arrival f t)) with (session_bytes t).
    apply (te_queue _ _ i ch (logged ch f) f); auto.
Qed.

Lemma route_inbound_datagram_cases l i b t :
  table_ok l t → let t' := snd (route_inbound_datagram l i b t) in
  t' = t ∨ table_edit l t t' ∧ routes t' = routes t ∧ ∀ j, grips t' j = grips t j.
Proof.
  intros Ht. unfold route_inbound_datagram. destruct (negb _); [by left|].
  destruct (route t i) as [ch|] eqn:Hr; [|by left]. apply route_Some in Hr as [Hi Hch].
  pose proof (t_channels _ _ Ht _ _ Hch) as Hok. case_bool_decide as Hudp; [cbn [negb]|by left].
  destruct (frame_new _ _ _ _) as [f| |] eqn:Hf; [|by left..].
  destruct (buffer_frame _ _ _ _) as [[e flow]|[flow session]] eqn:Hbuf.
  - apply buffer_frame_refused in Hbuf as ->. 2:{ rewrite (ch_bytes _ _ Hok). apply channel_bytes_nonneg. }
    rewrite with_queue_same, put_channel_same by done. by left.
  - apply buffer_frame_room in Hbuf as (Hflow & Hfl & Hsess & Hsl).
    destruct (try_send _ _ _ _ _ _ _) as [r' t''] eqn:Hts.
    apply try_send_cases in Hts; [|done|done|done|done|by apply (table_ok_session _ _ Ht)].
    destruct Hts as [[_ ->]|(-> & Hrcv & -> & Hq)]; [by left|]. right. subst flow session. split_and!; [|done|intros j; by apply (grips_put _ _ ch)].
    apply (te_queue _ _ i ch ch f); auto.
Qed.

(** ** The invariant of the session *)

(** Flow ids are handed out once, in increasing order; the table respects the ceilings
    the server announced. *)
Record session_ok (s : Session) : Prop := {
  s_table : table_ok (limits s) (table s);
  s_fresh : ∀ i ch, channels (table s) !! i = Some ch → i < next_flow_id s;
  s_next : 1 ≤ next_flow_id s ∧ (next_flow_id s ≤ Varint.MAX_VARINT → next_flow_id s mod 2 = 1);
  s_streams : Z.of_nat (size (routes (table s))) ≤ max_streams (limits s);
  s_udp : udp_route_count (table s) ≤ max_udp_flows (limits s)
}.

Lemma table_edit_frame l t t' :
  table_edit l t t' → routes t' ⊆ routes t ∧ ∀ i, protocol <$> channels t' !! i = protocol <$> channels t !! i.
Proof.
  intros He.
  assert (∀ i ch ch' n, channels t !! i = Some ch → protocol ch' = protocol ch →
    routes (put_channel t i ch' n) ⊆ routes t ∧
    ∀ j, protocol <$> channels (put_channel t i ch' n) !! j = protocol <$> channels t !! j) as Hput.
  { intros i ch ch' n Hi Hp. split; [done|]. intros j. simpl. destruct (decide (i = j)) as [<-|].
    - rewrite lookup_insert_eq, Hi. simpl. by rewrite Hp.
    - by rewrite lookup_insert_ne. }
  destruct He as [f ?|i| |i ch ch' f ? Hi ? Hch' ? ? ?|i f t' Hr|i|i].
  - split; [done|]. intros i. rewrite log_arrival_lookup. case_bool_decide; [|done]. by destruct (channels t !! i).
  - split; [simpl; set_solver|done].
  - split; [simpl; set_solver|done].
  - apply (Hput i ch); [done|]. by destruct Hch' as [[-> _]|[-> _]].
  - unfold recv in Hr. repeat case_match; simplify_eq. by eapply Hput.
  - unfold into_frame. repeat case_match; try done. by eapply Hput.
  - unfold drop_receiver. repeat case_match; try done. by eapply Hput.
Qed.

Lemma udp_route_count_mono t t' :
  routes t' ⊆ routes t → (∀ i, protocol <$> channels t' !! i = protocol <$> channels t !! i) →
  udp_route_count t' ≤ udp_route_count t.
Proof.
  intros Hr Hp. unfold udp_route_count. apply inj_le, subseteq_size. intros i. rewrite !elem_of_filter, Hp. set_solver.
Qed.

Lemma session_ok_table s t' : session_ok s → table_edit (limits s) (table s) t' → session_ok (with_table s t').
Proof.
  intros [Ht Hf Hn Hs Hu] He. pose proof (table_edit_frame _ _ _ He) as [Hr Hp]. split; simpl.
  - by eapply table_edit_ok.
  - intros i ch Hi. specialize (Hp i). rewrite Hi in Hp. destruct (channels (table s) !! i) eqn:E; [|done]. by eapply Hf.
  - done.
  - pose proof (subseteq_size _ _ Hr). lia.
  - pose proof (udp_route_count_mono _ _ Hr Hp). lia.
Qed.

Lemma session_ok_same s s' :
  session_ok s → limits s' = limits s → table s' = table s → next_flow_id s' = next_flow_id s → session_ok s'.
Proof. intros [? ? ? ? ?] Hl Ht Hn. split; rewrite ?Hl, ?Ht, ?Hn; done. Qed.

Definition new_channel (p : FlowProtocol) : Channel :=
  {| protocol := p; queue := []; held := []; receiver := true; flow_bytes := 0; arrived := []; taken := [] |}.
Definition add_route (t : Table) (i : Z) (p : FlowProtocol) : Table :=
  {| routes := {[ i ]} ∪ routes t; channels := <[i := new_channel p]> (channels t); session_bytes := session_bytes t |}.

Lemma reserve_flow_slot_cases s p r t next :
  session_ok s → reserve_flow_slot (limits s) (table s) p (next_flow_id s) = (r, t, next) →
  (∀ i, r ≠ Ok (Some i)) ∧ t = table s ∧ next = next_flow_id s ∨
  (let i := next_flow_id s in
   r = Ok (Some i) ∧ t = add_route (table s) i p ∧ next = i + 2 ∧ i < Varint.MAX_VARINT + 1 ∧
   Flow.is_client_initiated_flow_id i = true ∧ channels (table s) !! i = None ∧
   Z.of_nat (size (routes (table s))) < max_streams (limits s) ∧
   (p = Udp → udp_route_count (table s) < max_udp_flows (limits s))).
Proof.
  intros Hok. unfold reserve_flow_slot. cbv zeta.
  destruct (max_streams _ <=? _) eqn:Hst; [intros [= <- <- <-]; by left|].
  destruct (bool_decide _ && _) eqn:Hudp; [intros [= <- <- <-]; by left|].
  change (Z.to_nat 1024) with (S (Z.to_nat 1023)). cbn [reserve_attempts]. unfold allocate_client_flow_id.
  destruct (Varint.MAX_VARINT <? next_flow_id s) eqn:Hmax; [intros [= <- <- <-]; by left|]. bool_to_prop.
  destruct (s_next _ Hok) as [Hpos Hodd]. specialize (Hodd ltac:(lia)).
  assert (Flow.is_client_initiated_flow_id (next_flow_id s) = true) as Hid.
  { unfold Flow.is_client_initiated_flow_id. rewrite !andb_true_iff, negb_true_iff. repeat split; lia. }
  assert (channels (table s) !! next_flow_id s = None) as Hnone.
  { destruct (_ !! _) eqn:E; [|done]. apply (s_fresh _ Hok) in E. lia. }
  rewrite Hid. cbn [negb]. rewrite bool_decide_false.
  2:{ intros Hin. destruct (t_routes _ _ (s_table _ Hok) _ Hin) as (_ & ch & Hch & _). congruence. }
  intros [= <- <- <-]. right. split_and!; try done; try lia.
  - assert (Varint.MAX_VARINT < U64_MAX - 2) by reflexivity. unfold Flow.FLOW_ID_STEP. lia.
  - intros ->. rewrite bool_decide_true in Hudp by done. simpl in Hudp. bool_to_prop.
    destruct (usize_try_from _) eqn:E; [apply usize_try_from_Some in E as [-> _]; lia|].
    unfold usize_try_from in E. case_decide; [done|]. lia.
Qed.

Lemma table_ok_add l t i p :
  limits_ok l → table_ok l t → Flow.is_client_initiated_flow_id i = true → channels t !! i = None →
  table_ok l (add_route t i p).
Proof.
  intros (_ & _ & Hf & Hs) [Hc Hb Hl Hr] Hid Hi. split; simpl.
  - intros j ch [[-> <-]|[? ?]]%lookup_insert_Some; [|by eapply Hc].
    split; unfold held_bytes, flow_frame_queue_capacity; simpl; try done; lia.
  - rewrite session_total_new by done. unfold held_bytes. simpl. lia.
  - done.
  - intros j [->%elem_of_singleton|Hj]%elem_of_union.
    + split; [done|]. exists (new_channel p). by rewrite lookup_insert_eq.
    + destruct (Hr j Hj) as (? & ch & Hch & ?). split; [done|]. exists ch. rewrite lookup_insert_ne; [done|congruence].
Qed.

Lemma add_route_sizes t i p :
  Z.of_nat (size (routes (add_route t i p))) ≤ Z.of_nat (size (routes t)) + 1 ∧
  udp_route_count (add_route t i p) ≤ udp_route_count t + (if decide (p = Udp) then 1 else 0).
Proof.
  unfold udp_route_count. split.
  - simpl. rewrite size_union_alt, size_singleton.
    pose proof (subseteq_size (routes t ∖ {[i]}) (routes t) ltac:(set_solver)). lia.
  - set (old := filter (λ j, protocol <$> channels t !! j = Some Udp) (routes t)).
    set (extra := if decide (p = Udp) then {[ i ]} else ∅ : gset Z).
    assert (filter (λ j, protocol <$> channels (add_route t i p) !! j = Some Udp) (routes (add_route t i p)) ⊆
      extra ∪ old) as Hsub.
    { intros j. rewrite elem_of_filter. intros [Hp Hj]. simpl in *. subst extra old. destruct (decide (i = j)) as [<-|Hne].
      - rewrite lookup_insert_eq in Hp. simpl in Hp. simplify_eq. rewrite decide_True by done. set_solver.
      - rewrite lookup_insert_ne in Hp by done. set_solver. }
    apply subseteq_size in Hsub. rewrite size_union_alt in Hsub.
    pose proof (subseteq_size (old ∖ extra) old ltac:(set_solver)).
    assert (size extra = if decide (p = Udp) then 1 else 0)%nat as He
      by (subst extra; case_decide; [apply size_singleton|apply size_empty]).
    case_decide; lia.
Qed.

Lemma session_ok_reserve s p r s' :
  limits_ok (limits s) → session_ok s → reserve_flow p s = (r, s') → session_ok s'.
Proof.
  intros Hlim Hok. unfold reserve_flow. destruct (draining s); [by intros [= <- <-]|].
  destruct (reserve_flow_slot _ _ _ _) as [[r' t] next] eqn:E. intros [= <- <-].
  apply reserve_flow_slot_cases in E as [(_ & -> & ->)|(-> & -> & -> & Hmax & Hid & Hnone & Hst & Hudp)]; [|..|done].
  - by eapply session_ok_same.
  - destruct Hok as [Ht Hf [Hpos Hodd] Hs Hu]. pose proof (add_route_sizes (table s) (next_flow_id s) p) as [Hr Hc].
    split; cbn [limits table with_next with_table next_flow_id].
    + by apply table_ok_add.
    + intros i ch. simpl. intros [[<- _]|[_ Hi]]%lookup_insert_Some; [lia|]. specialize (Hf _ _ Hi). lia.
    + split; [lia|]. intros _. rewrite <-Zplus_mod_idemp_r, Z_mod_same_full, Z.add_0_r. apply Hodd. lia.
    + lia.
    + case_decide; [specialize (Hudp ltac:(done))|]; lia.
Qed.

(** ** Steps that leave the flows alone *)

(** What holds between sessions with the same flows and permits: whatever is written,
    closed or pinged. *)
Class Stable (R : relation Session) : Prop := {
  stable_pre :: PreOrder R;
  stable_same s s' : limits s' = limits s → table s' = table s → admission s' = admission s →
                     next_flow_id s' = next_flow_id s → R s s'
}.

Section Stable.
Context (R : relation Session) `{!Stable R}.

Lemma close_stable s : R s (close s).
Proof. unfold close. destruct (closed s); by apply stable_same. Qed.
Lemma close_if_drained_stable s : R s (close_if_drained s).
Proof. unfold close_if_drained. destruct (_ && _); [apply close_stable|reflexivity]. Qed.
Lemma send_stable ok f s : R s (snd (send ok f s)).
Proof.
  unfold send, write_frame. destruct f as [f|e|]; [|reflexivity..].
  destruct (closed s); [apply close_stable|]. destruct ok; [by apply stable_same|apply close_stable].
Qed.
Lemma send_eq_stable ok f s r s' : send ok f s = (r, s') → R s s'.
Proof. intros H. change s' with (snd (r, s')). rewrite <-H. apply send_stable. Qed.
Lemma send_udp_data_stable d ok i b s r s' : send_udp_data d ok i b s = (r, s') → R s s'.
Proof.
  unfold send_udp_data. destruct d; [intros [= _ <-]; reflexivity|].
  destruct (negb _); [intros [= _ <-]; reflexivity|apply send_eq_stable].
Qed.

Lemma reader_step_stable ok td rest s r s' : reader_step ok td rest s = (r, s') → R s s'.
Proof.
  unfold reader_step. destruct td as [f|f| |e|].
  - destruct (send ok f s) as [[]] eqn:E; intros [= _ <-]; [by eapply send_eq_stable| |by eapply send_eq_stable].
    etrans; [by eapply send_eq_stable|apply close_stable].
  - intros [= _ <-]. apply send_stable.
  - intros [= _ <-]. apply close_if_drained_stable.
  - intros [= _ <-]. apply close_stable.
  - intros [= _ <-]. reflexivity.
Qed.

Lemma write_ping_stable ok s r s' : write_ping ok s = (r, s') → R s s'.
Proof.
  unfold write_ping. cbv zeta. destruct (next_keepalive_nonce _) as [nonce|]; [|intros [= _ <-]; reflexivity].
  set (s1 := with_ping s _). assert (R s s1) as H1 by (by apply stable_same).
  destruct (protocol_result _) as [f|e|]; [|intros [= _ <-]; done..].
  change (write_frame ok f s1) with (send ok (Ok f) s1). destruct (send ok (Ok f) s1) as [r' s2] eqn:E.
  apply send_eq_stable in E. assert (R s s2) by (by etrans).
  destruct r'; intros [= _ <-]; [done| |done]. etrans; [done|by apply stable_same].
Qed.

(** A frame only reaches the flows through the router. *)
Lemma handle_carrier_frame_stable f s todo s' :
  (∀ p r t', route_flow_frame (limits s) f (log_arrival f (table s)) = (p, r, t') → R s (with_table s t')) →
  handle_carrier_frame f s = (todo, s') → R s s'.
Proof.
  intros Hroute. unfold handle_carrier_frame. cbv zeta.
  destruct (frame_type (header f));
    try (destruct (validate_server_flow_frame f); [|intros [= _ <-]; reflexivity..];
         destruct (is_connection_error_frame f); [intros [= _ <-]; reflexivity|];
         destruct (route_flow_frame _ _ _) as [[p r] t'] eqn:Hr; intros [= _ <-]; by eapply Hroute);
    try (intros [= _ <-]; reflexivity);
    (destruct (validate_connection_frame _ _); intros [= _ <-]; [|reflexivity..]);
    [reflexivity|by apply stable_same].
Qed.
End Stable.

(** ** Every step is made of edits *)

Inductive edit (s : Session) : Session → Prop :=
  | ed_table t' : table_edit (limits s) (table s) t' → edit s (with_table s t')
  | ed_reserve p r s' : reserve_flow p s = (r, s') → edit s s'
  | ed_other s' : limits s' = limits s → table s' = table s → next_flow_id s' = next_flow_id s → edit s s'.

Definition edits : relation Session := rtc edit.

Lemma edit_ok s s' : edit s s' → limits_ok (limits s) → session_ok s → limits s' = limits s ∧ session_ok s'.
Proof.
  intros He Hl Hok. destruct He as [t' He|p r s' Hr|s' H1 H2 H3].
  - split; [done|]. by apply session_ok_table.
  - split; [|by eapply session_ok_reserve]. unfold reserve_flow in Hr. repeat case_match; by simplify_eq.
  - split; [done|]. by eapply session_ok_same.
Qed.

Lemma edits_ok s s' : edits s s' → limits_ok (limits s) → session_ok s → limits s' = limits s ∧ session_ok s'.
Proof.
  induction 1 as [s|s s1 s2 He _ IH]; [done|]. intros Hl Hok.
  destruct (edit_ok _ _ He Hl Hok) as [Heq Hok1]. rewrite <-Heq in Hl |- *. by apply IH.
Qed.

Lemma edits_refl s : edits s s.
Proof. apply rtc_refl. Qed.
Lemma edits_trans s1 s2 s3 : edits s1 s2 → edits s2 s3 → edits s1 s3.
Proof. intros. by etrans. Qed.
Lemma edits_other s s' :
  limits s' = limits s → table s' = table s → next_flow_id s' = next_flow_id s → edits s s'.
Proof. intros. by apply rtc_once, ed_other. Qed.
Lemma edits_table s t' : table_edit (limits s) (table s) t' → edits s (with_table s t').
Proof. intros. by apply rtc_once, ed_table. Qed.

#[export] Instance edits_stable : Stable edits.
Proof. split; [apply _|]. intros. by apply edits_other. Qed.

#[local] Hint Resolve edits_refl : client.

Lemma remove_flow_edits i s : edits s (remove_flow i s).
Proof.
  unfold remove_flow. cbv zeta. eapply edits_trans; [apply edits_table, (te_remove _ _ i)|].
  destruct (_ && _); [apply (close_stable edits)|apply edits_refl].
Qed.
Lemma drop_slot_edits s p : edits s (drop_slot s p).
Proof. by apply edits_other. Qed.
Lemma withdraw_edits s t : edits s (withdraw s t).
Proof. unfold withdraw. destruct (slot t); [apply drop_slot_edits|apply edits_refl]. Qed.
Lemma drop_flow_edits i s t : edits s (drop_flow i s t).
Proof. unfold drop_flow. eapply edits_trans; [apply edits_table, (te_drop _ _ i)|apply withdraw_edits]. Qed.
Lemma into_frame_edits i s : edits s (with_table s (into_frame i (table s))).
Proof. apply edits_table, te_into. Qed.
Lemma recv_edits i s f tb : recv i (table s) = (Took f, tb) → edits s (with_table s tb).
Proof. intros. apply edits_table. by eapply te_recv. Qed.
Lemma reserve_edits p s r s' : reserve_flow p s = (r, s') → edits s s'.
Proof. intros. apply rtc_once. by eapply ed_reserve. Qed.
#[local] Hint Extern 1 (edits _ _) =>
  first [apply (send_stable edits) | eapply (send_eq_stable edits); eassumption
        | eapply (send_udp_data_stable edits); eassumption] : client.
#[local] Hint Resolve remove_flow_edits drop_slot_edits withdraw_edits drop_flow_edits into_frame_edits recv_edits reserve_edits : client.

Lemma reserve_withdraw_edits p s t r s' : reserve_flow p s = (r, s') → edits s (withdraw s' t).
Proof. intros H. eapply edits_trans; [by eapply reserve_edits|apply withdraw_edits]. Qed.
#[local] Hint Resolve reserve_withdraw_edits : client.

Lemma task_step_edits s t e s' t' sp : task_step s t e = Some (s', t', sp) → edits s s'.
Proof.
  unfold task_step. intros H.
  destruct e, (phase t) eqn:Hp; try done;
    unfold open_step, wait_step, relay_step, relay_frame, drain_step, hand_over_step, udp_step, inbound_step, act_step,
      abort_step in H; rewrite ?Hp in H; task_cases H; eauto with client.
Qed.

Lemma routed_edits s f p r t' :
  session_ok s → route_flow_frame (limits s) f (log_arrival f (table s)) = (p, r, t') → edits s (with_table s t').
Proof.
  intros Hok Hr. apply route_flow_frame_cases in Hr; [|apply Hok].
  destruct Hr as [(_ & Hni & ->)|[(_ & _ & ->)|(_ & He & _)]].
  - by apply edits_table, te_log.
  - eapply edits_trans; [apply edits_table, (te_remove _ _ (id (header f)))|].
    eapply rtc_once, (ed_table (with_table s _)), te_log. simpl. set_solver.
  - by apply edits_table.
Qed.

Lemma step_edits g lb g' : session_ok (session g) → step g lb = Some g' → edits (session g) (session g').
Proof.
  intros Hok Hs. unfold step in Hs. cbv zeta in Hs. destruct lb as [n p|n e|f|e|ok|i b|ok| | | |].
  - destruct (tasks g !! n); [done|]. unfold try_admit in Hs. repeat case_match; simplify_eq; by apply edits_other.
  - destruct (tasks g !! n) as [t|]; [|done]. destruct (task_step _ _ _) as [[[s' t'] sp]|] eqn:E; [|done].
    apply task_step_edits in E. repeat case_match; by simplify_eq.
  - repeat case_match; simplify_eq. eapply (handle_carrier_frame_stable edits); [|done].
    intros. by eapply routed_edits.
  - repeat case_match; simplify_eq. apply edits_refl.
  - repeat case_match; simplify_eq; [apply edits_refl|by eapply (reader_step_stable edits)].
  - simplify_eq. simpl. destruct (route_inbound_datagram_cases (limits (session g)) i b _ (s_table _ Hok)) as [-> |[He _]].
    + by apply edits_other.
    + by apply edits_table.
  - destruct (write_ping ok (session g)) as [r s'] eqn:E. apply (write_ping_stable edits) in E.
    destruct r; injection Hs as <-; [exact E|..]; (eapply edits_trans; [exact E|apply (close_stable edits)]).
  - simplify_eq. simpl. unfold begin_drain. case_match; [apply edits_refl|by apply edits_other].
  - repeat case_match; simplify_eq. simpl. eapply edits_trans; [|apply (close_if_drained_stable edits)]. by apply edits_other.
  - simplify_eq. apply (close_stable edits).
  - repeat case_match; simplify_eq. simpl. unfold clear_flows. cbv zeta.
    eapply edits_trans; [|eapply rtc_once, (ed_table (with_life _ _ _ _ _)), te_clear]. by apply edits_other.
Qed.

Lemma session_new_ok l : limits_ok l → session_ok (session_new l).
Proof.
  intros (Hs & Hu & Hf & Hb). split; simpl.
  - split; simpl; try done; set_solver.
  - intros i ch. by rewrite lookup_empty.
  - done.
  - done.
  - unfold udp_route_count. simpl. replace (filter _ ∅) with (∅ : gset Z) by set_solver. rewrite size_empty. lia.
Qed.

(** Whatever the tasks, the reader and the server do. *)
Definition reachable (l : Limits) (g : System) : Prop := ∃ ls, run (system_new l) ls = Some g.

Lemma run_invariant (Q : Label → Prop) (I : System → Prop) g ls g' :
  (∀ g lb g', Q lb → I g → step g lb = Some g' → I g') → Forall Q ls → I g → run g ls = Some g' → I g'.
Proof.
  intros Hstep Hls. revert g. induction Hls as [|lb ls Hlb _ IH]; intros g Hg; simpl; [by intros [= <-]|].
  intros (g1 & H1 & H2)%bind_Some. eapply IH; [|done]. by eapply Hstep.
Qed.

Lemma step_ok l g lb g' :
  limits_ok l → limits (session g) = l ∧ session_ok (session g) → step g lb = Some g' →
  limits (session g') = l ∧ session_ok (session g').
Proof. intros Hl [<- Hok] Hs. apply (edits_ok _ _ (step_edits _ _ _ Hok Hs) Hl Hok). Qed.

Lemma reachable_ok l g : limits_ok l → reachable l g → limits (session g) = l ∧ session_ok (session g).
Proof.
  intros Hl (ls & Hrun).
  refine (run_invariant (λ _, True) (λ g, limits (session g) = l ∧ session_ok (session g)) _ ls g _ _ _ Hrun).
  - intros g0 lb g1 _. by apply step_ok.
  - by apply Forall_true.
  - split; [done|]. by apply session_new_ok.
Qed.

End Theorems.

(** ** A session that is opened, relays and is flooded *)
Module Demo.
#[local] Existing Instance platform64.

Definition demo_limits : Limits :=
  {| max_streams := 1; max_udp_flows := 1; max_buffered_bytes_per_flow := 8; max_buffered_bytes_per_session := 8;
     max_pending_open_bytes := 4; data_frame_size := 4; supports_udp_stream_fallback := true; supports_udp_relay := true |}.

Definition target : Target.Target := Target.Domain [97; 46; 98] 443.
Definition frame (t : FrameType) (b : Bytes) : Frame :=
  {| header := {| version := VERSION; frame_type := t; flags := 0; id := 1; length := zlen b |}; payload := b |}.

(** Flow 1 is opened by task 0, two bytes buffered meanwhile. *)
Definition opening : list Label :=
  [LAdmit 0 Tcp; LTask 0 EvCheck; LTask 0 EvReserve; LTask 0 (EvSendOpen target true); LTask 0 (EvOpenRead [1; 2]);
   LFrame (frame TcpData []); LTask 0 (EvRecv true); LTask 0 EvDecode; LTask 0 (EvReply true); LTask 0 (EvChunk true);
   LTask 0 (EvChunk true)].
(** Five bytes arrive in two frames, the first is taken and in hand. *)
Definition receiving : list Label :=
  opening ++ [LFrame (frame TcpData [7; 8; 9]); LFrame (frame TcpData [10; 11]); LTask 0 (EvRecv true); LTask 0 EvDecode].

Definition state (l : Limits) (ls : list Label) : System :=
  match run (system_new l) ls with Some g => g | None => system_new l end.

Lemma demo_limits_ok : limits_ok demo_limits.
Proof. unfold limits_ok. simpl. lia. Defined.

Lemma receiving_reachable : reachable demo_limits (state demo_limits receiving).
Proof. exists receiving. vm_compute. reflexivity. Defined.

End Demo.
End ClientFlowsTheorems.
