(* ===== verification/ClientOwnership.v ===== *)
(** * ClientOwnership: which task of a client session owns which resource

    Slots, receivers, routes and bytes: a step of a task moves them between the session
    and the task, and nothing is lost when the task ends. *)

From S2P Require Import Prelude Wire Varint FrameCodec RustStd Endpoint TargetCodec RelayPayload Settings FrameIo.
From S2P Require Import ServerConfig Socks5 ClientSession ClientFlows ClientFlowsTheorems.

Module ClientOwnership.
Import FrameCodec.Frame ClientSession ClientFlows ClientFlowsTheorems.

Section Ownership.
Context {P : Platform}.

(** ** Who owns what *)

(** The task will take the route of flow [i] out of the table. *)
Definition removes (a : Act) : bool := match a with RemoveFlow => true | _ => false end.
Definition drops (a : Act) : bool := match a with DropFlow => true | _ => false end.

Definition flow_of (t : Task) : option Z :=
  match phase t with
  | HasSlot | Checked => None
  | Reserved i | Opening i _ | OpenTaken i _ _ | Replying i _ | Flushing i _ | Relaying i _ _ | FrameTaken i _ _ _
  | FrameInHand i _ _ _ | DrainingUpload i _ | HandingOver i | HandTaken i _ | HandInHand i _ | UdpOpened i | UdpOwner i
  | UdpInbound i | InboundTaken i _ | InboundInHand i _ | Ending i _ => Some i
  end.

Definition on_flow (i : Z) (t : Task) : bool := bool_decide (flow_of t = Some i).
Definition owns (i : Z) (t : Task) : bool :=
  on_flow i t &&
  match phase t with
  | UdpInbound _ | InboundTaken _ _ | InboundInHand _ _ => false
  | Ending _ acts => existsb removes acts
  | _ => true
  end.
(** The task has the receiver of flow [i]. *)
Definition holds (i : Z) (t : Task) : bool := slot t && on_flow i t.
(** The task has taken a frame of flow [i] whose bytes are not released. *)
Definition taking (i : Z) (t : Task) : bool :=
  on_flow i t &&
  match phase t with OpenTaken _ _ _ | FrameTaken _ _ _ _ | HandTaken _ _ | InboundTaken _ _ => true | _ => false end.

(** A task holds a slot until the flow is dropped. *)
Definition task_ok (t : Task) : Prop :=
  match phase t with
  | HasSlot | Checked => slot t = true
  | UdpOwner _ => slot t = false
  | Ending _ acts => slot t = true → existsb drops acts = true
  | _ => True
  end.

(** How many tasks satisfy a test. *)
Definition b2z (b : bool) : Z := if b then 1 else 0.
Definition count (q : Task → bool) (m : gmap nat Task) : Z := map_fold (λ _ t n, b2z (q t) + n) 0 m.
Definition counted (q : Task → bool) (t : option Task) : Z := from_option (λ t, b2z (q t)) 0 t.

Lemma count_new q n t m : m !! n = None → count q (<[n := t]> m) = b2z (q t) + count q m.
Proof. intros Hm. unfold count. rewrite map_fold_insert_L; [done| |done]. intros. lia. Qed.

Lemma count_alter q n t m :
  count q (partial_alter (λ _, t) n m) = count q m - counted q (m !! n) + counted q t.
Proof.
  assert (count q m = counted q (m !! n) + count q (delete n m)) as Hd.
  { destruct (m !! n) as [t0|] eqn:E; simpl.
    - rewrite <-(insert_delete_id m n t0 E) at 1. by rewrite count_new by apply lookup_delete_eq.
    - by rewrite delete_id. }
  replace (partial_alter (λ _, t) n m) with (partial_alter (λ _, t) n (delete n m)).
  2:{ apply map_eq. intros j. destruct (decide (n = j)) as [<-|]; [by rewrite !lookup_partial_alter_eq|].
      by rewrite !lookup_partial_alter_ne, lookup_delete_ne. }
  destruct t as [t|].
  - change (partial_alter (λ _, Some t) n (delete n m)) with (<[n := t]> (delete n m)).
    rewrite count_new by apply lookup_delete_eq. simpl. lia.
  - change (partial_alter (λ _, None) n (delete n m)) with (delete n (delete n m)).
    rewrite delete_delete_eq. simpl. lia.
Qed.

Lemma count_pos q m : 0 < count q m → ∃ n t, m !! n = Some t ∧ q t = true.
Proof.
  induction m as [|n t m Hm IH] using map_ind; [done|]. rewrite count_new by done. intros Hc.
  destruct (q t) eqn:Hq; [exists n, t; by rewrite lookup_insert_eq|].
  destruct IH as (n' & t' & Hn & Ht); [simpl in Hc; lia|]. exists n', t'. split; [|done].
  rewrite lookup_insert_ne; [done|congruence].
Qed.
Lemma count_nonneg q m : 0 ≤ count q m.
Proof. induction m as [|n t m Hm IH] using map_ind; [done|]. rewrite count_new by done. destruct (q t); simpl; lia. Qed.
Lemma count_elem q m n t : m !! n = Some t → q t = true → 0 < count q m.
Proof.
  intros Hm Hq. rewrite <-(insert_delete_id m n t Hm), count_new by apply lookup_delete_eq. rewrite Hq.
  pose proof (count_nonneg q (delete n m)). simpl. lia.
Qed.

(** What a session shows of the resources of flow [i]. *)
Definition alive (s : Session) (i : Z) : bool := from_option receiver false (channels (table s) !! i).
Definition held_count (s : Session) (i : Z) : Z := from_option (λ ch, zlen (held ch)) 0 (channels (table s) !! i).

Lemma send_calm ok f s :
  table (snd (send ok f s)) = table s ∧ admission (snd (send ok f s)) = admission s.
Proof.
  unfold send, write_frame, close. destruct f; [|done..]. destruct (closed s) eqn:E; [done|].
  by destruct ok.
Qed.
Lemma close_calm s : table (close s) = table s ∧ admission (close s) = admission s.
Proof. unfold close. by destruct (closed s). Qed.

(** What a step of a task does to the resources, [clean] when it is not an abort. *)
Record effect (clean : Prop) (s : Session) (t : Task) (s' : Session) (t' : option Task) (sp : option (nat * Task)) : Prop := {
  ef_routes i : i ∈ routes (table s') →
    (i ∈ routes (table s) ∧ (clean → owns i t = true → 0 < counted (owns i) t' + counted (owns i) (snd <$> sp))) ∨
    0 < counted (owns i) t' + counted (owns i) (snd <$> sp);
  ef_alive i : alive s' i = true →
    (alive s i = true ∧ (holds i t = true → 0 < counted (holds i) t' + counted (holds i) (snd <$> sp))) ∨
    0 < counted (holds i) t' + counted (holds i) (snd <$> sp);
  ef_streams : streams (admission s') + counted slot t' + counted slot (snd <$> sp) = streams (admission s) + b2z (slot t);
  ef_udp : let q t := slot t && bool_decide (proto t = Udp) in
    udp_flows (admission s') + counted q t' + counted q (snd <$> sp) = udp_flows (admission s) + b2z (q t);
  ef_held i : held_count s' i = held_count s i - b2z (taking i t) + counted (taking i) t' + counted (taking i) (snd <$> sp);
  ef_task : ∀ u, t' = Some u → task_ok u;
  ef_spawn : ∀ n u, sp = Some (n, u) → task_ok u
}.

Lemma counted_nonneg q t : 0 ≤ counted q t.
Proof. destruct t as [t|]; simpl; [destruct (q t); simpl; lia|lia]. Qed.

(** The task stays on its flow and keeps its slot, whatever it is about to do. *)
Definition same_grip (t u : Task) : Prop :=
  slot u = slot t ∧ proto u = proto t ∧ flow_of u = flow_of t ∧ task_ok u.

Lemma same_grip_holds t u i : same_grip t u → holds i u = holds i t.
Proof. intros (Hs & _ & Hf & _). unfold holds, on_flow. by rewrite Hs, Hf. Qed.

Lemma grip_flow t u : same_grip t u → flow_of u = flow_of t.
Proof. by intros (_ & _ & ? & _). Qed.

Lemma effect_keeps clean s t s' u :
  same_grip t u → routes (table s') ⊆ routes (table s) →
  (∀ i, alive s' i = true → alive s i = true) →
  (∀ i, owns i t = true → i ∈ routes (table s') → owns i u = true) → admission s' = admission s →
  (∀ i, held_count s' i = held_count s i - b2z (taking i t) + b2z (taking i u)) →
  effect clean s t s' (Some u) None.
Proof.
  intros Hg Hr Ha Ho Hadm Hh. pose proof (λ i, same_grip_holds t u i Hg) as Hho. destruct Hg as (Hs & Hp & Hf & Hok).
  split; simpl.
  - intros i Hi. left. split; [by apply Hr|]. intros _ Hi'. rewrite (Ho i Hi' Hi). simpl. lia.
  - intros i Hi. left. split; [by apply Ha|]. intros Hh'. rewrite Hho, Hh'. simpl. lia.
  - rewrite Hadm, Hs. lia.
  - rewrite Hadm, Hs, Hp. lia.
  - intros i. rewrite Hh. lia.
  - by intros u' [= <-].
  - done.
Qed.

(** A step that leaves the table and the permits alone. *)
Lemma effect_quiet clean s t s' u :
  same_grip t u → table s' = table s → admission s' = admission s →
  (∀ i, owns i t = true → i ∈ routes (table s) → owns i u = true) → (∀ i, taking i t = taking i u) →
  effect clean s t s' (Some u) None.
Proof.
  intros Hg Ht Ha Ho Hk. apply effect_keeps; try done; rewrite ?Ht; try done.
  - intros i. unfold alive. by rewrite Ht.
  - intros i. unfold held_count. rewrite Ht, Hk. lia.
Qed.

Lemma held_count_put s i ch ch' n j :
  channels (table s) !! i = Some ch →
  held_count (with_table s (put_channel (table s) i ch' n)) j =
    held_count s j + (if decide (i = j) then zlen (held ch') - zlen (held ch) else 0).
Proof.
  intros Hi. unfold held_count. simpl. case_decide as E; [subst; rewrite lookup_insert_eq, Hi; simpl; lia|].
  rewrite lookup_insert_ne by done. lia.
Qed.
Lemma alive_put s i ch ch' n j :
  channels (table s) !! i = Some ch → (receiver ch' = true → receiver ch = true) →
  alive (with_table s (put_channel (table s) i ch' n)) j = true → alive s j = true.
Proof.
  intros Hi Hr. unfold alive. simpl. destruct (decide (i = j)) as [<-|E]; [rewrite lookup_insert_eq, Hi; auto|].
  by rewrite lookup_insert_ne.
Qed.

Lemma taking_other i j t : flow_of t = Some i → i ≠ j → taking j t = false.
Proof. intros Hf Hij. unfold taking, on_flow. rewrite Hf, bool_decide_false by congruence. done. Qed.

Lemma effect_recv clean s t i f tb u :
  same_grip t u → flow_of t = Some i → recv i (table s) = (Took f, tb) → taking i t = false → taking i u = true →
  (∀ j, owns j t = true → owns j u = true) → effect clean s t (with_table s tb) (Some u) None.
Proof.
  intros Hg Hf Hr Ht Hu Ho. unfold recv in Hr. destruct (channels (table s) !! i) as [ch|] eqn:Hi; [|done].
  destruct (queue ch) as [|f' q]; [by case_bool_decide|]. injection Hr as -> <-.
  apply effect_keeps; try done; auto.
  - intros j. by apply (alive_put _ _ ch).
  - intros j. rewrite (held_count_put _ _ ch) by done. simpl. rewrite length_app. simpl. case_decide as E.
    + subst j. rewrite Ht, Hu. simpl. lia.
    + rewrite (taking_other i j t), (taking_other i j u) by (by rewrite ?(grip_flow t u)). simpl. lia.
Qed.

Lemma effect_into clean s t i u :
  same_grip t u → flow_of t = Some i → 0 < held_count s i → taking i t = true → taking i u = false →
  (∀ j, owns j t = true → owns j u = true) →
  effect clean s t (with_table s (into_frame i (table s))) (Some u) None.
Proof.
  intros Hg Hf Hc Ht Hu Ho. unfold held_count in Hc. destruct (channels (table s) !! i) as [ch|] eqn:Hi; [|done]. simpl in Hc.
  unfold into_frame. rewrite Hi. destruct (held ch) as [|f rest] eqn:Hh; [done|].
  apply effect_keeps; try done; auto.
  - intros j. by apply (alive_put _ _ ch).
  - intros j. rewrite (held_count_put _ _ ch) by done. simpl. rewrite Hh. simpl. case_decide as E.
    + subst j. rewrite Ht, Hu. simpl. lia.
    + rewrite (taking_other i j t), (taking_other i j u) by (by rewrite ?(grip_flow t u)). simpl. lia.
Qed.

Lemma remove_flow_calm i s :
  table (remove_flow i s) = remove_route (table s) i ∧ admission (remove_flow i s) = admission s.
Proof.
  unfold remove_flow. cbv zeta. destruct (_ && _); [|done].
  destruct (close_calm (with_table s (remove_route (table s) i))) as [-> ->]. done.
Qed.

Lemma effect_remove clean s t i u :
  same_grip t u → flow_of t = Some i → (∀ j, taking j t = false) → (∀ j, taking j u = false) →
  effect clean s t (remove_flow i s) (Some u) None.
Proof.
  intros Hg Hf Ht Hu. destruct (remove_flow_calm i s) as [Htb Had]. apply effect_keeps; rewrite ?Htb; try done.
  - simpl. set_solver.
  - intros j. unfold alive. by rewrite Htb.
  - intros j Ho. simpl. unfold owns, on_flow in Ho. rewrite Hf in Ho. case_bool_decide; simplify_eq/=. set_solver.
  - intros j. unfold held_count. rewrite Htb, Ht, Hu. simpl. lia.
Qed.

Lemma drop_receiver_held i s j : held_count (with_table s (drop_receiver i (table s))) j = held_count s j.
Proof.
  unfold drop_receiver. destruct (channels (table s) !! i) as [ch|] eqn:Hi; [|done].
  cbv zeta. destruct (foldl _ _ _) as [flow session]. rewrite (held_count_put _ _ ch) by done. simpl. case_decide; lia.
Qed.
Lemma drop_receiver_alive i s j :
  alive (with_table s (drop_receiver i (table s))) j = true → alive s j = true ∧ i ≠ j.
Proof.
  unfold drop_receiver, alive. destruct (channels (table s) !! i) as [ch|] eqn:Hi.
  - cbv zeta. destruct (foldl _ _ _) as [flow session]. simpl.
    destruct (decide (i = j)) as [<-|]; [by rewrite lookup_insert_eq|by rewrite lookup_insert_ne].
  - simpl. intros Ha. split; [done|]. intros <-. by rewrite Hi in Ha.
Qed.
Lemma drop_receiver_routes i t : routes (drop_receiver i t) = routes t.
Proof. unfold drop_receiver. destruct (channels t !! i); [|done]. cbv zeta. by destruct (foldl _ _ _). Qed.

Lemma withdraw_calm s t : table (withdraw s t) = table s.
Proof. unfold withdraw. by destruct (slot t). Qed.
Lemma withdraw_permits s t :
  streams (admission (withdraw s t)) = streams (admission s) + b2z (slot t) ∧
  udp_flows (admission (withdraw s t)) = udp_flows (admission s) + b2z (slot t && bool_decide (proto t = Udp)).
Proof. unfold withdraw, drop_slot. destruct (slot t), (proto t); simpl; lia. Qed.

(** Dropping the flow: the receiver is gone, the permits are back. *)
Lemma effect_drop clean s t i u :
  flow_of t = Some i → (∀ j, taking j t = false) →
  (∀ v, u = Some v → slot v = false ∧ (∀ j, owns j t = owns j v) ∧ (∀ j, taking j v = false) ∧ task_ok v) →
  (u = None → clean → ∀ j, owns j t = false) →
  effect clean s t (drop_flow i s t) u None.
Proof.
  intros Hf Ht Hu Hn. unfold drop_flow. set (s1 := with_table s _).
  destruct (withdraw_permits s1 t) as [Hst Hudp]. split.
  - intros j. rewrite withdraw_calm. subst s1. cbn [table with_table]. rewrite drop_receiver_routes. intros Hj. left. split; [done|].
    intros Hc Ho. destruct u as [v|]; simpl; [|by rewrite Hn in Ho].
    destruct (Hu v eq_refl) as (_ & Hov & _). rewrite <-Hov, Ho. simpl. lia.
  - intros j. unfold alive at 1. rewrite withdraw_calm. intros [Ha Hij]%(drop_receiver_alive i s j). left. split; [done|].
    unfold holds, on_flow. rewrite Hf, bool_decide_false by congruence. by rewrite andb_false_r.
  - rewrite Hst. subst s1. destruct u as [v|]; simpl; [|lia]. destruct (Hu v eq_refl) as (-> & _). simpl. lia.
  - cbv zeta. rewrite Hudp. subst s1. destruct u as [v|]; simpl; [|lia]. destruct (Hu v eq_refl) as (-> & _). simpl. lia.
  - intros j. unfold held_count at 1. rewrite withdraw_calm. change (from_option _ _ _) with (held_count s1 j).
    subst s1. rewrite drop_receiver_held, Ht. destruct u as [v|]; simpl; [|lia].
    destruct (Hu v eq_refl) as (_ & _ & Hk & _). rewrite Hk. simpl. lia.
  - intros v ->. by destruct (Hu v eq_refl) as (_ & _ & _ & ?).
  - done.
Qed.

(** A task with no flow ends. *)
Lemma effect_withdraw clean s t s1 :
  flow_of t = None → table s1 = table s → admission s1 = admission s → effect clean s t (withdraw s1 t) None None.
Proof.
  intros Hf Ht Ha. destruct (withdraw_permits s1 t) as [Hst Hudp].
  assert (∀ j, on_flow j t = false) as Hon by (intros j; unfold on_flow; by rewrite Hf).
  split; simpl; try done.
  - intros j. rewrite withdraw_calm, Ht. intros Hj. left. split; [done|]. unfold owns. by rewrite Hon.
  - intros j. unfold alive at 1. rewrite withdraw_calm, Ht. intros Hj. left. split; [done|].
    unfold holds. by rewrite Hon, andb_false_r.
  - rewrite Hst, Ha. lia.
  - rewrite Hudp, Ha. lia.
  - intros j. unfold held_count at 1. rewrite withdraw_calm, Ht. unfold taking. rewrite Hon. unfold held_count. simpl. lia.
Qed.

(** A task that has let go of everything ends. *)
Lemma effect_done clean s t :
  slot t = false → (clean → ∀ j, owns j t = false) → (∀ j, taking j t = false) → effect clean s t s None None.
Proof.
  intros Hs Ho Ht. split; simpl; try done.
  - intros j Hj. left. split; [done|]. intros Hc. by rewrite Ho.
  - intros j Hj. left. split; [done|]. unfold holds. by rewrite Hs.
  - rewrite Hs. simpl. lia.
  - rewrite Hs. simpl. lia.
  - intros j. rewrite Ht. simpl. lia.
Qed.

Lemma reserve_flow_cases s p r s' :
  session_ok s → reserve_flow p s = (r, s') →
  admission s' = admission s ∧ written s' = written s ∧
  ((∀ i, r ≠ Ok (Some i)) ∧ table s' = table s ∧ next_flow_id s' = next_flow_id s ∨
   ∃ i, r = Ok (Some i) ∧ i = next_flow_id s ∧ next_flow_id s' = i + 2 ∧ table s' = add_route (table s) i p ∧ channels (table s) !! i = None).
Proof.
  intros Hok. unfold reserve_flow. destruct (draining s); [intros [= <- <-]; do 2 (split; [done|]); by left|].
  destruct (reserve_flow_slot _ _ _ _) as [[r' t] next] eqn:E. intros [= <- <-].
  apply reserve_flow_slot_cases in E as [(? & -> & ->)|(-> & -> & -> & _ & _ & Hnone & _)]; [|..|done].
  - do 2 (split; [done|]). by left.
  - do 2 (split; [done|]). right. by exists (next_flow_id s).
Qed.

Lemma effect_reserve clean s t i s' :
  session_ok s → phase t = Checked → task_ok t → reserve_flow (proto t) s = (Ok (Some i), s') →
  effect clean s t s' (Some (at_phase t (Reserved i))) None.
Proof.
  intros Hok Hp Ht Hr. unfold task_ok in Ht. rewrite Hp in Ht.
  destruct (reserve_flow_cases _ _ _ _ Hok Hr) as (Ha & _ & [[Hne _]|(i' & [= <-] & _ & _ & Htb & Hnone)]); [by destruct (Hne i)|].
  assert (∀ j, on_flow j t = false) as Hon by (intros j; unfold on_flow, flow_of; by rewrite Hp).
  assert (on_flow i (at_phase t (Reserved i)) = true) as Hi by (by apply bool_decide_true).
  split; simpl; try done.
  - intros j. rewrite Htb. simpl. intros [->%elem_of_singleton|Hj]%elem_of_union.
    + right. unfold owns. rewrite Hi. simpl. lia.
    + left. split; [done|]. unfold owns. by rewrite Hon.
  - intros j. unfold alive. rewrite Htb. simpl. destruct (decide (i = j)) as [<-|Hij].
    + intros _. right. unfold holds. rewrite Hi. simpl. rewrite Ht. simpl. lia.
    + rewrite lookup_insert_ne by done. intros Hj. left. split; [done|]. unfold holds. by rewrite Hon, andb_false_r.
  - rewrite Ha. lia.
  - rewrite Ha. lia.
  - intros j. unfold held_count, taking. rewrite Htb, Hon, andb_false_r. simpl. destruct (decide (i = j)) as [<-|Hij].
    + by rewrite lookup_insert_eq, Hnone.
    + rewrite lookup_insert_ne by done. lia.
  - by intros u [= <-].
Qed.

(** The worker keeps the route, the task it spawns takes the receiver and the slot. *)
Lemma effect_spawn clean s t i n :
  phase t = UdpOpened i →
  effect clean s t s (Some (without_slot (at_phase t (UdpOwner i)))) (Some (n, at_phase t (UdpInbound i))).
Proof.
  intros Hp. assert (∀ j p, flow_of (at_phase t p) = Some i → on_flow j (at_phase t p) = on_flow j t) as Hon.
  { intros j p Hf. unfold on_flow. rewrite Hf. unfold flow_of. by rewrite Hp. }
  split; simpl; try done.
  - intros j Hj. left. split; [done|]. intros _ Ho. unfold owns at 1.
    replace (on_flow j (without_slot (at_phase t (UdpOwner i)))) with (on_flow j t) by (symmetry; by apply (Hon j (UdpOwner i))).
    unfold owns in Ho. rewrite Hp, andb_true_r in Ho. rewrite Ho. simpl.
    pose proof (counted_nonneg (owns j) (Some (at_phase t (UdpInbound i)))). simpl in *. lia.
  - intros j Hj. left. split; [done|]. intros Hh. unfold holds in *. simpl. rewrite Hon by done.
    rewrite Hh. simpl. lia.
  - lia.
  - lia.
  - intros j. unfold taking. rewrite Hp. simpl. rewrite !andb_false_r. simpl. lia.
  - by intros u [= <-].
  - by intros m u [= _ <-].
Qed.

(** The side conditions of the effects: the phases are concrete. *)
Ltac grip Hp :=
  unfold same_grip, task_ok, owns, taking, on_flow, flow_of, at_phase, reads, delivers, ends_stream, without_slot,
    relay_returns, refuse_open, bad_open, cancel_open;
  cbn [phase slot proto]; rewrite ?Hp; cbn [phase slot proto existsb removes drops orb];
  rewrite ?andb_true_r, ?andb_false_r; auto.

(** [Ended] means that nobody sends to the flow. *)
Lemma recv_Ended s i t : session_ok s → recv i (table s) = (Ended, t) → i ∉ routes (table s).
Proof.
  intros Hok Hr Hi. destruct (t_routes _ _ (s_table _ Hok) _ Hi) as (_ & ch & Hch & _). unfold recv in Hr.
  rewrite Hch in Hr. destruct (queue ch); [|done]. by rewrite bool_decide_true in Hr.
Qed.

Lemma send_eq_calm ok f s r s' : send ok f s = (r, s') → table s' = table s ∧ admission s' = admission s.
Proof. intros H. change s' with (snd (r, s')). rewrite <-H. apply send_calm. Qed.
Lemma send_udp_calm d ok i b s r s' :
  send_udp_data d ok i b s = (r, s') → table s' = table s ∧ admission s' = admission s.
Proof.
  unfold send_udp_data. destruct d; [by intros [= _ <-]|]. destruct (negb _); [by intros [= _ <-]|apply send_eq_calm].
Qed.

Ltac calm :=
  first
    [ reflexivity
    | apply send_calm
    | match goal with H : send _ _ _ = _ |- _ => apply (send_eq_calm _ _ _ _ _ H) end
    | match goal with H : send_udp_data _ _ _ _ _ = _ |- _ => apply (send_udp_calm _ _ _ _ _ _ _ H) end ].

(** The task moves on; table and permits are as they were. *)
Ltac quiet Hp :=
  apply effect_quiet; [grip Hp; fail|calm|calm|intros ?; grip Hp; fail|intros ?; grip Hp; fail].

(** A frame taken from the queue, and its bytes released. *)
Ltac on_the_flow Hp := grip Hp; rewrite ?bool_decide_true; done.
Ltac takes Hp :=
  match goal with H : recv ?i _ = (Took ?f, _) |- _ =>
    apply (effect_recv _ _ _ i f); [on_the_flow Hp|on_the_flow Hp|exact H|on_the_flow Hp..] end.
Ltac releases Hp :=
  match goal with H : ∀ i, taking i _ = true → _ |- _ =>
    eapply effect_into; [on_the_flow Hp|on_the_flow Hp|apply H|on_the_flow Hp..]; on_the_flow Hp end.
Ltac task_effect Hp := first [takes Hp|releases Hp|quiet Hp].

Section Steps.
Context (s : Session) (t : Task) (Hok : session_ok s) (Ht : task_ok t).
Context (Hheld : ∀ i, taking i t = true → 0 < held_count s i).

Lemma open_step_effect clean e s' t' sp : open_step s t e = Some (s', t', sp) → effect clean s t s' t' sp.
Proof.
  unfold open_step. intros H. destruct (phase t) eqn:Hp, e; try done.
  - destruct (draining s); [injection H as <- <- <-; by apply effect_withdraw; grip Hp|].
    destruct (closed s); [injection H as <- <- <-; by apply effect_withdraw; grip Hp|].
    destruct (_ && _); injection H as <- <- <-; [by apply effect_withdraw; grip Hp|].
    apply effect_quiet; try done; unfold task_ok in Ht; rewrite Hp in Ht; grip Hp.
  - destruct (reserve_flow _ _) as [r s1] eqn:Hr. destruct (reserve_flow_cases _ _ _ _ Hok Hr) as (Ha & _ & [(Hne & Htb & _)|Hi]).
    + assert (Some (withdraw s1 t, @None Task, @None (nat * Task)) = Some (s', t', sp)) as [= <- <- <-].
      { rewrite <-H. destruct r as [[i|]| |]; [by destruct (Hne i)|done..]. }
      apply effect_withdraw; [grip Hp|done|done].
    + destruct Hi as (i & -> & _). injection H as <- <- <-. by apply effect_reserve.
  - task_cases H; quiet Hp.
  - task_cases H; task_effect Hp.
Qed.

Lemma wait_step_effect clean e s' t' sp : wait_step s t e = Some (s', t', sp) → effect clean s t s' t' sp.
Proof.
  unfold wait_step. intros H. destruct (phase t) eqn:Hp, e; try done.
  - task_cases H; quiet Hp.
  - task_cases H; quiet Hp.
  - destruct (recv flow_id (table s)) as [[| |f] tb] eqn:Hr; [done| |].
    + injection H as <- <- <-. pose proof (recv_Ended _ _ _ Hok Hr). apply effect_quiet; try done; grip Hp.
      intros i Ho. case_bool_decide; simplify_eq. done.
    + injection H as <- <- <-. takes Hp.
Qed.

Lemma relay_step_effect clean e s' t' sp : relay_step s t e = Some (s', t', sp) → effect clean s t s' t' sp.
Proof.
  unfold relay_step, relay_frame. intros H. destruct (phase t) eqn:Hp, e; try done; task_cases H; task_effect Hp.
Qed.

Lemma drain_step_effect clean e s' t' sp : drain_step s t e = Some (s', t', sp) → effect clean s t s' t' sp.
Proof.
  unfold drain_step. intros H. destruct (phase t) eqn:Hp, e; try done; task_cases H; task_effect Hp.
Qed.

Lemma hand_over_step_effect clean e s' t' sp : hand_over_step s t e = Some (s', t', sp) → effect clean s t s' t' sp.
Proof.
  unfold hand_over_step. intros H. destruct (phase t) eqn:Hp, e; try done; task_cases H; task_effect Hp.
Qed.

Lemma udp_step_effect clean e s' t' sp : udp_step s t e = Some (s', t', sp) → effect clean s t s' t' sp.
Proof.
  unfold udp_step. intros H. destruct (phase t) eqn:Hp, e; try done.
  - destruct oversized; injection H as <- <- <-; [quiet Hp|by apply effect_spawn].
  - unfold task_ok in Ht. rewrite Hp in Ht. task_cases H; apply effect_quiet; try calm; grip Hp; by rewrite Ht.
  - unfold task_ok in Ht. rewrite Hp in Ht. task_cases H; apply effect_quiet; try calm; grip Hp; by rewrite Ht.
Qed.

Lemma inbound_step_effect clean e s' t' sp : inbound_step s t e = Some (s', t', sp) → effect clean s t s' t' sp.
Proof.
  unfold inbound_step. intros H. destruct (phase t) eqn:Hp, e; try done; task_cases H; task_effect Hp.
Qed.

Lemma act_step_effect clean e s' t' sp : act_step s t e = Some (s', t', sp) → effect clean s t s' t' sp.
Proof.
  unfold act_step. intros H. destruct (phase t) as [| | | | | | | | | | | | | | | | | | |i acts] eqn:Hp; try (by destruct e).
  unfold task_ok in Ht. rewrite Hp in Ht. destruct acts as [|a acts]; destruct e; try done.
  - injection H as <- <- <-. apply effect_done; [|intros _ j; grip Hp|intros j; grip Hp]. destruct (slot t); [by specialize (Ht eq_refl)|done].
  - destruct a; injection H as <- <- <-.
    + apply effect_quiet; [grip Hp|calm|calm|intros j; grip Hp..].
    + apply effect_remove; [grip Hp|grip Hp|intros j; grip Hp..].
    + apply effect_quiet; [grip Hp|calm|calm|intros j; grip Hp..].
    + apply effect_drop; [grip Hp|intros j; grip Hp| |done]. intros v [= <-]. split_and!; [done|intros j; grip Hp..|by grip Hp].
Qed.

Lemma abort_step_effect e s' t' sp : abort_step s t e = Some (s', t', sp) → effect False s t s' t' sp.
Proof.
  unfold abort_step. intros H. destruct e; try done. destruct (proto t); [done|].
  destruct (phase t) eqn:Hp; try done; injection H as <- <- <-;
    try (apply effect_withdraw; grip Hp; fail);
    destruct (slot t) eqn:Hs; (apply effect_drop || apply effect_done); try done; try (intros j; grip Hp; fail); grip Hp.
Qed.

Lemma task_step_effect e s' t' sp : task_step s t e = Some (s', t', sp) → effect (e ≠ EvAbort) s t s' t' sp.
Proof.
  intros H. unfold task_step in H.
  assert (e = EvAbort ∨ e ≠ EvAbort) as [->|Hne] by (destruct e; auto).
  - apply abort_step_effect in H as [Hr ? ? ? ? ? ?]. split; try done.
    intros i Hi. destruct (Hr i Hi) as [[? _]|?]; [left; split; [done|]; by intros []|by right].
  - destruct (phase t), e; first
      [ done | exact (open_step_effect _ _ _ _ _ H) | exact (wait_step_effect _ _ _ _ _ H)
      | exact (relay_step_effect _ _ _ _ _ H) | exact (drain_step_effect _ _ _ _ _ H)
      | exact (hand_over_step_effect _ _ _ _ _ H) | exact (udp_step_effect _ _ _ _ _ H)
      | exact (inbound_step_effect _ _ _ _ _ H) | exact (act_step_effect _ _ _ _ _ H) ].
Qed.
End Steps.

(** ** The whole system *)

Definition udp_slot (t : Task) : bool := slot t && bool_decide (proto t = Udp).

(** Permits are in the semaphores or with a task; a receiver and a frame in hand are
    with a task; and, as long as nothing was aborted, so is every route. *)
Record owned (clean : Prop) (g : System) : Prop := {
  ow_streams : streams (admission (session g)) + count slot (tasks g) = semaphore_permits (max_streams (limits (session g)));
  ow_udp : udp_flows (admission (session g)) + count udp_slot (tasks g) =
           semaphore_permits (max_udp_flows (limits (session g)));
  ow_alive i : alive (session g) i = true → 0 < count (holds i) (tasks g);
  ow_held i : held_count (session g) i = count (taking i) (tasks g);
  ow_tasks n t : tasks g !! n = Some t → task_ok t;
  ow_routes i : clean → i ∈ routes (table (session g)) → 0 < count (owns i) (tasks g)
}.

(** What the reader and the manager do: no resource of a task changes. *)
Record calmly (s s' : Session) : Prop := {
  ca_routes : routes (table s') ⊆ routes (table s);
  ca_grips i : grips (table s') i = grips (table s) i;
  ca_admission : admission s' = admission s;
  ca_limits : limits s' = limits s
}.

Lemma grips_alive s s' i : grips (table s') i = grips (table s) i → alive s' i = alive s i.
Proof.
  unfold grips, alive. destruct (channels (table s') !! i), (channels (table s) !! i); simpl; [|done..]. by intros [= -> _].
Qed.
Lemma grips_held s s' i : grips (table s') i = grips (table s) i → held_count s' i = held_count s i.
Proof.
  unfold grips, held_count. destruct (channels (table s') !! i), (channels (table s) !! i); simpl; [|done..].
  by intros [= _ -> _].
Qed.

Lemma owned_calmly clean g s' r :
  owned clean g → calmly (session g) s' → owned clean {| session := s'; reader := r; tasks := tasks g |}.
Proof.
  intros [Hs Hu Ha Hh Ht Hr] [Cr Cg Ca Cl]. split; simpl; rewrite ?Ca, ?Cl; try done.
  - intros i. rewrite (grips_alive _ _ _ (Cg i)). apply Ha.
  - intros i. by rewrite (grips_held _ _ _ (Cg i)).
  - intros i Hc Hi. apply Hr; [done|]. by apply Cr.
Qed.

#[export] Instance calmly_stable : Stable calmly.
Proof.
  split; [split|].
  - intros s. by split.
  - intros s1 s2 s3 [? H1 ? ?] [? H2 ? ?]. split; [set_solver|intros i; by rewrite H2, H1|congruence..].
  - intros s s' Hl Ht Ha _. split; by rewrite ?Ht.
Qed.

Lemma routed_calmly s f p r t' :
  session_ok s → route_flow_frame (limits s) f (log_arrival f (table s)) = (p, r, t') → calmly s (with_table s t').
Proof.
  intros Hok Hr. apply route_flow_frame_cases in Hr; [|apply Hok].
  destruct Hr as [(_ & _ & ->)|[(_ & _ & ->)|(_ & _ & Hrt & Hg)]].
  - split; try done. intros i. apply grips_log.
  - split; try done; [simpl; set_solver|]. intros i. simpl. rewrite grips_log. done.
  - split; try done. simpl. by rewrite Hrt.
Qed.

Lemma owned_task clean g n t e s' t' sp :
  session_ok (session g) → owned clean g → tasks g !! n = Some t → (clean → e ≠ EvAbort) →
  task_step (session g) t e = Some (s', t', sp) → limits s' = limits (session g) →
  (∀ m u, sp = Some (m, u) → tasks g !! m = None) →
  let ts := partial_alter (λ _, t') n (tasks g) in
  owned clean {| session := s'; reader := reader g; tasks := match sp with Some (m, u) => <[m := u]> ts | None => ts end |}.
Proof.
  intros Hok [Hs Hu Ha Hh Hts Hr] Hn Hcl Hstep Hlim Hsp ts.
  assert (∀ i, taking i t = true → 0 < held_count (session g) i) as Hheld.
  { intros i Hi. rewrite Hh. by eapply count_elem. }
  destruct (task_step_effect _ _ Hok (Hts _ _ Hn) Hheld _ _ _ _ Hstep) as [Er Ea Es Eu Eh Et Esp].
  set (ts' := match sp with Some (m, u) => <[m := u]> ts | None => ts end).
  assert (∀ q, count q ts' = count q (tasks g) - b2z (q t) + counted q t' + counted q (snd <$> sp)) as Hc.
  { intros q. assert (count q ts = count q (tasks g) - b2z (q t) + counted q t') as Hts0
      by (unfold ts; rewrite count_alter, Hn; done).
    destruct sp as [[m u]|]; simpl; [|unfold ts'; lia]. unfold ts'. rewrite count_new; [lia|].
    specialize (Hsp m u eq_refl). unfold ts. rewrite lookup_partial_alter_ne; [done|congruence]. }
  assert (∀ q, b2z (q t) ≤ count q (tasks g)) as Hle.
  { intros q. destruct (q t) eqn:E; simpl; [|apply count_nonneg]. pose proof (count_elem q _ _ _ Hn E). lia. }
  assert (∀ q, 0 < count q (tasks g) → (q t = true → 0 < counted q t' + counted q (snd <$> sp)) → 0 < count q ts') as Hpos.
  { intros q H1 H2. rewrite Hc. pose proof (counted_nonneg q t'). pose proof (counted_nonneg q (snd <$> sp)).
    destruct (q t); simpl; [specialize (H2 eq_refl)|]; pose proof (Hle q); lia. }
  assert (∀ q, 0 < counted q t' + counted q (snd <$> sp) → 0 < count q ts') as Hnew.
  { intros q H1. rewrite Hc. pose proof (Hle q). lia. }
  split; cbn [session tasks]; rewrite ?Hlim, ?Hc.
  - lia.
  - unfold udp_slot in *. cbv zeta in Eu. lia.
  - intros i Hi. destruct (Ea i Hi) as [[H1 H2]|H1]; auto.
  - intros i. rewrite Eh, Hc, Hh. lia.
  - intros m u. unfold ts'. assert (∀ m u, ts !! m = Some u → task_ok u) as Hold.
    { intros m' u'. unfold ts. destruct (decide (n = m')) as [<-|Hne].
      - rewrite lookup_partial_alter_eq. apply Et.
      - rewrite lookup_partial_alter_ne by done. apply Hts. }
    destruct sp as [[m' u']|]; [|apply Hold]. intros [[<- <-]|[_ H1]]%lookup_insert_Some; [by eapply Esp|by eapply Hold].
  - intros i Hclean Hi. destruct (Er i Hi) as [[H1 H2]|H1]; auto.
Qed.

Lemma owned_admit clean g n p s' :
  owned clean g → tasks g !! n = None → try_admit (session g) p = inr s' →
  let t := {| proto := p; phase := HasSlot; slot := true; uploaded := []; delivered := []; fin := false |} in
  owned clean {| session := s'; reader := reader g; tasks := <[n := t]> (tasks g) |}.
Proof.
  intros [Hs Hu Ha Hh Hts Hr] Hn Had t. unfold try_admit in Had. destruct (_ || _); [done|].
  destruct (admission_try_admit _ _) as [|a] eqn:E; [done|]. injection Had as <-.
  assert (streams a = streams (admission (session g)) - 1 ∧
    udp_flows a = udp_flows (admission (session g)) - b2z (udp_slot t)) as [Hst Hud].
  { unfold admission_try_admit in E. repeat case_match; simplify_eq; unfold udp_slot; simpl; lia. }
  assert (∀ i, on_flow i t = false) as Hon by done.
  split; cbn [session tasks with_admission limits admission].
  - rewrite count_new by done. simpl. lia.
  - rewrite count_new by done. lia.
  - intros i Hi. rewrite count_new by done. specialize (Ha i Hi). destruct (holds i t); simpl; lia.
  - intros i. rewrite count_new by done. unfold taking at 1. rewrite Hon. apply Hh.
  - intros m u [[<- <-]|[_ ?]]%lookup_insert_Some; [done|by eapply Hts].
  - intros i Hc Hi. rewrite count_new by done. specialize (Hr i Hc Hi). destruct (owns i t); simpl; lia.
Qed.

Definition not_abort (lb : Label) : Prop := ∀ n, lb ≠ LTask n EvAbort.

Lemma owned_step clean g lb g' :
  limits_ok (limits (session g)) → session_ok (session g) → owned clean g → (clean → not_abort lb) →
  step g lb = Some g' → owned clean g'.
Proof.
  intros Hl Hok Hg Hcl Hs. pose proof (step_ok _ _ _ _ Hl (conj eq_refl Hok) Hs) as [Hlim _].
  unfold step in Hs. cbv zeta in Hs. destruct lb as [n p|n e|f|e|ok|i b|ok| | | |].
  - destruct (tasks g !! n) eqn:Hn; [done|]. destruct (try_admit _ _) as [|s'] eqn:E; [done|]. injection Hs as <-.
    by eapply owned_admit.
  - destruct (tasks g !! n) as [t|] eqn:Hn; [|done].
    destruct (task_step _ _ _) as [[[s' t'] sp]|] eqn:E; [|done].
    destruct sp as [[m u]|]; [case_bool_decide as Hm; [|done]|]; injection Hs as <-.
    + eapply (owned_task clean g n t e s' t' (Some (m, u))); try done; [|by intros ? ? [= <- <-]].
      intros Hc ->. by apply (Hcl Hc n).
    + eapply (owned_task clean g n t e s' t' None); try done. intros Hc ->. by apply (Hcl Hc n).
  - repeat case_match; simplify_eq. apply owned_calmly; [done|].
    eapply (handle_carrier_frame_stable calmly); [|done]. intros. by eapply routed_calmly.
  - repeat case_match; simplify_eq. by apply owned_calmly.
  - repeat case_match; simplify_eq; [by apply owned_calmly|]. apply owned_calmly; [done|].
    by eapply (reader_step_stable calmly).
  - injection Hs as <-. apply owned_calmly; [done|].
    destruct (route_inbound_datagram_cases (limits (session g)) i b _ (s_table _ Hok)) as [-> |(_ & Hr & Hgr)].
    + by apply stable_same.
    + split; try done. simpl. by rewrite Hr.
  - destruct (write_ping ok (session g)) as [r s'] eqn:E. apply (write_ping_stable calmly) in E.
    destruct r; injection Hs as <-; (apply owned_calmly; [done|]); [exact E|..];
      (etrans; [exact E|apply (close_stable calmly)]).
  - injection Hs as <-. apply owned_calmly; [done|]. unfold begin_drain. case_match; [done|by apply stable_same].
  - repeat case_match; simplify_eq. apply owned_calmly; [done|].
    etrans; [|apply (close_if_drained_stable calmly)]. by apply stable_same.
  - injection Hs as <-. apply owned_calmly; [done|]. apply (close_stable calmly).
  - repeat case_match; simplify_eq. apply owned_calmly; [done|]. by split.
Qed.

Lemma system_new_owned clean l : owned clean (system_new l).
Proof. split; simpl; try done; unfold count; rewrite map_fold_empty; lia. Qed.

Lemma run_owned clean l ls g :
  limits_ok l → (clean → Forall not_abort ls) → run (system_new l) ls = Some g →
  owned clean g ∧ limits (session g) = l ∧ session_ok (session g).
Proof.
  intros Hl Hls Hrun.
  refine (run_invariant (λ lb, clean → not_abort lb)
    (λ g, owned clean g ∧ limits (session g) = l ∧ session_ok (session g)) _ ls g _ _ _ Hrun).
  - intros g0 lb g1 Hlb [How Hok] Hs. split; [|by eapply step_ok]. destruct Hok as [<- Hok]. by eapply owned_step.
  - apply Forall_forall. intros lb Hin Hc. specialize (Hls Hc). rewrite Forall_forall in Hls. by apply Hls.
  - split; [apply system_new_owned|]. split; [done|]. by apply session_new_ok.
Qed.

Lemma count_empty q : count q ∅ = 0.
Proof. done. Qed.

(** With no task left nothing is buffered. *)
Lemma no_task_no_bytes clean g : owned clean g → session_ok (session g) → tasks g = ∅ → session_bytes (table (session g)) = 0.
Proof.
  intros How Hok Hn. rewrite (t_bytes _ _ (s_table _ Hok)).
  assert (∀ i ch, channels (table (session g)) !! i = Some ch → held_bytes ch = 0) as Hz.
  { intros i ch Hch. destruct (t_channels _ _ (s_table _ Hok) _ _ Hch) as [_ _ _ Hcl _].
    pose proof (ow_held _ _ How i) as Hh. unfold held_count in Hh. rewrite Hch, Hn, count_empty in Hh. simpl in Hh.
    assert (receiver ch = false) as Hrc.
    { destruct (receiver ch) eqn:E; [|done]. pose proof (ow_alive _ _ How i) as Ha. unfold alive in Ha.
      rewrite Hch, Hn, count_empty in Ha. simpl in Ha. specialize (Ha E). lia. }
    unfold held_bytes. rewrite (Hcl Hrc). destruct (held ch); [done|]. simpl in Hh. lia. }
  revert Hz. generalize (channels (table (session g))). intros m. induction m as [|i ch m Hm IH] using map_ind; [done|].
  intros Hz. rewrite session_total_new by done. rewrite (Hz i ch) by apply lookup_insert_eq. rewrite IH; [done|].
  intros j c Hj. apply (Hz j). rewrite lookup_insert_ne; [done|congruence].
Qed.

(** C12: No resource of a client session leaks, whatever the interleaving of its SOCKS
    connections, UDP workers, reader and manager.  The permits of the two flow ceilings
    are exactly those the semaphores hold and those of live tasks; every route in the
    flow table belongs to a task that will remove it, unless a worker was aborted; and
    when the last task is gone all permits are back, no byte is buffered and the flow
    table is empty. *)
Theorem client_flows_never_leak l ls g :
  limits_ok l → run (system_new l) ls = Some g →
  let s := session g in
  streams (admission s) + count slot (tasks g) = semaphore_permits (max_streams l) ∧
  udp_flows (admission s) + count udp_slot (tasks g) = semaphore_permits (max_udp_flows l) ∧
  (Forall not_abort ls → ∀ i, i ∈ routes (table s) → ∃ n t, tasks g !! n = Some t ∧ owns i t = true) ∧
  (tasks g = ∅ →
     admission s = admission_new (max_streams l) (max_udp_flows l) ∧ session_bytes (table s) = 0 ∧
     (Forall not_abort ls → routes (table s) = ∅)).
Proof.
  intros Hl Hrun s. destruct (run_owned (Forall not_abort ls) l ls g Hl (λ H, H) Hrun) as (How & Hlim & Hok).
  pose proof (ow_streams _ _ How) as Hst. pose proof (ow_udp _ _ How) as Hud. rewrite Hlim in Hst, Hud.
  assert (Forall not_abort ls → ∀ i, i ∈ routes (table s) → ∃ n t, tasks g !! n = Some t ∧ owns i t = true) as Hr.
  { intros Hc i Hi. by apply count_pos, (ow_routes _ _ How i Hc). }
  split_and!; [done|done|done|]. intros Hn. rewrite Hn, count_empty in Hst, Hud. split_and!.
  - fold s in Hst, Hud. destruct (admission s) as [a b]. unfold admission_new. simpl in *. f_equal; lia.
  - by eapply no_task_no_bytes.
  - intros Hc. apply set_eq. intros i. split; [|set_solver]. intros Hi. destruct (Hr Hc i Hi) as (n & t & Ht & _).
    by rewrite Hn, lookup_empty in Ht.
Qed.
End Ownership.

Module Demo.
Import ClientFlowsTheorems.Demo.
#[local] Existing Instance platform64.

(** Flow 1 is opened, reset by the server and taken down. *)
Definition resetting : list Label :=
  opening ++ [LFrame (frame TcpClose [0; 1]); LTask 0 (EvRecv true); LTask 0 EvDecode; LTask 0 (EvFrame Wrote true);
    LTask 0 (EvAct true)].
Definition finished : list Label := resetting ++ [LTask 0 (EvAct true); LTask 0 (EvAct true)].

Lemma client_flows_never_leak_witness :
  tasks (state demo_limits finished) = ∅ ∧ routes (table (session (state demo_limits finished))) = ∅ ∧
  admission (session (state demo_limits finished)) = admission_new 1 1.
Proof.
  assert (run (system_new demo_limits) finished = Some (state demo_limits finished)) as Hrun by (vm_compute; reflexivity).
  assert (tasks (state demo_limits finished) = ∅) as Hn by (vm_compute; reflexivity).
  assert (Forall not_abort finished) as Hna by (repeat constructor; intros n; discriminate).
  destruct (client_flows_never_leak demo_limits finished _ demo_limits_ok Hrun) as (_ & _ & _ & Hend).
  destruct (Hend Hn) as (Ha & _ & Hr). split; [exact Hn|]. split; [exact (Hr Hna)|exact Ha].
Defined.


(** An aborted UDP worker leaves its route behind: every slot is free, no task is left,
    and the table is full. *)
Lemma aborted_worker_leaks_route :
  let ls := [LAdmit 0 Udp; LTask 0 EvCheck; LTask 0 EvReserve; LTask 0 (EvSendOpen target true); LTask 0 EvAbort] in
  let g := state demo_limits ls in
  run (system_new demo_limits) ls = Some g ∧ tasks g = ∅ ∧ admission (session g) = admission_new 1 1 ∧
  closed (session g) = false ∧ routes (table (session g)) = {[ 1 ]} ∧ fst (reserve_flow Tcp (session g)) = Ok None.
Proof. split_and!; vm_compute; reflexivity. Qed.
End Demo.
End ClientOwnership.
