(* ===== verification/ClientRelay.v ===== *)
(** * ClientRelay: the byte streams of a client session

    What a TCP flow delivers to the local application and what it sends for it, over
    every interleaving of the session's tasks. *)

From S2P Require Import Prelude Wire Varint FrameCodec RustStd Endpoint TargetCodec RelayPayload Settings FrameIo.
From S2P Require Import ServerConfig Socks5 ClientSession ClientFlows ClientFlowsTheorems ClientOwnership.

Module ClientRelay.
Import FrameCodec.Frame ClientSession ClientFlows ClientFlowsTheorems ClientOwnership.

(** The bytes a frame carries downstream, and those frames carry upstream for a flow. *)
Definition data (f : Frame) : Bytes := if decide (frame_type (header f) = TcpData) then payload f else [].
Definition stream (q : list Frame) : Bytes := concat (data <$> q).
Definition sent_for (i : Z) (f : Frame) : Bytes := if decide (id (header f) = i) then data f else [].
Definition sent (i : Z) (q : list Frame) : Bytes := concat (sent_for i <$> q).

Lemma stream_app p q : stream (p ++ q) = stream p ++ stream q.
Proof. unfold stream. by rewrite fmap_app, concat_app. Qed.
Lemma stream_one f : stream [f] = data f.
Proof. unfold stream. simpl. by rewrite app_nil_r. Qed.
Lemma sent_snoc i q f : sent i (q ++ [f]) = sent i q ++ sent_for i f.
Proof. unfold sent. rewrite fmap_app, concat_app. simpl. by rewrite app_nil_r. Qed.
Lemma stream_prefix p q : p `prefix_of` q → stream p `prefix_of` stream q.
Proof. intros [k ->]. rewrite stream_app. by apply prefix_app_r. Qed.

Section Relay.
Context {P : Platform}.

Lemma chunks_fuel_concat fuel n b :
  (0 < n)%nat → (Datatypes.length b ≤ fuel)%nat → concat (chunks_fuel fuel n b) = b.
Proof.
  intros Hn. revert b. induction fuel as [|fuel IH]; intros [|x b] Hf; simpl in *; try done; [lia|].
  rewrite IH; [apply (take_drop n (x :: b))|]. rewrite length_drop. simpl. lia.
Qed.
Lemma chunks_join n b : 1 ≤ n → concat (chunks n b) = b.
Proof. intros. apply chunks_fuel_concat; lia. Qed.
Lemma flush_chunks_concat n pending : concat (flush_chunks n pending) = concat pending.
Proof.
  unfold flush_chunks. cbv zeta. induction pending as [|b pending IH]; [done|].
  rewrite bind_cons, concat_app, IH. simpl. f_equal. case_match; [simpl; apply app_nil_r|]. apply chunks_join. lia.
Qed.

(** ** Frames that carry nothing upstream *)

Definition plain (f : ErrOr Frame) : Prop := ∀ f', f = Ok f' → frame_type (header f') ≠ TcpData.

Lemma frame_new_fields t fl i b f :
  protocol_result (frame_new t fl i b) = Ok f → frame_type (header f) = t ∧ id (header f) = i ∧ payload f = b.
Proof. unfold frame_new, header_new, protocol_result. intros H. by res_inv. Qed.

Lemma plain_new t fl i b : t ≠ TcpData → plain (protocol_result (frame_new t fl i b)).
Proof. intros Ht f (<- & _)%frame_new_fields. done. Qed.
Lemma plain_bind {A} (r : ErrOr A) k : (∀ a, plain (k a)) → plain (let? a := r in k a).
Proof. intros Hk. destruct r; [apply Hk|done..]. Qed.

#[local] Hint Extern 1 (plain (protocol_result _)) => by apply plain_new : client.
#[local] Hint Extern 1 (plain (rbind _ _)) => apply plain_bind; intros ? : client.

Lemma status_frame_plain t i c : t ≠ TcpData → plain (status_frame t i c).
Proof. intros. unfold status_frame. auto with client. Qed.
Lemma close_frame_plain p i c : plain (close_frame p i c).
Proof. destruct p; unfold close_frame, tcp_close_frame, udp_close_frame; auto with client. Qed.
Lemma open_frame_plain p i tg : plain (open_frame p i tg).
Proof. destruct p; unfold open_frame, tcp_open_frame, udp_open_frame; auto with client. Qed.
Lemma flow_error_close_plain i p t : plain (flow_error_close_frame i p t).
Proof.
  unfold flow_error_close_frame.
  destruct p as [[]|]; [apply (close_frame_plain Tcp)|apply (close_frame_plain Udp)|].
  destruct t; first [apply (close_frame_plain Tcp)|apply (close_frame_plain Udp)].
Qed.

(** ** What the session shows of flow [i]: the bytes sent for it, and the frames taken *)

Definition view (s : Session) (i : Z) : Bytes * option (FlowProtocol * list Frame) :=
  (sent i (written s), (λ ch, (protocol ch, taken ch)) <$> channels (table s) !! i).

Lemma view_same s s' i : written s' = written s → table s' = table s → view s' i = view s i.
Proof. intros Hw Ht. unfold view. by rewrite Hw, Ht. Qed.
Lemma close_view s i : view (close s) i = view s i.
Proof. unfold close. destruct (closed s); by apply view_same. Qed.
Lemma close_if_drained_view s i : view (close_if_drained s) i = view s i.
Proof. unfold close_if_drained. destruct (_ && _); [apply close_view|done]. Qed.

Lemma send_plain_view ok f s i : plain f → view (snd (send ok f s)) i = view s i.
Proof.
  intros Hf. unfold send, write_frame. destruct f as [f| |]; [|done..]. destruct (closed s); [apply close_view|].
  destruct ok; [|apply close_view]. unfold view. simpl. rewrite sent_snoc. f_equal.
  unfold sent_for, data. case_decide; [|apply app_nil_r]. rewrite decide_False by (by apply Hf). apply app_nil_r.
Qed.
Lemma send_plain_eq_view ok f s r s' i : send ok f s = (r, s') → plain f → view s' i = view s i.
Proof. intros H Hf. change s' with (snd (r, s')). rewrite <-H. by apply send_plain_view. Qed.

(** A chunk of the upload is sent whole, for its flow only, or not at all. *)
Lemma send_data_view ok i b s r s' :
  send ok (tcp_data_frame i b) s = (r, s') →
  (∀ j, i ≠ j → view s' j = view s j) ∧
  view s' i = ((view s i).1 ++ match r with Ok _ => b | _ => [] end, (view s i).2).
Proof.
  unfold send. destruct (tcp_data_frame i b) as [f|e|] eqn:Hf.
  - apply frame_new_fields in Hf as (Ht & Hi & Hb). unfold write_frame.
    assert ((∀ j, i ≠ j → view (close s) j = view s j) ∧
      view (close s) i = ((view s i).1 ++ [], (view s i).2)) as Hfail.
    { split; [intros; apply close_view|]. rewrite app_nil_r, close_view. by destruct (view s i). }
    destruct (closed s); [intros [= <- <-]; apply Hfail|]. destruct ok; intros [= <- <-]; [|apply Hfail].
    unfold view. simpl. split.
    + intros j Hj. rewrite sent_snoc. unfold sent_for. rewrite decide_False by congruence. by rewrite app_nil_r.
    + rewrite sent_snoc. unfold sent_for, data. rewrite !decide_True by done. by rewrite Hb.
  - intros [= <- <-]. rewrite app_nil_r. by destruct (view s i).
  - intros [= <- <-]. rewrite app_nil_r. by destruct (view s i).
Qed.

Lemma view_put s i ch ch' n j :
  channels (table s) !! i = Some ch → protocol ch' = protocol ch → (i = j → taken ch' = taken ch) →
  view (with_table s (put_channel (table s) i ch' n)) j = view s j.
Proof.
  intros Hi Hp Ht. unfold view. simpl. f_equal. destruct (decide (i = j)) as [<-|].
  - rewrite lookup_insert_eq, Hi. simpl. by rewrite Hp, Ht.
  - by rewrite lookup_insert_ne.
Qed.
Lemma into_view s i j : view (with_table s (into_frame i (table s))) j = view s j.
Proof. unfold into_frame. repeat case_match; try (by apply view_same); by eapply view_put. Qed.
Lemma drop_receiver_view s i j : view (with_table s (drop_receiver i (table s))) j = view s j.
Proof. unfold drop_receiver. repeat case_match; try (by apply view_same); by eapply view_put. Qed.
Lemma remove_flow_view s i j : view (remove_flow i s) j = view s j.
Proof. unfold remove_flow. cbv zeta. case_match; [rewrite close_view|]; done. Qed.
Lemma withdraw_view s t j : view (withdraw s t) j = view s j.
Proof. unfold withdraw. by destruct (slot t). Qed.
Lemma drop_flow_view s i t j : view (drop_flow i s t) j = view s j.
Proof. unfold drop_flow. by rewrite withdraw_view, drop_receiver_view. Qed.

Lemma recv_view s i f tb :
  recv i (table s) = (Took f, tb) →
  (∀ j, i ≠ j → view (with_table s tb) j = view s j) ∧
  ∃ p tk, (view s i).2 = Some (p, tk) ∧ view (with_table s tb) i = ((view s i).1, Some (p, tk ++ [f])).
Proof.
  unfold recv. destruct (channels (table s) !! i) as [ch|] eqn:Hi; [|done].
  destruct (queue ch); [by case_bool_decide|]. intros [= <- <-]. split.
  - intros j Hj. unfold view. simpl. by rewrite lookup_insert_ne.
  - exists (protocol ch), (taken ch). unfold view. simpl. by rewrite Hi, lookup_insert_eq.
Qed.

(** ** The streams of a task *)

(** Which tasks are TCP and which are UDP. *)
Definition kind_ok (t : Task) : Prop :=
  match phase t with
  | Replying _ _ | Flushing _ _ | Relaying _ _ _ | FrameTaken _ _ _ _ | FrameInHand _ _ _ _ | DrainingUpload _ _
  | HandingOver _ | HandTaken _ _ | HandInHand _ _ => proto t = Tcp
  | UdpOpened _ | UdpOwner _ | UdpInbound _ | InboundTaken _ _ | InboundInHand _ _ => proto t = Udp
  | HasSlot | Checked => uploaded t = [] ∧ delivered t = []
  | _ => True
  end.

(** The frame in hand, and the bytes read that are not sent yet. *)
Definition in_hand (t : Task) : Bytes :=
  match phase t with
  | OpenTaken _ _ f | FrameTaken _ _ _ f | FrameInHand _ _ _ f | HandTaken _ f | HandInHand _ f => data f
  | _ => []
  end.
Definition unsent (t : Task) : Bytes :=
  match phase t with
  | Opening _ pending | OpenTaken _ pending _ | Replying _ pending => concat pending
  | Flushing _ chunks | DrainingUpload _ chunks => concat chunks
  | _ => []
  end.
Definition ending (t : Task) : bool := match phase t with Ending _ _ => true | _ => false end.

(** Everything taken is delivered or in hand, everything read is sent or waiting; a task
    that is taking the flow down has delivered and sent the first part of each. *)
Definition streams_ok (v : Bytes * option (FlowProtocol * list Frame)) (t : Task) : Prop :=
  ∃ tk, v.2 = Some (Tcp, tk) ∧
  if ending t then delivered t `prefix_of` stream tk ∧ v.1 `prefix_of` uploaded t
  else delivered t ++ in_hand t = stream tk ∧ v.1 ++ unsent t = uploaded t.

Lemma streams_ok_prefix v t : streams_ok v t → ∃ tk, v.2 = Some (Tcp, tk) ∧
  delivered t `prefix_of` stream tk ∧ v.1 `prefix_of` uploaded t.
Proof.
  intros (tk & Hv & H). exists tk. split; [done|]. destruct (ending t); [done|]. destruct H as [<- <-].
  split; by apply prefix_app_r.
Qed.

(** A task starts to take the flow down; it may have read or delivered a little more. *)
Lemma streams_ok_ends v t u d :
  streams_ok v t → ending t = false → ending u = true → uploaded t `prefix_of` uploaded u →
  delivered u = delivered t ++ d → d `prefix_of` in_hand t → streams_ok v u.
Proof.
  intros (tk & Hv & H) Ht Hu Hup Hd Hp. rewrite Ht in H. destruct H as [Hdl Hs]. exists tk. split; [done|]. rewrite Hu. split.
  - rewrite Hd, <-Hdl. by apply prefix_app.
  - etrans; [|exact Hup]. rewrite <-Hs. by apply prefix_app_r.
Qed.

(** A task goes on. *)
Lemma streams_ok_goes v t v' u :
  streams_ok v t → ending t = false → ending u = false → v'.2 = v.2 →
  delivered u ++ in_hand u = delivered t ++ in_hand t →
  (v.1 ++ unsent t = uploaded t → v'.1 ++ unsent u = uploaded u) → streams_ok v' u.
Proof.
  intros (tk & Hv & H) Ht Hu Hv2 Hd Hs. rewrite Ht in H. destruct H as [H1 H2]. exists tk. rewrite Hv2, Hu. split; [done|].
  split; [congruence|auto].
Qed.

(** A frame is taken from the queue. *)
Lemma streams_ok_takes v t p tk f u :
  streams_ok v t → ending t = false → ending u = false → v.2 = Some (p, tk) → in_hand t = [] → in_hand u = data f →
  delivered u = delivered t → unsent u = unsent t → uploaded u = uploaded t → streams_ok (v.1, Some (p, tk ++ [f])) u.
Proof.
  intros (tk0 & Hv & H) Ht Hu Hv2 Hh Hf Hd Hs Hup. rewrite Ht in H. destruct H as [H1 H2]. rewrite Hv in Hv2.
  injection Hv2 as <- <-. exists (tk0 ++ [f]). split; [done|]. rewrite Hu, Hf, Hd, Hs, Hup. split; [|done].
  rewrite stream_app, stream_one, <-H1, Hh, app_nil_r. done.
Qed.
Lemma streams_ok_nothing v t : streams_ok v t → streams_ok (v.1 ++ [], v.2) t.
Proof. rewrite app_nil_r. by destruct v. Qed.

Lemma data_payload f : frame_type (header f) = TcpData → data f = payload f.
Proof. intros. unfold data. by rewrite decide_True. Qed.
Lemma data_none f : frame_type (header f) ≠ TcpData → data f = [].
Proof. intros. unfold data. by rewrite decide_False. Qed.
Lemma accepted_empty f : decode_open_response f = Ok Accepted → data f = [].
Proof.
  unfold decode_open_response. destruct (frame_type (header f)) eqn:E; intros H; try (apply data_none; congruence).
  case_bool_decide as Hp; [|done]. by rewrite data_payload.
Qed.

Lemma send_udp_data_view d ok i b s r s' j : send_udp_data d ok i b s = (r, s') → view s' j = view s j.
Proof.
  unfold send_udp_data. destruct d; [by intros [= _ <-]|]. destruct (negb _); [by intros [= _ <-]|].
  intros H. eapply send_plain_eq_view; [done|]. by apply plain_new.
Qed.

(** Only reserving a flow hands out an id. *)
Lemma close_next s : next_flow_id (close s) = next_flow_id s.
Proof. unfold close. by destruct (closed s). Qed.
Lemma send_next ok f s : next_flow_id (snd (send ok f s)) = next_flow_id s.
Proof. unfold send, write_frame. destruct f; [|done..]. destruct (closed s), ok; try apply close_next; done. Qed.
Lemma send_eq_next ok f s r s' : send ok f s = (r, s') → next_flow_id s' = next_flow_id s.
Proof. intros H. change s' with (snd (r, s')). rewrite <-H. apply send_next. Qed.
Lemma send_udp_next d ok i b s r s' : send_udp_data d ok i b s = (r, s') → next_flow_id s' = next_flow_id s.
Proof. unfold send_udp_data. repeat case_match; [by intros [= _ <-]..|apply send_eq_next]. Qed.
Lemma remove_flow_next i s : next_flow_id (remove_flow i s) = next_flow_id s.
Proof. unfold remove_flow. cbv zeta. case_match; [by rewrite close_next|done]. Qed.
Lemma withdraw_next s t : next_flow_id (withdraw s t) = next_flow_id s.
Proof. unfold withdraw. by destruct (slot t). Qed.
Lemma drop_flow_next i s t : next_flow_id (drop_flow i s t) = next_flow_id s.
Proof. unfold drop_flow. by rewrite withdraw_next. Qed.

Ltac nexts :=
  first [ reflexivity | apply send_next | apply remove_flow_next | apply withdraw_next | apply drop_flow_next
        | eapply send_eq_next; eassumption | eapply send_udp_next; eassumption ].

Ltac plains :=
  first [apply close_frame_plain | apply (close_frame_plain Tcp) | apply open_frame_plain | by apply status_frame_plain].
Ltac views :=
  first
    [ reflexivity | apply drop_flow_view | apply remove_flow_view | apply into_view | apply withdraw_view
    | apply send_plain_view; plains
    | eapply send_plain_eq_view; [eassumption|plains]
    | eapply send_udp_data_view; eassumption
    | match goal with H : send _ (tcp_data_frame _ _) _ = _ |- _ => apply (send_data_view _ _ _ _ _ _ H); congruence end
    | match goal with H : recv _ _ = (Took _, _) |- _ => apply (recv_view _ _ _ _ H); congruence end ].

(** Closing the cases of [task_step_streams]: the phase of the task is [Hp], its streams
    are in step by [Hst]. *)
Ltac stream_eqs Hp :=
  unfold in_hand, unsent, ending, at_phase, reads, delivers, ends_stream, without_slot;
  cbn [phase uploaded delivered]; rewrite ?Hp; cbn [concat fst snd];
  rewrite ?flush_chunks_concat, ?concat_app, ?chunks_join by lia;
  rewrite ?(data_payload _ ltac:(eassumption)), ?(accepted_empty _ ltac:(eassumption));
  try match goal with H : frame_type (header ?f) = _ |- context [data ?f] => rewrite (data_none f) by (rewrite H; discriminate) end;
  try match goal with H : payload ?f = [] |- context [payload ?f] => rewrite H end;
  cbn [concat]; rewrite ?app_nil_r.
Ltac stream_ends Hp Hst d :=
  apply (streams_ok_ends _ _ _ d Hst); stream_eqs Hp;
  first [done | apply prefix_app_r; done | apply prefix_nil | apply prefix_take].
Ltac stream_goes Hp Hst :=
  apply (streams_ok_goes _ _ _ _ Hst); stream_eqs Hp; first [done | congruence | intros <-; by rewrite <-?app_assoc].
Ltac stream_moves Hp Hst :=
  first
    [ stream_goes Hp Hst | stream_ends Hp Hst (@nil Z)
    | match goal with f : Frame |- _ => stream_ends Hp Hst (payload f) end
    | match goal with f : Frame, n : nat |- _ => stream_ends Hp Hst (take n (payload f)) end
    | destruct Hst as (tk & ? & Hx); exists tk; split; [done|]; unfold ending in Hx; rewrite Hp in Hx; done ].
Ltac stream_case Hp Hst :=
  match type of Hst with streams_ok (view ?s ?i) _ =>
    first
      [ match goal with H : recv i _ = (Took _, _) |- _ =>
          destruct (recv_view _ _ _ _ H) as [_ (? & ? & Hv2 & ->)]; apply (streams_ok_takes _ _ _ _ _ _ Hst); try done;
          stream_eqs Hp; done end
      | match goal with H : send _ (tcp_data_frame i _) _ = _ |- _ =>
          destruct (send_data_view _ _ _ _ _ _ H) as [_ ->]; first [apply streams_ok_nothing; stream_moves Hp Hst|stream_goes Hp Hst]
        end
      | match goal with |- streams_ok (view ?s' i) _ => replace (view s' i) with (view s i) by (symmetry; views) end;
        stream_moves Hp Hst ]
  end.

Section Steps.
Context (s : Session) (t : Task) (Hk : kind_ok t).

(** Every phase but [Checked] leaves the other flows alone. *)
Lemma task_step_elsewhere e s' t' sp j :
  phase t ≠ Checked → task_step s t e = Some (s', t', sp) →
  next_flow_id s' = next_flow_id s ∧ (flow_of t ≠ Some j → view s' j = view s j).
Proof.
  intros Hnc H. unfold task_step in H. unfold flow_of.
  destruct e, (phase t) eqn:Hp; try done;
    unfold open_step, wait_step, relay_step, relay_frame, drain_step, hand_over_step, udp_step, inbound_step, act_step,
      abort_step in H; rewrite ?Hp in H; task_cases H.
  all: split; [nexts|intros Hj; views].
Qed.

Lemma task_step_kind e s' t' sp :
  phase t ≠ Checked → task_step s t e = Some (s', t', sp) →
  (∀ u, t' = Some u → flow_of u = flow_of t ∧ proto u = proto t ∧ kind_ok u) ∧
  (∀ n u, sp = Some (n, u) → flow_of u = flow_of t ∧ proto u = Udp ∧ proto t = Udp ∧ kind_ok u).
Proof.
  intros Hnc H. unfold task_step in H. unfold kind_ok, flow_of in *.
  destruct e, (phase t) eqn:Hp; try done;
    unfold open_step, wait_step, relay_step, relay_frame, drain_step, hand_over_step, udp_step, inbound_step, act_step,
      abort_step in H; rewrite ?Hp in H; task_cases H;
    (split; [intros u [= <-]; simpl; rewrite ?Hp; auto|try (intros n u [= <- <-]; simpl; auto)]).
Qed.

(** The streams of a TCP task stay in step with what the session sent and took. *)
Lemma task_step_streams i e s' u sp :
  phase t ≠ Checked → proto t = Tcp → flow_of t = Some i → streams_ok (view s i) t →
  task_step s t e = Some (s', Some u, sp) → streams_ok (view s' i) u.
Proof.
  intros Hnc Htcp Hi Hst H. unfold task_step in H. unfold flow_of in Hi. unfold kind_ok in Hk.
  destruct e, (phase t) eqn:Hp; try done;
    unfold open_step, wait_step, relay_step, relay_frame, drain_step, hand_over_step, udp_step, inbound_step, act_step,
      abort_step in H; rewrite ?Hp in H; task_cases H; try congruence.
  all: repeat match goal with
    | H : bool_decide _ = true |- _ => apply bool_decide_eq_true in H
    | H : negb (bool_decide _) = false |- _ => apply negb_false_iff, bool_decide_eq_true in H
    end.
  all: stream_case Hp Hst.
Qed.

End Steps.

Definition plain_todo (td : Todo) : Prop := match td with Send f | Report f => plain f | _ => True end.
Definition plain_reader (r : Reader) : Prop := match r with Reading todo => Forall plain_todo todo | Stopped => True end.

(** Flow ids identify TCP tasks; nothing was sent for an id not handed out; the streams
    of every TCP task are in step. *)
Record relaying (g : System) : Prop := {
  rl_flow n t i : tasks g !! n = Some t → flow_of t = Some i → i < next_flow_id (session g);
  rl_single n m t u i : tasks g !! n = Some t → tasks g !! m = Some u → flow_of t = Some i → flow_of u = Some i →
    proto t = Tcp → n = m;
  rl_kind n t : tasks g !! n = Some t → kind_ok t;
  rl_sent i : next_flow_id (session g) ≤ i → sent i (written (session g)) = [];
  rl_streams n t i : tasks g !! n = Some t → proto t = Tcp → flow_of t = Some i → streams_ok (view (session g) i) t;
  rl_reader : plain_reader (reader g)
}.

Lemma relaying_session g s' r :
  relaying g → (∀ i, view s' i = view (session g) i) → next_flow_id s' = next_flow_id (session g) → plain_reader r →
  relaying {| session := s'; reader := r; tasks := tasks g |}.
Proof.
  intros [Hf H1 Hk Hs Hst Hr] Hv Hn Hpr. split; simpl; rewrite ?Hn; try done.
  - intros i Hi. specialize (Hv i). injection Hv as -> _. by apply Hs.
  - intros n t i ? ? ?. rewrite Hv. by eapply Hst.
Qed.

Lemma grips_view s s' i : grips (table s') i = grips (table s) i → written s' = written s → view s' i = view s i.
Proof.
  unfold grips, view. intros Hg ->. f_equal.
  destruct (channels (table s') !! i), (channels (table s) !! i); simpl in *; congruence.
Qed.

Lemma handle_carrier_frame_relays f s todo s' :
  session_ok s → handle_carrier_frame f s = (todo, s') →
  (∀ i, view s' i = view s i) ∧ next_flow_id s' = next_flow_id s ∧ Forall plain_todo todo.
Proof.
  intros Hok. unfold handle_carrier_frame. cbv zeta.
  assert (∀ e, Forall plain_todo [report_protocol_error; Break e]) as Herr.
  { intros e. repeat constructor. by apply status_frame_plain. }
  assert (∀ p r t', route_flow_frame (limits s) f (log_arrival f (table s)) = (p, r, t') →
    (∀ i, view (with_table s t') i = view s i)) as Hroute.
  { intros p r t' Hr i. apply route_flow_frame_cases in Hr; [|apply Hok]. apply grips_view; [|done]. simpl.
    destruct Hr as [(_ & _ & ->)|[(_ & _ & ->)|(_ & _ & _ & Hg)]]; [apply grips_log|by rewrite grips_log|apply Hg]. }
  destruct (frame_type (header f));
    try (destruct (validate_server_flow_frame f); [|intros [= <- <-]; split; [done|split; [done|first [apply Herr|by repeat constructor]]]..];
         destruct (is_connection_error_frame f); [intros [= <- <-]; split; [done|split; [done|by repeat constructor]]|];
         destruct (route_flow_frame _ _ _) as [[p r] t'] eqn:Hr; intros [= <- <-];
         split; [by eapply Hroute|split; [done|]];
         destruct r; auto; repeat constructor; (by apply status_frame_plain) || apply flow_error_close_plain);
    try (intros [= <- <-]; split; [done|split; [done|apply Herr]]);
    (destruct (validate_connection_frame _ _); intros [= <- <-]; (split; [done|split; [done|]]);
     [|apply Herr|by repeat constructor]); repeat constructor; by apply plain_new.
Qed.

(** What a step of the reader, the keepalive or the manager leaves alone. *)
Definition unseen (s s' : Session) : Prop := (∀ i, view s' i = view s i) ∧ next_flow_id s' = next_flow_id s.

#[local] Instance unseen_pre : PreOrder unseen.
Proof. split; [done|]. intros s1 s2 s3 [H1 H2] [H3 H4]. split; [intros i; by rewrite H3, H1|congruence]. Qed.
Lemma unseen_same s s' :
  written s' = written s → table s' = table s → next_flow_id s' = next_flow_id s → unseen s s'.
Proof. intros ? ? ?. split; [|done]. intros i. by apply view_same. Qed.
Lemma close_unseen s : unseen s (close s).
Proof. unfold close. destruct (closed s); by apply unseen_same. Qed.
Lemma close_if_drained_unseen s : unseen s (close_if_drained s).
Proof. unfold close_if_drained. destruct (_ && _); [apply close_unseen|done]. Qed.
Lemma send_unseen ok f s : plain f → unseen s (snd (send ok f s)).
Proof.
  intros Hf. split; [intros i; by apply send_plain_view|apply send_next].
Qed.
Lemma send_eq_unseen ok f s r s' : plain f → send ok f s = (r, s') → unseen s s'.
Proof. intros Hf H. change s' with (snd (r, s')). rewrite <-H. by apply send_unseen. Qed.

Lemma reader_step_unseen ok td rest s r s' :
  Forall plain_todo (td :: rest) → reader_step ok td rest s = (r, s') → unseen s s' ∧ plain_reader r.
Proof.
  intros [Htd Hrest]%Forall_cons. unfold reader_step. destruct td as [f|f| |e|].
  - destruct (send ok f s) as [[]] eqn:E; intros [= <- <-]; (split; [|done]);
      [by eapply send_eq_unseen| |by eapply send_eq_unseen]. etrans; [by eapply send_eq_unseen|apply close_unseen].
  - intros [= <- <-]. split; [by apply send_unseen|done].
  - intros [= <- <-]. split; [apply close_if_drained_unseen|done].
  - intros [= <- <-]. split; [apply close_unseen|done].
  - intros [= <- <-]. by split.
Qed.

Lemma write_ping_unseen ok s r s' : write_ping ok s = (r, s') → unseen s s'.
Proof.
  unfold write_ping. cbv zeta. destruct (next_keepalive_nonce _) as [nonce|]; [|by intros [= _ <-]].
  set (s1 := with_ping s _). assert (unseen s s1) as H1 by (by apply unseen_same).
  pose proof (plain_new Ping 0 0 (be_encode 8 nonce) ltac:(done)) as Hpl.
  destruct (protocol_result _) as [f|e|]; [|by intros [= _ <-]..].
  change (write_frame ok f s1) with (send ok (Ok f) s1). destruct (send ok (Ok f) s1) as [r' s2] eqn:E.
  apply send_eq_unseen in E; [|done]. assert (unseen s s2) by (by etrans).
  destruct r'; intros [= _ <-]; [done| |done]. etrans; [done|by apply unseen_same].
Qed.

Lemma relaying_reserve g n t s' i :
  session_ok (session g) → relaying g → tasks g !! n = Some t → phase t = Checked →
  reserve_flow (proto t) (session g) = (Ok (Some i), s') →
  relaying {| session := s'; reader := reader g; tasks := <[n := at_phase t (Reserved i)]> (tasks g) |}.
Proof.
  intros Hok [Hf H1 Hk Hs Hst Hr] Hn Hp Hres.
  destruct (reserve_flow_cases _ _ _ _ Hok Hres) as (_ & Hw & [(Hne & _)|(i' & [= <-] & -> & Hnx & Htb & Hnone)]);
    [by destruct (Hne i)|]. set (i := next_flow_id (session g)) in *.
  pose proof (Hk _ _ Hn) as Ht. unfold kind_ok in Ht. rewrite Hp in Ht. destruct Ht as [Hup Hdl].
  assert (∀ j, i ≠ j → view s' j = view (session g) j) as Hv.
  { intros j Hj. unfold view. rewrite Hw, Htb. simpl. by rewrite lookup_insert_ne. }
  assert (∀ m u j, tasks g !! m = Some u → flow_of u = Some j → i ≠ j) as Hold.
  { intros m u j Hm Hj Hij. specialize (Hf m u j Hm Hj). lia. }
  split; simpl; rewrite ?Hnx.
  - intros m u j [[<- <-]|[_ Hm]]%lookup_insert_Some; [intros [= <-]; lia|]. intros Hj. specialize (Hf m u j Hm Hj). lia.
  - intros m1 m2 t1 t2 j [[<- <-]|[Hn1 Hm1]]%lookup_insert_Some [[<- <-]|[Hn2 Hm2]]%lookup_insert_Some Hj1 Hj2 Htcp; try done.
    + injection Hj1 as <-. by destruct (Hold _ _ _ Hm2 Hj2).
    + injection Hj2 as <-. by destruct (Hold _ _ _ Hm1 Hj1).
    + by eapply (H1 m1 m2 t1 t2).
  - intros m u [[<- <-]|[_ Hm]]%lookup_insert_Some; [done|by eapply Hk].
  - intros j Hj. rewrite Hw. apply Hs. lia.
  - intros m u j [[<- <-]|[_ Hm]]%lookup_insert_Some Htcp Hj.
    + injection Hj as <-. simpl in Htcp. exists []. unfold view. rewrite Hw, Htb, Hs by done. simpl.
      rewrite lookup_insert_eq. simpl. rewrite Htcp, Hup, Hdl. done.
    + rewrite Hv by (by eapply Hold). by eapply Hst.
  - done.
Qed.

Lemma lookup_tasks (t' : option Task) (sp : option (nat * Task)) n (m : nat) (u : Task) (ts : gmap nat Task) :
  match sp with Some (k, v) => <[k := v]> (partial_alter (λ _, t') n ts) | None => partial_alter (λ _, t') n ts end !! m = Some u →
  m = n ∧ t' = Some u ∨ sp = Some (m, u) ∨ m ≠ n ∧ ts !! m = Some u.
Proof.
  assert (partial_alter (λ _, t') n ts !! m = Some u → m = n ∧ t' = Some u ∨ m ≠ n ∧ ts !! m = Some u) as H0.
  { destruct (decide (n = m)) as [<-|]; [rewrite lookup_partial_alter_eq; auto|].
    rewrite lookup_partial_alter_ne by done. auto. }
  destruct sp as [[k v]|]; [|naive_solver]. intros [[<- <-]|[_ H]]%lookup_insert_Some; naive_solver.
Qed.

Lemma relaying_task g n t e s' t' sp :
  session_ok (session g) → relaying g → tasks g !! n = Some t → phase t ≠ Checked →
  task_step (session g) t e = Some (s', t', sp) →
  let ts := partial_alter (λ _, t') n (tasks g) in
  relaying {| session := s'; reader := reader g; tasks := match sp with Some (m, u) => <[m := u]> ts | None => ts end |}.
Proof.
  intros Hok [Hf H1 Hk Hs Hst Hr] Hn Hnc Hstep ts. pose proof (Hk _ _ Hn) as Hkt.
  destruct (task_step_kind _ _ Hkt _ _ _ _ Hnc Hstep) as [Hu Hsp].
  assert (next_flow_id s' = next_flow_id (session g)) as Hnx by apply (task_step_elsewhere _ _ _ _ _ _ 0 Hnc Hstep).
  assert (∀ j, flow_of t ≠ Some j → view s' j = view (session g) j) as Hv.
  { intros j. apply (task_step_elsewhere _ _ _ _ _ _ j Hnc Hstep). }
  assert (∀ m u j, match sp with Some (k, v) => <[k := v]> ts | None => ts end !! m = Some u → flow_of u = Some j →
    (flow_of t = Some j ∧ (proto u = Tcp → proto t = Tcp) ∧ (proto t = Tcp → m = n ∧ t' = Some u)) ∨ m ≠ n ∧ tasks g !! m = Some u) as Hcase.
  { intros m u j [[-> ->]|[->|[? ?]]]%lookup_tasks Hj; [| |by right]; left.
    - destruct (Hu u eq_refl) as (Hfl & Hp & _). rewrite <-Hfl, <-Hp. done.
    - destruct (Hsp m u eq_refl) as (Hfl & Hp & Hpt & _). rewrite <-Hfl, Hp, Hpt. done. }
  split; simpl; rewrite ?Hnx.
  - intros m u j Hm Hj. destruct (Hcase m u j Hm Hj) as [[Hfl _]|[_ Hold]]; by eapply Hf.
  - intros m1 m2 t1 t2 j Hm1 Hm2 Hj1 Hj2 Htcp.
    destruct (Hcase m1 t1 j Hm1 Hj1) as [(Hfl1 & Hx1 & Hy1)|[Hne1 Hold1]].
    + destruct (Hy1 (Hx1 Htcp)) as [-> _]. destruct (Hcase m2 t2 j Hm2 Hj2) as [(_ & _ & Hy2)|[Hne2 Hold2]].
      * by destruct (Hy2 (Hx1 Htcp)) as [-> _].
      * specialize (Hx1 Htcp). by eapply (H1 n m2 t t2).
    + destruct (Hcase m2 t2 j Hm2 Hj2) as [[Hfl2 _]|[Hne2 Hold2]]; [|by eapply (H1 m1 m2 t1 t2)].
      destruct Hne1. by eapply (H1 m1 n t1 t).
  - intros m u [[-> ->]|[->|[_ Hm]]]%lookup_tasks; [by destruct (Hu u eq_refl) as (_ & _ & ?)| |by eapply Hk].
    by destruct (Hsp m u eq_refl) as (_ & _ & _ & ?).
  - intros j Hj. assert (view s' j = view (session g) j) as E.
    { apply Hv. intros Hfl. specialize (Hf _ _ _ Hn Hfl). lia. }
    injection E as -> _. by apply Hs.
  - intros m u j Hm Htcp Hj. destruct (Hcase m u j Hm Hj) as [(Hfl & Hx & Hy)|[Hne Hold]].
    + destruct (Hy (Hx Htcp)) as [-> ->]. specialize (Hx Htcp). eapply task_step_streams; try done. by eapply Hst.
    + rewrite Hv; [by eapply Hst|]. intros Hfl. by destruct Hne; eapply (H1 m n u t).
  - done.
Qed.

Lemma relaying_checked g n t e s' t' sp :
  session_ok (session g) → relaying g → tasks g !! n = Some t → phase t = Checked →
  task_step (session g) t e = Some (s', t', sp) →
  let ts := partial_alter (λ _, t') n (tasks g) in
  relaying {| session := s'; reader := reader g; tasks := match sp with Some (m, u) => <[m := u]> ts | None => ts end |}.
Proof.
  intros Hok Hg Hn Hp Hstep ts.
  assert (∀ s1, unseen (session g) s1 → relaying {| session := s1; reader := reader g; tasks := delete n (tasks g) |}) as Hgone.
  { intros s1 [Hv Hnx]. destruct Hg as [Hf H1 Hk Hs Hst Hr]. split; simpl; rewrite ?Hnx; try done.
    - intros m u j [_ Hm]%lookup_delete_Some. by eapply Hf.
    - intros m1 m2 t1 t2 j [_ Hm1]%lookup_delete_Some [_ Hm2]%lookup_delete_Some. by eapply H1.
    - intros m u [_ Hm]%lookup_delete_Some. by eapply Hk.
    - intros j Hj. specialize (Hv j). injection Hv as -> _. by apply Hs.
    - intros m u j [_ Hm]%lookup_delete_Some. rewrite Hv. by eapply Hst. }
  assert (∀ s1, unseen s1 (withdraw s1 t)) as Hw by (intros s1; split; [intros; apply withdraw_view|apply withdraw_next]).
  unfold task_step, open_step, abort_step in Hstep. rewrite Hp in Hstep. destruct e; try done.
  - destruct (reserve_flow _ _) as [r s1] eqn:Hr. destruct (reserve_flow_cases _ _ _ _ Hok Hr) as (_ & Hwr & [(Hne & Htb & Hnx)|Hi]).
    + assert (Some (withdraw s1 t, @None Task, @None (nat * Task)) = Some (s', t', sp)) as [= <- <- <-].
      { rewrite <-Hstep. destruct r as [[i|]| |]; [by destruct (Hne i)|done..]. }
      apply Hgone. etrans; [|apply Hw]. by apply unseen_same.
    + destruct Hi as (i & -> & _). injection Hstep as <- <- <-. by apply relaying_reserve.
  - destruct (proto t); [done|]. injection Hstep as <- <- <-. by apply Hgone.
Qed.

Lemma relaying_admit g n s' p :
  relaying g → unseen (session g) s' →
  let t := {| proto := p; phase := HasSlot; slot := true; uploaded := []; delivered := []; fin := false |} in
  relaying {| session := s'; reader := reader g; tasks := <[n := t]> (tasks g) |}.
Proof.
  intros [Hf H1 Hk Hs Hst Hr] [Hv Hnx] t. split; simpl; rewrite ?Hnx; try done.
  - intros m u j [[<- <-]|[_ Hm]]%lookup_insert_Some; [done|by eapply Hf].
  - intros m1 m2 t1 t2 j [[<- <-]|[_ Hm1]]%lookup_insert_Some [[<- <-]|[_ Hm2]]%lookup_insert_Some; try done.
    by eapply (H1 m1 m2 t1 t2).
  - intros m u [[<- <-]|[_ Hm]]%lookup_insert_Some; [done|by eapply Hk].
  - intros j Hj. specialize (Hv j). injection Hv as -> _. by apply Hs.
  - intros m u j [[<- <-]|[_ Hm]]%lookup_insert_Some; [done|]. rewrite Hv. by eapply Hst.
Qed.

Lemma relaying_step g lb g' : session_ok (session g) → relaying g → step g lb = Some g' → relaying g'.
Proof.
  intros Hok Hg Hs. pose proof (rl_reader _ Hg) as Hpr. unfold step in Hs. cbv zeta in Hs.
  assert (∀ s' r, unseen (session g) s' → plain_reader r →
    relaying {| session := s'; reader := r; tasks := tasks g |}) as Hun.
  { intros s' r [? ?] ?. by apply relaying_session. }
  destruct lb as [n p|n e|f|e|ok|i b|ok| | | |].
  - destruct (tasks g !! n); [done|]. destruct (try_admit _ _) eqn:E; [done|]. injection Hs as <-.
    apply relaying_admit; [done|]. unfold try_admit in E. repeat case_match; simplify_eq. by apply unseen_same.
  - destruct (tasks g !! n) as [t|] eqn:Hn; [|done].
    destruct (task_step _ _ _) as [[[s' t'] sp]|] eqn:E; [|done].
    assert (g' = {| session := s'; reader := reader g; tasks :=
      match sp with Some (m, u) => <[m := u]> (partial_alter (λ _, t') n (tasks g)) | None => partial_alter (λ _, t') n (tasks g) end |})
      as -> by (repeat case_match; congruence).
    assert (phase t = Checked ∨ phase t ≠ Checked) as [Hp|Hp] by (destruct (phase t); auto).
    2:{ by eapply relaying_task. }
    clear Hs. by eapply relaying_checked.
  - rewrite (surjective_pairing (handle_carrier_frame f (session g))) in Hs. repeat case_match; simplify_eq.
    destruct (handle_carrier_frame_relays f (session g) _ _ Hok (surjective_pairing _)) as (Hv & Hnx & Hpl). by apply Hun.
  - destruct (reader g) as [[|]|] eqn:Hrd; [|done..]. injection Hs as <-. apply Hun; [done|].
    destruct e; repeat constructor. by apply status_frame_plain.
  - destruct (reader g) as [[|td rest]|] eqn:Hrd; [|..|done].
    + destruct (closed _); [|done]. injection Hs as <-. by apply Hun.
    + destruct (reader_step ok td rest (session g)) as [r s'] eqn:E. injection Hs as <-.
      destruct (reader_step_unseen _ _ _ _ _ _ Hpr E). by apply Hun.
  - injection Hs as <-. apply Hun; [|done].
    destruct (route_inbound_datagram_cases (limits (session g)) i b _ (s_table _ Hok)) as [-> |(_ & _ & Hgr)].
    + by apply unseen_same.
    + split; [|done]. intros j. by apply grips_view.
  - destruct (write_ping ok (session g)) as [r s'] eqn:E. apply write_ping_unseen in E.
    destruct r; injection Hs as <-; (apply Hun; [|done]); [exact E|..]; (etrans; [exact E|apply close_unseen]).
  - injection Hs as <-. apply Hun; [|done]. unfold begin_drain. case_match; [done|by apply unseen_same].
  - destruct (checks _); [done|]. injection Hs as <-. apply Hun; [|done].
    etrans; [|apply close_if_drained_unseen]. by apply unseen_same.
  - injection Hs as <-. apply Hun; [|done]. apply close_unseen.
  - destruct (clearing _); [|done]. injection Hs as <-. apply Hun; [|done]. by split.
Qed.

Lemma reachable_relaying l g : limits_ok l → reachable l g → relaying g ∧ session_ok (session g).
Proof.
  intros Hl (ls & Hrun).
  refine (proj1 (_ : (relaying g ∧ session_ok (session g)) ∧ limits (session g) = l)).
  refine (run_invariant (λ _, True) (λ g, (relaying g ∧ session_ok (session g)) ∧ limits (session g) = l) _ ls g _ _ _ Hrun).
  - intros g0 lb g1 _ [[Hr Hok] Hlim] Hs. destruct (step_ok l g0 lb g1 Hl (conj Hlim Hok) Hs) as [? ?].
    split; [|done]. split; [exact (relaying_step g0 lb g1 Hok Hr Hs)|done].
  - by apply Forall_true.
  - split; [|done]. split; [|by apply session_new_ok]. split; simpl; try done; intros; by rewrite lookup_empty in *.
Qed.

(** C9: A SOCKS connection relays its two byte streams exactly, whatever runs beside it.
    What the local application has received is, in order and without a gap, the first
    part of the data the server sent on the flow; what the client has sent on the flow
    is the first part of what the application wrote.  Until the connection is taken
    down nothing is missing: every byte the application wrote is sent or waits to be,
    and as long as the route stands every byte that arrived is delivered, in hand or
    queued. *)
Theorem client_relay_exact l g n t i :
  limits_ok l → reachable l g → tasks g !! n = Some t → proto t = Tcp → flow_of t = Some i →
  let s := session g in
  ∃ ch, channels (table s) !! i = Some ch ∧
    delivered t `prefix_of` stream (arrived ch) ∧ sent i (written s) `prefix_of` uploaded t ∧
    (ending t = false →
       sent i (written s) ++ unsent t = uploaded t ∧
       (i ∈ routes (table s) → receiver ch = true →
          delivered t ++ in_hand t ++ stream (queue ch) = stream (arrived ch))).
Proof.
  intros Hl Hr Hn Htcp Hi s. destruct (reachable_relaying l g Hl Hr) as [Hrel Hok].
  pose proof (rl_streams _ Hrel n t i Hn Htcp Hi) as Hst. destruct (streams_ok_prefix _ _ Hst) as (tk & Hv & Hd & Hu).
  unfold view in Hv. simpl in Hv. destruct (channels (table (session g)) !! i) as [ch|] eqn:Hch; [|done].
  injection Hv as Hpr <-. pose proof (ch_order _ _ (t_channels _ _ (s_table _ Hok) _ _ Hch) Hpr) as Hord.
  exists ch. split_and!; [done| |done|].
  - etrans; [exact Hd|]. etrans; [|by apply stream_prefix]. rewrite stream_app. by apply prefix_app_r.
  - intros He. destruct Hst as (tk & Hv & Hx). rewrite He in Hx. unfold view in Hv, Hx. simpl in Hv, Hx.
    rewrite Hch in Hv. injection Hv as _ <-. destruct Hx as [Hx1 Hx2]. split; [done|]. intros Hrt Hrc.
    destruct (t_routes _ _ (s_table _ Hok) _ Hrt) as (_ & c & Hc & Hcomp). rewrite Hch in Hc. injection Hc as <-.
    by rewrite app_assoc, Hx1, <-stream_app, Hcomp.
Qed.

End Relay.

Module Demo.
Import ClientFlowsTheorems.Demo.
#[local] Existing Instance platform64.

Definition relaying_task : Task :=
  {| proto := Tcp; phase := FrameInHand 1 true true (frame TcpData [7; 8; 9]); slot := true; uploaded := [1; 2];
     delivered := []; fin := false |}.

Lemma client_relay_exact_witness :
  let s := session (state demo_limits receiving) in
  ∃ ch, channels (table s) !! 1 = Some ch ∧
    delivered relaying_task `prefix_of` stream (arrived ch) ∧ sent 1 (written s) `prefix_of` uploaded relaying_task ∧
    (ending relaying_task = false →
       sent 1 (written s) ++ unsent relaying_task = uploaded relaying_task ∧
       (1 ∈ routes (table s) → receiver ch = true →
          delivered relaying_task ++ in_hand relaying_task ++ stream (queue ch) = stream (arrived ch))).
Proof.
  apply (client_relay_exact demo_limits (state demo_limits receiving) 0%nat relaying_task 1 demo_limits_ok receiving_reachable).
  - vm_compute. reflexivity.
  - reflexivity.
  - reflexivity.
Defined.

End Demo.
End ClientRelay.
