(* ===== verification/ClientDrain.v ===== *)
(** * ClientDrain: a drained client session closes

    A session replaced by a reload takes no new flow and must close with its last one. *)

From S2P Require Import Prelude Wire Varint FrameCodec RustStd Endpoint TargetCodec RelayPayload Settings FrameIo.
From S2P Require Import ServerConfig Socks5 ClientSession ClientFlows ClientFlowsTheorems ClientOwnership.

Module ClientDrain.
Import FrameCodec.Frame ClientSession ClientFlows ClientFlowsTheorems ClientOwnership.

Section Drain.
Context {P : Platform}.

(** ** The sends of the reader do not panic *)

#[local] Hint Resolve validate_flags_Panic Varint.encode_Panic Varint.encoded_len_Panic : no_panic.

Lemma frame_new_total t fl i b : frame_new t fl i b ≠ Panic.
Proof. unfold frame_new, header_new. no_panic. Qed.
#[local] Hint Resolve frame_new_total : no_panic.
Lemma status_frame_total t i c : status_frame t i c ≠ Panic.
Proof. unfold status_frame, protocol_result, Status.error_encode. no_panic. Qed.
Lemma flow_error_close_total i p t : flow_error_close_frame i p t ≠ Panic.
Proof.
  assert (∀ c, tcp_close_frame i c ≠ Panic ∧ udp_close_frame i c ≠ Panic) as H.
  { intros c. unfold tcp_close_frame, udp_close_frame, protocol_result, Tcp.close_encode, Udp.close_encode,
      Tcp.validate_close_code, Udp.validate_close_code. split; no_panic. }
  unfold flow_error_close_frame. destruct p as [[]|]; [apply H|apply H|]. destruct t; apply H.
Qed.

(** ** What a step does to a draining session *)

(** Nothing of the drain is undone, and the flow table is emptied only by closing. *)
Record drains (s s' : Session) : Prop := {
  dn_draining : draining s' = draining s;
  dn_checks : checks s' = checks s;
  dn_closed : closed s = true → closed s' = true;
  dn_clearing : (clearing s = true → closed s = true) → clearing s' = true → closed s' = true;
  dn_routes : draining s = true → routes (table s') = ∅ → routes (table s) = ∅ ∨ closed s' = true
}.

#[local] Instance drains_pre : PreOrder drains.
Proof.
  split; [split; auto|]. intros s1 s2 s3 [D1 K1 C1 L1 R1] [D2 K2 C2 L2 R2]. split; [congruence..|auto|auto|].
  intros Hd Hr. rewrite <-D1 in Hd. destruct (R2 Hd Hr) as [Hr2|]; [|auto]. rewrite D1 in Hd. destruct (R1 Hd Hr2); auto.
Qed.
Lemma drains_same s s' :
  draining s' = draining s → checks s' = checks s → closed s' = closed s → clearing s' = clearing s →
  (draining s = true → routes (table s') = ∅ → routes (table s) = ∅) → drains s s'.
Proof. intros ? ? Hc Hl ?. split; rewrite ?Hc, ?Hl; auto. Qed.
Lemma close_drains s : drains s (close s).
Proof. unfold close. destruct (closed s) eqn:E; [reflexivity|]. by split; auto. Qed.
Lemma close_closed s : closed (close s) = true.
Proof. unfold close. by destruct (closed s) eqn:E. Qed.
Lemma close_routes s : routes (table (close s)) = routes (table s).
Proof. unfold close. by destruct (closed s). Qed.
Lemma send_drains ok f s : drains s (snd (send ok f s)).
Proof.
  unfold send, write_frame. destruct f; [|reflexivity..]. destruct (closed s) eqn:E; [apply close_drains|].
  destruct ok; [by apply drains_same|apply close_drains].
Qed.
Lemma send_eq_drains ok f s r s' : send ok f s = (r, s') → drains s s'.
Proof. intros H. change s' with (snd (r, s')). rewrite <-H. apply send_drains. Qed.
Lemma send_udp_drains d ok i b s r s' : send_udp_data d ok i b s = (r, s') → drains s s'.
Proof. unfold send_udp_data. repeat case_match; [intros [= _ <-]; reflexivity..|apply send_eq_drains]. Qed.

Lemma remove_flow_drains i s : drains s (remove_flow i s).
Proof.
  unfold remove_flow. cbv zeta. set (s1 := with_table s _).
  destruct (_ && _) eqn:E.
  - pose proof (close_closed s1) as Hc. pose proof (close_drains s1) as [? ? ? ? ?]. split; auto.
  - apply drains_same; try done. intros Hd Hr. simpl in *. rewrite Hd, andb_true_r in E. rewrite (bool_decide_true (_ = ∅)) in E by done.
    rewrite andb_true_r in E. apply bool_decide_eq_false in E. set_solver.
Qed.
Lemma withdraw_drains s t : drains s (withdraw s t).
Proof. unfold withdraw. destruct (slot t); [by apply drains_same|reflexivity]. Qed.
Lemma table_drains s t' : routes t' = routes (table s) → drains s (with_table s t').
Proof. intros Hr. apply drains_same; try done. simpl. by rewrite Hr. Qed.
Lemma into_drains s i : drains s (with_table s (into_frame i (table s))).
Proof. apply table_drains. unfold into_frame. by repeat case_match. Qed.
Lemma drop_flow_drains i s t : drains s (drop_flow i s t).
Proof. unfold drop_flow. etrans; [|apply withdraw_drains]. apply table_drains, drop_receiver_routes. Qed.
Lemma recv_drains i s f tb : recv i (table s) = (Took f, tb) → drains s (with_table s tb).
Proof. intros H. apply table_drains. unfold recv in H. repeat case_match; by simplify_eq. Qed.
Lemma reserve_drains p s r s' : reserve_flow p s = (r, s') → drains s s'.
Proof.
  intros H. assert (draining s = true → s' = s) as Hd.
  { unfold reserve_flow in H. intros E. rewrite E in H. by simplify_eq. }
  assert (draining s' = draining s ∧ checks s' = checks s ∧ closed s' = closed s ∧ clearing s' = clearing s) as (? & ? & ? & ?).
  { unfold reserve_flow in H. repeat case_match; by simplify_eq. }
  apply drains_same; try done. intros E. by rewrite (Hd E).
Qed.

Lemma task_step_drains s t e s' t' sp : task_step s t e = Some (s', t', sp) → drains s s'.
Proof.
  intros H. unfold task_step in H.
  destruct e, (phase t) eqn:Hp; try done;
    unfold open_step, wait_step, relay_step, relay_frame, drain_step, hand_over_step, udp_step, inbound_step, act_step,
      abort_step in H; rewrite ?Hp in H; task_cases H;
    first
      [ reflexivity | apply send_drains | apply remove_flow_drains | apply withdraw_drains | apply drop_flow_drains
      | apply into_drains | eapply send_eq_drains; eassumption | eapply send_udp_drains; eassumption
      | eapply recv_drains; eassumption | by eapply reserve_drains
      | etrans; [eapply reserve_drains; eassumption|apply withdraw_drains] ].
Qed.

(** ** A task will see to it *)

(** The reader has the drain check ahead of it, and no panic. *)
Definition sound_todo (td : Todo) : Prop :=
  match td with Send f => f ≠ Panic | Panicked => False | _ => True end.
Definition will_check (r : Reader) : Prop :=
  match r with Reading todo => CheckDrained ∈ todo ∧ Forall sound_todo todo | Stopped => False end.

Record drain_ok (g : System) : Prop := {
  dr_clearing : clearing (session g) = true → closed (session g) = true;
  dr_closes : draining (session g) = true → routes (table (session g)) = ∅ →
    closed (session g) = true ∨ (0 < checks (session g))%nat ∨ will_check (reader g)
}.

Lemma drain_ok_drains g s' ts :
  drain_ok g → drains (session g) s' → drain_ok {| session := s'; reader := reader g; tasks := ts |}.
Proof.
  intros [Hc Hd] [D K C L R]. split; simpl; [auto|]. rewrite D, K. intros Hdr Hr.
  destruct (R Hdr Hr) as [Hr0|]; [|auto]. destruct (Hd Hdr Hr0) as [?|[?|?]]; auto.
Qed.

Lemma handle_carrier_frame_drains f s todo s' :
  session_ok s → handle_carrier_frame f s = (todo, s') →
  draining s' = draining s ∧ checks s' = checks s ∧ closed s' = closed s ∧ clearing s' = clearing s ∧
  (routes (table s') = ∅ → routes (table s) = ∅ ∨ will_check (Reading todo)).
Proof.
  intros Hok. unfold handle_carrier_frame. cbv zeta.
  destruct (frame_type (header f));
    try (destruct (validate_server_flow_frame f); [|intros [= <- <-]; split_and!; auto..];
         destruct (is_connection_error_frame f); [intros [= <- <-]; split_and!; auto|];
         destruct (route_flow_frame _ _ _) as [[p r] t'] eqn:Hr; intros [= <- <-]; split_and!; try done; cbn [table with_table];
         destruct (route_flow_frame_cases _ _ _ _ _ _ (s_table _ Hok) Hr) as [(_ & _ & ->)|[(Hsh & _ & ->)|(_ & _ & -> & _)]];
         [auto| |auto]; intros _; right; destruct r; try done; (split; [set_solver|]);
         repeat constructor; (apply status_frame_total || apply flow_error_close_total));
    try (intros [= <- <-]; split_and!; auto);
    destruct (validate_connection_frame _ _); intros [= <- <-]; split_and!; auto.
Qed.

Lemma reader_step_drains ok td rest s r s' :
  reader_step ok td rest s = (r, s') →
  drains s s' ∧ (will_check (Reading (td :: rest)) → draining s = true → routes (table s') = ∅ → closed s' = true ∨ will_check r).
Proof.
  unfold reader_step, will_check. destruct td as [f|f| |e|].
  - destruct (send ok f s) as [[u|e|] s1] eqn:E; intros [= <- <-]; pose proof (send_eq_drains _ _ _ _ _ E).
    + split; [done|]. intros [Hc Hs] _ _. right. apply Forall_cons in Hs as [_ ?]. split; [set_solver|done].
    + split; [etrans; [done|apply close_drains]|]. intros _ _ _. left. apply close_closed.
    + split; [done|]. intros [_ Hs] _ _. apply Forall_cons in Hs as [Hf _]. unfold send, write_frame in E.
      repeat case_match; by simplify_eq.
  - intros [= <- <-]. split; [apply send_drains|]. intros [Hc Hs] _ _. right. apply Forall_cons in Hs as [_ ?].
    split; [set_solver|done].
  - intros [= <- <-]. unfold close_if_drained. destruct (_ && _) eqn:E.
    + split; [apply close_drains|]. intros _ _ _. left. apply close_closed.
    + split; [reflexivity|]. intros _ Hd Hr. rewrite Hd, bool_decide_true in E by done. done.
  - intros [= <- <-]. split; [apply close_drains|]. intros _ _ _. left. apply close_closed.
  - intros [= <- <-]. split; [reflexivity|]. intros [_ Hs] _ _. by apply Forall_cons in Hs as [[] _].
Qed.

Lemma write_ping_drains ok s r s' : write_ping ok s = (r, s') → drains s s'.
Proof.
  unfold write_ping. cbv zeta. destruct (next_keepalive_nonce _) as [nonce|]; [|intros [= _ <-]; reflexivity].
  set (s1 := with_ping s _). assert (drains s s1) as H1 by (by apply drains_same).
  destruct (protocol_result _) as [f|e|]; [|intros [= _ <-]; done..].
  change (write_frame ok f s1) with (send ok (Ok f) s1). destruct (send ok (Ok f) s1) as [r' s2] eqn:E.
  apply send_eq_drains in E. assert (drains s s2) by (by etrans).
  destruct r'; intros [= _ <-]; [done| |done]. etrans; [done|by apply drains_same].
Qed.

Lemma drain_ok_step g lb g' : session_ok (session g) → drain_ok g → step g lb = Some g' → drain_ok g'.
Proof.
  intros Hok Hg Hs. unfold step in Hs. cbv zeta in Hs. destruct lb as [n p|n e|f|e|ok|i b|ok| | | |].
  - destruct (tasks g !! n); [done|]. destruct (try_admit _ _) eqn:E; [done|]. injection Hs as <-.
    apply drain_ok_drains; [done|]. unfold try_admit in E. repeat case_match; simplify_eq. by apply drains_same.
  - destruct (tasks g !! n); [|done]. destruct (task_step _ _ _) as [[[s' t'] sp]|] eqn:E; [|done].
    apply task_step_drains in E. repeat case_match; simplify_eq; by apply drain_ok_drains.
  - destruct (reader g) as [[|]|] eqn:Hrd; [|done..].
    destruct (handle_carrier_frame f (session g)) as [todo s'] eqn:E. injection Hs as <-.
    apply handle_carrier_frame_drains in E as (D & K & C & L & R); [|done]. destruct Hg as [Hc Hd].
    split; simpl; rewrite ?D, ?K, ?C, ?L; [done|]. intros Hdr Hr. destruct (R Hr) as [Hr0|]; [|auto].
    destruct (Hd Hdr Hr0) as [?|[?|Hw]]; auto. rewrite Hrd in Hw. destruct Hw as [Hw _]. set_solver.
  - destruct (reader g) as [[|]|] eqn:Hrd; [|done..]. injection Hs as <-. destruct Hg as [Hc Hd]. split; [done|].
    simpl. intros Hdr Hr. destruct (Hd Hdr Hr) as [?|[?|Hw]]; auto. rewrite Hrd in Hw. destruct Hw as [Hw _]. set_solver.
  - destruct (reader g) as [[|td rest]|] eqn:Hrd; [|..|done].
    + destruct (closed _) eqn:Hcl; [|done]. injection Hs as <-. split; simpl; auto.
    + destruct (reader_step ok td rest (session g)) as [r s'] eqn:E. injection Hs as <-.
      apply reader_step_drains in E as [[D K C L R] Hw]. destruct Hg as [Hc Hd]. split; simpl; [auto|].
      rewrite D, K. intros Hdr Hr. destruct (R Hdr Hr) as [Hr0|]; [|auto].
      destruct (Hd Hdr Hr0) as [?|[?|Hwc]]; auto. rewrite Hrd in Hwc. destruct (Hw Hwc Hdr Hr); auto.
  - injection Hs as <-. apply drain_ok_drains; [done|]. apply table_drains.
    by destruct (route_inbound_datagram_cases (limits (session g)) i b _ (s_table _ Hok)) as [-> |(_ & -> & _)].
  - destruct (write_ping ok (session g)) as [r s'] eqn:E. apply write_ping_drains in E.
    destruct r; injection Hs as <-; (apply drain_ok_drains; [done|]); [exact E|..]; (etrans; [exact E|apply close_drains]).
  - injection Hs as <-. unfold begin_drain. destruct Hg as [Hc Hd]. destruct (draining (session g)) eqn:E; [by split; simpl; rewrite ?E|].
    split; simpl; [done|]. intros _ _. right; left. lia.
  - destruct (checks (session g)) as [|k] eqn:E; [done|]. injection Hs as <-. destruct Hg as [Hc Hd].
    unfold close_if_drained. destruct (_ && _) eqn:Eb.
    + split; [|intros _ _; left]; intros; apply close_closed.
    + split; [done|]. intros Hdr Hr. simpl in *. rewrite Hdr, bool_decide_true in Eb by done. done.
  - injection Hs as <-. apply drain_ok_drains; [done|]. apply close_drains.
  - destruct (clearing (session g)) eqn:E; [|done]. injection Hs as <-. destruct Hg as [Hc _]. split; simpl; [done|].
    intros _ _. left. by apply Hc.
Qed.

(** A session does not come back: the flags are never reset, and only [begin_drain] makes
    it drain. *)
Lemma handle_carrier_frame_life f s :
  draining (snd (handle_carrier_frame f s)) = draining s ∧ closed (snd (handle_carrier_frame f s)) = closed s.
Proof. unfold handle_carrier_frame. cbv zeta. repeat case_match; done. Qed.

Lemma step_life g lb g' :
  step g lb = Some g' →
  (closed (session g) = true → closed (session g') = true) ∧
  match lb with LDrain => draining (session g') = true | _ => draining (session g') = draining (session g) end.
Proof.
  intros Hs. assert (∀ s', drains (session g) s' →
    (closed (session g) = true → closed s' = true) ∧ draining s' = draining (session g)) as Hd by (by intros s' []).
  unfold step in Hs. cbv zeta in Hs. destruct lb as [n p|n e|f|e|ok|i b|ok| | | |].
  - unfold try_admit in Hs. repeat case_match; simplify_eq; auto.
  - destruct (tasks g !! n); [|done]. destruct (task_step _ _ _) as [[[s' t'] sp]|] eqn:E; [|done].
    apply task_step_drains, Hd in E. repeat case_match; by simplify_eq.
  - pose proof (handle_carrier_frame_life f (session g)) as [H1 H2]. repeat case_match; simplify_eq; simpl in *.
    rewrite H1, H2. done.
  - repeat case_match; by simplify_eq.
  - destruct (reader g) as [[|td rest]|]; [by case_match; simplify_eq| |done].
    destruct (reader_step ok td rest (session g)) as [r s'] eqn:E. simplify_eq. by apply reader_step_drains in E as [?%Hd _].
  - by simplify_eq.
  - destruct (write_ping ok (session g)) as [r s'] eqn:E. apply write_ping_drains in E.
    destruct r; simplify_eq; apply Hd; [exact E|..]; (etrans; [exact E|apply close_drains]).
  - simplify_eq. unfold begin_drain. simpl. by destruct (draining _) eqn:E.
  - destruct (checks (session g)); [done|]. simplify_eq. unfold close_if_drained. simpl.
    destruct (_ && _); [|done]. unfold close. simpl. by destruct (closed (session g)).
  - simplify_eq. apply Hd, close_drains.
  - by case_match; simplify_eq.
Qed.

(** C14: A session that drains is never left behind.  Once its configuration has been
    replaced it admits no flow, and whenever its flow table is empty it is closed, or a
    task is about to run the check that closes it: a [begin_drain] that has set the flag,
    or the reader after it has taken a flow out.  Running that check closes it. *)
Theorem drained_session_closes l g :
  limits_ok l → reachable l g → draining (session g) = true →
  (∀ p, try_admit (session g) p = inl Unavailable) ∧
  (routes (table (session g)) = ∅ →
     closed (session g) = true ∨ (0 < checks (session g))%nat ∨ will_check (reader g)) ∧
  (routes (table (session g)) = ∅ → closed (close_if_drained (session g)) = true).
Proof.
  intros Hl (ls & Hrun) Hd. split_and!.
  - intros p. unfold try_admit. by rewrite Hd.
  - assert (drain_ok g ∧ limits (session g) = l ∧ session_ok (session g)) as [Hok _]; [|by apply Hok].
    refine (run_invariant (λ _, True) (λ g, drain_ok g ∧ limits (session g) = l ∧ session_ok (session g)) _ ls g _ _ _ Hrun).
    + intros g0 lb g1 _ [H0 H1] Hs. split; [|by eapply step_ok]. eapply drain_ok_step; [apply H1|done|done].
    + by apply Forall_true.
    + split; [by split|]. split; [done|by apply session_new_ok].
  - intros Hr. unfold close_if_drained. rewrite Hd, bool_decide_true by done. apply close_closed.
Qed.

End Drain.

Module Demo.
Import ClientFlowsTheorems.Demo.
#[local] Existing Instance platform64.

(** The flow is cut by a frame of the wrong protocol while the session drains. *)
Definition cut : list Label := opening ++ [LDrain; LCheck; LFrame (frame UdpData [1])].

Lemma drained_session_closes_witness :
  draining (session (state demo_limits cut)) = true ∧ closed (session (state demo_limits cut)) = false ∧
  routes (table (session (state demo_limits cut))) = ∅ ∧ closed (close_if_drained (session (state demo_limits cut))) = true.
Proof.
  assert (reachable demo_limits (state demo_limits cut)) as Hr by (exists cut; vm_compute; reflexivity).
  assert (routes (table (session (state demo_limits cut))) = ∅) as He by (vm_compute; reflexivity).
  destruct (drained_session_closes demo_limits (state demo_limits cut) demo_limits_ok Hr) as (_ & _ & Hc);
    [vm_compute; reflexivity|].
  split; [vm_compute; reflexivity|]. split; [vm_compute; reflexivity|]. split; [exact He|exact (Hc He)].
Defined.
End Demo.
End ClientDrain.
