(* ===== verification/ClientPool.v ===== *)
(** * ClientPool: the client's pool of carriers
    (crates/uk-client/src/relay/session_manager.rs, context.rs)

    A client keeps a bounded pool of authenticated carriers.  A request for a flow is
    placed on the least loaded carrier that admits it; when all are full it dials another
    one, under a lock and within the limit, unless a recent failure is cooling down.  A
    reload replaces the configuration, empties the pool and drains what was in it; the
    shutdown closes it for good.

    The carriers are the systems of [ClientFlows], shared by reference: the pool, the
    requests and the background tasks hold their numbers.  Every request is a machine
    suspended at the points where the code awaits; a lock is held by the requests whose
    phase lies in its critical section.  Requests, reload, shutdown, carriers and clock
    interleave in any order. *)

From S2P Require Import Prelude Wire Varint FrameCodec RustStd Endpoint TargetCodec RelayPayload Settings FrameIo.
From S2P Require Import Mask ServerConfig ClientConfig RelayState Socks5 ClientSession ClientFlows.

Module ClientPool.
Import ClientSession.
Import ClientConfig.ClientConfig (ClientConfig, ClientConfigState, ClientConfigGeneration, current, generation).

(** ** A new carrier *)

Section Connect.
Context {P : Platform}.

(* @src crates/uk-client/src/relay/context.rs 724-726 usize_limit *)
Definition usize_limit (value : Z) : ErrOr Z :=
  match usize_try_from value with
  | Some n => Ok n
  | None => Err (Message "limit is too large for this platform")
  end.

(** The limits of a session follow from the settings of the server and the
    configuration; [datagram]: the carrier has a datagram channel of known size. *)
(* @src crates/uk-client/src/relay/session_manager.rs 855-910 ClientSession::connect *)
Definition connect (datagram : bool) (config : ClientConfig) (settings : Settings.Settings) : ErrOr Limits :=
  let? negotiated := protocol_result (Settings.negotiated_v1_0 settings) in
  let limits := Settings.frame_limits negotiated in
  let supports_udp_datagram :=
    Settings.supports_udp_datagram negotiated && datagram && negb (Settings.max_udp_flows negotiated =? 0) in
  let fallback := Settings.udp_stream_fallback_enabled negotiated in
  let? pending := usize_limit (ClientConfig.max_pending_open_bytes config) in
  let? per_session := usize_limit (ClientConfig.max_buffered_bytes_per_session config) in
  let? per_flow := usize_limit (ClientConfig.max_buffered_bytes_per_flow config) in
  Ok {| max_streams := Settings.max_streams negotiated;
        max_udp_flows := Settings.max_udp_flows negotiated;
        max_buffered_bytes_per_flow := per_flow;
        max_buffered_bytes_per_session := per_session;
        max_pending_open_bytes := pending;
        data_frame_size := Relay.tcp_data_frame_size limits (Some (ClientConfig.relay_buffer_size config));
        supports_udp_stream_fallback := fallback;
        supports_udp_relay := fallback || supports_udp_datagram |}.
End Connect.

(** ** Backing off *)

Definition SERVER_CONNECT_RETRY_MAX_MILLIS : Z := 30000.

(* @src crates/uk-client/src/relay/session_manager.rs 814-823 calculate_reconnect_backoff_ms *)
Definition calculate_reconnect_backoff_ms (base_delay_ms consecutive_failures max_backoff_ms : Z) : Z :=
  Z.min max_backoff_ms (Z.min U64_MAX (base_delay_ms * Z.shiftl 1 (Z.min consecutive_failures 10))).

(* @src crates/uk-client/src/relay/session_manager.rs 825-829 calculate_reconnect_jitter_range *)
Definition calculate_reconnect_jitter_range (backoff_ms : Z) : Z * Z :=
  let min_ms := Z.max (backoff_ms / 2) 1 in
  let max_ms := Z.max (Z.min U64_MAX (backoff_ms * 3) / 2) min_ms in
  (min_ms, max_ms).

(* @src crates/uk-client/src/relay/context.rs 97-102 CachedConnectFailure *)
Record CachedConnectFailure : Set := {
  f_generation : Z;
  message : AnyError;
  expires_at : option Z
}.

(** ** The manager and its clients *)

(** A session object, shared by all who hold its number. *)
Record Carrier : Type := {
  system : ClientFlows.System;
  config_generation : Z;
  health_session : bool
}.

(* @src crates/uk-client/src/relay/context.rs 320-329 PoolAdmissionRefusal *)
Inductive PoolAdmissionRefusal : Set := PoolStreamLimit | PoolUdpFlowLimit.

(** What is asked of the manager: [open_flow] and [open_udp_flow], [current_session],
    [ensure_health_session]. *)
Inductive Kind : Set := OpenFlow (p : FlowProtocol) | CurrentSession | HealthSession.

(** [Exhausted]: no carrier takes the flow and none may be added.  [CoolingDown]: a recent
    failure to connect is repeated. *)
Inductive Answer : Set :=
  | Opened | Got (n : nat) | Exhausted | CoolingDown (cause : AnyError) | Failed (e : AnyError).

(** Where a request is suspended; [locked]: it holds the connect lock. *)
Inductive Phase : Set :=
  | Entering
  | Looking (locked : bool)
  | Ranking (locked : bool) (rest : list nat) (ranked : list (Z * nat))
  | Trying (locked : bool) (candidates : list nat) (refusal : PoolAdmissionRefusal)
  | Locking
  | Locked
  | Sizing
  | Cooldown (locked : bool)
  | Dialling (snapshot : ClientConfigGeneration)
  | Remembering (snapshot : ClientConfigGeneration) (error : AnyError)
  | Publishing (snapshot : ClientConfigGeneration) (n : nat)
  | Clearing (n : nat)
  | Pushing (n : nat)
  | Fresh (n : nat)
  | Opening (n : nat)
  | Answered (a : Answer).

Record Request : Set := { kind : Kind; attempt : nat; phase : Phase }.

(** Where a reload is suspended. *)
Inductive Reload : Set :=
  | Validating (candidate : ClientConfig)
  | Waiting (candidate : ClientConfig)
  | Refreshing (candidate : ClientConfig)
  | Replaced
  | Emptying
  | Draining (previous : list nat).

(** [closing]: the carriers a background task is about to close, the reapers of the pool
    and the ones a dropped [PendingClientSession] leaves. *)
(* @src crates/uk-client/src/relay/session_manager.rs 89-107 ClientSessionManager *)
Record Manager : Type := {
  config : ClientConfigState;
  pool : list nat;
  recent_connect_failure : option CachedConnectFailure;
  consecutive_connect_failures : Z;
  is_closed : bool;
  carriers : gmap nat Carrier;
  requests : gmap nat Request;
  reloading : option Reload;
  closing : list nat;
  now : Z
}.

Definition with_config (g : Manager) (c : ClientConfigState) : Manager :=
  {| config := c; pool := pool g; recent_connect_failure := recent_connect_failure g;
     consecutive_connect_failures := consecutive_connect_failures g; is_closed := is_closed g; carriers := carriers g;
     requests := requests g; reloading := reloading g; closing := closing g; now := now g |}.
Definition with_pool (g : Manager) (l closing : list nat) : Manager :=
  {| config := config g; pool := l; recent_connect_failure := recent_connect_failure g;
     consecutive_connect_failures := consecutive_connect_failures g; is_closed := is_closed g; carriers := carriers g;
     requests := requests g; reloading := reloading g; closing := closing; now := now g |}.
Definition with_failure (g : Manager) (f : option CachedConnectFailure) (count : Z) : Manager :=
  {| config := config g; pool := pool g; recent_connect_failure := f;
     consecutive_connect_failures := count; is_closed := is_closed g; carriers := carriers g;
     requests := requests g; reloading := reloading g; closing := closing g; now := now g |}.
Definition with_carriers (g : Manager) (m : gmap nat Carrier) : Manager :=
  {| config := config g; pool := pool g; recent_connect_failure := recent_connect_failure g;
     consecutive_connect_failures := consecutive_connect_failures g; is_closed := is_closed g; carriers := m;
     requests := requests g; reloading := reloading g; closing := closing g; now := now g |}.
Definition with_requests (g : Manager) (m : gmap nat Request) : Manager :=
  {| config := config g; pool := pool g; recent_connect_failure := recent_connect_failure g;
     consecutive_connect_failures := consecutive_connect_failures g; is_closed := is_closed g; carriers := carriers g;
     requests := m; reloading := reloading g; closing := closing g; now := now g |}.
Definition with_reload (g : Manager) (r : option Reload) : Manager :=
  {| config := config g; pool := pool g; recent_connect_failure := recent_connect_failure g;
     consecutive_connect_failures := consecutive_connect_failures g; is_closed := is_closed g; carriers := carriers g;
     requests := requests g; reloading := r; closing := closing g; now := now g |}.
Definition with_closed (g : Manager) : Manager :=
  {| config := config g; pool := pool g; recent_connect_failure := recent_connect_failure g;
     consecutive_connect_failures := consecutive_connect_failures g; is_closed := true; carriers := carriers g;
     requests := requests g; reloading := reloading g; closing := closing g; now := now g |}.
Definition with_now (g : Manager) (t : Z) : Manager :=
  {| config := config g; pool := pool g; recent_connect_failure := recent_connect_failure g;
     consecutive_connect_failures := consecutive_connect_failures g; is_closed := is_closed g; carriers := carriers g;
     requests := requests g; reloading := reloading g; closing := closing g; now := t |}.

(* @src crates/uk-client/src/relay/session_manager.rs 169-183 ClientSessionManager::new *)
Definition manager_new (c : ClientConfig) : Manager :=
  {| config := ClientConfig.state_new c; pool := []; recent_connect_failure := None; consecutive_connect_failures := 0;
     is_closed := false; carriers := ∅; requests := ∅; reloading := None; closing := []; now := 0 |}.

(** ** Locks *)

(** The phases between [connect_lock.lock().await] and the end of its guard. *)
Definition holds_connect (p : Phase) : bool :=
  match p with
  | Looking b | Ranking b _ _ | Trying b _ _ | Cooldown b => b
  | Locked | Sizing | Dialling _ | Remembering _ _ | Publishing _ _ | Clearing _ | Pushing _ | Fresh _ => true
  | _ => false
  end.
(** The same for [config_publish_lock], which a reload takes too. *)
Definition holds_publish (p : Phase) : bool := match p with Clearing _ | Pushing _ => true | _ => false end.
Definition reload_holds_publish (r : option Reload) : bool :=
  match r with Some (Refreshing _ | Replaced | Emptying | Draining _) => true | _ => false end.

Definition nobody (holds : Phase → bool) (g : Manager) : bool :=
  bool_decide (map_Forall (λ _ r, holds (phase r) = false) (requests g)).
Definition connect_free (g : Manager) : bool := nobody holds_connect g.
Definition publish_free (g : Manager) : bool := nobody holds_publish g && negb (reload_holds_publish (reloading g)).

(** ** Carriers *)

Definition carrier_session (g : Manager) (n : nat) : option Session :=
  (λ c, ClientFlows.session (system c)) <$> carriers g !! n.
Definition carrier_closed (g : Manager) (n : nat) : bool := from_option closed true (carrier_session g n).
Definition carrier_draining (g : Manager) (n : nat) : bool := from_option draining true (carrier_session g n).
(* @src crates/uk-client/src/relay/session_manager.rs 990-992 ClientSession::flow_count *)
Definition flow_count (g : Manager) (n : nat) : Z :=
  from_option (λ s, Z.of_nat (size (routes (table s)))) 0 (carrier_session g n).

(* @src crates/uk-client/src/relay/session_manager.rs 928-930 ClientSession::mark_health_session *)
Definition mark_health_session (g : Manager) (n : nat) : Manager :=
  with_carriers g (alter (λ c, {| system := system c; config_generation := config_generation c; health_session := true |})
                     n (carriers g)).

(** [sort_by_key] is stable. *)
Fixpoint insert_by_key (x : Z * nat) (l : list (Z * nat)) : list (Z * nat) :=
  match l with
  | [] => [x]
  | y :: l => if x.1 <=? y.1 then x :: y :: l else y :: insert_by_key x l
  end.
Definition sort_by_key (l : list (Z * nat)) : list (Z * nat) := foldr insert_by_key [] l.

Section Pool.
Context {P : Platform} (ca_ok server_name_ok : Bytes → bool).

(** One step of a carrier. *)
Definition carrier_step (g : Manager) (n : nat) (lb : ClientFlows.Label) : option Manager :=
  match carriers g !! n with
  | Some c =>
    match ClientFlows.step (system c) lb with
    | Some y => Some (with_carriers g (<[n := {| system := y; config_generation := config_generation c;
                                                 health_session := health_session c |}]> (carriers g)))
    | None => None
    end
  | None => None
  end.

(* @src crates/uk-client/src/relay/session_manager.rs 604-608 max_pool_size *)
Definition max_pool_size (g : Manager) : Z :=
  let n := ClientConfig.max_carrier_sessions (ClientConfig.config (ClientConfig.snapshot (config g))) in
  Z.max (default USIZE_MAX (usize_try_from n)) 1.

(** Closed carriers leave the pool and are handed to reapers. *)
(* @src crates/uk-client/src/relay/session_manager.rs 612-635 live_sessions *)
Definition live_sessions (g : Manager) : list nat * Manager :=
  let live := filter (λ n, carrier_closed g n = false) (pool g) in
  let stale := filter (λ n, carrier_closed g n = true) (pool g) in
  (live, with_pool g live (closing g ++ stale)).

(* @src crates/uk-client/src/relay/session_manager.rs 691-706 recent_connect_failure_if_active *)
Definition recent_connect_failure_if_active (g : Manager) : option CachedConnectFailure * Manager :=
  let forgotten := with_failure g None (consecutive_connect_failures g) in
  match recent_connect_failure g with
  | None => (None, g)
  | Some failure =>
    if negb (f_generation failure =? generation (current (config g))) then (None, forgotten) else
    match expires_at failure with
    | Some t => if t <=? now g then (None, forgotten) else (Some failure, g)
    | None => (Some failure, g)
    end
  end.

(** [Instant::checked_add]: the clock ends at 2^63 seconds. *)
Definition retry_delay_expires_at (t delay : Z) : option Z :=
  if t + delay <? 2 ^ 63 * 1000 then Some (t + delay) else None.

(** [delay_ms] is the random choice.  Nothing is remembered for a configuration that is
    no longer current, nor with a delay of zero. *)
(* @src crates/uk-client/src/relay/session_manager.rs 708-738 remember_connect_failure *)
Definition remember_connect_failure (snapshot : ClientConfigGeneration) (error : AnyError) (delay_ms : Z) (g : Manager)
  : option (bool * Manager) :=
  if negb (generation (current (config g)) =? generation snapshot) then Some (false, g) else
  let base_delay_ms := ClientConfig.server_connect_retry_delay_millis (ClientConfig.config snapshot) in
  if base_delay_ms =? 0 then Some (true, g) else
  let consecutive_failures := consecutive_connect_failures g in
  let backoff_ms := calculate_reconnect_backoff_ms base_delay_ms consecutive_failures SERVER_CONNECT_RETRY_MAX_MILLIS in
  let '(min_ms, max_ms) := calculate_reconnect_jitter_range backoff_ms in
  if (min_ms <=? delay_ms) && (delay_ms <=? max_ms) then
    Some (true, with_failure g
                  (Some {| f_generation := generation snapshot; message := error;
                           expires_at := retry_delay_expires_at (now g) delay_ms |})
                  (truncate 32 (consecutive_failures + 1)))
  else None.

(* @src crates/uk-client/src/relay/session_manager.rs 740-744 clear_connect_failure *)
Definition clear_connect_failure (g : Manager) : Manager := with_failure g None 0.

(** A carrier still in the pool is closed by a reaper, any other at once. *)
(* @src crates/uk-client/src/relay/session_manager.rs 746-760 invalidate *)
Definition invalidate (g : Manager) (n : nat) : option Manager :=
  if bool_decide (n ∈ pool g)
  then Some (with_pool g (filter (λ m, m ≠ n) (pool g)) (closing g ++ [n]))
  else carrier_step g n ClientFlows.LClose.

(** A [PendingClientSession] dropped before it was published. *)
(* @src crates/uk-client/src/relay/context.rs 178-200 PendingClientSession::drop *)
Definition drop_pending (g : Manager) (n : nat) : Manager := with_pool g (pool g) (closing g ++ [n]).

(** ** Requests *)

(** What the environment decides for one step of a request: the outcome of a dial (with
    the number of the carrier it makes), the jitter, the name of an admitted task, how
    the open on the carrier ended. *)
Inductive Event : Type :=
  | Proceed
  | TryOn (task : nat)
  | Dialled (n : nat) (outcome : ErrOr (bool * Settings.Settings))
  | Jittered (delay_ms : Z)
  | OpenEnds (outcome : ErrOr unit).

Definition shutting_down : Answer := Failed (Message "client session manager is shutting down").

(** A lookup that yields no carrier: flows are tried on the candidates, the others go on
    to the cooldown or the lock. *)
(* @src crates/uk-client/src/relay/session_manager.rs 676-678 admit_flow *)
Definition looked (k : Kind) (locked : bool) (ranked : list (Z * nat)) : Phase :=
  match k with
  | OpenFlow _ => Trying locked (snd <$> sort_by_key ranked) PoolStreamLimit
  | CurrentSession => Cooldown locked
  | HealthSession => if locked then Cooldown true else Locking
  end.

(** [first_live_session] takes the first live carrier that does not drain; [admit_flow]
    ranks them all. *)
(* @src crates/uk-client/src/relay/session_manager.rs 665-676 admit_flow *)
Definition rank_step (g : Manager) (k : Kind) (locked : bool) (rest : list nat) (ranked : list (Z * nat))
  : Manager * Phase :=
  match rest with
  | [] => (g, looked k locked ranked)
  | n :: rest =>
    if carrier_draining g n then (g, Ranking locked rest ranked) else
    match k with
    | OpenFlow _ => (g, Ranking locked rest (ranked ++ [(flow_count g n, n)]))
    | CurrentSession => (g, Answered (Got n))
    | HealthSession => (mark_health_session g n, Answered (Got n))
    end
  end.

(** One [try_admit]: the flow is on the carrier, or the refusal decides. *)
(* @src crates/uk-client/src/relay/session_manager.rs 679-686 admit_flow *)
Definition try_on (g : Manager) (p : FlowProtocol) (n task : nat) (refused : AdmissionRefusal → Phase)
  : option (Manager * Phase) :=
  match carrier_session g n with
  | Some s =>
    match try_admit s p with
    | inr _ => g ← carrier_step g n (ClientFlows.LAdmit task p); Some (g, Opening n)
    | inl r => Some (g, refused r)
    end
  | None => None
  end.

(* @src crates/uk-client/src/relay/session_manager.rs 678-689 admit_flow *)
Definition admit_step (g : Manager) (k : Kind) (locked : bool) (candidates : list nat) (refusal : PoolAdmissionRefusal)
    (e : Event) : option (Manager * Phase) :=
  match candidates, e, k with
  | n :: rest, TryOn task, OpenFlow p =>
    try_on g p n task (λ r, Trying locked rest match r with UdpFlowLimit => PoolUdpFlowLimit | _ => refusal end)
  | [], Proceed, _ =>
    match refusal with
    | PoolUdpFlowLimit => Some (g, Answered Exhausted)
    | PoolStreamLimit => Some (g, if locked then Sizing else Locking)
    end
  | _, _, _ => None
  end.

(** [connect_and_pool] is to be retried: the loops of the callers go on, the health
    session gives up. *)
(* @src crates/uk-client/src/relay/session_manager.rs 535-538 ensure_health_session *)
Definition retried (k : Kind) : Phase :=
  match k with
  | HealthSession => Answered (Failed (Message "client config changed while establishing health session"))
  | _ => Entering
  end.

(* @src crates/uk-client/src/relay/session_manager.rs 457-509 connect_and_pool_with_health *)
Definition connect_step (g : Manager) (k : Kind) (p : Phase) (e : Event) : option (Manager * Phase) :=
  match p, e with
  | Dialling snapshot, Dialled n outcome =>
    match (let? '(datagram, settings) := outcome in connect datagram (ClientConfig.config snapshot) settings) with
    | Ok limits =>
      if bool_decide (carriers g !! n = None)
      then let c := {| system := ClientFlows.system_new limits; config_generation := generation snapshot;
                       health_session := false |} in
           Some (with_carriers g (<[n := c]> (carriers g)), Publishing snapshot n)
      else None
    | Err err => Some (g, Remembering snapshot err)
    | Panic => None
    end
  | Remembering snapshot err, Jittered delay_ms =>
    if negb (publish_free g) then None else
    '(remembered, g) ← remember_connect_failure snapshot err delay_ms g;
    Some (g, if remembered : bool then Answered (Failed err) else retried k)
  | Publishing snapshot n, Proceed =>
    if negb (publish_free g) then None else
    if negb (generation (current (config g)) =? generation snapshot) then Some (drop_pending g n, retried k) else
    Some (g, Clearing n)
  | Clearing n, Proceed =>
    let g := clear_connect_failure g in
    if is_closed g then Some (drop_pending g n, Answered shutting_down) else Some (g, Pushing n)
  | Pushing n, Proceed =>
    if is_closed g then Some (drop_pending g n, Answered shutting_down) else
    let g := match k with HealthSession => mark_health_session g n | _ => g end in
    Some (with_pool g (pool g ++ [n]) (closing g), match k with OpenFlow _ => Fresh n | _ => Answered (Got n) end)
  | _, _ => None
  end.

(** The turns of [admission_for_new_flow], [current_session] and
    [ensure_health_session]. *)
(* @src crates/uk-client/src/relay/session_manager.rs 396-442 admission_for_new_flow *)
Definition request_step (g : Manager) (k : Kind) (p : Phase) (e : Event) : option (Manager * Phase) :=
  match p, e with
  | Entering, Proceed =>
    match k with
    | HealthSession => Some (g, Looking false)
    | _ => Some (g, if is_closed g then Answered shutting_down else Looking false)
    end
  | Looking locked, Proceed => let '(live, g) := live_sessions g in Some (g, Ranking locked live [])
  | Ranking locked rest ranked, Proceed => Some (rank_step g k locked rest ranked)
  | Trying locked candidates refusal, _ => admit_step g k locked candidates refusal e
  | Locking, Proceed => if connect_free g then Some (g, Locked) else None
  | Locked, Proceed => Some (g, if is_closed g then Answered shutting_down else Looking true)
  | Sizing, Proceed =>
    let '(live, g) := live_sessions g in
    Some (g, if max_pool_size g <=? zlen live then Answered Exhausted else Cooldown true)
  | Cooldown locked, Proceed =>
    match recent_connect_failure_if_active g with
    | (Some failure, g) => Some (g, Answered (CoolingDown (message failure)))
    | (None, g) => Some (g, if locked then Dialling (ClientConfig.snapshot (config g)) else Locking)
    end
  | Fresh n, TryOn task =>
    match k with
    | OpenFlow p => try_on g p n task (λ r, match r with UdpFlowLimit => Answered Exhausted | _ => Entering end)
    | _ => None
    end
  | _, _ => connect_step g k p e
  end.

(** The two attempts of [open_flow]. *)
(* @src crates/uk-client/src/relay/session_manager.rs 249-304 ClientSessionManager::open_flow *)
Definition open_flow_step (g : Manager) (r : Request) (e : Event) : option (Manager * Request) :=
  match phase r, e with
  | Opening n, OpenEnds (Ok _) => Some (g, {| kind := kind r; attempt := attempt r; phase := Answered Opened |})
  | Opening n, OpenEnds (Err err) =>
    g ← match err with SessionDrainingError => Some g | _ => invalidate g n end;
    Some (g, match attempt r with
             | O => {| kind := kind r; attempt := 1; phase := Entering |}
             | S _ => {| kind := kind r; attempt := attempt r; phase := Answered (Failed err) |}
             end)
  | _, _ =>
    '(g, p) ← request_step g (kind r) (phase r) e;
    Some (g, {| kind := kind r; attempt := attempt r; phase := p |})
  end.

(** A request dropped at an await. *)
Definition cancelled (g : Manager) (p : Phase) : option Manager :=
  match p with
  | Publishing _ n | Clearing n | Pushing n => Some (drop_pending g n)
  | Answered _ => None
  | _ => Some g
  end.

(** ** Reload and shutdown *)

(* @src crates/uk-client/src/relay/session_manager.rs 831-852 ensure_reload_compatible *)
Definition ensure_reload_compatible (current candidate : ClientConfig) : ErrOr unit :=
  let changed :=
    if negb (ClientConfig.socks_handshake_timeout_seconds current =? ClientConfig.socks_handshake_timeout_seconds candidate)
    then Some "socks_handshake_timeout_seconds"
    else if negb (ClientConfig.shutdown_timeout_seconds current =? ClientConfig.shutdown_timeout_seconds candidate)
    then Some "shutdown_timeout_seconds"
    else if negb (ClientConfig.max_socks_connections current =? ClientConfig.max_socks_connections candidate)
    then Some "max_socks_connections"
    else if negb (bool_decide (ClientConfig.observability_listen current = ClientConfig.observability_listen candidate))
    then Some "observability_listen"
    else None in
  match changed with
  | Some field => Err (Message ("client config field `" +:+ field +:+ "` requires a restart"))
  | None => Ok tt
  end.

(** [ok]: the blocking task of this phase (reading the CA file) ended in time and
    without an error. *)
(* @src crates/uk-client/src/relay/session_manager.rs 185-243 ClientSessionManager::reload *)
Definition reload_step (g : Manager) (ok : bool) : option Manager :=
  match reloading g with
  | Some (Validating candidate) =>
    Some (with_reload g (if ok && is_ok (ClientConfig.check_config ca_ok server_name_ok candidate)
                         then Some (Waiting candidate) else None))
  | Some (Waiting candidate) =>
    if negb (publish_free g) then None else
    Some (with_reload g (match ensure_reload_compatible (ClientConfig.config (ClientConfig.snapshot (config g))) candidate with
                         | Ok _ => Some (Refreshing candidate)
                         | _ => None
                         end))
  | Some (Refreshing candidate) =>
    if ok then Some (with_reload (with_config g (snd (ClientConfig.replace (config g) candidate))) (Some Replaced))
    else Some (with_reload g None)
  | Some Replaced => Some (with_reload (clear_connect_failure g) (Some Emptying))
  | Some Emptying => Some (with_reload (with_pool g [] (closing g)) (Some (Draining (pool g))))
  | Some (Draining (n :: previous)) =>
    g ← carrier_step g n ClientFlows.LDrain;
    Some (with_reload g (Some (Draining previous)))
  | Some (Draining []) => Some (with_reload g None)
  | None => None
  end.

(** The flag is set before; each carrier is then closed like any other. *)
(* @src crates/uk-client/src/relay/session_manager.rs 762-794 ClientSessionManager::shutdown *)
Definition shutdown_take (g : Manager) : option Manager :=
  if is_closed g then Some (with_pool g [] (closing g ++ pool g)) else None.

(** A background task closes its carrier. *)
(* @src crates/uk-client/src/relay/session_manager.rs 637-647 spawn_reaper *)
Definition reap (g : Manager) (n : nat) : option Manager :=
  if bool_decide (n ∈ closing g)
  then carrier_step (with_pool g (pool g) (filter (λ m, m ≠ n) (closing g))) n ClientFlows.LClose
  else None.

(** The whole client.  A carrier moves by itself, except that the manager alone admits
    flows and begins drains. *)
Inductive Label : Type :=
  | LRequest (r : nat) (k : Kind)
  | LStep (r : nat) (e : Event)
  | LCancel (r : nat)
  | LReload (candidate : ClientConfig)
  | LReloadStep (ok : bool)
  | LCarrier (n : nat) (lb : ClientFlows.Label)
  | LReap (n : nat)
  | LShutdown
  | LShutdownTake
  | LTick (d : Z).

Definition carrier_label (lb : ClientFlows.Label) : bool :=
  match lb with ClientFlows.LAdmit _ _ | ClientFlows.LDrain => false | _ => true end.

Definition step (g : Manager) (lb : Label) : option Manager :=
  match lb with
  | LRequest r k =>
    if bool_decide (requests g !! r = None)
    then Some (with_requests g (<[r := {| kind := k; attempt := 0; phase := Entering |}]> (requests g)))
    else None
  | LStep r e =>
    q ← requests g !! r;
    '(g, q) ← open_flow_step g q e;
    Some (with_requests g (<[r := q]> (requests g)))
  | LCancel r =>
    q ← requests g !! r;
    g ← cancelled g (phase q);
    Some (with_requests g (delete r (requests g)))
  | LReload candidate =>
    match reloading g with None => Some (with_reload g (Some (Validating candidate))) | Some _ => None end
  | LReloadStep ok => reload_step g ok
  | LCarrier n lb => if carrier_label lb then carrier_step g n lb else None
  | LReap n => reap g n
  | LShutdown => Some (with_closed g)
  | LShutdownTake => shutdown_take g
  | LTick d => if 0 <=? d then Some (with_now g (now g + d)) else None
  end.

Fixpoint run (g : Manager) (ls : list Label) : option Manager :=
  match ls with
  | [] => Some g
  | lb :: ls => step g lb ≫= λ g, run g ls
  end.

End Pool.
End ClientPool.
