(* ===== verification/ClientPoolTheorems.v ===== *)
(** * ClientPoolTheorems: what the pool of carriers guarantees

    The moves of a request are summed up by a relation, [Move], once; the invariants of
    the pool are proved per move, per phase of a reload and per step of the rest. *)

From S2P Require Import Prelude Wire Varint FrameCodec RustStd Endpoint TargetCodec RelayPayload Settings FrameIo.
From S2P Require Import Mask ServerConfig ClientConfig RelayState Socks5 ClientSession ClientFlows ClientFlowsTheorems.
From S2P Require Import ClientOwnership ClientDrain ClientPool.

Module ClientPoolTheorems.
Import ClientSession ClientPool.
Import ClientConfig.ClientConfig (ClientConfig, ClientConfigState, ClientConfigGeneration, current, generation).

(** ** What a request holds *)

(** The carrier it made and has not published. *)
Definition pending (p : Phase) : option nat :=
  match p with Publishing _ n | Clearing n | Pushing n => Some n | _ => None end.
(** The published carriers it knows of. *)
Definition candidates (p : Phase) : list nat :=
  match p with
  | Ranking _ rest ranked => rest ++ (snd <$> ranked)
  | Trying _ l _ => l
  | Fresh n | Opening n | Answered (Got n) => [n]
  | _ => []
  end.
(** It is at the server's door: from the start of the dial to the publication. *)
Definition dialling (p : Phase) : bool :=
  match p with Dialling _ | Remembering _ _ | Publishing _ _ | Clearing _ | Pushing _ => true | _ => false end.
(** It has found that the pool may grow. *)
Definition roomy (p : Phase) : bool := match p with Cooldown true => true | _ => dialling p end.
(** It goes through the pool, under the lock, for a carrier that does not drain. *)
Definition searching (k : Kind) (p : Phase) : option (list nat) :=
  match k, p with
  | (CurrentSession | HealthSession), Ranking true rest _ => Some rest
  | _, _ => None
  end.

(** The carriers a reload has yet to drain. *)
Definition previous (r : option Reload) : list nat := match r with Some (Draining l) => l | _ => [] end.
(** The configuration is replaced and the pool is not empty yet. *)
Definition replacing (r : option Reload) : bool := match r with Some (Replaced | Emptying) => true | _ => false end.

(** ** The moves of a request *)

Section Moves.
Context {P : Platform}.

Definition plain (k : Kind) (p p' : Phase) : Prop :=
  (holds_connect p' = true → holds_connect p = true) ∧ pending p = None ∧ pending p' = None ∧
  candidates p' ⊆ candidates p ∧ (dialling p' = true → dialling p = true) ∧
  (roomy p' = true → roomy p = true ∨ searching k p = Some []) ∧ searching k p' = None ∧ (∀ n, p' ≠ Opening n).

Inductive Move (g : Manager) (k : Kind) : Phase → Manager → Phase → Prop :=
  | mv_plain p p' : plain k p p' → Move g k p g p'
  | mv_skip b n rest ranked :
      carrier_draining g n = true → Move g k (Ranking b (n :: rest) ranked) g (Ranking b rest ranked)
  | mv_lock : connect_free g = true → Move g k Locking g Locked
  | mv_look b : Move g k (Looking b) (snd (live_sessions g)) (Ranking b (fst (live_sessions g)) [])
  | mv_size p' :
      p' = Answered Exhausted ∨ p' = Cooldown true ∧ zlen (fst (live_sessions g)) < max_pool_size g →
      Move g k Sizing (snd (live_sessions g)) p'
  | mv_health b n rest ranked :
      Move g k (Ranking b (n :: rest) ranked) (mark_health_session g n) (Answered (Got n))
  | mv_admit p n s proto task g' :
      pending p = None → n ∈ candidates p → carrier_session g n = Some s → draining s = false → closed s = false →
      carrier_step g n (ClientFlows.LAdmit task proto) = Some g' → Move g k p g' (Opening n)
  | mv_cool b :
      Move g k (Cooldown b) (with_failure g None (consecutive_connect_failures g))
        (if b then Dialling (ClientConfig.snapshot (config g)) else Locking)
  | mv_dialled sn n l datagram settings :
      carriers g !! n = None → connect datagram (ClientConfig.config sn) settings = Ok l →
      Move g k (Dialling sn)
        (with_carriers g (<[n := {| system := ClientFlows.system_new l; config_generation := generation sn;
                                    health_session := false |}]> (carriers g))) (Publishing sn n)
  | mv_remember sn err f count :
      publish_free g = true → f_generation f = generation (current (config g)) →
      (∀ e, expires_at f = Some e → now g + 1 ≤ e ≤ now g + 45000) →
      Move g k (Remembering sn err) (with_failure g (Some f) count) (Answered (Failed err))
  | mv_drop p n g1 p' :
      pending p = Some n → (g1 = g ∨ g1 = clear_connect_failure g) →
      holds_connect p' = false → pending p' = None → candidates p' = [] → roomy p' = false → searching k p' = None →
      Move g k p (drop_pending g1 n) p'
  | mv_publish sn n :
      publish_free g = true → generation (current (config g)) = generation sn → Move g k (Publishing sn n) g (Clearing n)
  | mv_clear n : Move g k (Clearing n) (clear_connect_failure g) (Pushing n)
  | mv_push n g1 p' :
      is_closed g = false → (g1 = g ∨ g1 = mark_health_session g n) → (p' = Fresh n ∨ p' = Answered (Got n)) →
      Move g k (Pushing n) (with_pool g1 (pool g1 ++ [n]) (closing g1)) p'
  | mv_invalidate n g' p' :
      invalidate g n = Some g' → holds_connect p' = false → pending p' = None → candidates p' = [] → roomy p' = false →
      searching k p' = None → Move g k (Opening n) g' p'.

Ltac plain_move := apply mv_plain; unfold plain; simpl; split_and!; try done; try set_solver; auto.

Lemma insert_by_key_elem x l y : y ∈ insert_by_key x l ↔ y = x ∨ y ∈ l.
Proof. induction l as [|z l IH]; simpl; [set_solver|]. destruct (_ <=? _); set_solver. Qed.
Lemma sort_by_key_elem l y : y ∈ sort_by_key l ↔ y ∈ l.
Proof. induction l as [|x l IH]; simpl; [done|]. rewrite insert_by_key_elem, elem_of_cons. naive_solver. Qed.

Lemma jitter_bounds base k lo hi d :
  calculate_reconnect_jitter_range (calculate_reconnect_backoff_ms base k SERVER_CONNECT_RETRY_MAX_MILLIS) = (lo, hi) →
  lo ≤ d ≤ hi → 1 ≤ d ≤ 45000.
Proof.
  unfold calculate_reconnect_jitter_range. set (b := calculate_reconnect_backoff_ms _ _ _).
  assert (b ≤ 30000) as Hb by (unfold b, calculate_reconnect_backoff_ms, SERVER_CONNECT_RETRY_MAX_MILLIS; lia).
  intros [= <- <-]. pose proof (Z.div_le_mono (Z.min U64_MAX (b * 3)) 90000 2).
  pose proof (Z.div_le_mono b 30000 2). change (90000 / 2) with 45000 in *. change (30000 / 2) with 15000 in *. lia.
Qed.

Lemma remember_move g k sn err d b g' :
  publish_free g = true → remember_connect_failure sn err d g = Some (b, g') →
  Move g k (Remembering sn err) g' (if b then Answered (Failed err) else retried k).
Proof.
  intros Hf. unfold remember_connect_failure. cbv zeta. destruct (_ =? _) eqn:Eg; cbn [negb].
  2:{ intros [= <- <-]. destruct k; plain_move. }
  destruct (_ =? 0); [intros [= <- <-]; destruct k; plain_move|].
  destruct (calculate_reconnect_jitter_range _) as [lo hi] eqn:Ej. destruct (_ && _) eqn:Ed; [|done].
  intros [= <- <-]. bool_to_prop. apply mv_remember; [done|done|]. intros e. simpl. unfold retry_delay_expires_at.
  destruct (_ <? _); [|done]. intros [= <-]. pose proof (jitter_bounds _ _ _ _ d Ej). lia.
Qed.

Lemma try_on_move g k p proto n task refused g' p' :
  pending p = None → n ∈ candidates p → (∀ r, plain k p (refused r)) →
  try_on g proto n task refused = Some (g', p') → Move g k p g' p'.
Proof.
  intros Hp Hc Hr. unfold try_on. destruct (carrier_session g n) as [s|] eqn:Es; [|done].
  destruct (try_admit s proto) as [r|s'] eqn:Ea; [intros [= <- <-]; apply mv_plain, Hr|].
  destruct (carrier_step _ _ _) as [g1|] eqn:Ec; [|done]. intros [= <- <-].
  unfold try_admit in Ea. destruct (_ || _) eqn:Ed; [done|]. apply orb_false_iff in Ed as [? ?]. by eapply mv_admit.
Qed.

Lemma connect_step_move g k p e g' p' : connect_step g k p e = Some (g', p') → Move g k p g' p'.
Proof.
  unfold connect_step. destruct p as [| | | | | | | |sn|sn err|sn n|n|n| | |], e as [| |n' o|d|]; try done.
  - destruct (rbind o _) as [l|err|] eqn:Ec; [| |done].
    + case_bool_decide; [|done]. intros [= <- <-]. apply rbind_Ok in Ec as ([d st] & _ & Ec). by eapply mv_dialled.
    + intros [= <- <-]. destruct k; plain_move.
  - destruct (publish_free g) eqn:Ef; [|done]. simpl. destruct (remember_connect_failure _ _ _ _) as [[b g1]|] eqn:Er; [|done].
    intros [= <- <-]. by eapply remember_move.
  - destruct (publish_free g) eqn:Ef; [|done]. simpl. destruct (_ =? _) eqn:Eg; simpl; intros [= <- <-].
    + apply mv_publish; [done|]. bool_to_prop. done.
    + eapply mv_drop; [done|by left|by destruct k..].
  - destruct (is_closed (clear_connect_failure g)); intros [= <- <-]; [|apply mv_clear].
    eapply mv_drop; [done|by right|by destruct k..].
  - destruct (is_closed g) eqn:Ec; intros [= <- <-]; [eapply mv_drop; [done|by left|by destruct k..]|].
    apply mv_push; [done|destruct k; auto|destruct k; auto].
Qed.

Lemma rank_step_move g k b rest ranked g' p' :
  rank_step g k b rest ranked = (g', p') → Move g k (Ranking b rest ranked) g' p'.
Proof.
  unfold rank_step. destruct rest as [|n rest].
  - intros [= <- <-]. unfold looked. destruct k, b; plain_move.
    all: intros n; rewrite !list_elem_of_fmap; setoid_rewrite sort_by_key_elem; done.
  - destruct (carrier_draining g n) eqn:Ed; [intros [= <- <-]; by apply mv_skip|].
    destruct k; intros [= <- <-]; [destruct b; plain_move; rewrite fmap_app; set_solver|destruct b; plain_move|apply mv_health].
Qed.

Lemma with_failure_id g :
  recent_connect_failure g = None → with_failure g None (consecutive_connect_failures g) = g.
Proof. destruct g. simpl. by intros ->. Qed.

Lemma request_step_move g k p e g' p' : request_step g k p e = Some (g', p') → Move g k p g' p'.
Proof.
  unfold request_step. destruct p as [|b|b rest ranked|b l rf| | | |b|sn|sn err|sn n|n|n|n|n|a]; try apply connect_step_move.
  all: try (destruct e; try (by apply connect_step_move)).
  - destruct k; intros [= <- <-]; try destruct (is_closed g); plain_move.
  - intros [= <- <-]. apply mv_look.
  - intros [= H]. by apply rank_step_move.
  - unfold admit_step. destruct l; [|done]. destruct rf; intros [= <- <-]; [destruct b|]; destruct k; plain_move.
  - unfold admit_step. destruct l as [|n l]; [done|]. destruct k; [|done..]. apply try_on_move; [done|set_solver|].
    intros r. unfold plain. simpl. split_and!; try done; set_solver.
  - unfold admit_step. by destruct l.
  - unfold admit_step. by destruct l.
  - unfold admit_step. by destruct l.
  - destruct (connect_free g) eqn:E; [|done]. intros [= <- <-]. by apply mv_lock.
  - intros [= <- <-]. destruct (is_closed g), k; plain_move.
  - destruct (live_sessions g) as [live g1] eqn:El. intros [= <- <-]. replace g1 with (snd (live_sessions g)) by (by rewrite El).
    apply mv_size. destruct (_ <=? _) eqn:E; [by left|right]. bool_to_prop. split; [done|]. rewrite El. simpl.
    unfold live_sessions in El. injection El as <- <-. exact E.
  - destruct (recent_connect_failure_if_active g) as [[f|] g1] eqn:E; intros [= <- <-].
    + assert (g1 = g) as ->; [|destruct b, k; plain_move].
      unfold recent_connect_failure_if_active in E. repeat case_match; by simplify_eq.
    + assert (g1 = with_failure g None (consecutive_connect_failures g)) as ->; [|exact (mv_cool g k b)].
      unfold recent_connect_failure_if_active in E. repeat case_match; simplify_eq; try done. symmetry. by apply with_failure_id.
  - destruct k; [|done..]. apply try_on_move; [done|set_solver|]. intros []; unfold plain; simpl; split_and!; try done; set_solver.
Qed.

Lemma open_flow_step_move g q e g' q' :
  open_flow_step g q e = Some (g', q') → kind q' = kind q ∧ Move g (kind q) (phase q) g' (phase q').
Proof.
  unfold open_flow_step. intros H. assert ((∃ n o, phase q = Opening n ∧ e = OpenEnds o) ∨
    ∃ p, request_step g (kind q) (phase q) e = Some (g', p) ∧ q' = {| kind := kind q; attempt := attempt q; phase := p |})
    as [(n & o & Hp & ->)|(p & Hr & ->)].
  { destruct (request_step g (kind q) (phase q) e) as [[g1 p1]|] eqn:Er;
      destruct (phase q) eqn:Hp, e; try (left; by eauto); simpl in H; try done; right; injection H as <- <-; eauto. }
  - rewrite Hp in H |- *. destruct o as [[]|err|]; [| |].
    + simplify_eq. split; [done|]. destruct (kind q); plain_move.
    + destruct (match err with SessionDrainingError => Some g | _ => invalidate g n end) as [g1|] eqn:Eg; [|done].
      cbn [mbind option_bind] in H. injection H as <- <-.
      assert (err = SessionDrainingError ∧ g1 = g ∨ invalidate g n = Some g1) as [[-> ->]|Ei]
        by (destruct err; simplify_eq; auto);
        destruct (attempt q), (kind q); (split; [reflexivity|]); cbn [phase]; first [plain_move | by eapply mv_invalidate].
    + by destruct (request_step _ _ _ _) as [[]|] eqn:Er.
  - split; [done|]. simpl. by apply request_step_move in Hr.
Qed.
End Moves.

(** ** Who owns a carrier *)

Definition phases (g : Manager) : gmap nat Phase := phase <$> requests g.

(** Known to more than the request that made it. *)
Definition published (g : Manager) (n : nat) : Prop :=
  n ∈ pool g ∨ n ∈ previous (reloading g) ∨ ∃ i p, phases g !! i = Some p ∧ n ∈ candidates p.
Definition carrier_open (g : Manager) (n : nat) : Prop :=
  ∃ s, carrier_session g n = Some s ∧ draining s = false ∧ closed s = false.

(** The locks exclude each other; a carrier is published or pending, not both; and one
    that is open has an owner. *)
Record owned_ok (g : Manager) : Prop := {
  ok_connect i j p q : phases g !! i = Some p → phases g !! j = Some q →
    holds_connect p = true → holds_connect q = true → i = j;
  ok_publish i p : reload_holds_publish (reloading g) = true → phases g !! i = Some p → holds_publish p = false;
  ok_known n : published g n → is_Some (carriers g !! n);
  ok_pending i p n : phases g !! i = Some p → pending p = Some n → is_Some (carriers g !! n) ∧ ¬ published g n;
  ok_owned n : carrier_open g n →
    n ∈ pool g ∨ n ∈ closing g ∨ n ∈ previous (reloading g) ∨ ∃ i p, phases g !! i = Some p ∧ pending p = Some n
}.

Lemma nobody_phases h g : nobody h g = true → ∀ i p, phases g !! i = Some p → h p = false.
Proof.
  intros Hf i p. unfold nobody in Hf. apply bool_decide_eq_true in Hf. unfold phases. rewrite lookup_fmap.
  intros (q & Hq & ->)%fmap_Some. by apply Hf in Hq.
Qed.
Lemma publish_free_phases g i p : publish_free g = true → phases g !! i = Some p → holds_publish p = false.
Proof. intros [Hf _]%andb_true_iff. by apply nobody_phases. Qed.

(** One request goes from [op] to [op'] while the rest of the manager changes. *)
Section Change.
Context (g g' : Manager) (r : nat) (op op' : option Phase).
Context (Hop : phases g !! r = op) (Hph : phases g' = partial_alter (λ _, op') r (phases g)).

Lemma phases_change i p :
  phases g' !! i = Some p → i = r ∧ op' = Some p ∨ i ≠ r ∧ phases g !! i = Some p.
Proof.
  rewrite Hph. destruct (decide (i = r)) as [-> |Hi].
  - rewrite lookup_partial_alter_eq. by left.
  - rewrite lookup_partial_alter_ne by done. by right.
Qed.

Lemma phases_kept i p : i ≠ r → phases g !! i = Some p → phases g' !! i = Some p.
Proof. intros. by rewrite Hph, lookup_partial_alter_ne. Qed.
Lemma phases_new p : op' = Some p → phases g' !! r = Some p.
Proof. intros <-. by rewrite Hph, lookup_partial_alter_eq. Qed.

Lemma pending_holds p n : pending p = Some n → holds_connect p = true.
Proof. by destruct p. Qed.

Lemma owned_change :
  owned_ok g →
  (∀ p, op' = Some p → holds_connect p = true → (∃ q, op = Some q ∧ holds_connect q = true) ∨ connect_free g = true) →
  (reload_holds_publish (reloading g') = true →
     (∀ p, op' = Some p → holds_publish p = false) ∧ (reload_holds_publish (reloading g) = true ∨ publish_free g = true)) →
  (∀ n, n ∈ pool g' ∨ n ∈ previous (reloading g') ∨ (∃ p, op' = Some p ∧ n ∈ candidates p) →
     published g n ∨ op ≫= pending = Some n ∧ op' ≫= pending = None) →
  (∀ n, op' ≫= pending = Some n →
     is_Some (carriers g' !! n) ∧ (op ≫= pending = Some n ∨ carriers g !! n = None)) →
  (∀ n, is_Some (carriers g !! n) → is_Some (carriers g' !! n)) →
  (∀ n, carrier_open g' n → carrier_open g n ∨ op' ≫= pending = Some n) →
  (∀ n, carrier_open g' n → n ∈ pool g ∨ n ∈ closing g ∨ n ∈ previous (reloading g) →
     n ∈ pool g' ∨ n ∈ closing g' ∨ n ∈ previous (reloading g')) →
  (∀ n, op ≫= pending = Some n → op' ≫= pending = Some n ∨ n ∈ pool g' ∨ n ∈ closing g') →
  owned_ok g'.
Proof.
  intros Hok Hc Hr Hpub Hpend Hdom Hopen Hown Hleft.
  assert (∀ n, published g' n → published g n ∨ op ≫= pending = Some n ∧ op' ≫= pending = None) as Hpub'.
  { intros n [?|[?|(i & p & Hi & Hn)]]; [auto|auto|]. destruct (phases_change _ _ Hi) as [[-> ?]|[? Hi']]; [apply Hpub; by eauto|].
    left. right; right. by eauto. }
  assert (∀ n, op ≫= pending = Some n → ∃ q, phases g !! r = Some q ∧ pending q = Some n) as Hq.
  { intros n (q & Hq0 & ?)%bind_Some. exists q. split; [by rewrite Hop|done]. }
  split.
  - intros i j p q Hi Hj Hpi Hqj.
    assert (∀ i p q, phases g !! i = Some p → holds_connect p = true → i ≠ r → op' = Some q → holds_connect q = true → False) as Hx.
    { intros i' p' q' Hi' Hp' Hne Hq' Hqq. destruct (Hc _ Hq' Hqq) as [(q0 & -> & Hq0)|Hf].
      - apply Hne. eapply (ok_connect _ Hok); eauto.
      - apply (nobody_phases _ _ Hf) in Hi'. congruence. }
    destruct (phases_change _ _ Hi) as [[-> Hp1]|[Hni Hi1]], (phases_change _ _ Hj) as [[-> Hq1]|[Hnj Hj1]]; try done.
    + exfalso. eauto.
    + exfalso. eauto.
    + eapply (ok_connect _ Hok); eauto.
  - intros i p Hrl Hi. destruct (Hr Hrl) as [Hr1 Hr2]. destruct (phases_change _ _ Hi) as [[-> ?]|[_ Hi1]]; [auto|].
    destruct Hr2 as [Hr2|Hr2]; [by eapply (ok_publish _ Hok)|]. by eapply publish_free_phases.
  - intros n Hn. destruct (Hpub' _ Hn) as [H|[(q & Hq1 & Hq2)%Hq _]]; apply Hdom; [by apply (ok_known _ Hok)|].
    by apply (ok_pending _ Hok _ _ _ Hq1 Hq2).
  - intros i p n Hi Hn. destruct (phases_change _ _ Hi) as [[-> Hp]|[Hne Hi1]].
    + destruct (Hpend n) as [Hs Hn']; [by rewrite Hp|]. split; [done|]. intros [Hpb|[_ Hnone]]%Hpub'; [|rewrite Hp in Hnone; simpl in Hnone; congruence].
      destruct Hn' as [(q & Hq1 & Hq2)%Hq|Hnone]; [by apply (ok_pending _ Hok _ _ _ Hq1 Hq2)|].
      apply (ok_known _ Hok) in Hpb as [? Hpb]. congruence.
    + destruct (ok_pending _ Hok _ _ _ Hi1 Hn) as [Hs Hnp]. split; [auto|]. intros [?|[(q & Hq1 & Hq2)%Hq _]]%Hpub'; [done|].
      apply Hne. eapply (ok_connect _ Hok); eauto using pending_holds.
  - intros n Hn. assert (∀ p, op' = Some p → pending p = Some n → ∃ i p, phases g' !! i = Some p ∧ pending p = Some n) as Hnew.
    { intros p ? ?. exists r, p. split; [by apply phases_new|done]. }
    destruct (Hopen n Hn) as [Ho|(p & ? & ?)%bind_Some]; [|by eauto 6].
    destruct (ok_owned _ Hok n Ho) as [?|[?|[?|(i & p & Hi & Hp)]]]; [edestruct (Hown n); eauto; tauto..|].
    destruct (decide (i = r)) as [-> |Hne].
    + rewrite Hi in Hop. subst op. destruct (Hleft n Hp) as [(p' & ? & ?)%bind_Some|[?|?]]; eauto 6.
    + right; right; right. exists i, p. split; [by apply phases_kept|done].
Qed.
End Change.

(** ** How carriers evolve *)

Definition live (c : Carrier) : Session := ClientFlows.session (system c).

(** No carrier goes away, changes its generation, or opens again. *)
Definition grows (m m' : gmap nat Carrier) : Prop :=
  ∀ n, match m !! n, m' !! n with
       | Some c, Some c' =>
         config_generation c' = config_generation c ∧ (closed (live c) = true → closed (live c') = true) ∧
         (draining (live c) = true → draining (live c') = true)
       | None, None => True
       | _, _ => False
       end.

Lemma grows_refl m : grows m m.
Proof. intros n. by destruct (m !! n). Qed.
Lemma grows_insert m n c c' :
  m !! n = Some c → config_generation c' = config_generation c → (closed (live c) = true → closed (live c') = true) →
  (draining (live c) = true → draining (live c') = true) → grows m (<[n := c']> m).
Proof.
  intros Hn ? ? ? i. destruct (decide (i = n)) as [-> |Hi].
  - by rewrite lookup_insert_eq, Hn.
  - rewrite lookup_insert_ne by done. by destruct (m !! i).
Qed.
Lemma grows_dom m m' n : grows m m' → is_Some (m !! n) ↔ is_Some (m' !! n).
Proof. intros H. specialize (H n). rewrite !is_Some_alt. by destruct (m !! n), (m' !! n). Qed.
Lemma grows_open g g' n : grows (carriers g) (carriers g') → carrier_open g' n → carrier_open g n.
Proof.
  intros H (s & Hs & Hd & Hc). specialize (H n). unfold carrier_open, carrier_session in *.
  destruct (carriers g' !! n) as [c'|]; [|done]. destruct (carriers g !! n) as [c|]; [|done]. injection Hs as <-.
  destruct H as (_ & H1 & H2). exists (live c). split; [done|]. unfold live in *.
  destruct (draining (ClientFlows.session (system c))); [by rewrite H2 in Hd|].
  destruct (closed (ClientFlows.session (system c))); [by rewrite H1 in Hc|]. done.
Qed.

Section Steps.
Context {P : Platform} (ca_ok server_name_ok : Bytes → bool).

Lemma carrier_step_inv g n lb g' :
  carrier_step g n lb = Some g' →
  ∃ c y, carriers g !! n = Some c ∧ ClientFlows.step (system c) lb = Some y ∧
    g' = with_carriers g (<[n := {| system := y; config_generation := config_generation c;
                                    health_session := health_session c |}]> (carriers g)).
Proof. unfold carrier_step. repeat case_match; intros; simplify_eq. eauto. Qed.

Lemma carrier_step_grows g n lb g' :
  carrier_step g n lb = Some g' → ∃ m, g' = with_carriers g m ∧ grows (carriers g) m.
Proof.
  intros (c & y & Hc & Hy & ->)%carrier_step_inv. eexists. split; [done|]. eapply grows_insert; [done|done|..]; unfold live; simpl.
  - by apply ClientDrain.step_life in Hy as [? _].
  - apply ClientDrain.step_life in Hy as [_ Hd]. destruct lb; by rewrite Hd.
Qed.
Lemma mark_health_grows g n : grows (carriers g) (carriers (mark_health_session g n)).
Proof.
  simpl. intros i. destruct (decide (i = n)) as [-> |Hi].
  - rewrite lookup_alter_eq. by destruct (carriers g !! n).
  - rewrite lookup_alter_ne by done. by destruct (carriers g !! i).
Qed.

Lemma live_sessions_elem g n :
  (n ∈ fst (live_sessions g) ↔ n ∈ pool g ∧ carrier_closed g n = false) ∧
  (n ∈ closing (snd (live_sessions g)) ↔ n ∈ closing g ∨ n ∈ pool g ∧ carrier_closed g n = true).
Proof. simpl. rewrite elem_of_app, !list_elem_of_filter. tauto. Qed.

Lemma invalidate_inv g n g' :
  invalidate g n = Some g' →
  (∃ m, g' = with_carriers g m ∧ grows (carriers g) m) ∨
  g' = with_pool g (filter (λ m, m ≠ n) (pool g)) (closing g ++ [n]).
Proof. unfold invalidate. case_bool_decide; [intros [= <-]; auto|]. intros ?%carrier_step_grows. auto. Qed.

Lemma move_frame g k p g' p' :
  Move g k p g' p' →
  requests g' = requests g ∧ reloading g' = reloading g ∧ config g' = config g ∧ is_closed g' = is_closed g ∧ now g' = now g.
Proof.
  destruct 1 as [| | | | | |p n s proto task g' _ _ _ _ _ Hs| | | |p n g1 p' _ [-> | ->]| | |n g1 p' _ [-> | ->]|n g' p' Hi]; try done.
  - by apply carrier_step_grows in Hs as (m & -> & _).
  - by apply invalidate_inv in Hi as [(m & -> & _)| ->].
Qed.

(** What a move does to the carriers: nothing, or one more that is pending. *)
Lemma move_carriers g k p g' p' :
  Move g k p g' p' →
  grows (carriers g) (carriers g') ∨
  ∃ n sn l, p = Dialling sn ∧ p' = Publishing sn n ∧ carriers g !! n = None ∧
    carriers g' = <[n := {| system := ClientFlows.system_new l; config_generation := generation sn;
                            health_session := false |}]> (carriers g).
Proof.
  destruct 1 as [| | | | | |p n s proto task g' _ _ _ _ _ Hs| | | |p n g1 p' _ [-> | ->]| | |n g1 p' _ [-> | ->]|n g' p' Hi];
    try (left; apply grows_refl); try (left; apply mark_health_grows); try (right; by eauto 8).
  - left. by apply carrier_step_grows in Hs as (m & -> & ?).
  - left. by apply invalidate_inv in Hi as [(m & -> & ?)| ->]; [|apply grows_refl].
Qed.

(** What it does to the pool and to what is being closed. *)
Lemma live_pool g :
  (∀ n, n ∈ pool (snd (live_sessions g)) → n ∈ pool g) ∧
  (∀ n, carrier_open (snd (live_sessions g)) n → n ∈ pool g ∨ n ∈ closing g →
     n ∈ pool (snd (live_sessions g)) ∨ n ∈ closing (snd (live_sessions g))).
Proof.
  split; [intros n Hn; by apply live_sessions_elem|]. intros n (s & Hs & _ & Hcl) Hn.
  change (carrier_session g n = Some s) in Hs.
  assert (carrier_closed g n = false) by (unfold carrier_closed; by rewrite Hs).
  rewrite (proj2 (live_sessions_elem g n)). destruct Hn; [left; by apply live_sessions_elem|auto].
Qed.

Lemma move_pool g k p g' p' :
  Move g k p g' p' →
  (∀ n, n ∈ pool g' → n ∈ pool g ∨ p = Pushing n ∧ pending p' = None ∧ is_closed g = false) ∧
  (∀ n, carrier_open g' n → n ∈ pool g ∨ n ∈ closing g → n ∈ pool g' ∨ n ∈ closing g') ∧
  (∀ n, pending p = Some n → pending p' = Some n ∨ n ∈ pool g' ∨ n ∈ closing g').
Proof.
  destruct 1 as [p p' Hpl| | |b|p' _| |p n s proto task g' Hp _ _ _ _ Hs| | | |p n g1 p' Hp Hg1| | |n g1 p' Hcl Hg1 Hp'|n g' p' Hi _ Hp'];
    try (by split_and!; auto).
  - destruct Hpl as (_ & -> & _). by split_and!; auto.
  - destruct (live_pool g) as [H1 H2]. split_and!; [auto|done|done].
  - destruct (live_pool g) as [H1 H2]. split_and!; [auto|done|done].
  - apply carrier_step_grows in Hs as (m & -> & _). rewrite Hp. by split_and!; auto.
  - assert (pool g1 = pool g ∧ closing g1 = closing g) as [E1 E2] by (by destruct Hg1 as [-> | ->]).
    simpl. rewrite E1, E2, Hp. setoid_rewrite elem_of_app. setoid_rewrite list_elem_of_singleton.
    split_and!; [auto|tauto|]. intros ? [= <-]. auto.
  - assert (pool g1 = pool g ∧ closing g1 = closing g) as [E1 E2] by (by destruct Hg1 as [-> | ->]).
    simpl. rewrite E1, E2. setoid_rewrite elem_of_app. setoid_rewrite list_elem_of_singleton.
    split_and!; [|tauto|intros ? [= <-]; auto]. intros m [?| ->]; [auto|]. right. by destruct Hp' as [-> | ->].
  - apply invalidate_inv in Hi as [(m & -> & _)| ->]; [by split_and!; auto|]. split_and!; simpl; [|..|done].
    + intros m [? ?]%list_elem_of_filter. auto.
    + intros m _ Hm. rewrite list_elem_of_filter, elem_of_app, list_elem_of_singleton. destruct (decide (m = n)); tauto.
Qed.

Lemma move_phases g k p g' p' :
  Move g k p g' p' →
  (holds_connect p' = true → holds_connect p = true ∨ connect_free g = true) ∧
  (holds_publish p' = true → holds_publish p = true ∨ publish_free g = true) ∧
  (∀ n, n ∈ candidates p' → n ∈ candidates p ∨ n ∈ pool g ∨ pending p = Some n ∧ pending p' = None) ∧
  (∀ n, pending p' = Some n → pending p = Some n ∨ carriers g !! n = None ∧ is_Some (carriers g' !! n)).
Proof.
  assert (∀ (n : nat) (Q : Prop), n ∈ [] → Q) as Hnil by (by intros n Q ?%not_elem_of_nil).
  destruct 1 as [p p' Hpl| | |b|p' Hp'| |p n s proto task g' Hp Hn _ _ _ _|b|sn n l d st Hn _| |p n g1 p' Hp _ Hh Hp' Hc| | |n g1 p' _ _ Hp'|n g' p' _ Hh Hp' Hc];
    simpl; try (by split_and!; eauto).
  - destruct Hpl as (? & Hp & Hp2 & Hc & _). rewrite Hp2. split_and!; [by auto| |by auto|done]. by destruct p'.
  - split_and!; [auto|auto| |done]. intros m Hm. left. by right.
  - split_and!; [auto|auto| |done]. intros n. rewrite app_nil_r. intros Hn%live_sessions_elem. tauto.
  - destruct Hp' as [-> |[-> _]]; split_and!; simpl; eauto; done.
  - split_and!; [done|done| |done]. intros m ->%list_elem_of_singleton. left. by left.
  - split_and!; [done|done| |done]. intros m ->%list_elem_of_singleton. auto.
  - destruct b; by split_and!; simpl; eauto.
  - split_and!; [auto|done|eauto|]. intros ? [= <-]. right. rewrite lookup_insert_eq. eauto.
  - rewrite Hh, Hp', Hc. split_and!; [done| |intros m Hm; exact (Hnil m _ Hm)|done]. by destruct p'.
  - assert (candidates p' = [n] ∧ holds_connect p' = true ∨ candidates p' = [n] ∧ holds_connect p' = false) as H by (destruct Hp' as [-> | ->]; auto).
    assert (holds_publish p' = false ∧ pending p' = None) as [-> ->] by (by destruct Hp' as [-> | ->]).
    destruct H as [[-> ->]|[-> ->]]; (split_and!; [by auto|done| |done]); intros m ->%list_elem_of_singleton; auto.
  - rewrite Hh, Hp', Hc. split_and!; [done| |intros m Hm; exact (Hnil m _ Hm)|done]. by destruct p'.
Qed.

Lemma owned_move g k r p g' p' g'' :
  owned_ok g → phases g !! r = Some p → Move g k p g' p' →
  g'' = with_requests g' (requests g'') → phases g'' = <[r := p']> (phases g) → owned_ok g''.
Proof.
  intros Hok Hp Hm Heq Hph. destruct (move_frame _ _ _ _ _ Hm) as (_ & Hrl & _).
  destruct (move_pool _ _ _ _ _ Hm) as (Hp1 & Hp2 & Hp3). destruct (move_phases _ _ _ _ _ Hm) as (Hc & Hpb & Hcd & Hpd).
  assert (pool g'' = pool g' ∧ closing g'' = closing g' ∧ carriers g'' = carriers g' ∧ reloading g'' = reloading g) as (E1 & E2 & E3 & E4).
  { rewrite Heq. simpl. by rewrite Hrl. }
  assert (∀ n, carrier_open g'' n ↔ carrier_open g' n) as Ho by (intros n; unfold carrier_open, carrier_session; by rewrite E3).
  pose proof (move_carriers _ _ _ _ _ Hm) as Hgr.
  eapply (owned_change g g'' r (Some p) (Some p')); rewrite ?E1, ?E2, ?E3, ?E4; [done|done|done|..].
  - intros ? [= <-] ?. destruct (Hc ltac:(done)); eauto.
  - intros Hr. split; [|by left]. intros ? [= <-]. destruct (holds_publish p') eqn:Eh; [exfalso|done].
    destruct (Hpb eq_refl) as [Hh|[_ Hf]%andb_true_iff]; [by rewrite (ok_publish _ Hok r p Hr Hp) in Hh|by rewrite Hr in Hf].
  - intros n [Hn|[Hn|(? & [= <-] & Hn)]]; simpl.
    + destruct (Hp1 _ Hn) as [?|(-> & ? & _)]; [left; by left|auto].
    + left; right; by left.
    + destruct (Hcd _ Hn) as [?|[?|?]]; [left; right; right; by eauto|left; by left|auto].
  - simpl. intros n Hn. destruct (Hpd _ Hn) as [Hn'|[? ?]]; [|auto]. split; [|by left].
    destruct (ok_pending _ Hok _ _ _ Hp Hn') as [Hs _].
    destruct Hgr as [Hgr|(m & sn & l & -> & _)]; [by apply (grows_dom _ _ _ Hgr)|done].
  - intros n Hn. destruct Hgr as [Hgr|(m & sn & l & _ & _ & _ & ->)]; [by apply (grows_dom _ _ _ Hgr)|].
    destruct (decide (n = m)) as [-> |]; [by rewrite lookup_insert_eq|by rewrite lookup_insert_ne].
  - intros n Hn%Ho. destruct Hgr as [Hgr|(m & sn & l & _ & -> & _ & E)]; [left; by eapply grows_open|].
    unfold carrier_open, carrier_session in Hn |- *. rewrite E in Hn.
    destruct (decide (n = m)) as [-> |]; [by right|]. left. by rewrite lookup_insert_ne in Hn by done.
  - intros n Hn%Ho. destruct 1 as [?|[?|?]]; [destruct (Hp2 n Hn); auto..|auto].
  - simpl. intros n Hn. destruct (Hp3 _ Hn) as [?|[?|?]]; auto.
Qed.

Lemma step_request_inv g r e g' :
  step ca_ok server_name_ok g (LStep r e) = Some g' →
  ∃ q q' g1, requests g !! r = Some q ∧ kind q' = kind q ∧ Move g (kind q) (phase q) g1 (phase q') ∧
    g' = with_requests g1 (<[r := q']> (requests g)).
Proof.
  simpl. destruct (requests g !! r) as [q|] eqn:Hq; [|done]. simpl.
  destruct (open_flow_step g q e) as [[g1 q1]|] eqn:Ho; [|done]. intros [= <-].
  apply open_flow_step_move in Ho as [Hk Hm]. exists q, q1, g1. destruct (move_frame _ _ _ _ _ Hm) as (-> & _). done.
Qed.

Lemma requests_phases g i q : requests g !! i = Some q → phases g !! i = Some (phase q).
Proof. intros H. unfold phases. by rewrite lookup_fmap, H. Qed.

(** No request moves. *)
Lemma owned_other g g' :
  owned_ok g → phases g' = phases g → grows (carriers g) (carriers g') →
  (reload_holds_publish (reloading g') = true → reload_holds_publish (reloading g) = true ∨ publish_free g = true) →
  (∀ n, n ∈ pool g' ∨ n ∈ previous (reloading g') → n ∈ pool g ∨ n ∈ previous (reloading g)) →
  (∀ n, carrier_open g' n → n ∈ pool g ∨ n ∈ closing g ∨ n ∈ previous (reloading g) →
     n ∈ pool g' ∨ n ∈ closing g' ∨ n ∈ previous (reloading g')) →
  owned_ok g'.
Proof.
  intros Hok Hph Hgr Hrl Hsub Hown.
  eapply (owned_change g g' 0 (phases g !! 0%nat) (phases g !! 0%nat)); [done| |done|..].
  - apply map_eq. intros i. rewrite Hph. destruct (decide (i = 0%nat)) as [-> |];
      [by rewrite lookup_partial_alter_eq|by rewrite lookup_partial_alter_ne].
  - intros p Hp ?. left. eauto.
  - intros Hr. split; [|by apply Hrl]. intros p Hp.
    destruct (Hrl Hr) as [?|Hf]; [by eapply (ok_publish _ Hok)|by eapply publish_free_phases].
  - intros n [Hn|[Hn|(p & Hp & Hn)]]; left; [|..|right; right; by eauto];
      (destruct (Hsub n) as [?|?]; [auto|by left|right; by left]).
  - intros n (p & Hp & Hn)%bind_Some. rewrite Hp. simpl. split; [|by left].
    apply (grows_dom _ _ _ Hgr). by apply (ok_pending _ Hok _ _ _ Hp Hn).
  - intros n. by apply (grows_dom _ _ _ Hgr).
  - intros n Hn. left. by eapply grows_open.
  - done.
  - auto.
Qed.

Lemma owned_cancel g r q g1 :
  owned_ok g → requests g !! r = Some q → cancelled g (phase q) = Some g1 →
  owned_ok (with_requests g1 (delete r (requests g1))).
Proof.
  intros Hok Hq Hc. assert (phases g !! r = Some (phase q)) as Hp by (unfold phases; by rewrite lookup_fmap, Hq).
  assert (g1 = g ∧ pending (phase q) = None ∨ ∃ n, g1 = drop_pending g n ∧ pending (phase q) = Some n) as Hg1.
  { destruct (phase q); simpl in *; simplify_eq; eauto. }
  set (g' := with_requests g1 _).
  assert (reloading g' = reloading g ∧ carriers g' = carriers g ∧ pool g' = pool g ∧ phases g' = delete r (phases g))
    as (E1 & E2 & E3 & E4).
  { unfold phases. destruct Hg1 as [[-> _]|(n & -> & _)]; simpl; by rewrite fmap_delete. }
  assert (∀ n, n ∈ closing g ∨ pending (phase q) = Some n → n ∈ closing g') as Hcl.
  { destruct Hg1 as [[-> H]|(m & -> & H)]; rewrite H; simpl; set_solver. }
  eapply (owned_change g g' r (Some (phase q)) None); rewrite ?E1, ?E2, ?E3; try done; simpl.
  - intros Hr. split; [done|by left].
  - intros n [?|[?|(? & ? & _)]]; [left; by left|left; right; by left|done].
  - intros n. unfold carrier_open, carrier_session. rewrite E2. auto.
  - intros n _. specialize (Hcl n). tauto.
  - intros n Hn. right; right. auto.
Qed.

Lemma reload_step_owned g ok g' : owned_ok g → reload_step ca_ok server_name_ok g ok = Some g' → owned_ok g'.
Proof.
  intros Hok. unfold reload_step. destruct (reloading g) as [[c|c|c| | |[|n l]]|] eqn:Er; [..|done].
  - intros [= <-]. apply (owned_other g); try done; simpl; rewrite ?Er; auto using grows_refl; destruct (_ && _); auto.
  - destruct (publish_free g) eqn:Ef; [|done]. intros [= <-].
    apply (owned_other g); try done; simpl; rewrite ?Er; auto using grows_refl; destruct (ensure_reload_compatible _ _); auto.
  - destruct ok; intros [= <-]; apply (owned_other g); try done; simpl; rewrite ?Er; auto using grows_refl.
  - intros [= <-]. apply (owned_other g); try done; simpl; rewrite ?Er; auto using grows_refl.
  - intros [= <-]. apply (owned_other g); try done; simpl; rewrite ?Er; auto using grows_refl; set_solver.
  - intros [= <-]. apply (owned_other g); try done; simpl; rewrite ?Er; auto using grows_refl.
  - destruct (carrier_step _ _ _) as [g1|] eqn:Ec; [|done]. intros [= <-].
    pose proof (carrier_step_inv _ _ _ _ Ec) as (c & y & Hc & Hy & E). pose proof (carrier_step_grows _ _ _ _ Ec) as (cs & -> & Hgr).
    injection E as ->. apply (owned_other g); try done; simpl; rewrite ?Er; [auto|set_solver|].
    intros m (s & Hs & Hd & _) [?|[?|Hm]]; [auto..|]. apply elem_of_cons in Hm as [-> |?]; [exfalso|auto].
    unfold carrier_session in Hs. simpl in Hs. rewrite lookup_insert_eq in Hs. injection Hs as <-.
    apply ClientDrain.step_life in Hy as [_ Hd']. simpl in *. congruence.
Qed.

Lemma owned_manager_step g lb g' : owned_ok g → step ca_ok server_name_ok g lb = Some g' → owned_ok g'.
Proof.
  intros Hok. destruct lb as [r k|r e|r|c|ok|n lb|n| | |d]; [simpl| |simpl..].
  - case_bool_decide as Hr; [|done]. intros [= <-].
    eapply (owned_change g _ r None (Some Entering)); try done; simpl; auto.
    + unfold phases. by rewrite lookup_fmap, Hr.
    + unfold phases. simpl. by rewrite fmap_insert.
    + intros ? [= <-]. done.
    + intros H. split; [|by left]. by intros ? [= <-].
    + intros n [?|[?|(? & [= <-] & Hn)]]; [left; by left|left; right; by left|by apply not_elem_of_nil in Hn].
  - intros (q & q' & g1 & Hq & _ & Hm & ->)%step_request_inv. eapply (owned_move _ _ r); [done|by apply requests_phases|exact Hm|done|].
    unfold phases. simpl. by rewrite fmap_insert.
  - destruct (requests g !! r) as [q|] eqn:Hq; [|done]. simpl.
    destruct (cancelled g (phase q)) as [g1|] eqn:Hc; [|done]. intros [= <-]. by eapply owned_cancel.
  - destruct (reloading g) eqn:Er; [done|]. intros [= <-].
    apply (owned_other g); try done; simpl; rewrite ?Er; auto using grows_refl.
  - by apply reload_step_owned.
  - destruct (carrier_label lb); [|done]. intros (cs & -> & Hgr)%carrier_step_grows. apply (owned_other g); try done; auto.
  - unfold reap. case_bool_decide as Hn; [|done]. intros Hs. pose proof (carrier_step_inv _ _ _ _ Hs) as (c & y & Hc & Hy & E).
    apply carrier_step_grows in Hs as (cs & -> & Hgr). injection E as ->. apply (owned_other g); try done; simpl; auto.
    intros m Hm. rewrite list_elem_of_filter. destruct (decide (m = n)) as [-> |]; [|tauto].
    exfalso. destruct Hm as (s & Hm & _ & Hcl). unfold carrier_session in Hm. simpl in Hm. rewrite lookup_insert_eq in Hm.
    injection Hm as <-. simpl in Hy. injection Hy as <-. simpl in Hcl. by rewrite ClientDrain.close_closed in Hcl.
  - intros [= <-]. apply (owned_other g); try done; auto using grows_refl.
  - unfold shutdown_take. destruct (is_closed g); [|done]. intros [= <-]. apply (owned_other g); try done; simpl; auto using grows_refl; set_solver.
  - destruct (0 <=? d); [|done]. intros [= <-]. apply (owned_other g); try done; auto using grows_refl.
Qed.

(** ** Generations *)

(** Between two states no carrier begins to drain. *)
Definition calm (m m' : gmap nat Carrier) : Prop :=
  ∀ n c', m' !! n = Some c' →
    ∃ c, m !! n = Some c ∧ config_generation c' = config_generation c ∧ draining (live c') = draining (live c).

Lemma calm_same m : calm m m.
Proof. intros n c. eauto. Qed.
Lemma carrier_step_calm g n lb g' :
  carrier_step g n lb = Some g' → lb ≠ ClientFlows.LDrain → calm (carriers g) (carriers g').
Proof.
  intros (c & y & Hc & Hy & ->)%carrier_step_inv Hlb i c'. simpl. destruct (decide (i = n)) as [-> |].
  - rewrite lookup_insert_eq. intros [= <-]. exists c. split_and!; [done|done|].
    apply ClientDrain.step_life in Hy as [_ Hd]. unfold live. simpl. by destruct lb.
  - rewrite lookup_insert_ne by done. eauto.
Qed.
Lemma mark_health_calm g n : calm (carriers g) (carriers (mark_health_session g n)).
Proof.
  intros i c'. simpl. destruct (decide (i = n)) as [-> |].
  - rewrite lookup_alter_eq. intros (c & -> & ->)%fmap_Some. eauto.
  - rewrite lookup_alter_ne by done. eauto.
Qed.

Lemma move_calm g k p g' p' :
  Move g k p g' p' →
  calm (carriers g) (carriers g') ∨
  ∃ n sn l, p = Dialling sn ∧ p' = Publishing sn n ∧ carriers g !! n = None ∧
    carriers g' = <[n := {| system := ClientFlows.system_new l; config_generation := generation sn;
                            health_session := false |}]> (carriers g).
Proof.
  destruct 1 as [| | | | | |p n s proto task g' _ _ _ _ _ Hs| | | |p n g1 p' _ [-> | ->]| | |n g1 p' _ [-> | ->]|n g' p' Hi];
    try (left; apply calm_same); try (left; apply mark_health_calm); try (right; by eauto 8).
  - left. by eapply carrier_step_calm.
  - left. unfold invalidate in Hi. case_bool_decide; [simplify_eq; apply calm_same|by eapply carrier_step_calm].
Qed.

(** The way of a carrier from the dial to the pool. *)
Lemma move_pending g k p g' p' n :
  Move g k p g' p' → pending p' = Some n →
  (∃ sn, p = Dialling sn ∧ p' = Publishing sn n) ∨
  (∃ sn, p = Publishing sn n ∧ p' = Clearing n ∧ generation (current (config g)) = generation sn) ∨
  p = Clearing n ∧ p' = Pushing n.
Proof.
  destruct 1 as [p p' (_ & _ & -> & _)| | | |p' [-> |[-> _]]| | |b| | |p m g1 p' _ _ _ ->| | |m g1 p' _ _ [-> | ->]|m g' p' _ _ ->];
    simpl; intros; simplify_eq; eauto 6. by destruct b.
Qed.

Record generations_ok (g : Manager) : Prop := {
  gn_pool n c : replacing (reloading g) = false → n ∈ pool g → carriers g !! n = Some c →
    config_generation c = generation (current (config g));
  gn_drains n c : n ∈ pool g ∨ (∃ i p, phases g !! i = Some p ∧ pending p = Some n) → carriers g !! n = Some c →
    draining (live c) = false;
  gn_snapshot i sn n c : phases g !! i = Some (Publishing sn n) → carriers g !! n = Some c →
    config_generation c = generation sn;
  gn_held i p n c : phases g !! i = Some p → p = Clearing n ∨ p = Pushing n → carriers g !! n = Some c →
    config_generation c = generation (current (config g));
  gn_emptied l : reloading g = Some (Draining l) → pool g = []
}.

(** A carrier after the move: as it was, or the new one. *)
Lemma move_origin g k p g' p' n c' :
  Move g k p g' p' → carriers g' !! n = Some c' →
  (∃ c, carriers g !! n = Some c ∧ config_generation c' = config_generation c ∧ draining (live c') = draining (live c)) ∨
  carriers g !! n = None ∧ ∃ sn, p = Dialling sn ∧ p' = Publishing sn n ∧ config_generation c' = generation sn ∧ draining (live c') = false.
Proof.
  intros Hm. destruct (move_calm _ _ _ _ _ Hm) as [Hcalm|(m & sn & l & -> & -> & Hm0 & ->)]; [auto|].
  destruct (decide (n = m)) as [-> |]; [rewrite lookup_insert_eq|rewrite lookup_insert_ne by done; eauto].
  intros [= <-]. right. eauto 6.
Qed.

Lemma generations_move g k r p g' p' g'' :
  owned_ok g → generations_ok g → phases g !! r = Some p → Move g k p g' p' →
  g'' = with_requests g' (requests g'') → phases g'' = <[r := p']> (phases g) → generations_ok g''.
Proof.
  intros Hok Hg Hp Hm Heq Hph. destruct (move_frame _ _ _ _ _ Hm) as (_ & Hrl & Hcf & _).
  destruct (move_pool _ _ _ _ _ Hm) as (Hpool & _).
  assert (pool g'' = pool g' ∧ carriers g'' = carriers g' ∧ reloading g'' = reloading g ∧ config g'' = config g) as (E1 & E2 & E3 & E4).
  { rewrite Heq. simpl. by rewrite Hrl, Hcf. }
  assert (∀ i q, phases g'' !! i = Some q → i = r ∧ q = p' ∨ phases g !! i = Some q) as Hi.
  { intros i q. rewrite Hph, lookup_insert_Some. naive_solver. }
  pose proof (λ n c', move_origin g k p g' p' n c' Hm) as Hc. rewrite <-E2 in Hc.
  assert (∀ n, published g n ∨ (∃ i q, phases g !! i = Some q ∧ pending q = Some n) → is_Some (carriers g !! n)) as Hk.
  { intros n [?|(i & q & ? & ?)]; [by apply (ok_known _ Hok)|by eapply (ok_pending _ Hok)]. }
  split; rewrite ?E1, ?E3, ?E4.
  - intros n c' Hre Hn Hc'. assert (n ∈ pool g ∨ p = Pushing n) as Hn' by (destruct (Hpool n Hn) as [?|(? & _)]; auto).
    destruct (Hc _ _ Hc') as [(c & Hc0 & -> & _)|(Hnone & _)].
    + destruct Hn' as [?| ->]; [by eapply (gn_pool _ Hg)|]. eapply (gn_held _ Hg); eauto.
    + destruct (Hk n) as [? ?]; [|congruence]. destruct Hn' as [?| ->]; [left; by left|right; by eauto].
  - intros n c' Hn Hc'. destruct (Hc _ _ Hc') as [(c & Hc0 & _ & ->)|(_ & sn & _ & _ & _ & Hd)]; [|done].
    eapply (gn_drains _ Hg); [|exact Hc0]. destruct Hn as [Hn|(i & q & Hq & Hn)].
    + destruct (Hpool n Hn) as [?|(-> & _)]; [by left|right; by eauto].
    + right. destruct (Hi _ _ Hq) as [[-> ->]|?]; [|by eauto].
      destruct (move_phases _ _ _ _ _ Hm) as (_ & _ & _ & Hpd). destruct (Hpd _ Hn) as [?|[? _]]; [by eauto|congruence].
  - intros i sn n c' Hq Hc'. destruct (Hi _ _ Hq) as [[-> <-]|Hq0].
    + destruct (move_phases _ _ _ _ _ Hm) as (_ & _ & _ & Hpd).
      destruct (Hc _ _ Hc') as [(c & Hc0 & -> & _)|(_ & ? & _ & [= <-] & ? & _)]; [|done].
      destruct (Hpd n eq_refl) as [Hpn|[? _]]; [|congruence].
      destruct (move_pending _ _ _ _ _ n Hm eq_refl) as [(? & -> & _)|[(? & _ & ? & _)|[_ ?]]]; done.
    + destruct (Hc _ _ Hc') as [(c & Hc0 & -> & _)|(Hnone & _)]; [by eapply (gn_snapshot _ Hg)|].
      destruct (Hk n) as [? ?]; [right; by eauto|congruence].
  - intros i q n c' Hq Hqn Hc'.
    assert (pending q = Some n) as Hpn by (by destruct Hqn as [-> | ->]).
    destruct (Hi _ _ Hq) as [[-> ->]|Hq0].
    + destruct (move_pending _ _ _ _ _ n Hm Hpn) as [(sn' & -> & ->)|[(sn & -> & -> & ->)|[-> ->]]]; [by destruct Hqn|..];
        (destruct (Hc _ _ Hc') as [(c & Hc0 & -> & _)|(Hnone & _)];
         [|destruct (Hk n) as [? ?]; [right; by eauto|congruence]]).
      * by eapply (gn_snapshot _ Hg).
      * eapply (gn_held _ Hg); eauto.
    + destruct (Hc _ _ Hc') as [(c & Hc0 & -> & _)|(Hnone & _)]; [by eapply (gn_held _ Hg)|].
      destruct (Hk n) as [? ?]; [right; by eauto|congruence].
  - intros l Hl. apply (gn_emptied _ Hg) in Hl as Hp0. destruct (pool g') as [|n t] eqn:Ep; [done|exfalso].
    destruct (Hpool n) as [Hn|(-> & _)]; [by left|by rewrite Hp0 in Hn; apply not_elem_of_nil in Hn|].
    assert (holds_publish (Pushing n) = false) by (eapply (ok_publish _ Hok); [by rewrite Hl|done]). done.
Qed.

(** No request moves and no carrier begins to drain. *)
Lemma generations_other g g' :
  generations_ok g → (∀ i q, phases g' !! i = Some q → phases g !! i = Some q ∨ pending q = None) →
  calm (carriers g) (carriers g') →
  (∀ n, n ∈ pool g' → n ∈ pool g) → config g' = config g →
  (replacing (reloading g') = false → replacing (reloading g) = false ∨ pool g' = []) →
  (∀ l, reloading g' = Some (Draining l) → (∃ l, reloading g = Some (Draining l)) ∨ pool g' = []) → generations_ok g'.
Proof.
  intros Hg Hph Hcalm Hpool Hcf Hrp Hdr. split; rewrite ?Hcf.
  - intros n c' Hre Hn (c & Hc & -> & _)%Hcalm. destruct (Hrp Hre) as [?|E]; [eapply (gn_pool _ Hg); eauto|].
    rewrite E in Hn. by apply not_elem_of_nil in Hn.
  - intros n c' Hn (c & Hc & _ & ->)%Hcalm. eapply (gn_drains _ Hg); [|done].
    destruct Hn as [?|(i & q & Hq & Hn)]; [auto|]. right. destruct (Hph _ _ Hq); [eauto|congruence].
  - intros i sn n c' Hq (c & Hc & -> & _)%Hcalm. destruct (Hph _ _ Hq) as [?|?]; [by eapply (gn_snapshot _ Hg)|done].
  - intros i q n c' Hq Hqn (c & Hc & -> & _)%Hcalm. destruct (Hph _ _ Hq) as [?|?]; [by eapply (gn_held _ Hg)|].
    by destruct Hqn as [-> | ->].
  - intros l Hl. destruct (Hdr _ Hl) as [(l' & Hl')|?]; [|done]. apply (gn_emptied _ Hg) in Hl'.
    destruct (pool g') as [|n t]; [done|]. specialize (Hpool n). rewrite Hl' in Hpool. set_solver.
Qed.

Lemma generations_drain g n g1 l :
  owned_ok g → generations_ok g → reloading g = Some (Draining (n :: l)) →
  carrier_step g n ClientFlows.LDrain = Some g1 → generations_ok (with_reload g1 (Some (Draining l))).
Proof.
  intros Hok Hg Hr (c0 & y & Hc0 & _ & ->)%carrier_step_inv. apply (gn_emptied _ Hg) in Hr as Hp.
  assert (∀ m c', <[n := {| system := y; config_generation := config_generation c0; health_session := health_session c0 |}]>
      (carriers g) !! m = Some c' → ∃ c, carriers g !! m = Some c ∧ config_generation c' = config_generation c ∧ (m = n ∨ c' = c)) as Hc.
  { intros m c'. rewrite lookup_insert_Some. intros [[<- <-]|[? ?]]; eauto. }
  split; simpl; rewrite ?Hp.
  - intros m c' _ Hm. by apply not_elem_of_nil in Hm.
  - intros m c' [Hm|(i & p & Hi & Hm)] (c & Hcm & _ & Hd)%Hc; [by apply not_elem_of_nil in Hm|].
    destruct Hd as [-> | ->]; [exfalso|eapply (gn_drains _ Hg); [right; by eauto|done]].
    apply (ok_pending _ Hok _ _ _ Hi Hm). right; left. rewrite Hr. by left.
  - intros i sn m c' Hi (c & ? & -> & _)%Hc. by eapply (gn_snapshot _ Hg).
  - intros i p m c' Hi Hpm (c & ? & -> & _)%Hc. by eapply (gn_held _ Hg).
  - done.
Qed.

Lemma reload_step_generations g ok g' :
  owned_ok g → generations_ok g → reload_step ca_ok server_name_ok g ok = Some g' → generations_ok g'.
Proof.
  intros Hok Hg. unfold reload_step. destruct (reloading g) as [[c|c|c| | |[|n l]]|] eqn:Er; [..|done].
  - intros [= <-]. apply (generations_other g); simpl; rewrite ?Er; auto using calm_same; by destruct (_ && _).
  - destruct (publish_free g) eqn:Ef; [|done]. intros [= <-].
    apply (generations_other g); simpl; rewrite ?Er; auto using calm_same; by destruct (ensure_reload_compatible _ _).
  - destruct ok; intros [= <-]; [|by apply (generations_other g); simpl; rewrite ?Er; auto using calm_same].
    split; simpl; try done; [apply (gn_drains _ Hg)|apply (gn_snapshot _ Hg)|].
    intros i p n c' Hi Hpn. assert (holds_publish p = false) as Hh by (eapply (ok_publish _ Hok); [by rewrite Er|done]).
    by destruct Hpn as [-> | ->].
  - intros [= <-]. apply (generations_other g); simpl; rewrite ?Er; auto using calm_same; done.
  - intros [= <-]. apply (generations_other g); simpl; rewrite ?Er; auto using calm_same. intros n Hn. by apply not_elem_of_nil in Hn.
  - intros [= <-]. apply (generations_other g); simpl; rewrite ?Er; auto using calm_same; done.
  - destruct (carrier_step _ _ _) as [g1|] eqn:Ec; [|done]. intros [= <-]. by eapply generations_drain.
Qed.

Lemma generations_step g lb g' :
  owned_ok g → generations_ok g → step ca_ok server_name_ok g lb = Some g' → generations_ok g'.
Proof.
  intros Hok Hg. destruct lb as [r k|r e|r|c|ok|n lb|n| | |d]; [simpl| |simpl..].
  - case_bool_decide; [|done]. intros [= <-]. apply (generations_other g); simpl; eauto using calm_same.
    intros i q. unfold phases. simpl. rewrite fmap_insert, lookup_insert_Some. intros [[_ <-]|[_ ?]]; auto.
  - intros (q & q' & g1 & Hq & _ & Hm & ->)%step_request_inv.
    eapply (generations_move _ _ r); [done|done|by apply requests_phases|exact Hm|done|]. unfold phases. simpl. by rewrite fmap_insert.
  - destruct (requests g !! r) as [q|] eqn:Hq; [|done]. simpl.
    destruct (cancelled g (phase q)) as [g1|] eqn:Hc; [|done]. intros [= <-].
    assert (g1 = g ∨ ∃ n, g1 = drop_pending g n) as Hg1 by (destruct (phase q); simpl in *; simplify_eq; eauto).
    apply (generations_other g); destruct Hg1 as [-> |(n & ->)]; simpl; eauto using calm_same;
      intros i p; unfold phases; simpl; rewrite fmap_delete, lookup_delete_Some; tauto.
  - destruct (reloading g) eqn:Er; [done|]. intros [= <-]. apply (generations_other g); simpl; rewrite ?Er; auto using calm_same; done.
  - by apply reload_step_generations.
  - destruct (carrier_label lb) eqn:El; [|done]. intros Hs.
    assert (calm (carriers g) (carriers g')) by (eapply carrier_step_calm; [done|by intros ->]).
    apply carrier_step_grows in Hs as (m & -> & _). apply (generations_other g); simpl in *; eauto.
  - unfold reap. case_bool_decide; [|done]. intros Hs. assert (calm (carriers g) (carriers g')) by (by eapply carrier_step_calm in Hs).
    apply carrier_step_grows in Hs as (m & -> & _). apply (generations_other g); simpl in *; eauto.
  - intros [= <-]. apply (generations_other g); simpl; eauto using calm_same.
  - unfold shutdown_take. destruct (is_closed g); [|done]. intros [= <-]. apply (generations_other g); simpl; eauto using calm_same.
    intros n Hn. by apply not_elem_of_nil in Hn.
  - destruct (0 <=? d); [|done]. intros [= <-]. apply (generations_other g); simpl; eauto using calm_same.
Qed.

(** ** The size of the pool *)

Lemma max_pool_size_pos g : 1 ≤ max_pool_size g.
Proof. unfold max_pool_size. lia. Qed.

Lemma zlen_filter (Q : nat → Prop) `{∀ x, Decision (Q x)} (l : list nat) : zlen (filter Q l) ≤ zlen l.
Proof. apply Nat2Z.inj_le, length_filter. Qed.

Lemma move_size g k p g' p' :
  Move g k p g' p' →
  zlen (pool g') ≤ zlen (pool g) ∧ pool g' ⊆ pool g ∨
  ∃ n, p = Pushing n ∧ zlen (pool g') = zlen (pool g) + 1 ∧ roomy p' = false ∧ searching k p' = None.
Proof.
  destruct 1 as [| | |b|p' _| |p n s proto task g' _ _ _ _ _ Hs| | | |p n g1 p' _ [-> | ->]| | |n g1 p' _ Hg1 Hp'|n g' p' Hi];
    try (by left).
  - left. simpl. split; [apply zlen_filter|]. intros m [_ ?]%list_elem_of_filter. done.
  - left. simpl. split; [apply zlen_filter|]. intros m [_ ?]%list_elem_of_filter. done.
  - left. by apply carrier_step_grows in Hs as (m & -> & _).
  - right. exists n. assert (pool g1 = pool g) as -> by (by destruct Hg1 as [-> | ->]). simpl.
    rewrite length_app, Nat2Z.inj_add. split_and!; [done|done|by destruct Hp' as [-> | ->]|by destruct Hp' as [-> | ->], k].
  - left. apply invalidate_inv in Hi as [(m & -> & _)| ->]; [done|]. simpl. split; [apply zlen_filter|].
    intros m [_ ?]%list_elem_of_filter. done.
Qed.

Lemma move_roomy g k p g' p' :
  Move g k p g' p' → roomy p' = true →
  roomy p = true ∨ searching k p = Some [] ∨ zlen (pool g') < max_pool_size g.
Proof.
  destruct 1 as [p p' (_ & _ & _ & _ & _ & Hr & _)| | | |p' [-> |[-> Hl]]| | |b| | |p n g1 p' _ _ _ _ _ -> | | |n g1 p' _ _ [-> | ->]|n g' p' _ _ _ _ ->];
    simpl; try done; auto. intros H. destruct (Hr H); auto. by destruct b; auto.
Qed.

Lemma move_searching g k p g' p' rest :
  Move g k p g' p' → searching k p' = Some rest →
  rest = pool g' ∨ g' = g ∧ ∃ n, carrier_draining g n = true ∧ searching k p = Some (n :: rest).
Proof.
  destruct 1 as [p p' (_ & _ & _ & _ & _ & _ & -> & _)|b n rest' ranked Hd| |b|p' [-> |[-> Hl]]| | |b| | |p n g1 p' _ _ _ _ _ _ -> | | |n g1 p' _ _ [-> | ->]|n g' p' _ _ _ _ _ ->];
    destruct k; simpl; try done; try (destruct b; simpl; intros; simplify_eq; eauto 6; done).
Qed.

Record room_ok (g : Manager) : Prop := {
  rm_bound : replacing (reloading g) = false → zlen (pool g) ≤ max_pool_size g;
  rm_room i q : requests g !! i = Some q → roomy (phase q) = true → replacing (reloading g) = false →
    zlen (pool g) < max_pool_size g;
  rm_search i q rest : requests g !! i = Some q → searching (kind q) (phase q) = Some rest → pool g ⊆ rest
}.

Lemma roomy_holds p : roomy p = true → holds_connect p = true.
Proof. by destruct p as [| | | | | | |[]| | | | | | | |]. Qed.
Lemma searching_holds k p rest : searching k p = Some rest → holds_connect p = true.
Proof. by destruct k, p as [| |[] ? ?| | | | | | | | | | | | |]. Qed.

Lemma room_move g k r q g1 q' :
  owned_ok g → generations_ok g → room_ok g → requests g !! r = Some q → kind q = k → kind q' = k →
  Move g k (phase q) g1 (phase q') → room_ok (with_requests g1 (<[r := q']> (requests g))).
Proof.
  intros Hok Hg Hrm Hq Hk Hk' Hm. destruct (move_frame _ _ _ _ _ Hm) as (_ & Hrl & Hcf & _).
  assert (max_pool_size (with_requests g1 (<[r:=q']> (requests g))) = max_pool_size g) as Emax.
  { unfold max_pool_size. simpl. by rewrite Hcf. }
  assert (∀ i q0, requests g !! i = Some q0 → i ≠ r → holds_connect (phase q0) = true →
    zlen (pool g1) ≤ zlen (pool g) ∧ pool g1 ⊆ pool g) as Hoth.
  { intros i q0 Hi Hne Hh. destruct (move_size _ _ _ _ _ Hm) as [?|(n & Hp & _)]; [done|]. exfalso. apply Hne.
    eapply (ok_connect _ Hok); [by apply requests_phases|by apply requests_phases|done|by rewrite Hp]. }
  pose proof (max_pool_size_pos g) as Hpos.
  split; rewrite ?Emax; simpl; rewrite ?Hrl.
  - intros Hr. destruct (move_size _ _ _ _ _ Hm) as [[? _]|(n & Hp & -> & _)]; [pose proof (rm_bound _ Hrm Hr); lia|].
    pose proof (rm_room _ Hrm r q Hq). rewrite Hp in *. specialize (H eq_refl Hr). lia.
  - intros i q0 [[<- <-]|[Hne Hi]]%lookup_insert_Some Hr Hre.
    + destruct (move_size _ _ _ _ _ Hm) as [[Hle _]|(n & _ & _ & ? & _)]; [|congruence].
      destruct (move_roomy _ _ _ _ _ Hm Hr) as [Hp|[Hp|?]]; [pose proof (rm_room _ Hrm _ _ Hq Hp Hre); lia| |done].
      rewrite <-Hk in Hp. apply (rm_search _ Hrm _ _ _ Hq) in Hp. destruct (pool g) as [|n l]; [simpl in *; lia|set_solver].
    + destruct (Hoth i q0 Hi) as [? _]; [done|by apply roomy_holds|]. pose proof (rm_room _ Hrm _ _ Hi Hr Hre). lia.
  - intros i q0 rest [[<- <-]|[Hne Hi]]%lookup_insert_Some Hs.
    + rewrite Hk' in Hs. destruct (move_searching _ _ _ _ _ _ Hm Hs) as [-> |(-> & n & Hd & Hp)]; [done|].
      rewrite <-Hk in Hp. pose proof (rm_search _ Hrm _ _ _ Hq Hp) as Hsub. intros m Hmp.
      destruct (proj1 (elem_of_cons _ _ _) (Hsub m Hmp)) as [-> |]; [exfalso|done].
      destruct (ok_known _ Hok n) as [c Hc]; [by left|]. pose proof (gn_drains _ Hg n c (or_introl Hmp) Hc) as Hdr.
      unfold carrier_draining, carrier_session in Hd. rewrite Hc in Hd. simpl in Hd. unfold live in Hdr. congruence.
    + destruct (Hoth i q0 Hi) as [_ Hsub]; [done|by eapply searching_holds|]. pose proof (rm_search _ Hrm _ _ _ Hi Hs). set_solver.
Qed.

Lemma room_other g g' :
  room_ok g → (∀ i q, requests g' !! i = Some q → requests g !! i = Some q ∨ phase q = Entering) →
  zlen (pool g') ≤ zlen (pool g) → pool g' ⊆ pool g →
  (replacing (reloading g') = false → pool g' = [] ∨ replacing (reloading g) = false ∧ config g' = config g) → room_ok g'.
Proof.
  intros Hrm Hq Hle Hsub Hrp. pose proof (max_pool_size_pos g') as Hpos.
  assert (config g' = config g → max_pool_size g' = max_pool_size g) as Emax by (unfold max_pool_size; by intros ->).
  split.
  - intros Hr. destruct (Hrp Hr) as [-> |[Hr' ->%Emax]]; [simpl; lia|]. pose proof (rm_bound _ Hrm Hr'). lia.
  - intros i q Hi Hro Hr. destruct (Hrp Hr) as [-> |[Hr' ->%Emax]]; [simpl; lia|].
    destruct (Hq _ _ Hi) as [Hi'|E]; [|by rewrite E in Hro]. pose proof (rm_room _ Hrm _ _ Hi' Hro Hr'). lia.
  - intros i q rest Hi Hs. destruct (Hq _ _ Hi) as [Hi'|E]; [|by rewrite E in Hs; destruct (kind q)].
    pose proof (rm_search _ Hrm _ _ _ Hi' Hs). set_solver.
Qed.

(** What the steps other than those of a request do to the requests, the clock and what
    was remembered. *)
Lemma step_rest g lb g' :
  step ca_ok server_name_ok g lb = Some g' → (∀ r e, lb ≠ LStep r e) →
  (∀ i q, requests g' !! i = Some q → requests g !! i = Some q ∨ phase q = Entering) ∧
  zlen (pool g') ≤ zlen (pool g) ∧ pool g' ⊆ pool g ∧
  (replacing (reloading g') = false → pool g' = [] ∨ replacing (reloading g) = false ∧ config g' = config g) ∧
  now g ≤ now g' ∧ (is_closed g = true → is_closed g' = true) ∧
  (recent_connect_failure g' = None ∨
   recent_connect_failure g' = recent_connect_failure g ∧
     (reloading g' ≠ Some Replaced → reloading g ≠ Some Replaced ∧ config g' = config g)).
Proof.
  intros Hs Hlb. assert (∀ l : list nat, [] ⊆ l) as Hnil by set_solver.
  destruct lb as [r k|r e|r|c|ok|n lb|n| | |d]; simpl in Hs.
  - case_bool_decide; [|done]. injection Hs as <-. split_and!; simpl; auto; try done.
    intros i q [[_ <-]|[_ ?]]%lookup_insert_Some; auto.
  - by destruct (Hlb r e).
  - destruct (requests g !! r) as [q|]; [|done]. simpl in Hs. destruct (cancelled g (phase q)) as [g1|] eqn:Hc; [|done].
    injection Hs as <-. assert (g1 = g ∨ ∃ n, g1 = drop_pending g n) as [-> |(n & ->)]
      by (destruct (phase q); simpl in *; simplify_eq; eauto);
    (split_and!; simpl; auto; try done); intros i q0 [_ ?]%lookup_delete_Some; auto.
  - destruct (reloading g) eqn:Er; [done|]. injection Hs as <-. split_and!; simpl; rewrite ?Er; auto; done.
  - unfold reload_step in Hs. destruct (reloading g) as [[c|c|c| | |[|n l]]|] eqn:Er; [..|done].
    + injection Hs as <-. split_and!; simpl; rewrite ?Er; auto; done.
    + destruct (publish_free g); [|done]. injection Hs as <-. split_and!; simpl; rewrite ?Er; auto; done.
    + destruct ok; injection Hs as <-; split_and!; simpl; rewrite ?Er; auto; try done. by right.
    + injection Hs as <-. split_and!; simpl; rewrite ?Er; auto; done.
    + injection Hs as <-. split_and!; simpl; rewrite ?Er; auto; try done; lia.
    + injection Hs as <-. split_and!; simpl; rewrite ?Er; auto; done.
    + destruct (carrier_step _ _ _) as [g1|] eqn:Ec; [|done]. injection Hs as <-.
      apply carrier_step_grows in Ec as (m & -> & _). split_and!; simpl; rewrite ?Er; auto; done.
  - destruct (carrier_label lb); [|done]. apply carrier_step_grows in Hs as (m & -> & _). split_and!; simpl; auto; done.
  - unfold reap in Hs. case_bool_decide; [|done]. apply carrier_step_grows in Hs as (m & -> & _). split_and!; simpl; auto; done.
  - injection Hs as <-. split_and!; simpl; auto; done.
  - unfold shutdown_take in Hs. destruct (is_closed g) eqn:Ecl; [|done]. injection Hs as <-. split_and!; simpl; auto; try done; lia.
  - destruct (0 <=? d) eqn:Ed; [|done]. injection Hs as <-. bool_to_prop. split_and!; simpl; auto; try done; lia.
Qed.

Lemma request_label lb : (∃ r e, lb = LStep r e) ∨ ∀ r e, lb ≠ LStep r e.
Proof. destruct lb; eauto; by right. Qed.

Lemma room_step g lb g' :
  owned_ok g → generations_ok g → room_ok g → step ca_ok server_name_ok g lb = Some g' → room_ok g'.
Proof.
  intros Hok Hg Hrm Hs. destruct (request_label lb) as [(r & e & ->)|Hlb].
  - apply step_request_inv in Hs as (q & q' & g1 & Hq & Hk & Hm & ->). exact (room_move g (kind q) r q g1 q' Hok Hg Hrm Hq eq_refl Hk Hm).
  - destruct (step_rest _ _ _ Hs) as (? & ? & ? & ? & _); [done|]. by eapply room_other.
Qed.

(** ** The cooldown *)

(** A failure of this configuration is remembered and has not expired. *)
Definition cooling (g : Manager) : Prop :=
  ∃ f, recent_connect_failure g = Some f ∧ f_generation f = generation (current (config g)) ∧
    ∀ e, expires_at f = Some e → now g < e.

Record quiet_ok (g : Manager) : Prop := {
  qu_dialling i p : reloading g ≠ Some Replaced → cooling g → phases g !! i = Some p → dialling p = false;
  qu_bound f e : recent_connect_failure g = Some f → expires_at f = Some e → e ≤ now g + 45000
}.

Lemma move_failure g k p g' p' :
  Move g k p g' p' →
  recent_connect_failure g' = None ∨
  (recent_connect_failure g' = recent_connect_failure g ∧ (dialling p' = true → dialling p = true)) ∨
  ∃ sn err f, p = Remembering sn err ∧ dialling p' = false ∧ recent_connect_failure g' = Some f ∧
    ∀ e, expires_at f = Some e → e ≤ now g + 45000.
Proof.
  destruct 1 as [p p' (_ & _ & _ & _ & ? & _)| | | |p' [-> |[-> _]]| |p n s proto task g' _ _ _ _ _ Hs|b| |sn err f c _ _ He|p n g1 p' Hp [-> | ->]| | |n g1 p' _ Hg1 Hp'|n g' p' Hi _ _ _ Hr];
    simpl; auto.
  - apply carrier_step_grows in Hs as (m & -> & _). right; left. done.
  - right; right. exists sn, err, f. split_and!; [done..|]. intros e E. apply He in E. lia.
  - right; left. split; [done|]. by destruct p.
  - right; left. destruct Hg1 as [-> | ->]; auto.
  - right; left. apply invalidate_inv in Hi as [(m & -> & _)| ->]; simpl; (split; [done|]); by destruct p' as [| | | | | | |[]| | | | | | | |].
Qed.

Lemma dialling_holds p : dialling p = true → holds_connect p = true.
Proof. by destruct p. Qed.

Lemma quiet_move g r q g1 q' :
  owned_ok g → quiet_ok g → requests g !! r = Some q → Move g (kind q) (phase q) g1 (phase q') →
  quiet_ok (with_requests g1 (<[r := q']> (requests g))).
Proof.
  intros Hok Hqu Hq Hm. destruct (move_frame _ _ _ _ _ Hm) as (_ & Hrl & Hcf & _ & Hnow).
  pose proof (requests_phases _ _ _ Hq) as Hp.
  destruct (move_failure _ _ _ _ _ Hm) as [E|[[E Hd]|(sn & err & f & Ep & Ed & E & Hb)]].
  - split; simpl; [|by rewrite E]. intros i p _ (f & Hf & _). simpl in Hf. congruence.
  - split; simpl.
    + intros i p Hr Hc Hi. rewrite Hrl in Hr.
      assert (cooling g) as Hc'.
      { destruct Hc as (f & Hf & Hg & He). simpl in *. exists f. rewrite E in Hf. rewrite Hcf in Hg. rewrite Hnow in He. done. }
      unfold phases in Hi. simpl in Hi. rewrite fmap_insert, lookup_insert_Some in Hi. destruct Hi as [[<- <-]|[_ Hi]].
      * destruct (dialling (phase q')); [|done]. pose proof (qu_dialling _ Hqu _ _ Hr Hc' Hp). naive_solver.
      * by eapply (qu_dialling _ Hqu).
    + rewrite E, Hnow. apply (qu_bound _ Hqu).
  - split; simpl.
    + intros i p _ _ Hi. unfold phases in Hi. simpl in Hi. rewrite fmap_insert, lookup_insert_Some in Hi.
      destruct Hi as [[_ <-]|[Hne Hi]]; [done|]. destruct (dialling p) eqn:Edi; [exfalso|done]. apply Hne.
      eapply (ok_connect _ Hok); [exact Hp|exact Hi|by rewrite Ep|by apply dialling_holds].
    + rewrite E, Hnow. intros ? e [= <-]. apply Hb.
Qed.

Lemma quiet_step g lb g' :
  owned_ok g → quiet_ok g → step ca_ok server_name_ok g lb = Some g' → quiet_ok g'.
Proof.
  intros Hok Hqu Hs. destruct (request_label lb) as [(r & e & ->)|Hlb].
  - apply step_request_inv in Hs as (q & q' & g1 & Hq & Hk & Hm & ->). by eapply quiet_move.
  - destruct (step_rest _ _ _ Hs) as (Hi & _ & _ & _ & Hnow & _ & Hf); [done|]. split.
    + intros i p Hr (f & Hrf & Hgen & He) Hp. destruct Hf as [?|[Hf Hrp]]; [congruence|]. destruct (Hrp Hr) as [Hr' Hcf].
      unfold phases in Hp. rewrite lookup_fmap in Hp. apply fmap_Some in Hp as (q & Hq & ->).
      destruct (Hi _ _ Hq) as [Hq'| ->]; [|done]. apply (qu_dialling _ Hqu i); [done| |by apply requests_phases].
      exists f. rewrite <-Hf, <-Hcf. split_and!; [done..|]. intros e ?%He. lia.
    + intros f e Hrf He. destruct Hf as [?|[Hf _]]; [congruence|]. rewrite Hf in Hrf. pose proof (qu_bound _ Hqu _ _ Hrf He). lia.
Qed.

(** ** Every carrier is a session of its own *)

Definition carriers_ok (g : Manager) : Prop :=
  ∀ n c, carriers g !! n = Some c →
    ∃ datagram config settings l, connect datagram config settings = Ok l ∧ ClientFlowsTheorems.reachable l (system c).

Lemma reachable_step l y lb y' :
  ClientFlowsTheorems.reachable l y → ClientFlows.step y lb = Some y' → ClientFlowsTheorems.reachable l y'.
Proof.
  intros (ls & Hr) Hs. exists (ls ++ [lb]). revert Hr. generalize (ClientFlows.system_new l). induction ls as [|lb0 ls IH]; intros y0; simpl.
  - intros [= ->]. by rewrite Hs.
  - intros (y1 & -> & H)%bind_Some. simpl. by apply IH.
Qed.

Lemma carrier_step_carriers g n lb g' : carriers_ok g → carrier_step g n lb = Some g' → carriers_ok g'.
Proof.
  intros Hok (c & y & Hc & Hy & ->)%carrier_step_inv m c'. simpl. rewrite lookup_insert_Some. intros [[<- <-]|[_ ?]]; [|by eauto].
  destruct (Hok _ _ Hc) as (d & cf & st & l & ? & ?). exists d, cf, st, l. split; [done|]. by eapply reachable_step.
Qed.
Lemma mark_health_carriers g n : carriers_ok g → carriers_ok (mark_health_session g n).
Proof.
  intros Hok m c'. simpl. destruct (decide (m = n)) as [-> |].
  - rewrite lookup_alter_eq. intros (c & Hc & ->)%fmap_Some. by apply Hok in Hc.
  - rewrite lookup_alter_ne by done. apply Hok.
Qed.

Lemma carriers_move g k p g' p' : carriers_ok g → Move g k p g' p' → carriers_ok g'.
Proof.
  intros Hok. destruct 1 as [| | | | | |p n s proto task g' _ _ _ _ _ Hs| |sn n l d st _ Hl| |p n g1 p' _ [-> | ->]| | |n g1 p' _ [-> | ->]|n g' p' Hi];
    try (by apply Hok); try (by apply mark_health_carriers).
  - by eapply carrier_step_carriers.
  - intros m c'. simpl. rewrite lookup_insert_Some. intros [[<- <-]|[_ ?]]; [|by eauto].
    exists d, (ClientConfig.config sn), st, l. split; [done|]. by exists [].
  - unfold invalidate in Hi. case_bool_decide; [by injection Hi as <-; apply Hok|by eapply carrier_step_carriers].
Qed.

Lemma carriers_step g lb g' : carriers_ok g → step ca_ok server_name_ok g lb = Some g' → carriers_ok g'.
Proof.
  intros Hok. destruct lb as [r k|r e|r|c|ok|n lb|n| | |d]; [simpl| |simpl..].
  - case_bool_decide; [|done]. by intros [= <-].
  - intros (q & q' & g1 & Hq & _ & Hm & ->)%step_request_inv. by apply carriers_move in Hm.
  - destruct (requests g !! r) as [q|]; [|done]. simpl. destruct (cancelled g (phase q)) as [g1|] eqn:Hc; [|done].
    intros [= <-]. assert (carriers g1 = carriers g) as E by (destruct (phase q); simpl in *; by simplify_eq).
    unfold carriers_ok. simpl. by rewrite E.
  - destruct (reloading g); [done|]. by intros [= <-].
  - unfold reload_step. destruct (reloading g) as [[c|c|c| | |[|n l]]|]; [..|done]; try (by intros [= <-]).
    + destruct (publish_free g); [|done]. by intros [= <-].
    + destruct ok; by intros [= <-].
    + destruct (carrier_step _ _ _) as [g1|] eqn:Ec; [|done]. intros [= <-]. by apply carrier_step_carriers in Ec.
  - destruct (carrier_label lb); [|done]. by apply carrier_step_carriers.
  - unfold reap. case_bool_decide; [|done]. by apply carrier_step_carriers.
  - by intros [= <-].
  - unfold shutdown_take. destruct (is_closed g); [|done]. by intros [= <-].
  - destruct (0 <=? d); [|done]. by intros [= <-].
Qed.

(** ** The invariant *)

Record pool_ok (g : Manager) : Prop := {
  po_owned : owned_ok g;
  po_generations : generations_ok g;
  po_room : room_ok g;
  po_quiet : quiet_ok g;
  po_carriers : carriers_ok g
}.

Lemma pool_step g lb g' : pool_ok g → step ca_ok server_name_ok g lb = Some g' → pool_ok g'.
Proof.
  intros [H1 H2 H3 H4 H5] Hs.
  split; [by eapply owned_manager_step|by eapply generations_step|by eapply room_step|by eapply quiet_step|by eapply carriers_step].
Qed.

Lemma pool_new c : pool_ok (manager_new c).
Proof.
  pose proof (max_pool_size_pos (manager_new c)).
  assert (∀ i p, phases (manager_new c) !! i = Some p → False) as Hph.
  { intros i p. unfold phases. change (requests (manager_new c)) with (∅ : gmap nat Request). by rewrite fmap_empty, lookup_empty. }
  split.
  - split; try (intros; exfalso; by eauto).
    + intros n [?%not_elem_of_nil|[?%not_elem_of_nil|(i & p & Hp & _)]]; [done..|]. by apply Hph in Hp.
    + intros n (s & Hs & _). done.
  - split; simpl; try done; try (intros; exfalso; by eauto).
  - split; simpl; try done. lia.
  - split; simpl; try done.
  - intros n c0. simpl. by rewrite lookup_empty.
Qed.

Lemma run_pool_ok g ls g' : pool_ok g → run ca_ok server_name_ok g ls = Some g' → pool_ok g'.
Proof.
  revert g. induction ls as [|lb ls IH]; intros g Hok; simpl; [by intros [= <-]|].
  intros (g1 & Hs & Hr)%bind_Some. eapply IH; [|done]. by eapply pool_step.
Qed.

Lemma admitted_open g k p g' n :
  Move g k p g' (Opening n) → n ∈ candidates p ∧ pending p = None ∧ carrier_open g n.
Proof.
  intros Hm. remember (Opening n) as p' eqn:E.
  destruct Hm as [p p' (_ & _ & _ & _ & _ & _ & _ & Hn)| | | |p' [-> |[-> _]]| |p m s proto task g' Hp Hc Hs Hd Hcl _|b| | |p m g1 p' _ _ _ _ Hc| | |m g1 p' _ _ [-> | ->]|m g' p' _ _ _ Hc];
    try done; subst; try done.
  - by destruct (Hn n).
  - injection E as ->. split_and!; [done|done|by exists s].
  - by destruct b.
Qed.

(** Once the shutdown has taken the pool, nothing enters it any more. *)
Lemma shut_step g lb g' :
  step ca_ok server_name_ok g lb = Some g' → is_closed g = true → pool g = [] → is_closed g' = true ∧ pool g' = [].
Proof.
  intros Hs Hc Hp. destruct (request_label lb) as [(r & e & ->)|Hlb].
  - apply step_request_inv in Hs as (q & q' & g1 & _ & _ & Hm & ->). simpl.
    destruct (move_frame _ _ _ _ _ Hm) as (_ & _ & _ & -> & _). split; [done|].
    destruct (move_pool _ _ _ _ _ Hm) as (Hpool & _). destruct (pool g1) as [|n l]; [done|].
    destruct (Hpool n) as [Hn|(_ & _ & ?)]; [by left|by rewrite Hp in Hn; apply not_elem_of_nil in Hn|congruence].
  - destruct (step_rest _ _ _ Hs) as (_ & _ & Hsub & _ & _ & Hcl & _); [done|]. split; [auto|]. rewrite Hp in Hsub.
    destruct (pool g') as [|n l]; [done|]. specialize (Hsub n). set_solver.
Qed.
Lemma shut_run g ls g' :
  run ca_ok server_name_ok g ls = Some g' → is_closed g = true → pool g = [] → pool g' = [].
Proof.
  revert g. induction ls as [|lb ls IH]; intros g; simpl; [by intros [= <-]|].
  intros (g1 & Hs & Hr)%bind_Some Hc Hp. destruct (shut_step _ _ _ Hs Hc Hp). eauto.
Qed.

(** ** Theorems *)

(** C16: New flows use the configuration in force.  However requests, reloads, failures and
    the shutdown interleave, a carrier that is handed a flow is open, and it was dialled
    under the current configuration; the exceptions are the moments in which a reload has
    replaced the configuration and not yet drained this carrier, and a carrier whose
    teardown is already ordered. *)
Theorem pool_serves_current_configuration c ls g r e g' q n :
  run ca_ok server_name_ok (manager_new c) ls = Some g → step ca_ok server_name_ok g (LStep r e) = Some g' →
  (phase <$> requests g !! r) ≠ Some (Opening n) → requests g' !! r = Some q → phase q = Opening n →
  ∃ cr, carriers g !! n = Some cr ∧ draining (live cr) = false ∧ closed (live cr) = false ∧
    (config_generation cr = generation (current (config g)) ∨
     replacing (reloading g) = true ∨ n ∈ previous (reloading g) ∨ n ∈ closing g).
Proof.
  intros Hrun Hs Hne Hq Hp. destruct (run_pool_ok _ _ _ (pool_new c) Hrun) as [Hok Hg _ _ _].
  apply step_request_inv in Hs as (q0 & q' & g1 & Hq0 & _ & Hm & ->). simpl in Hq. rewrite lookup_insert_eq in Hq.
  injection Hq as <-. rewrite Hp in Hm. apply admitted_open in Hm as (Hc & Hpd & Ho).
  destruct (ok_owned _ Hok n Ho) as [Hpool|[?|[?|(i & p & Hi & Hpn)]]].
  2-3: destruct Ho as (s & (cr & Hcr & ->)%fmap_Some & ? & ?); exists cr; by split_and!; auto.
  - destruct Ho as (s & (cr & Hcr & ->)%fmap_Some & ? & ?). exists cr. split_and!; [done..|].
    destruct (replacing (reloading g)) eqn:Er; [auto|]. left. by eapply (gn_pool _ Hg).
  - exfalso. apply (ok_pending _ Hok _ _ _ Hi Hpn). right; right. exists r, (phase q0). split; [by apply requests_phases|done].
Qed.


(** C17: The pool is bounded.  Except between the replacement of a configuration and the
    emptying of the pool that follows it, there are never more carriers in the pool than
    the configuration in force allows, whoever dials; and no carrier in it drains. *)
Theorem pool_bounded c ls g :
  run ca_ok server_name_ok (manager_new c) ls = Some g →
  (replacing (reloading g) = false →
     zlen (pool g) ≤ Z.max 1 (ClientConfig.max_carrier_sessions (ClientConfig.config (current (config g))))) ∧
  (∀ n cr, n ∈ pool g → carriers g !! n = Some cr → draining (live cr) = false).
Proof.
  intros Hrun. destruct (run_pool_ok _ _ _ (pool_new c) Hrun) as [_ Hg Hrm _ _]. split.
  - intros Hr. pose proof (rm_bound _ Hrm Hr) as Hb. unfold max_pool_size, ClientConfig.snapshot in Hb.
    destruct (usize_try_from _) as [m|] eqn:E; simpl in Hb.
    + apply usize_try_from_Some in E as [-> _]. lia.
    + unfold usize_try_from in E. case_decide; [done|]. lia.
  - intros n cr Hn. apply (gn_drains _ Hg). by left.
Qed.

(** C19: A server that cannot be reached is left alone.  While a failed dial of the current
    configuration cools down, no request dials, waits for an answer or publishes a
    carrier; and no cooldown lasts more than 45 seconds from now. *)
Theorem cooldown_quiet c ls g :
  run ca_ok server_name_ok (manager_new c) ls = Some g →
  (reloading g ≠ Some Replaced → cooling g → ∀ i q, requests g !! i = Some q → dialling (phase q) = false) ∧
  (∀ f e, recent_connect_failure g = Some f → expires_at f = Some e → e ≤ now g + 45000).
Proof.
  intros Hrun. destruct (run_pool_ok _ _ _ (pool_new c) Hrun) as [_ _ _ Hqu _]. split; [|apply (qu_bound _ Hqu)].
  intros Hr Hc i q Hq. by eapply (qu_dialling _ Hqu), requests_phases.
Qed.
End Steps.

(** ** A client in action *)

Module Demo.
Definition demo_config : ClientConfig :=
  {| ClientConfig.server_addr := bytes_of_string "a.example:443"; ClientConfig.c_server_addrs := None;
     ClientConfig.server_name := bytes_of_string "a.example"; ClientConfig.observability_listen := None;
     ClientConfig.ca_cert_path := bytes_of_string "ca.pem"; ClientConfig.key_id := bytes_of_string "client";
     ClientConfig.secret := seqZ 1 32; ClientConfig.c_handshake_timeout_seconds := None;
     ClientConfig.c_server_connect_retry_delay_millis := None; ClientConfig.c_socks_handshake_timeout_seconds := None;
     ClientConfig.c_tcp_open_timeout_seconds := None; ClientConfig.c_udp_flow_idle_timeout_seconds := None;
     ClientConfig.c_shutdown_timeout_seconds := None; ClientConfig.c_max_pending_open_bytes := None;
     ClientConfig.c_max_socks_connections := None; ClientConfig.c_max_buffered_bytes_per_session := None;
     ClientConfig.c_max_buffered_bytes_per_flow := None; ClientConfig.c_max_carrier_sessions := None;
     ClientConfig.c_relay_buffer_size := None; ClientConfig.masking := None |}.

Definition demo_settings : Settings.Settings :=
  {| Settings.values := {[ Settings.ProtocolRevision := Settings.PROTOCOL_REVISION_V1_0 ]} |}.

Definition proceed (r n : nat) : list Label := replicate n (LStep r Proceed).

(** A request that finds an empty pool, dials carrier 7 and is about to be admitted. *)
Definition dialled : list Label :=
  [LRequest 0 (OpenFlow Tcp)] ++ proceed 0 11 ++ [LStep 0 (Dialled 7 (Ok (false, demo_settings)))] ++ proceed 0 3.
(** A request whose dial fails, and one that comes after it. *)
Definition refused : list Label :=
  [LRequest 0 (OpenFlow Udp)] ++ proceed 0 11 ++
  [LStep 0 (Dialled 7 (Err (Message "connection refused"))); LStep 0 (Jittered 200); LTick 100; LRequest 1 CurrentSession] ++
  proceed 1 3.

Definition demo_run (ls : list Label) : option Manager :=
  run (P := platform64) (λ _, true) (λ _, true) (manager_new demo_config) ls.
Definition demo_state (ls : list Label) : Manager := default (manager_new demo_config) (demo_run ls).
Lemma demo_state_run ls : is_Some (demo_run ls) → demo_run ls = Some (demo_state ls).
Proof. unfold demo_state. by intros [g ->]. Qed.

Lemma pool_serves_current_configuration_witness :
  (∃ cr, carriers (demo_state dialled) !! 7%nat = Some cr ∧ config_generation cr = 1) ∧
  phase <$> requests (demo_state (dialled ++ [LStep 0 (TryOn 3)])) !! 0%nat = Some (Opening 7).
Proof.
  assert (step (P := platform64) (λ _, true) (λ _, true) (demo_state dialled) (LStep 0 (TryOn 3)) =
    Some (demo_state (dialled ++ [LStep 0 (TryOn 3)]))) as Hs by (vm_compute; reflexivity).
  assert (phase <$> requests (demo_state (dialled ++ [LStep 0 (TryOn 3)])) !! 0%nat = Some (Opening 7)) as Hp by reflexivity.
  split; [|exact Hp]. apply fmap_Some in Hp as (q & Hq & Hp).
  destruct (pool_serves_current_configuration (P := platform64) (λ _, true) (λ _, true) demo_config dialled (demo_state dialled) 0
    (TryOn 3) (demo_state (dialled ++ [LStep 0 (TryOn 3)])) q 7) as (cr & Hcr & _ & _ & Hg).
  - apply demo_state_run. vm_compute. eauto.
  - exact Hs.
  - vm_compute. discriminate.
  - exact Hq.
  - done.
  - exists cr. split; [exact Hcr|]. destruct Hg as [Hg|[Hg|[Hg|Hg]]]; [exact Hg|..]; vm_compute in Hg; inversion Hg.
Defined.

(** The shutdown while the request holds its admission, and the reaper after it. *)
Definition shut : list Label := dialled ++ [LStep 0 (TryOn 3); LStep 0 (OpenEnds (Ok tt)); LShutdown].


Lemma pool_bounded_witness : pool (demo_state dialled) = [7%nat] ∧ zlen (pool (demo_state dialled)) ≤ 4.
Proof.
  split; [vm_compute; reflexivity|].
  destruct (pool_bounded (P := platform64) (λ _, true) (λ _, true) demo_config dialled (demo_state dialled)) as [H _].
  { apply demo_state_run. vm_compute. eauto. }
  apply H. vm_compute. reflexivity.
Defined.

Lemma cooldown_quiet_witness :
  phase <$> requests (demo_state refused) !! 1%nat = Some (Cooldown false) ∧
  ∀ i q, requests (demo_state refused) !! i = Some q → dialling (phase q) = false.
Proof.
  split; [vm_compute; reflexivity|].
  destruct (cooldown_quiet (P := platform64) (λ _, true) (λ _, true) demo_config refused (demo_state refused)) as [H _].
  { apply demo_state_run. vm_compute. eauto. }
  apply H; [vm_compute; discriminate|]. eexists. split; [vm_compute; reflexivity|]. split; [vm_compute; reflexivity|].
  intros e He. vm_compute in He. injection He as <-. vm_compute. reflexivity.
Defined.
End Demo.

End ClientPoolTheorems.
