(* ===== verification/ClientPlacement.v ===== *)
(** * ClientPlacement: where a flow goes

    [admit_flow] ranks the live carriers by their load and tries them in that order. *)

From Stdlib Require Import Sorted.
From S2P Require Import Prelude Wire Varint FrameCodec RustStd Endpoint TargetCodec RelayPayload Settings FrameIo.
From S2P Require Import Mask ServerConfig ClientConfig RelayState Socks5 ClientSession ClientFlows ClientFlowsTheorems.
From S2P Require Import ClientOwnership ClientDrain ClientPool ClientPoolTheorems.

Module ClientPlacement.
Import ClientSession ClientPool ClientPoolTheorems.
Import ClientConfig.ClientConfig (ClientConfig).

(** What a carrier would answer. *)
Definition answers (g : Manager) (p : FlowProtocol) (n : nat) : option AdmissionRefusal :=
  match carrier_session g n with
  | Some s => match try_admit s p with inl r => Some r | inr _ => None end
  | None => Some Unavailable
  end.
Definition admits (g : Manager) (p : FlowProtocol) (n : nat) : Prop := answers g p n = None.

(** The ranking of [l] by load. *)
Definition ranking (g : Manager) (l : list nat) : list (Z * nat) :=
  (λ n, (flow_count g n, n)) <$> filter (λ n, carrier_draining g n = false) l.

(** Request [r] in phase [p]. *)
Definition stage (g : Manager) (r : nat) (k : Kind) (a : nat) (p : Phase) : Manager :=
  with_requests g (<[r := {| kind := k; attempt := a; phase := p |}]> (requests g)).

(** ** Sorting *)

Definition by_key : relation (Z * nat) := λ x y, x.1 ≤ y.1.

Lemma insert_by_key_sorted x l : StronglySorted by_key l → StronglySorted by_key (insert_by_key x l).
Proof.
  induction 1 as [|y l Hs IH Hy]; simpl; [by repeat constructor|].
  destruct (_ <=? _) eqn:E; bool_to_prop.
  - constructor; [by constructor|]. constructor; [done|]. eapply Forall_impl; [done|]. unfold by_key. simpl. intros; lia.
  - constructor; [done|]. apply Forall_forall. intros z. rewrite insert_by_key_elem. rewrite Forall_forall in Hy.
    intros [-> |?]; [unfold by_key; lia|by apply Hy].
Qed.
Lemma sort_by_key_sorted l : StronglySorted by_key (sort_by_key l).
Proof. induction l as [|x l IH]; simpl; [constructor|by apply insert_by_key_sorted]. Qed.

Lemma sorted_first (l1 l2 : list (Z * nat)) x y :
  StronglySorted by_key (l1 ++ x :: l2) → y ∈ l2 → x.1 ≤ y.1.
Proof.
  induction l1 as [|z l1 IH]; simpl; inversion 1 as [|? ? Hs Hf]; subst; [|by apply IH].
  intros Hy. rewrite Forall_forall in Hf. by apply Hf.
Qed.

Section Placement.
Context {P : Platform} (ca_ok server_name_ok : Bytes → bool).
#[local] Abbreviation step := (step ca_ok server_name_ok).
#[local] Abbreviation run := (run ca_ok server_name_ok).

Lemma stage_stage g r k a p k' a' p' : stage (stage g r k a p) r k' a' p' = stage g r k' a' p'.
Proof. unfold stage, with_requests. simpl. by rewrite insert_insert_eq. Qed.

Lemma run_app g ls ls' g1 : run g ls = Some g1 → run g (ls ++ ls') = run g1 ls'.
Proof.
  revert g. induction ls as [|lb ls IH]; intros g; simpl; [by intros [= ->]|].
  intros (g2 & -> & H)%bind_Some. by apply IH.
Qed.

(** A step of a request that only depends on the rest of the manager. *)
Lemma step_stage g r k a p e g1 p' :
  request_step (stage g r k a p) k p e = Some (stage g1 r k a p, p') → (∀ n, p ≠ Opening n) →
  step (stage g r k a p) (LStep r e) = Some (stage g1 r k a p').
Proof.
  intros H Hp. simpl. rewrite lookup_insert_eq. simpl. unfold open_flow_step. cbn [phase kind attempt].
  rewrite H.
  destruct p; try (simpl; unfold stage, with_requests; simpl; by rewrite insert_insert_eq). by destruct (Hp n).
Qed.

Lemma run_cons g lb ls g1 : step g lb = Some g1 → run g (lb :: ls) = run g1 ls.
Proof. simpl. by intros ->. Qed.

Lemma rank_run g r p a b rest ranked :
  run (stage g r (OpenFlow p) a (Ranking b rest ranked)) (LStep r Proceed :: replicate (length rest) (LStep r Proceed)) =
  Some (stage g r (OpenFlow p) a (Trying b (snd <$> sort_by_key (ranked ++ ranking g rest)) PoolStreamLimit)).
Proof.
  revert ranked. induction rest as [|n rest IH]; intros ranked.
  - erewrite run_cons; [|by apply (step_stage g r _ a _ Proceed g (Trying b (snd <$> sort_by_key ranked) PoolStreamLimit))].
    simpl. by rewrite app_nil_r.
  - unfold ranking. rewrite filter_cons. destruct (carrier_draining g n) eqn:Ed.
    + erewrite run_cons; [|apply (step_stage g r _ a _ Proceed g (Ranking b rest ranked)); [|done]].
      2:{ simpl. change (carrier_draining (stage _ _ _ _ _) n) with (carrier_draining g n). by rewrite Ed. }
      rewrite decide_False by done. apply IH.
    + erewrite run_cons; [|apply (step_stage g r _ a _ Proceed g (Ranking b rest (ranked ++ [(flow_count g n, n)]))); [|done]].
      2:{ simpl. change (carrier_draining (stage _ _ _ _ _) n) with (carrier_draining g n). by rewrite Ed. }
      rewrite decide_True by done. specialize (IH (ranked ++ [(flow_count g n, n)])). rewrite <-app_assoc in IH. exact IH.
Qed.

(** Trying a list of carriers: the first that admits the flow gets it; if none does, the
    refusals decide how the request goes on. *)
Definition gives_up (b : bool) (refusal : PoolAdmissionRefusal) : Phase :=
  match refusal with PoolUdpFlowLimit => Answered Exhausted | PoolStreamLimit => if b then Sizing else Locking end.
Definition worse (g : Manager) (p : FlowProtocol) (refusal : PoolAdmissionRefusal) (n : nat) : PoolAdmissionRefusal :=
  match answers g p n with Some UdpFlowLimit => PoolUdpFlowLimit | _ => refusal end.

Lemma try_first g r p a b n l refusal :
  is_Some (carriers g !! n) → admits g p n →
  ∃ task g', step (stage g r (OpenFlow p) a (Trying b (n :: l) refusal)) (LStep r (TryOn task)) = Some g' ∧
    phase <$> requests g' !! r = Some (Opening n).
Proof.
  intros [c Hc] Ha. unfold admits, answers in Ha. unfold carrier_session in Ha. rewrite Hc in Ha. simpl in Ha.
  destruct (try_admit _ _) as [|s'] eqn:Et; [done|].
  exists (fresh (dom (ClientFlows.tasks (system c)))). simpl. rewrite lookup_insert_eq. simpl.
  unfold open_flow_step. simpl. unfold try_on, carrier_session. simpl. rewrite Hc. simpl. rewrite Et. unfold carrier_step. simpl.
  rewrite Hc, Et, (proj1 (not_elem_of_dom _ _) (is_fresh (dom (ClientFlows.tasks (system c))))).
  eexists. split; [done|]. simpl. by rewrite lookup_insert_eq.
Qed.

Lemma try_refused g r p a b n l refusal :
  is_Some (carriers g !! n) → ¬ admits g p n →
  step (stage g r (OpenFlow p) a (Trying b (n :: l) refusal)) (LStep r (TryOn 0)) =
  Some (stage g r (OpenFlow p) a (Trying b l (worse g p refusal n))).
Proof.
  intros [c Hc] Ha. apply step_stage; [|done]. unfold admits, worse, answers, carrier_session in *. rewrite Hc in *. simpl in *.
  unfold try_on, carrier_session. simpl. rewrite Hc. simpl. by destruct (try_admit _ _) as [[]|].
Qed.

Lemma try_run g r p a b l refusal :
  (∀ n, n ∈ l → is_Some (carriers g !! n)) →
  ∃ es g', run (stage g r (OpenFlow p) a (Trying b l refusal)) (LStep r <$> es) = Some g' ∧
    ((∃ l1 n l2, l = l1 ++ n :: l2 ∧ phase <$> requests g' !! r = Some (Opening n) ∧ admits g p n ∧ ∀ m, m ∈ l1 → ¬ admits g p m) ∨
     (∀ m, m ∈ l → ¬ admits g p m) ∧ phase <$> requests g' !! r = Some (gives_up b (foldl (worse g p) refusal l))).
Proof.
  revert refusal. induction l as [|n l IH]; intros refusal Hl.
  - exists [Proceed]. eexists. split.
    + cbn [fmap list_fmap]. erewrite run_cons; [done|]. apply (step_stage g r _ a _ Proceed g (gives_up b refusal)); [|done].
      simpl. by destruct refusal.
    + right. split; [by intros m ?%not_elem_of_nil|]. simpl. by rewrite lookup_insert_eq.
  - destruct (decide (answers g p n = None)) as [Ha|Ha].
    + destruct (try_first g r p a b n l refusal) as (t & g' & Hs & Hp); [by apply Hl; left|done|].
      exists [TryOn t], g'. split; [cbn [fmap list_fmap]; by rewrite (run_cons _ _ _ _ Hs)|].
      left. exists [], n, l. split_and!; [done..|]. by intros m ?%not_elem_of_nil.
    + destruct (IH (worse g p refusal n)) as (es & g' & Hr & Hx); [intros m Hm; apply Hl; by right|].
      exists (TryOn 0 :: es), g'. split.
      { cbn [fmap list_fmap]. rewrite (run_cons _ _ _ _ (try_refused g r p a b n l refusal (Hl n ltac:(by left)) Ha)). exact Hr. }
      destruct Hx as [(l1 & m & l2 & -> & ? & ? & Hm)|[Hm ?]].
      * left. exists (n :: l1), m, l2. split_and!; [done..|]. intros m' [-> |?]%elem_of_cons; [done|by apply Hm].
      * right. split; [|done]. intros m' [-> |?]%elem_of_cons; [done|by apply Hm].
Qed.

Lemma worse_run g p l refusal :
  foldl (worse g p) refusal l = PoolUdpFlowLimit ↔
  refusal = PoolUdpFlowLimit ∨ ∃ n, n ∈ l ∧ answers g p n = Some UdpFlowLimit.
Proof.
  revert refusal. induction l as [|n l IH]; intros refusal; simpl.
  - split; [by left|]. intros [?|(n & ?%not_elem_of_nil & _)]; done.
  - rewrite IH. unfold worse. split.
    + intros [H|(m & ? & ?)]; [|right; exists m; split; [by right|done]].
      destruct (answers g p n) as [[]|] eqn:E; auto. right. exists n. split; [by left|done].
    + intros [-> |(m & [-> |?]%elem_of_cons & E)].
      * left. by destruct (answers g p n) as [[]|].
      * rewrite E. by left.
      * right. eauto.
Qed.

(** A carrier that refuses for its flow limits, or admits, neither drains nor is closed. *)
Lemma answers_live g p n :
  answers g p n ≠ Some Unavailable → carrier_closed g n = false ∧ carrier_draining g n = false.
Proof.
  unfold answers, carrier_closed, carrier_draining. destruct (carrier_session g n) as [s|]; [|done]. simpl.
  unfold try_admit. by destruct (draining s), (closed s).
Qed.

Lemma ranking_elem g l n k : (k, n) ∈ ranking g l ↔ k = flow_count g n ∧ n ∈ l ∧ carrier_draining g n = false.
Proof. unfold ranking. rewrite list_elem_of_fmap. setoid_rewrite list_elem_of_filter. naive_solver. Qed.

Lemma sorted_elem g l n : n ∈ snd <$> sort_by_key (ranking g l) ↔ n ∈ l ∧ carrier_draining g n = false.
Proof.
  rewrite list_elem_of_fmap. setoid_rewrite sort_by_key_elem. split.
  - intros ([k m] & -> & (_ & ? & ?)%ranking_elem). done.
  - intros [? ?]. exists (flow_count g n, n). split; [done|]. by apply ranking_elem.
Qed.

(** Behind a carrier in the ranking there is none with a smaller load. *)
Lemma ranking_least g l l1 n l2 m :
  snd <$> sort_by_key (ranking g l) = l1 ++ n :: l2 → m ∈ l2 → flow_count g n ≤ flow_count g m.
Proof.
  intros H Hm. pose proof (sort_by_key_sorted (ranking g l)) as Hs.
  assert (∀ k x, (k, x) ∈ sort_by_key (ranking g l) → k = flow_count g x) as Hk.
  { intros k x Hx. apply sort_by_key_elem, ranking_elem in Hx. tauto. }
  apply fmap_app_inv in H as (l1' & l2' & -> & Hl2 & E). symmetry in Hl2. apply fmap_cons_inv in Hl2 as ([kn n'] & l2'' & -> & -> & ->).
  apply list_elem_of_fmap in Hm as ([km m'] & -> & Hm). rewrite E in Hs, Hk.
  pose proof (sorted_first _ _ _ _ Hs Hm) as Hle. simpl in *.
  rewrite <-(Hk kn n'), <-(Hk km m'); [done|set_solver..].
Qed.

End Placement.

Module Demo.
Import ClientPoolTheorems.Demo.

(** Carrier 7 has one flow when another request comes. *)
Definition second : list Label := dialled ++ [LStep 0 (TryOn 3); LRequest 1 (OpenFlow Tcp); LStep 1 Proceed].

End Demo.
End ClientPlacement.
