(* ===== verification/ClientListener.v ===== *)
(** * ClientListener: the SOCKS5 listener and its connections
    (crates/uk-client/src/relay/listener.rs, session_manager.rs, tcp.rs, context.rs)

    The listener accepts connections while it has slots, backs off when accepting fails,
    and drains on shutdown.  A connection negotiates, opens a flow, tells the application
    how that went, and relays. *)

From S2P Require Import Prelude Wire Varint FrameCodec RustStd Endpoint TargetCodec RelayPayload Settings FrameIo.
From S2P Require Import ServerConfig Socks5 ClientSession.

Module ClientListener.
Import ClientSession.

(** ** Backing off *)

Definition ACCEPT_RETRY_BASE_MILLIS : Z := 10.
Definition ACCEPT_RETRY_MAX_MILLIS : Z := 1000.

(** [consecutive_failures] is a [u32]; the delay and the next count. *)
(* @src crates/uk-client/src/relay/context.rs 66-74 ListenerAcceptBackoff::next_delay *)
Definition next_delay (consecutive_failures : Z) : Z * Z :=
  let shift := Z.min consecutive_failures 7 in
  (Z.min (Z.min U64_MAX (ACCEPT_RETRY_BASE_MILLIS * Z.shiftl 1 shift)) ACCEPT_RETRY_MAX_MILLIS,
   Z.min (consecutive_failures + 1) (2 ^ 32 - 1)).

(** ** The accept loop *)

(** [slots]: the permits left of [connection_slots]; [sleeping]: the delay before the
    next accept, if the last one failed. *)
Record Listener : Set := {
  slots : Z;
  connections : gset nat;
  consecutive_failures : Z;
  sleeping : option Z;
  accepting : bool
}.

(* @src crates/uk-client/src/relay/listener.rs 73-119 run_socks5_listener_on_until_shutdown_inner *)
Definition listener_new (max_socks_connections : Z) : Listener :=
  {| slots := max_socks_connections; connections := ∅; consecutive_failures := 0; sleeping := None; accepting := true |}.

(** A connection gets a slot, or is shut down at once. *)
(* @src crates/uk-client/src/relay/session_manager.rs 119-165 SocksConnectionRuntime::spawn_accepted *)
Definition spawn_accepted (n : nat) (l : Listener) : bool * Listener :=
  if slots l <=? 0 then (false, l) else
  (true, {| slots := slots l - 1; connections := {[ n ]} ∪ connections l;
            consecutive_failures := consecutive_failures l; sleeping := sleeping l; accepting := accepting l |}).

(** What happens to the listener.  [Aborted]: the shutdown timeout passed. *)
Inductive Happening : Set := Accepted (n : nat) | AcceptFailed | Slept | Ended (n : nat) | Shutdown | Aborted.

Definition with_accept (l : Listener) (failures : Z) (sleep : option Z) (accept : bool) : Listener :=
  {| slots := slots l; connections := connections l; consecutive_failures := failures; sleeping := sleep; accepting := accept |}.

(** A connection that ends, or is aborted, drops its permit. *)
Definition release (gone : gset nat) (l : Listener) : Listener :=
  {| slots := slots l + Z.of_nat (size (connections l ∩ gone)); connections := connections l ∖ gone;
     consecutive_failures := consecutive_failures l; sleeping := sleeping l; accepting := accepting l |}.

(* @src crates/uk-client/src/relay/listener.rs 120-178 run_socks5_listener_on_until_shutdown_inner *)
Definition listener_step (l : Listener) (h : Happening) : option Listener :=
  match h with
  | Accepted n =>
    if accepting l && bool_decide (sleeping l = None) && bool_decide (n ∉ connections l)
    then Some (snd (spawn_accepted n (with_accept l 0 None true))) else None
  | AcceptFailed =>
    if accepting l && bool_decide (sleeping l = None)
    then let '(delay, failures) := next_delay (consecutive_failures l) in Some (with_accept l failures (Some delay) true)
    else None
  | Slept => if bool_decide (is_Some (sleeping l)) then Some (with_accept l (consecutive_failures l) None (accepting l)) else None
  | Ended n => if bool_decide (n ∈ connections l) then Some (release {[ n ]} l) else None
  | Shutdown =>
    if accepting l && bool_decide (sleeping l = None) then Some (with_accept l (consecutive_failures l) None false) else None
  | Aborted => if accepting l then None else Some (release (connections l) l)
  end.

Fixpoint listener_run (l : Listener) (hs : list Happening) : option Listener :=
  match hs with
  | [] => Some l
  | h :: hs => listener_step l h ≫= λ l, listener_run l hs
  end.

(** ** One connection *)

(* @src crates/uk-client/src/relay/context.rs 81-88 ClientConnectionState *)
Inductive ClientConnectionState : Set := NegotiatingSocks | Opening | Relaying | Closing | Closed.

(* @src crates/uk-client/src/relay/context.rs 763-787 is_valid_connection_transition *)
Definition is_valid_connection_transition (from next : ClientConnectionState) : bool :=
  match from, next with
  | NegotiatingSocks, (Opening | Relaying | Closed) | Opening, (Relaying | Closing | Closed)
  | Relaying, (Closing | Closed) | Closing, Closed => true
  | _, _ => false
  end.

(** The state and the replies sent so far. *)
Definition conn (A : Type) : Type :=
  ClientConnectionState * list Socks5.Reply → ErrOr A * (ClientConnectionState * list Socks5.Reply).
Definition cret {A} (r : ErrOr A) : conn A := λ s, (r, s).
Definition cbind {A B} (m : conn A) (k : A → conn B) : conn B := λ s,
  match m s with (Ok a, s) => k a s | (Err e, s) => (Err e, s) | (Panic, s) => (Panic, s) end.

(** The debug assertion is a panic. *)
(* @src crates/uk-client/src/relay/context.rs 753-761 transition *)
Definition transition (next : ClientConnectionState) : conn unit := λ '(from, rs),
  if is_valid_connection_transition from next then (Ok tt, (next, rs)) else (Panic, (from, rs)).
(** [send_reply]: the reply is on its way once it is written. *)
Definition send_reply (reply : Socks5.Reply) (written : ErrOr unit) : conn unit := λ '(st, rs),
  match written with Ok _ => (Ok tt, (st, rs ++ [reply])) | _ => (written, (st, rs)) end.

(* @src crates/uk-client/src/relay/context.rs 380-384 OpenOutcome *)
Inductive OpenOutcome : Set := Open | OpenRejected (reply : Socks5.Reply) | Cancelled.

(** What the parts of a connection return: the negotiation ([None]: the shutdown came
    first), the manager, the relays, and the writes of the reply. *)
Record Parts : Type := {
  shutting_down : bool;
  nodelay : ErrOr unit;
  negotiated : option (ErrOr Socks5.Request);
  udp_relayed : ErrOr unit;
  opened : ErrOr OpenOutcome;
  reply_written : ErrOr unit;
  relayed : ErrOr unit
}.

Notation "'let%' x := m 'in' k" := (cbind m (λ x, k)) (at level 10, x binder, m at level 200, k at level 200).

(* @src crates/uk-client/src/relay/tcp.rs 23-99 handle_socks_connection *)
Definition handle_socks_connection (w : Parts) : conn unit :=
  let% _ := cret (nodelay w) in
  if shutting_down w then cret (Ok tt) else
  match negotiated w with
  | None => let% _ := transition Closed in cret (Ok tt)
  | Some request =>
    let% request := cret request in
    match request with
    | Socks5.UdpAssociate _ =>
      let% _ := transition Relaying in
      let% _ := if is_ok (udp_relayed w) then cret (Ok tt) else transition Closing in
      let% _ := transition Closed in
      cret (udp_relayed w)
    | Socks5.Connect _ =>
      let% _ := transition Opening in
      match opened w with
      | Ok (OpenRejected reply) =>
        let% _ := send_reply reply (reply_written w) in
        let% _ := transition Closed in cret (Ok tt)
      | Ok Cancelled => let% _ := transition Closed in cret (Ok tt)
      | Ok Open =>
        λ s, match send_reply Socks5.Succeeded (reply_written w) s with
             | (Ok _, s) =>
               (let% _ := transition Relaying in
                let% _ := if is_ok (relayed w) then cret (Ok tt) else transition Closing in
                let% _ := transition Closed in
                cret (relayed w)) s
             | (_, s) =>
               (let% _ := transition Closing in
                let% _ := transition Closed in
                cret (reply_written w)) s
             end
      | _ =>
        λ s, let '(_, s) := send_reply Socks5.GeneralFailure (reply_written w) s in
             (let% _ := transition Closing in
              let% _ := transition Closed in
              cret (let? _ := opened w in Ok tt)) s
      end
    end
  end.

(** ** Theorems *)

(** While accepting fails, the delay doubles from 10 ms up to a second. *)
Lemma next_delay_exact k : 0 ≤ k → fst (next_delay k) = Z.min (10 * 2 ^ Z.min k 7) 1000.
Proof.
  intros Hk. unfold next_delay, ACCEPT_RETRY_BASE_MILLIS, ACCEPT_RETRY_MAX_MILLIS. simpl fst. rewrite Z.shiftl_1_l.
  assert (2 ^ Z.min k 7 ≤ 2 ^ 7) by (apply Z.pow_le_mono_r; lia). change (2 ^ 7) with 128 in *. unfold U64_MAX. lia.
Qed.

Record listener_ok (m : Z) (l : Listener) : Prop := {
  li_slots : slots l + Z.of_nat (size (connections l)) = m;
  li_free : 0 ≤ slots l;
  li_failures : 0 ≤ consecutive_failures l;
  li_sleep d : sleeping l = Some d → 10 ≤ d ≤ 1000
}.

Lemma release_size (s gone : gset nat) :
  Z.of_nat (size s) = Z.of_nat (size (s ∩ gone)) + Z.of_nat (size (s ∖ gone)).
Proof.
  rewrite <-Nat2Z.inj_add, <-size_union by set_solver. do 2 f_equal. apply set_eq. intros x.
  destruct (decide (x ∈ gone)); set_solver.
Qed.
Lemma release_ok m gone l : listener_ok m l → listener_ok m (release gone l).
Proof.
  intros [H1 H2 H3 H4]. split; simpl; [|lia|done|done]. pose proof (release_size (connections l) gone). lia.
Qed.

Lemma listener_step_ok m l h l' : listener_ok m l → listener_step l h = Some l' → listener_ok m l'.
Proof.
  intros [H1 H2 H3 H4] Hs. destruct h as [n| | |n| |]; simpl in Hs.
  - destruct (_ && _) eqn:E; [|done]. injection Hs as <-. unfold spawn_accepted. simpl.
    destruct (slots l <=? 0) eqn:Es; simpl; [by split|]. apply Z.leb_gt in Es. apply andb_true_iff in E as [_ E].
    apply bool_decide_eq_true in E. split; simpl; [|lia|lia|done]. rewrite size_union, size_singleton by set_solver. lia.
  - destruct (_ && _); [|done]. simpl in Hs. injection Hs as <-. split; simpl; [done|done|lia|]. intros d [= <-].
    change (Z.min (Z.min U64_MAX _) _) with (fst (next_delay (consecutive_failures l))). rewrite next_delay_exact by done.
    pose proof (Z.pow_pos_nonneg 2 (Z.min (consecutive_failures l) 7)). lia.
  - case_bool_decide; [|done]. injection Hs as <-. by split.
  - case_bool_decide; [|done]. injection Hs as <-. by apply release_ok.
  - destruct (_ && _); [|done]. injection Hs as <-. by split.
  - destruct (accepting l); [done|]. injection Hs as <-. by apply release_ok.
Qed.

Lemma listener_run_ok m l hs l' : listener_ok m l → listener_run l hs = Some l' → listener_ok m l'.
Proof.
  revert l. induction hs as [|h hs IH]; intros l Hl; simpl; [by intros [= <-]|].
  intros (l1 & Hs & Hr)%bind_Some. eapply IH; [|done]. by eapply listener_step_ok.
Qed.

(** Never more connections than slots; every slot is free or held by a connection, so none
    is lost; accepting is retried within a second.  Once the listener shuts down the
    connections only become fewer, and the timeout leaves none. *)
Theorem connections_bounded m hs l :
  0 ≤ m → listener_run (listener_new m) hs = Some l →
  Z.of_nat (size (connections l)) ≤ m ∧ slots l = m - Z.of_nat (size (connections l)) ∧
  (∀ d, sleeping l = Some d → 10 ≤ d ≤ 1000) ∧
  (accepting l = false →
     (∀ h l', listener_step l h = Some l' → accepting l' = false ∧ connections l' ⊆ connections l) ∧
     ∃ l', listener_step l Aborted = Some l' ∧ connections l' = ∅ ∧ slots l' = m).
Proof.
  intros Hm Hr. assert (listener_ok m l) as [H1 H2 H3 H4].
  { eapply listener_run_ok; [|done]. split; [|done..]. change (m + Z.of_nat (size (∅ : gset nat)) = m). rewrite size_empty. lia. }
  split_and!; [lia|lia|done|]. intros Ha. split.
  - intros h l' Hs. destruct h; simpl in Hs; rewrite ?Ha in Hs; try done;
      repeat case_bool_decide; simplify_eq; simpl; (split; [done|set_solver]).
  - simpl. rewrite Ha. eexists. split; [done|]. simpl. split; [set_solver|]. replace (_ ∩ _) with (connections l) by set_solver. lia.
Qed.

(** What a connection tells its application.  Whatever its parts return, the states never
    go astray; success is reported exactly when the flow is open, before anything is
    relayed, and at most one reply is sent. *)
Theorem replies_truthful w r st rs :
  nodelay w ≠ Panic → negotiated w ≠ Some Panic → udp_relayed w ≠ Panic → opened w ≠ Panic → reply_written w ≠ Panic →
  relayed w ≠ Panic → opened w ≠ Ok (OpenRejected Socks5.Succeeded) → handle_socks_connection w (NegotiatingSocks, []) = (r, (st, rs)) →
  r ≠ Panic ∧ (length rs ≤ 1)%nat ∧
  (Socks5.Succeeded ∈ rs → opened w = Ok Open ∧ st = Closed ∧ r = relayed w) ∧
  (opened w = Ok Open → st = Closed → rs = [] → ¬ is_ok (reply_written w) ∨ ∀ t, negotiated w ≠ Some (Ok (Socks5.Connect t))).
Proof.
  destruct w as [sd nd ng ud op wr rl]. simpl. intros Hn Hg Hu Ho Hw Hr Hrej.
  unfold handle_socks_connection, cbind, cret, transition, send_reply. simpl.
  destruct nd as [[]|e|]; [|intros [= <- <- <-]; split_and!; try done; set_solver|done].
  destruct sd; [intros [= <- <- <-]; split_and!; try done; set_solver|].
  destruct ng as [[[t|ep]|e|]|]; [| | |done|]; try (intros [= <- <- <-]; split_and!; try done; set_solver).
  - destruct op as [[|reply|]|e|]; [| | | |done]; destruct wr as [[]|e'|]; try done; simpl;
      try (destruct rl as [[]|e2|]; try done; simpl); intros [= <- <- <-]; split_and!; try done; simpl; try lia; set_solver.
  - destruct ud as [[]|e|]; [..|done]; simpl; intros [= <- <- <-]; split_and!; try done; set_solver.
Qed.
End ClientListener.
