(* ===== verification/ClientUdp.v ===== *)
(** * ClientUdp: a SOCKS UDP association (crates/uk-client/src/relay/udp.rs)

    Which datagrams the association accepts from the local network, and how they are
    handed to one worker per target.  What a worker then does with its flow is in
    [ClientFlows]. *)

From S2P Require Import Prelude Wire Varint FrameCodec RustStd Endpoint TargetCodec RelayPayload Settings FrameIo.
From S2P Require Import ServerConfig Socks5.

Module ClientUdp.

(** [SocketAddr]; for IPv4 the last two are zero. *)
Record Peer : Set := { ip : IpAddr; port : Z; flowinfo : Z; scope_id : Z }.

#[global] Instance Peer_eq_dec : EqDecision Peer.
Proof. solve_decision. Defined.

#[global] Instance Target_countable : Countable Target.Target.
Proof.
  refine (inj_countable'
    (λ t, match t with Target.Domain d p => inl (d, p) | Target.Ipv4 a p => inr (inl (a, p)) | Target.Ipv6 a p => inr (inr (a, p)) end)
    (λ s, match s with inl (d, p) => Target.Domain d p | inr (inl (a, p)) => Target.Ipv4 a p | inr (inr (a, p)) => Target.Ipv6 a p end) _).
  by intros [].
Defined.

(* @src crates/uk-client/src/relay/udp.rs 40-40 UDP_TARGET_QUEUE_CAPACITY *)
Definition UDP_TARGET_QUEUE_CAPACITY : Z := 8.

(* @src crates/uk-client/src/relay/udp.rs 64-77 UdpClientEndpoint *)
Record UdpClientEndpoint : Set := { requested : Socks5.SocksEndpoint; control_peer_ip : IpAddr; learned : option Peer }.

(* @src crates/uk-client/src/relay/udp.rs 780-785 canonical_ip *)
Definition canonical_ip (i : IpAddr) : IpAddr :=
  match i with
  | IpV6 a => match ipv6_to_ipv4_mapped a with Some v4 => IpV4 v4 | None => IpV6 a end
  | IpV4 a => IpV4 a
  end.

(* @src crates/uk-client/src/relay/udp.rs 776-778 ip_matches *)
Definition ip_matches (left right : IpAddr) : bool := bool_decide (canonical_ip left = canonical_ip right).

(* @src crates/uk-client/src/relay/udp.rs 769-771 matches_requested_port *)
Definition matches_requested_port (peer : Peer) (requested_port : Z) : bool :=
  (requested_port =? 0) || (port peer =? requested_port).

(* @src crates/uk-client/src/relay/udp.rs 759-766 matches_source_ip *)
Definition matches_source_ip (e : UdpClientEndpoint) (peer : Peer) (requested_ip : option IpAddr) : bool :=
  match requested_ip with
  | Some i => if negb (ip_is_unspecified i) then ip_matches (ip peer) i else ip_matches (ip peer) (control_peer_ip e)
  | None => ip_matches (ip peer) (control_peer_ip e)
  end.

(* @src crates/uk-client/src/relay/udp.rs 743-757 matches_requested *)
Definition matches_requested (e : UdpClientEndpoint) (peer : Peer) : bool :=
  match requested e with
  | Socks5.Ipv4 addr port => matches_source_ip e peer (Some (IpV4 addr)) && matches_requested_port peer port
  | Socks5.Ipv6 addr port => matches_source_ip e peer (Some (IpV6 addr)) && matches_requested_port peer port
  | Socks5.Domain _ port => matches_source_ip e peer None && matches_requested_port peer port
  end.

(* @src crates/uk-client/src/relay/udp.rs 718-729 accepts *)
Definition accepts (e : UdpClientEndpoint) (peer : Peer) : bool * UdpClientEndpoint :=
  if negb (matches_requested e peer) then (false, e) else
  match learned e with
  | Some l => (bool_decide (l = peer), e)
  | None => (true, {| requested := requested e; control_peer_ip := control_peer_ip e; learned := Some peer |})
  end.

(** A worker: its target, the endpoint replies go to, the queue that feeds it, whether
    it still runs; and, for the record, what it has taken from the queue, with the
    sender of each datagram. *)
Record Worker : Set := {
  worker_target : Target.Target;
  client_endpoint : Peer;
  queue : list (Bytes * Peer);
  running : bool;
  taken : list (Bytes * Peer)
}.

(* @src crates/uk-client/src/relay/udp.rs 49-62 UdpAssociation *)
Record UdpAssociation : Type := {
  endpoint : UdpClientEndpoint;
  senders : gmap Target.Target nat;
  workers : gmap nat Worker;
  next_worker : nat
}.

(* @src crates/uk-client/src/relay/udp.rs 249-266 UdpAssociation::new *)
Definition association_new (requested : Socks5.SocksEndpoint) (control_peer_ip : IpAddr) : UdpAssociation :=
  {| endpoint := {| requested := requested; control_peer_ip := control_peer_ip; learned := None |};
     senders := ∅; workers := ∅; next_worker := 0 |}.

(* @src crates/uk-client/src/relay/udp.rs 394-406 try_enqueue_datagram *)
Definition try_enqueue_datagram (w : Worker) (payload : Bytes) (from : Peer) : Worker :=
  if running w && (zlen (queue w) <? UDP_TARGET_QUEUE_CAPACITY)
  then {| worker_target := worker_target w; client_endpoint := client_endpoint w; queue := queue w ++ [(payload, from)];
          running := running w; taken := taken w |}
  else w.

(* @src crates/uk-client/src/relay/udp.rs 348-367 spawn_target_worker *)
Definition spawn_target_worker (a : UdpAssociation) (t : Target.Target) : option Worker :=
  match learned (endpoint a) with
  | None => None
  | Some peer => Some {| worker_target := t; client_endpoint := peer; queue := []; running := true; taken := [] |}
  end.

(* @src crates/uk-client/src/relay/udp.rs 323-346 enqueue_datagram *)
Definition enqueue_datagram (a : UdpAssociation) (t : Target.Target) (payload : Bytes) (from : Peer) : UdpAssociation :=
  let fresh (senders : gmap Target.Target nat) :=
    match spawn_target_worker a t with
    | Some w =>
      {| endpoint := endpoint a; senders := <[t := next_worker a]> senders;
         workers := <[next_worker a := try_enqueue_datagram w payload from]> (workers a); next_worker := S (next_worker a) |}
    | None => {| endpoint := endpoint a; senders := senders; workers := workers a; next_worker := next_worker a |}
    end in
  match senders a !! t with
  | Some n =>
    match workers a !! n with
    | Some w =>
      if negb (running w) then fresh (delete t (senders a)) else
      {| endpoint := endpoint a; senders := senders a; workers := <[n := try_enqueue_datagram w payload from]> (workers a);
         next_worker := next_worker a |}
    | None => fresh (delete t (senders a))
    end
  | None => fresh (senders a)
  end.

(** [max_payload]: the limit of the first live session, when there is one. *)
(* @src crates/uk-client/src/relay/udp.rs 274-311 handle_local_udp_datagram *)
Definition handle_local_udp_datagram (a : UdpAssociation) (peer : Peer) (packet : Bytes) (max_payload : option Z)
  : UdpAssociation :=
  let '(ok, e) := accepts (endpoint a) peer in
  let a := {| endpoint := e; senders := senders a; workers := workers a; next_worker := next_worker a |} in
  if negb ok then a else
  match Socks5.decode_udp_datagram packet with
  | Ok d =>
    match max_payload with
    | Some limit => if limit <? zlen (Socks5.payload d) then a
                    else enqueue_datagram a (Socks5.target d) (Socks5.payload d) peer
    | None => enqueue_datagram a (Socks5.target d) (Socks5.payload d) peer
    end
  | _ => a
  end.

(** What happens to an association: a datagram on its socket, a worker that takes the
    next datagram from its queue, a worker that ends. *)
Inductive Happening : Set :=
  | Arrives (peer : Peer) (packet : Bytes) (max_payload : option Z)
  | Takes (n : nat)
  | Ends (n : nat).

Definition with_worker (a : UdpAssociation) (n : nat) (f : Worker → Worker) : UdpAssociation :=
  {| endpoint := endpoint a; senders := senders a; workers := alter f n (workers a); next_worker := next_worker a |}.

Definition happens (a : UdpAssociation) (h : Happening) : UdpAssociation :=
  match h with
  | Arrives peer packet max_payload => handle_local_udp_datagram a peer packet max_payload
  | Takes n => with_worker a n (λ w,
      match running w, queue w with
      | true, d :: q => {| worker_target := worker_target w; client_endpoint := client_endpoint w; queue := q; running := true;
                           taken := taken w ++ [d] |}
      | _, _ => w
      end)
  | Ends n => with_worker a n (λ w,
      {| worker_target := worker_target w; client_endpoint := client_endpoint w; queue := []; running := false; taken := taken w |})
  end.

Definition association_run (requested : Socks5.SocksEndpoint) (control_peer_ip : IpAddr) (hs : list Happening) : UdpAssociation :=
  foldl happens (association_new requested control_peer_ip) hs.

(** ** Who is served *)

(** The address the client announced, when it announced one. *)
Definition advertised (e : Socks5.SocksEndpoint) : option IpAddr :=
  match e with
  | Socks5.Ipv4 a _ => if ip_is_unspecified (IpV4 a) then None else Some (IpV4 a)
  | Socks5.Ipv6 a _ => if ip_is_unspecified (IpV6 a) then None else Some (IpV6 a)
  | Socks5.Domain _ _ => None
  end.
Definition advertised_port (e : Socks5.SocksEndpoint) : Z :=
  match e with Socks5.Ipv4 _ p | Socks5.Ipv6 _ p | Socks5.Domain _ p => p end.

(** The hosts that may use the association. *)
Definition entitled (e : Socks5.SocksEndpoint) (control : IpAddr) (p : Peer) : Prop :=
  canonical_ip (ip p) = canonical_ip (default control (advertised e)) ∧
  (advertised_port e = 0 ∨ port p = advertised_port e).

Lemma matches_requested_entitled e p :
  matches_requested e p = true ↔ entitled (requested e) (control_peer_ip e) p.
Proof.
  assert (∀ i q, ip_matches i q = true ↔ canonical_ip i = canonical_ip q) as Hip.
  { intros. unfold ip_matches. apply bool_decide_eq_true. }
  assert (∀ q, matches_requested_port p q = true ↔ q = 0 ∨ port p = q) as Hport.
  { intros. unfold matches_requested_port. rewrite orb_true_iff, !Z.eqb_eq. reflexivity. }
  unfold matches_requested, entitled, matches_source_ip, advertised, advertised_port.
  destruct (requested e); rewrite andb_true_iff, Hport; try destruct (ip_is_unspecified _); cbn [negb default];
    rewrite Hip; reflexivity.
Qed.

Section Served.
Context (e : Socks5.SocksEndpoint) (control : IpAddr).

(** Where a datagram of a worker comes from. *)
Definition came_from (hs : list Happening) (t : Target.Target) (from : Peer) (b : Bytes) : Prop :=
  ∃ packet limit d, Arrives from packet limit ∈ hs ∧ Socks5.decode_udp_datagram packet = Ok d ∧
    Socks5.target d = t ∧ Socks5.payload d = b.

Record worker_ok (hs : list Happening) (peer : Peer) (w : Worker) : Prop := {
  w_endpoint : client_endpoint w = peer;
  w_queue : zlen (queue w) ≤ UDP_TARGET_QUEUE_CAPACITY;
  w_from b from : (b, from) ∈ taken w ++ queue w → from = peer ∧ came_from hs (worker_target w) from b
}.

Record association_ok (hs : list Happening) (a : UdpAssociation) : Prop := {
  a_requested : requested (endpoint a) = e;
  a_control : control_peer_ip (endpoint a) = control;
  a_learned p : learned (endpoint a) = Some p → entitled e control p;
  a_workers n w : workers a !! n = Some w → ∃ p, learned (endpoint a) = Some p ∧ worker_ok hs p w;
  a_senders t n : senders a !! t = Some n → ∃ w, workers a !! n = Some w ∧ worker_target w = t;
  a_fresh n : (next_worker a ≤ n)%nat → workers a !! n = None
}.

Lemma came_from_mono hs h t from b : came_from hs t from b → came_from (hs ++ [h]) t from b.
Proof. intros (packet & limit & d & Hin & H). exists packet, limit, d. split; [set_solver|done]. Qed.
Lemma worker_ok_mono hs h peer w : worker_ok hs peer w → worker_ok (hs ++ [h]) peer w.
Proof.
  intros [? ? Hf]. split; [done..|]. intros b from Hin. destruct (Hf b from Hin). split; [done|by apply came_from_mono].
Qed.

Lemma try_enqueue_ok hs peer w b :
  worker_ok hs peer w → came_from hs (worker_target w) peer b → worker_ok hs peer (try_enqueue_datagram w b peer).
Proof.
  intros [He Hq Hf] Hc. unfold try_enqueue_datagram. destruct (_ && _) eqn:E; [|done]. split; simpl; [done| |].
  - rewrite length_app. simpl. bool_to_prop. lia.
  - intros b' from. rewrite app_assoc, elem_of_app. intros [Hin|Hin]; [by apply Hf|].
    apply list_elem_of_singleton in Hin. by injection Hin as -> ->.
Qed.

Lemma enqueue_ok hs a t b peer :
  association_ok hs a → learned (endpoint a) = Some peer → came_from hs t peer b →
  association_ok hs (enqueue_datagram a t b peer).
Proof.
  intros Ha Hl Hc. pose proof Ha as [Hr Hct Hle Hw Hs Hf]. unfold enqueue_datagram, spawn_target_worker. cbv zeta. rewrite Hl.
  set (w0 := {| worker_target := t |}).
  assert (worker_ok hs peer w0) as Hw0 by (split; simpl; [done|done|intros ? ? []%elem_of_nil]).
  assert (∀ m : gmap Target.Target nat, (∀ t' n, m !! t' = Some n → senders a !! t' = Some n) → association_ok hs
    {| endpoint := endpoint a; senders := <[t := next_worker a]> m;
       workers := <[next_worker a := try_enqueue_datagram w0 b peer]> (workers a); next_worker := S (next_worker a) |}) as Hfresh.
  { intros m Hm. split; cbn [endpoint senders workers next_worker]; try assumption.
    - intros n w [[<- <-]|[_ Hn]]%lookup_insert_Some; [|by eapply Hw]. exists peer. split; [done|by apply try_enqueue_ok].
    - intros t' n [[<- <-]|[_ Hn]]%lookup_insert_Some.
      + eexists. rewrite lookup_insert_eq. split; [reflexivity|]. unfold try_enqueue_datagram. by destruct (_ && _).
      + destruct (Hs _ _ (Hm _ _ Hn)) as (w & Hwn & ?). exists w. split; [|done]. rewrite lookup_insert_ne; [done|].
        intros <-. rewrite Hf in Hwn; [done|lia].
    - intros n Hn. rewrite lookup_insert_ne by lia. apply Hf. lia. }
  destruct (senders a !! t) as [n|] eqn:Hn; [|by apply Hfresh].
  destruct (Hs _ _ Hn) as (w & Hwn & Ht). rewrite Hwn. destruct (running w); cbn [negb].
  2:{ apply Hfresh. intros t' n' [_ ?]%lookup_delete_Some. done. }
  assert (worker_target (try_enqueue_datagram w b peer) = t) as Ht'
    by (unfold try_enqueue_datagram; destruct (_ && _); exact Ht).
  split; cbn [endpoint senders workers next_worker]; try assumption.
  - intros n' w' [[<- <-]|[_ Hn']]%lookup_insert_Some; [|by eapply Hw]. exists peer. split; [done|].
    destruct (Hw _ _ Hwn) as (p & Hp & Hok). rewrite Hl in Hp. injection Hp as <-. apply try_enqueue_ok; [done|]. by rewrite Ht.
  - intros t' n' Hn'. destruct (decide (n = n')) as [<-|Hne].
    + destruct (Hs _ _ Hn') as (w' & Hw' & Ht''). rewrite Hwn in Hw'. injection Hw' as <-. eexists. rewrite lookup_insert_eq.
      split; [reflexivity|]. congruence.
    + rewrite lookup_insert_ne by done. by apply Hs.
  - intros n' Hn'. rewrite lookup_insert_ne; [by apply Hf|]. intros <-. rewrite Hf in Hwn; done.
Qed.

Lemma association_ok_mono hs h a : association_ok hs a → association_ok (hs ++ [h]) a.
Proof.
  intros [? ? ? Hw ? ?]. split; try assumption. intros n w Hn. destruct (Hw n w Hn) as (p & Hp & ?).
  exists p. split; [exact Hp|]. by apply worker_ok_mono.
Qed.

Lemma association_ok_worker hs a n f :
  association_ok hs a → (∀ w, worker_target (f w) = worker_target w) → (∀ p w, worker_ok hs p w → worker_ok hs p (f w)) →
  association_ok hs (with_worker a n f).
Proof.
  intros [? ? ? Hw Hs Hf] Ht Hok. split; cbn [endpoint senders workers next_worker with_worker]; try assumption.
  - intros m w. rewrite lookup_alter_Some. intros [(<- & w0 & Hm & ->)|[_ Hm]]; [|by eapply Hw].
    destruct (Hw _ _ Hm) as (p & Hp & ?). exists p. split; [exact Hp|]. by apply Hok.
  - intros t m Hm. destruct (Hs t m Hm) as (w & Hw' & <-). destruct (decide (n = m)) as [<-|Hne].
    + exists (f w). rewrite lookup_alter_eq, Hw'. split; [reflexivity|apply Ht].
    + exists w. rewrite lookup_alter_ne by done. done.
  - intros m Hm. destruct (decide (n = m)) as [<-|Hne]; [rewrite lookup_alter_eq|rewrite lookup_alter_ne by done];
      by rewrite Hf.
Qed.

Lemma accepts_ok ep peer ep' :
  requested ep = e → control_peer_ip ep = control → accepts ep peer = (true, ep') →
  requested ep' = e ∧ control_peer_ip ep' = control ∧ learned ep' = Some peer ∧ entitled e control peer ∧
  (learned ep = None ∨ learned ep = Some peer).
Proof.
  intros Hr Hc. unfold accepts. destruct (matches_requested ep peer) eqn:Hm; cbn [negb]; [|discriminate].
  apply matches_requested_entitled in Hm. rewrite Hr, Hc in Hm. destruct (learned ep) as [l|] eqn:Hl.
  - case_bool_decide as Heq; [|discriminate]. intros [= <-]. subst l. split_and!; auto.
  - intros [= <-]. cbn. split_and!; auto.
Qed.
Lemma accepts_refused ep peer ep' : accepts ep peer = (false, ep') → ep' = ep.
Proof. unfold accepts. destruct (negb _); [by intros [= <-]|]. destruct (learned ep); [by intros [= _ <-]|discriminate]. Qed.

Lemma arrives_ok hs a peer packet limit :
  association_ok hs a → association_ok (hs ++ [Arrives peer packet limit]) (handle_local_udp_datagram a peer packet limit).
Proof.
  intros Ha%(association_ok_mono _ (Arrives peer packet limit)). unfold handle_local_udp_datagram.
  destruct (accepts (endpoint a) peer) as [ok ep] eqn:E. set (a1 := {| endpoint := ep |}).
  destruct ok; cbn [negb].
  2:{ apply accepts_refused in E as ->. subst a1. by destruct a. }
  destruct Ha as [Hr Hc Hl Hw Hs Hf]. apply accepts_ok in E as (Hr' & Hc' & Hl' & Hent & Hold); [|done|done].
  assert (association_ok (hs ++ [Arrives peer packet limit]) a1) as Ha1.
  { split; cbn [a1 endpoint senders workers next_worker]; try assumption.
    - intros p Hp. assert (Some peer = Some p) as [= <-] by (rewrite <-Hl'; exact Hp). exact Hent.
    - intros n w Hn. destruct (Hw n w Hn) as (p & Hp & Hok). exists peer. split; [exact Hl'|].
      destruct Hold as [Hold|Hold]; rewrite Hold in Hp; [discriminate|]. injection Hp as <-. exact Hok. }
  destruct (Socks5.decode_udp_datagram packet) as [d|err|] eqn:Hd; [|exact Ha1..].
  assert (association_ok (hs ++ [Arrives peer packet limit]) (enqueue_datagram a1 (Socks5.target d) (Socks5.payload d) peer)).
  { apply enqueue_ok; [exact Ha1|exact Hl'|]. exists packet, limit, d. split; [|auto]. apply elem_of_app. right.
    by apply list_elem_of_singleton. }
  destruct limit as [l|]; [|done]. destruct (l <? _); done.
Qed.

Lemma run_association_ok hs : association_ok hs (association_run e control hs).
Proof.
  induction hs as [|h hs IH] using rev_ind.
  - split; cbn; try done; intros; by rewrite lookup_empty in *.
  - unfold association_run. rewrite foldl_app. cbn [foldl]. fold (association_run e control hs).
    destruct h as [peer packet limit|n|n]; cbn [happens]; [by apply arrives_ok|..];
      (apply association_ok_worker; [by apply association_ok_mono|..]).
    + intros w. by destruct (running w), (queue w).
    + intros p w [He Hq Hf]. destruct (running w), (queue w) as [|d q] eqn:Eq; try (split; rewrite ?Eq; assumption).
      split; cbn; [exact He| |].
      * rewrite length_cons in Hq. lia.
      * intros b from. rewrite <-app_assoc. apply Hf.
    + done.
    + intros p w [He Hq Hf]. split; cbn; [exact He|done|]. intros b from. rewrite app_nil_r. intros Hin. apply Hf. set_solver.
Qed.

(** C26: A UDP association serves one client only, and mixes nothing up.  Every datagram a
    worker holds or has taken came from the same socket address, the one replies go to;
    that address is the host the client advertised, or, when it advertised none, the
    host of the control connection; it arrived in a well-formed SOCKS datagram for the
    worker's own target; and no queue is longer than its capacity. *)
Theorem association_serves_one_client hs n w b from :
  workers (association_run e control hs) !! n = Some w → (b, from) ∈ taken w ++ queue w →
  learned (endpoint (association_run e control hs)) = Some from ∧ client_endpoint w = from ∧
  canonical_ip (ip from) = canonical_ip (default control (advertised e)) ∧
  (advertised_port e = 0 ∨ port from = advertised_port e) ∧
  came_from hs (worker_target w) from b ∧ zlen (queue w) ≤ UDP_TARGET_QUEUE_CAPACITY.
Proof.
  intros Hn Hin. destruct (run_association_ok hs) as [_ _ Hl Hw _ _].
  destruct (Hw n w Hn) as (p & Hp & [He Hq Hf]). destruct (Hf b from Hin) as [-> Hc].
  destruct (Hl p Hp) as [Hip Hport]. split_and!; assumption.
Qed.
End Served.

Module Demo.
(** A client that advertised nothing: its own datagram is taken, a stranger's is not. *)
Definition control : IpAddr := IpV4 3221225985.
Definition client : Peer := {| ip := IpV6 (65535 * 2 ^ 32 + 3221225985); port := 5000; flowinfo := 0; scope_id := 0 |}.
Definition stranger : Peer := {| ip := IpV4 3221225986; port := 5000; flowinfo := 0; scope_id := 0 |}.
Definition packet (x : Z) : Bytes := [0; 0; 0; 1; 192; 0; 2; 9; 0; 53; x].
Definition happenings : list Happening :=
  [Arrives stranger (packet 1) None; Arrives client (packet 2) (Some 100); Arrives stranger (packet 3) None].
Definition worker : Worker :=
  {| worker_target := Target.Ipv4 3221225993 53; client_endpoint := client; queue := [([2], client)]; running := true; taken := [] |}.

Lemma association_serves_one_client_witness :
  let e := Socks5.Ipv4 0 0 in
  workers (association_run e control happenings) !! 0%nat = Some worker ∧
  learned (endpoint (association_run e control happenings)) = Some client ∧
  canonical_ip (ip client) = canonical_ip control ∧ came_from happenings (worker_target worker) client [2].
Proof.
  intros e. assert (workers (association_run e control happenings) !! 0%nat = Some worker) as Hw by (vm_compute; reflexivity).
  assert (([2], client) ∈ taken worker ++ queue worker) as Hin by (apply list_elem_of_singleton; reflexivity).
  destruct (association_serves_one_client e control happenings 0%nat worker [2] client Hw Hin) as (Hl & _ & Hip & _ & Hc & _).
  split; [exact Hw|]. split; [exact Hl|]. split; [exact Hip|exact Hc].
Defined.
End Demo.
End ClientUdp.
