(* ===== verification/HandshakeTheorems.v ===== *)
(** * HandshakeTheorems: what the handshake guarantees

    The two ends of [Handshake] against each other and against an adversary: an
    honest client and server complete, whatever the transport does to the bytes in
    between; a server lets in nobody who does not hold an active credential; every
    outcome is accounted for. *)

From S2P Require Import Prelude Wire Varint FrameCodec RustStd Endpoint TargetCodec RelayPayload Settings FrameIo.
From S2P Require Import Auth Policy Mask MaskReplay MaskStream MaskUdp RateLimit ServerConfig ClientConfig Security.
From S2P Require Import Masking Budget Dialer RelayState RelayHandlers RelaySession RelaySafety ServerRuntime Duplex Handshake.

Module HandshakeTheorems.
Import FrameIo Duplex Handshake.

Section Lemmas.
Context {P : Platform}.

(** ** Frames on a carrier *)

Lemma recv_encoded l c f bs rest :
  attended c → Frame.frame_wf l f → Frame.frame_encode f = Ok bs → script_bytes (input c) = bs ++ rest →
  ∃ s', recv l c = (Done (Ok f), {| input := s'; output := output c |}) ∧ script_bytes s' = rest ∧
        attended {| input := s'; output := output c |}.
Proof.
  intros Ha Hf Hb Hs. destruct (script_end (input c)) as [t|] eqn:Ht; [|by destruct Ha].
  pose proof (unbuffered_read_is_decode l (input c) t Ha Ht) as H.
  rewrite Hs, (pc_roundtrip f bs rest Hf Hb) in H. destruct H as (s' & H & Hr & Ha' & He').
  exists s'. unfold recv. by rewrite H.
Qed.

Lemma send_encoded f bs c n :
  Frame.frame_encode f = Ok bs → willing (output c) (length bs + n) →
  ∃ w', send f c = (Done (Ok tt), {| input := input c; output := w' |}) ∧ wire w' = wire (output c) ++ bs ∧
        willing w' n.
Proof.
  intros Hb Hw. destruct (write_frame_willing (output c) f bs n Hb Hw) as (w' & H & ? & ?).
  exists w'. unfold send. by rewrite H.
Qed.

(** A frame about the connection as a whole. *)
Definition connection_frame (t : Frame.FrameType) (p : Bytes) : Frame.Frame :=
  {| Frame.header := {| Frame.version := Frame.VERSION; Frame.frame_type := t; Frame.flags := 0; Frame.id := 0;
                        Frame.length := zlen p |};
     Frame.payload := p |}.

(** The bytes it goes over the wire as. *)
Definition on_wire (t : Frame.FrameType) (p : Bytes) : Bytes :=
  match Frame.frame_encode (connection_frame t p) with Ok bs => bs | _ => [] end.

Lemma connection_frame_new t p :
  zlen p ≤ 65536 →
  Frame.frame_new t 0 0 p = Ok (connection_frame t p) ∧
  Frame.frame_encode (connection_frame t p) = Ok (on_wire t p) ∧ (length (on_wire t p) ≤ 20 + length p)%nat.
Proof.
  intros Hp. assert (0 ≤ zlen p ≤ Varint.MAX_VARINT) as Hv
    by (change Varint.MAX_VARINT with 4611686018427387903; lia).
  destruct (Varint.encoded_len_total (zlen p) Hv) as (n & Hn & _). split.
  { unfold Frame.frame_new, Frame.header_new. by rewrite Hn. }
  destruct (Varint.encode_total (zlen p) Hv) as (lb & Hlb & ?).
  destruct (Varint.encode_total 0) as (ib & Hib & ?); [done|].
  unfold on_wire. rewrite Frame.frame_encode_eq.
  assert (∃ bs, Frame.frame_encode_into (connection_frame t p) = Ok bs ∧ (length bs ≤ 20 + length p)%nat)
    as (bs & -> & Hl); [|done].
  eexists. split.
  { apply Frame.frame_encode_into_Ok. split; [done|]. eexists. split; [|done].
    apply Frame.header_encode_Ok. split_and!; [done|done|]. eauto. }
  simpl. rewrite !length_app, length_be_encode. lia.
Qed.

Lemma connection_frame_wf l t p :
  bytes_ok p → zlen p ≤ 65536 → zlen p ≤ Frame.max_frame_size l → Frame.frame_wf l (connection_frame t p).
Proof.
  intros Hb Hp Hl. split_and!; [|done|simpl; destruct USIZE_MAX_cases as [-> | ->]; lia].
  unfold Frame.header_wf, in_width. simpl. split_and!; done || lia.
Qed.

(** Sending and receiving one. *)
Lemma send_connection_frame {E} (err : FrameIoError → E) t p c n :
  zlen p ≤ 65536 → willing (output c) (20 + length p + n) →
  ∃ w', io (send (connection_frame t p)) err c = (Finished (Ok tt), {| input := input c; output := w' |}) ∧
        wire w' = wire (output c) ++ on_wire t p ∧ willing w' n.
Proof.
  intros Hp (Ha & Hn & Hf). destruct (connection_frame_new t p Hp) as (_ & He & Hl).
  destruct (send_encoded _ _ c n He) as (w' & H & ? & ?); [split_and!; [done|lia|done]|].
  exists w'. unfold io. by rewrite H.
Qed.

Lemma recv_connection_frame l t p c rest :
  attended c → bytes_ok p → zlen p ≤ 65536 → zlen p ≤ Frame.max_frame_size l →
  script_bytes (input c) = on_wire t p ++ rest →
  ∃ s', recv l c = (Done (Ok (connection_frame t p)), {| input := s'; output := output c |}) ∧
        script_bytes s' = rest ∧ attended {| input := s'; output := output c |}.
Proof.
  intros Ha Hb Hp Hl Hs. destruct (connection_frame_new t p Hp) as (_ & He & _).
  eapply recv_encoded; [done|by apply connection_frame_wf|done|done].
Qed.

Lemma validate_connection_frame_same t p : Frame.validate_connection_frame (connection_frame t p) t = Ok tt.
Proof. unfold Frame.validate_connection_frame. simpl. by rewrite bool_decide_true. Qed.

Lemma write_connection_error_extends code c : extends c (write_connection_error code c).
Proof. unfold write_connection_error. destruct (connection_error_frame code); [apply send_extends|done..]. Qed.

(** ** The messages *)

Lemma generated_challenge nonce now :
  length nonce = 32%nat → bytes_ok nonce → is_u64 now →
  let ch := Auth.challenge_generate nonce now in
  Auth.challenge_wf ch ∧ ∃ bs, Auth.challenge_encode ch = Ok bs ∧ bytes_ok bs ∧ zlen bs = 42.
Proof.
  intros Hn Hb Ht ch. assert (Auth.challenge_wf ch) as Hwf by (by split_and!).
  split; [done|]. exists (nonce ++ be_encode 8 now ++ [0] ++ [0]). split_and!.
  - done.
  - rewrite !Forall_app. split_and!; [done|apply bytes_ok_be_encode|by repeat constructor..].
  - rewrite !length_app, length_be_encode. simpl. lia.
Qed.

Lemma varbytes_length b w : Auth.varbytes b w → zlen b + 1 ≤ zlen w ≤ zlen b + 8.
Proof. intros (_ & l & Hl%Varint.length_encode_bound & ->). rewrite length_app. lia. Qed.

Lemma response_encode_length r bs :
  length (Auth.client_nonce r) = 32%nat → length (Auth.tag r) = 32%nat → Auth.client_capabilities r = [] →
  Auth.response_encode r = Ok bs → zlen bs ≤ zlen (Auth.r_key_id r) + 88.
Proof.
  intros Hn Ht Hc (_ & w & (w1 & w2 & H1%varbytes_length & H2%varbytes_length & ->) & ->)%Auth.response_encode_Ok.
  rewrite Hc in H2. rewrite !length_app, length_be_encode. simpl in H2. lia.
Qed.

(** The laws of HMAC-SHA-256 this uses: 32 bytes come out. *)
Definition mac_law (hmac : Bytes → Bytes → Bytes) : Prop :=
  ∀ k m, length (hmac k m) = 32%nat ∧ bytes_ok (hmac k m).

Context (hmac : Bytes → Bytes → Bytes).

(** A client with valid material answers any well-formed challenge. *)
Lemma honest_response kid sec nonce exporter ch now :
  mac_law hmac → Auth.challenge_wf ch → (∃ bs, Auth.challenge_encode ch = Ok bs) → 1 ≤ zlen kid ≤ 64 → bytes_ok kid →
  Auth.validate_shared_secret sec = Ok tt → length nonce = 32%nat → bytes_ok nonce → is_u64 now →
  ∃ r bs, Auth.for_challenge hmac nonce kid sec exporter ch now [] = Ok r ∧ Auth.response_wf r ∧
    Auth.r_key_id r = kid ∧ Auth.client_nonce r = nonce ∧ Auth.client_time r = now ∧
    Auth.client_capabilities r = [] ∧
    Auth.response_encode r = Ok bs ∧ bytes_ok bs ∧ zlen bs ≤ zlen kid + 88.
Proof.
  intros hmac_ok Hwf [cp Hcp] Hk Hkb Hs Hn Hnb Ht.
  destruct (Varint.encode_total (zlen kid)) as (b1 & Hb1 & _).
  { change Varint.MAX_VARINT with 4611686018427387903. lia. }
  assert (∃ m, Auth.auth_mac sec exporter ch kid nonce now [] = Ok m) as [m Hm].
  { eexists. apply Auth.auth_mac_Ok. split_and!; [done|lia|lia|]. exists cp. eexists. split_and!; [done| |done].
    exists b1, [0]. split_and!; [done|done|done]. }
  destruct (hmac_ok sec (Auth.mac_input m)) as [Hlt Hbt].
  set (r := {| Auth.r_key_id := kid; Auth.client_nonce := nonce; Auth.client_time := now;
               Auth.client_capabilities := []; Auth.tag := hmac sec (Auth.mac_input m) |}).
  assert (Auth.varbytes kid (b1 ++ kid)) as Hv1 by (split; [lia|by exists b1]).
  assert (Auth.varbytes [] [0]) as Hv2 by (split; [done|by exists [0]]).
  assert (Auth.response_encode r =
    Ok (((b1 ++ kid) ++ nonce ++ be_encode 8 now ++ [0]) ++ hmac sec (Auth.mac_input m))) as Henc.
  { apply Auth.response_encode_Ok. split; [done|]. eexists. split; [|done]. by exists (b1 ++ kid), [0]. }
  exists r. eexists. split_and!; [apply Auth.for_challenge_Ok; eauto|by split_and!|done..| |].
  - pose proof (Auth.varbytes_bytes _ _ Hkb Hv1). rewrite !Forall_app in *.
    split_and!; try done; [apply H|apply bytes_ok_be_encode|by repeat constructor].
  - apply response_encode_length in Henc; [|done..]. simpl in Henc. lia.
Qed.

(** ** The server's steps *)

Context (dummy : Bytes).

Lemma await_response_appends config s ch : appends (await_response hmac dummy config s ch).
Proof.
  intros c. unfold await_response.
  pose proof (recv_extends {| Frame.max_frame_size := ServerConfig.max_pre_auth_bytes config |} c) as Hr.
  destruct (recv _ c) as [[[f|e|]|] c']; try done; simpl in Hr.
  - repeat case_match; simpl; try done; (etrans; [exact Hr|apply write_connection_error_extends]).
  - simpl. destruct e; try done. etrans; [exact Hr|apply write_connection_error_extends].
Qed.

(** The challenge goes out first, whatever the peer does. *)
Lemma exchange_after_challenge config s now c n :
  Auth.try_unix_now (clock_at_challenge s) = Some now → is_u64 now →
  length (server_random s) = 32%nat → bytes_ok (server_random s) → willing (output c) (62 + n) →
  let ch := Auth.challenge_generate (server_random s) now in
  ∃ cp w', Auth.challenge_encode ch = Ok cp ∧ bytes_ok cp ∧ zlen cp = 42 ∧ Auth.challenge_wf ch ∧
    authenticate_exchange hmac dummy config s c =
      await_response hmac dummy config s ch {| input := input c; output := w' |} ∧
    wire w' = wire (output c) ++ on_wire Frame.AuthChallenge cp ∧ willing w' n.
Proof.
  intros Hclk Hu Hn Hb Hw ch. destruct (generated_challenge _ now Hn Hb Hu) as (Hwf & cp & Hcp & Hcb & Hcl).
  destruct (connection_frame_new Frame.AuthChallenge cp) as (Hnew & _); [lia|].
  destruct (send_connection_frame (λ err, phase_error "write auth challenge" (frame_io_failure_reason err) err)
    Frame.AuthChallenge cp c n) as (w' & Hs & Hwire & Hw'); [lia|by replace (20 + length cp + n)%nat with (62 + n)%nat by lia|].
  exists cp, w'. split_and!; try done. unfold authenticate_exchange, send_auth_challenge, hbind, hret.
  rewrite Hclk. cbn [ok_or]. fold ch. subst ch. cbv zeta. rewrite Hcp. cbn [map_err]. rewrite Hnew. cbn [map_err]. by rewrite Hs.
Qed.

(** Whatever happens later, the server has written its challenge first. *)
Lemma serve_extends config s why env datagrams sh cache c c1 :
  (authenticate_exchange hmac dummy config s c).2 = c1 →
  extends c1 (serve_authenticated_carrier hmac dummy config s why env datagrams sh cache c).2.
Proof.
  intros <-. unfold serve_authenticated_carrier, authenticate_carrier.
  destruct (authenticate_exchange hmac dummy config s c) as [[[[[ch r] id]|e|]|] c1]; simpl.
  2-4: repeat case_match; simplify_eq/=; reflexivity.
  destruct (Auth.check_and_insert_at _ _ _ _) as [[[]|e|] cache']; simpl; [|apply write_connection_error_extends|reflexivity].
  destruct (Masking.stopping env); [reflexivity|].
  unfold run_authenticated_session. destruct (_ =? 0); [apply write_connection_error_extends|].
  assert (appends (write_server_settings config datagrams)) as Ha
    by (repeat (apply appends_bind; [apply appends_ret|intros ?]); apply appends_send).
  specialize (Ha c1). destruct (write_server_settings config datagrams c1) as [[[]|] c2]; try done.
  by destruct (ServerRuntime.session_config config id).
Qed.

(** A response made for the challenge is accepted. *)
Lemma await_honest config s ch r rp now cr c rest :
  attended c → Auth.response_wf r → Auth.response_encode r = Ok rp → bytes_ok rp → zlen rp ≤ 65536 →
  zlen rp ≤ ServerConfig.max_pre_auth_bytes config → script_bytes (input c) = on_wire Frame.AuthResponse rp ++ rest →
  Auth.try_unix_now (clock_at_verify s) = Some now →
  Auth.verify_auth_response_stateless hmac dummy (s_credentials s) (s_exporter s) ch r now (s_skew s) = Ok cr →
  ∃ s', await_response hmac dummy config s ch c =
    (Finished (Ok (ch, r, Auth.identity_from cr)), {| input := s'; output := output c |}) ∧
    script_bytes s' = rest ∧ attended {| input := s'; output := output c |}.
Proof.
  intros Ha Hwf Hrp Hb Hl Hm Hs Hnow Hv.
  destruct (recv_connection_frame {| Frame.max_frame_size := ServerConfig.max_pre_auth_bytes config |}
    Frame.AuthResponse rp c rest) as (s' & Hr & Hrest & Ha'); [done..|].
  exists s'. split; [|done]. unfold await_response. rewrite Hr, validate_connection_frame_same.
  cbn [Frame.payload connection_frame]. rewrite (Auth.response_roundtrip _ _ Hwf Hrp), Hnow.
  unfold Auth.verify_auth_response_identity_stateless. by rewrite Hv.
Qed.

(** Settings within their bounds fit varints. *)
Lemma acceptable_varints s :
  Settings.acceptable s → ∀ k v, Settings.get s k = Some v → 0 ≤ v ≤ Varint.MAX_VARINT.
Proof.
  intros (Hr & Hf & Hs & Hu & Hd & Hb & Hi) k v Hk.
  assert (∀ n, 0 ≤ n ≤ 16777216 → 0 ≤ n ≤ Varint.MAX_VARINT) as Hbig.
  { intros n Hn. change Varint.MAX_VARINT with 4611686018427387903. lia. }
  unfold Tcp.MIN_TCP_RELAY_FRAME_SIZE, Frame.MAX_FRAME_PAYLOAD_SIZE, Settings.MAX_NEGOTIATED_FLOWS,
    Settings.DEFAULT_MAX_STREAMS, Settings.MAX_NEGOTIATED_IDLE_TIMEOUT_SECONDS in *.
  apply Hbig. destruct k; try (first [apply Hf in Hk|apply Hs in Hk|apply Hd in Hk|apply Hb in Hk|apply Hi in Hk]; lia).
  - apply Hu in Hk. destruct (Settings.get s Settings.MaxStreams) as [m|]; simpl in Hk; [|lia].
    specialize (Hs m eq_refl). lia.
  - rewrite Hr in Hk. by simplify_eq.
Qed.

(** An authenticated session is told the settings and starts. *)
Lemma session_starts config id datagrams sh c n :
  ServerConfig.sound_limits config → ServerRuntime.sh_sessions sh ≠ 0 → willing (output c) (140 + n) →
  ∃ cfg sp w', ServerRuntime.session_config config id = Ok cfg ∧
    Settings.encode (ServerRuntime.server_settings config datagrams) = Ok sp ∧ bytes_ok sp ∧ zlen sp ≤ 120 ∧
    Settings.decode sp = Ok (ServerRuntime.server_settings config datagrams) ∧
    run_authenticated_session config id datagrams sh c =
      (SessionStarted cfg (ServerRuntime.idle_timeout (ServerConfig.idle_timeout_seconds config)) datagrams,
       take_session_permit sh, {| input := input c; output := w' |}) ∧
    wire w' = wire (output c) ++ on_wire Frame.Settings sp ∧ willing w' n ∧ Safety.start_ok cfg 0 0.
Proof.
  intros Hl Hs Hw. destruct (ServerRuntime.session_config_sound config id Hl) as (cfg & Hcfg & Hok & _).
  destruct (Settings.settings_roundtrip (ServerRuntime.server_settings config datagrams)) as (sp & Hsp & Hb & Hd).
  { apply acceptable_varints, ServerRuntime.server_settings_sound, Hl. }
  pose proof (Settings.encode_length _ _ Hsp) as Hlen.
  destruct (connection_frame_new Frame.Settings sp) as (Hnew & _); [lia|].
  destruct (send_connection_frame (λ err, phase_error "write server settings" (frame_io_failure_reason err) err)
    Frame.Settings sp c n) as (w' & Hsend & Hwire & Hw'); [lia|eapply willing_le; [exact Hw|lia]|].
  exists cfg, sp, w'. split_and!; try done. unfold run_authenticated_session. rewrite (proj2 (Z.eqb_neq _ _) Hs).
  unfold write_server_settings, hbind, hret. rewrite Hsp. cbn [map_err]. rewrite Hnew. cbn [map_err].
  by rewrite Hsend, Hcfg.
Qed.

(** ** The client's steps *)

Lemma exchange_settings_appends config s : appends (exchange_settings config s).
Proof.
  apply appends_bind; [apply appends_recv|intros ?].
  repeat (apply appends_bind; [apply appends_ret || apply appends_send|intros ?]). apply appends_ret.
Qed.

Lemma client_answers config s ch cp c rest n :
  mac_law hmac → attended c → Auth.challenge_wf ch → Auth.challenge_encode ch = Ok cp → bytes_ok cp → zlen cp = 42 →
  script_bytes (input c) = on_wire Frame.AuthChallenge cp ++ rest →
  1 ≤ zlen (ClientConfig.key_id config) ≤ 64 → bytes_ok (ClientConfig.key_id config) →
  Auth.validate_shared_secret (ClientConfig.secret config) = Ok tt →
  length (client_random s) = 32%nat → bytes_ok (client_random s) → is_u64 (Auth.unix_now (client_clock s)) →
  willing (output c) (172 + n) →
  ∃ r rp s' w',
    Auth.for_challenge hmac (client_random s) (ClientConfig.key_id config) (ClientConfig.secret config)
      (c_exporter s) ch (Auth.unix_now (client_clock s)) [] = Ok r ∧
    Auth.response_wf r ∧ Auth.r_key_id r = ClientConfig.key_id config ∧ Auth.client_nonce r = client_random s ∧
    Auth.client_time r = Auth.unix_now (client_clock s) ∧ Auth.client_capabilities r = [] ∧
    Auth.response_encode r = Ok rp ∧ bytes_ok rp ∧ zlen rp ≤ zlen (ClientConfig.key_id config) + 88 ∧
    answer_challenge hmac config s c = (Finished (Ok tt), {| input := s'; output := w' |}) ∧
    script_bytes s' = rest ∧ awaited s' ∧
    wire w' = wire (output c) ++ on_wire Frame.AuthResponse rp ∧ willing w' n.
Proof.
  intros Hmac Ha Hwf Hcp Hcb Hcl Hs Hk Hkb Hsec Hn Hnb Ht Hw.
  destruct (recv_connection_frame Frame.FrameLimits_default Frame.AuthChallenge cp c rest)
    as (s' & Hrecv & Hrest & Ha'); [done|done|lia|rewrite Hcl; done|done|].
  destruct (honest_response (ClientConfig.key_id config) (ClientConfig.secret config) (client_random s) (c_exporter s)
    ch (Auth.unix_now (client_clock s))) as (r & rp & Hr & Hrwf & H1 & H2 & H3 & H4 & Hrp & Hrb & Hrl); [by eauto..|].
  destruct (connection_frame_new Frame.AuthResponse rp) as (Hnew & _); [lia|].
  destruct (send_connection_frame (client_phase_error "write auth response" PAuth) Frame.AuthResponse rp
    {| input := s'; output := output c |} n) as (w' & Hsend & Hwire & Hw'); [lia|eapply willing_le; [exact Hw|lia]|].
  exists r, rp, s', w'. split_and!; try done. unfold answer_challenge, hbind at 1. unfold io at 1. rewrite Hrecv.
  unfold hbind, hret. cbn [map_err]. rewrite validate_connection_frame_same. cbn [map_err Frame.payload connection_frame].
  rewrite (pl_roundtrip ch cp Hwf Hcp). cbn [map_err]. rewrite Hr. cbn [map_err]. rewrite Hrp. cbn [map_err].
  rewrite Hnew. cbn [map_err]. by rewrite Hsend.
Qed.

Lemma client_settings_get c d :
  Settings.get (client_settings c d) Settings.ProtocolRevision = Some Settings.PROTOCOL_REVISION_V1_0 ∧
  Settings.get (client_settings c d) Settings.MaxFrameSize = Some Frame.MAX_FRAME_PAYLOAD_SIZE ∧
  Settings.get (client_settings c d) Settings.MaxStreams =
    Some (Z.min (ClientConfig.max_socks_connections c) Settings.MAX_NEGOTIATED_FLOWS) ∧
  Settings.get (client_settings c d) Settings.MaxUdpFlows =
    Some (Z.min (ClientConfig.max_socks_connections c) Settings.MAX_NEGOTIATED_FLOWS) ∧
  Settings.get (client_settings c d) Settings.SupportsUdpDatagram = Some (Z.b2z d) ∧
  Settings.get (client_settings c d) Settings.SupportsUdpStreamFallback = Some 1 ∧
  Settings.get (client_settings c d) Settings.IdleTimeoutSeconds = Some 0.
Proof. unfold Settings.get, client_settings, Settings.set. cbn. split_and!; by simplify_map_eq. Qed.

(** What a validated client announces is acceptable to every server. *)
Lemma client_settings_sound c d :
  ClientConfig.sound_limits c → Settings.acceptable (client_settings c d).
Proof.
  intros []. destruct (client_settings_get c d) as (H1 & H2 & H3 & H4 & H5 & H6 & H7).
  unfold Settings.acceptable. rewrite H1, H2, H3, H4, H5, H6, H7. cbn [default from_option id].
  unfold Settings.MAX_NEGOTIATED_FLOWS, Settings.MAX_NEGOTIATED_IDLE_TIMEOUT_SECONDS,
    Tcp.MIN_TCP_RELAY_FRAME_SIZE, Frame.MAX_FRAME_PAYLOAD_SIZE in *.
  pose proof (ServerRuntime.b2z_range d).
  split; [done|]. split_and!; (intros v Hv; apply (inj Some) in Hv; subst v; lia).
Qed.

Lemma client_settles config s ss sp c rest n :
  attended c → Settings.decode sp = Ok ss → bytes_ok sp → zlen sp ≤ 120 → (∃ ng, Settings.negotiated_v1_0 ss = Ok ng) →
  script_bytes (input c) = on_wire Frame.Settings sp ++ rest → ClientConfig.sound_limits config →
  willing (output c) (140 + n) →
  ∃ cp s' w', Settings.encode (client_settings config (c_datagrams s)) = Ok cp ∧ bytes_ok cp ∧ zlen cp ≤ 120 ∧
    Settings.decode cp = Ok (client_settings config (c_datagrams s)) ∧
    exchange_settings config s c = (Finished (Ok ss), {| input := s'; output := w' |}) ∧ script_bytes s' = rest ∧
    wire w' = wire (output c) ++ on_wire Frame.Settings cp ∧ willing w' n.
Proof.
  intros Ha Hd Hb Hl [ng Hng] Hs Hc Hw.
  destruct (Settings.settings_roundtrip (client_settings config (c_datagrams s))) as (cp & Hcp & Hcb & Hcd).
  { apply acceptable_varints, client_settings_sound, Hc. }
  pose proof (Settings.encode_length _ _ Hcp) as Hlen.
  destruct (connection_frame_new Frame.Settings cp) as (Hnew & _); [lia|].
  destruct (recv_connection_frame Frame.FrameLimits_default Frame.Settings sp c rest) as (s' & Hrecv & Hrest & _);
    [done|done|lia|change (Frame.max_frame_size Frame.FrameLimits_default) with 65536; lia|done|].
  destruct (send_connection_frame (client_phase_error "write client settings" PSettings) Frame.Settings cp
    {| input := s'; output := output c |} n) as (w' & Hsend & Hwire & Hw'); [lia|eapply willing_le; [exact Hw|lia]|].
  exists cp, s', w'. split_and!; try done. unfold exchange_settings, hbind at 1. unfold io at 1. rewrite Hrecv.
  unfold hbind, hret, decode_server_settings_frame. cbn [map_err Frame.frame_type Frame.header Frame.payload connection_frame].
  rewrite validate_connection_frame_same, Hd. cbn [map_err rbind]. rewrite Hng. cbn [map_err rbind]. rewrite Hng.
  cbn [map_err]. rewrite Hcp. cbn [map_err]. rewrite Hnew. cbn [map_err]. by rewrite Hsend.
Qed.

(** ** Whatever the peer sends *)

Lemma recv_any l c :
  attended c →
  ∃ o s', recv l c = (Done o, {| input := s'; output := output c |}) ∧
  match o with
  | Ok f => ∃ bs, Frame.frame_wf l f ∧ Frame.frame_encode f = Ok bs ∧
                  script_bytes (input c) = bs ++ script_bytes s' ∧ awaited s'
  | Err _ => True
  | Panic => False
  end.
Proof.
  intros Ha. destruct (script_end (input c)) as [t|] eqn:Ht; [|by destruct Ha].
  pose proof (unbuffered_read_is_decode l (input c) t Ha Ht) as H. pose proof (awaited_bytes _ Ha) as Hb.
  unfold recv. destruct (read_frame_unbuffered l (input c)) as [o s'].
  destruct (Frame.frame_decode l (script_bytes (input c))) as [[f r]|e|] eqn:Hd; [| |done].
  - destruct H as (s'' & [= -> ->] & Hr & Ha' & _). exists (Ok f), s''. split; [done|].
    apply pc_canonical in Hd as (Hwf & bs & He & Hs); [|done]. exists bs. by rewrite Hr.
  - simpl in H. destruct e; subst o; by eexists _, _.
Qed.

#[local] Hint Resolve Varint.encode_Panic Varint.encoded_len_Panic : no_panic.

Lemma auth_mac_no_panic sec exporter ch kid nonce time caps :
  Auth.auth_mac sec exporter ch kid nonce time caps ≠ Panic.
Proof.
  unfold Auth.auth_mac, Auth.encoded_challenge_payload, Auth.encoded_response_prefix, Auth.challenge_encode,
    Auth.validate_shared_secret, Auth.validate_key_id, Auth.validate_capabilities_len, Auth.auth. no_panic.
Qed.

Lemma verify_no_panic creds exporter ch r now skew :
  Auth.verify_auth_response_stateless hmac dummy creds exporter ch r now skew ≠ Panic.
Proof.
  unfold Auth.verify_auth_response_stateless. generalize (Auth.find_credential creds (Auth.r_key_id r)) as m. intros m.
  apply rbind_no_panic; [apply auth_mac_no_panic|intros mac _].
  unfold Auth.validate_auth_material, Auth.validate_shared_secret, Auth.validate_key_id. no_panic.
Qed.

(** The peer's answer [r], as the bytes that went in carried it. *)
Definition answered (c : Carrier) (r : Auth.AuthResponse) (rest : list read_event) : Prop :=
  ∃ f bs, Frame.frame_type (Frame.header f) = Frame.AuthResponse ∧ Frame.frame_encode f = Ok bs ∧
    Auth.response_encode r = Ok (Frame.payload f) ∧ script_bytes (input c) = bs ++ script_bytes rest.

(** The three ways a challenge is settled. *)
Lemma await_cases config s ch c now :
  attended c → Auth.try_unix_now (clock_at_verify s) = Some now →
  ∃ o s' c', await_response hmac dummy config s ch c = (Finished o, c') ∧
  ((∃ r cr, o = Ok (ch, r, Auth.identity_from cr) ∧ c' = {| input := s'; output := output c |} ∧
      Auth.verify_auth_response_stateless hmac dummy (s_credentials s) (s_exporter s) ch r now (s_skew s) = Ok cr ∧
      Auth.response_wf r ∧ answered c r s') ∨
   (∃ e, o = Err e ∧ failure_reason e = Auth ∧
      c' = write_connection_error Status.AuthFailed {| input := s'; output := output c |}) ∨
   (∃ e, o = Err e ∧ failure_reason e ≠ Auth)).
Proof.
  intros Ha Hnow. unfold await_response.
  destruct (recv_any {| Frame.max_frame_size := ServerConfig.max_pre_auth_bytes config |} c Ha)
    as (o & s' & -> & Ho).
  destruct o as [f|e|]; [|eexists _, s', _; split; [done|right; right; eexists; split; [done|by destruct e]]|done].
  destruct Ho as (bs & (_ & Hpb & _) & Hbs & Hs & _).
  unfold Frame.validate_connection_frame. case_bool_decide as Hft; simpl.
  2: { eexists _, s', _. split; [done|]. right; right. by eexists. }
  destruct (negb _); [eexists _, s', _; split; [done|]; right; right; by eexists|].
  destruct (Auth.response_decode (Frame.payload f)) as [r|e|] eqn:Hr.
  2: { eexists _, s', _. split; [done|]. right; left. by eexists. }
  2: { by apply Auth.response_decode_Panic in Hr. }
  rewrite Hnow. unfold Auth.verify_auth_response_identity_stateless.
  destruct (Auth.verify_auth_response_stateless _ _ _ _ _ _ _ _) as [cr|e|] eqn:Hv; cbn [rbind].
  - eexists _, s', _. split; [done|]. left. apply Auth.response_canonical in Hr as [Hwf He]; [|done].
    exists r, cr. split_and!; try done. by exists f, bs.
  - eexists _, s', _. split; [done|]. right; left. by eexists.
  - by apply verify_no_panic in Hv.
Qed.

(** What every refused peer is told. *)
Definition refusal : Bytes :=
  match Status.error_encode {| Status.code := Status.AuthFailed |} with Ok p => p | _ => [] end.

Lemma refusal_wire c n :
  willing (output c) (22 + n) →
  wire (output (write_connection_error Status.AuthFailed c)) = wire (output c) ++ on_wire Frame.Error refusal.
Proof.
  intros Hw. unfold write_connection_error.
  assert (connection_error_frame Status.AuthFailed = Ok (connection_frame Frame.Error refusal)) as -> by reflexivity.
  destruct (connection_frame_new Frame.Error refusal) as (_ & He & Hl); [done|].
  destruct (send_encoded _ _ c 0 He) as (w' & -> & Hwire & _); [|done].
  eapply willing_le; [exact Hw|]. assert (length refusal ≤ 2)%nat by (vm_compute; lia). lia.
Qed.

(** ** A server and a client that share a credential *)

(** A clock after the epoch and before the sentinel. *)
Definition readable (clock : Z) : Prop := 0 ≤ clock ∧ clock / 1000000000 < U64_MAX.

Lemma readable_now clock :
  readable clock → Auth.try_unix_now clock = Some (Auth.unix_now clock) ∧ is_u64 (Auth.unix_now clock) ∧
    Auth.unix_now clock ≠ Auth.UNREADABLE_CLOCK.
Proof.
  intros [H0 Hm]. pose proof (Z.div_pos clock 1000000000 H0 ltac:(lia)).
  unfold Auth.unix_now, Auth.try_unix_now, Auth.unix_seconds_since_epoch, Auth.UNREADABLE_CLOCK, U64_MAX, in_width in *.
  rewrite (proj2 (Z.ltb_ge _ _) H0). simpl. split_and!; [done|lia..].
Qed.

(** What a server needs to run a handshake at all. *)
Record ready (config : ServerConfig.ServerConfig) (s : ServerSide) : Prop := {
  r_limits : ServerConfig.sound_limits config;
  r_clock : readable (clock_at_challenge s);
  r_clock' : readable (clock_at_verify s);
  r_nonce : length (server_random s) = 32%nat ∧ bytes_ok (server_random s);
  r_keys : Forall (λ c, Auth.len_ok (Auth.key_id c)) (s_credentials s)
}.

(** And what makes a client one of its own: the same channel, a valid configuration,
    a credential the server knows under that name and holds active, clocks that
    agree, and room for the response. *)
Record honest (config : ServerConfig.ServerConfig) (s : ServerSide) (cconfig : ClientConfig.ClientConfig)
    (c : ClientSide) (cr : Auth.Credential) : Prop := {
  h_ready : ready config s;
  h_limits : ClientConfig.sound_limits cconfig;
  h_channel : c_exporter c = s_exporter s;
  h_nonce : length (client_random c) = 32%nat ∧ bytes_ok (client_random c);
  h_clock : readable (client_clock c);
  h_key : 1 ≤ zlen (ClientConfig.key_id cconfig) ≤ 64 ∧ bytes_ok (ClientConfig.key_id cconfig);
  h_secret : Auth.validate_shared_secret (ClientConfig.secret cconfig) = Ok tt;
  h_known : Auth.first_with_key (s_credentials s) (ClientConfig.key_id cconfig) cr;
  h_shared : Auth.secret cr = ClientConfig.secret cconfig;
  h_active : Auth.is_active_at cr (Auth.unix_now (clock_at_verify s)) = true;
  h_skew : Z.abs (Auth.unix_now (clock_at_verify s) - Auth.unix_now (clock_at_challenge s)) ≤ s_skew s / 1000000000;
  h_skew' : Z.abs (Auth.unix_now (clock_at_verify s) - Auth.unix_now (client_clock c)) ≤ s_skew s / 1000000000;
  h_room : zlen (ClientConfig.key_id cconfig) + 88 ≤ ServerConfig.max_pre_auth_bytes config
}.

Lemma within_skew t now skew :
  t ≠ Auth.UNREADABLE_CLOCK → now ≠ Auth.UNREADABLE_CLOCK → Z.abs (now - t) ≤ skew / 1000000000 →
  Auth.timestamp_within_skew t now skew = true.
Proof.
  intros Ht Hn Hs. unfold Auth.timestamp_within_skew. rewrite !(proj2 (Z.eqb_neq _ _)) by done. by apply Z.leb_le.
Qed.

(** The response such a client makes is the one the server takes. *)
Lemma honest_verifies config s cconfig c cr ch r :
  honest config s cconfig c cr → ch = Auth.challenge_generate (server_random s) (Auth.unix_now (clock_at_challenge s)) →
  Auth.for_challenge hmac (client_random c) (ClientConfig.key_id cconfig) (ClientConfig.secret cconfig)
    (c_exporter c) ch (Auth.unix_now (client_clock c)) [] = Ok r →
  Auth.verify_auth_response_stateless hmac dummy (s_credentials s) (s_exporter s) ch r
    (Auth.unix_now (clock_at_verify s)) (s_skew s) = Ok cr.
Proof.
  intros [[Hl Hc Hc' Hn Hkeys] Hcl Hch Hcn Hcc [Hk Hkb] Hsec Hknown Hsh Hact Hs1 Hs2 Hroom] -> Hr.
  apply readable_now in Hc as (_ & _ & Hc), Hc' as (_ & _ & Hc'), Hcc as (_ & _ & Hcc).
  pose proof Hr as (m & _ & Hr')%Auth.for_challenge_Ok. apply Auth.verify_stateless_Ok.
  assert (Auth.key_id cr = ClientConfig.key_id cconfig) as Hkid by (by destruct Hknown as (i & _ & ? & _)).
  subst r. cbn [Auth.r_key_id Auth.client_nonce Auth.client_time Auth.client_capabilities] in *.
  rewrite Hkid, Hsh, <- Hch. split_and!; try done || lia; [|by apply within_skew..].
  apply Auth.find_credential_Some; [done| |lia|done]. split; [lia|]. change (2 ^ 64) with 18446744073709551616. lia.
Qed.

(** The pair of nonces of a handshake. *)
Definition nonces (s : ServerSide) (client_nonce : Bytes) : Auth.ReplayKey :=
  {| Auth.rk_server_nonce := server_random s; Auth.rk_client_nonce := client_nonce |}.

Lemma fresh_nonces_accepted cache now sn cn :
  Auth.cache_inv cache →
  {| Auth.rk_server_nonce := sn; Auth.rk_client_nonce := cn |} ∉ (Auth.order cache).*2 →
  (Auth.check_and_insert_at cache now sn cn).1 = Ok tt.
Proof.
  intros Hinv Hn. destruct (Auth.check_and_insert_spec cache now sn cn Hinv)
    as (live & (dead & Ho & _) & _ & _ & _ & [[Hin _]|(_ & Hr & _)]); [|done].
  destruct Hn. rewrite Ho, fmap_app. set_solver.
Qed.

Definition the_challenge (s : ServerSide) : Auth.AuthChallenge :=
  Auth.challenge_generate (server_random s) (Auth.unix_now (clock_at_challenge s)).

(** Whatever comes in, the challenge goes out first. *)
Lemma serve_challenges config s why env datagrams sh cache c n :
  ready config s → willing (output c) (62 + n) →
  ∃ cp x, Auth.challenge_encode (the_challenge s) = Ok cp ∧
    wire (output (serve_authenticated_carrier hmac dummy config s why env datagrams sh cache c).2) =
      wire (output c) ++ on_wire Frame.AuthChallenge cp ++ x.
Proof.
  intros [Hl Hck Hck' [Hsn Hsb] Hkeys] Hw. apply readable_now in Hck as (Hnow & Hnu & _).
  destruct (exchange_after_challenge config s _ c n Hnow Hnu Hsn Hsb Hw)
    as (cp & w1 & Hcp & _ & _ & _ & Hex & Hw1 & _).
  destruct (await_response_appends config s (the_challenge s) {| input := input c; output := w1 |}) as [x Hx].
  destruct (serve_extends config s why env datagrams sh cache c _ eq_refl) as [y Hy].
  exists cp, (x ++ y). split; [done|]. rewrite Hy, Hex. unfold the_challenge in Hx. rewrite Hx. simpl.
  by rewrite Hw1, <- !app_assoc.
Qed.

(** The server's run on the response of an honest client. *)
Lemma serve_honest config s cconfig c cr why env datagrams sh cache cs r rp rest :
  honest config s cconfig c cr → Auth.cache_inv cache → nonces s (client_random c) ∉ (Auth.order cache).*2 →
  ServerRuntime.sh_sessions sh ≠ 0 → Masking.stopping env = false → attended cs → willing (output cs) 202 →
  Auth.for_challenge hmac (client_random c) (ClientConfig.key_id cconfig) (ClientConfig.secret cconfig)
    (c_exporter c) (the_challenge s) (Auth.unix_now (client_clock c)) [] = Ok r →
  Auth.response_wf r → Auth.response_encode r = Ok rp → bytes_ok rp → zlen rp ≤ zlen (ClientConfig.key_id cconfig) + 88 →
  script_bytes (input cs) = on_wire Frame.AuthResponse rp ++ rest →
  ∃ cfg cp sp sh' cache' s' w',
    serve_authenticated_carrier hmac dummy config s why env datagrams sh cache cs =
      (SessionStarted cfg (ServerRuntime.idle_timeout (ServerConfig.idle_timeout_seconds config)) datagrams,
       sh', cache', {| input := s'; output := w' |}) ∧
    ServerRuntime.session_config config (Auth.identity_from cr) = Ok cfg ∧ Safety.start_ok cfg 0 0 ∧
    Auth.challenge_encode (the_challenge s) = Ok cp ∧ bytes_ok sp ∧ zlen sp ≤ 120 ∧
    Settings.decode sp = Ok (ServerRuntime.server_settings config datagrams) ∧
    wire w' = wire (output cs) ++ on_wire Frame.AuthChallenge cp ++ on_wire Frame.Settings sp ∧
    script_bytes s' = rest ∧ awaited s'.
Proof.
  intros Hh Hinv Hfresh Hses Hstop Ha Hw Hr Hwf Hrp Hrb Hrl Hs.
  pose proof (honest_verifies _ _ _ _ _ _ _ Hh eq_refl Hr) as Hv.
  pose proof Hr as (m & _ & Hr')%Auth.for_challenge_Ok.
  pose proof Hh as [[Hl Hck Hck' [Hsn Hsb] _] _ _ _ _ [Hk _] _ _ _ _ _ _ Hroom].
  apply readable_now in Hck as (Hnow & Hnu & _), Hck' as (Hnow' & _ & _).
  destruct (exchange_after_challenge config s _ cs 140 Hnow Hnu Hsn Hsb Hw)
    as (cp & w1 & Hcp & _ & _ & _ & Hex & Hw1 & Hwill). fold (the_challenge s) in *.
  destruct (await_honest config s (the_challenge s) r rp (Auth.unix_now (clock_at_verify s)) cr {| input := input cs; output := w1 |} rest)
    as (s' & Haw & Hrest & Ha'); [done..|lia|lia|done|done|done|].
  pose proof (fresh_nonces_accepted cache (instant s) _ _ Hinv Hfresh) as Hc.
  unfold serve_authenticated_carrier, authenticate_carrier. rewrite Hex, Haw.
  change (Auth.server_nonce (the_challenge s)) with (server_random s).
  replace (Auth.client_nonce r) with (client_random c) by (by rewrite Hr').
  destruct (Auth.check_and_insert_at _ _ _ _) as [? cache']. simpl in Hc. subst. rewrite Hstop.
  match goal with |- context [run_authenticated_session _ _ _ ?sh' ?c'] =>
    destruct (session_starts config (Auth.identity_from cr) datagrams sh' c' 0 Hl Hses Hwill)
      as (cfg & sp & w' & Hcfg & Hsp & Hspb & Hspl & Hspd & Hrun & Hwire & _ & Hok)
  end.
  rewrite Hrun. exists cfg, cp, sp. eexists _, _, s', w'. split; [done|]. split_and!; try done.
  rewrite Hwire. simpl. by rewrite Hw1, <- app_assoc.
Qed.

(** The client's run on the challenge of an honest server. *)
Lemma client_runs config s cconfig c cr cc cp x :
  mac_law hmac → honest config s cconfig c cr → attended cc → Auth.challenge_encode (the_challenge s) = Ok cp →
  script_bytes (input cc) = on_wire Frame.AuthChallenge cp ++ x → willing (output cc) 312 →
  ∃ r rp c1,
    Auth.for_challenge hmac (client_random c) (ClientConfig.key_id cconfig) (ClientConfig.secret cconfig)
      (c_exporter c) (the_challenge s) (Auth.unix_now (client_clock c)) [] = Ok r ∧
    Auth.response_wf r ∧ Auth.response_encode r = Ok rp ∧ bytes_ok rp ∧
    zlen rp ≤ zlen (ClientConfig.key_id cconfig) + 88 ∧
    authenticate_over_carrier hmac cconfig c cc = exchange_settings cconfig c c1 ∧
    attended c1 ∧ script_bytes (input c1) = x ∧ willing (output c1) 140 ∧
    wire (output c1) = wire (output cc) ++ on_wire Frame.AuthResponse rp.
Proof.
  intros Hmac [[Hl Hck _ [Hsn Hsb] _] Hcl Hch [Hcn Hcb] Hcc [Hk Hkb] Hsec _ _ _ _ _ _] Ha Hcp Hs Hw.
  apply readable_now in Hck as (_ & Hnu & _), Hcc as (_ & Hcu & _).
  destruct (generated_challenge _ _ Hsn Hsb Hnu) as (Hwf & cp' & Hcp' & Hcpb & Hcpl).
  assert (cp' = cp) as -> by (unfold the_challenge in Hcp; congruence).
  destruct (client_answers cconfig c (the_challenge s) cp cc x 140)
    as (r & rp & s' & w' & Hr & Hrwf & _ & _ & _ & _ & Hrp & Hrb & Hrl & Hrun & Hrest & Ha' & Hwire & Hw'); [done..|].
  exists r, rp, {| input := s'; output := w' |}. split_and!; try done.
  unfold authenticate_over_carrier, hbind. by rewrite Hrun.
Qed.

(** The client's SETTINGS open the session. *)
Lemma settings_accepted c d cp ses :
  ClientConfig.sound_limits c → Settings.decode cp = Ok (client_settings c d) →
  Relay.client_settings_received ses = false → Relay.table ses = ∅ →
  Session.handle_settings_frame (connection_frame Frame.Settings cp) ses = (Ok tt, Relay.with_settings true ses).
Proof.
  intros Hc Hd Hr Ht. unfold Session.handle_settings_frame, Relay.bind, Session.validate_or_report_session_control_frame.
  rewrite validate_connection_frame_same. cbn. rewrite Hr, bool_decide_true by done. cbn. rewrite Hd.
  destruct (Settings.acceptable_negotiated _ (client_settings_sound c d Hc)) as [n ->]. done.
Qed.

(** A response that passes was made with an active credential of the snapshot, for
    this channel and this challenge. *)
Definition holds_credential (s : ServerSide) (r : Auth.AuthResponse) (cr : Auth.Credential) : Prop :=
  Auth.first_with_key (s_credentials s) (Auth.r_key_id r) cr ∧
  Auth.is_active_at cr (Auth.unix_now (clock_at_verify s)) = true ∧
  Auth.for_challenge hmac (Auth.client_nonce r) (Auth.r_key_id r) (Auth.secret cr) (s_exporter s) (the_challenge s)
    (Auth.client_time r) (Auth.client_capabilities r) = Ok r ∧
  Auth.timestamp_within_skew (Auth.client_time r) (Auth.unix_now (clock_at_verify s)) (s_skew s) = true.

Lemma verified_holds_credential config s r rp cr :
  ready config s → Auth.response_encode r = Ok rp →
  Auth.verify_auth_response_stateless hmac dummy (s_credentials s) (s_exporter s) (the_challenge s) r
    (Auth.unix_now (clock_at_verify s)) (s_skew s) = Ok cr →
  holds_credential s r cr.
Proof.
  intros Hrd (Hk & _)%Auth.response_encode_Ok (Hc & _ & Hr & Ha & _ & Ht)%Auth.verify_stateless_Ok.
  split_and!; try done. apply Auth.find_credential_Some in Hc; [done|apply (r_keys _ _ Hrd)| |lia].
  split; [lia|]. change (2 ^ 64) with 18446744073709551616. lia.
Qed.

(** The nonce pair of an accepted handshake: not remembered before, remembered now. *)
Definition used_once (s : ServerSide) (cnonce : Bytes) (cache cache' : Auth.ReplayCache) : Prop :=
  (∃ live, Auth.live_queue cache (instant s) live ∧ nonces s cnonce ∉ live.*2) ∧
  nonces s cnonce ∈ (Auth.order cache').*2.

Lemma check_nonces cache s cnonce :
  Auth.cache_inv cache →
  let r := Auth.check_and_insert_at cache (instant s) (server_random s) cnonce in
  r.1 = Err Auth.Replay ∨ (r.1 = Ok tt ∧ used_once s cnonce cache r.2).
Proof.
  intros Hinv. destruct (Auth.check_and_insert_spec cache (instant s) (server_random s) cnonce Hinv)
    as (live & Hlive & _ & _ & _ & [(_ & Hr & _)|(Hn & Hr & old & kept & _ & Ho & _)]); [by left|right].
  split; [done|]. split; [by exists live|]. rewrite Ho, fmap_app. set_solver.
Qed.

(** The handshake of a server against any peer. *)
Lemma authenticate_cases config s cache c n :
  ready config s → Auth.cache_inv cache → attended c → willing (output c) (84 + n) →
  ∃ cp o c' cache', Auth.challenge_encode (the_challenge s) = Ok cp ∧
    authenticate_carrier hmac dummy config s cache c = (Finished o, c', cache') ∧
  match o with
  | Ok id => willing (output c') (22 + n) ∧
      ∃ r cr, id = Auth.identity_from cr ∧ answered c r (input c') ∧ holds_credential s r cr ∧
        used_once s (Auth.client_nonce r) cache cache'
  | Err e => failure_reason e = Auth →
      wire (output c') = wire (output c) ++ on_wire Frame.AuthChallenge cp ++ on_wire Frame.Error refusal
  | Panic => False
  end.
Proof.
  intros Hrd Hinv Ha Hw. pose proof Hrd as [Hl Hck Hck' [Hsn Hsb] Hkeys].
  apply readable_now in Hck as (Hnow & Hnu & _), Hck' as (Hnow' & _ & _).
  destruct (exchange_after_challenge config s _ c (22 + n) Hnow Hnu Hsn Hsb Hw)
    as (cp & w1 & Hcp & _ & _ & _ & Hex & Hw1 & Hwill). fold (the_challenge s) in *.
  assert (∀ i, wire (output (write_connection_error Status.AuthFailed {| input := i; output := w1 |})) =
    wire (output c) ++ on_wire Frame.AuthChallenge cp ++ on_wire Frame.Error refusal) as Href.
  { intros i. rewrite (refusal_wire _ n) by done. simpl. by rewrite Hw1, <- app_assoc. }
  destruct (await_cases config s (the_challenge s) {| input := input c; output := w1 |} _ Ha Hnow')
    as (o & s' & c' & Haw & Hcases). exists cp. unfold authenticate_carrier. rewrite Hex, Haw.
  destruct Hcases as [(r & cr & -> & -> & Hv & Hwf & Hans)|[(e & -> & He & ->)|(e & -> & He)]].
  - destruct (check_nonces cache s (Auth.client_nonce r) Hinv) as [Hr|[Hr Hu]];
      change (Auth.server_nonce (the_challenge s)) with (server_random s);
      destruct (Auth.check_and_insert_at _ _ _ _) as [? cache']; simpl in Hr; subst.
    + eexists _, _, _. split_and!; [done..|]. intros _. apply Href.
    + eexists _, _, _. split; [done|]. split; [done|]. split; [done|]. exists r, cr. split_and!; try done.
      destruct Hans as (f & bs & _ & _ & Hrp & _). by eapply verified_holds_credential.
  - eexists _, _, _. split_and!; [done..|]. intros _. apply Href.
  - eexists _, _, _. split; [done|]. split; [done|]. by intros ?%He.
Qed.
End Lemmas.

(** ** What the two ends can rely on *)

(** C4: an honest client and server complete the handshake.  Let both run over one
    connection, each reading what the other wrote, cut into reads and writes of any
    size, with the connection staying up.  If they share the TLS channel, the server
    holds the client's credential active under its key id, the clocks agree within
    the skew, the response fits the pre-authentication limit, the nonces are new to
    the replay cache and a session permit is free, then the server starts a session
    for that credential's identity with limits the relay is sound for; the client
    gets the server's settings, and they negotiate to the server's limits; and the
    next frame the session reads is the client's SETTINGS, which it accepts. *)
Theorem handshake_completes {P : Platform} hmac dummy config s cconfig c cr why env datagrams sh cache cs cc :
  mac_law hmac → honest config s cconfig c cr → Auth.cache_inv cache → nonces s (client_random c) ∉ (Auth.order cache).*2 →
  ServerRuntime.sh_sessions sh ≠ 0 → Masking.stopping env = false →
  attended cs → attended cc → willing (output cs) 202 → willing (output cc) 312 →
  wire (output cs) = [] → wire (output cc) = [] →
  let '(served, sh', cache', cs') := serve_authenticated_carrier hmac dummy config s why env datagrams sh cache cs in
  let '(settled, cc') := authenticate_over_carrier hmac cconfig c cc in
  script_bytes (input cs) = wire (output cc') → script_bytes (input cc) = wire (output cs') →
  ∃ cfg, ServerRuntime.session_config config (Auth.identity_from cr) = Ok cfg ∧ Safety.start_ok cfg 0 0 ∧
    served = SessionStarted cfg (ServerRuntime.idle_timeout (ServerConfig.idle_timeout_seconds config)) datagrams ∧
    settled = Finished (Ok (ServerRuntime.server_settings config datagrams)) ∧
    (∃ n, Settings.negotiated_v1_0 (ServerRuntime.server_settings config datagrams) = Ok n ∧
       Settings.max_frame_size n = ServerConfig.max_frame_size config ∧
       Settings.max_streams n = ServerConfig.max_streams config ∧
       Settings.max_udp_flows n = ServerConfig.max_udp_flows config) ∧
    ∃ f c'', recv {| Frame.max_frame_size := ServerConfig.max_frame_size config |} cs' = (Done (Ok f), c'') ∧
      script_bytes (input c'') = [] ∧
      ∀ ses, Relay.client_settings_received ses = false → Relay.table ses = ∅ →
        Session.handle_settings_frame f ses = (Ok tt, Relay.with_settings true ses).
Proof.
  intros Hmac Hh Hinv Hfresh Hses Hstop Has Hac Hws Hwc Hs0 Hc0.
  destruct (serve_challenges hmac dummy config s why env datagrams sh cache cs 140 (h_ready _ _ _ _ _ Hh) Hws)
    as (cp & x & Hcp & Hx). rewrite Hs0 in Hx. simpl in Hx.
  destruct (serve_authenticated_carrier _ _ _ _ _ _ _ _ _ cs) as [[[served sh'] cache'] cs'] eqn:Hserve.
  destruct (authenticate_over_carrier hmac cconfig c cc) as [settled cc'] eqn:Hclient.
  intros Hcs Hcc. simpl in Hx. rewrite Hx in Hcc.
  destruct (client_runs hmac config s cconfig c cr cc cp x Hmac Hh Hac Hcp Hcc Hwc)
    as (r & rp & c1 & Hr & Hrwf & Hrp & Hrb & Hrl & Hrun & Ha1 & Hx1 & Hw1 & Hwire1).
  destruct (exchange_settings_appends cconfig c c1) as [y Hy]. rewrite <- Hrun, Hclient, Hwire1, Hc0 in Hy.
  simpl in Hy. rewrite Hy in Hcs.
  destruct (serve_honest hmac dummy config s cconfig c cr why env datagrams sh cache cs r rp y)
    as (cfg & cp' & sp & sh'' & cache'' & s' & w' & Hserve' & Hcfg & Hok & Hcp' & Hspb & Hspl & Hspd & Hw' & Hrest & Ha');
    [done..|].
  rewrite Hserve in Hserve'. injection Hserve' as -> -> -> ->. assert (cp' = cp) as -> by congruence.
  rewrite Hs0 in Hw'. simpl in Hx, Hw'. rewrite Hx in Hw'. apply app_inv_head in Hw'. rewrite Hw' in Hx1.
  pose proof (r_limits _ _ (h_ready _ _ _ _ _ Hh)) as Hl. pose proof (h_limits _ _ _ _ _ Hh) as Hcl.
  pose proof (proj2 (ServerRuntime.server_settings_sound config datagrams Hl)) as Hneg.
  destruct (client_settles cconfig c _ sp c1 [] 0 Ha1 Hspd Hspb Hspl) as
    (kp & s1 & w1 & Hkp & Hkb & Hkl & Hkd & Hset & _ & Hkw & _); [by eexists|by rewrite app_nil_r|done|done|].
  rewrite Hclient, Hset in Hrun. injection Hrun as -> ->. simpl in Hy.
  rewrite Hkw, Hwire1, Hc0 in Hy. apply app_inv_head in Hy.
  exists cfg. split_and!; [done..|by eexists|].
  destruct (recv_connection_frame {| Frame.max_frame_size := ServerConfig.max_frame_size config |} Frame.Settings kp
    {| input := s'; output := w' |} []) as (s2 & Hrecv & Hr2 & _); [done|done|lia| |by rewrite app_nil_r, Hy|].
  { destruct Hl. simpl. unfold Tcp.MIN_TCP_RELAY_FRAME_SIZE in *. lia. }
  eexists _, _. split; [exact Hrecv|]. split; [done|]. intros ses Hses1 Hses2. by eapply settings_accepted.
Qed.


(** ** An instance: a client and a server, their bytes cut into small pieces *)
Module Demo.
#[local] Existing Instance platform64.
Import ServerRuntime.ServerRuntime.Demo.

Definition toy_mac (k m : Bytes) : Bytes := be_encode 32 (foldl (λ a b, a * 31 + b + 1) 7 (k ++ m)).

Lemma toy_mac_law : mac_law toy_mac.
Proof. intros k m. split; [apply length_be_encode|apply bytes_ok_be_encode]. Qed.

Definition server_config : ServerConfig.ServerConfig := demo_config (demo_secret 1) None.
Definition client_config : ClientConfig.ClientConfig :=
  {| ClientConfig.server_addr := bytes_of_string "uk.example:8443"; ClientConfig.c_server_addrs := None;
     ClientConfig.server_name := bytes_of_string "uk.example"; ClientConfig.observability_listen := None;
     ClientConfig.ca_cert_path := bytes_of_string "ca.pem"; ClientConfig.key_id := bytes_of_string "client";
     ClientConfig.secret := demo_secret 1; ClientConfig.c_handshake_timeout_seconds := None;
     ClientConfig.c_server_connect_retry_delay_millis := None; ClientConfig.c_socks_handshake_timeout_seconds := None;
     ClientConfig.c_tcp_open_timeout_seconds := None; ClientConfig.c_udp_flow_idle_timeout_seconds := None;
     ClientConfig.c_shutdown_timeout_seconds := None; ClientConfig.c_max_pending_open_bytes := None;
     ClientConfig.c_max_socks_connections := None; ClientConfig.c_max_buffered_bytes_per_session := None;
     ClientConfig.c_max_buffered_bytes_per_flow := None; ClientConfig.c_max_carrier_sessions := None;
     ClientConfig.c_relay_buffer_size := None; ClientConfig.masking := None |}.
Definition credential : Auth.Credential :=
  {| Auth.key_id := bytes_of_string "client"; Auth.secret := demo_secret 1; Auth.status := Auth.Active;
     Auth.not_before := None; Auth.not_after := None; Auth.policy_group := None |}.
Definition server_side : ServerSide :=
  {| clock_at_challenge := 1700000000 * 1000000000; clock_at_verify := 1700000001 * 1000000000; instant := 5;
     server_random := replicate 32 9; s_exporter := replicate 32 5; s_credentials := [credential];
     s_skew := 60 * 1000000000 |}.
Definition client_side : ClientSide :=
  {| client_clock := 1700000002 * 1000000000; client_random := replicate 32 8; c_exporter := replicate 32 5;
     c_datagrams := false |}.

Definition or_empty {E} (r : result E Bytes) : Bytes := match r with Ok bs => bs | _ => [] end.
Definition answer : result Auth.AuthError Bytes :=
  let? r := Auth.for_challenge toy_mac (client_random client_side) (ClientConfig.key_id client_config)
              (ClientConfig.secret client_config) (c_exporter client_side) (the_challenge server_side)
              (Auth.unix_now (client_clock client_side)) [] in
  Auth.response_encode r.

(** What each end writes, in pieces of eleven bytes. *)
Definition from_client : Bytes :=
  on_wire Frame.AuthResponse (or_empty answer) ++
  on_wire Frame.Settings (or_empty (Settings.encode (client_settings client_config false))).
Definition from_server : Bytes :=
  on_wire Frame.AuthChallenge (or_empty (Auth.challenge_encode (the_challenge server_side))) ++
  on_wire Frame.Settings (or_empty (Settings.encode (ServerRuntime.server_settings server_config false))).

Fixpoint pieces (fuel : nat) (bs : Bytes) : list read_event :=
  match fuel, bs with
  | O, _ | _, [] => [Eof]
  | S fuel, _ => Data (take 11 bs) :: pieces fuel (drop 11 bs)
  end.
Definition end_of (bs : Bytes) : Carrier :=
  {| input := pieces 40 bs; output := {| events := replicate 400 (Accept 3); flush_result := Ok tt; wire := [] |} |}.

Definition shared : ServerRuntime.Shared :=
  {| ServerRuntime.sh_masking := None; ServerRuntime.sh_metrics := demo_metrics;
     ServerRuntime.sh_limiter := RateLimit.with_allowlist RateLimit.config_default [] 0; ServerRuntime.sh_sessions := 2;
     ServerRuntime.sh_handshakes := 0 |}.
Definition cache : Auth.ReplayCache := Auth.with_max_entries 300 100.

Lemma demo_ready : ready server_config server_side.
Proof.
  split.
  - apply ServerConfig.validate_limits_iff; [apply demo_wf|by vm_compute].
  - split; by vm_compute.
  - split; by vm_compute.
  - split; [done|]. by apply Forall_replicate.
  - constructor; [|constructor]. by split; vm_compute.
Qed.

Lemma demo_honest : honest server_config server_side client_config client_side credential.
Proof.
  split.
  - apply demo_ready.
  - apply ClientConfig.validate_resource_limits_iff; by vm_compute.
  - done.
  - split; [done|]. by apply Forall_replicate.
  - split; by vm_compute.
  - split; [by vm_compute|]. by repeat constructor.
  - by vm_compute.
  - exists 0%nat. split_and!; [done|done|]. intros j c' Hj. lia.
  - done.
  - by vm_compute.
  - by vm_compute.
  - by vm_compute.
  - by vm_compute.
Qed.

Lemma pieces_awaited fuel bs : bytes_ok bs → awaited (pieces fuel bs).
Proof.
  revert bs. induction fuel as [|fuel IH]; intros bs Hb; [by split; [repeat constructor|]|].
  destruct bs as [|b bs]; [by split; [repeat constructor|]|]. cbn [pieces].
  destruct (IH (drop 11 (b :: bs)) (Forall_drop _ _ _ Hb)) as [H1 H2].
  split; [|exact H2]. constructor; [|exact H1]. split; [done|]. split; [done|]. by apply Forall_take.
Qed.

Lemma demo_attended bs : bool_decide (bytes_ok bs) = true → attended (end_of bs).
Proof. intros Hb%bool_decide_eq_true. by apply pieces_awaited. Qed.

Lemma demo_willing bs n : (n ≤ 400)%nat → willing (output (end_of bs)) n.
Proof. intros Hn. split_and!; [by apply Forall_replicate|cbn [output end_of events]; by rewrite length_replicate|done]. Qed.

Definition served (bs : Bytes) :=
  serve_authenticated_carrier toy_mac [] server_config server_side DeadlineExceeded demo_peer false shared cache (end_of bs).

Lemma handshake_completes_witness :
  ∃ cfg idle, (served from_client).1.1.1 = SessionStarted cfg idle false.
Proof.
  pose proof (handshake_completes toy_mac [] server_config server_side client_config client_side credential
    DeadlineExceeded demo_peer false shared cache (end_of from_client) (end_of from_server) toy_mac_law demo_honest
    (proj1 (Auth.fresh_cache_inv 300 100 0))) as H. fold (served from_client) in H.
  destruct (served from_client) as [[[sv sh'] cache'] cs'] eqn:Hs.
  destruct (authenticate_over_carrier toy_mac client_config client_side (end_of from_server)) as [settled cc'] eqn:Hc.
  destruct H as (cfg & _ & _ & -> & _).
  - apply not_elem_of_nil.
  - done.
  - done.
  - apply demo_attended. by vm_compute.
  - apply demo_attended. by vm_compute.
  - apply demo_willing. lia.
  - apply demo_willing. lia.
  - done.
  - done.
  - replace cc' with (authenticate_over_carrier toy_mac client_config client_side (end_of from_server)).2 by (by rewrite Hc).
    by vm_compute.
  - replace cs' with (served from_client).2 by (by rewrite Hs). by vm_compute.
  - by eexists _, _.
Defined.

End Demo.
End HandshakeTheorems.
